(* ===== verification/_CoqProject ===== *)
-Q . S2P
Prelude.v
Endian.v
Decimal.v
Resp.v
SortedMap.v
Memtable.v
Bloom.v
WalCodec.v
Posix.v
Wal.v
Sstable.v
Compaction.v
Store.v
StoreSpec.v
Command.v
Value.v
Abstract.v
Connection.v
LogGuard.v
Session.v
Server.v
ServerSpec.v
Main.v
Crash.v
Durable.v
Recovery.v
Lifecycle.v
Startup.v
Footprint.v
Refine.v
Merging.v
Ledger.v
Service.v
Restart.v
Fd.v
