(* ===== verification/Prelude.v ===== *)
(** * cachedb: a verification development

    cachedb is a single-threaded, persistent key-value server that speaks the Redis
    protocol.  A write goes to a write-ahead log and then to a sorted table in
    memory; a full memtable is flushed to an immutable sorted file; runs of such
    files are merged; a read goes down the layers, newest first; a restart reads
    the files and replays the log.  This library models that program from its C++
    source, one definition per function, and proves what the parts promise each
    other and their callers.

    ** The parts and where they are modelled

    - [Prelude] (this file): bytes, strings, integers at their widths, searching
      and slicing of buffers, the lemmas and tactics the other files share.
    - [Endian]: the little-endian codecs of [wal.cpp] and [sstable.cpp], which are
      two copies in the source and two modules here.
    - [Decimal]: what the source uses of [std::from_chars], [std::to_chars] and
      [std::to_string].
    - [Resp] ([resp.h], [resp.cpp]): the incremental request parser, one iteration
      of its switch at a time ([parse_step], [parse]), and the reply serialisers.
    - [SortedMap]: the ordered map behind the memtable, as a sorted list.
    - [Memtable] ([memtable.h], [memtable.cpp]): writes, tombstones, byte
      accounting, and the budgeted sweep of expired entries.
    - [Bloom] ([bloom.h], [bloom.cpp]): hashing, building and probing a filter;
      its promise to the table reader is the class [MembershipFilter].
    - [WalCodec] ([wal.h], [wal.cpp]): records, checksums, and the scan of replay.
    - [Posix]: the operating system, which is not code of the repository.  A
      [world] has names, contents and what of each is durable; an [env] is the
      kernel's answers and the clocks; a program is a function of type [M] that
      returns, throws, or never returns; [wp] specifies it.  Each call's effect is
      what its manual page documents.
    - [Wal] ([wal.h], [wal.cpp]): the log object, its fsync policies, group commit,
      truncation and replay.
    - [Sstable] ([sstable.h], [sstable.cpp]): the table writer, the reader with its
      Bloom block and sparse index, and the cursor.
    - [Compaction] ([compaction.h], [compaction.cpp]): the k-way merge.
    - [Store] ([store.h], [store.cpp]): the engine: lookup, set, del, expire, ttl,
      flush, maybe_compact, flush_all, recovery, the constructor; its invariant
      [store_inv] and the specification of each operation.
    - [StoreSpec]: the theorems about the engine.
    - [Command] ([command.h], [command.cpp]): every command handler, the dispatch
      table, [execute].
    - [Value] ([store.h]): the values lookups return, which borrow from the memtable
      or own their bytes, as views that know whose string they point into; the functions
      that read them, and [set], which is handed one.
    - [Abstract]: the specification: histories of writes, and the abstract server, a
      map with commands on it ([abs_execute] gives the reply and the changes of a
      command, at given readings of the clock).
    - [Connection] ([connection.h], [connection.cpp]): input buffering, the command
      loop, the output buffer.
    - [LogGuard]: which operations may touch the log and how, the guarantee the
      event loop relies on: at any moment the bytes of the file are on the disk, or
      the log object says that a sync is due, or the kernel has failed.
    - [Session]: one client's stream: the commands its bytes frame, the replies
      owed to it, and the invariant that ties them to a [Connection].
    - [Server] ([server.h], [server.cpp]): the constructor, accept, read, send and
      close, the commit of a turn and the loop, over a parameter [net] that gives the
      kernel's side of the sockets; the trace records every byte with the files as
      they were when it left, the files each time a turn looks for tables to merge, the
      answers to [EPOLL_CTL_MOD], and an input the process died in with the files it
      began on.  [ServerSpec] has its theorems.
    - [Main] ([main.cpp]): the command line, the start-up, the exit code.
    - [Crash]: what a killed process or a power cut leaves ([crash]), and the calls
      on a kernel that works until it stops ([crash_only]).
    - [Durable]: the history of a store and the invariant [running] that ties a
      store, its disk and its history; every operation keeps it, or dies in a state
      from which a crash can be recovered ([survives]).
    - [Recovery]: [startup] on such a disk.  [Lifecycle]: run, crash, start again.
      [Startup]: a start-up that fails or dies half-way.
    - [Footprint]: how big a memtable can get, so that every flush fits the format.
    - [Refine]: every command handler against the abstract server.
    - [Merging]: [maybe_compact] on a store that follows a history.
    - [Ledger]: the history of commands a connection writes, and its durable part.
    - [Service]: the event loop over all of it: what the clients of a server that is
      killed and started again can rely on.  [Restart]: from one life of the server to
      the next.
    - [Fd] ([fd.h]): the owner of a descriptor.

    State is a record with the fields of the class; an operation that changes it
    takes the record and returns a new one; buffers read out of range are [None]
    ([slice], and the loads of [Endian]; [substr] is for the calls of [std::string] that
    clamp);
    [size_t], [uint64_t] and [int64_t] arithmetic that can wrap is written with
    [u64], [u32] and [i64].  C++ exceptions are [Throw]; every one of them ends the
    process.

    ** What the theorems show

    - Protocol: parsing is total, resumable at any byte, rejects for good, and
      inverts the serialisers; every command gets exactly one well-formed reply;
      how a stream is cut into reads does not matter; pipelined requests run in
      order; partial writes lose and repeat nothing.
    - Log: a record round-trips; a torn tail is cut exactly; after any
      acknowledged calls and a crash at any point, replay yields every
      acknowledged record in order; under [kAlways] what is acknowledged is
      durable.
    - Tables: what is written is what is read back; damaged files never make the
      reader leave a buffer; a cursor yields every row; a merge holds what the
      newest input that has a key holds.
    - Engine: the store is an abstract map ([view]); lookup reads it, set and del
      change one key of it, flush keeps it, compaction keeps what readers of it can
      see from then on, and opening a directory restores it.  Each specification
      says what success means and that anything else is the kernel's doing: every
      operation returns on a kernel that does its work ([reliable]).
    - Event loop: once its count of unsynced bytes is honest ([loop_inv]), no byte
      leaves before the log is on the disk ([group_commit]), under every policy
      ([every_policy_syncs]); a turn whose fsync fails answers nobody; every client gets
      one reply per command in order, whatever the cut of its stream and the other
      clients; output the kernel did not take is announced for writing, or the kernel
      refused the announcement; a stop is clean.
    - Crashes: on a kernel that works until it stops, the store follows its history;
      wherever it dies, in the middle of a record or of a flush, a restart gives
      every key a value it had between the last sync and the end
      ([crash_recovery]), and after a power cut the restarted process satisfies the
      invariant the first one did ([power_cut_restart]).  A merge keeps all this
      ([maybe_compact_durable]), but for the one moment below, and even there loses no
      live key.  A start-up never loses
      anything, whatever the kernel answers, wherever it dies and however often it is
      tried ([startup_harmless]).
    - Commands: [execute] replies and changes the map as the abstract server says
      ([execute_refines]); a FLUSHALL that returned is final ([flush_all_final]);
      whatever the kernel does, it touches no file but the tables of the stack
      ([flush_all_only_stack]); borrowed values are read before they can change
      ([borrows_read_in_time]).
    - The whole server: the commands of all clients are one legal history of the
      abstract server, and every client gets its own replies of it in order
      ([server_linearizable]); and no crash takes back anything that was executed
      before the last reply left ([acknowledged_survive]); and after a power cut the
      next server starts in the state these theorems assume ([serve_again]), so that
      they hold of one life after another.  After a mere kill they need not: a restart
      makes nothing durable and takes all it finds for synced ([restart_trusts_log]).
      They put together the parser, the
      connections, the loop and its group commit, the engine with its flushes, sweeps
      and merges, the log, the tables and recovery, whatever the options on the
      command line (within the bounds below).
    - Command line: accepted options are in range, and every configuration in range
      can be written as arguments.
    - Descriptors: none is closed twice and none is left open ([fd_closed_once]).
    - Failure scenarios, each one run of the model on a fixed input, which show where
      the limits above come from and are not statements about all runs: a crash inside a
      full compaction or a FLUSHALL, a power cut in the first run, a power cut after a
      kill, a read error in a lookup, FLUSHALL after a late flush failure, a failed
      append followed by a good one, a damaged entry in a merge.

    ** Bounds and fuel

    Loops that are not structural take fuel, and the bound is proved enough:
    [parse] gets two rounds per byte and two more; [replay_scan] one per byte;
    [scan_block] one per byte; [merge_loop] one per byte of the inputs' data, and
    every row has at least nine; [on_bytes_loop] one per byte and one more, since a
    complete command takes at least a byte; the calls of [Posix] that retry consume
    the kernel's answers, and [reliable E n] says that there are more than [n] of
    them, with [n] bounded by the sizes of the buffers involved.  Sizes are
    assumed to fit the file formats ([row_ok], [fits], [flush_ready]), which the
    source assumes too.

    [run] of the server takes the number of turns; its theorems hold for every
    number.  A script of the network that runs out is a process killed in that call.

    The theorems about commands and the whole server carry three numbers.  A command
    has at most 2^29 words of at most 2^29 bytes each ([kMaxArg]), which the caps of
    the parser and of the read buffer guarantee for whatever a client sends.  The
    memtable's limit is at most 2^38 bytes ([kMaxMemtable]), so that a table's offsets
    and counts stay inside their fields.  And a store can use 2^64 sequence numbers, a
    command at most one: a history of 2^64 commands is [crowded], and nothing is said
    of it; nor of a reply that leaves while the log's file has 2^64 bytes or more
    ([swollen]), since a count of 64 bits cannot tell it from an empty one.  A merge can
    be as large as all tables together: with compaction on, nothing is said once a turn
    looks for tables to merge while the directory holds 2^35 bytes or more ([kMaxDisk],
    [oversized]), so that the merged table fits its 32-bit counts.  A log that is
    replayed is at most 2^34 bytes ([kMaxLog]), so that the memtable built from it is
    within its limit.  The clock is in milliseconds since the epoch and does not go back
    ([clock_sane]).

    A file is durable when what it holds is exactly what is on the disk ([durable]), and
    saved when the disk has at least that ([saved]): after a cut of the log the disk may
    still have what was cut off, which is a torn record and no harm.

    ** What is not modelled

    Messages to stderr and the installation of the signal handlers (the flag they set
    is read from [net]).  The bodies of [INFO]'s text are a string of the model's, which
    the abstract server leaves open.  Directories other than the data directory do not
    exist in the model, so [mkdir] only succeeds or fails.  Descriptors of files are
    inode numbers and are not reused; [Fd] is modelled on its own.  The tests, the
    scripts and the vendored test framework are not part of the program.

    Outside the crash theorems, by their nature: a death in the middle of [flush_all]
    ([in_wipe]), and one between the rename and the last unlink of a merge that drops
    tombstones ([torn_merge]), since the scenarios above show that a crash there can bring
    old values back.  Both are tied to what the run did: the command in flight is the one
    the last event of the trace began on the files recorded with it and did not return
    from ([in_flight], [cut_short]), and the merge is the one the last event began, with
    its own table under the newest name of its run and an older input still there.  Also
    outside: the very first run, until a flush has made the log's name durable;
    and what a process killed before its fsync has left in the page cache, which the
    next one replays without making it durable.  Where a crash theorem speaks of a kernel
    that works until it stops, I/O errors that the kernel reports are left to the
    theorems of [StoreSpec] and [ServerSpec], which hold for every kernel. *)

From Stdlib Require Export ZArith Lia Strings.Byte.
From stdpp Require Export prelude countable list strings sorting.

#[global] Open Scope Z_scope.

(** ** Bytes

    A [char] buffer of the source ([std::string], [std::string_view]) is a list
    of [Byte.byte].  Arithmetic on a byte goes through [b2z], which is the
    value after [static_cast<unsigned char>]. *)

Abbreviation byte := Byte.byte (only parsing).
Abbreviation bytes := (list Byte.byte) (only parsing).

Definition b2z (b : byte) : Z := Z.of_N (Byte.to_N b).

(** [static_cast<char>(z)] for a non-negative [z]: the low eight bits. *)
Definition z2b (z : Z) : byte :=
  match Byte.of_N (Z.to_N (z mod 256)) with Some b => b | None => x00 end.

(** A string literal of the source. *)
Definition lit (s : string) : bytes := String.list_byte_of_string s.

Arguments lit s%_string.

#[export] Instance byte_eq_decision : EqDecision byte := Byte.byte_eq_dec.

#[export] Program Instance byte_countable : Countable byte :=
  inj_countable Byte.to_N Byte.of_N _.
Next Obligation. apply Byte.of_to_N. Qed.

Lemma b2z_range (b : byte) : 0 <= b2z b < 256.
Proof. unfold b2z. pose proof (Byte.to_N_bounded b). lia. Qed.

Lemma z2b_b2z (b : byte) : z2b (b2z b) = b.
Proof.
  unfold z2b. rewrite Z.mod_small by apply b2z_range.
  unfold b2z. by rewrite N2Z.id, Byte.of_to_N.
Qed.

Lemma b2z_z2b (z : Z) : b2z (z2b z) = z mod 256.
Proof.
  unfold z2b, b2z.
  pose proof (Z.mod_pos_bound z 256 ltac:(lia)) as Hz.
  destruct (Byte.of_N (Z.to_N (z mod 256))) as [b|] eqn:E.
  - apply Byte.to_of_N in E. rewrite E. lia.
  - apply Byte.of_N_None_iff in E. lia.
Qed.

Lemma b2z_inj (a b : byte) : b2z a = b2z b -> a = b.
Proof. intros H. by rewrite <- (z2b_b2z a), H, z2b_b2z. Qed.

(** ** Lengths and positions

    [size_t] values that count bytes are [Z] where they meet declared lengths
    and constants of the source, and [nat] where they index a list. *)

Definition zlen {A} (l : list A) : Z := Z.of_nat (length l).

Lemma zlen_nil {A} : zlen (@nil A) = 0.
Proof. done. Qed.
Lemma zlen_cons {A} (x : A) l : zlen (x :: l) = 1 + zlen l.
Proof. unfold zlen. simpl. lia. Qed.
Lemma zlen_app {A} (l k : list A) : zlen (l ++ k) = zlen l + zlen k.
Proof. unfold zlen. rewrite length_app. lia. Qed.
Lemma zlen_take {A} (n : nat) (l : list A) : zlen (take n l) = Z.min (Z.of_nat n) (zlen l).
Proof. unfold zlen. rewrite length_take. lia. Qed.
Lemma zlen_drop {A} (n : nat) (l : list A) : zlen (drop n l) = Z.max 0 (zlen l - Z.of_nat n).
Proof. unfold zlen. rewrite length_drop. lia. Qed.
Lemma zlen_nonneg {A} (l : list A) : 0 <= zlen l.
Proof. unfold zlen. lia. Qed.
Lemma zlen_to_nat {A} (l : list A) : Z.to_nat (zlen l) = length l.
Proof. unfold zlen. lia. Qed.
Lemma zlen_zero_nil {A} (l : list A) : zlen l = 0 -> l = [].
Proof. destruct l; [done|]. rewrite zlen_cons. pose proof (zlen_nonneg l). lia. Qed.

(** ** Slices *)

(** [in.substr(pos, n)], which takes what there is. *)
Definition substr (l : bytes) (pos n : Z) : bytes :=
  take (Z.to_nat n) (drop (Z.to_nat pos) l).

(** [n] bytes read through a bare pointer at [pos]: [None] is a read outside the buffer. *)
Definition slice (l : bytes) (pos n : Z) : option bytes :=
  if (0 <=? pos) && (0 <=? n) && (pos + n <=? zlen l) then Some (substr l pos n) else None.

Lemma drop_app_plus {A} (n m : nat) (a b : list A) :
  length a = n -> drop (n + m) (a ++ b) = drop m b.
Proof. intros <-. by rewrite <- drop_drop, drop_app_length. Qed.

Lemma drop_app_exact {A} (n : nat) (a b : list A) : length a = n -> drop n (a ++ b) = b.
Proof. intros <-. apply drop_app_length. Qed.

Lemma substr_app_mid a b c n :
  zlen a = n -> substr (a ++ b ++ c) n (zlen b) = b.
Proof.
  intros <-. unfold substr. by rewrite !zlen_to_nat, drop_app_length, take_app_length.
Qed.

Lemma slice_inside l pos n : 0 <= pos -> 0 <= n -> pos + n <= zlen l -> slice l pos n = Some (substr l pos n).
Proof. intros H1 H2 H3. unfold slice. by rewrite (proj2 (Z.leb_le 0 pos)), (proj2 (Z.leb_le 0 n)), (proj2 (Z.leb_le _ _)). Qed.

Lemma slice_app_mid a b c n : zlen a = n -> slice (a ++ b ++ c) n (zlen b) = Some b.
Proof.
  intros Ha. rewrite slice_inside.
  - by rewrite substr_app_mid.
  - rewrite <- Ha. apply zlen_nonneg.
  - apply zlen_nonneg.
  - rewrite !zlen_app, Ha. pose proof (zlen_nonneg c). lia.
Qed.

(** ** Machine-width integers *)

Definition u32 (z : Z) : Z := z mod 2 ^ 32.
Definition u64 (z : Z) : Z := z mod 2 ^ 64.
(** [static_cast<int64_t>] of an unsigned 64-bit value (two's complement). *)
Definition i64 (z : Z) : Z := (z + 2 ^ 63) mod 2 ^ 64 - 2 ^ 63.

Definition INT64_MAX : Z := 2 ^ 63 - 1.
Definition INT64_MIN : Z := - 2 ^ 63.

Definition is_u32 (z : Z) : Prop := 0 <= z < 2 ^ 32.
Definition is_u64 (z : Z) : Prop := 0 <= z < 2 ^ 64.
Definition is_i64 (z : Z) : Prop := - 2 ^ 63 <= z < 2 ^ 63.

Lemma u32_range z : is_u32 (u32 z).
Proof. apply Z.mod_pos_bound. lia. Qed.
Lemma u64_range z : is_u64 (u64 z).
Proof. apply Z.mod_pos_bound. lia. Qed.
Lemma u32_id z : is_u32 z -> u32 z = z.
Proof. intros. by apply Z.mod_small. Qed.
Lemma u64_id z : is_u64 z -> u64 z = z.
Proof. intros. by apply Z.mod_small. Qed.

(** Casting a signed 64-bit value to unsigned and back is the identity. *)
Lemma i64_u64 z : is_i64 z -> i64 (u64 z) = z.
Proof.
  unfold is_i64, i64, u64. intros Hz.
  rewrite Zplus_mod_idemp_l, Z.mod_small by lia. lia.
Qed.

Lemma i64_range z : is_i64 (i64 z).
Proof.
  unfold is_i64, i64. pose proof (Z.mod_pos_bound (z + 2 ^ 63) (2 ^ 64)). lia.
Qed.

(** ** Lexicographic order on byte strings

    [std::string::compare] compares with [memcmp], that is as unsigned bytes,
    and a proper prefix is smaller. *)

Fixpoint bytes_cmp (a b : bytes) : comparison :=
  match a, b with
  | [], [] => Eq
  | [], _ :: _ => Lt
  | _ :: _, [] => Gt
  | x :: a', y :: b' =>
      match b2z x ?= b2z y with
      | Eq => bytes_cmp a' b'
      | c => c
      end
  end.

Definition bytes_lt (a b : bytes) : Prop := bytes_cmp a b = Lt.
Definition bytes_ltb (a b : bytes) : bool :=
  match bytes_cmp a b with Lt => true | _ => false end.
Definition bytes_eqb (a b : bytes) : bool := bool_decide (a = b).

Lemma bytes_cmp_refl a : bytes_cmp a a = Eq.
Proof. induction a as [|x a IH]; simpl; [done|]. by rewrite Z.compare_refl. Qed.

Lemma bytes_cmp_eq a b : bytes_cmp a b = Eq <-> a = b.
Proof.
  split; [|intros ->; apply bytes_cmp_refl].
  revert b. induction a as [|x a IH]; intros [|y b]; simpl; try done.
  destruct (Z.compare_spec (b2z x) (b2z y)) as [E|E|E]; try done.
  intros H. apply b2z_inj in E. subst. f_equal. by apply IH.
Qed.

Lemma bytes_cmp_antisym a b : bytes_cmp b a = CompOpp (bytes_cmp a b).
Proof.
  revert b. induction a as [|x a IH]; intros [|y b]; simpl; try done.
  rewrite (Z.compare_antisym (b2z x) (b2z y)).
  destruct (b2z x ?= b2z y); simpl; auto.
Qed.

#[export] Instance bytes_lt_trans : Transitive bytes_lt.
Proof.
  unfold bytes_lt. intros a. induction a as [|x a IH]; intros [|y b] [|z c];
    simpl; try done.
  destruct (Z.compare_spec (b2z x) (b2z y)); try done;
  destruct (Z.compare_spec (b2z y) (b2z z)); try done;
  destruct (Z.compare_spec (b2z x) (b2z z)); try done; try lia; eauto.
Qed.

#[export] Instance bytes_lt_irrefl : Irreflexive bytes_lt.
Proof. intros a. unfold complement, bytes_lt. by rewrite bytes_cmp_refl. Qed.

#[export] Instance bytes_lt_strict : StrictOrder bytes_lt.
Proof. split; apply _. Qed.

#[export] Instance bytes_lt_dec : RelDecision bytes_lt.
Proof. intros a b. unfold bytes_lt. apply _. Defined.

Lemma bytes_ltb_lt a b : bytes_ltb a b = true <-> bytes_lt a b.
Proof. unfold bytes_ltb, bytes_lt. by destruct (bytes_cmp a b). Qed.

Lemma bytes_lt_trichotomy a b : bytes_lt a b \/ a = b \/ bytes_lt b a.
Proof.
  unfold bytes_lt. rewrite (bytes_cmp_antisym a b).
  destruct (bytes_cmp a b) eqn:E; simpl; auto.
  right; left. by apply bytes_cmp_eq.
Qed.

Lemma bytes_lt_ne a b : bytes_lt a b -> a <> b.
Proof. intros H ->. by apply (irreflexivity bytes_lt b). Qed.

Lemma bytes_lt_asym a b : bytes_lt a b -> ~ bytes_lt b a.
Proof. intros H1 H2. apply (irreflexivity bytes_lt a). by transitivity b. Qed.

(** ** Searching a buffer *)

(** [in.find(c)]: the index of the first occurrence of a byte. *)
Fixpoint find_byte (c : byte) (l : bytes) : option nat :=
  match l with
  | [] => None
  | x :: l' => if decide (x = c) then Some O else S <$> find_byte c l'
  end.

(** [in.find("\r\n")]: the index of the first carriage return that is followed
    by a line feed. *)
Fixpoint find_crlf (l : bytes) : option nat :=
  match l with
  | [] => None
  | x :: l' =>
      match l' with
      | y :: _ =>
          if decide (x = x0d /\ y = x0a) then Some O else S <$> find_crlf l'
      | [] => None
      end
  end.

Lemma find_byte_bound c l i : find_byte c l = Some i -> (i < length l)%nat.
Proof.
  revert i. induction l as [|x l IH]; intros i; simpl; [done|].
  case_decide; [intros [= <-]; lia|].
  destruct (find_byte c l); intros [= <-]. specialize (IH _ eq_refl). lia.
Qed.

Lemma find_byte_app c a b i : find_byte c a = Some i -> find_byte c (a ++ b) = Some i.
Proof.
  revert i. induction a as [|x a IH]; intros i; simpl; [done|].
  case_decide; [done|].
  destruct (find_byte c a); intros [= <-]. by rewrite (IH _ eq_refl).
Qed.

Lemma find_crlf_cons x y l :
  find_crlf (x :: y :: l) =
    if decide (x = x0d /\ y = x0a) then Some O else S <$> find_crlf (y :: l).
Proof. done. Qed.

Lemma find_crlf_bound l i : find_crlf l = Some i -> (i + 2 <= length l)%nat.
Proof.
  revert i. induction l as [|x [|y l] IH]; intros i; [done..|].
  rewrite find_crlf_cons. case_decide; [intros [= <-]; simpl; lia|].
  destruct (find_crlf (y :: l)); intros [= <-]. specialize (IH _ eq_refl). simpl in *. lia.
Qed.

Lemma find_crlf_app a b i : find_crlf a = Some i -> find_crlf (a ++ b) = Some i.
Proof.
  revert i. induction a as [|x [|y a] IH]; intros i; [done..|].
  change ((x :: y :: a) ++ b) with (x :: y :: (a ++ b)). rewrite !find_crlf_cons.
  case_decide; [done|].
  destruct (find_crlf (y :: a)); intros [= <-]. by rewrite <- app_comm_cons in IH; rewrite (IH _ eq_refl).
Qed.

(** The first CRLF after a CR-free prefix is the one that follows it. *)
Lemma find_crlf_skip a b :
  Forall (fun c => c <> x0d) a -> find_crlf (a ++ x0d :: x0a :: b) = Some (length a).
Proof.
  induction 1 as [|x a Hx Ha IH].
  - rewrite app_nil_l, find_crlf_cons. by rewrite decide_True.
  - destruct a as [|y a]; rewrite <- app_comm_cons in *.
    + rewrite app_nil_l in *. rewrite find_crlf_cons, decide_False by naive_solver.
      by rewrite IH.
    + rewrite <- app_comm_cons in *. rewrite find_crlf_cons, decide_False by naive_solver.
      by rewrite IH.
Qed.

(** ** Proof automation *)

Create HintDb cachedb.
Create Rewrite HintDb zlen.
#[export] Hint Resolve zlen_nonneg b2z_range u32_range u64_range i64_range : cachedb.
#[export] Hint Rewrite @zlen_nil @zlen_cons @zlen_app @zlen_take @zlen_drop : zlen.

Ltac zlen_simpl := autorewrite with zlen in *.

(** Introduces the sign of every length in sight before calling [lia]. *)
Ltac zlen_pos :=
  repeat match goal with
  | |- context [zlen ?l] =>
      lazymatch goal with
      | _ : 0 <= zlen l |- _ => fail
      | _ => pose proof (zlen_nonneg l)
      end
  | H : context [zlen ?l] |- _ =>
      lazymatch goal with
      | _ : 0 <= zlen l |- _ => fail
      | _ => pose proof (zlen_nonneg l)
      end
  end.
Ltac zlia := zlen_simpl; zlen_pos; lia.

(** Case analysis on the scrutinee of the first [match] or [if] of the goal. *)

