(* ===== verification/Endian.v ===== *)
(** * Little-endian integers on the wire

    Both file formats write their integers byte by byte, least significant
    byte first: [put_u32], [put_u64], [load_u32] and [load_u64] exist twice in
    the source, once in [wal.cpp] (32-bit versions unrolled) and once in
    [sstable.cpp] (as loops).  A pointer [const char* p] into a buffer is the
    suffix of the buffer that starts at [p]; a load that would run past the end
    of the buffer is [None]. *)

From S2P Require Import Prelude.

(** ** Reference encoding *)

Fixpoint le_bytes (n : nat) (v : Z) : bytes :=
  match n with
  | O => []
  | S n' => z2b (v mod 256) :: le_bytes n' (v / 256)
  end.

Fixpoint le_val (l : bytes) : Z :=
  match l with
  | [] => 0
  | b :: l' => b2z b + 256 * le_val l'
  end.

Lemma length_le_bytes n v : length (le_bytes n v) = n.
Proof. revert v. induction n; intros v; simpl; auto. Qed.

Lemma zlen_le_bytes n v : zlen (le_bytes n v) = Z.of_nat n.
Proof. unfold zlen. by rewrite length_le_bytes. Qed.

Lemma le_val_bytes n v : le_val (le_bytes n v) = v mod 256 ^ Z.of_nat n.
Proof.
  revert v. induction n as [|n IH]; intros v.
  - simpl. by rewrite Z.mod_1_r.
  - simpl le_bytes. simpl le_val.
    rewrite IH, b2z_z2b, Zmod_mod, Nat2Z.inj_succ, Z.pow_succ_r by lia.
    rewrite (Z.rem_mul_r v 256 (256 ^ Z.of_nat n)) by lia. done.
Qed.

Lemma le_bytes_val l : le_bytes (length l) (le_val l) = l.
Proof.
  induction l as [|b l IH]; [done|]. cbn [length le_bytes le_val].
  pose proof (b2z_range b).
  replace ((b2z b + 256 * le_val l) / 256) with (le_val l).
  2: { rewrite Z.add_comm, Z.mul_comm, Z.div_add_l by lia.
       rewrite Z.div_small by done. lia. }
  rewrite IH. f_equal. rewrite <- (z2b_b2z b) at 2. f_equal.
  rewrite Z.add_comm, Z.mul_comm, Z.add_comm, Z_mod_plus_full.
  by apply Z.mod_small.
Qed.

Lemma le_val_range l : 0 <= le_val l < 256 ^ zlen l.
Proof.
  induction l as [|b l IH]; simpl; [done|].
  pose proof (b2z_range b). rewrite zlen_cons, Z.pow_add_r by zlia. lia.
Qed.

(** ** Bit-level helpers *)

Lemma lor_shiftl_add (v b n : Z) :
  0 <= n -> 0 <= b < 2 ^ n -> Z.lor (Z.shiftl v n) b = v * 2 ^ n + b.
Proof.
  intros Hn Hb. rewrite <- Z.shiftl_mul_pow2 by done.
  assert (Z.land (Z.shiftl v n) b = 0) as Hl.
  { apply Z.bits_inj'. intros i Hi. rewrite Z.land_spec, Z.bits_0.
    destruct (Z.lt_ge_cases i n).
    - by rewrite Z.shiftl_spec_low.
    - rewrite <- (Z.mod_small b (2 ^ n)) by done.
      rewrite Z.mod_pow2_bits_high by lia. by rewrite andb_false_r. }
  rewrite <- Z.add_lor_land, Hl. lia.
Qed.

Lemma land_255 v : Z.land v 255 = v mod 256.
Proof. change 255 with (Z.ones 8). by rewrite Z.land_ones. Qed.

Lemma z2b_mod v : z2b (v mod 256) = z2b v.
Proof. unfold z2b. by rewrite Zmod_mod. Qed.

(** ** [wal.cpp] *)

Module WalEndian.

(** [put_u32]: four [push_back]s. *)
Definition put_u32 (out : bytes) (v : Z) : bytes :=
  out ++ [z2b (Z.land v 0xFF)]
      ++ [z2b (Z.land (Z.shiftr v 8) 0xFF)]
      ++ [z2b (Z.land (Z.shiftr v 16) 0xFF)]
      ++ [z2b (Z.land (Z.shiftr v 24) 0xFF)].

(** [put_u64]: a loop over [shift = 0, 8, ..., 56]. *)
Definition put_u64 (out : bytes) (v : Z) : bytes :=
  fold_left (fun o shift => o ++ [z2b (Z.land (Z.shiftr v shift) 0xFF)])
    [0; 8; 16; 24; 32; 40; 48; 56] out.

Definition load_u32 (p : bytes) : option Z :=
  match p with
  | b0 :: b1 :: b2 :: b3 :: _ =>
      Some (Z.lor (Z.lor (Z.lor (b2z b0) (Z.shiftl (b2z b1) 8))
                         (Z.shiftl (b2z b2) 16))
                  (Z.shiftl (b2z b3) 24))
  | _ => None
  end.

(** [load_u64]: [v = (v << 8) | b[i]] for [i = 7] down to [0], on [uint64_t]. *)
Definition load_u64 (p : bytes) : option Z :=
  if decide (8 <= zlen p) then
    Some (fold_left (fun v b => Z.lor (u64 (Z.shiftl v 8)) (b2z b))
            (rev (take 8 p)) 0)
  else None.

End WalEndian.

(** ** [sstable.cpp] *)

Module SstEndian.

Definition put_u32 (out : bytes) (v : Z) : bytes :=
  fold_left (fun o shift => o ++ [z2b (Z.land (Z.shiftr v shift) 0xFF)])
    [0; 8; 16; 24] out.

Definition put_u64 (out : bytes) (v : Z) : bytes :=
  fold_left (fun o shift => o ++ [z2b (Z.land (Z.shiftr v shift) 0xFF)])
    [0; 8; 16; 24; 32; 40; 48; 56] out.

(** [load_u32]: [v = (v << 8) | b[i]] for [i = 3] down to [0], on [uint32_t]. *)
Definition load_u32 (p : bytes) : option Z :=
  if decide (4 <= zlen p) then
    Some (fold_left (fun v b => Z.lor (u32 (Z.shiftl v 8)) (b2z b))
            (rev (take 4 p)) 0)
  else None.

Definition load_u64 (p : bytes) : option Z :=
  if decide (8 <= zlen p) then
    Some (fold_left (fun v b => Z.lor (u64 (Z.shiftl v 8)) (b2z b))
            (rev (take 8 p)) 0)
  else None.

End SstEndian.

(** ** Every version is the reference encoding *)

Lemma shift_byte v n :
  0 <= n -> z2b (Z.land (Z.shiftr v n) 255) = z2b ((v / 2 ^ n) mod 256).
Proof. intros. by rewrite land_255, Z.shiftr_div_pow2. Qed.

Lemma put4_le v :
  [z2b (Z.land (Z.shiftr v 0) 255); z2b (Z.land (Z.shiftr v 8) 255);
   z2b (Z.land (Z.shiftr v 16) 255); z2b (Z.land (Z.shiftr v 24) 255)]
  = le_bytes 4 v.
Proof.
  rewrite !shift_byte by lia. cbn [le_bytes].
  rewrite !Z.div_div by lia. by rewrite Z.div_1_r.
Qed.

Lemma wal_put_u32_le out v : WalEndian.put_u32 out v = out ++ le_bytes 4 v.
Proof.
  rewrite <- put4_le. unfold WalEndian.put_u32. by rewrite Z.shiftr_0_r.
Qed.

Lemma sst_put_u32_le out v : SstEndian.put_u32 out v = out ++ le_bytes 4 v.
Proof.
  rewrite <- put4_le. unfold SstEndian.put_u32. simpl. by rewrite <- !app_assoc.
Qed.

Lemma wal_put_u64_le out v : WalEndian.put_u64 out v = out ++ le_bytes 8 v.
Proof.
  unfold WalEndian.put_u64. cbn [fold_left]. rewrite <- !app_assoc. f_equal.
  cbn [app le_bytes]. rewrite !shift_byte by lia.
  rewrite !Z.div_div by lia. by rewrite Z.div_1_r.
Qed.

Lemma sst_put_u64_le out v : SstEndian.put_u64 out v = out ++ le_bytes 8 v.
Proof. apply wal_put_u64_le. Qed.

(** The load loops, for any width [w] that holds the bytes read. *)
Lemma load_loop (w : Z) l :
  0 < w -> 256 ^ zlen l <= w ->
  fold_left (fun v b => Z.lor (Z.shiftl v 8 mod w) (b2z b)) (rev l) 0 = le_val l.
Proof.
  intros Hw. induction l as [|b l IH]; intros Hl; simpl; [done|].
  rewrite zlen_cons, Z.pow_add_r in Hl by zlia.
  pose proof (le_val_range l) as Hr. pose proof (b2z_range b) as Hb.
  rewrite fold_left_app. simpl. rewrite IH by lia.
  rewrite Z.shiftl_mul_pow2 by lia.
  rewrite Z.mod_small by lia.
  rewrite <- Z.shiftl_mul_pow2, lor_shiftl_add by lia. lia.
Qed.

#[export] Hint Rewrite zlen_le_bytes : zlen.

Lemma load_u64_le p :
  WalEndian.load_u64 p = if decide (8 <= zlen p) then Some (le_val (take 8 p)) else None.
Proof.
  unfold WalEndian.load_u64. case_decide; [|done]. f_equal.
  apply (load_loop (2 ^ 64)); [lia|]. rewrite zlen_take.
  replace (Z.min _ _) with 8 by lia. lia.
Qed.

Lemma sst_load_u64_le p :
  SstEndian.load_u64 p = if decide (8 <= zlen p) then Some (le_val (take 8 p)) else None.
Proof. apply load_u64_le. Qed.

Lemma sst_load_u32_le p :
  SstEndian.load_u32 p = if decide (4 <= zlen p) then Some (le_val (take 4 p)) else None.
Proof.
  unfold SstEndian.load_u32. case_decide; [|done]. f_equal.
  apply (load_loop (2 ^ 32)); [lia|]. rewrite zlen_take.
  replace (Z.min _ _) with 4 by lia. lia.
Qed.

Lemma load_u32_le p :
  WalEndian.load_u32 p = if decide (4 <= zlen p) then Some (le_val (take 4 p)) else None.
Proof.
  destruct p as [|b0 [|b1 [|b2 [|b3 p]]]]; try done.
  rewrite decide_True by zlia. cbn [WalEndian.load_u32 take le_val]. f_equal.
  pose proof (b2z_range b0). pose proof (b2z_range b1). pose proof (b2z_range b2).
  rewrite (Z.lor_comm (b2z b0)), lor_shiftl_add by lia.
  rewrite (Z.lor_comm _ (Z.shiftl (b2z b2) 16)), lor_shiftl_add by lia.
  rewrite (Z.lor_comm _ (Z.shiftl (b2z b3) 24)), lor_shiftl_add by lia.
  rewrite take_0. cbn [le_val]. lia.
Qed.

(** Loading what was stored, with anything after it. *)
Lemma take_le_bytes n v rest : take n (le_bytes n v ++ rest) = le_bytes n v.
Proof.
  rewrite <- (length_le_bytes n v) at 1. apply take_app_length.
Qed.

Lemma load_put_u32 v rest :
  is_u32 v -> WalEndian.load_u32 (le_bytes 4 v ++ rest) = Some v.
Proof.
  intros Hv. rewrite load_u32_le, decide_True by zlia.
  rewrite take_le_bytes, le_val_bytes. f_equal. by apply Z.mod_small.
Qed.

Lemma load_put_u64 v rest :
  is_u64 v -> WalEndian.load_u64 (le_bytes 8 v ++ rest) = Some v.
Proof.
  intros Hv. rewrite load_u64_le, decide_True by zlia.
  rewrite take_le_bytes, le_val_bytes. f_equal. by apply Z.mod_small.
Qed.

Lemma sst_load_put_u32 v rest :
  is_u32 v -> SstEndian.load_u32 (le_bytes 4 v ++ rest) = Some v.
Proof. rewrite sst_load_u32_le, <- load_u32_le. apply load_put_u32. Qed.

Lemma sst_load_put_u64 v rest :
  is_u64 v -> SstEndian.load_u64 (le_bytes 8 v ++ rest) = Some v.
Proof. apply load_put_u64. Qed.

#[global] Arguments le_bytes : simpl never.
#[global] Arguments le_val : simpl never.
