(* ===== verification/Decimal.v ===== *)
(** * Decimal integers

    What the source uses of [<charconv>] and [std::to_string]: [std::from_chars]
    and [std::to_chars] in base ten on [int64_t].  Shared by the RESP codec
    ([resp.cpp]), the command layer ([command.cpp]) and the table names
    ([store.cpp]). *)

From S2P Require Import Prelude.

Definition is_digit (b : byte) : bool := (48 <=? b2z b) && (b2z b <=? 57).
Definition digit_val (b : byte) : Z := b2z b - 48.
Definition digit (d : Z) : byte := z2b (48 + d).

(** The longest prefix of digits, and what follows it. *)
Fixpoint span_digits (l : bytes) : bytes * bytes :=
  match l with
  | [] => ([], [])
  | b :: l' =>
      if is_digit b then let '(ds, r) := span_digits l' in (b :: ds, r)
      else ([], l)
  end.

(** The value of a run of digits, most significant first. *)
Definition dec_val (ds : bytes) : Z :=
  fold_left (fun v b => v * 10 + digit_val b) ds 0.

(** [std::from_chars(first, last, int64_t&)]: an optional minus sign and the
    longest run of digits.  The first component is where [ptr] points. *)
Inductive from_chars_result :=
  | FcOk (ptr : bytes) (value : Z)
  | FcOutOfRange (ptr : bytes)
  | FcInvalid.

Definition from_chars (s : bytes) : from_chars_result :=
  let '(negative, body) :=
    match s with
    | b :: t => if decide (b = x2d) then (true, t) else (false, s)
    | [] => (false, s)
    end in
  let '(ds, ptr) := span_digits body in
  match ds with
  | [] => FcInvalid
  | _ =>
      let v := if negative : bool then - dec_val ds else dec_val ds in
      if (INT64_MIN <=? v) && (v <=? INT64_MAX) then FcOk ptr v
      else FcOutOfRange ptr
  end.

(** The digits of a non-negative number below [10 ^ fuel]. *)
Fixpoint dec_digits (fuel : nat) (n : Z) : bytes :=
  match fuel with
  | O => []
  | S f =>
      if n <? 10 then [digit n]
      else dec_digits f (n / 10) ++ [digit (n mod 10)]
  end.

(** [std::to_chars(int64_t)] and [std::to_string]: twenty digits hold every
    64-bit integer, signed or not. *)
Definition to_chars (n : Z) : bytes :=
  if n <? 0 then x2d :: dec_digits 20 (- n) else dec_digits 20 n.

(** ** Digits *)

Lemma is_digit_spec b : is_digit b = true <-> 48 <= b2z b <= 57.
Proof. unfold is_digit. lia. Qed.

Lemma b2z_digit d : 0 <= d < 10 -> b2z (digit d) = 48 + d.
Proof. intros. unfold digit. rewrite b2z_z2b. apply Z.mod_small. lia. Qed.

Lemma is_digit_digit d : 0 <= d < 10 -> is_digit (digit d) = true.
Proof. intros. rewrite is_digit_spec, b2z_digit by done. lia. Qed.

Lemma digit_val_digit d : 0 <= d < 10 -> digit_val (digit d) = d.
Proof. intros. unfold digit_val. rewrite b2z_digit by done. lia. Qed.

Lemma digit_of_val b : is_digit b = true -> digit (digit_val b) = b.
Proof.
  intros H%is_digit_spec. apply b2z_inj. rewrite b2z_digit; unfold digit_val; lia.
Qed.

Lemma digit_val_range b : is_digit b = true -> 0 <= digit_val b < 10.
Proof. intros H%is_digit_spec. unfold digit_val. lia. Qed.

#[export] Hint Resolve is_digit_digit digit_val_range : cachedb.

Lemma dec_val_snoc ds b : dec_val (ds ++ [b]) = dec_val ds * 10 + digit_val b.
Proof. unfold dec_val. by rewrite fold_left_app. Qed.

Lemma dec_val_app a b : dec_val (a ++ b) = dec_val a * 10 ^ zlen b + dec_val b.
Proof.
  induction b as [|c b IH] using rev_ind; [rewrite app_nil_r; change (zlen []) with 0;
    change (dec_val []) with 0; lia|].
  rewrite app_assoc, !dec_val_snoc, IH, zlen_app, Z.pow_add_r by zlia. change (zlen [c]) with 1. lia.
Qed.

Definition all_digits (l : bytes) : Prop := Forall (fun b => is_digit b = true) l.

Lemma dec_val_nonneg ds : all_digits ds -> 0 <= dec_val ds.
Proof.
  induction ds as [|b ds IH] using rev_ind; [done|]. intros [H1 H2]%Forall_app.
  rewrite dec_val_snoc. apply Forall_cons in H2 as [Hb%digit_val_range _].
  specialize (IH H1). lia.
Qed.

Lemma dec_val_cons_ge b ds :
  all_digits (b :: ds) -> digit_val b * 10 ^ zlen ds <= dec_val (b :: ds).
Proof.
  induction ds as [|c ds IH] using rev_ind; intros Had.
  - unfold dec_val. simpl. change (zlen []) with 0. lia.
  - change (b :: ds ++ [c]) with ((b :: ds) ++ [c]) in *.
    apply Forall_app in Had as [Had Hc]. apply Forall_cons in Hc as [Hc%digit_val_range _].
    specialize (IH Had). rewrite dec_val_snoc, zlen_app, Z.pow_add_r by zlia.
    change (zlen [c]) with 1. lia.
Qed.

Lemma dec_val_bound ds : all_digits ds -> dec_val ds < 10 ^ zlen ds.
Proof.
  induction ds as [|b ds IH] using rev_ind; [done|]. intros [H1 H2]%Forall_app.
  apply Forall_cons in H2 as [Hb%digit_val_range _]. specialize (IH H1).
  rewrite dec_val_snoc, zlen_app, Z.pow_add_r by zlia. change (zlen [b]) with 1. lia.
Qed.

Lemma span_digits_app ds rest :
  all_digits ds ->
  match rest with b :: _ => is_digit b = false | [] => True end ->
  span_digits (ds ++ rest) = (ds, rest).
Proof.
  intros Hds Hr. induction Hds as [|b ds Hb _ IH]; simpl.
  - destruct rest as [|b r]; [done|]. simpl. by rewrite Hr.
  - by rewrite Hb, IH.
Qed.

Lemma span_digits_spec l ds r :
  span_digits l = (ds, r) -> l = ds ++ r /\ all_digits ds.
Proof.
  revert ds r. induction l as [|b l IH]; intros ds r; simpl.
  { intros [= <- <-]. split; [done|constructor]. }
  destruct (is_digit b) eqn:Hb.
  - destruct (span_digits l) as [ds' r'] eqn:E. intros [= <- <-].
    destruct (IH _ _ eq_refl) as [-> ?]. split; [done|by constructor].
  - intros [= <- <-]. split; [done|constructor].
Qed.

(** ** [to_chars] *)

Lemma dec_digits_digits f n : 0 <= n -> all_digits (dec_digits f n).
Proof.
  revert n. induction f as [|f IH]; intros n Hn; simpl; [constructor|].
  case_match.
  - constructor; [|constructor]. apply is_digit_digit. lia.
  - apply Forall_app. split; [apply IH; apply Z.div_pos; lia|].
    constructor; [|constructor]. apply is_digit_digit. by apply Z.mod_pos_bound.
Qed.

Lemma dec_digits_val f n : 0 <= n < 10 ^ Z.of_nat f -> dec_val (dec_digits f n) = n.
Proof.
  revert n. induction f as [|f IH]; intros n Hn; [simpl in Hn; unfold dec_val; simpl; lia|].
  rewrite Nat2Z.inj_succ, Z.pow_succ_r in Hn by lia. simpl. case_match.
  - unfold dec_val. simpl. rewrite digit_val_digit; lia.
  - rewrite dec_val_snoc, IH, digit_val_digit.
    + rewrite (Z.div_mod n 10) at 3; lia.
    + by apply Z.mod_pos_bound.
    + split; [apply Z.div_pos; lia|]. apply Z.div_lt_upper_bound; lia.
Qed.

Lemma dec_digits_length f n : (length (dec_digits f n) <= f)%nat.
Proof.
  revert n. induction f as [|f IH]; intros n; simpl; [done|].
  case_match; simpl; [lia|]. rewrite length_app. simpl. specialize (IH (n / 10)). lia.
Qed.

Lemma dec_digits_nonempty f n : dec_digits (S f) n <> [].
Proof. simpl. case_match; [done|]. by destruct (dec_digits f (n / 10)). Qed.

(** No leading zero: the first digit of a positive number is not ['0']. *)
Lemma dec_digits_head f n :
  0 < n < 10 ^ Z.of_nat f ->
  exists b l, dec_digits f n = b :: l /\ digit_val b <> 0 /\ is_digit b = true.
Proof.
  revert n. induction f as [|f IH]; intros n Hn; [simpl in Hn; lia|].
  rewrite Nat2Z.inj_succ, Z.pow_succ_r in Hn by lia. simpl. case_match.
  - exists (digit n), []. rewrite digit_val_digit by lia. split_and!; [done|lia|].
    apply is_digit_digit. lia.
  - destruct (IH (n / 10)) as (b & l & E & Hb & Hd).
    { split; [apply Z.div_str_pos; lia|]. apply Z.div_lt_upper_bound; lia. }
    rewrite E. by exists b, (l ++ [digit (n mod 10)]).
Qed.

(** Canonical digit strings are the image of [dec_digits]. *)
Lemma dec_digits_canonical f ds :
  all_digits ds -> ds <> [] -> zlen ds <= Z.of_nat f ->
  match ds with b :: _ :: _ => digit_val b <> 0 | _ => True end ->
  dec_digits f (dec_val ds) = ds.
Proof.
  revert f. induction ds as [|b ds IH] using rev_ind; [done|].
  intros f [Hds Hb]%Forall_app _ Hlen Hcan.
  apply Forall_cons in Hb as [Hb _]. pose proof (digit_val_range b Hb) as Hr.
  zlen_simpl. destruct f as [|f]; [zlia|].
  rewrite dec_val_snoc. cbn [dec_digits].
  destruct ds as [|c ds].
  - change (dec_val []) with 0. rewrite (proj2 (Z.ltb_lt _ 10)) by lia.
    by rewrite Z.mul_0_l, Z.add_0_l, digit_of_val.
  - assert (1 <= dec_val (c :: ds)) as Hge.
    { pose proof (dec_val_cons_ge c ds Hds).
      apply Forall_cons in Hds as [Hc%digit_val_range _].
      assert (0 < 10 ^ zlen ds) by (apply Z.pow_pos_nonneg; zlia).
      assert (digit_val c <> 0) by (destruct ds; done). nia. }
    rewrite (proj2 (Z.ltb_ge _ 10)) by lia.
    rewrite Z.div_add_l, Z.div_small by lia.
    rewrite Z.add_0_r, IH; [|done|done|lia|].
    + rewrite Z.add_comm, Z_mod_plus_full, Z.mod_small by lia. by rewrite digit_of_val.
    + destruct ds; [done|]. by simpl in Hcan.
Qed.

Lemma to_chars_cases n :
  is_i64 n ->
  exists ds, all_digits ds /\ ds <> [] /\
    ((n < 0 /\ to_chars n = x2d :: ds /\ n = - dec_val ds) \/
     (0 <= n /\ to_chars n = ds /\ n = dec_val ds)).
Proof.
  unfold is_i64, to_chars. intros Hn.
  exists (dec_digits 20 (Z.abs n)).
  split; [apply dec_digits_digits; lia|]. split; [apply dec_digits_nonempty|].
  rewrite dec_digits_val by (change (10 ^ Z.of_nat 20) with 100000000000000000000; lia).
  destruct (Z.ltb_spec n 0).
  - left. rewrite Z.abs_neq by lia. split_and!; [lia|done|lia].
  - right. rewrite Z.abs_eq by lia. done.
Qed.

Lemma from_chars_to_chars n rest :
  is_i64 n ->
  match rest with b :: _ => is_digit b = false | [] => True end ->
  from_chars (to_chars n ++ rest) = FcOk rest n.
Proof.
  intros Hn Hr.
  destruct (to_chars_cases n Hn) as (ds & Hds & Hne & Hc).
  pose proof (span_digits_app ds rest Hds Hr) as Hs.
  assert ((INT64_MIN <=? n) && (n <=? INT64_MAX) = true) as Hrange.
  { unfold is_i64 in Hn. unfold INT64_MIN, INT64_MAX. lia. }
  destruct ds as [|b ds]; [done|]. unfold from_chars.
  destruct Hc as [(_ & -> & ->)|(_ & -> & ->)].
  - cbn [app] in *. rewrite decide_True by done. by rewrite Hs, Hrange.
  - cbn [app] in *. rewrite decide_False.
    + by rewrite Hs, Hrange.
    + intros ->. by apply Forall_cons in Hds as [? _].
Qed.

Lemma dec_digits_fuel f n :
  (1 <= f)%nat -> 0 <= n < 10 ^ Z.of_nat f -> dec_digits (S f) n = dec_digits f n.
Proof.
  revert n. induction f as [|f IH]; intros n Hf Hn; [lia|].
  change (dec_digits (S (S f)) n) with
    (if n <? 10 then [digit n] else dec_digits (S f) (n / 10) ++ [digit (n mod 10)]).
  cbn [dec_digits]. destruct (n <? 10) eqn:E; [done|].
  rewrite Nat2Z.inj_succ, Z.pow_succ_r in Hn by lia.
  f_equal. change (dec_digits (S f) (n / 10) = dec_digits f (n / 10)). apply IH.
  - destruct f; [simpl in Hn; lia|lia].
  - split; [apply Z.div_pos; lia|]. apply Z.div_lt_upper_bound; lia.
Qed.

(** [char buf[20]] is wide enough for every [int64_t]. *)
Lemma to_chars_length n : is_i64 n -> (1 <= length (to_chars n) <= 20)%nat.
Proof.
  intros Hn. unfold is_i64 in Hn. unfold to_chars.
  assert (forall f m, (1 <= length (dec_digits (S f) m))%nat) as H1.
  { intros f m. pose proof (dec_digits_nonempty f m).
    destruct (dec_digits (S f) m); simpl; [done|lia]. }
  destruct (n <? 0) eqn:E.
  - rewrite (dec_digits_fuel 19)
      by (change (10 ^ Z.of_nat 19) with 10000000000000000000; lia).
    pose proof (dec_digits_length 19 (- n)). cbn [length]. lia.
  - pose proof (dec_digits_length 20 n). specialize (H1 19%nat n). lia.
Qed.
