(* ===== verification/Resp.v ===== *)
(** * The RESP codec ([resp.h], [resp.cpp])

    The incremental request parser [RespParser] and the reply serialisers.
    The parser's [for (;;) switch (state_)] loop is [parse_loop] over
    [parse_step], one iteration of the switch; [rest] is the unread input
    [in.substr(pos)]. *)

From S2P Require Import Prelude Decimal.

(** ** Data *)

(** [struct Command]. *)
Record Command := mkCommand { args : list bytes }.

Definition kMaxMultibulkLen : Z := 1024 * 1024.
Definition kMaxBulkLen : Z := 512 * 1024 * 1024.
Definition kMaxLineLen : Z := 64 * 1024.

Inductive Status := NeedMoreData | Complete | ProtocolError.

Record Result := mkResult {
  status : Status;
  consumed : nat;
  error : bytes
}.

Inductive State :=
  | ReadingType
  | ReadingMultibulkLen
  | ReadingBulkLen
  | ReadingBulkBody
  | ReadingBulkCrlf
  | ReadingInline
  | Failed.

#[export] Instance State_eq_dec : EqDecision State.
Proof. solve_decision. Defined.

Record RespParser := mkParser {
  state_ : State;
  pending_ : list bytes;
  multibulk_remaining_ : Z;
  bulk_remaining_ : Z
}.

Definition RespParser_init : RespParser := mkParser ReadingType [] 0 0.

(** ** Error messages *)

Definition kErrMultibulkLen := lit "Protocol error: invalid multibulk length".
Definition kErrBulkLen := lit "Protocol error: invalid bulk length".
Definition kErrExpectedDollar := lit "Protocol error: expected '$'".
Definition kErrUnterminatedBulk :=
  lit "Protocol error: bulk string not terminated by CRLF".
Definition kErrLineTooLong := lit "Protocol error: too big inline request".
Definition kErrAlreadyFailed := lit "Protocol error: framing lost".

(** ** Helpers *)

(** Strict integer parse: the whole text, no sign but ['-'], no overflow. *)
Definition parse_i64 (s : bytes) : option Z :=
  match s with
  | [] => None
  | _ => match from_chars s with
         | FcOk [] n => Some n
         | _ => None
         end
  end.

Definition is_inline_space (c : byte) : bool :=
  bool_decide (c = x20) || bool_decide (c = x09).

Definition set_state (p : RespParser) (s : State) : RespParser :=
  mkParser s (pending_ p) (multibulk_remaining_ p) (bulk_remaining_ p).

Definition reset (p : RespParser) : RespParser :=
  match state_ p with
  | Failed => p
  | _ => RespParser_init
  end.

(** [pending_.args.back().append(...)]; on an empty vector [back()] is undefined
    behaviour, and the parser's invariant rules that case out. *)
Fixpoint append_back (l : list bytes) (x : bytes) : list bytes :=
  match l with
  | [] => []
  | [a] => [a ++ x]
  | a :: l' => a :: append_back l' x
  end.

(** The whitespace split of an inline line: skip blanks, stop at the end,
    otherwise take the word up to the next blank. *)
Fixpoint skip_spaces (l : bytes) : bytes :=
  match l with
  | c :: l' => if is_inline_space c then skip_spaces l' else l
  | [] => []
  end.

Fixpoint take_word (l : bytes) : bytes * bytes :=
  match l with
  | c :: l' =>
      if is_inline_space c then ([], l)
      else let '(w, r) := take_word l' in (c :: w, r)
  | [] => ([], [])
  end.

Fixpoint split_inline (fuel : nat) (line : bytes) : list bytes :=
  match fuel with
  | O => []
  | S f =>
      match skip_spaces line with
      | [] => []
      | l => let '(w, r) := take_word l in w :: split_inline f r
      end
  end.

(** ** One iteration of the parser's loop

    [Loop p n] is a [break] out of the switch with [n] more bytes consumed;
    [Return] leaves [parse]. *)
Inductive step_result :=
  | Loop (p : RespParser) (n : nat)
  | Return (p : RespParser) (n : nat) (s : Status) (err : bytes)
           (out : option Command).

Definition need_more (p : RespParser) (n : nat) : step_result :=
  Return p n NeedMoreData [] None.

Definition fail (p : RespParser) (msg : bytes) : step_result :=
  Return (set_state p Failed) 0 ProtocolError msg None.

Definition parse_step (p : RespParser) (rest : bytes) : step_result :=
  match state_ p with
  | Failed => Return p 0 ProtocolError kErrAlreadyFailed None

  | ReadingType =>
      match rest with
      | [] => need_more p 0
      | c :: _ =>
          if decide (c = x2a) then Loop (set_state p ReadingMultibulkLen) 1
          else Loop (set_state p ReadingInline) 0
      end

  | ReadingMultibulkLen =>
      match find_crlf rest with
      | None =>
          if kMaxLineLen <? zlen rest then fail p kErrLineTooLong
          else need_more p 0
      | Some crlf =>
          match parse_i64 (take crlf rest) with
          | None => fail p kErrMultibulkLen
          | Some n =>
              if kMaxMultibulkLen <? n then fail p kErrMultibulkLen
              else if n <=? 0 then Loop (reset p) (crlf + 2)
              else Loop (mkParser ReadingBulkLen (pending_ p) n (bulk_remaining_ p))
                        (crlf + 2)
          end
      end

  | ReadingBulkLen =>
      match rest with
      | [] => need_more p 0
      | c :: tail =>
          if decide (c = x24) then
            match find_crlf tail with
            | None =>
                if kMaxLineLen <? zlen rest then fail p kErrLineTooLong
                else need_more p 0
            | Some crlf =>
                match parse_i64 (take crlf tail) with
                | None => fail p kErrBulkLen
                | Some n =>
                    if (n <? 0) || (kMaxBulkLen <? n) then fail p kErrBulkLen
                    else Loop (mkParser ReadingBulkBody (pending_ p ++ [[]])
                                 (multibulk_remaining_ p) n)
                              (1 + crlf + 2)
                end
            end
          else fail p kErrExpectedDollar
      end

  | ReadingBulkBody =>
      let take_n := Z.min (zlen rest) (bulk_remaining_ p) in
      let n := Z.to_nat take_n in
      let pending := append_back (pending_ p) (take n rest) in
      let remaining := bulk_remaining_ p - take_n in
      if 0 <? remaining
      then need_more (mkParser ReadingBulkBody pending
                        (multibulk_remaining_ p) remaining) n
      else Loop (mkParser ReadingBulkCrlf pending
                   (multibulk_remaining_ p) remaining) n

  | ReadingBulkCrlf =>
      match rest with
      | c0 :: c1 :: _ =>
          if decide (c0 = x0d /\ c1 = x0a) then
            let remaining := u64 (multibulk_remaining_ p - 1) in
            if remaining =? 0
            then Return (reset p) 2 Complete [] (Some (mkCommand (pending_ p)))
            else Loop (mkParser ReadingBulkLen (pending_ p) remaining
                         (bulk_remaining_ p)) 2
          else fail p kErrUnterminatedBulk
      | _ => need_more p 0
      end

  | ReadingInline =>
      match find_byte x0a rest with
      | None =>
          if kMaxLineLen <? zlen rest then fail p kErrLineTooLong
          else need_more p 0
      | Some nl =>
          let end_ :=
            match nl with
            | S k => if decide (rest !! k = Some x0d) then k else nl
            | O => nl
            end in
          let line := take end_ rest in
          let words := split_inline (length line) line in
          match words with
          | [] => Loop (reset p) (nl + 1)
          | _ => Return (reset p) (nl + 1) Complete [] (Some (mkCommand words))
          end
      end
  end.

(** [RespParser::parse]: the loop, [pos] bytes consumed so far. *)
Fixpoint parse_loop (fuel : nat) (p : RespParser) (rest : bytes) (pos : nat)
  : option (Result * RespParser * option Command) :=
  match fuel with
  | O => None
  | S f =>
      match parse_step p rest with
      | Loop p' n => parse_loop f p' (drop n rest) (pos + n)
      | Return p' n s err out => Some (mkResult s (pos + n) err, p', out)
      end
  end.

(** Two iterations per input byte and two more are enough ([parse_total]). *)
Definition parse (p : RespParser) (input : bytes)
  : option (Result * RespParser * option Command) :=
  parse_loop (2 * length input + 2) p input 0.

(** ** Reply serialisation *)

Definition kCrlf : bytes := [x0d; x0a].

Definition append_i64 (out : bytes) (n : Z) : bytes := out ++ to_chars n.

Definition is_single_line (s : bytes) : bool :=
  forallb (fun c => negb (bool_decide (c = x0d) || bool_decide (c = x0a))) s.

Definition append_simple_string (out s : bytes) : bytes :=
  out ++ [x2b] ++ s ++ kCrlf.

Definition append_error (out msg : bytes) : bytes :=
  out ++ [x2d] ++ msg ++ kCrlf.

Definition append_integer (out : bytes) (n : Z) : bytes :=
  append_i64 (out ++ [x3a]) n ++ kCrlf.

Definition append_bulk_string (out s : bytes) : bytes :=
  append_i64 (out ++ [x24]) (zlen s) ++ kCrlf ++ s ++ kCrlf.

Definition append_null_bulk (out : bytes) : bytes :=
  out ++ lit "$-1" ++ kCrlf.

Definition append_array_header (out : bytes) (n : Z) : bytes :=
  append_i64 (out ++ [x2a]) n ++ kCrlf.

Example parse_set_request :
  parse RespParser_init
    (lit "*3" ++ kCrlf ++ lit "$3" ++ kCrlf ++ lit "SET" ++ kCrlf ++
     lit "$1" ++ kCrlf ++ lit "k" ++ kCrlf ++ lit "$1" ++ kCrlf ++ lit "v" ++ kCrlf)
  = Some (mkResult Complete 27 [], RespParser_init,
          Some (mkCommand [lit "SET"; lit "k"; lit "v"])).
Proof. vm_compute. reflexivity. Qed.

Example parse_inline_request :
  parse RespParser_init (lit "  GET  k " ++ kCrlf ++ lit "PING")
  = Some (mkResult Complete 11 [], RespParser_init, Some (mkCommand [lit "GET"; lit "k"])).
Proof. vm_compute. reflexivity. Qed.

(** ** Termination *)

(** Input left, counted twice, plus one in the two states that hand over to
    another state without consuming anything. *)
Definition parse_rank (s : State) : nat :=
  match s with ReadingType | ReadingBulkBody => 1 | _ => 0 end.
Definition parse_measure (p : RespParser) (rest : bytes) : nat :=
  2 * length rest + parse_rank (state_ p).

Ltac step_cases :=
  unfold parse_step, need_more, fail; intros;
  repeat (case_match; simplify_eq/=).

Lemma reset_state p : state_ p <> Failed -> reset p = RespParser_init.
Proof. unfold reset. by destruct (state_ p). Qed.

Lemma parse_step_bound p rest :
  match parse_step p rest with
  | Loop _ n | Return _ n _ _ _ => (n <= length rest)%nat
  end.
Proof.
  unfold parse_step, need_more, fail.
  repeat case_match; simplify_eq/=; try lia;
    repeat match goal with
    | H : find_crlf _ = Some _ |- _ => apply find_crlf_bound in H; simpl in H
    | H : find_byte _ _ = Some _ |- _ => apply find_byte_bound in H; simpl in H
    end; unfold zlen in *; lia.
Qed.

Lemma parse_step_decreases p rest p' n :
  parse_step p rest = Loop p' n ->
  (parse_measure p' (drop n rest) < parse_measure p rest)%nat.
Proof.
  intros Hs. pose proof (parse_step_bound p rest) as Hb. rewrite Hs in Hb.
  unfold parse_measure. rewrite length_drop. revert Hs.
  unfold parse_step, need_more, fail.
  repeat case_match; intros; simplify_eq/=;
    rewrite ?reset_state by congruence; simpl;
    repeat match goal with
    | H : find_crlf _ = Some _ |- _ => apply find_crlf_bound in H; simpl in H
    | H : find_byte _ _ = Some _ |- _ => apply find_byte_bound in H; simpl in H
    | H : state_ _ = _ |- _ => rewrite H
    end; simpl in *; lia.
Qed.

Lemma parse_loop_total f p rest pos :
  (parse_measure p rest < f)%nat -> is_Some (parse_loop f p rest pos).
Proof.
  revert p rest pos. induction f as [|f IH]; intros p rest pos Hf; [lia|].
  simpl. destruct (parse_step p rest) as [p' n|] eqn:E; [|by eexists].
  apply parse_step_decreases in E. apply IH. lia.
Qed.

Lemma parse_loop_mono f g p rest pos r :
  parse_loop f p rest pos = Some r -> (f <= g)%nat -> parse_loop g p rest pos = Some r.
Proof.
  revert g p rest pos. induction f as [|f IH]; intros [|g] p rest pos; simpl; try lia; try done.
  destruct (parse_step p rest); [|done]. intros. apply IH; [done|lia].
Qed.

Lemma parse_is_Some p input : is_Some (parse p input).
Proof.
  apply parse_loop_total. unfold parse_measure. destruct (state_ p); simpl; lia.
Qed.

Lemma parse_loop_parse f p input r : parse_loop f p input 0 = Some r -> parse p input = Some r.
Proof.
  intros Hf. destruct (parse_is_Some p input) as [r' Hr]. unfold parse in Hr.
  eapply (parse_loop_mono _ (f + (2 * length input + 2))) in Hf; [|lia].
  rewrite (parse_loop_mono _ (f + (2 * length input + 2)) _ _ _ _ Hr) in Hf by lia.
  unfold parse. congruence.
Qed.

(** ** Resumption

    A result is moved forward by the [n] bytes consumed before it. *)
Definition shift_step (n : nat) (s : step_result) : step_result :=
  match s with
  | Loop p m => Loop p (n + m)
  | Return p m st e o => Return p (n + m) st e o
  end.

Definition shift_result (n : nat) (x : Result * RespParser * option Command)
  : Result * RespParser * option Command :=
  let '(r, p, o) := x in (mkResult (status r) (n + consumed r) (error r), p, o).

Lemma parse_loop_shift f p rest pos :
  parse_loop f p rest pos = shift_result pos <$> parse_loop f p rest 0.
Proof.
  revert p rest pos. induction f as [|f IH]; intros p rest pos; [done|]. simpl.
  destruct (parse_step p rest) as [p' n|p' n s e o]; simpl; [|done].
  rewrite IH, (IH _ _ n). destruct (parse_loop f p' (drop n rest) 0) as [[[r q] o]|]; [|done].
  simpl. by rewrite Nat.add_assoc.
Qed.

Lemma take_app_prefix {A} (n : nat) (a b : list A) :
  (n <= length a)%nat -> take n (a ++ b) = take n a.
Proof. intros. by rewrite take_app_le. Qed.

Ltac find_bounds :=
  repeat match goal with
  | H : find_crlf ?a = Some _ |- context [find_crlf (?a ++ ?b)] =>
      rewrite (find_crlf_app a b _ H)
  | H : find_byte ?c ?a = Some _ |- context [find_byte ?c (?a ++ ?b)] =>
      rewrite (find_byte_app c a b _ H)
  end;
  repeat match goal with
  | H : find_crlf _ = Some _ |- _ => apply find_crlf_bound in H
  | H : find_byte _ _ = Some _ |- _ => apply find_byte_bound in H
  end.

(** A step that did not ask for more data, and did not give up on the length of
    an unfinished line, is not changed by the bytes that come later. *)
Lemma parse_step_app p a b :
  (forall p' n s e o, parse_step p a = Return p' n s e o ->
     s <> NeedMoreData /\ e <> kErrLineTooLong) ->
  parse_step p (a ++ b) = parse_step p a.
Proof.
  unfold parse_step, need_more, fail. intros H.
  destruct (state_ p) eqn:Es.
  - destruct a as [|c a]; [|done]. by destruct (H p 0%nat NeedMoreData [] None).
  - destruct (find_crlf a) as [i|] eqn:E.
    + find_bounds. rewrite take_app_prefix by lia. done.
    + case_match; edestruct H; eauto; done.
  - destruct a as [|c a]; [by edestruct H; eauto|]. simpl. case_decide; [|done].
    destruct (find_crlf a) as [i|] eqn:E.
    + find_bounds. rewrite take_app_prefix by lia. done.
    + case_match; edestruct H; eauto; done.
  - destruct (0 <? _) eqn:E; [by edestruct H; eauto|].
    assert (Z.min (zlen (a ++ b)) (bulk_remaining_ p) = Z.min (zlen a) (bulk_remaining_ p))
      as -> by zlia.
    rewrite take_app_prefix by (unfold zlen; lia). by rewrite E.
  - destruct a as [|c0 [|c1 a]]; [by edestruct H; eauto..|done].
  - destruct (find_byte x0a a) as [i|] eqn:E.
    + find_bounds. destruct i as [|k].
      * by rewrite take_app_prefix by lia.
      * rewrite lookup_app_l by lia. by rewrite !take_app_prefix by (case_decide; lia).
    + case_match; edestruct H; eauto; done.
  - done.
Qed.

(** A step that asked for more data can be resumed: what it absorbed is in the
    parser, and the rest is offered again. *)
Lemma append_back_nil l : append_back l [] = l.
Proof. induction l as [|x [|y l] IH]; simpl; [done|by rewrite app_nil_r|by rewrite <- IH]. Qed.

Lemma append_back_app l x y :
  append_back (append_back l x) y = append_back l (x ++ y).
Proof.
  induction l as [|a [|c l] IH]; simpl; [done|by rewrite app_assoc|].
  simpl in IH. rewrite <- IH. destruct l; done.
Qed.

Lemma parse_step_resume p a b p' n e o :
  parse_step p a = Return p' n NeedMoreData e o ->
  parse_step p (a ++ b) = shift_step n (parse_step p' (drop n a ++ b)).
Proof.
  assert (forall q c, shift_step 0 (parse_step q c) = parse_step q c) as H0
    by (intros; by destruct (parse_step _ _)).
  unfold parse_step at 1, need_more, fail. destruct (state_ p) eqn:Es;
    try (repeat (case_match; simplify_eq/=); intros; simplify_eq/=;
         by rewrite ?drop_0, H0).
  destruct (0 <? _) eqn:E; intros; simplify_eq/=.
  assert (Z.min (zlen a) (bulk_remaining_ p) = zlen a) as Hm by zlia. rewrite Hm in *.
  rewrite zlen_to_nat, take_ge, drop_ge by done.
  unfold parse_step, need_more. rewrite Es. cbn [state_ pending_ bulk_remaining_ multibulk_remaining_ app].
  assert (Z.min (zlen (a ++ b)) (bulk_remaining_ p) =
          zlen a + Z.min (zlen b) (bulk_remaining_ p - zlen a)) as -> by zlia.
  set (m := Z.min (zlen b) (bulk_remaining_ p - zlen a)).
  assert (0 <= m) by (subst m; zlia).
  rewrite Z2Nat.inj_add, zlen_to_nat by zlia.
  rewrite take_app_add, append_back_app, Z.sub_add_distr.
  by destruct (0 <? bulk_remaining_ p - zlen a - m).
Qed.

Lemma drop_app_split {A} (n m : nat) (a b : list A) :
  (n <= length a)%nat -> drop (n + m) (a ++ b) = drop m (drop n a ++ b).
Proof. intros. rewrite <- drop_drop, drop_app_le by done. done. Qed.

Lemma parse_loop_app f p a b pos r p' o :
  parse_loop f p a pos = Some (r, p', o) ->
  status r <> NeedMoreData -> error r <> kErrLineTooLong ->
  parse_loop f p (a ++ b) pos = Some (r, p', o).
Proof.
  revert p a pos. induction f as [|f IH]; intros p a pos; [done|]. simpl.
  pose proof (parse_step_bound p a) as Hb.
  destruct (parse_step p a) as [q n|q n s e o'] eqn:E; intros Hl Hs He.
  - rewrite parse_step_app, E by (intros; congruence).
    rewrite drop_app_le by done. by apply IH.
  - rewrite parse_step_app, E; [done|]. intros. rewrite E in *. by simplify_eq/=.
Qed.

Lemma parse_loop_resume f p a b pos r p' o :
  parse_loop f p a pos = Some (r, p', o) -> status r = NeedMoreData ->
  exists n, consumed r = (pos + n)%nat /\ (n <= length a)%nat /\
    forall g x, parse_loop g p' (drop n a ++ b) (pos + n) = Some x ->
      exists h, parse_loop h p (a ++ b) pos = Some x.
Proof.
  revert p a pos. induction f as [|f IH]; intros p a pos; [done|]. simpl.
  pose proof (parse_step_bound p a) as Hb.
  destruct (parse_step p a) as [q n|q n s e o'] eqn:E; intros Hl Hs.
  - destruct (IH _ _ _ Hl Hs) as (m & Hc & Hm & Hk). rewrite length_drop in Hm.
    exists (n + m)%nat. split_and!; [lia|lia|]. intros g x Hx.
    rewrite drop_drop in Hk. rewrite Nat.add_assoc in Hx. destruct (Hk g x Hx) as [h Hh].
    exists (S h). simpl. rewrite parse_step_app, E by (intros; congruence).
    by rewrite drop_app_le by done.
  - simplify_eq/=. exists n. split_and!; [done..|]. intros [|g] x Hx; [done|].
    exists (S g). simpl in *. rewrite (parse_step_resume p a b _ _ _ _ E).
    destruct (parse_step p' (drop n a ++ b)) as [q m|q m st e' oo]; simpl in *.
    + by rewrite drop_app_split, Nat.add_assoc by done.
    + by rewrite Nat.add_assoc.
Qed.

Lemma parse_resume_gen p a b r p' o :
  parse p a = Some (r, p', o) -> status r = NeedMoreData ->
  (consumed r <= length a)%nat /\
  parse p (a ++ b) = shift_result (consumed r) <$> parse p' (drop (consumed r) a ++ b).
Proof.
  intros Hp Hs. destruct (parse_loop_resume _ _ _ b _ _ _ _ Hp Hs) as (n & Hc & Hn & Hk).
  simpl in Hc. rewrite Hc in *. split; [done|].
  destruct (parse_is_Some p' (drop n a ++ b)) as [x Hx]. rewrite Hx. simpl.
  unfold parse in Hx.
  destruct (Hk (2 * length (drop n a ++ b) + 2)%nat (shift_result n x)) as [h Hh].
  { rewrite parse_loop_shift, Hx. done. }
  by eapply parse_loop_parse.
Qed.

Lemma parse_stable_gen p a b r p' o :
  parse p a = Some (r, p', o) -> status r <> NeedMoreData -> error r <> kErrLineTooLong ->
  parse p (a ++ b) = Some (r, p', o).
Proof. intros. eapply parse_loop_parse, parse_loop_app; done. Qed.

(** ** Requests built by the serialisers

    A client sends a command as an array of bulk strings, the bytes
    [append_array_header] and [append_bulk_string] produce. *)
Definition encode_request (c : list bytes) : bytes :=
  fold_left append_bulk_string c (append_array_header [] (zlen c)).

Definition bulk (s : bytes) : bytes := append_bulk_string [] s.

Lemma append_bulk_string_app out s : append_bulk_string out s = out ++ bulk s.
Proof. unfold bulk, append_bulk_string, append_i64. by rewrite <- !app_assoc. Qed.

Lemma concat_bulk_cons s c : concat (bulk <$> s :: c) = bulk s ++ concat (bulk <$> c).
Proof. done. Qed.

Lemma fold_bulk c out : fold_left append_bulk_string c out = out ++ concat (bulk <$> c).
Proof.
  revert out. induction c as [|s c IH]; intros out; simpl; [by rewrite app_nil_r|].
  by rewrite append_bulk_string_app, IH, <- app_assoc.
Qed.

Lemma to_chars_no_cr n : is_i64 n -> Forall (fun c => c <> x0d) (to_chars n).
Proof.
  intros Hn. destruct (to_chars_cases n Hn) as (ds & Hds & _ & Hc).
  assert (Forall (fun c => c <> x0d) ds).
  { eapply Forall_impl; [exact Hds|]. intros b Hb ->. done. }
  destruct Hc as [(_ & -> & _)|(_ & -> & _)]; [by constructor|done].
Qed.

Lemma to_chars_nonempty n : is_i64 n -> to_chars n <> [].
Proof. intros Hn. pose proof (to_chars_length n Hn). destruct (to_chars n); simpl in *; [lia|done]. Qed.

Lemma parse_i64_to_chars n : is_i64 n -> parse_i64 (to_chars n) = Some n.
Proof.
  intros Hn. unfold parse_i64.
  pose proof (from_chars_to_chars n [] Hn I) as E. rewrite app_nil_r in E.
  pose proof (to_chars_nonempty n Hn). destruct (to_chars n); [done|]. by rewrite E.
Qed.

Lemma header_line n rest :
  is_i64 n ->
  find_crlf (to_chars n ++ kCrlf ++ rest) = Some (length (to_chars n)) /\
  parse_i64 (take (length (to_chars n)) (to_chars n ++ kCrlf ++ rest)) = Some n.
Proof.
  intros Hn. split.
  - apply find_crlf_skip. by apply to_chars_no_cr.
  - rewrite take_app_length. by apply parse_i64_to_chars.
Qed.

Lemma drop_header d rest : drop (length d + 2) (d ++ kCrlf ++ rest) = rest.
Proof. rewrite <- drop_drop, drop_app_length. done. Qed.

Lemma drop_bulk s rest :
  drop (1 + length (to_chars (zlen s)) + 2) (bulk s ++ rest) = s ++ kCrlf ++ rest.
Proof.
  unfold bulk, append_bulk_string, append_i64. rewrite <- !app_assoc.
  cbn [app drop Nat.add]. apply drop_header.
Qed.

Lemma step_bulk_len acc m br s rest :
  zlen s <= kMaxBulkLen ->
  parse_step (mkParser ReadingBulkLen acc m br) (bulk s ++ rest) =
  Loop (mkParser ReadingBulkBody (acc ++ [[]]) m (zlen s))
    (1 + length (to_chars (zlen s)) + 2).
Proof.
  intros Hs. assert (is_i64 (zlen s)) as Hi.
  { unfold is_i64, kMaxBulkLen in *. zlia. }
  unfold bulk, append_bulk_string, append_i64. rewrite <- !app_assoc.
  unfold parse_step. cbn [state_ app]. rewrite decide_True by done.
  destruct (header_line (zlen s) (s ++ kCrlf ++ rest) Hi) as [E1 E2].
  rewrite E1, E2. rewrite (proj2 (Z.ltb_ge _ _)), (proj2 (Z.ltb_ge _ _)); [done|done|zlia].
Qed.

Lemma append_back_snoc l x y : append_back (l ++ [x]) y = l ++ [x ++ y].
Proof.
  induction l as [|a l IH]; [done|]. simpl.
  destruct (l ++ [x]) eqn:E; [by destruct l|]. by rewrite IH.
Qed.

Lemma step_bulk_body acc m s rest :
  parse_step (mkParser ReadingBulkBody (acc ++ [[]]) m (zlen s)) (s ++ rest) =
  Loop (mkParser ReadingBulkCrlf (acc ++ [s]) m 0) (length s).
Proof.
  unfold parse_step. cbn [state_ bulk_remaining_ pending_ multibulk_remaining_].
  assert (Z.min (zlen (s ++ rest)) (zlen s) = zlen s) as -> by zlia.
  rewrite Z.sub_diag, zlen_to_nat, take_app_length, append_back_snoc. done.
Qed.

Lemma step_bulk_crlf acc m br rest :
  parse_step (mkParser ReadingBulkCrlf acc m br) (kCrlf ++ rest) =
  if u64 (m - 1) =? 0
  then Return RespParser_init 2 Complete [] (Some (mkCommand acc))
  else Loop (mkParser ReadingBulkLen acc (u64 (m - 1)) br) 2.
Proof. done. Qed.

Lemma parse_bulks acc c br rest pos :
  c <> [] -> Forall (fun s => zlen s <= kMaxBulkLen) c -> zlen c <= kMaxMultibulkLen ->
  exists f, parse_loop f (mkParser ReadingBulkLen acc (zlen c) br) (concat (bulk <$> c) ++ rest) pos
    = Some (mkResult Complete (pos + length (concat (bulk <$> c))) [], RespParser_init,
            Some (mkCommand (acc ++ c))).
Proof.
  revert acc br pos. induction c as [|s c IH]; intros acc br pos Hne Hall Hlen; [done|].
  apply Forall_cons in Hall as [Hs Hall]. zlen_simpl.
  set (m := 1 + zlen c) in *.
  assert (forall g x,
    parse_loop g (mkParser ReadingBulkCrlf (acc ++ [s]) m 0) (kCrlf ++ concat (bulk <$> c) ++ rest)
      (pos + (1 + length (to_chars (zlen s)) + 2) + length s) = Some x ->
    parse_loop (S (S g)) (mkParser ReadingBulkLen acc m br) (concat (bulk <$> s :: c) ++ rest) pos
      = Some x) as Hgo.
  { intros g x Hx. rewrite concat_bulk_cons, <- app_assoc. cbn [parse_loop].
    rewrite step_bulk_len by done. cbv beta iota.
    rewrite drop_bulk, step_bulk_body. cbv beta iota. by rewrite drop_app_length. }
  assert (length (bulk s) = (1 + length (to_chars (zlen s)) + 2 + length s + 2)%nat) as Hb.
  { unfold bulk, append_bulk_string, append_i64. rewrite !length_app. simpl. lia. }
  destruct c as [|s' c].
  - exists 3%nat. apply Hgo. cbn [parse_loop]. rewrite step_bulk_crlf.
    change (u64 (m - 1) =? 0) with true. cbv beta iota.
    rewrite concat_bulk_cons, length_app, Hb. cbn [fmap list_fmap concat length].
    do 4 f_equal. lia.
  - destruct (IH (acc ++ [s]) 0 (pos + length (bulk s))%nat) as [f Hf]; [done|done|subst m; zlia|].
    exists (3 + f)%nat. apply Hgo. cbn [parse_loop Nat.add]. rewrite step_bulk_crlf.
    replace (u64 (m - 1)) with (zlen (s' :: c)).
    2: { rewrite u64_id; subst m; [lia|]. unfold is_u64, kMaxMultibulkLen in *. zlia. }
    rewrite (proj2 (Z.eqb_neq _ _)) by zlia. cbv beta iota.
    replace (pos + _ + length s + 2)%nat with (pos + length (bulk s))%nat by lia.
    change (drop 2 (kCrlf ++ ?r)) with r. rewrite Hf, (concat_bulk_cons s), length_app.
    do 4 f_equal; [lia|]. by rewrite <- app_assoc.
Qed.

Lemma step_multibulk n acc m br rest :
  1 <= n <= kMaxMultibulkLen ->
  parse_step (mkParser ReadingMultibulkLen acc m br) (to_chars n ++ kCrlf ++ rest) =
  Loop (mkParser ReadingBulkLen acc n br) (length (to_chars n) + 2).
Proof.
  intros Hn. assert (is_i64 n) as Hi by (unfold is_i64, kMaxMultibulkLen in *; lia).
  destruct (header_line n rest Hi) as [E1 E2].
  unfold parse_step. cbn [state_]. rewrite E1, E2.
  by rewrite (proj2 (Z.ltb_ge _ _)), (proj2 (Z.leb_gt _ _)) by lia.
Qed.

Lemma parse_encode_request c rest :
  c <> [] -> Forall (fun s => zlen s <= kMaxBulkLen) c -> zlen c <= kMaxMultibulkLen ->
  parse RespParser_init (encode_request c ++ rest) =
    Some (mkResult Complete (length (encode_request c)) [], RespParser_init, Some (mkCommand c)).
Proof.
  intros Hne Hall Hlen. unfold encode_request. rewrite fold_bulk.
  set (k := length (to_chars (zlen c))).
  destruct (parse_bulks [] c 0 rest (1 + (k + 2))%nat Hne Hall Hlen) as [f Hf].
  assert (1 <= zlen c) by (destruct c; [done|zlia]).
  unfold append_array_header, append_i64. rewrite <- !app_assoc.
  apply (parse_loop_parse (S (S f))). cbn [parse_loop app].
  change (parse_step RespParser_init (x2a :: ?r))
    with (Loop (mkParser ReadingMultibulkLen [] 0 0) 1).
  cbv beta iota. cbn [drop]. rewrite !drop_0, step_multibulk by lia. cbv beta iota.
  rewrite drop_header. change (0 + 1 + (length (to_chars (zlen c)) + 2))%nat with (1 + (k + 2))%nat.
  rewrite Hf. cbn [length app]. rewrite !length_app. cbn [length kCrlf]. do 4 f_equal. lia.
Qed.

(** ** The parser's invariant

    In the bulk states the argument count is within its cap, [back()] has an
    element to append to, and no argument outgrows the bulk cap. *)
Definition parser_wf (p : RespParser) : Prop :=
  match state_ p with
  | Failed => True
  | ReadingType | ReadingMultibulkLen | ReadingInline => pending_ p = []
  | ReadingBulkLen =>
      1 <= multibulk_remaining_ p /\
      zlen (pending_ p) + multibulk_remaining_ p <= kMaxMultibulkLen /\
      Forall (fun a => zlen a <= kMaxBulkLen) (pending_ p)
  | ReadingBulkBody | ReadingBulkCrlf =>
      1 <= multibulk_remaining_ p /\
      zlen (pending_ p) + multibulk_remaining_ p <= kMaxMultibulkLen + 1 /\
      0 <= bulk_remaining_ p /\
      exists l x, pending_ p = l ++ [x] /\
        Forall (fun a => zlen a <= kMaxBulkLen) l /\
        zlen x + bulk_remaining_ p <= kMaxBulkLen
  end.

(** What a delivered command satisfies: it names at least one argument, and
    count and sizes are bounded by the caps or by the input itself. *)
Definition command_ok (inlen : Z) (c : Command) : Prop :=
  args c <> [] /\
  zlen (args c) <= Z.max kMaxMultibulkLen inlen /\
  Forall (fun a => zlen a <= Z.max kMaxBulkLen inlen) (args c).

Lemma skip_spaces_length l : (length (skip_spaces l) <= length l)%nat.
Proof. induction l; simpl; [done|]. case_match; simpl; lia. Qed.

Lemma take_word_spec l w r :
  take_word l = (w, r) -> l = w ++ r /\ Forall (fun c => is_inline_space c = false) w.
Proof.
  revert w r. induction l as [|c l IH]; intros w r; simpl.
  { intros [= <- <-]. by split. }
  destruct (is_inline_space c) eqn:E; [intros [= <- <-]; by split|].
  destruct (take_word l) as [w' r'] eqn:E'. intros [= <- <-].
  destruct (IH _ _ eq_refl) as [-> ?]. by split; [|constructor].
Qed.

Lemma split_inline_spec f l :
  zlen (split_inline f l) <= zlen l /\
  Forall (fun w => w <> [] /\ zlen w <= zlen l /\ Forall (fun c => is_inline_space c = false) w)
    (split_inline f l).
Proof.
  revert l. induction f as [|f IH]; intros l; cbn [split_inline].
  { split; [zlia|constructor]. }
  pose proof (skip_spaces_length l) as Hsk.
  destruct (skip_spaces l) as [|c l'] eqn:E; [split; [zlia|constructor]|].
  assert (is_inline_space c = false) as Hc.
  { clear -E. induction l as [|d l IHl]; simpl in E; [done|].
    destruct (is_inline_space d) eqn:Ed; [by apply IHl|]. by simplify_eq. }
  destruct (take_word (c :: l')) as [w r] eqn:E'.
  destruct (take_word_spec _ _ _ E') as [Hwr Hw].
  assert (w <> []) as Hne.
  { simpl in E'. rewrite Hc in E'. destruct (take_word l'). by simplify_eq. }
  assert (zlen w + zlen r <= zlen l) as Hl.
  { rewrite <- zlen_app, <- Hwr. unfold zlen. lia. }
  assert (1 <= zlen w) by (destruct w; [done|zlia]).
  destruct (IH r) as [H1 H2]. split; [zlia|]. constructor; [split_and!; [done|zlia|done]|].
  eapply Forall_impl; [exact H2|]. intros x (? & ? & ?). split_and!; [done|zlia|done].
Qed.

Definition step_ok (inlen : Z) (s : step_result) : Prop :=
  match s with
  | Loop p' _ => parser_wf p'
  | Return p' _ st _ o =>
      parser_wf p' /\ (st = Complete <-> is_Some o) /\
      forall c, o = Some c -> command_ok inlen c
  end.

Lemma step_ok_none inlen p n st e :
  parser_wf p -> st <> Complete -> step_ok inlen (Return p n st e None).
Proof. intros. split_and!; [done| |done]. split; [done|by intros []]. Qed.

Lemma step_ok_complete inlen p n e c :
  parser_wf p -> command_ok inlen c -> step_ok inlen (Return p n Complete e (Some c)).
Proof. intros. split_and!; [done| |naive_solver]. split; [by eexists|done]. Qed.

Ltac step_ok_cases Es :=
  repeat case_match; try (apply step_ok_none; [|done]);
  try (apply step_ok_complete); unfold step_ok, parser_wf; simpl; rewrite ?Es; try done.

Lemma parse_step_wf p rest : parser_wf p -> step_ok (zlen rest) (parse_step p rest).
Proof.
  intros Hwf. unfold parse_step, need_more, fail. unfold parser_wf in Hwf.
  destruct (state_ p) eqn:Es; rewrite ?reset_state by congruence.
  - step_ok_cases Es.
  - step_ok_cases Es. rewrite Hwf. split_and!; [lia|zlia|constructor].
  - destruct Hwf as (H1 & H2 & H3). step_ok_cases Es.
    split_and!; [lia|zlia|lia|]. exists (pending_ p), []. split_and!; [done|done|zlia].
  - destruct Hwf as (H1 & H2 & H3 & l & x & Hp & Hl & Hx).
    rewrite Hp, append_back_snoc. rewrite Hp in H2.
    set (t := Z.min (zlen rest) (bulk_remaining_ p)).
    assert (0 <= t <= bulk_remaining_ p) by (subst t; zlia).
    assert (zlen (take (Z.to_nat t) rest) = t) by (subst t; zlia).
    step_ok_cases Es; (split_and!; [lia|zlia|lia|]);
      exists l, (x ++ take (Z.to_nat t) rest); (split_and!; [done|done|zlia]).
  - destruct Hwf as (H1 & H2 & H3 & l & x & Hp & Hl & Hx).
    assert (is_u64 (multibulk_remaining_ p - 1)) as Hu.
    { unfold is_u64, kMaxMultibulkLen in *. zlia. }
    assert (Forall (fun a => zlen a <= kMaxBulkLen) (pending_ p)).
    { rewrite Hp. apply Forall_app. split; [done|]. constructor; [lia|constructor]. }
    rewrite u64_id by done. step_ok_cases Es; try (split_and!; eauto; lia).
    split_and!; simpl; [by rewrite Hp; destruct l|zlia|].
    eapply Forall_impl; [done|]. simpl. zlia.
  - destruct (find_byte x0a rest) as [nl|] eqn:E; [|step_ok_cases Es].
    set (line := take _ rest).
    pose proof (split_inline_spec (length line) line) as [H1 H2].
    assert (zlen line <= zlen rest) by (subst line; zlia).
    destruct (split_inline (length line) line) as [|w ws]; [done|].
    apply step_ok_complete; [done|]. split_and!; simpl; [done|zlia|].
    eapply Forall_impl; [exact H2|]. simpl. intros a (_ & ? & _). zlia.
  - step_ok_cases Es.
Qed.

Lemma command_ok_mono n m c : n <= m -> command_ok n c -> command_ok m c.
Proof.
  intros Hnm (H1 & H2 & H3). split_and!; [done|lia|].
  eapply Forall_impl; [exact H3|]. simpl. lia.
Qed.

Lemma parse_loop_wf f p rest pos r p' o :
  parser_wf p -> parse_loop f p rest pos = Some (r, p', o) ->
  parser_wf p' /\ (status r = Complete <-> is_Some o) /\
  (pos <= consumed r <= pos + length rest)%nat /\
  forall c, o = Some c -> command_ok (zlen rest) c.
Proof.
  revert p rest pos. induction f as [|f IH]; intros p rest pos Hwf; [done|]. simpl.
  pose proof (parse_step_wf p rest Hwf) as Hs. pose proof (parse_step_bound p rest) as Hb.
  destruct (parse_step p rest) as [q n|q n s e o']; intros Hl.
  - destruct (IH _ _ _ Hs Hl) as (? & ? & Hc & Hok). rewrite length_drop in Hc.
    split_and!; [done|done|lia|lia|]. intros c Hcc. eapply command_ok_mono; [|by apply Hok]. zlia.
  - destruct Hs as (? & ? & ?). simplify_eq/=. split_and!; try done; lia.
Qed.

Lemma parse_failed p b :
  state_ p = Failed -> parse p b = Some (mkResult ProtocolError 0 kErrAlreadyFailed, p, None).
Proof.
  intros Hp. unfold parse. rewrite Nat.add_comm. simpl. unfold parse_step. by rewrite Hp.
Qed.

Lemma parse_loop_error f p rest pos r p' o :
  parse_loop f p rest pos = Some (r, p', o) -> status r = ProtocolError -> state_ p' = Failed.
Proof.
  revert p rest pos. induction f as [|f IH]; intros p rest pos; [done|]. simpl.
  destruct (parse_step p rest) as [q n|q n s e o'] eqn:E; [eauto|].
  intros Hl Hs. simplify_eq/=. revert E. unfold parse_step, need_more, fail.
  repeat case_match; intros; by simplify_eq/=.
Qed.

(** An inline line of one long word. *)
Lemma find_byte_replicate n c d rest :
  c <> d -> find_byte d (replicate n c ++ d :: rest) = Some n.
Proof.
  intros Hcd. induction n as [|n IH]; simpl; [by rewrite decide_True|].
  rewrite decide_False, IH by done. done.
Qed.

Lemma find_byte_replicate_none n c d : c <> d -> find_byte d (replicate n c) = None.
Proof.
  intros Hcd. induction n as [|n IH]; simpl; [done|]. by rewrite decide_False, IH.
Qed.

Lemma take_word_replicate n : take_word (replicate n x61) = (replicate n x61, []).
Proof. induction n as [|n IH]; simpl; [done|]. by rewrite IH. Qed.

Lemma split_inline_replicate n :
  (0 < n)%nat -> split_inline (length (replicate n x61)) (replicate n x61) = [replicate n x61].
Proof.
  destruct n as [|n]; [lia|]. intros _.
  pose proof (take_word_replicate (S n)) as Hw.
  cbn [replicate length split_inline] in *.
  change (skip_spaces (x61 :: replicate n x61)) with (x61 :: replicate n x61).
  cbv beta iota. rewrite Hw. by destruct n.
Qed.

(** ** Properties *)

(** C39: Chunking does not matter.  Whatever a first call to [parse] answered on
    the bytes [a], a call on [a ++ b] answers the same once the first call has
    decided, and otherwise exactly what resuming the returned parser on the
    bytes it left unread followed by [b] answers, consumption included.  The
    one exception is the line-length error, which is raised on an unfinished
    line. *)
Theorem parse_resumable (p : RespParser) (a b : bytes) r p' o :
  parse p a = Some (r, p', o) -> error r <> kErrLineTooLong ->
  parse p (a ++ b) =
    match status r with
    | NeedMoreData => shift_result (consumed r) <$> parse p' (drop (consumed r) a ++ b)
    | _ => Some (r, p', o)
    end.
Proof.
  intros Hp He. destruct (status r) eqn:Hs.
  - by apply (parse_resume_gen p a b r p' o).
  - apply parse_stable_gen; congruence.
  - apply parse_stable_gen; congruence.
Qed.

Lemma parse_resumable_witness :
  let a := lit "*1" ++ kCrlf ++ lit "$4" ++ kCrlf ++ lit "PI" in
  let b := lit "NG" ++ kCrlf in
  parse RespParser_init a =
    Some (mkResult NeedMoreData 10 [], mkParser ReadingBulkBody [lit "PI"] 1 2, None) /\
  parse RespParser_init (a ++ b) =
    shift_result 10 <$> parse (mkParser ReadingBulkBody [lit "PI"] 1 2) (drop 10 a ++ b).
Proof.
  split; [vm_compute; reflexivity|].
  apply (parse_resumable RespParser_init
           (lit "*1" ++ kCrlf ++ lit "$4" ++ kCrlf ++ lit "PI") (lit "NG" ++ kCrlf)
           (mkResult NeedMoreData 10 []) (mkParser ReadingBulkBody [lit "PI"] 1 2) None);
    [vm_compute; reflexivity|vm_compute; discriminate].
Defined.

(** C25: Requests round-trip.  The bytes a client produces for a command (array
    header, then one bulk string per argument, in the serialisers' format)
    parse back to exactly that command and are consumed exactly, whatever
    follows them. *)
Theorem parse_encoded_request (c : list bytes) (rest : bytes) :
  c <> [] -> Forall (fun s => zlen s <= kMaxBulkLen) c -> zlen c <= kMaxMultibulkLen ->
  parse RespParser_init (encode_request c ++ rest) =
    Some (mkResult Complete (length (encode_request c)) [], RespParser_init, Some (mkCommand c)).
Proof. apply parse_encode_request. Qed.

Lemma parse_encoded_request_witness :
  parse RespParser_init (encode_request [lit "GET"; [x0d; x0a]] ++ lit "junk") =
    Some (mkResult Complete 21 [], RespParser_init, Some (mkCommand [lit "GET"; [x0d; x0a]])).
Proof.
  apply (parse_encoded_request [lit "GET"; [x0d; x0a]] (lit "junk"));
    [discriminate|repeat constructor; vm_compute; discriminate|vm_compute; discriminate].
Defined.

(** C26: [parse] always returns, keeps the parser's invariant (so [back()] is
    never taken of an empty vector and the argument counter never wraps),
    never claims to have consumed more than it was given, delivers a command
    exactly when it reports [Complete], and every delivered command is non-empty
    with argument count and sizes within the caps or within the input. *)
Theorem parse_total_wf (p : RespParser) (input : bytes) :
  parser_wf p ->
  exists r p' o, parse p input = Some (r, p', o) /\ parser_wf p' /\
    (status r = Complete <-> is_Some o) /\ (consumed r <= length input)%nat /\
    forall c, o = Some c -> command_ok (zlen input) c.
Proof.
  intros Hwf. destruct (parse_is_Some p input) as [[[r p'] o] Hp].
  destruct (parse_loop_wf _ _ _ _ _ _ _ Hwf Hp) as (? & ? & ? & ?).
  exists r, p', o. split_and!; try done; lia.
Qed.

Lemma parse_total_wf_witness :
  exists r p' o, parse RespParser_init (lit "*1") = Some (r, p', o) /\ parser_wf p' /\
    (status r = Complete <-> is_Some o) /\ (consumed r <= 2)%nat /\
    forall c, o = Some c -> command_ok 2 c.
Proof. apply (parse_total_wf RespParser_init (lit "*1")). reflexivity. Defined.

(** A protocol error is final.  After one, every further call on any bytes
    reports the "framing lost" error, consumes nothing and changes nothing. *)
Theorem protocol_error_sticky (p : RespParser) (a b : bytes) r p' o :
  parse p a = Some (r, p', o) -> status r = ProtocolError ->
  parse p' b = Some (mkResult ProtocolError 0 kErrAlreadyFailed, p', None) /\
  reset p' = p'.
Proof.
  intros Hp Hs. pose proof (parse_loop_error _ _ _ _ _ _ _ Hp Hs) as Hf.
  split; [by apply parse_failed|]. unfold reset. by rewrite Hf.
Qed.

Lemma protocol_error_sticky_witness :
  parse (mkParser Failed [] 1 0) (lit "PING") =
    Some (mkResult ProtocolError 0 kErrAlreadyFailed, mkParser Failed [] 1 0, None) /\
  reset (mkParser Failed [] 1 0) = mkParser Failed [] 1 0.
Proof.
  apply (protocol_error_sticky RespParser_init (lit "*1" ++ kCrlf ++ lit "+") (lit "PING")
           (mkResult ProtocolError 4 kErrExpectedDollar) (mkParser Failed [] 1 0) None);
    vm_compute; reflexivity.
Defined.

(** The line-length exception of [parse_resumable] is real: an inline line of 65537 bytes
    is refused when its newline has not arrived yet, and accepted when the
    newline is in the same buffer. *)
Theorem long_line_depends_on_chunking :
  let line := replicate (Z.to_nat 65537) x61 in
  (exists p', parse RespParser_init line =
     Some (mkResult ProtocolError 0 kErrLineTooLong, p', None)) /\
  (exists p', parse RespParser_init (line ++ [x0a]) =
     Some (mkResult Complete (Z.to_nat 65538) [], p', Some (mkCommand [line]))).
Proof.
  set (n := Z.to_nat 65537). intros line.
  assert (Z.of_nat n = 65537) as Hn by (subst n; lia).
  replace (Z.to_nat 65538) with (n + 1)%nat by lia. clearbody n.
  assert (exists l, line = x61 :: l) as [l Hl] by (destruct n; [lia|by eexists]).
  split; eexists; apply (parse_loop_parse 2); cbn [parse_loop].
  - rewrite Hl at 1. unfold parse_step at 1. cbn [state_ RespParser_init].
    rewrite decide_False by done. cbv beta iota. rewrite drop_0.
    unfold parse_step. cbn [state_ set_state]. subst line.
    rewrite find_byte_replicate_none by done.
    rewrite (proj2 (Z.ltb_lt _ _)); [done|].
    unfold zlen. rewrite length_replicate. unfold kMaxLineLen. lia.
  - rewrite Hl at 1. unfold parse_step at 1. cbn [state_ RespParser_init app].
    rewrite decide_False by done. cbv beta iota. rewrite drop_0.
    unfold parse_step. cbn [state_ set_state]. subst line.
    rewrite find_byte_replicate by done.
    destruct n as [|n]; [lia|].
    rewrite decide_False.
    2: { rewrite lookup_app_l by (rewrite length_replicate; lia).
         by rewrite lookup_replicate_2 by lia. }
    rewrite take_app_length' by (by rewrite length_replicate).
    by rewrite split_inline_replicate by lia.
Qed.
