(* ===== verification/SortedMap.v ===== *)
(** * [std::map<std::string, V, std::less<>>]

    The ordered map of the source as its in-order sequence of rows: find,
    insert-or-assign and [lower_bound], over the lexicographic order of keys. *)

From S2P Require Import Prelude.

Section sorted_map.
Context {V : Type}.
Implicit Types (m : list (bytes * V)) (k : bytes) (v : V).

Definition key_lt (x y : bytes * V) : Prop := bytes_lt x.1 y.1.
Definition sm_sorted m : Prop := StronglySorted key_lt m.

(** [find]. *)
Fixpoint sm_find k m : option V :=
  match m with
  | [] => None
  | (k', v) :: m' => if decide (k = k') then Some v else sm_find k m'
  end.

(** [emplace] of a key that is not there, or assignment through the iterator of
    one that is. *)
Fixpoint sm_put k v m : list (bytes * V) :=
  match m with
  | [] => [(k, v)]
  | (k', v') :: m' =>
      match bytes_cmp k k' with
      | Lt => (k, v) :: (k', v') :: m'
      | Eq => (k, v) :: m'
      | Gt => (k', v') :: sm_put k v m'
      end
  end.

(** The rows before [lower_bound(k)] and the rows from it on. *)
Fixpoint sm_lower_bound k m : list (bytes * V) * list (bytes * V) :=
  match m with
  | [] => ([], [])
  | x :: m' =>
      if bytes_ltb x.1 k
      then let '(b, a) := sm_lower_bound k m' in (x :: b, a)
      else ([], x :: m')
  end.

Lemma sm_lower_bound_app k m b a : sm_lower_bound k m = (b, a) -> m = b ++ a.
Proof.
  revert b a. induction m as [|x m IH]; intros b a; simpl; [by intros [= <- <-]|].
  case_match; [|by intros [= <- <-]].
  destruct (sm_lower_bound k m) as [b' a'] eqn:E. intros [= <- <-].
  simpl. f_equal. by apply IH.
Qed.

Lemma sm_sorted_cons x m :
  sm_sorted (x :: m) <-> Forall (key_lt x) m /\ sm_sorted m.
Proof.
  split; [intros H; inversion H; subst; done|].
  intros [? ?]. by constructor.
Qed.

Lemma sm_sorted_app b a :
  sm_sorted (b ++ a) <->
  sm_sorted b /\ sm_sorted a /\ (forall x y, x ∈ b -> y ∈ a -> key_lt x y).
Proof.
  unfold sm_sorted. induction b as [|z b IH]; simpl.
  { split; [intros; split_and!; [constructor|done|]|naive_solver]. intros x y Hx. by inversion Hx. }
  split.
  - intros H. apply sm_sorted_cons in H as [[H1 H2]%Forall_app H3].
    apply IH in H3 as (H4 & H5 & H6). split_and!; [by constructor|done|].
    intros x y [->|Hx]%elem_of_cons Hy; [|by apply H6].
    rewrite Forall_forall in H2. by apply H2.
  - intros ([H1 H2]%sm_sorted_cons & H3 & H4). constructor.
    + apply IH. split_and!; [done|done|]. intros; apply H4; [by right|done].
    + apply Forall_app. split; [done|]. apply Forall_forall. intros. apply H4; [by left|done].
Qed.

Lemma sm_lower_bound_spec k m b a :
  sm_sorted m -> sm_lower_bound k m = (b, a) ->
  Forall (fun x => bytes_lt x.1 k) b /\ Forall (fun x => ~ bytes_lt x.1 k) a.
Proof.
  revert b a. induction m as [|x m IH]; intros b a Hs; simpl; [by intros [= <- <-]|].
  apply sm_sorted_cons in Hs as [Hx Hs].
  destruct (bytes_ltb x.1 k) eqn:E.
  - apply bytes_ltb_lt in E. destruct (sm_lower_bound k m) as [b' a'] eqn:E'.
    intros [= <- <-]. destruct (IH _ _ Hs eq_refl). by split; [constructor|].
  - intros [= <- <-]. split; [constructor|].
    assert (~ bytes_lt x.1 k) as Hn by (rewrite <- bytes_ltb_lt; by rewrite E).
    constructor; [done|]. eapply Forall_impl; [exact Hx|]. intros y Hy Hyk.
    apply Hn. unfold key_lt in Hy. by transitivity y.1.
Qed.

(** The split point is determined by the order alone. *)
Lemma sm_lower_bound_unique k b a :
  Forall (fun x => bytes_lt x.1 k) b -> Forall (fun x => ~ bytes_lt x.1 k) a ->
  sm_lower_bound k (b ++ a) = (b, a).
Proof.
  intros Hb Ha. induction Hb as [|x b Hx Hb IH]; simpl.
  - destruct Ha as [|y a Hy Ha]; simpl; [done|].
    rewrite <- bytes_ltb_lt in Hy. by destruct (bytes_ltb y.1 k).
  - apply bytes_ltb_lt in Hx. by rewrite Hx, IH.
Qed.

Lemma sm_find_elem k v m : sm_find k m = Some v -> (k, v) ∈ m.
Proof.
  induction m as [|[k' v'] m IH]; simpl; [done|].
  case_decide; [intros [= ->]; subst; by left|]. intros. right. by apply IH.
Qed.

Lemma sm_elem_find k v m : sm_sorted m -> (k, v) ∈ m -> sm_find k m = Some v.
Proof.
  intros Hs. induction m as [|[k' v'] m IH]; simpl; [by intros ?%elem_of_nil|].
  apply sm_sorted_cons in Hs as [Hx Hs]. intros [[= -> ->]|Hin]%elem_of_cons.
  - by rewrite decide_True.
  - rewrite decide_False; [by apply IH|]. intros ->.
    rewrite Forall_forall in Hx. specialize (Hx _ Hin). unfold key_lt in Hx. simpl in Hx.
    by apply bytes_lt_ne in Hx.
Qed.

Lemma sm_find_app k b a :
  sm_find k (b ++ a) = match sm_find k b with Some v => Some v | None => sm_find k a end.
Proof. induction b as [|[k' v] b IH]; simpl; [done|]. by case_decide. Qed.

Lemma sm_find_None k m : sm_find k m = None <-> forall v, (k, v) ∉ m.
Proof.
  induction m as [|[k' v'] m IH]; simpl.
  - split; [intros _ v Hv; by inversion Hv|done].
  - case_decide as E.
    + subst. split; [done|]. intros H. exfalso. apply (H v'). by left.
    + rewrite IH. split; intros H v Hv.
      * apply elem_of_cons in Hv as [[= -> ->]|Hv]; [done|by apply (H v)].
      * apply (H v). by right.
Qed.

Lemma sm_put_elem k v m x : x ∈ sm_put k v m -> x = (k, v) \/ x ∈ m.
Proof.
  induction m as [|[k' v'] m IH]; simpl.
  - intros ->%list_elem_of_singleton. by left.
  - destruct (bytes_cmp k k'); rewrite !elem_of_cons; naive_solver.
Qed.

Lemma sm_put_sorted k v m : sm_sorted m -> sm_sorted (sm_put k v m).
Proof.
  intros Hs. induction m as [|[k' v'] m IH]; simpl.
  - by constructor.
  - apply sm_sorted_cons in Hs as [Hx Hs]. destruct (bytes_cmp k k') eqn:E.
    + apply bytes_cmp_eq in E as ->. by apply sm_sorted_cons.
    + apply sm_sorted_cons. split; [|by apply sm_sorted_cons].
      constructor; [done|]. eapply Forall_impl; [exact Hx|].
      intros y Hy. unfold key_lt in *. simpl in *. by transitivity k'.
    + apply sm_sorted_cons. split; [|by apply IH].
      apply Forall_forall. intros x [->|Hin]%sm_put_elem.
      * unfold key_lt, bytes_lt. simpl. rewrite bytes_cmp_antisym, E. done.
      * rewrite Forall_forall in Hx. by apply Hx.
Qed.

Lemma sm_find_put k k' v m :
  sm_sorted m -> sm_find k' (sm_put k v m) = if decide (k' = k) then Some v else sm_find k' m.
Proof.
  intros Hs. induction m as [|[k1 v1] m IH]; simpl; [done|].
  apply sm_sorted_cons in Hs as [Hx Hs]. destruct (bytes_cmp k k1) eqn:E; simpl.
  - apply bytes_cmp_eq in E as ->. repeat case_decide; congruence.
  - done.
  - rewrite IH by done. repeat case_decide; subst; try done.
    by rewrite bytes_cmp_refl in E.
Qed.

(** A lookup below the first key of a sorted sequence fails. *)
Lemma sm_find_lt k x m : sm_sorted (x :: m) -> bytes_lt k x.1 -> sm_find k (x :: m) = None.
Proof.
  intros [Hx _]%sm_sorted_cons Hk. apply sm_find_None. intros v Hv.
  apply elem_of_cons in Hv as [<-|Hv]; [by apply bytes_lt_ne in Hk|].
  rewrite Forall_forall in Hx. specialize (Hx _ Hv). unfold key_lt in Hx. simpl in Hx.
  by apply (bytes_lt_asym _ _ Hk).
Qed.

(** Two sorted sequences with the same lookups are equal. *)
Lemma sm_ext m1 m2 :
  sm_sorted m1 -> sm_sorted m2 -> (forall k, sm_find k m1 = sm_find k m2) -> m1 = m2.
Proof.
  revert m2. induction m1 as [|[k1 v1] m1 IH]; intros [|[k2 v2] m2] H1 H2 He; [done| | |].
  - specialize (He k2). simpl in He. by rewrite decide_True in He.
  - specialize (He k1). simpl in He. by rewrite decide_True in He.
  - assert (k1 = k2) as ->.
    { destruct (bytes_lt_trichotomy k1 k2) as [Hlt|[->|Hlt]]; [|done|].
      - pose proof (He k1) as He1. rewrite (sm_find_lt k1 (k2, v2)) in He1 by done.
        simpl in He1. by rewrite decide_True in He1.
      - pose proof (He k2) as He2. rewrite (sm_find_lt k2 (k1, v1)) in He2 by done.
        simpl in He2. by rewrite decide_True in He2. }
    pose proof (He k2) as Hv. simpl in Hv. rewrite !decide_True in Hv by done.
    simplify_eq. f_equal.
    apply sm_sorted_cons in H1 as [H1x H1]. apply sm_sorted_cons in H2 as [H2x H2].
    apply IH; [done|done|]. intros k. specialize (He k). simpl in He.
    case_decide as Hk; [|done]. subst k2.
    assert (forall m, Forall (key_lt (k, v2)) m -> sm_find k m = None) as Hn.
    { intros m Hm. apply sm_find_None. intros v Hv. rewrite Forall_forall in Hm.
      specialize (Hm _ Hv). by apply bytes_lt_ne in Hm. }
    by rewrite !Hn.
Qed.

(** What insertion does to the number of rows that satisfy a test: the row it
    replaces stops counting and the new one starts. *)
Definition sm_count (P : V -> bool) m : Z :=
  zlen (filter (fun x => P x.2 = true) m).

Lemma sm_count_cons P x m : sm_count P (x :: m) = (if P x.2 then 1 else 0) + sm_count P m.
Proof.
  unfold sm_count. rewrite filter_cons. destruct (P x.2) eqn:E.
  - rewrite decide_True by done. zlia.
  - rewrite decide_False by done. lia.
Qed.

Lemma sm_count_app P a b : sm_count P (a ++ b) = sm_count P a + sm_count P b.
Proof. unfold sm_count. by rewrite filter_app, zlen_app. Qed.

Lemma sm_count_put P k v m :
  sm_sorted m ->
  sm_count P (sm_put k v m) =
    sm_count P m + (if P v then 1 else 0)
    - match sm_find k m with Some v' => if P v' then 1 else 0 | None => 0 end.
Proof.
  intros Hs. induction m as [|[k1 v1] m IH]; cbn [sm_put sm_find].
  { rewrite sm_count_cons. simpl. change (sm_count P []) with 0. lia. }
  pose proof Hs as Hs'. apply sm_sorted_cons in Hs' as [Hx Hs'].
  destruct (bytes_cmp k k1) eqn:E.
  - apply bytes_cmp_eq in E as ->. rewrite decide_True, !sm_count_cons by done. simpl. lia.
  - rewrite decide_False by (intros ->; by rewrite bytes_cmp_refl in E).
    pose proof (sm_find_lt k (k1, v1) m Hs E) as Hf. simpl in Hf.
    rewrite decide_False in Hf by (intros ->; by rewrite bytes_cmp_refl in E).
    rewrite Hf, !sm_count_cons. simpl. lia.
  - rewrite decide_False by (intros ->; by rewrite bytes_cmp_refl in E).
    rewrite !sm_count_cons, IH by done. simpl. lia.
Qed.

End sorted_map.

#[export] Hint Resolve sm_put_sorted : cachedb.
