(* ===== verification/Memtable.v ===== *)
(** * The memtable ([memtable.h], [memtable.cpp])

    The sorted in-memory table, with its live count, its byte estimate and the
    cursor of the active expiry sweep.  [size_t] counters are kept modulo
    [2^64]. *)

From S2P Require Import Prelude SortedMap.

(** ** Data *)

(** [Memtable::Entry]. *)
Record Entry := mkEntry {
  value : bytes;
  tombstone : bool;
  expires_at_ms : Z
}.

#[export] Instance Entry_eq_dec : EqDecision Entry.
Proof. solve_decision. Defined.

Record Memtable := mkMemtable {
  entries_ : list (bytes * Entry);
  sweep_cursor_ : bytes;
  live_count_ : Z;
  bytes_ : Z
}.

Definition Memtable_init : Memtable := mkMemtable [] [] 0 0.

(** ** Cost estimate *)

Definition kEntryOverhead : Z := 128.
Definition kSsoCapacity : Z := 15.

Definition heap_cost (length : Z) : Z :=
  let kAlign := 16 in
  let kMallocHeader := 16 in
  if length <=? kSsoCapacity then 0
  else (length + 1 + kAlign - 1) / kAlign * kAlign + kMallocHeader.

Definition entry_cost (key value : bytes) : Z :=
  kEntryOverhead + heap_cost (zlen key) + heap_cost (zlen value).

(** ** Operations *)

(** [Memtable::find]: [None] is the null pointer. *)
Definition find (m : Memtable) (key : bytes) : option Entry :=
  sm_find key (entries_ m).

Definition set (m : Memtable) (key val : bytes) (expires : Z) : Memtable :=
  match sm_find key (entries_ m) with
  | None =>
      mkMemtable (sm_put key (mkEntry val false expires) (entries_ m))
        (sweep_cursor_ m)
        (u64 (live_count_ m + 1))
        (u64 (bytes_ m + entry_cost key val))
  | Some e =>
      let live := if tombstone e then u64 (live_count_ m + 1) else live_count_ m in
      let old_cost := heap_cost (zlen (value e)) in
      let new_cost := heap_cost (zlen val) in
      mkMemtable (sm_put key (mkEntry val false expires) (entries_ m))
        (sweep_cursor_ m) live
        (if old_cost <? new_cost then u64 (bytes_ m + (new_cost - old_cost))
         else bytes_ m)
  end.

(** [Memtable::del]: the reply is whether the key was live. *)
Definition del (m : Memtable) (key : bytes) : bool * Memtable :=
  let it := sm_find key (entries_ m) in
  let was_live := match it with Some e => negb (tombstone e) | None => false end in
  let live := if was_live then u64 (live_count_ m - 1) else live_count_ m in
  let entries := sm_put key (mkEntry [] true 0) (entries_ m) in
  match it with
  | None =>
      (was_live, mkMemtable entries (sweep_cursor_ m) live
                   (u64 (bytes_ m + entry_cost key [])))
  | Some _ =>
      (was_live, mkMemtable entries (sweep_cursor_ m) live (bytes_ m))
  end.

(** [for_each] visits the rows in this order. *)
Definition for_each (m : Memtable) : list (bytes * Entry) := entries_ m.

Definition is_expired (now : Z) (e : Entry) : bool :=
  negb (tombstone e) && negb (expires_at_ms e =? 0) && (expires_at_ms e <=? now).

(** The loop of [sweep_expired], from the iterator on: the rows walked over, the
    rows left, the live count and the number swept. *)
Fixpoint sweep_loop (now : Z) (budget : nat) (it : list (bytes * Entry))
    (live swept : Z) : list (bytes * Entry) * list (bytes * Entry) * Z * Z :=
  match budget, it with
  | O, _ => ([], it, live, swept)
  | S _, [] => ([], [], live, swept)
  | S b, (k, e) :: it' =>
      if is_expired now e then
        let '(done, rest, live', swept') :=
          sweep_loop now b it' (u64 (live - 1)) (swept + 1) in
        ((k, mkEntry [] true 0) :: done, rest, live', swept')
      else
        let '(done, rest, live', swept') := sweep_loop now b it' live swept in
        ((k, e) :: done, rest, live', swept')
  end.

Definition sweep_expired (m : Memtable) (now : Z) (budget : nat) : Z * Memtable :=
  match entries_ m with
  | [] => (0, mkMemtable [] [] (live_count_ m) (bytes_ m))
  | _ =>
      let '(before, it) := sm_lower_bound (sweep_cursor_ m) (entries_ m) in
      let '(done, rest, live, swept) :=
        sweep_loop now budget it (live_count_ m) 0 in
      let cursor := match rest with [] => [] | (k, _) :: _ => k end in
      (swept, mkMemtable (before ++ done ++ rest) cursor live (bytes_ m))
  end.

Definition empty (m : Memtable) : bool :=
  match entries_ m with [] => true | _ => false end.
Definition entry_count (m : Memtable) : Z := zlen (entries_ m).
Definition live_count (m : Memtable) : Z := live_count_ m.

Definition clear (m : Memtable) : Memtable := Memtable_init.

(** ** Invariant *)

Definition is_live (e : Entry) : bool := negb (tombstone e).

(** A tombstone carries neither a value nor an expiry. *)
Definition entry_ok (e : Entry) : Prop :=
  tombstone e = true -> value e = [] /\ expires_at_ms e = 0.

Record memtable_wf (m : Memtable) : Prop := {
  wf_sorted : sm_sorted (entries_ m);
  wf_live : live_count_ m = u64 (sm_count is_live (entries_ m));
  wf_entries : Forall (fun x => entry_ok x.2) (entries_ m)
}.

Lemma u64_add_l a b : u64 (u64 a + b) = u64 (a + b).
Proof. unfold u64. apply Zplus_mod_idemp_l. Qed.

Lemma u64_sub_l a b : u64 (u64 a - b) = u64 (a - b).
Proof. unfold u64. apply Zminus_mod_idemp_l. Qed.

Lemma u64_u64 a : u64 (u64 a) = u64 a.
Proof. unfold u64. apply Zmod_mod. Qed.

Lemma put_entries_ok k e m :
  entry_ok e -> Forall (fun x => entry_ok x.2) m ->
  Forall (fun x => entry_ok x.2) (sm_put k e m).
Proof.
  intros He Hm. apply Forall_forall. intros x [->|Hx]%sm_put_elem; [done|].
  rewrite Forall_forall in Hm. by apply Hm.
Qed.

Lemma init_wf : memtable_wf Memtable_init.
Proof. split; simpl; [constructor|done|constructor]. Qed.

Lemma set_wf m k v e : memtable_wf m -> memtable_wf (set m k v e).
Proof.
  intros [Hs Hl He]. unfold set.
  pose proof (sm_count_put is_live k (mkEntry v false e) _ Hs) as Hc. simpl in Hc.
  destruct (sm_find k (entries_ m)) as [old|] eqn:E; split; simpl; auto with cachedb;
    try (by apply put_entries_ok).
  - change (is_live old) with (negb (tombstone old)) in Hc. rewrite Hc, Hl. destruct (tombstone old); simpl.
    + rewrite u64_add_l. f_equal. lia.
    + f_equal. lia.
  - rewrite Hc, Hl, u64_add_l. f_equal. lia.
Qed.

Lemma del_wf m k : memtable_wf m -> memtable_wf (del m k).2.
Proof.
  intros [Hs Hl He]. unfold del.
  pose proof (sm_count_put is_live k (mkEntry [] true 0) _ Hs) as Hc. simpl in Hc.
  destruct (sm_find k (entries_ m)) as [old|] eqn:E; split; simpl; auto with cachedb;
    try (by apply put_entries_ok).
  - change (is_live old) with (negb (tombstone old)) in Hc. rewrite Hc, Hl. destruct (tombstone old); simpl.
    + f_equal. lia.
    + rewrite u64_sub_l. f_equal. lia.
  - rewrite Hc, Hl. f_equal. lia.
Qed.

(** ** The sweep *)

Definition sweep_entry (now : Z) (e : Entry) : Entry :=
  if is_expired now e then mkEntry [] true 0 else e.

Definition sweep_row (now : Z) (x : bytes * Entry) : bytes * Entry :=
  (x.1, sweep_entry now x.2).

(** The loop sweeps the first [budget] rows and leaves the others alone. *)
Lemma sweep_loop_spec now b it live swept :
  sweep_loop now b it live swept =
  (sweep_row now <$> take b it, drop b it,
   (if decide (sm_count (is_expired now) (take b it) = 0) then live
    else u64 (live - sm_count (is_expired now) (take b it))),
   swept + sm_count (is_expired now) (take b it)).
Proof.
  revert it live swept. induction b as [|b IH]; intros it live swept.
  { simpl. by rewrite Z.add_0_r. }
  destruct it as [|[k e] it]; [simpl; by rewrite Z.add_0_r|].
  cbn [sweep_loop take drop]. rewrite sm_count_cons. cbn [snd fmap list_fmap].
  set (c := sm_count (is_expired now) (take b it)) in *.
  assert (0 <= c) by (subst c; unfold sm_count; zlia).
  unfold sweep_row at 1, sweep_entry at 1. cbn [fst snd].
  destruct (is_expired now e); rewrite IH; fold c.
  - rewrite (decide_False (P := 1 + c = 0)) by lia.
    replace (swept + 1 + c) with (swept + (1 + c)) by lia. f_equal. f_equal.
    case_decide as Hc; [by rewrite Hc|]. rewrite u64_sub_l. f_equal. lia.
  - by rewrite Z.add_0_l.
Qed.

Lemma sweep_row_key now x : (sweep_row now x).1 = x.1.
Proof. done. Qed.

Lemma sweep_rows_sorted now m : sm_sorted m -> sm_sorted (sweep_row now <$> m).
Proof.
  induction m as [|x m IH]; [done|]. rewrite fmap_cons, !sm_sorted_cons.
  intros [Hx Hs]. split; [|by apply IH]. by rewrite Forall_fmap.
Qed.

Lemma sweep_row_rest_sorted now b m :
  sm_sorted m -> sm_sorted ((sweep_row now <$> take b m) ++ drop b m).
Proof.
  intros Hs. rewrite <- (take_drop b m) in Hs. apply sm_sorted_app in Hs as (H1 & H2 & H3).
  apply sm_sorted_app. split_and!; [by apply sweep_rows_sorted|done|].
  intros x y (z & -> & Hz)%list_elem_of_fmap Hy. exact (H3 z y Hz Hy).
Qed.

Lemma sweep_expired_spec m now b :
  exists before it,
    sm_lower_bound (sweep_cursor_ m) (entries_ m) = (before, it) /\
    entries_ (sweep_expired m now b).2 =
      before ++ (sweep_row now <$> take b it) ++ drop b it /\
    sweep_cursor_ (sweep_expired m now b).2 =
      match drop b it with [] => [] | (k, _) :: _ => k end /\
    live_count_ (sweep_expired m now b).2 =
      (if decide (sm_count (is_expired now) (take b it) = 0) then live_count_ m
       else u64 (live_count_ m - sm_count (is_expired now) (take b it))) /\
    bytes_ (sweep_expired m now b).2 = bytes_ m /\
    (sweep_expired m now b).1 = sm_count (is_expired now) (take b it).
Proof.
  destruct (sm_lower_bound (sweep_cursor_ m) (entries_ m)) as [before it] eqn:E.
  exists before, it. split; [done|]. unfold sweep_expired.
  destruct (entries_ m) as [|x l] eqn:Em.
  - simpl in E. simplify_eq/=. by rewrite take_nil, drop_nil.
  - rewrite E, sweep_loop_spec. done.
Qed.

Lemma sm_count_sweep now m :
  sm_count is_live (sweep_row now <$> m) = sm_count is_live m - sm_count (is_expired now) m.
Proof.
  induction m as [|[k e] m IH]; [done|]. rewrite fmap_cons, !sm_count_cons, IH.
  unfold sweep_row, sweep_entry, is_live. cbn [snd].
  destruct (is_expired now e) eqn:E; cbn [tombstone].
  - unfold is_expired in E. destruct (tombstone e); simpl in *; [done|lia].
  - lia.
Qed.

Lemma sweep_wf m now b : memtable_wf m -> memtable_wf (sweep_expired m now b).2.
Proof.
  intros [Hs Hl He].
  destruct (sweep_expired_spec m now b) as (before & it & E & H1 & _ & H3 & _ & _).
  apply sm_lower_bound_app in E. rewrite E in *.
  apply sm_sorted_app in Hs as (Hsb & Hsi & Hlt). apply Forall_app in He as [Heb Hei].
  split.
  - rewrite H1. apply sm_sorted_app. split_and!; [done|by apply sweep_row_rest_sorted|].
    intros x y Hx [(z & -> & Hz)%list_elem_of_fmap|Hy]%elem_of_app.
    + refine (Hlt x z Hx _). rewrite <- (take_drop b it). apply elem_of_app. by left.
    + apply (Hlt x y Hx). rewrite <- (take_drop b it). apply elem_of_app. by right.
  - assert (sm_count is_live it = sm_count is_live (take b it) + sm_count is_live (drop b it))
      as Hit by (by rewrite <- sm_count_app, take_drop).
    rewrite H1, H3, Hl, !sm_count_app, sm_count_sweep, u64_sub_l, Hit.
    case_decide as Hc; [rewrite Hc|]; f_equal; lia.
  - rewrite H1. rewrite !Forall_app, Forall_fmap. split_and!; [done| |].
    + apply Forall_take with (n := b) in Hei. eapply Forall_impl; [exact Hei|].
      intros x Hx. simpl. unfold sweep_entry. destruct (is_expired now x.2); [intros _; by split|apply Hx].
    + by apply Forall_drop.
Qed.

(** ** Lookups after an operation *)

Lemma find_set m k v e k' :
  memtable_wf m ->
  find (set m k v e) k' = if decide (k' = k) then Some (mkEntry v false e) else find m k'.
Proof.
  intros Hwf. unfold find, set.
  destruct (sm_find k (entries_ m)); cbn [entries_]; by rewrite sm_find_put by apply Hwf.
Qed.

Lemma find_del m k k' :
  memtable_wf m ->
  find (del m k).2 k' = if decide (k' = k) then Some (mkEntry [] true 0) else find m k'.
Proof.
  intros Hwf. unfold find, del.
  destruct (sm_find k (entries_ m)); cbn [entries_ snd]; by rewrite sm_find_put by apply Hwf.
Qed.

Lemma sm_find_sweep now k m : sm_find k (sweep_row now <$> m) = sweep_entry now <$> sm_find k m.
Proof.
  induction m as [|[k' e] m IH]; [done|]. rewrite fmap_cons. cbn [sm_find sweep_row fst].
  by case_decide.
Qed.

(** Sweeping only ever replaces an entry by its swept form. *)
Lemma find_sweep m now b k :
  memtable_wf m ->
  find (sweep_expired m now b).2 k = find m k \/
  find (sweep_expired m now b).2 k = sweep_entry now <$> find m k.
Proof.
  intros [Hs _ _]. unfold find.
  destruct (sweep_expired_spec m now b) as (before & it & E & H1 & _).
  apply sm_lower_bound_app in E. rewrite H1, E.
  rewrite <- (take_drop b it) at 3 6. rewrite !sm_find_app, sm_find_sweep.
  destruct (sm_find k before); [by left|].
  destruct (sm_find k (take b it)); [by right|by left].
Qed.

(** ** The sweep reaches every row *)

Definition clean (now : Z) (l : list (bytes * Entry)) : Prop :=
  Forall (fun x => is_expired now x.2 = false) l.

Definition sweep_once (now : Z) (b : nat) (m : Memtable) : Memtable :=
  (sweep_expired m now b).2.

Lemma sweep_entry_clean now e : is_expired now (sweep_entry now e) = false.
Proof. unfold sweep_entry. by destruct (is_expired now e) eqn:E. Qed.

Lemma sweep_rows_clean now l : clean now (sweep_row now <$> l).
Proof. apply Forall_fmap, Forall_true. intros x. apply sweep_entry_clean. Qed.

Lemma sweep_clean_rows now l : clean now l -> sweep_row now <$> l = l.
Proof.
  induction 1 as [|[k e] l He _ IH]; [done|]. rewrite fmap_cons, IH. f_equal.
  unfold sweep_row, sweep_entry. simpl in *. by rewrite He.
Qed.

Lemma sweep_length now b m : length (entries_ (sweep_once now b m)) = length (entries_ m).
Proof.
  destruct (sweep_expired_spec m now b) as (before & it & E & H1 & _).
  unfold sweep_once. rewrite H1, (sm_lower_bound_app _ _ _ _ E), !length_app, length_fmap.
  rewrite <- (take_drop b it) at 3. by rewrite length_app.
Qed.

Lemma sweep_keeps_clean now b m :
  clean now (entries_ m) -> clean now (entries_ (sweep_once now b m)).
Proof.
  destruct (sweep_expired_spec m now b) as (before & it & E & H1 & _).
  unfold sweep_once. rewrite H1. rewrite (sm_lower_bound_app _ _ _ _ E).
  intros [Hb Hi]%Forall_app. apply Forall_app. split; [done|].
  apply Forall_app. split; [apply sweep_rows_clean|by apply Forall_drop].
Qed.

Lemma lower_bound_nil (m : list (bytes * Entry)) : sm_lower_bound [] m = ([], m).
Proof. destruct m as [|[k e] m]; [done|]. simpl. by destruct k. Qed.

(** One sweep either moves the cursor past the rows it swept or, at the end of
    the table, back to the first row. *)
Lemma sweep_progress now b m before it :
  memtable_wf m -> (0 < b)%nat ->
  sm_lower_bound (sweep_cursor_ m) (entries_ m) = (before, it) ->
  sm_lower_bound (sweep_cursor_ (sweep_once now b m)) (entries_ (sweep_once now b m)) =
    match drop b it with
    | [] => ([], before ++ (sweep_row now <$> it))
    | _ => (before ++ (sweep_row now <$> take b it), drop b it)
    end.
Proof.
  intros Hwf Hb E. pose proof (sweep_wf m now b Hwf) as [Hs' _ _].
  destruct (sweep_expired_spec m now b) as (before' & it' & E' & H1 & H2 & _).
  rewrite E in E'. simplify_eq. unfold sweep_once in *.
  rewrite H1, H2. rewrite H1 in Hs'.
  destruct (drop b it') as [|[k e] rest] eqn:Ed.
  - rewrite lower_bound_nil, app_nil_r. do 3 f_equal.
    rewrite <- (take_drop b it') at 2. by rewrite Ed, app_nil_r.
  - rewrite app_assoc in *. apply sm_lower_bound_unique.
    + apply sm_sorted_app in Hs' as (_ & _ & Hlt). apply Forall_forall.
      intros x Hx. apply (Hlt x (k, e) Hx). by left.
    + apply sm_sorted_app in Hs' as (_ & [Hk _]%sm_sorted_cons & _).
      constructor; [simpl; apply (irreflexivity bytes_lt)|].
      eapply Forall_impl; [exact Hk|]. intros y Hy. by apply bytes_lt_asym.
Qed.

Definition rows_left (m : Memtable) : nat :=
  length (sm_lower_bound (sweep_cursor_ m) (entries_ m)).2.

Lemma iter_wf now b m n : memtable_wf m -> memtable_wf (Nat.iter n (sweep_once now b) m).
Proof. intros. induction n; simpl; [done|]. by apply sweep_wf. Qed.

Lemma iter_length now b m n :
  length (entries_ (Nat.iter n (sweep_once now b) m)) = length (entries_ m).
Proof. induction n; simpl; [done|]. by rewrite sweep_length. Qed.

Lemma iter_clean now b m n k :
  (n <= k)%nat -> clean now (entries_ (Nat.iter n (sweep_once now b) m)) ->
  clean now (entries_ (Nat.iter k (sweep_once now b) m)).
Proof.
  intros Hnk Hc. induction Hnk; [done|]. simpl. by apply sweep_keeps_clean.
Qed.

(** From any cursor, the sweep comes round to the start within one pass; and if
    what lies before the cursor is clean, the whole table is clean then. *)
Lemma sweep_pass now b n m before it :
  memtable_wf m -> (0 < b)%nat ->
  sm_lower_bound (sweep_cursor_ m) (entries_ m) = (before, it) -> (length it <= n)%nat ->
  exists k, (1 <= k <= S n)%nat /\
    (sm_lower_bound (sweep_cursor_ (Nat.iter k (sweep_once now b) m))
       (entries_ (Nat.iter k (sweep_once now b) m))).1 = [] /\
    (clean now before -> clean now (entries_ (Nat.iter k (sweep_once now b) m))).
Proof.
  revert m before it. induction n as [|n IH]; intros m before it Hwf Hb E Hn.
  all: pose proof (sweep_progress now b m before it Hwf Hb E) as Hp.
  all: destruct (drop b it) as [|x rest] eqn:Ed.
  1, 3: exists 1%nat; split_and!; [lia|lia|simpl; by rewrite Hp|]; intros Hcb; simpl;
    rewrite (sm_lower_bound_app _ _ _ _ Hp), app_nil_l; apply Forall_app; split; [done|apply sweep_rows_clean].
  - destruct it; [by rewrite drop_nil in Ed|simpl in Hn; lia].
  - assert (length (x :: rest) <= n)%nat as Hl.
    { rewrite <- Ed, length_drop. destruct it; [by rewrite drop_nil in Ed|simpl in *; lia]. }
    destruct (IH _ _ _ (sweep_wf m now b Hwf) Hb Hp Hl) as (k & Hk & H1 & H2).
    exists (k + 1)%nat. rewrite Nat.iter_add. split_and!; [lia|lia|done|].
    intros Hcb. apply H2. apply Forall_app. split; [done|apply sweep_rows_clean].
Qed.

(** ** The byte estimate covers the table *)

Definition row_cost (x : bytes * Entry) : Z := entry_cost x.1 (value x.2).
Definition table_cost (l : list (bytes * Entry)) : Z :=
  foldr (fun x acc => row_cost x + acc) 0 l.

Lemma heap_cost_nonneg n : 0 <= n -> 0 <= heap_cost n.
Proof.
  intros. unfold heap_cost. case_match; [done|].
  assert (0 <= (n + 1 + 16 - 1) / 16) by (apply Z.div_pos; lia). lia.
Qed.

Lemma table_cost_put k e l :
  sm_sorted l ->
  table_cost (sm_put k e l) =
    table_cost l + row_cost (k, e)
    - match sm_find k l with Some e' => row_cost (k, e') | None => 0 end.
Proof.
  intros Hs. induction l as [|[k1 e1] l IH]; cbn [sm_put sm_find table_cost foldr]; [lia|].
  fold (table_cost l).
  pose proof Hs as Hs'. apply sm_sorted_cons in Hs' as [Hx Hs'].
  destruct (bytes_cmp k k1) eqn:E; cbn [table_cost foldr].
  - apply bytes_cmp_eq in E as ->. rewrite decide_True by done. fold (table_cost l). lia.
  - pose proof (sm_find_lt k (k1, e1) l Hs E) as Hf. simpl in Hf.
    rewrite decide_False in * by (intros ->; by rewrite bytes_cmp_refl in E).
    rewrite Hf. fold (table_cost l). lia.
  - rewrite decide_False by (intros ->; by rewrite bytes_cmp_refl in E).
    fold (table_cost (sm_put k e l)). rewrite IH by done. lia.
Qed.

Lemma table_cost_app a b : table_cost (a ++ b) = table_cost a + table_cost b.
Proof. induction a as [|x a IH]; simpl; [done|]. fold (table_cost (a ++ b)) (table_cost a). lia. Qed.

Lemma table_cost_sweep now l : table_cost (sweep_row now <$> l) <= table_cost l.
Proof.
  induction l as [|[k e] l IH]; [done|]. rewrite fmap_cons. cbn [table_cost foldr].
  fold (table_cost l) (table_cost (sweep_row now <$> l)).
  assert (row_cost (sweep_row now (k, e)) <= row_cost (k, e)); [|lia].
  unfold row_cost, sweep_row, sweep_entry, entry_cost. simpl.
  pose proof (heap_cost_nonneg (zlen (value e)) ltac:(auto with cachedb)).
  case_match; simpl; [|lia]. change (heap_cost (zlen [])) with 0. lia.
Qed.

Definition covered (m : Memtable) : Prop := table_cost (entries_ m) <= bytes_ m.

Lemma entry_cost_split k v :
  entry_cost k v = entry_cost k [] + heap_cost (zlen v).
Proof. unfold entry_cost. change (heap_cost (zlen [])) with 0. lia. Qed.

Lemma entry_cost_pos k : 0 <= entry_cost k [].
Proof.
  unfold entry_cost, kEntryOverhead. change (heap_cost (zlen [])) with 0.
  pose proof (heap_cost_nonneg (zlen k) ltac:(auto with cachedb)). lia.
Qed.

(** ** Properties *)

(** Everything the public operations can build. *)
Inductive reachable : Memtable -> Prop :=
  | reach_init : reachable Memtable_init
  | reach_set m k v e : reachable m -> reachable (set m k v e)
  | reach_del m k : reachable m -> reachable (del m k).2
  | reach_sweep m now budget : reachable m -> reachable (sweep_expired m now budget).2
  | reach_clear m : reachable m -> reachable (clear m).

(** In every memtable the operations can build, the rows are in strictly
    ascending key order, [live_count_] is the number of rows that are not
    tombstones (so [--live_count_] never takes it below zero), and a tombstone
    holds neither value nor expiry. *)
Theorem memtable_reachable_wf (m : Memtable) : reachable m -> memtable_wf m.
Proof.
  induction 1; [apply init_wf|by apply set_wf|by apply del_wf|by apply sweep_wf|apply init_wf].
Qed.

Lemma memtable_reachable_wf_witness :
  memtable_wf (sweep_expired (set (del Memtable_init (lit "k")).2 (lit "a") (lit "v") 5) 9 1).2.
Proof. apply memtable_reachable_wf. repeat constructor. Defined.

(** What a lookup answers after a write: the written entry for the key
    itself, and the old answer, null pointer included, for every other key.  A
    delete leaves a tombstone behind and replies whether the key was live. *)
Theorem memtable_find_spec (m : Memtable) (k v : bytes) (e : Z) (k' : bytes) :
  memtable_wf m ->
  find (set m k v e) k' = (if decide (k' = k) then Some (mkEntry v false e) else find m k') /\
  find (del m k).2 k' = (if decide (k' = k) then Some (mkEntry [] true 0) else find m k') /\
  ((del m k).1 = true <-> exists e0, find m k = Some e0 /\ tombstone e0 = false).
Proof.
  intros Hwf. split_and!; [by apply find_set|by apply find_del|].
  unfold del, find. destruct (sm_find k (entries_ m)) as [e0|]; simpl; [|naive_solver].
  destruct (tombstone e0) eqn:E; simpl; naive_solver congruence.
Qed.

Lemma memtable_find_spec_witness :
  find (set Memtable_init (lit "k") (lit "v") 7) (lit "k") = Some (mkEntry (lit "v") false 7).
Proof.
  destruct (memtable_find_spec Memtable_init (lit "k") (lit "v") 7 (lit "k")) as [H _];
    [split; [constructor|reflexivity|constructor]|exact H].
Defined.

(** What a reader at time [t] gets from an entry. *)
Definition visible (t : Z) (e : Entry) : option (bytes * Z) :=
  if tombstone e || (negb (expires_at_ms e =? 0) && (expires_at_ms e <=? t))
  then None else Some (value e, expires_at_ms e).

(** The sweep is invisible to readers from its own time on: no key
    disappears from the table (an older file can never be uncovered), no
    tombstone is revived, and at every time [t >= now] each key shows exactly
    what it showed before. *)
Theorem sweep_invisible (m : Memtable) (now : Z) (budget : nat) (k : bytes) (t : Z) :
  memtable_wf m -> now <= t ->
  let m' := (sweep_expired m now budget).2 in
  (is_Some (find m' k) <-> is_Some (find m k)) /\
  visible t <$> find m' k = visible t <$> find m k.
Proof.
  intros Hwf Ht m'. subst m'. destruct (find_sweep m now budget k Hwf) as [->| ->]; [done|].
  destruct (find m k) as [e|]; simpl; [|done]. split; [by split; eexists|].
  f_equal. unfold sweep_entry. destruct (is_expired now e) eqn:E; [|done].
  unfold visible, is_expired in *. simpl. destruct (tombstone e); [done|]. simpl in *.
  destruct (expires_at_ms e =? 0); [done|]. simpl in *. by rewrite (proj2 (Z.leb_le _ t)) by lia.
Qed.

Lemma sweep_invisible_witness :
  let m := set Memtable_init (lit "k") (lit "v") 7 in
  (is_Some (find (sweep_expired m 8 1).2 (lit "k")) <-> is_Some (find m (lit "k"))) /\
  visible 9 <$> find (sweep_expired m 8 1).2 (lit "k") = visible 9 <$> find m (lit "k").
Proof.
  apply (sweep_invisible (set Memtable_init (lit "k") (lit "v") 7) 8 1 (lit "k") 9); [|lia].
  apply set_wf, init_wf.
Defined.

(** C40: The sweep reaches every key: with a budget of at least one row per tick,
    wherever the cursor stands, after two passes' worth of ticks no expired
    entry is left. *)
Theorem sweep_complete (now : Z) (budget : nat) (m : Memtable) (ticks : nat) :
  memtable_wf m -> (0 < budget)%nat -> (2 * S (length (entries_ m)) <= ticks)%nat ->
  Forall (fun x => is_expired now x.2 = false)
    (entries_ (Nat.iter ticks (sweep_once now budget) m)).
Proof.
  intros Hwf Hb Hn.
  assert (forall m' before it,
    sm_lower_bound (sweep_cursor_ m') (entries_ m') = (before, it) ->
    (length it <= length (entries_ m'))%nat) as Hit.
  { intros m' before it E. rewrite (sm_lower_bound_app _ _ _ _ E), length_app. lia. }
  destruct (sm_lower_bound (sweep_cursor_ m) (entries_ m)) as [before it] eqn:E.
  destruct (sweep_pass now budget _ _ _ _ Hwf Hb E (Hit _ _ _ E)) as (k1 & Hk1 & Hstart & _).
  set (m1 := Nat.iter k1 (sweep_once now budget) m) in *.
  destruct (sm_lower_bound (sweep_cursor_ m1) (entries_ m1)) as [before1 it1] eqn:E1.
  simpl in Hstart. subst before1.
  destruct (sweep_pass now budget _ _ _ _ (iter_wf now budget m k1 Hwf) Hb E1 (Hit _ _ _ E1))
    as (k2 & Hk2 & _ & Hclean).
  subst m1. rewrite iter_length in Hk2.
  apply (iter_clean now budget m (k2 + k1)); [lia|]. rewrite Nat.iter_add. apply Hclean. constructor.
Qed.

Lemma sweep_complete_witness :
  let m := set (set Memtable_init (lit "a") (lit "v") 7) (lit "b") (lit "v") 7 in
  Forall (fun x => is_expired 8 x.2 = false) (entries_ (Nat.iter 6 (sweep_once 8 1) m)).
Proof.
  apply (sweep_complete 8 1 (set (set Memtable_init (lit "a") (lit "v") 7) (lit "b") (lit "v") 7) 6);
    [apply set_wf, set_wf, init_wf|lia|vm_compute; lia].
Defined.

(** The byte estimate never reads low: as long as it does not wrap, it stays
    at least the sum of the costs of the rows held, through writes, deletes and
    sweeps, and no operation but [clear] lowers it. *)
Theorem bytes_never_low (m : Memtable) (k v : bytes) (e now : Z) (budget : nat) :
  memtable_wf m -> covered m -> 0 <= bytes_ m -> bytes_ m + entry_cost k v < 2 ^ 64 ->
  (covered (set m k v e) /\ bytes_ m <= bytes_ (set m k v e)) /\
  (covered (del m k).2 /\ bytes_ m <= bytes_ (del m k).2) /\
  (covered (sweep_expired m now budget).2 /\ bytes_ (sweep_expired m now budget).2 = bytes_ m).
Proof.
  intros [Hs _ _] Hc Hb Hlt. unfold covered in *.
  pose proof (entry_cost_split k v) as Hkv. pose proof (entry_cost_pos k) as Hk0.
  pose proof (heap_cost_nonneg (zlen v) ltac:(auto with cachedb)) as Hv0.
  split_and!.
  1, 2: unfold set; destruct (sm_find k (entries_ m)) as [old|] eqn:E; cbn [entries_ bytes_].
  1, 2: rewrite table_cost_put, E by done; unfold row_cost; cbn [fst snd value].
  - pose proof (entry_cost_split k (value old)).
    pose proof (heap_cost_nonneg (zlen (value old)) ltac:(auto with cachedb)).
    destruct (Z.ltb_spec (heap_cost (zlen (value old))) (heap_cost (zlen v))); [|lia].
    rewrite u64_id; unfold is_u64; lia.
  - rewrite u64_id; unfold is_u64; lia.
  - destruct (Z.ltb_spec (heap_cost (zlen (value old))) (heap_cost (zlen v))); [|lia].
    pose proof (heap_cost_nonneg (zlen (value old)) ltac:(auto with cachedb)).
    rewrite u64_id; unfold is_u64; lia.
  - rewrite u64_id; unfold is_u64; lia.
  - unfold del. destruct (sm_find k (entries_ m)) as [old|] eqn:E; cbn [entries_ bytes_ snd];
      rewrite table_cost_put, E by done; unfold row_cost; cbn [fst snd value].
    + pose proof (entry_cost_split k (value old)).
      pose proof (heap_cost_nonneg (zlen (value old)) ltac:(auto with cachedb)). lia.
    + rewrite u64_id; unfold is_u64; lia.
  - unfold del. destruct (sm_find k (entries_ m)) as [old|] eqn:E; cbn [bytes_ snd]; [lia|].
    rewrite u64_id; unfold is_u64; lia.
  - destruct (sweep_expired_spec m now budget) as (before & it & E & H1 & _ & _ & H4 & _).
    rewrite H1, H4, !table_cost_app. rewrite (sm_lower_bound_app _ _ _ _ E), table_cost_app in Hc.
    pose proof (table_cost_sweep now (take budget it)).
    rewrite <- (take_drop budget it), table_cost_app in Hc. lia.
  - by destruct (sweep_expired_spec m now budget) as (? & ? & _ & _ & _ & _ & H4 & _).
Qed.

Lemma bytes_never_low_witness :
  covered (set Memtable_init (lit "k") (lit "v") 0) /\
  0 <= bytes_ (set Memtable_init (lit "k") (lit "v") 0).
Proof.
  destruct (bytes_never_low Memtable_init (lit "k") (lit "v") 0 0 1) as [H _];
    [split; [constructor|reflexivity|constructor]|vm_compute; discriminate|
     vm_compute; discriminate|vm_compute; reflexivity|exact H].
Defined.
