(* ===== verification/Bloom.v ===== *)
(** * The bloom filter ([bloom.h], [bloom.cpp])

    Hashing, sizing, building and querying the flat filter block of an SSTable:
    the bit array followed by one byte holding the number of probes. *)

From S2P Require Import Prelude.

(** ** Hashing *)

(** FNV-1a on [uint64_t]. *)
Definition fnv1a (data : bytes) : Z :=
  fold_left (fun h c => u64 (Z.lxor h (b2z c) * 0x100000001b3)) data
    0xcbf29ce484222325.

(** The splitmix64 finaliser on [uint64_t]. *)
Definition mix (z0 : Z) : Z :=
  let z1 := Z.lxor z0 (Z.shiftr z0 30) in
  let z2 := u64 (z1 * 0xbf58476d1ce4e5b9) in
  let z3 := Z.lxor z2 (Z.shiftr z2 27) in
  let z4 := u64 (z3 * 0x94d049bb133111eb) in
  Z.lxor z4 (Z.shiftr z4 31).

Record Probe := mkProbe { h1 : Z; h2 : Z }.

Definition probe_for (key : bytes) : Probe :=
  let h := mix (fnv1a key) in
  mkProbe (u32 h) (Z.lor (u32 (Z.shiftr h 32)) 1).

(** ** Sizing *)

(** [static_cast<int>(bits_per_key * 0.69 + 0.5)], clamped to [1..30].  The
    product is taken exactly: the only values of [bits_per_key] whose sum is an
    integer are 50 modulo 100, far outside the clamp, so the rounding of the
    double cannot move the truncation. *)
Definition optimal_probes (bits_per_key : Z) : Z :=
  let k := Z.quot (69 * bits_per_key + 50) 100 in
  Z.min 30 (Z.max 1 k).

Definition bits_for (key_count bits_per_key : Z) : Z :=
  let bits := u64 (key_count * Z.max 1 bits_per_key) in
  Z.max 64 (u64 (bits + 7) / 8 * 8).

(** ** Bits of a block *)

(** [block[bit / 8] |= 1u << (bit % 8)]. *)
Definition set_bit (block : bytes) (bit : Z) : bytes :=
  alter (fun c => z2b (Z.lor (b2z c) (Z.shiftl 1 (bit mod 8))))
    (Z.to_nat (bit / 8)) block.

(** [(block[bit / 8] & (1u << (bit % 8))) != 0]. *)
Definition test_bit (block : bytes) (bit : Z) : bool :=
  match block !! Z.to_nat (bit / 8) with
  | Some c => negb (Z.land (b2z c) (Z.shiftl 1 (bit mod 8)) =? 0)
  | None => false
  end.

(** ** Building *)

(** The inner loop of [build]: [k] probes from [pos], stride [stride], the
    position wrapping at 32 bits. *)
Fixpoint add_probes (k : nat) (bits pos stride : Z) (block : bytes) : bytes :=
  match k with
  | O => block
  | S k' =>
      add_probes k' bits (u32 (pos + stride)) stride (set_bit block (pos mod bits))
  end.

Definition add_key (k : Z) (bits : Z) (block key : bytes) : bytes :=
  let p := probe_for key in
  add_probes (Z.to_nat k) bits (h1 p) (h2 p) block.

Definition build (keys : list bytes) (bits_per_key : Z) : bytes :=
  let bits := bits_for (zlen keys) bits_per_key in
  let k := optimal_probes bits_per_key in
  let block := fold_left (add_key k bits) keys (replicate (Z.to_nat (bits / 8)) x00) in
  block ++ [z2b k].

(** ** Querying *)

Fixpoint check_probes (k : nat) (bits pos stride : Z) (block : bytes) : bool :=
  match k with
  | O => true
  | S k' =>
      if test_bit block (pos mod bits)
      then check_probes k' bits (u32 (pos + stride)) stride block
      else false
  end.

Definition may_contain (block key : bytes) : bool :=
  if zlen block <? 2 then true
  else
    match last block with
    | None => true
    | Some b =>
        let k := b2z b in
        if (k <? 1) || (30 <? k) then true
        else
          let bits := (zlen block - 1) * 8 in
          let p := probe_for key in
          check_probes (Z.to_nat k) bits (h1 p) (h2 p) block
    end.

(** ** Lemmas on bits *)

Lemma test_bit_spec block bit :
  0 <= bit ->
  test_bit block bit = true <->
  exists c, block !! Z.to_nat (bit / 8) = Some c /\ Z.testbit (b2z c) (bit mod 8) = true.
Proof.
  intros Hb. unfold test_bit. pose proof (Z.mod_pos_bound bit 8 ltac:(lia)) as Hm.
  destruct (block !! Z.to_nat (bit / 8)) as [c|]; [|naive_solver].
  assert (Z.land (b2z c) (Z.shiftl 1 (bit mod 8)) =
          if Z.testbit (b2z c) (bit mod 8) then 2 ^ (bit mod 8) else 0) as ->.
  { apply Z.bits_inj'. intros i Hi. rewrite Z.land_spec, Z.shiftl_1_l.
    destruct (decide (i = bit mod 8)) as [->|Hne].
    - rewrite Z.pow2_bits_true, andb_true_r by lia.
      destruct (Z.testbit (b2z c) (bit mod 8)) eqn:E; [by rewrite Z.pow2_bits_true by lia|].
      by rewrite Z.bits_0.
    - rewrite Z.pow2_bits_false, andb_false_r by lia.
      case_match; [by rewrite Z.pow2_bits_false by lia|by rewrite Z.bits_0]. }
  destruct (Z.testbit (b2z c) (bit mod 8)) eqn:E.
  - assert (0 < 2 ^ (bit mod 8)) by (apply Z.pow_pos_nonneg; lia).
    rewrite (proj2 (Z.eqb_neq _ _)) by lia. naive_solver.
  - naive_solver congruence.
Qed.

Lemma set_bit_value c j i :
  0 <= j < 8 -> 0 <= i ->
  Z.testbit (b2z (z2b (Z.lor (b2z c) (Z.shiftl 1 j)))) i =
  Z.testbit (b2z c) i || (i =? j).
Proof.
  intros Hj Hi. rewrite b2z_z2b.
  assert (Z.lor (b2z c) (Z.shiftl 1 j) mod 256 = Z.lor (b2z c) (Z.shiftl 1 j)) as ->.
  { apply Z.mod_small. split.
    - apply Z.lor_nonneg. split; [apply b2z_range|]. by apply Z.shiftl_nonneg.
    - pose proof (b2z_range c) as Hc.
      destruct (Z.lt_ge_cases (Z.lor (b2z c) (Z.shiftl 1 j)) 256) as [|Hge]; [done|exfalso].
      assert (Z.log2 (Z.lor (b2z c) (Z.shiftl 1 j)) < 8).
      { rewrite Z.log2_lor by (try apply Z.shiftl_nonneg; lia).
        rewrite Z.shiftl_1_l, Z.log2_pow2 by lia.
        apply Z.max_lub_lt; [|lia]. destruct (Z.eq_dec (b2z c) 0) as [->|]; [done|].
        apply Z.log2_lt_pow2; lia. }
      apply Z.log2_le_mono in Hge. change (Z.log2 256) with 8 in Hge. lia. }
  rewrite Z.lor_spec, Z.shiftl_1_l. f_equal.
  destruct (Z.eqb_spec i j) as [->|]; [by apply Z.pow2_bits_true|apply Z.pow2_bits_false; lia].
Qed.

Lemma length_set_bit block bit : length (set_bit block bit) = length block.
Proof. apply length_alter. Qed.

(** Setting a bit never clears one. *)
Lemma set_bit_mono block bit b :
  0 <= bit -> 0 <= b -> test_bit block b = true -> test_bit (set_bit block bit) b = true.
Proof.
  intros Hbit Hb. rewrite !test_bit_spec by done. intros (c & Hc & Ht).
  pose proof (Z.mod_pos_bound bit 8 ltac:(lia)). pose proof (Z.mod_pos_bound b 8 ltac:(lia)).
  unfold set_bit. destruct (decide (Z.to_nat (bit / 8) = Z.to_nat (b / 8))) as [E|E].
  - rewrite E, list_lookup_alter_eq, Hc. simpl. eexists. split; [done|].
    rewrite set_bit_value by lia. by rewrite Ht.
  - rewrite list_lookup_alter_ne by done. by exists c.
Qed.

Lemma set_bit_sets block bit :
  0 <= bit < zlen block * 8 -> test_bit (set_bit block bit) bit = true.
Proof.
  intros Hbit. apply test_bit_spec; [lia|].
  assert (Z.to_nat (bit / 8) < length block)%nat as Hi.
  { assert (bit / 8 < zlen block) by (apply Z.div_lt_upper_bound; lia).
    assert (0 <= bit / 8) by (apply Z.div_pos; lia). unfold zlen in *. lia. }
  apply lookup_lt_is_Some in Hi as [c Hc]. unfold set_bit.
  rewrite list_lookup_alter_eq, Hc. simpl. eexists. split; [done|].
  pose proof (Z.mod_pos_bound bit 8 ltac:(lia)).
  rewrite set_bit_value by lia. by rewrite Z.eqb_refl, orb_true_r.
Qed.

(** ** Probe loops *)

Lemma probe_ranges key : is_u32 (h1 (probe_for key)) /\ 0 <= h2 (probe_for key).
Proof.
  split; [apply u32_range|]. simpl. apply Z.lor_nonneg. split; [apply u32_range|lia].
Qed.

Lemma length_add_probes k bits pos stride block :
  length (add_probes k bits pos stride block) = length block.
Proof.
  revert pos block. induction k as [|k IH]; intros pos block; simpl; [done|].
  by rewrite IH, length_set_bit.
Qed.

Lemma add_probes_mono k bits pos stride block b :
  0 < bits -> 0 <= pos -> 0 <= b ->
  test_bit block b = true -> test_bit (add_probes k bits pos stride block) b = true.
Proof.
  intros Hbits. revert pos block. induction k as [|k IH]; intros pos block Hpos Hb Ht; simpl; [done|].
  apply IH; [apply u32_range|done|].
  apply set_bit_mono; [by apply Z.mod_pos_bound|done|done].
Qed.

(** After its own probes, a key passes the check; and the check keeps passing
    while other keys are added. *)
Lemma add_probes_check k bits pos stride block :
  0 < bits -> 0 <= pos -> bits <= zlen block * 8 ->
  check_probes k bits pos stride (add_probes k bits pos stride block) = true.
Proof.
  intros Hbits. revert pos block. induction k as [|k IH]; intros pos block Hpos Hlen; [done|].
  cbn [check_probes add_probes].
  pose proof (Z.mod_pos_bound pos bits Hbits) as Hm.
  rewrite add_probes_mono; [|done|apply u32_range|lia|apply set_bit_sets; lia].
  apply IH; [apply u32_range|]. unfold zlen in *. by rewrite length_set_bit.
Qed.

Lemma check_probes_mono k bits pos stride block block' :
  0 < bits -> 0 <= pos ->
  (forall b, 0 <= b -> test_bit block b = true -> test_bit block' b = true) ->
  check_probes k bits pos stride block = true -> check_probes k bits pos stride block' = true.
Proof.
  intros Hbits Hpos Hmono. revert pos Hpos. induction k as [|k IH]; intros pos Hpos; [done|].
  cbn [check_probes]. destruct (test_bit block (pos mod bits)) eqn:E; [|done].
  rewrite (Hmono _ (proj1 (Z.mod_pos_bound pos bits Hbits)) E). apply IH. apply u32_range.
Qed.

Lemma length_add_key k bits block key : length (add_key k bits block key) = length block.
Proof. apply length_add_probes. Qed.

Lemma add_key_mono k bits block key b :
  0 < bits -> 0 <= b -> test_bit block b = true -> test_bit (add_key k bits block key) b = true.
Proof.
  intros. apply add_probes_mono; try done. apply (probe_ranges key).
Qed.

Lemma length_add_keys k bits keys block :
  length (fold_left (add_key k bits) keys block) = length block.
Proof.
  revert block. induction keys as [|x keys IH]; intros block; simpl; [done|].
  by rewrite IH, length_add_key.
Qed.

Lemma add_keys_mono k bits keys block b :
  0 < bits -> 0 <= b -> test_bit block b = true ->
  test_bit (fold_left (add_key k bits) keys block) b = true.
Proof.
  intros Hbits Hb. revert block. induction keys as [|y keys IH]; intros block Ht; simpl; [done|].
  apply IH. by apply add_key_mono.
Qed.

Lemma add_keys_check k bits keys block key :
  0 < bits -> bits <= zlen block * 8 -> key ∈ keys ->
  let p := probe_for key in
  check_probes (Z.to_nat k) bits (h1 p) (h2 p) (fold_left (add_key k bits) keys block) = true.
Proof.
  intros Hbits Hlen Hin p. revert block Hlen.
  induction keys as [|x keys IH]; [by apply elem_of_nil in Hin|]. intros block Hlen. simpl.
  assert (bits <= zlen (add_key k bits block x) * 8) by (unfold zlen in *; by rewrite length_add_key).
  apply elem_of_cons in Hin as [<-|Hin]; [|by apply IH].
  eapply (check_probes_mono _ _ _ _ (add_key k bits block key)); [done|apply (probe_ranges key)| |].
  2: { apply add_probes_check; [done|apply (probe_ranges key)|done]. }
  intros b Hb Ht. by apply add_keys_mono.
Qed.

Lemma test_bit_app block x b :
  test_bit block b = true -> test_bit (block ++ x) b = true.
Proof.
  unfold test_bit. destruct (block !! Z.to_nat (b / 8)) eqn:E; [|done].
  by rewrite (lookup_app_l_Some _ _ _ _ E).
Qed.

Lemma optimal_probes_range n : 1 <= optimal_probes n <= 30.
Proof. unfold optimal_probes. lia. Qed.

Lemma bits_for_ok n bpk : 64 <= bits_for n bpk /\ bits_for n bpk / 8 * 8 = bits_for n bpk.
Proof.
  unfold bits_for. set (x := u64 (_ + 7)). split; [lia|].
  destruct (Z.max_spec 64 (x / 8 * 8)) as [[_ ->]|[_ ->]]; [|done].
  by rewrite Z.div_mul by lia.
Qed.

(** A block [build] made, read back by [may_contain]. *)
Lemma may_contain_build keys bpk key :
  let bits := bits_for (zlen keys) bpk in
  let k := optimal_probes bpk in
  let block := fold_left (add_key k bits) keys (replicate (Z.to_nat (bits / 8)) x00) in
  zlen block * 8 = bits /\
  may_contain (build keys bpk) key =
    check_probes (Z.to_nat k) bits (h1 (probe_for key)) (h2 (probe_for key)) (block ++ [z2b k]).
Proof.
  intros bits k block. destruct (bits_for_ok (zlen keys) bpk) as [H1 H2]. fold bits in H1, H2.
  pose proof (optimal_probes_range bpk) as Hk. fold k in Hk.
  assert (zlen block = bits / 8) as Hlen.
  { unfold zlen, block. rewrite length_add_keys, length_replicate.
    assert (0 <= bits / 8) by (apply Z.div_pos; lia). lia. }
  split; [by rewrite Hlen|].
  assert (8 <= zlen block) by lia.
  unfold may_contain, build. fold bits k block.
  rewrite (proj2 (Z.ltb_ge _ 2)) by zlia. rewrite last_snoc.
  rewrite b2z_z2b, Z.mod_small by lia.
  rewrite (proj2 (Z.ltb_ge k 1)), (proj2 (Z.ltb_ge 30 k)) by lia. cbn [orb].
  replace ((zlen (block ++ [z2b k]) - 1) * 8) with bits; [done|].
  rewrite zlen_app. change (zlen [z2b k]) with 1. lia.
Qed.

Lemma zlen_build keys bpk : zlen (build keys bpk) <= zlen keys * Z.max 1 bpk + 9.
Proof.
  unfold build. rewrite zlen_app. unfold zlen at 1. rewrite length_add_keys, length_replicate.
  change (zlen [_]) with 1. unfold bits_for.
  assert (0 <= zlen keys * Z.max 1 bpk) as Hn by (apply Z.mul_nonneg_nonneg; zlia).
  set (n := zlen keys * Z.max 1 bpk) in *.
  assert (0 <= u64 n <= n) by (split; [apply u64_range|by apply Z.mod_le]).
  assert (0 <= u64 (u64 n + 7) <= n + 7).
  { split; [apply u64_range|]. etransitivity; [apply Z.mod_le; lia|lia]. }
  set (x := u64 (u64 n + 7)) in *.
  assert (Z.max 64 (x / 8 * 8) / 8 <= n + 8); [|lia].
  pose proof (Z.mul_div_le x 8 ltac:(lia)).
  apply Z.div_le_upper_bound; lia.
Qed.

(** ** What the filter promises to the tables that carry it *)

Class MembershipFilter (build : list bytes -> Z -> bytes) (may_contain : bytes -> bytes -> bool)
  : Prop :=
  no_false_negative keys bits_per_key key :
    key ∈ keys -> may_contain (build keys bits_per_key) key = true.

#[export] Instance bloom_filter : MembershipFilter build may_contain.
Proof.
  intros keys bits_per_key key Hin.
  destruct (may_contain_build keys bits_per_key key) as [Hlen ->].
  destruct (bits_for_ok (zlen keys) bits_per_key) as [Hb _].
  eapply check_probes_mono; [lia|apply (probe_ranges key)| |].
  - intros b Hb'. apply test_bit_app.
  - apply add_keys_check; [lia| |done]. unfold zlen in *. rewrite length_add_keys in *. lia.
Qed.

(** ** Properties *)

(** C30: No false negatives: a filter built over a set of keys, at any number of
    bits per key, answers "possibly present" for every key of the set. *)
Theorem bloom_no_false_negative (keys : list bytes) (bits_per_key : Z) (key : bytes) :
  key ∈ keys -> may_contain (build keys bits_per_key) key = true.
Proof. apply no_false_negative. Qed.

Lemma bloom_no_false_negative_witness :
  may_contain (build [lit "a"; lit "b"] 10) (lit "b") = true.
Proof. apply (bloom_no_false_negative [lit "a"; lit "b"] 10 (lit "b")). right. left. Defined.

(** The filter of an empty key set answers "not present" to every key. *)
Theorem bloom_empty (bits_per_key : Z) (key : bytes) :
  may_contain (build [] bits_per_key) key = false.
Proof.
  destruct (may_contain_build [] bits_per_key key) as [Hlen ->]. cbn [fold_left] in *.
  pose proof (optimal_probes_range bits_per_key) as Hk.
  destruct (bits_for_ok (zlen (@nil bytes)) bits_per_key) as [Hb Hb8].
  set (bits := bits_for (zlen []) bits_per_key) in *.
  destruct (Z.to_nat (optimal_probes bits_per_key)) as [|k] eqn:E; [lia|]. cbn [check_probes].
  set (bit := h1 (probe_for key) mod bits).
  assert (0 <= bit < bits) as Hbit by (apply Z.mod_pos_bound; lia).
  assert (0 <= bit / 8 < bits / 8) as Hdiv.
  { split; [apply Z.div_pos; lia|]. apply Z.div_lt_upper_bound; lia. }
  unfold test_bit. rewrite lookup_app_l by (rewrite length_replicate; lia).
  rewrite lookup_replicate_2 by lia. by rewrite Z.land_0_l.
Qed.

(** Damage fails open: a block too short to hold a filter, or whose probe
    byte is outside [1..30], answers "possibly present" to every key; and a
    query never reads outside the block. *)
Theorem bloom_damaged_fails_open (block key : bytes) :
  (zlen block < 2 \/ (exists b, last block = Some b /\ ~ 1 <= b2z b <= 30) ->
   may_contain block key = true) /\
  (2 <= zlen block -> forall pos, 0 <= pos ->
   exists c, block !! Z.to_nat (pos mod ((zlen block - 1) * 8) / 8) = Some c).
Proof.
  split.
  - unfold may_contain. intros [H|(b & -> & H)]; case_match; try done; [lia|].
    case_match; [done|lia].
  - intros Hlen pos Hpos. apply lookup_lt_is_Some_2.
    pose proof (Z.mod_pos_bound pos ((zlen block - 1) * 8) ltac:(lia)) as Hm.
    assert (pos mod ((zlen block - 1) * 8) / 8 < zlen block - 1)
      by (apply Z.div_lt_upper_bound; lia).
    assert (0 <= pos mod ((zlen block - 1) * 8) / 8) by (apply Z.div_pos; lia).
    unfold zlen in *. lia.
Qed.

Lemma bloom_damaged_fails_open_witness :
  may_contain [x00; x1f] (lit "k") = true.
Proof.
  apply (bloom_damaged_fails_open [x00; x1f] (lit "k")).
  right. exists x1f. split; [reflexivity|]. vm_compute. intros [_ H]. by apply H.
Defined.
