(* ===== verification/WalCodec.v ===== *)
(** * The log's record format ([wal.h], [wal.cpp])

    CRC-32, the record encoder and decoder, and the scan [replay] makes over the
    bytes of a log.  A read past the end of the buffer is [None]. *)

From S2P Require Import Prelude Endian.

(** ** CRC-32 *)

(** Eight steps of the bitwise division. *)
Fixpoint crc_bits (n : nat) (c : Z) : Z :=
  match n with
  | O => c
  | S n' =>
      crc_bits n' (if negb (Z.land c 1 =? 0) then Z.lxor 0xEDB88320 (Z.shiftr c 1)
                   else Z.shiftr c 1)
  end.

Definition make_crc_table : list Z :=
  (fun i => crc_bits 8 (Z.of_nat i)) <$> seq 0 256.

Definition crc_table : list Z := Eval vm_compute in make_crc_table.

Definition crc_step (c : Z) (ch : byte) : Z :=
  Z.lxor (nth (Z.to_nat (Z.land (Z.lxor c (b2z ch)) 0xFF)) crc_table 0) (Z.shiftr c 8).

Definition crc32 (data : bytes) : Z :=
  Z.lxor (fold_left crc_step data 0xFFFFFFFF) 0xFFFFFFFF.

(** ** Records *)

Inductive Op := kSet | kDelete.

#[export] Instance Op_eq_dec : EqDecision Op.
Proof. solve_decision. Defined.

Record Record_ := mkRecord {
  r_op : Op;
  r_timestamp_ms : Z;
  r_expires_at_ms : Z;
  r_key : bytes;
  r_value : bytes
}.

Definition Record_default : Record_ := mkRecord kSet 0 0 [] [].

Definition kRecordHeaderSize : Z := 21.
Definition kExpirySize : Z := 8.
Definition kSetExOpByte : Z := 2.

Definition op_to_byte (op : Op) : Z := match op with kSet => 0 | kDelete => 1 end.

(** [encode_record]: a four-byte placeholder, the covered part, then the
    checksum patched over the placeholder. *)
Definition encode_record (out : bytes) (op : Op) (timestamp_ms : Z)
    (key value : bytes) (expires_at_ms : Z) : bytes :=
  let carries_expiry :=
    bool_decide (op = kSet) && negb (expires_at_ms =? 0) in
  let op_byte := if carries_expiry then kSetExOpByte else op_to_byte op in
  let crc_pos := length out in
  let out := WalEndian.put_u32 out 0 in
  let covered_from := length out in
  let out := WalEndian.put_u64 out (u64 timestamp_ms) in
  let out := out ++ [z2b op_byte] in
  let out := WalEndian.put_u32 out (u32 (zlen key)) in
  let out := WalEndian.put_u32 out (u32 (zlen value)) in
  let out := if carries_expiry then WalEndian.put_u64 out (u64 expires_at_ms) else out in
  let out := out ++ key in
  let out := out ++ value in
  let crc := crc32 (drop covered_from out) in
  let encoded_crc := WalEndian.put_u32 [] crc in
  take crc_pos out ++ encoded_crc ++ drop (crc_pos + 4) out.

Inductive DecodeStatus := DecodeOk | DecodeIncomplete | DecodeCorrupt.

Record DecodeResult := mkDecodeResult {
  dr_status : DecodeStatus;
  dr_consumed : Z;
  dr_record : Record_
}.

Definition decode_failure (s : DecodeStatus) : DecodeResult :=
  mkDecodeResult s 0 Record_default.

Definition decode_record (input : bytes) : option DecodeResult :=
  if zlen input <? kRecordHeaderSize then Some (decode_failure DecodeIncomplete)
  else
    stored_crc ← WalEndian.load_u32 input;
    timestamp ← WalEndian.load_u64 (drop 4 input);
    op_char ← input !! 12%nat;
    let op_byte := b2z op_char in
    klen ← WalEndian.load_u32 (drop 13 input);
    vlen ← WalEndian.load_u32 (drop 17 input);
    let extra := if op_byte =? kSetExOpByte then kExpirySize else 0 in
    let total := u64 (u64 (u64 (kRecordHeaderSize + extra) + klen) + vlen) in
    if zlen input <? total then Some (decode_failure DecodeIncomplete)
    else
      let covered := substr input 4 (total - 4) in
      if negb (crc32 covered =? stored_crc) then Some (decode_failure DecodeCorrupt)
      else if kSetExOpByte <? op_byte then Some (decode_failure DecodeCorrupt)
      else
        let body := kRecordHeaderSize + extra in
        expires ←
          (if op_byte =? kSetExOpByte
           then i64 <$> WalEndian.load_u64 (drop (Z.to_nat kRecordHeaderSize) input)
           else Some 0);
        let op := if op_byte =? kSetExOpByte then kSet
                  else if op_byte =? 0 then kSet else kDelete in
        Some (mkDecodeResult DecodeOk total
                (mkRecord op (i64 timestamp) expires
                   (substr input body klen) (substr input (body + klen) vlen))).

(** ** The scan of [replay] over the log's bytes

    The records handed to [apply], in order, and the length of the intact
    prefix. *)
Fixpoint replay_loop (fuel : nat) (rest : bytes) (offset : Z)
  : option (list Record_ * Z) :=
  match fuel with
  | O => None
  | S f =>
      r ← decode_record rest;
      match dr_status r with
      | DecodeOk =>
          '(rs, good) ← replay_loop f (drop (Z.to_nat (dr_consumed r)) rest)
                          (offset + dr_consumed r);
          Some (dr_record r :: rs, good)
      | _ => Some ([], offset)
      end
  end.

Record ReplayResult := mkReplayResult {
  records : Z;
  good_bytes : Z;
  truncated : bool
}.

(** A record takes at least 21 bytes, so one round per byte is more than
    enough ([replay_scan_total]). *)
Definition replay_scan (data : bytes) : option (list Record_ * ReplayResult) :=
  '(rs, offset) ← replay_loop (length data + 1) data 0;
  Some (rs, mkReplayResult (zlen rs) offset (offset <? zlen data)).

Example crc32_check_value : crc32 (lit "123456789") = 0xCBF43926.
Proof. vm_compute. reflexivity. Qed.

Example decode_encoded_set :
  decode_record (encode_record [] kSet 1700000000000 (lit "k") (lit "v") 1800000000000) =
  Some (mkDecodeResult DecodeOk 31
          (mkRecord kSet 1700000000000 1800000000000 (lit "k") (lit "v"))).
Proof. vm_compute. reflexivity. Qed.

(** ** The checksum fits in 32 bits *)

Lemma crc_table_range : Forall is_u32 crc_table.
Proof.
  apply Forall_forall. intros x Hx.
  assert (forallb (fun x => (0 <=? x) && (x <? 2 ^ 32)) crc_table = true) as Hall
    by (vm_compute; reflexivity).
  rewrite forallb_forall in Hall. apply list_elem_of_In in Hx.
  specialize (Hall _ Hx). unfold is_u32. lia.
Qed.

Lemma lxor_u32 a b : is_u32 a -> is_u32 b -> is_u32 (Z.lxor a b).
Proof.
  unfold is_u32. intros Ha Hb. split; [apply Z.lxor_nonneg; lia|].
  destruct (Z.eq_dec (Z.lxor a b) 0) as [->|Hne]; [lia|].
  apply Z.log2_lt_pow2; [pose proof (proj2 (Z.lxor_nonneg a b)); lia|].
  eapply Z.le_lt_trans; [apply Z.log2_lxor; lia|].
  apply Z.max_lub_lt.
  - destruct (Z.eq_dec a 0) as [->|]; [done|]. apply Z.log2_lt_pow2; lia.
  - destruct (Z.eq_dec b 0) as [->|]; [done|]. apply Z.log2_lt_pow2; lia.
Qed.

Lemma land_255_range z : 0 <= Z.land z 255 < 256.
Proof. rewrite land_255. by apply Z.mod_pos_bound. Qed.

Lemma crc_lookup_range i : is_u32 (nth i crc_table 0).
Proof.
  destruct (nth_in_or_default i crc_table 0) as [H| ->]; [|done].
  pose proof crc_table_range as Hr. rewrite Forall_forall in Hr.
  apply Hr. by apply list_elem_of_In.
Qed.

Lemma shiftr8_u32 c : is_u32 c -> is_u32 (Z.shiftr c 8).
Proof.
  unfold is_u32. intros Hc. rewrite Z.shiftr_div_pow2 by lia.
  split; [apply Z.div_pos; lia|]. apply Z.div_lt_upper_bound; lia.
Qed.

Lemma crc_step_range c ch : is_u32 c -> is_u32 (crc_step c ch).
Proof. intros. apply lxor_u32; [apply crc_lookup_range|by apply shiftr8_u32]. Qed.

Lemma crc_fold_range data c : is_u32 c -> is_u32 (fold_left crc_step data c).
Proof. revert c. induction data; intros c Hc; simpl; [done|]. by apply IHdata, crc_step_range. Qed.

Lemma crc32_range data : is_u32 (crc32 data).
Proof. apply lxor_u32; [by apply crc_fold_range|done]. Qed.
#[export] Hint Resolve crc32_range : cachedb.

(** ** The header, as bytes *)

Definition header (crc ts : Z) (op : byte) (kl vl : Z) : bytes :=
  le_bytes 4 crc ++ le_bytes 8 ts ++ [op] ++ le_bytes 4 kl ++ le_bytes 4 vl.

Lemma length_header crc ts op kl vl : length (header crc ts op kl vl) = 21%nat.
Proof. unfold header. rewrite !length_app, !length_le_bytes. done. Qed.

(** Every buffer of at least 21 bytes starts with some header. *)
Lemma split_header input :
  21 <= zlen input ->
  exists crc ts op kl vl tail,
    input = header crc ts op kl vl ++ tail /\
    is_u32 crc /\ is_u64 ts /\ is_u32 kl /\ is_u32 vl.
Proof.
  intros Hlen.
  assert (forall n l, (n <= length l)%nat ->
    exists v r, l = le_bytes n v ++ r /\ 0 <= v < 256 ^ Z.of_nat n) as Hle.
  { intros n l Hn. exists (le_val (take n l)), (drop n l).
    pose proof (le_val_range (take n l)) as Hr. rewrite zlen_take in Hr.
    replace (Z.min _ _) with (Z.of_nat n) in Hr by (unfold zlen; lia). split; [|done].
    replace (le_bytes n (le_val (take n l))) with (take n l); [by rewrite take_drop|].
    rewrite <- (le_bytes_val (take n l)) at 1. rewrite length_take. f_equal. lia. }
  unfold zlen in Hlen.
  destruct (Hle 4%nat input) as (crc & r1 & -> & H1); [lia|].
  rewrite length_app, length_le_bytes in Hlen.
  destruct (Hle 8%nat r1) as (ts & r2 & -> & H2); [lia|].
  rewrite length_app, length_le_bytes in Hlen.
  destruct r2 as [|op r3]; [simpl in Hlen; lia|]. simpl in Hlen.
  destruct (Hle 4%nat r3) as (kl & r4 & -> & H3); [lia|].
  rewrite length_app, length_le_bytes in Hlen.
  destruct (Hle 4%nat r4) as (vl & tail & -> & H4); [lia|].
  exists crc, ts, op, kl, vl, tail. split; [|done].
  unfold header. by rewrite <- !app_assoc.
Qed.

Definition extra_of (op : byte) : Z := if b2z op =? kSetExOpByte then kExpirySize else 0.

(** The loads at the offsets of the header fields. *)
Lemma header_loads crc ts op kl vl tail :
  is_u32 crc -> is_u64 ts -> is_u32 kl -> is_u32 vl ->
  let input := header crc ts op kl vl ++ tail in
  WalEndian.load_u32 input = Some crc /\
  WalEndian.load_u64 (drop 4 input) = Some ts /\
  input !! 12%nat = Some op /\
  WalEndian.load_u32 (drop 13 input) = Some kl /\
  WalEndian.load_u32 (drop 17 input) = Some vl.
Proof.
  intros Hcrc Hts Hkl Hvl input.
  assert (input = le_bytes 4 crc ++ le_bytes 8 ts ++ op :: le_bytes 4 kl ++ le_bytes 4 vl ++ tail)
    as -> by (unfold input, header; by rewrite <- !app_assoc).
  split_and!.
  - by apply load_put_u32.
  - rewrite drop_app_exact by apply length_le_bytes. by apply load_put_u64.
  - rewrite !lookup_app_r by (rewrite !length_le_bytes; lia). by rewrite !length_le_bytes.
  - rewrite (drop_app_plus 4 9), (drop_app_plus 8 1) by apply length_le_bytes.
    cbn [drop]. by apply load_put_u32.
  - rewrite (drop_app_plus 4 13), (drop_app_plus 8 5) by apply length_le_bytes.
    cbn [drop]. rewrite drop_app_exact by apply length_le_bytes. by apply load_put_u32.
Qed.

(** What [decode_record] does once the header is in hand. *)
Lemma decode_header crc ts op kl vl tail :
  is_u32 crc -> is_u64 ts -> is_u32 kl -> is_u32 vl ->
  let extra := extra_of op in
  let total := 21 + extra + kl + vl in
  decode_record (header crc ts op kl vl ++ tail) =
    Some (if zlen tail <? extra + kl + vl then decode_failure DecodeIncomplete
          else if negb (crc32 (substr (header crc ts op kl vl ++ tail) 4 (total - 4)) =? crc)
               then decode_failure DecodeCorrupt
          else if kSetExOpByte <? b2z op then decode_failure DecodeCorrupt
          else mkDecodeResult DecodeOk total
                 (mkRecord (if b2z op =? kSetExOpByte then kSet
                            else if b2z op =? 0 then kSet else kDelete)
                    (i64 ts)
                    (if b2z op =? kSetExOpByte then i64 (le_val (take 8 tail)) else 0)
                    (substr tail extra kl) (substr tail (extra + kl) vl))).
Proof.
  intros Hcrc Hts Hkl Hvl extra total.
  assert (extra = 0 \/ extra = 8) as Hex.
  { unfold extra, extra_of, kExpirySize. case_match; auto. }
  unfold is_u32, is_u64 in *.
  assert (forall pos n, 0 <= pos ->
    substr (header crc ts op kl vl ++ tail) (21 + pos) n = substr tail pos n) as Hsub.
  { intros pos n Hpos. unfold substr. rewrite Z2Nat.inj_add by lia.
    by rewrite drop_app_plus by apply length_header. }
  unfold decode_record. rewrite (proj2 (Z.ltb_ge _ _)).
  2: { rewrite zlen_app. unfold zlen at 1. rewrite length_header. unfold kRecordHeaderSize. zlia. }
  destruct (header_loads crc ts op kl vl tail Hcrc Hts Hkl Hvl) as (-> & -> & -> & -> & ->).
  cbn [mbind option_bind].
  change (if b2z op =? kSetExOpByte then kExpirySize else 0) with extra.
  assert (u64 (u64 (u64 (kRecordHeaderSize + extra) + kl) + vl) = total) as ->.
  { unfold kRecordHeaderSize.
    rewrite (u64_id (21 + extra)), (u64_id (21 + extra + kl)), u64_id; unfold is_u64; lia. }
  rewrite zlen_app. unfold zlen at 1. rewrite length_header.
  assert ((Z.of_nat 21 + zlen tail <? total) = (zlen tail <? extra + kl + vl)) as ->.
  { apply Bool.eq_iff_eq_true. rewrite !Z.ltb_lt. lia. }
  destruct (zlen tail <? extra + kl + vl) eqn:Hshort; [done|].
  case_match; [done|]. case_match; [done|].
  change kRecordHeaderSize with 21. rewrite <- Z.add_assoc, !Hsub by lia.
  destruct (b2z op =? kSetExOpByte) eqn:Hop; [|done].
  rewrite (drop_app_exact 21) by apply length_header.
  rewrite load_u64_le, decide_True.
  - done.
  - assert (extra = 8) by (subst extra; unfold extra_of; by rewrite Hop). lia.
Qed.

(** ** The encoder's output *)

Definition carries_expiry (op : Op) (e : Z) : bool := bool_decide (op = kSet) && negb (e =? 0).
Definition wire_op (op : Op) (e : Z) : byte :=
  z2b (if carries_expiry op e then kSetExOpByte else op_to_byte op).
Definition record_tail (op : Op) (k v : bytes) (e : Z) : bytes :=
  (if carries_expiry op e then le_bytes 8 (u64 e) else []) ++ k ++ v.
Definition record_covered (op : Op) (ts : Z) (k v : bytes) (e : Z) : bytes :=
  le_bytes 8 (u64 ts) ++ [wire_op op e] ++ le_bytes 4 (u32 (zlen k)) ++
  le_bytes 4 (u32 (zlen v)) ++ record_tail op k v e.

Lemma encode_record_eq out op ts k v e :
  encode_record out op ts k v e =
  out ++ header (crc32 (record_covered op ts k v e)) (u64 ts) (wire_op op e)
           (u32 (zlen k)) (u32 (zlen v)) ++ record_tail op k v e.
Proof.
  unfold encode_record. fold (carries_expiry op e).
  set (body := if carries_expiry op e then _ else _).
  assert (body ++ k ++ v = (out ++ le_bytes 4 0) ++ record_covered op ts k v e) as Hbody.
  { unfold body, record_covered, record_tail, wire_op.
    rewrite !wal_put_u32_le, !wal_put_u64_le.
    destruct (carries_expiry op e); rewrite <- !app_assoc; done. }
  rewrite <- (app_assoc body), Hbody, !wal_put_u32_le.
  rewrite (drop_app_exact (length (out ++ le_bytes 4 0))) by done.
  rewrite <- (app_assoc out), take_app_length, (drop_app_plus (length out) 4) by done.
  rewrite drop_app_exact by apply length_le_bytes. rewrite app_nil_l.
  unfold header, record_covered at 2. by rewrite <- !app_assoc.
Qed.

(** A record as the log stores it: lengths that fit their fields, stamps that
    are [int64_t], and no expiry on a delete. *)
Definition record_ok (r : Record_) : Prop :=
  zlen (r_key r) < 2 ^ 32 /\ zlen (r_value r) < 2 ^ 32 /\
  is_i64 (r_timestamp_ms r) /\ is_i64 (r_expires_at_ms r) /\
  (r_op r = kDelete -> r_expires_at_ms r = 0).

Definition encode_rec (r : Record_) : bytes :=
  encode_record [] (r_op r) (r_timestamp_ms r) (r_key r) (r_value r) (r_expires_at_ms r).

Lemma encode_record_app out op ts k v e :
  encode_record out op ts k v e = out ++ encode_rec (mkRecord op ts e k v).
Proof. unfold encode_rec. by rewrite !encode_record_eq. Qed.

Lemma wire_op_value op e :
  b2z (wire_op op e) = if carries_expiry op e then 2 else op_to_byte op.
Proof.
  unfold wire_op. rewrite b2z_z2b. by destruct (carries_expiry op e), op.
Qed.

Lemma extra_of_wire op e : extra_of (wire_op op e) = if carries_expiry op e then 8 else 0.
Proof.
  unfold extra_of. rewrite wire_op_value. by destruct (carries_expiry op e), op.
Qed.

Lemma zlen_record_tail op k v e :
  zlen (record_tail op k v e) = extra_of (wire_op op e) + zlen k + zlen v.
Proof.
  unfold record_tail. rewrite extra_of_wire, !zlen_app.
  destruct (carries_expiry op e); [rewrite zlen_le_bytes|change (zlen []) with 0]; lia.
Qed.

Lemma zlen_header crc ts op kl vl : zlen (header crc ts op kl vl) = 21.
Proof. unfold zlen. by rewrite length_header. Qed.
#[export] Hint Rewrite zlen_header : zlen.

Lemma zlen_encode_rec r :
  zlen (encode_rec r) = 21 + extra_of (wire_op (r_op r) (r_expires_at_ms r))
                        + zlen (r_key r) + zlen (r_value r).
Proof.
  unfold encode_rec. rewrite encode_record_eq. zlen_simpl. rewrite zlen_record_tail. lia.
Qed.

Lemma decode_encode_rec r rest :
  record_ok r ->
  decode_record (encode_rec r ++ rest) = Some (mkDecodeResult DecodeOk (zlen (encode_rec r)) r).
Proof.
  destruct r as [op ts e k v]. intros (Hk & Hv & Hts & He & Hdel).
  cbn [r_op r_timestamp_ms r_key r_value r_expires_at_ms] in *.
  rewrite zlen_encode_rec. unfold encode_rec. rewrite encode_record_eq, app_nil_l.
  cbn [r_op r_timestamp_ms r_key r_value r_expires_at_ms].
  set (crc := crc32 (record_covered op ts k v e)). rewrite <- app_assoc.
  assert (is_u32 crc) by apply crc32_range.
  rewrite decode_header by auto with cachedb.
  rewrite !u32_id by (unfold is_u32; zlia).
  set (x := extra_of (wire_op op e)). pose proof (zlen_record_tail op k v e) as Hlen. fold x in Hlen.
  rewrite (proj2 (Z.ltb_ge _ _)) by zlia.
  assert (crc32 (substr (header crc (u64 ts) (wire_op op e) (zlen k) (zlen v) ++
            record_tail op k v e ++ rest) 4 (21 + x + zlen k + zlen v - 4)) = crc) as ->.
  { unfold crc. f_equal.
    replace (header (crc32 (record_covered op ts k v e)) (u64 ts) (wire_op op e) (zlen k) (zlen v) ++
        record_tail op k v e ++ rest)
      with (le_bytes 4 (crc32 (record_covered op ts k v e)) ++ record_covered op ts k v e ++ rest).
    - replace (21 + x + zlen k + zlen v - 4) with (zlen (record_covered op ts k v e)).
      + apply substr_app_mid. by rewrite zlen_le_bytes.
      + unfold record_covered. rewrite !zlen_app, !zlen_le_bytes, Hlen. change (zlen [_]) with 1. lia.
    - unfold header, record_covered at 2. rewrite <- !app_assoc.
      by rewrite !u32_id by (unfold is_u32; zlia). }
  rewrite Z.eqb_refl. cbn [negb]. rewrite wire_op_value.
  rewrite (proj2 (Z.ltb_ge _ _)) by (unfold kSetExOpByte; destruct (carries_expiry op e), op; simpl; lia).
  do 2 f_equal. rewrite i64_u64 by done. unfold record_tail.
  assert (zlen (if carries_expiry op e then le_bytes 8 (u64 e) else []) = x) as Hx.
  { unfold x. rewrite extra_of_wire. by destruct (carries_expiry op e). }
  rewrite <- !app_assoc. f_equal.
  - by destruct (carries_expiry op e) eqn:Hc, op.
  - destruct (carries_expiry op e) eqn:Hc.
    + change (2 =? kSetExOpByte) with true. cbv iota.
      rewrite take_le_bytes, le_val_bytes. change (256 ^ Z.of_nat 8) with (2 ^ 64).
      fold (u64 (u64 e)). rewrite (u64_id (u64 e)) by auto with cachedb. by apply i64_u64.
    + unfold carries_expiry in Hc. destruct op; cbn in *; [|by rewrite Hdel].
      by destruct (Z.eqb_spec e 0).
  - by apply substr_app_mid.
  - rewrite app_assoc. apply substr_app_mid. zlia.
Qed.

(** ** Torn records *)

(** What is left of a record whose write stopped early. *)
Definition torn (p : bytes) : Prop :=
  exists r n, record_ok r /\ p = take n (encode_rec r) /\ (n < length (encode_rec r))%nat.

Lemma decode_short input :
  zlen input < 21 -> decode_record input = Some (decode_failure DecodeIncomplete).
Proof. intros. unfold decode_record. by rewrite (proj2 (Z.ltb_lt _ _)). Qed.

Lemma decode_torn p : torn p -> decode_record p = Some (decode_failure DecodeIncomplete).
Proof.
  intros ([op ts e k v] & n & (Hk & Hv & _) & -> & Hn).
  cbn [r_op r_timestamp_ms r_key r_value r_expires_at_ms] in *.
  destruct (decide (zlen (take n (encode_rec (mkRecord op ts e k v))) < 21)) as [|Hlen];
    [by apply decode_short|].
  assert (zlen (encode_rec (mkRecord op ts e k v)) = Z.of_nat (length (encode_rec (mkRecord op ts e k v))))
    as Hz by done.
  rewrite zlen_encode_rec in Hz.
  cbn [r_op r_timestamp_ms r_key r_value r_expires_at_ms] in Hz. rewrite zlen_take in Hlen. revert Hn Hlen Hz.
  unfold encode_rec. rewrite encode_record_eq, app_nil_l.
  cbn [r_op r_timestamp_ms r_key r_value r_expires_at_ms]. intros Hn Hlen Hz.
  rewrite take_app_ge by (rewrite length_header; lia).
  rewrite decode_header by auto with cachedb. rewrite !u32_id by (unfold is_u32; zlia).
  rewrite (proj2 (Z.ltb_lt _ _)); [done|].
  rewrite zlen_take, length_header. lia.
Qed.

(** ** Decoding is local

    Every answer is an answer (no read leaves the buffer), and an accepted
    record depends only on the bytes it occupies. *)
Lemma decode_total input : is_Some (decode_record input).
Proof.
  destruct (decide (zlen input < 21)) as [H|H]; [by rewrite decode_short|].
  destruct (split_header input) as (crc & ts & op & kl & vl & tail & -> & H1 & H2 & H3 & H4); [lia|].
  rewrite decode_header by done. by eexists.
Qed.

Lemma take_header n crc ts op kl vl tail :
  21 <= n -> take (Z.to_nat n) (header crc ts op kl vl ++ tail)
             = header crc ts op kl vl ++ take (Z.to_nat (n - 21)) tail.
Proof.
  intros Hn. rewrite take_app_ge by (rewrite length_header; lia).
  rewrite length_header. do 2 f_equal. lia.
Qed.

Lemma substr_take_app tail rest m pos n :
  0 <= pos -> 0 <= n -> pos + n <= m -> m <= zlen tail ->
  substr (take (Z.to_nat m) tail ++ rest) pos n = substr tail pos n.
Proof.
  intros. unfold substr.
  assert (length (take (Z.to_nat m) tail) = Z.to_nat m) as Hlen
    by (rewrite length_take; unfold zlen in *; lia).
  rewrite drop_app_le, take_app_le by (rewrite ?length_drop, Hlen; lia).
  rewrite skipn_firstn_comm, take_take. f_equal. lia.
Qed.

Lemma decode_ok_local input n r :
  decode_record input = Some (mkDecodeResult DecodeOk n r) ->
  21 <= n <= zlen input /\
  forall rest, decode_record (take (Z.to_nat n) input ++ rest) = Some (mkDecodeResult DecodeOk n r).
Proof.
  destruct (decide (zlen input < 21)) as [Hs|Hs]; [by rewrite decode_short|].
  destruct (split_header input) as (crc & ts & op & kl & vl & tail & -> & H1 & H2 & H3 & H4); [lia|].
  assert (extra_of op = 0 \/ extra_of op = 8) as Hex
    by (unfold extra_of, kExpirySize; case_match; auto).
  unfold is_u32 in H3, H4.
  rewrite decode_header by done. cbv zeta.
  destruct (Z.ltb_spec (zlen tail) (extra_of op + kl + vl)) as [|Hlen]; [done|].
  case_match eqn:Hcrc; [done|]. case_match eqn:Hop; [done|]. intros Heq.
  assert (n = 21 + extra_of op + kl + vl) as Hn by congruence. subst n.
  split; [rewrite zlen_app, zlen_header; lia|]. intros rest.
  rewrite take_header, <- app_assoc by lia.
  replace (21 + extra_of op + kl + vl - 21) with (extra_of op + kl + vl) by lia.
  rewrite decode_header by done. cbv zeta.
  rewrite (proj2 (Z.ltb_ge _ _)) by zlia.
  assert (substr (header crc ts op kl vl ++ take (Z.to_nat (extra_of op + kl + vl)) tail ++ rest)
            4 (21 + extra_of op + kl + vl - 4) =
          substr (header crc ts op kl vl ++ tail) 4 (21 + extra_of op + kl + vl - 4)) as ->.
  { rewrite app_assoc.
    replace (extra_of op + kl + vl) with (21 + extra_of op + kl + vl - 21) at 1 by lia.
    rewrite <- take_header by lia. apply substr_take_app; try lia. zlia. }
  rewrite Hcrc, Hop, <- Heq. rewrite !substr_take_app by lia. do 4 f_equal.
  destruct (b2z op =? kSetExOpByte) eqn:Hb; [|done].
  assert (extra_of op = 8) as He by (unfold extra_of; by rewrite Hb).
  do 2 f_equal. change 8%nat with (Z.to_nat 8).
  rewrite take_app_le by (rewrite length_take; unfold zlen in *; lia).
  rewrite take_take. f_equal. lia.
Qed.

(** ** The scan *)

Lemma replay_loop_total f rest off :
  (length rest < f)%nat -> is_Some (replay_loop f rest off).
Proof.
  revert rest off. induction f as [|f IH]; intros rest off Hf; [lia|]. simpl.
  destruct (decode_total rest) as [[s n r] Hd]. rewrite Hd. cbn [mbind option_bind dr_status dr_consumed].
  destruct s; try by eexists.
  apply decode_ok_local in Hd as [Hn _].
  destruct (IH (drop (Z.to_nat n) rest) (off + n)) as [[rs g] ->]; [|by eexists].
  rewrite length_drop. unfold zlen in *. lia.
Qed.

Lemma replay_loop_mono f g rest off x :
  replay_loop f rest off = Some x -> (f <= g)%nat -> replay_loop g rest off = Some x.
Proof.
  revert g rest off x. induction f as [|f IH]; intros [|g] rest off x; simpl; try lia; try done.
  destruct (decode_record rest) as [[s n r]|]; simpl; [|done]. destruct s; try done.
  destruct (replay_loop f _ _) as [y|] eqn:E; [|done]. intros Hx Hfg.
  rewrite (IH g _ _ _ E) by lia. done.
Qed.

(** Cutting the file at the end of the intact prefix leaves a log that replays
    to the same records and ends exactly there. *)
Lemma replay_loop_cut f rest off rs good :
  replay_loop f rest off = Some (rs, good) ->
  off <= good <= off + zlen rest /\
  replay_loop f (take (Z.to_nat (good - off)) rest) off = Some (rs, good).
Proof.
  revert rest off rs good. induction f as [|f IH]; intros rest off rs good; [done|]. cbn [replay_loop].
  destruct (decode_record rest) as [[s n r]|] eqn:Hd; [|done].
  cbn [mbind option_bind dr_status dr_consumed dr_record]. destruct s.
  2, 3: intros [= <- <-]; (split; [zlia|]); rewrite Z.sub_diag; done.
  destruct (replay_loop f _ _) as [[rs' good']|] eqn:E; [|done]. cbn [mbind option_bind].
  intros [= <- <-]. pose proof (decode_ok_local _ _ _ Hd) as [Hn Hloc].
  destruct (IH _ _ _ _ E) as [Hg Hcut]. rewrite zlen_drop in Hg.
  split; [lia|].
  assert (take (Z.to_nat (good' - off)) rest =
          take (Z.to_nat n) rest ++ take (Z.to_nat (good' - (off + n))) (drop (Z.to_nat n) rest)) as ->.
  { replace (Z.to_nat (good' - off)) with (Z.to_nat n + Z.to_nat (good' - (off + n)))%nat by lia.
    rewrite <- (take_drop (Z.to_nat n) rest) at 1. rewrite take_app_add'; [done|].
    rewrite length_take. unfold zlen in *. lia. }
  rewrite Hloc. cbn [mbind option_bind dr_status dr_consumed dr_record].
  rewrite drop_app_exact, Hcut; [done|]. rewrite length_take. unfold zlen in *. lia.
Qed.

Lemma replay_loop_records f rs tail off :
  Forall record_ok rs -> tail = [] \/ torn tail -> (length rs < f)%nat ->
  replay_loop f (concat (encode_rec <$> rs) ++ tail) off =
    Some (rs, off + zlen (concat (encode_rec <$> rs))).
Proof.
  intros Hrs Htail. revert f off. induction Hrs as [|r rs Hr _ IH]; intros [|f] off Hf;
    simpl in Hf; try lia; cbn [replay_loop].
  - cbn [fmap list_fmap concat app]. change (zlen []) with 0. rewrite Z.add_0_r.
    destruct Htail as [->|Ht]; [done|]. by rewrite (decode_torn _ Ht).
  - rewrite fmap_cons. cbn [concat]. rewrite <- app_assoc, decode_encode_rec by done.
    cbn [mbind option_bind dr_status dr_consumed dr_record].
    rewrite drop_app_exact by (by rewrite zlen_to_nat).
    rewrite IH by lia. cbn [mbind option_bind]. do 2 f_equal. zlia.
Qed.

Lemma length_encode_recs rs : (length rs <= length (concat (encode_rec <$> rs)))%nat.
Proof.
  induction rs as [|r rs IH]; [done|]. rewrite fmap_cons. cbn [concat length].
  rewrite length_app. pose proof (zlen_encode_rec r) as Hz.
  assert (0 <= extra_of (wire_op (r_op r) (r_expires_at_ms r))).
  { unfold extra_of, kExpirySize. case_match; lia. }
  unfold zlen in Hz. lia.
Qed.

Lemma replay_scan_total data : is_Some (replay_scan data).
Proof.
  unfold replay_scan. destruct (replay_loop_total (length data + 1) data 0) as [[rs g] ->]; [lia|].
  by eexists.
Qed.

(** ** The checksum detects every single-byte change *)

(** The top bytes of the table entries are pairwise distinct. *)
Lemma crc_table_top_inj i j :
  (i < 256)%nat -> (j < 256)%nat ->
  Z.shiftr (nth i crc_table 0) 24 = Z.shiftr (nth j crc_table 0) 24 -> i = j.
Proof.
  intros Hi Hj Heq.
  assert (forallb (fun i => forallb (fun j =>
    implb (Z.shiftr (nth i crc_table 0) 24 =? Z.shiftr (nth j crc_table 0) 24) (Nat.eqb i j))
      (seq 0 256)) (seq 0 256) = true) as Hall by (vm_compute; reflexivity).
  rewrite forallb_forall in Hall. specialize (Hall i ltac:(apply in_seq; lia)).
  rewrite forallb_forall in Hall. specialize (Hall j ltac:(apply in_seq; lia)).
  rewrite (proj2 (Z.eqb_eq _ _) Heq) in Hall. by apply Nat.eqb_eq.
Qed.

Lemma lxor_cancel_r a b c : Z.lxor a c = Z.lxor b c -> a = b.
Proof.
  intros H. rewrite <- (Z.lxor_0_r a), <- (Z.lxor_0_r b), <- (Z.lxor_nilpotent c).
  by rewrite <- !Z.lxor_assoc, H.
Qed.

Lemma crc_step_index c1 c2 b1 b2 :
  is_u32 c1 -> is_u32 c2 -> crc_step c1 b1 = crc_step c2 b2 ->
  Z.land (Z.lxor c1 (b2z b1)) 255 = Z.land (Z.lxor c2 (b2z b2)) 255 /\
  Z.shiftr c1 8 = Z.shiftr c2 8.
Proof.
  intros H1 H2 Heq. unfold crc_step in Heq.
  pose proof (land_255_range (Z.lxor c1 (b2z b1))) as R1.
  pose proof (land_255_range (Z.lxor c2 (b2z b2))) as R2.
  set (i := Z.land (Z.lxor c1 (b2z b1)) 255) in *. set (j := Z.land (Z.lxor c2 (b2z b2)) 255) in *.
  assert (forall c, is_u32 c -> Z.shiftr (Z.shiftr c 8) 24 = 0) as Hz.
  { intros c Hc. unfold is_u32 in Hc. rewrite Z.shiftr_shiftr, Z.shiftr_div_pow2 by lia.
    apply Z.div_small. lia. }
  assert (Z.to_nat i = Z.to_nat j) as Hij.
  { apply crc_table_top_inj; [lia|lia|].
    apply (f_equal (fun z => Z.shiftr z 24)) in Heq. rewrite !Z.shiftr_lxor, !Hz in Heq by done.
    by rewrite !Z.lxor_0_r in Heq. }
  split; [lia|]. rewrite Hij in Heq. rewrite !(Z.lxor_comm (nth _ _ _)) in Heq.
  by apply lxor_cancel_r in Heq.
Qed.

Lemma split_low_byte c : is_u32 c -> c = Z.shiftr c 8 * 256 + c mod 256.
Proof. intros. rewrite Z.shiftr_div_pow2 by lia. change (2 ^ 8) with 256.
  pose proof (Z.div_mod c 256 ltac:(lia)). lia. Qed.

Lemma lxor_low_inj a b c :
  Z.land (Z.lxor a c) 255 = Z.land (Z.lxor b c) 255 -> a mod 256 = b mod 256.
Proof.
  assert (forall a, Z.land (Z.lxor a c) 255 = Z.lxor (Z.land a 255) (Z.land c 255)) as Hd.
  { intros a'. apply Z.bits_inj'. intros i Hi. rewrite !Z.land_spec, !Z.lxor_spec, !Z.land_spec.
    by destruct (Z.testbit a' i), (Z.testbit c i), (Z.testbit 255 i). }
  rewrite !Hd. intros H%lxor_cancel_r. by rewrite <- !land_255.
Qed.

Lemma crc_step_inj_state c1 c2 b :
  is_u32 c1 -> is_u32 c2 -> crc_step c1 b = crc_step c2 b -> c1 = c2.
Proof.
  intros H1 H2 Heq. destruct (crc_step_index _ _ _ _ H1 H2 Heq) as [Hl Hs].
  apply lxor_low_inj in Hl. rewrite (split_low_byte c1), (split_low_byte c2) by done. lia.
Qed.

Lemma crc_step_inj_byte c b1 b2 : is_u32 c -> crc_step c b1 = crc_step c b2 -> b1 = b2.
Proof.
  intros Hc Heq. destruct (crc_step_index _ _ _ _ Hc Hc Heq) as [Hl _].
  rewrite !(Z.lxor_comm c) in Hl. apply lxor_low_inj in Hl.
  rewrite !Z.mod_small in Hl by apply b2z_range. by apply b2z_inj.
Qed.

Lemma crc_fold_inj data c1 c2 :
  is_u32 c1 -> is_u32 c2 -> fold_left crc_step data c1 = fold_left crc_step data c2 -> c1 = c2.
Proof.
  revert c1 c2. induction data as [|b data IH]; intros c1 c2 H1 H2; simpl; [done|].
  intros Heq. apply IH in Heq; [|by apply crc_step_range..]. by eapply crc_step_inj_state.
Qed.

Lemma crc32_single_byte a b x y : crc32 (a ++ x :: b) = crc32 (a ++ y :: b) -> x = y.
Proof.
  unfold crc32. intros Heq%lxor_cancel_r. rewrite !fold_left_app in Heq. simpl in Heq.
  assert (is_u32 (fold_left crc_step a 0xFFFFFFFF)) by (by apply crc_fold_range).
  apply crc_fold_inj in Heq; [|by apply crc_step_range..]. by eapply crc_step_inj_byte.
Qed.

Lemma crc32_insert l j x y :
  l !! j = Some x -> x <> y -> crc32 (<[j := y]> l) <> crc32 l.
Proof.
  intros Hx Hxy Heq. apply Hxy. symmetry.
  rewrite insert_take_drop in Heq by (by eapply lookup_lt_Some).
  rewrite <- (take_drop_middle l j x Hx) in Heq at 3. by apply crc32_single_byte in Heq.
Qed.

(** A checksum field that does not match the rest of the record. *)
Lemma decode_mismatch crc ts op kl vl tail rest :
  is_u32 crc -> is_u64 ts -> is_u32 kl -> is_u32 vl -> zlen tail = extra_of op + kl + vl ->
  crc32 (le_bytes 8 ts ++ [op] ++ le_bytes 4 kl ++ le_bytes 4 vl ++ tail) <> crc ->
  decode_record (header crc ts op kl vl ++ tail ++ rest) = Some (decode_failure DecodeCorrupt).
Proof.
  intros Hcrc Hts Hkl Hvl Hlen Hne. rewrite decode_header by done. cbv zeta.
  rewrite (proj2 (Z.ltb_ge _ _)) by zlia.
  set (cov := le_bytes 8 ts ++ _) in Hne.
  replace (header crc ts op kl vl ++ tail ++ rest) with (le_bytes 4 crc ++ cov ++ rest).
  2: { unfold header, cov. by rewrite <- !app_assoc. }
  replace (21 + extra_of op + kl + vl - 4) with (zlen cov).
  2: { unfold cov. rewrite !zlen_app, !zlen_le_bytes, Hlen. change (zlen [op]) with 1. lia. }
  rewrite substr_app_mid by (by rewrite zlen_le_bytes).
  by rewrite (proj2 (Z.eqb_neq _ _) Hne).
Qed.

Lemma insert_le_bytes n v i y :
  exists v', <[i := y]> (le_bytes n v) = le_bytes n v' /\ 0 <= v' < 256 ^ Z.of_nat n.
Proof.
  exists (le_val (<[i := y]> (le_bytes n v))).
  pose proof (le_val_range (<[i := y]> (le_bytes n v))) as Hr.
  unfold zlen in Hr. rewrite length_insert, length_le_bytes in Hr. split; [|done].
  rewrite <- (le_bytes_val (<[i := y]> (le_bytes n v))) at 1.
  by rewrite length_insert, length_le_bytes.
Qed.

(** One byte of a record whose checksum was right. *)
Section damage.
Context (ts kl vl : Z) (op : byte) (tail rest : bytes) (x y : byte).
Context (Hts : is_u64 ts) (Hkl : is_u32 kl) (Hvl : is_u32 vl) (Hlen : zlen tail = extra_of op + kl + vl).
Context (Hxy : x <> y).
Let fields := le_bytes 8 ts ++ [op] ++ le_bytes 4 kl ++ le_bytes 4 vl.
Let crc := crc32 (fields ++ tail).

Lemma fields_app l : fields ++ l = le_bytes 8 ts ++ [op] ++ le_bytes 4 kl ++ le_bytes 4 vl ++ l.
Proof. unfold fields. by rewrite <- !app_assoc. Qed.

(** In the checksum, *)
Lemma damaged_crc i :
  (i < 4)%nat -> header crc ts op kl vl !! i = Some x ->
  decode_record (<[i := y]> (header crc ts op kl vl) ++ tail ++ rest) = Some (decode_failure DecodeCorrupt).
Proof using Hts Hkl Hvl Hlen Hxy.
  intros Hi Hx. unfold header in *. rewrite insert_app_l by (by rewrite length_le_bytes).
  rewrite lookup_app_l in Hx by (by rewrite length_le_bytes).
  destruct (insert_le_bytes 4 crc i y) as (crc' & Hins & Hr). rewrite Hins.
  apply decode_mismatch; [exact Hr|done..|]. rewrite <- fields_app. fold crc. intros Heq.
  rewrite <- Heq in Hins. rewrite <- Hins, list_lookup_insert_eq in Hx; [congruence|by rewrite length_le_bytes].
Qed.

(** in the time stamp, *)
Lemma damaged_stamp i :
  (4 <= i < 12)%nat -> header crc ts op kl vl !! i = Some x ->
  decode_record (<[i := y]> (header crc ts op kl vl) ++ tail ++ rest) = Some (decode_failure DecodeCorrupt).
Proof using Hts Hkl Hvl Hlen Hxy.
  intros Hi Hx. unfold header in *.
  rewrite insert_app_r_alt, length_le_bytes, insert_app_l by (rewrite length_le_bytes; lia).
  rewrite lookup_app_r, length_le_bytes, lookup_app_l in Hx by (rewrite length_le_bytes; lia).
  assert (crc32 (<[(i - 4)%nat := y]> (fields ++ tail)) <> crc) as Hne.
  { apply (crc32_insert _ _ x); [|done]. rewrite fields_app, lookup_app_l by (rewrite length_le_bytes; lia). done. }
  rewrite fields_app, insert_app_l in Hne by (rewrite length_le_bytes; lia).
  destruct (insert_le_bytes 8 ts (i - 4) y) as (ts' & Hins & Hr). rewrite Hins in *.
  apply decode_mismatch; [apply crc32_range|exact Hr|done..].
Qed.

(** and behind the header. *)
Lemma damaged_tail i :
  tail !! i = Some x ->
  decode_record (header crc ts op kl vl ++ <[i := y]> tail ++ rest) = Some (decode_failure DecodeCorrupt).
Proof using Hts Hkl Hvl Hlen Hxy.
  intros Hx. apply decode_mismatch; [apply crc32_range|done..| |].
  - unfold zlen at 1. by rewrite length_insert.
  - rewrite <- fields_app, <- (insert_app_r fields tail). apply (crc32_insert _ _ x); [|done].
    rewrite lookup_app_r by lia. by replace (length fields + i - length fields)%nat with i by lia.
Qed.
End damage.

(** ** Properties *)

(** Records round-trip: whatever follows it in the log, an encoded record
    whose key and value lengths fit 32 bits decodes to itself and is consumed
    exactly. *)
Theorem wal_record_roundtrip (out : bytes) (r : Record_) (rest : bytes) :
  record_ok r ->
  let enc := encode_record out (r_op r) (r_timestamp_ms r) (r_key r) (r_value r)
               (r_expires_at_ms r) in
  take (length out) enc = out /\
  decode_record (drop (length out) enc ++ rest) =
    Some (mkDecodeResult DecodeOk (zlen enc - zlen out) r).
Proof.
  intros Hr enc. subst enc. rewrite encode_record_app.
  destruct r as [op ts e k v]. cbn [r_op r_timestamp_ms r_key r_value r_expires_at_ms].
  rewrite take_app_length, drop_app_length, zlen_app. split; [done|].
  rewrite decode_encode_rec by done. do 2 f_equal. lia.
Qed.

Lemma wal_record_roundtrip_witness :
  decode_record (encode_record [] kDelete 5 (lit "k") [] 0 ++ lit "tail") =
    Some (mkDecodeResult DecodeOk 22 (mkRecord kDelete 5 0 (lit "k") [])).
Proof.
  apply (wal_record_roundtrip [] (mkRecord kDelete 5 0 (lit "k") []) (lit "tail")).
  unfold record_ok, is_i64; simpl; repeat split; vm_compute; congruence.
Defined.

(** What a replay of whole records and perhaps a torn one comes to. *)
Lemma replay_scan_torn (rs : list Record_) (tail : bytes) :
  Forall record_ok rs -> tail = [] \/ torn tail ->
  replay_scan (concat (encode_rec <$> rs) ++ tail) =
    Some (rs, mkReplayResult (zlen rs) (zlen (concat (encode_rec <$> rs)))
                (bool_decide (tail <> []))).
Proof.
  intros Hrs Ht. unfold replay_scan. rewrite replay_loop_records.
  - cbn [mbind option_bind]. rewrite Z.add_0_l, zlen_app. do 3 f_equal.
    destruct tail as [|c tail].
    + rewrite bool_decide_false by naive_solver. change (zlen []) with 0. lia.
    + rewrite bool_decide_true by done. rewrite zlen_cons. zlia.
  - done.
  - done.
  - rewrite length_app. pose proof (length_encode_recs rs). lia.
Qed.

(** Recovery after a crash in mid-append: a log that holds whole records and
    then any strict prefix of one more replays exactly the whole records, in
    order, and reports a cut exactly when there was a torn tail. *)
Theorem replay_after_torn_append (rs : list Record_) (tail : bytes) :
  Forall record_ok rs -> tail = [] \/ torn tail ->
  replay_scan (concat (encode_rec <$> rs) ++ tail) =
    Some (rs, mkReplayResult (zlen rs) (zlen (concat (encode_rec <$> rs)))
                (bool_decide (tail <> []))).
Proof. apply replay_scan_torn. Qed.

Lemma replay_after_torn_append_witness :
  let r := mkRecord kSet 5 0 (lit "k") (lit "v") in
  replay_scan (concat (encode_rec <$> [r]) ++ take 9 (encode_rec r)) =
    Some ([r], mkReplayResult 1 (zlen (concat (encode_rec <$> [r]))) true).
Proof.
  apply (replay_after_torn_append [mkRecord kSet 5 0 (lit "k") (lit "v")]
           (take 9 (encode_rec (mkRecord kSet 5 0 (lit "k") (lit "v"))))).
  - repeat constructor; vm_compute; congruence.
  - right. exists (mkRecord kSet 5 0 (lit "k") (lit "v")), 9%nat.
    split; [unfold record_ok, is_i64; simpl; repeat split; vm_compute; congruence|].
    split; [reflexivity|]. vm_compute. lia.
Defined.

(** C27: Replay of arbitrary bytes always returns, never reads outside the
    buffer, keeps a prefix of the file, and is idempotent: scanning the file
    cut at [good_bytes] yields the same records and finds nothing to cut. *)
Theorem replay_total_idempotent (data : bytes) :
  exists rs res, replay_scan data = Some (rs, res) /\
    0 <= good_bytes res <= zlen data /\
    replay_scan (take (Z.to_nat (good_bytes res)) data) =
      Some (rs, mkReplayResult (zlen rs) (good_bytes res) false).
Proof.
  destruct (replay_scan_total data) as [[rs res] Hs]. exists rs, res. split; [done|].
  unfold replay_scan in *. destruct (replay_loop (length data + 1) data 0) as [[rs' g]|] eqn:E; [|done].
  cbn [mbind option_bind] in Hs. simplify_eq/=.
  destruct (replay_loop_cut _ _ _ _ _ E) as [Hg Hcut]. rewrite Z.sub_0_r in Hcut.
  split; [lia|].
  destruct (replay_loop_total (length (take (Z.to_nat g) data) + 1) (take (Z.to_nat g) data) 0)
    as [x Hx]; [lia|].
  pose proof (replay_loop_mono _ (length data + 1) _ _ _ Hx) as Hm.
  rewrite length_take in Hm. specialize (Hm ltac:(lia)). rewrite Hcut in Hm. simplify_eq.
  rewrite Hx. cbn [mbind option_bind]. rewrite (proj2 (Z.ltb_ge _ _)); [done|zlia].
Qed.

(** C28: No single damaged byte goes unnoticed: replacing one byte of an encoded
    record, anywhere outside its two length fields and its op byte, by a
    different one makes the decoder report corruption. *)
Theorem wal_single_byte_damage (r : Record_) (i : nat) (x y : byte) (rest : bytes) :
  record_ok r -> encode_rec r !! i = Some x -> x <> y ->
  ~ (12 <= i < 21)%nat ->
  decode_record (<[i := y]> (encode_rec r) ++ rest) = Some (decode_failure DecodeCorrupt).
Proof.
  destruct r as [op ts e k v]. intros (Hk & Hv & _) Hx Hxy Hi. revert Hx.
  unfold encode_rec. rewrite encode_record_eq, app_nil_l.
  cbn [r_op r_timestamp_ms r_key r_value r_expires_at_ms] in *. intros Hx.
  pose proof (zlen_record_tail op k v e) as Hlen. unfold record_covered in *.
  rewrite !u32_id in * by (unfold is_u32; zlia). rewrite <- fields_app in *.
  destruct (decide (i < 21)%nat) as [Hi21|Hi21].
  - rewrite insert_app_l, <- app_assoc by (by rewrite length_header).
    rewrite lookup_app_l in Hx by (by rewrite length_header).
    destruct (decide (i < 4)%nat); [apply (damaged_crc _ _ _ _ _ _ x)|apply (damaged_stamp _ _ _ _ _ _ x)];
      try done; try apply u64_range; try (unfold is_u32; zlia); lia.
  - rewrite insert_app_r_alt, length_header, <- app_assoc by (rewrite length_header; lia).
    rewrite lookup_app_r, length_header in Hx by (rewrite length_header; lia).
    apply (damaged_tail _ _ _ _ _ _ x); try done; try apply u64_range; unfold is_u32; zlia.
Qed.

Lemma wal_single_byte_damage_witness :
  let r := mkRecord kSet 5 0 (lit "k") (lit "v") in
  decode_record (<[22%nat := x00]> (encode_rec r) ++ []) = Some (decode_failure DecodeCorrupt).
Proof.
  apply (wal_single_byte_damage (mkRecord kSet 5 0 (lit "k") (lit "v")) 22 x76 x00 []).
  - unfold record_ok, is_i64; simpl; repeat split; vm_compute; congruence.
  - vm_compute. reflexivity.
  - discriminate.
  - lia.
Defined.
