(* ===== verification/Posix.v ===== *)
(** * The operating system as the program sees it

    The storage engine talks to the kernel through a handful of POSIX calls and
    two clocks.  None of that is code of the repository, so the kernel's
    decisions are a parameter: an [env] gives, for the [n]-th interaction of the
    process with the kernel, the answers the kernel gives to the calls of that
    interaction (a retry loop may need several), and the reading of each clock.
    What a call does to files is what its manual page documents: names are
    directory entries that lead to inodes, data written is visible at once to
    every reader and reaches the disk with [fsync] of the file, a change of names
    reaches the disk with [fsync] of the directory.

    An interaction whose answers run out is one the process never returns from:
    it was killed there.  A process killed between two calls is one killed at the
    later of them, before it had any effect, so quantifying over [env] quantifies
    over every crash point. *)

From stdpp Require Import gmap.
From S2P Require Import Prelude.

(** ** The kernel's answers *)

Inductive answer :=
  | Done (n : nat)   (** success; [n] bytes moved where bytes are moved *)
  | Eintr            (** failure with [errno == EINTR] *)
  | Fail.            (** any other failure *)

Record env := mkEnv {
  clock_at : nat -> Z;           (** [system_clock], in milliseconds *)
  steady_at : nat -> Z;          (** [steady_clock], in milliseconds *)
  answers_at : nat -> list answer
}.

(** ** The file system *)

Record world := mkWorld {
  tick : nat;                    (** interactions so far *)
  dir : gmap bytes nat;          (** names, as every process sees them *)
  dir_synced : gmap bytes nat;   (** names, as last made durable *)
  ino : gmap nat bytes;          (** contents, as every process sees them *)
  ino_synced : gmap nat bytes;   (** contents, as last made durable *)
  next_ino : nat
}.

Definition world_init : world := mkWorld 0 ∅ ∅ ∅ ∅ 0.

(** The bytes a reader of [fd] sees. *)
Definition contents (w : world) (fd : nat) : bytes := default [] (ino w !! fd).

Definition set_ino (w : world) (fd : nat) (data : bytes) : world :=
  mkWorld (tick w) (dir w) (dir_synced w) (<[fd := data]> (ino w)) (ino_synced w) (next_ino w).

Definition set_dir (w : world) (d : gmap bytes nat) : world :=
  mkWorld (tick w) d (dir_synced w) (ino w) (ino_synced w) (next_ino w).

Definition next_tick (w : world) : world :=
  mkWorld (S (tick w)) (dir w) (dir_synced w) (ino w) (ino_synced w) (next_ino w).

(** ** Programs

    [Ret] returns, [Throw] leaves through an exception (every one of them ends
    in [main]'s handler, which exits), [Dead] never returns. *)

Inductive res (A : Type) :=
  | Ret (a : A)
  | Throw (what : bytes)
  | Dead.
Arguments Ret {A} a.
Arguments Throw {A} what.
Arguments Dead {A}.

Definition M (A : Type) : Type := world -> res A * world.

#[export] Instance M_ret : MRet M := fun A a w => (Ret a, w).
#[export] Instance M_bind : MBind M := fun A B k m w =>
  match m w with
  | (Ret a, w') => k a w'
  | (Throw e, w') => (Throw e, w')
  | (Dead, w') => (Dead, w')
  end.

Definition throw {A} (what : bytes) : M A := fun w => (Throw what, w).

(** ** Calls *)

Section calls.
Context (E : env).

Definition answers (w : world) : list answer := answers_at E (tick w).

(** A call that is made once: its outcome is its first answer. *)
Definition one_call (effect : world -> world) : M bool := fun w =>
  match answers w with
  | [] => (Dead, w)
  | Done _ :: _ => (Ret true, next_tick (effect w))
  | _ :: _ => (Ret false, next_tick w)
  end.

(** [now_ms()]: the wall clock. *)
Definition now_ms : M Z := fun w => (Ret (clock_at E (tick w)), next_tick w).
Definition steady_now : M Z := fun w => (Ret (steady_at E (tick w)), next_tick w).

(** [write_all]: [write] until nothing is left, retrying on [EINTR]. *)
Fixpoint write_loop (script : list answer) (fd : nat) (data : bytes) (w : world)
  : res bool * world :=
  match data with
  | [] => (Ret true, w)
  | _ =>
      match script with
      | [] => (Dead, w)
      | Eintr :: s => write_loop s fd data w
      | Fail :: _ => (Ret false, w)
      | Done n :: s =>
          write_loop s fd (drop n data) (set_ino w fd (contents w fd ++ take n data))
      end
  end.

Definition write_all (fd : nat) (data : bytes) : M bool := fun w =>
  let '(r, w') := write_loop (answers w) fd data w in (r, next_tick w').

(** The [fsync] loop: retry on [EINTR] only. *)
Fixpoint retry_eintr (script : list answer) : option bool :=
  match script with
  | [] => None
  | Eintr :: s => retry_eintr s
  | Done _ :: _ => Some true
  | Fail :: _ => Some false
  end.

Definition fsync (fd : nat) : M bool := fun w =>
  match retry_eintr (answers w) with
  | None => (Dead, w)
  | Some true =>
      (Ret true, next_tick (mkWorld (tick w) (dir w) (dir_synced w) (ino w)
                   (<[fd := contents w fd]> (ino_synced w)) (next_ino w)))
  | Some false => (Ret false, next_tick w)
  end.

(** [fsync] on a descriptor of the directory: the names become durable. *)
Definition fsync_names : M bool := fun w =>
  match retry_eintr (answers w) with
  | None => (Dead, w)
  | Some true =>
      (Ret true, next_tick (mkWorld (tick w) (dir w) (dir w) (ino w)
                   (ino_synced w) (next_ino w)))
  | Some false => (Ret false, next_tick w)
  end.

(** [fsync_dir]: opening the directory may fail, and so may its [fsync]. *)
Definition fsync_dir : M bool :=
  opened ← one_call (fun w => w);
  if opened : bool then fsync_names else mret false.

(** The inode of [path], created empty when there is none. *)
Definition create_entry (path : bytes) (w : world) : nat * world :=
  match dir w !! path with
  | Some i => (i, w)
  | None =>
      (next_ino w,
       mkWorld (tick w) (<[path := next_ino w]> (dir w)) (dir_synced w)
         (<[next_ino w := []]> (ino w)) (ino_synced w) (S (next_ino w)))
  end.

(** [open(path, O_WRONLY | O_CREAT | O_APPEND)]. *)
Definition open_append (path : bytes) : M (option nat) := fun w =>
  match answers w with
  | [] => (Dead, w)
  | Done _ :: _ => let '(i, w') := create_entry path w in (Ret (Some i), next_tick w')
  | _ :: _ => (Ret None, next_tick w)
  end.

(** [open(path, O_WRONLY | O_CREAT | O_TRUNC)]. *)
Definition open_trunc (path : bytes) : M (option nat) := fun w =>
  match answers w with
  | [] => (Dead, w)
  | Done _ :: _ =>
      let '(i, w') := create_entry path w in (Ret (Some i), next_tick (set_ino w' i []))
  | _ :: _ => (Ret None, next_tick w)
  end.

(** [open(path, O_RDONLY)] or [O_RDWR]: [inl true] is [ENOENT]. *)
Definition open_existing (path : bytes) : M (bool + nat) := fun w =>
  match answers w with
  | [] => (Dead, w)
  | Done _ :: _ =>
      match dir w !! path with
      | Some i => (Ret (inr i), next_tick w)
      | None => (Ret (inl true), next_tick w)
      end
  | _ :: _ => (Ret (inl false), next_tick w)
  end.

(** [lseek(fd, 0, SEEK_END)]. *)
Definition lseek_end (fd : nat) : M (option Z) := fun w =>
  match answers w with
  | [] => (Dead, w)
  | Done _ :: _ => (Ret (Some (zlen (contents w fd))), next_tick w)
  | _ :: _ => (Ret None, next_tick w)
  end.

(** [stat(path).st_size], 0 on failure. *)
Definition file_size (path : bytes) : M Z := fun w =>
  match answers w with
  | [] => (Dead, w)
  | Done _ :: _ =>
      match dir w !! path with
      | Some i => (Ret (zlen (contents w i)), next_tick w)
      | None => (Ret 0, next_tick w)
      end
  | _ :: _ => (Ret 0, next_tick w)
  end.

(** [read_exact]: [pread] until [length] bytes are in hand; a read that is not at
    the end of the file returns at least one byte. *)
Fixpoint read_loop (script : list answer) (left : bytes) (want : nat) (acc : bytes)
  : option (option bytes) :=
  match want with
  | O => Some (Some acc)
  | _ =>
      match script with
      | [] => None
      | Eintr :: s => read_loop s left want acc
      | Fail :: _ => Some None
      | Done n :: s =>
          let m := Nat.min want (Nat.min (Nat.max 1 n) (length left)) in
          match m with
          | O => Some None
          | _ => read_loop s (drop m left) (want - m) (acc ++ take m left)
          end
      end
  end.

Definition read_exact (fd : nat) (offset length : Z) : M (option bytes) := fun w =>
  match read_loop (answers w) (drop (Z.to_nat offset) (contents w fd)) (Z.to_nat length) [] with
  | None => (Dead, w)
  | Some r => (Ret r, next_tick w)
  end.

(** [read] in chunks until it returns 0; [None] is an error. *)
Fixpoint read_all_loop (script : list answer) (left acc : bytes) : option (option bytes) :=
  match script with
  | [] => None
  | Eintr :: s => read_all_loop s left acc
  | Fail :: _ => Some None
  | Done n :: s =>
      match left with
      | [] => Some (Some acc)
      | _ =>
          let m := Nat.min (Nat.max 1 n) (Z.to_nat 65536) in
          read_all_loop s (drop m left) (acc ++ take m left)
      end
  end.

Definition read_all (fd : nat) : M (option bytes) := fun w =>
  match read_all_loop (answers w) (contents w fd) [] with
  | None => (Dead, w)
  | Some r => (Ret r, next_tick w)
  end.

Definition ftruncate (fd : nat) (n : Z) : M bool :=
  one_call (fun w => set_ino w fd (take (Z.to_nat n) (contents w fd))).

(** [rename(from, to)]: atomic, replacing [to]. *)
Definition rename (from to : bytes) : M bool := fun w =>
  match answers w with
  | [] => (Dead, w)
  | Done _ :: _ =>
      match dir w !! from with
      | Some i => (Ret true, next_tick (set_dir w (<[to := i]> (delete from (dir w)))))
      | None => (Ret false, next_tick w)
      end
  | _ :: _ => (Ret false, next_tick w)
  end.

(** [unlink(path)]: [Some false] is [ENOENT], [None] another failure. *)
Definition unlink (path : bytes) : M (option bool) := fun w =>
  match answers w with
  | [] => (Dead, w)
  | Done _ :: _ =>
      match dir w !! path with
      | Some _ => (Ret (Some true), next_tick (set_dir w (delete path (dir w))))
      | None => (Ret (Some false), next_tick w)
      end
  | _ :: _ => (Ret None, next_tick w)
  end.

(** [opendir] and [readdir] to the end: the names in [d], in no particular order.
    A path is a name in [d] when it is [d], a slash, and no slash after it. *)
Definition name_in (d path : bytes) : option bytes :=
  let n := length d in
  if decide (take n path = d /\ path !! n = Some x2f /\ x2f ∉ drop (S n) path)
  then Some (drop (S n) path) else None.

Definition list_dir (d : bytes) : M (option (list bytes)) := fun w =>
  match answers w with
  | [] => (Dead, w)
  | Done _ :: _ => (Ret (Some (omap (name_in d) (map_to_list (dir w)).*1)), next_tick w)
  | _ :: _ => (Ret None, next_tick w)
  end.

End calls.

(** ** Reasoning about programs

    [wp m Q w]: whatever [m] comes to from [w] (a result, an exception, or no
    return at all) satisfies [Q], together with the world it leaves. *)
Definition wp {A} (m : M A) (Q : res A -> world -> Prop) (w : world) : Prop :=
  Q (m w).1 (m w).2.

Lemma wp_ret {A} (a : A) (Q : res A -> world -> Prop) w : Q (Ret a) w -> wp (mret a) Q w.
Proof. done. Qed.

Lemma wp_throw {A} e (Q : res A -> world -> Prop) w : Q (Throw e) w -> wp (throw e) Q w.
Proof. done. Qed.

Lemma wp_bind {A B} (m : M A) (k : A -> M B) (Q : res B -> world -> Prop) w :
  wp m (fun r w' => match r with
                    | Ret a => wp (k a) Q w'
                    | Throw e => Q (Throw e) w'
                    | Dead => Q Dead w'
                    end) w ->
  wp (m ≫= k) Q w.
Proof. cbv [wp mbind M_bind]. by destruct (m w) as [[a|e|] w']. Qed.

Lemma wp_mono {A} (m : M A) (P Q : res A -> world -> Prop) w :
  wp m P w -> (forall r w', P r w' -> Q r w') -> wp m Q w.
Proof. unfold wp. eauto. Qed.

(** A specification applied to a run. *)
Lemma wp_elim {A} (m : M A) (Q : res A -> world -> Prop) w r w' :
  wp m Q w -> m w = (r, w') -> Q r w'.
Proof. unfold wp. intros H Heq. by rewrite Heq in H. Qed.

(** *** Time

    Interactions are counted upwards. *)

Definition tick_mono {A} (m : M A) : Prop := forall w, (tick w <= tick (m w).2)%nat.

(** [t] is an interaction between the two worlds. *)
Definition between (t0 : nat) (w' : world) (t : nat) : Prop := (t0 <= t <= tick w')%nat.

Lemma tick_mono_ret {A} (a : A) : tick_mono (mret a).
Proof. by intros w. Qed.

Lemma tick_mono_throw {A} e : tick_mono (@throw A e).
Proof. by intros w. Qed.

Lemma tick_mono_bind {A B} (m : M A) (k : A -> M B) :
  tick_mono m -> (forall a, tick_mono (k a)) -> tick_mono (m ≫= k).
Proof.
  intros Hm Hk w. cbv [mbind M_bind]. specialize (Hm w). destruct (m w) as [[a|e|] w1]; cbn in *; auto.
  specialize (Hk a w1). lia.
Qed.

Lemma tick_mono_read_exact E fd offset n : tick_mono (read_exact E fd offset n).
Proof. intros w. unfold read_exact. case_match; cbn; lia. Qed.

Lemma wp_ticks {A} (m : M A) (P : res A -> world -> Prop) w :
  tick_mono m -> wp m P w -> wp m (fun r w' => P r w' /\ (tick w <= tick w')%nat) w.
Proof. intros Hm Hp. split; [done|apply Hm]. Qed.

(** *** What a call leaves alone *)

(** Nothing but the inode [fd] differs between the two worlds. *)
Record frame (fd : nat) (w w' : world) : Prop := mkFrame {
  frame_dir : dir w' = dir w;
  frame_dir_synced : dir_synced w' = dir_synced w;
  frame_next : next_ino w' = next_ino w;
  frame_ino i : i <> fd -> ino w' !! i = ino w !! i;
  frame_ino_synced i : i <> fd -> ino_synced w' !! i = ino_synced w !! i
}.

#[export] Instance frame_refl fd : Reflexive (frame fd).
Proof. intros w. by constructor. Qed.
#[export] Instance frame_trans fd : Transitive (frame fd).
Proof.
  intros w1 w2 w3 [D1 S1 N1 I1 J1] [D2 S2 N2 I2 J2].
  constructor; try congruence; intros i Hi.
  - by rewrite I2, I1.
  - by rewrite J2, J1.
Qed.

(** The files and the names are the same; only the tick may differ. *)
Definition same_files (w w' : world) : Prop :=
  dir w' = dir w /\ dir_synced w' = dir_synced w /\ ino w' = ino w /\
  ino_synced w' = ino_synced w /\ next_ino w' = next_ino w.

#[export] Instance same_files_equiv : Equivalence same_files.
Proof. unfold same_files. split; intros ?; naive_solver congruence. Qed.

#[export] Instance contents_proper :
  Proper (same_files ==> eq ==> eq) contents.
Proof. intros w w' (? & ? & Hi & ?) fd ? <-. unfold contents. by rewrite Hi. Qed.

(** The file as the last [fsync] left it is the file as it is. *)
Definition durable (w : world) (fd : nat) : Prop := ino_synced w !! fd = Some (contents w fd).

#[export] Instance ino_synced_proper : Proper (same_files ==> eq) ino_synced.
Proof. by intros w w' (? & ? & ? & -> & ?). Qed.
#[export] Instance dir_proper : Proper (same_files ==> eq) dir.
Proof. by intros w w' (-> & ?). Qed.
#[export] Instance dir_synced_proper : Proper (same_files ==> eq) dir_synced.
Proof. intros w w' (_ & H & _). by symmetry. Qed.
#[export] Instance durable_proper : Proper (same_files ==> eq ==> iff) durable.
Proof. intros w w' Hw fd ? <-. unfold durable. by rewrite Hw. Qed.

Lemma same_files_frame fd w w' : same_files w w' -> frame fd w w'.
Proof. intros (? & ? & Hi & Hs & ?). constructor; try congruence; intros; by rewrite ?Hi, ?Hs. Qed.

Lemma same_files_tick w : same_files w (next_tick w).
Proof. by repeat split. Qed.
#[export] Hint Resolve same_files_tick same_files_frame : cachedb.

Lemma contents_set_ino w fd data : contents (set_ino w fd data) fd = data.
Proof. unfold contents, set_ino. cbn. by rewrite lookup_insert_eq. Qed.

Lemma frame_set_ino w fd data : frame fd w (set_ino w fd data).
Proof. constructor; try done. intros i Hi. cbn. by rewrite lookup_insert_ne. Qed.

Lemma frame_contents fd i w w' : frame fd w w' -> i <> fd -> contents w' i = contents w i.
Proof. intros [] Hi. unfold contents. by rewrite frame_ino0. Qed.

(** *** A kernel that does its work *)

(** Every call succeeds, moves at least a byte where bytes are
    moved, and no loop of at most [n] rounds is cut short. *)
Definition reliable (E : env) (n : nat) : Prop :=
  forall t, (n < length (answers_at E t))%nat /\
    Forall (fun a => exists m, a = Done (S m)) (answers_at E t).

(** One such kernel, with a stopped clock. *)
Definition fair_env (n : nat) : env :=
  mkEnv (fun _ => 5) (fun _ => 0) (fun _ => replicate (S n) (Done 100)).

Lemma fair_env_reliable n : reliable (fair_env n) n.
Proof.
  intros t. cbn [fair_env answers_at]. rewrite length_replicate. split; [lia|].
  apply Forall_replicate. by exists 99%nat.
Qed.

Lemma write_loop_reliable script fd data w :
  Forall (fun a => exists m, a = Done (S m)) script -> (length data <= length script)%nat ->
  (write_loop script fd data w).1 = Ret true.
Proof.
  intros Hs. revert data w. induction Hs as [|a script [n ->] Hs IH]; intros [|c data] w Hl;
    cbn [write_loop]; try done; [simpl in Hl; lia|].
  apply IH. rewrite length_drop. simpl in *. lia.
Qed.

Lemma read_loop_returns script left want acc :
  Forall (fun a => exists m, a = Done (S m)) script -> (want < length script)%nat ->
  is_Some (read_loop script left want acc).
Proof.
  intros Hs. revert left want acc. induction Hs as [|a script [n ->] Hs IH];
    intros left [|want] acc Hw; cbn [read_loop]; try (by eexists); [simpl in Hw; lia|].
  destruct (Nat.min (S want) _) as [|m] eqn:Hm; [by eexists|]. simpl in Hw. apply IH. lia.
Qed.

Lemma read_all_reliable script left acc :
  Forall (fun a => exists m, a = Done (S m)) script -> (length left < length script)%nat ->
  read_all_loop script left acc = Some (Some (acc ++ left)).
Proof.
  intros Hs. revert left acc. induction Hs as [|a script [n ->] Hs IH]; intros left acc Hl;
    [simpl in Hl; lia|]. cbn [read_all_loop]. destruct left as [|c left]; [by rewrite app_nil_r|].
  destruct (Nat.min _ _) as [|m] eqn:Hm; [lia|].
  rewrite IH; [by rewrite <- app_assoc, take_drop|]. rewrite length_drop. cbn [length] in *. lia.
Qed.

Lemma reliable_mono E n k : (n <= k)%nat -> reliable E k -> reliable E n.
Proof. intros Hn H t. destruct (H t). split; [lia|done]. Qed.

Lemma answers_reliable E k w :
  reliable E k -> exists m rest, answers E w = Done (S m) :: rest.
Proof.
  intros Hrel. destruct (Hrel (tick w)) as [Hlen Hall]. unfold answers.
  destruct Hall as [|a l [m ->] _]; [simpl in Hlen; lia|]. by eexists _, _.
Qed.

Lemma not_reliable E k w :
  (forall m rest, answers E w <> Done (S m) :: rest) -> ~ reliable E k.
Proof. intros H Hrel. destruct (answers_reliable E k w Hrel) as (m & rest & Ha). by apply (H m rest). Qed.

Lemma reliable_no_fail E k t : reliable E k -> Fail ∉ answers_at E t.
Proof.
  intros Hrel Hin. destruct (Hrel t) as [_ Hall]. rewrite Forall_forall in Hall.
  by destruct (Hall _ Hin).
Qed.

Lemma fail_not_reliable E k w : Fail ∈ answers E w -> ~ reliable E k.
Proof. intros Hin Hrel. by apply (reliable_no_fail E k (tick w)). Qed.

(** *** The calls

    Each specification has a case for success and one for everything else, which
    a reliable kernel excludes. *)

Section call_specs.
Context (E : env).

Lemma wp_now_ms (Q : res Z -> world -> Prop) w :
  (forall w', same_files w w' -> tick w' = S (tick w) -> Q (Ret (clock_at E (tick w))) w') ->
  wp (now_ms E) Q w.
Proof. intros H. by apply H. Qed.

Lemma wp_steady_now (Q : res Z -> world -> Prop) w :
  (forall t w', same_files w w' -> tick w' = S (tick w) -> Q (Ret t) w') ->
  wp (steady_now E) Q w.
Proof. intros H. by apply H. Qed.

(** A prefix of the data is in the file, all of it exactly on success. *)
Lemma write_loop_spec script fd data w r w' :
  write_loop script fd data w = (r, w') ->
  exists n, (n <= length data)%nat /\
    contents w' fd = contents w fd ++ take n data /\
    frame fd w w' /\ ino_synced w' = ino_synced w /\
    (r = Ret true /\ n = length data \/ r = Ret false \/ r = Dead).
Proof.
  revert data w. induction script as [|a script IH]; intros data w;
    destruct data as [|c data]; cbn [write_loop].
  1, 3: intros [= <- <-]; exists 0%nat; rewrite app_nil_r; naive_solver lia.
  - intros [= <- <-]. exists 0%nat. rewrite take_0, app_nil_r. naive_solver lia.
  - destruct a as [m| |].
    + intros (n & Hn & Hc & Hf & Hs & Hr)%IH. rewrite length_drop in *.
      exists (Nat.min m (length (c :: data)) + n)%nat. split; [lia|]. split.
      { rewrite Hc, contents_set_ino, <- app_assoc. f_equal.
        destruct (decide (m <= length (c :: data))%nat).
        - rewrite Nat.min_l by done. rewrite <- (take_drop m (c :: data)) at 3.
          rewrite take_app_add'; [done|]. rewrite length_take. lia.
        - rewrite Nat.min_r, drop_ge, take_nil, app_nil_r, !take_ge by lia. done. }
      split; [etransitivity; [apply frame_set_ino|done]|]. split; [done|].
      destruct Hr as [[-> ->]|?]; [left; split; [done|lia]|by right].
    + by intros H%IH.
    + intros [= <- <-]. exists 0%nat. rewrite take_0, app_nil_r. naive_solver lia.
Qed.

Lemma wp_write_all fd data (Q : res bool -> world -> Prop) w :
  (forall n r w', (n <= length data)%nat ->
     contents w' fd = contents w fd ++ take n data -> frame fd w w' ->
     ino_synced w' = ino_synced w ->
     (r = Ret true /\ n = length data \/ r = Ret false \/ r = Dead) ->
     (r <> Ret true -> ~ reliable E (length data)) -> Q r w') ->
  wp (write_all E fd data) Q w.
Proof.
  intros H. unfold wp, write_all.
  destruct (write_loop (answers E w) fd data w) as [r w'] eqn:Hw.
  pose proof Hw as (n & Hn & Hc & Hf & Hs & Hr)%write_loop_spec. cbn [fst snd].
  apply (H n); auto; [etransitivity; [done|]; auto with cachedb|].
  intros Hne Hrel. apply Hne. destruct (Hrel (tick w)) as [Hlen Hall].
  pose proof (write_loop_reliable _ fd data w Hall ltac:(lia)) as Hret.
  unfold answers in Hw. by rewrite Hw in Hret.
Qed.

Lemma wp_fsync fd (Q : res bool -> world -> Prop) w :
  (forall w', contents w' fd = contents w fd -> frame fd w w' -> ino w' = ino w ->
     ino_synced w' !! fd = Some (contents w fd) -> Q (Ret true) w') ->
  (forall r w', same_files w w' -> r = Ret false \/ r = Dead -> ~ reliable E 0 -> Q r w') ->
  wp (fsync E fd) Q w.
Proof.
  intros Ht Hf. unfold wp, fsync.
  destruct (retry_eintr (answers E w)) as [[]|] eqn:Hr; cbn [fst snd].
  - apply Ht; try done.
    + constructor; try done. intros i Hi. cbn. by rewrite lookup_insert_ne.
    + cbn. by rewrite lookup_insert_eq.
  - apply Hf; auto with cachedb. apply (not_reliable E 0 w). intros m rest Ha. by rewrite Ha in Hr.
  - apply Hf; [reflexivity|auto|].
    apply (not_reliable E 0 w). intros m rest Ha. by rewrite Ha in Hr.
Qed.

(** The calls that are made once and succeed on a [Done]. *)
Ltac one_answer Hs Hf w :=
  unfold wp; cbv delta [one_call open_append open_trunc open_existing lseek_end file_size
    rename unlink list_dir] beta;
  destruct (answers E w) as [|[] ?] eqn:Ha; cbn [fst snd];
  [apply Hf; [reflexivity|auto|apply (not_reliable E 0 w); by rewrite Ha]
  |apply Hs
  |apply Hf; [auto with cachedb|auto|apply (not_reliable E 0 w); by rewrite Ha]
  |apply Hf; [auto with cachedb|auto|apply (not_reliable E 0 w); by rewrite Ha]].

Lemma wp_one_call effect (Q : res bool -> world -> Prop) w :
  (forall w', same_files (effect w) w' -> Q (Ret true) w') ->
  (forall r w', same_files w w' -> r = Ret false \/ r = Dead -> ~ reliable E 0 -> Q r w') ->
  wp (one_call E effect) Q w.
Proof. intros Ht Hf. one_answer Ht Hf w. apply same_files_tick. Qed.

Lemma wp_ftruncate fd n (Q : res bool -> world -> Prop) w :
  (forall w', contents w' fd = take (Z.to_nat n) (contents w fd) -> frame fd w w' ->
     ino_synced w' = ino_synced w -> Q (Ret true) w') ->
  (forall r w', same_files w w' -> r = Ret false \/ r = Dead -> ~ reliable E 0 -> Q r w') ->
  wp (ftruncate E fd n) Q w.
Proof.
  intros Ht Hf. apply wp_one_call; [|done]. intros w' Hw. apply Ht.
  - by rewrite <- Hw, contents_set_ino.
  - etransitivity; [apply frame_set_ino|by apply same_files_frame].
  - by rewrite <- Hw.
Qed.

Lemma wp_lseek_end fd (Q : res (option Z) -> world -> Prop) w :
  (forall w', same_files w w' -> Q (Ret (Some (zlen (contents w fd)))) w') ->
  (forall r w', same_files w w' -> r = Ret None \/ r = Dead -> ~ reliable E 0 -> Q r w') ->
  wp (lseek_end E fd) Q w.
Proof. intros Ht Hf. one_answer Ht Hf w. apply same_files_tick. Qed.

Lemma wp_open_existing path (Q : res (bool + nat) -> world -> Prop) w :
  (forall w', same_files w w' ->
     Q (Ret (match dir w !! path with Some i => inr i | None => inl true end)) w') ->
  (forall r w', same_files w w' -> r = Ret (inl false) \/ r = Dead -> ~ reliable E 0 -> Q r w') ->
  wp (open_existing E path) Q w.
Proof.
  intros Ht Hf. unfold wp, open_existing. destruct (answers E w) as [|[] ?] eqn:Ha; cbn [fst snd].
  - apply Hf; [reflexivity|auto|apply (not_reliable E 0 w); by rewrite Ha].
  - specialize (Ht (next_tick w) (same_files_tick w)). by destruct (dir w !! path).
  - apply Hf; [auto with cachedb|auto|apply (not_reliable E 0 w); by rewrite Ha].
  - apply Hf; [auto with cachedb|auto|apply (not_reliable E 0 w); by rewrite Ha].
Qed.

(** Only names differ between the two worlds. *)
Definition same_inodes (w w' : world) : Prop :=
  ino w' = ino w /\ ino_synced w' = ino_synced w /\ next_ino w' = next_ino w.

#[export] Instance same_inodes_equiv : Equivalence same_inodes.
Proof. unfold same_inodes. split; intros ?; naive_solver congruence. Qed.

Lemma same_files_inodes w w' : same_files w w' -> same_inodes w w'.
Proof. by intros (? & ? & ? & ? & ?). Qed.

Lemma same_inodes_contents w w' fd : same_inodes w w' -> contents w' fd = contents w fd.
Proof. intros (H & _). unfold contents. by rewrite H. Qed.

Lemma wp_rename from to (Q : res bool -> world -> Prop) w :
  (forall i w', dir w !! from = Some i -> dir w' = <[to := i]> (delete from (dir w)) ->
     dir_synced w' = dir_synced w -> same_inodes w w' -> Q (Ret true) w') ->
  (forall w', same_files w w' -> dir w !! from = None -> Q (Ret false) w') ->
  (forall r w', same_files w w' -> r = Ret false \/ r = Dead -> ~ reliable E 0 -> Q r w') ->
  wp (rename E from to) Q w.
Proof.
  intros Hs Hn Hf. unfold wp, rename. destruct (answers E w) as [|[] ?] eqn:Ha; cbn [fst snd].
  - apply Hf; [reflexivity|auto|apply (not_reliable E 0 w); by rewrite Ha].
  - destruct (dir w !! from) as [i|] eqn:Hd; cbn [fst snd].
    + by apply (Hs i).
    + apply Hn; auto with cachedb.
  - apply Hf; [auto with cachedb|auto|apply (not_reliable E 0 w); by rewrite Ha].
  - apply Hf; [auto with cachedb|auto|apply (not_reliable E 0 w); by rewrite Ha].
Qed.

(** An [unlink] removes the name or leaves everything as it is. *)
Lemma wp_unlink path (Q : res (option bool) -> world -> Prop) w :
  (forall w', dir w' = delete path (dir w) -> dir_synced w' = dir_synced w -> same_inodes w w' ->
     forall b, b = bool_decide (is_Some (dir w !! path)) -> Q (Ret (Some b)) w') ->
  (forall r w', same_files w w' -> r = Ret None \/ r = Dead -> ~ reliable E 0 -> Q r w') ->
  wp (unlink E path) Q w.
Proof.
  intros Hs Hf. unfold wp, unlink. destruct (answers E w) as [|[] ?] eqn:Ha; cbn [fst snd].
  - apply Hf; [reflexivity|auto|apply (not_reliable E 0 w); by rewrite Ha].
  - destruct (dir w !! path) as [i|] eqn:Hd; cbn [fst snd]; apply Hs; try done.
    cbn. by rewrite delete_id.
  - apply Hf; [auto with cachedb|auto|apply (not_reliable E 0 w); by rewrite Ha].
  - apply Hf; [auto with cachedb|auto|apply (not_reliable E 0 w); by rewrite Ha].
Qed.

Lemma wp_list_dir d (Q : res (option (list bytes)) -> world -> Prop) w :
  (forall w', same_files w w' -> Q (Ret (Some (omap (name_in d) (map_to_list (dir w)).*1))) w') ->
  (forall r w', same_files w w' -> r = Ret None \/ r = Dead -> ~ reliable E 0 -> Q r w') ->
  wp (list_dir E d) Q w.
Proof. intros Hs Hf. one_answer Hs Hf w. apply same_files_tick. Qed.

Lemma wp_fsync_dir (Q : res bool -> world -> Prop) w :
  (forall w', dir w' = dir w -> dir_synced w' = dir w -> same_inodes w w' -> Q (Ret true) w') ->
  (forall r w', same_files w w' -> r = Ret false \/ r = Dead -> ~ reliable E 0 -> Q r w') ->
  wp (fsync_dir E) Q w.
Proof.
  intros Hs Hf. unfold fsync_dir. apply wp_bind, wp_one_call.
  2: { intros r w' Hw [->| ->] Hrel; [apply wp_ret|]; apply Hf; auto. }
  intros w1 Hw1. unfold wp, fsync_names.
  assert (dir w1 = dir w /\ same_inodes w w1) as [Hd Hi].
  { split; [by destruct Hw1|by apply same_files_inodes]. }
  destruct (retry_eintr (answers E w1)) as [[]|] eqn:Hr; cbn [fst snd].
  - apply Hs; cbn; auto.
  - apply Hf; [etransitivity; [done|auto with cachedb]|auto|].
    apply (not_reliable E 0 w1). intros m rest Ha. by rewrite Ha in Hr.
  - apply Hf; [done|auto|]. apply (not_reliable E 0 w1). intros m rest Ha. by rewrite Ha in Hr.
Qed.

(** What [stat] has to say of a path. *)
Definition size_at (w : world) (path : bytes) : Z :=
  match dir w !! path with Some i => zlen (contents w i) | None => 0 end.

Lemma wp_file_size path (Q : res Z -> world -> Prop) w :
  (forall w', same_files w w' -> Q (Ret (size_at w path)) w') ->
  (forall r w', same_files w w' -> r = Ret 0 \/ r = Dead -> ~ reliable E 0 -> Q r w') ->
  wp (file_size E path) Q w.
Proof.
  unfold size_at. intros Hs Hf. unfold wp, file_size.
  destruct (answers E w) as [|[] ?] eqn:Ha; cbn [fst snd].
  - apply Hf; [reflexivity|auto|apply (not_reliable E 0 w); by rewrite Ha].
  - specialize (Hs (next_tick w) (same_files_tick w)). by destruct (dir w !! path).
  - apply Hf; [auto with cachedb|auto|apply (not_reliable E 0 w); by rewrite Ha].
  - apply Hf; [auto with cachedb|auto|apply (not_reliable E 0 w); by rewrite Ha].
Qed.

(** [w'] is [w] with [path] leading to the inode [i], the one it led to or a new
    one, and the contents of [i] changed. *)
Record creates (path : bytes) (i : nat) (w w' : world) : Prop := mkCreates {
  cr_dir : dir w' = <[path := i]> (dir w);
  cr_dir_synced : dir_synced w' = dir_synced w;
  cr_ino j : j <> i -> ino w' !! j = ino w !! j;
  cr_ino_synced j : j <> i -> ino_synced w' !! j = ino_synced w !! j;
  cr_inode : dir w !! path = Some i /\ next_ino w' = next_ino w \/
             dir w !! path = None /\ i = next_ino w /\ next_ino w' = S (next_ino w)
}.

Lemma creates_frame path i w w1 w2 : creates path i w w1 -> frame i w1 w2 -> creates path i w w2.
Proof.
  intros [D S I J C] [D' S' N' I' J']. constructor; try congruence.
  - intros j Hj. by rewrite I', I.
  - intros j Hj. by rewrite J', J.
Qed.

Lemma same_creates path i w w1 w2 : same_files w w1 -> creates path i w1 w2 -> creates path i w w2.
Proof.
  intros (D & S & I & J & N) [D' S' I' J' C]. constructor; try congruence.
  - intros j Hj. by rewrite I', I.
  - intros j Hj. by rewrite J', J.
Qed.

Lemma wp_open_trunc path (Q : res (option nat) -> world -> Prop) w :
  (forall i w', creates path i w w' -> contents w' i = [] -> Q (Ret (Some i)) w') ->
  (forall r w', same_files w w' -> r = Ret None \/ r = Dead -> ~ reliable E 0 -> Q r w') ->
  wp (open_trunc E path) Q w.
Proof.
  intros Hs Hf. unfold wp, open_trunc, create_entry.
  destruct (answers E w) as [|[] ?] eqn:Ha; cbn [fst snd].
  - apply Hf; [reflexivity|auto|apply (not_reliable E 0 w); by rewrite Ha].
  - destruct (dir w !! path) as [i|] eqn:Hd; cbn [fst snd]; apply Hs; try apply contents_set_ino.
    + constructor; cbn; auto; [by rewrite insert_id|]. intros j Hj. by rewrite lookup_insert_ne.
    + constructor; cbn; auto. intros j Hj. by rewrite !lookup_insert_ne by done.
  - apply Hf; [auto with cachedb|auto|apply (not_reliable E 0 w); by rewrite Ha].
  - apply Hf; [auto with cachedb|auto|apply (not_reliable E 0 w); by rewrite Ha].
Qed.

(** *** Reading *)

Lemma read_loop_spec script left want acc r :
  read_loop script left want acc = Some r ->
  r = None /\ (Fail ∈ script \/ (length left < want)%nat) \/
  (want <= length left)%nat /\ r = Some (acc ++ take want left).
Proof.
  revert left want acc. induction script as [|a script IH]; intros left want acc;
    destruct want as [|want]; cbn [read_loop].
  1, 3: intros [= <-]; right; split; [lia|]; by rewrite take_0, app_nil_r.
  - done.
  - destruct a as [n| |].
    + destruct (Nat.min (S want) _) as [|m] eqn:Hm.
      { intros [= <-]. left. split; [done|]. right. lia. }
      intros [[-> [?|Hl]]|[Hl ->]]%IH; [left; split; [done|left; by right]|left|right].
      { rewrite length_drop in Hl. split; [done|right; lia]. }
      rewrite length_drop in Hl.
      split; [lia|]. f_equal. rewrite <- app_assoc. f_equal.
      rewrite <- (take_drop (S m) left) at 3. rewrite take_app.
      rewrite length_take. rewrite (take_take left), (Nat.min_r (S want)), Nat.min_l by lia. done.
    + intros [[-> [?|Hl]]|[Hl ->]]%IH; auto.
      left. split; [done|]. left. by right.
    + intros [= <-]. left. split; [done|]. left. by left.
Qed.

(** The bytes of a file from [offset], all [n] of them, unless the kernel reports
    an error or the file ends first. *)
Lemma wp_read_exact fd offset n (Q : res (option bytes) -> world -> Prop) w :
  0 <= offset ->
  (forall w', same_files w w' -> offset + n <= zlen (contents w fd) \/ n <= 0 ->
     Q (Ret (Some (substr (contents w fd) offset n))) w') ->
  (forall w', same_files w w' ->
     Fail ∈ answers E w \/ zlen (contents w fd) < offset + n -> Q (Ret None) w') ->
  (forall w', same_files w w' -> ~ reliable E (Z.to_nat n) -> Q Dead w') ->
  wp (read_exact E fd offset n) Q w.
Proof.
  intros Ho Hs Hf Hd. unfold wp, read_exact.
  destruct (read_loop _ _ _ _) as [r|] eqn:Hr; cbn [fst snd].
  - apply read_loop_spec in Hr as [[-> Hr]|[Hl ->]].
    + apply Hf; [auto with cachedb|]. rewrite length_drop in Hr. unfold zlen.
      destruct Hr; [by left|right; lia].
    + apply Hs; [auto with cachedb|]. rewrite length_drop in Hl. unfold zlen. lia.
  - apply Hd; [done|]. intros Hrel. destruct (Hrel (tick w)) as [Hlen Hall].
    apply (read_loop_returns _ (drop (Z.to_nat offset) (contents w fd)) (Z.to_nat n) []) in Hall;
      [|lia]. unfold answers in Hr. rewrite Hr in Hall. by destruct Hall.
Qed.

(** A read inside a file whose bytes are known. *)
Lemma wp_read_known w fd offset n x (Q : res (option bytes) -> world -> Prop) w1 :
  same_files w w1 -> 0 <= offset -> offset + n <= zlen (contents w fd) ->
  substr (contents w fd) offset n = x ->
  (forall w2, same_files w w2 -> Q (Ret (Some x)) w2) ->
  (forall r w2, same_files w w2 -> r = Ret None \/ r = Dead ->
     ~ reliable E (length (contents w fd)) -> Q r w2) ->
  wp (read_exact E fd offset n) Q w1.
Proof.
  intros Hw Ho Hn Hx Hs Hf. apply wp_read_exact; [done| | |].
  - intros w2 Hw2 _. rewrite <- Hw, Hx. apply Hs. by etransitivity.
  - intros w2 Hw2 [Hio|Hl]; [|rewrite <- Hw in Hl; lia].
    apply Hf; [by etransitivity|auto|by eapply fail_not_reliable].
  - intros w2 Hw2 Hrel. apply Hf; [by etransitivity|auto|]. contradict Hrel.
    eapply reliable_mono; [|done]. unfold zlen in Hn. lia.
Qed.

End call_specs.
