(* ===== verification/Wal.v ===== *)
(** * The write-ahead log

    [class Wal] of [wal.h] and [wal.cpp] (open, [append], [append_batch], [sync],
    [truncate], [maybe_sync]) and [replay], over the kernel of [Posix].  The log is
    specified as a list of records; the theorems say what a replay of the file
    yields after any history of operations, whatever the kernel did and wherever
    the process died, and what of it a power cut can take away. *)

From stdpp Require Import gmap.
From S2P Require Import Prelude Endian WalCodec Posix.

(** ** The object *)

Inductive SyncPolicy := kAlways | kEverySec | kNo.

#[export] Instance SyncPolicy_eq_dec : EqDecision SyncPolicy.
Proof. solve_decision. Defined.

Record Wal := mkWal {
  fd_ : nat;
  policy_ : SyncPolicy;
  buf_ : bytes;
  last_sync_ : Z;
  sync_interval_ : Z;
  size_ : Z;
  bytes_since_sync_ : Z;
  syncs_ : Z;
  group_commit_ : bool
}.

Record Mutation := mkMutation {
  m_op : Op;
  m_key : bytes;
  m_value : bytes;
  m_expires_at_ms : Z
}.

Definition set_group_commit (wal : Wal) (on : bool) : Wal :=
  mkWal (fd_ wal) (policy_ wal) (buf_ wal) (last_sync_ wal) (sync_interval_ wal)
    (size_ wal) (bytes_since_sync_ wal) (syncs_ wal) on.

Definition needs_sync (wal : Wal) : bool := 0 <? bytes_since_sync_ wal.

(** [buf_] after [clear] and the encodings. *)
Definition set_buf (wal : Wal) (buf : bytes) : Wal :=
  mkWal (fd_ wal) (policy_ wal) buf (last_sync_ wal) (sync_interval_ wal)
    (size_ wal) (bytes_since_sync_ wal) (syncs_ wal) (group_commit_ wal).

(** [size_ += buf_.size(); bytes_since_sync_ += buf_.size();] *)
Definition note_written (wal : Wal) : Wal :=
  mkWal (fd_ wal) (policy_ wal) (buf_ wal) (last_sync_ wal) (sync_interval_ wal)
    (u64 (size_ wal + zlen (buf_ wal))) (u64 (bytes_since_sync_ wal + zlen (buf_ wal)))
    (syncs_ wal) (group_commit_ wal).

Section operations.
Context (E : env).

(** The constructor: opens for append, and takes the length from the file. *)
Definition Wal_open (path : bytes) (policy : SyncPolicy) (sync_interval : Z) : M Wal :=
  last_sync ← steady_now E;
  fd ← open_append E path;
  match fd with
  | None => throw (lit "open")
  | Some fd =>
      size ← lseek_end E fd;
      match size with
      | None => throw (lit "lseek")
      | Some size => mret (mkWal fd policy [] last_sync sync_interval (u64 size) 0 0 false)
      end
  end.

Definition sync (wal : Wal) : M (bool * Wal) :=
  ok ← fsync E (fd_ wal);
  if ok : bool then
    now ← steady_now E;
    mret (true, mkWal (fd_ wal) (policy_ wal) (buf_ wal) now (sync_interval_ wal)
                  (size_ wal) 0 (u64 (syncs_ wal + 1)) (group_commit_ wal))
  else mret (false, wal).

(** The second half of [append] and [append_batch]: [buf_] goes to the file. *)
Definition commit_buf (wal : Wal) : M (bool * Wal) :=
  ok ← write_all E (fd_ wal) (buf_ wal);
  if ok : bool then
    let wal := note_written wal in
    if bool_decide (policy_ wal = kAlways) && negb (group_commit_ wal) then sync wal
    else mret (true, wal)
  else mret (false, wal).

Definition append (wal : Wal) (op : Op) (key value : bytes) (expires_at_ms : Z)
  : M (bool * Wal) :=
  now ← now_ms E;
  commit_buf (set_buf wal (encode_record [] op now key value expires_at_ms)).

Definition append_batch (wal : Wal) (mutations : list Mutation) : M (bool * Wal) :=
  if decide (mutations = []) then mret (true, wal)
  else
    now ← now_ms E;
    commit_buf (set_buf wal
      (fold_left (fun buf m =>
         encode_record buf (m_op m) now (m_key m) (m_value m) (m_expires_at_ms m))
       mutations [])).

Definition truncate (wal : Wal) : M (bool * Wal) :=
  ok ← ftruncate E (fd_ wal) 0;
  if ok : bool then
    sync (mkWal (fd_ wal) (policy_ wal) (buf_ wal) (last_sync_ wal) (sync_interval_ wal)
            0 0 (syncs_ wal) (group_commit_ wal))
  else mret (false, wal).

Definition maybe_sync (wal : Wal) : M (bool * Wal) :=
  if negb (bool_decide (policy_ wal = kEverySec)) then mret (true, wal)
  else if bytes_since_sync_ wal =? 0 then mret (true, wal)
  else
    now ← steady_now E;
    if now - last_sync_ wal <? sync_interval_ wal then mret (true, wal) else sync wal.

(** [replay(path, apply)]: the callback folded over the records, the result, and
    the cut.  [replay_scan] is total, so the [None] branch is never taken. *)
Definition replay {S} (path : bytes) (apply : S -> Record_ -> S) (s : S)
  : M (S * ReplayResult) :=
  fd ← open_existing E path;
  match fd with
  | inl true => mret (s, mkReplayResult 0 0 false)
  | inl false => throw (lit "open")
  | inr fd =>
      data ← read_all E fd;
      match data with
      | None => throw (lit "read")
      | Some data =>
          match replay_scan data with
          | None => throw (lit "unreachable")
          | Some (rs, result) =>
              if truncated result then
                ok ← ftruncate E fd (good_bytes result);
                if ok : bool then mret (fold_left apply rs s, result)
                else throw (lit "ftruncate")
              else mret (fold_left apply rs s, result)
          end
      end
  end.

End operations.

(** ** Histories

    The calls a client makes, and the log each of them is meant to leave. *)

Inductive WalCall :=
  | CAppend (op : Op) (key value : bytes) (expires_at_ms : Z)
  | CBatch (mutations : list Mutation)
  | CSync
  | CMaybeSync
  | CTruncate.

Definition call (E : env) (c : WalCall) (wal : Wal) : M (bool * Wal) :=
  match c with
  | CAppend op key value e => append E wal op key value e
  | CBatch ms => append_batch E wal ms
  | CSync => sync E wal
  | CMaybeSync => maybe_sync E wal
  | CTruncate => truncate E wal
  end.

Definition mutation_record (now : Z) (m : Mutation) : Record_ :=
  mkRecord (m_op m) now (m_expires_at_ms m) (m_key m) (m_value m).

(** The records a call adds when the clock says [now]. *)
Definition call_records (now : Z) (c : WalCall) : list Record_ :=
  match c with
  | CAppend op key value e => [mkRecord op now e key value]
  | CBatch ms => mutation_record now <$> ms
  | _ => []
  end.

(** The specification: the log a successful call leaves. *)
Definition log_after (now : Z) (c : WalCall) (log : list Record_) : list Record_ :=
  match c with CTruncate => [] | _ => log ++ call_records now c end.

(** The logs a call that failed, or never returned, may leave. *)
Definition log_torn (now : Z) (c : WalCall) (log log' : list Record_) : Prop :=
  match c with
  | CTruncate => log' = log \/ log' = []
  | _ => exists k, log' = log ++ take k (call_records now c)
  end.

Definition call_ok (c : WalCall) : Prop :=
  forall now, is_i64 now -> Forall record_ok (call_records now c).

Definition clock_ok (E : env) : Prop := forall t, is_i64 (clock_at E t).

(** One acknowledged call. *)
Inductive acked (E : env) : (list Record_ * Wal * world) -> (list Record_ * Wal * world) -> Prop :=
  | acked_call log wal w c wal' w' :
      call_ok c -> call E c wal w = (Ret (true, wal'), w') ->
      acked E (log, wal, w) (log_after (clock_at E (tick w)) c log, wal', w').

(** ** The operations, whatever the kernel answers *)

Definition enc (log : list Record_) : bytes := concat (encode_rec <$> log).

Lemma enc_app a b : enc (a ++ b) = enc a ++ enc b.
Proof. unfold enc. by rewrite fmap_app, concat_app. Qed.

(** The identity of the object: what no operation changes. *)
Definition same_wal (wal wal' : Wal) : Prop :=
  fd_ wal' = fd_ wal /\ policy_ wal' = policy_ wal /\ group_commit_ wal' = group_commit_ wal /\
  sync_interval_ wal' = sync_interval_ wal.

#[export] Instance same_wal_equiv : Equivalence same_wal.
Proof. unfold same_wal. split; intros ?; naive_solver congruence. Qed.

Section specs.
Context (E : env).

Lemma wp_sync wal (Q : res (bool * Wal) -> world -> Prop) w :
  (forall wal' w', same_wal wal wal' -> size_ wal' = size_ wal -> bytes_since_sync_ wal' = 0 ->
     contents w' (fd_ wal) = contents w (fd_ wal) -> frame (fd_ wal) w w' ->
     durable w' (fd_ wal) -> Q (Ret (true, wal')) w') ->
  (forall r w', same_files w w' -> r = Ret (false, wal) \/ r = Dead -> ~ reliable E 0 -> Q r w') ->
  wp (sync E wal) Q w.
Proof.
  intros Ht Hf. unfold sync. apply wp_bind, wp_fsync.
  - intros w1 Hc Hfr _ Hs. apply wp_bind, wp_steady_now. intros t w2 Hw2 _.
    apply wp_ret, Ht; try done.
    + by rewrite <- Hw2.
    + etransitivity; [done|auto with cachedb].
    + rewrite <- Hw2. unfold durable. by rewrite Hs, Hc.
  - intros r w' Hw [->| ->] Hrel; [apply wp_ret|]; apply Hf; auto.
Qed.

(** What is in the file after [commit_buf], and what the object remembers. *)
Definition commit_post (wal : Wal) (w : world) (r : res (bool * Wal)) (w' : world) : Prop :=
  exists n, (n <= length (buf_ wal))%nat /\ frame (fd_ wal) w w' /\
    contents w' (fd_ wal) = contents w (fd_ wal) ++ take n (buf_ wal) /\
    match r with
    | Ret (true, wal') =>
        n = length (buf_ wal) /\ same_wal wal wal' /\
        size_ wal' = u64 (size_ wal + zlen (buf_ wal)) /\
        (bytes_since_sync_ wal' = 0 /\ durable w' (fd_ wal) \/
         bytes_since_sync_ wal' = u64 (bytes_since_sync_ wal + zlen (buf_ wal)) /\
         ino_synced w' = ino_synced w /\ ~ (policy_ wal = kAlways /\ group_commit_ wal = false))
    | Ret (false, wal') => same_wal wal wal' /\ ~ reliable E (length (buf_ wal))
    | Throw _ => False
    | Dead => ~ reliable E (length (buf_ wal))
    end.

Lemma wp_commit_buf wal w : wp (commit_buf E wal) (commit_post wal w) w.
Proof.
  unfold commit_buf. apply wp_bind, wp_write_all.
  intros n r w1 Hn Hc Hfr Hs [[-> ->]|[->| ->]] Hrel.
  2: apply wp_ret.
  2, 3: exists n; split_and!; (done || by apply Hrel).
  rewrite take_ge in Hc by done.
  case_bool_decide as Hp; [destruct (group_commit_ _) eqn:Hg|]; cbn [andb negb].
  - apply wp_ret. exists (length (buf_ wal)). rewrite take_ge by done. split_and!; try done.
    right. split_and!; try done. cbn in Hg. intros [_ ?]. congruence.
  - apply wp_sync.
    + intros wal' w2 Hw Hsz Hb Hc2 Hfr2 Hd. exists (length (buf_ wal)). rewrite take_ge by done.
      split_and!; [done| |by rewrite <- Hc|done|done|done|by left].
      etransitivity; done.
    + intros r w2 Hw2 Hr Hrel0. exists (length (buf_ wal)). rewrite take_ge by done.
      assert (~ reliable E (length (buf_ wal))).
      { intros Hk. apply Hrel0. by apply (reliable_mono _ 0 (length (buf_ wal))); [lia|]. }
      split_and!; [done| |by rewrite <- Hw2|by destruct Hr as [->| ->]].
      etransitivity; [done|auto with cachedb].
  - apply wp_ret. exists (length (buf_ wal)). rewrite take_ge by done. split_and!; try done.
    right. split_and!; try done. by intros [? _].
Qed.

End specs.

(** [truncate]: the file is empty and synced, or the kernel is to blame. *)
Lemma wp_truncate E wal (Q : res (bool * Wal) -> world -> Prop) w :
  (forall wal' w', same_wal wal wal' -> frame (fd_ wal) w w' -> contents w' (fd_ wal) = [] ->
     durable w' (fd_ wal) -> Q (Ret (true, wal')) w') ->
  (forall r w', frame (fd_ wal) w w' ->
     contents w' (fd_ wal) = contents w (fd_ wal) \/ contents w' (fd_ wal) = [] ->
     (exists wal', same_wal wal wal' /\ r = Ret (false, wal')) \/ r = Dead ->
     ~ reliable E 0 -> Q r w') ->
  wp (truncate E wal) Q w.
Proof.
  intros Ht Hf. unfold truncate. apply wp_bind, wp_ftruncate.
  - intros w1 Hc1 Hfr1 _. change (take _ _) with (@nil byte) in Hc1. apply wp_sync.
    + intros wal' w' Hsame _ _ Hc Hfr Hd. cbn in Hc; apply Ht; [done|by etransitivity|congruence|done].
    + intros r w' Hw Hr Hrel. apply Hf; [|right; by rewrite <- Hw| |done].
      * etransitivity; [done|by apply same_files_frame].
      * destruct Hr as [->| ->]; [left|by right]. eexists. by split; [|reflexivity].
  - intros r w' Hw Hr Hrel. assert (contents w' (fd_ wal) = contents w (fd_ wal)) by (by rewrite <- Hw).
    destruct Hr as [->| ->]; [apply wp_ret|]; (apply Hf; [by apply same_files_frame|by left| |done]).
    + left. by exists wal.
    + by right.
Qed.

(** A write cut short leaves whole records and perhaps a torn one. *)
Lemma take_enc n rs :
  Forall record_ok rs ->
  exists k tail, take n (enc rs) = enc (take k rs) ++ tail /\ (tail = [] \/ torn tail).
Proof.
  intros Hrs. revert n. induction Hrs as [|r rs Hr _ IH]; intros n.
  - exists 0%nat, []. split; [change (enc []) with (@nil byte); by rewrite take_nil|by left].
  - change (enc (r :: rs)) with (encode_rec r ++ enc rs).
    destruct (decide (n < length (encode_rec r))%nat) as [Hn|Hn].
    + exists 0%nat, (take n (encode_rec r)). split; [by rewrite take_app_le by lia|].
      right. by exists r, n.
    + destruct (IH (n - length (encode_rec r))%nat) as (k & tail & Hk & Ht).
      exists (S k), tail. split; [|done]. rewrite take_app_ge by lia. rewrite Hk.
      change (enc (take (S k) (r :: rs))) with (encode_rec r ++ enc (take k rs)).
      by rewrite app_assoc.
Qed.

Lemma replay_enc rs tail :
  Forall record_ok rs -> tail = [] \/ torn tail ->
  exists result, replay_scan (enc rs ++ tail) = Some (rs, result).
Proof.
  intros Hrs Ht. unfold replay_scan, enc. rewrite replay_loop_records; try done.
  - by eexists.
  - rewrite length_app. pose proof (length_encode_recs rs). lia.
Qed.

Lemma encode_batch now ms out :
  fold_left (fun buf m =>
    encode_record buf (m_op m) now (m_key m) (m_value m) (m_expires_at_ms m)) ms out =
  out ++ enc (mutation_record now <$> ms).
Proof.
  revert out. induction ms as [|m ms IH]; intros out; simpl; [by rewrite app_nil_r|].
  rewrite IH, encode_record_app, <- app_assoc. done.
Qed.

(** Both [append] and a batch that is not empty write the encoding of the call's
    records. *)
Lemma wp_call_write E c wal w :
  match c with CAppend _ _ _ _ | CBatch _ => True | _ => False end ->
  call_records 0 c <> [] ->
  wp (call E c wal)
    (commit_post E (set_buf wal (enc (call_records (clock_at E (tick w)) c))) w) w.
Proof.
  assert (forall now w1, same_files w w1 ->
    wp (commit_buf E (set_buf wal (enc (call_records now c))))
       (commit_post E (set_buf wal (enc (call_records now c))) w) w1) as Hgo.
  { intros now w1 Hw1. eapply wp_mono; [apply wp_commit_buf|].
    intros r w2 (n & Hn & Hfr & Hc & Hr). exists n. split; [done|].
    split; [etransitivity; [by apply same_files_frame|done]|].
    rewrite Hw1. split; [done|]. destruct r as [[[] wal']| |]; auto.
    by rewrite Hw1. }
  destruct c as [op k v e|ms| | |]; intros Hc Hne; try done; cbn [call].
  - unfold append. apply wp_bind, wp_now_ms. intros w1 Hw1 _. rewrite encode_record_app.
    rewrite <- (app_nil_r (encode_rec _)). by apply Hgo.
  - unfold append_batch. destruct (decide (ms = [])) as [->|]; [done|].
    apply wp_bind, wp_now_ms. intros w1 Hw1 _. rewrite encode_batch. by apply Hgo.
Qed.

(** ** The refinement: the file is the specification's log *)

(** The file holds exactly the encodings of [log]. *)
Definition log_is (log : list Record_) (wal : Wal) (w : world) : Prop :=
  Forall record_ok log /\ contents w (fd_ wal) = enc log.

(** [log'] and perhaps a torn record after it. *)
Definition log_then_torn (log' : list Record_) (fd : nat) (w : world) : Prop :=
  Forall record_ok log' /\
  exists tail, contents w fd = enc log' ++ tail /\ (tail = [] \/ torn tail).

(** What one call leaves. *)
Definition call_post (E : env) (c : WalCall) (log : list Record_) (wal : Wal) (w : world)
    (r : res (bool * Wal)) (w' : world) : Prop :=
  frame (fd_ wal) w w' /\
  match r with
  | Ret (true, wal') => same_wal wal wal' /\ log_is (log_after (clock_at E (tick w)) c log) wal' w'
  | Throw _ => False
  | _ => exists log', log_torn (clock_at E (tick w)) c log log' /\ log_then_torn log' (fd_ wal) w'
  end.

Lemma call_records_nonempty c now now' : call_records now c = [] -> call_records now' c = [].
Proof. destruct c as [|[]| | |]; done. Qed.

Lemma log_is_torn log wal w : log_is log wal w -> log_then_torn log (fd_ wal) w.
Proof. intros [Hok Hc]. split; [done|]. exists []. rewrite app_nil_r. auto. Qed.

(** A call that failed before it changed the file. *)
Lemma log_torn_same now c log : log_torn now c log log.
Proof. destruct c; simpl; try (exists 0%nat; by rewrite app_nil_r); by left. Qed.

Lemma log_is_write E c log wal w :
  match c with CAppend _ _ _ _ | CBatch _ => True | _ => False end ->
  call_records 0 c <> [] -> clock_ok E -> call_ok c -> log_is log wal w ->
  wp (call E c wal) (call_post E c log wal w) w.
Proof.
  intros Hc Hne Hclk Hok [Hlog Hfile]. set (now := clock_at E (tick w)).
  pose proof (Hok now (Hclk _)) as Hrs.
  eapply wp_mono; [by apply wp_call_write|]. fold now.
  intros r w' (n & Hn & Hfr & Hcont & Hr). cbn [set_buf buf_ fd_] in *.
  split; [done|]. rewrite Hfile in Hcont.
  assert (log_after now c log = log ++ call_records now c) as Hla by (by destruct c).
  assert (exists log', log_torn now c log log' /\ log_then_torn log' (fd_ wal) w') as Htorn.
  { destruct (take_enc n (call_records now c) Hrs) as (k & tail & Hk & Ht).
    exists (log ++ take k (call_records now c)). split; [destruct c; try done; by exists k|].
    split; [apply Forall_app; split; [done|by apply Forall_take]|].
    exists tail. rewrite Hcont, Hk, enc_app, app_assoc. auto. }
  destruct r as [[[] wal']|e|]; try done. destruct Hr as (-> & Hsame & _).
  split; [exact Hsame|]. fold now. rewrite Hla. split; [by apply Forall_app|].
  destruct Hsame as (-> & _). cbn. by rewrite Hcont, take_ge, enc_app by done.
Qed.

Lemma log_is_sync E log wal w :
  log_is log wal w -> wp (sync E wal) (call_post E CSync log wal w) w.
Proof.
  intros Hlog. apply wp_sync.
  - intros wal' w' Hsame _ _ Hc Hfr _. split; [done|]. split; [done|].
    cbn. rewrite app_nil_r. destruct Hsame as (Hfd & _), Hlog. split; [done|]. rewrite Hfd. congruence.
  - intros r w' Hw Hr _. split; [auto with cachedb|].
    assert (log_then_torn log (fd_ wal) w').
    { apply log_is_torn. destruct Hlog. split; [done|]. by rewrite <- Hw. }
    destruct Hr as [->| ->]; exists log; split; auto using log_torn_same.
Qed.

Lemma log_is_maybe_sync E log wal w :
  log_is log wal w -> wp (maybe_sync E wal) (call_post E CMaybeSync log wal w) w.
Proof.
  intros Hlog. unfold maybe_sync.
  assert (forall w', same_files w w' -> wp (mret (true, wal)) (call_post E CMaybeSync log wal w) w')
    as Hsame.
  { intros w' Hw. apply wp_ret. split; [auto with cachedb|]. split; [done|].
    cbn. rewrite app_nil_r. destruct Hlog. split; [done|]. by rewrite <- Hw. }
  case_match; [by apply Hsame|]. case_match; [by apply Hsame|].
  apply wp_bind, wp_steady_now. intros t w1 Hw1 _. case_match; [by apply Hsame|].
  eapply wp_mono; [apply log_is_sync|].
  - destruct Hlog. split; [done|]. by rewrite <- Hw1.
  - intros r w' [Hfr Hr]. split; [|done].
    etransitivity; [by apply same_files_frame|done].
Qed.

Lemma log_is_truncate E log wal w :
  log_is log wal w -> wp (truncate E wal) (call_post E CTruncate log wal w) w.
Proof.
  intros [Hok Hc]. apply wp_truncate.
  - intros wal' w' Hsame Hfr Hnil _. split; [done|]. split; [done|]. split; [constructor|].
    destruct Hsame as (-> & _). done.
  - intros r w' Hfr Hcase Hr _. split; [done|].
    assert (exists log', log_torn (clock_at E (tick w)) CTruncate log log' /\
              log_then_torn log' (fd_ wal) w') as Hpost.
    { destruct Hcase as [Hsame|Hnil].
      - exists log. split; [by left|]. split; [done|]. exists []. rewrite app_nil_r. split; [congruence|auto].
      - exists []. split; [by right|]. split; [constructor|]. exists []. auto. }
    destruct Hr as [(wal' & _ & ->)| ->]; exact Hpost.
Qed.

Lemma log_is_call E c log wal w :
  clock_ok E -> call_ok c -> log_is log wal w ->
  wp (call E c wal) (call_post E c log wal w) w.
Proof.
  intros Hclk Hok Hlog. destruct c as [op k v e|[|m ms]| | |].
  - by apply log_is_write.
  - cbn [call append_batch]. unfold append_batch. rewrite decide_True by done.
    apply wp_ret. split; [reflexivity|]. split; [done|]. cbn. by rewrite app_nil_r.
  - by apply log_is_write.
  - by apply log_is_sync.
  - by apply log_is_maybe_sync.
  - by apply log_is_truncate.
Qed.

(** The refinement holds through any history of acknowledged calls. *)
Lemma acked_log_is E log wal w log' wal' w' :
  clock_ok E -> log_is log wal w ->
  rtc (acked E) (log, wal, w) (log', wal', w') ->
  log_is log' wal' w' /\ same_wal wal wal'.
Proof.
  intros Hclk Hlog Hrun.
  remember (log, wal, w) as x eqn:Hx. remember (log', wal', w') as y eqn:Hy.
  revert log wal w Hx Hlog. induction Hrun as [x|x y' z Hstep Hrun IH]; intros log wal w Hx Hlog.
  - by simplify_eq.
  - subst x. inversion Hstep as [? ? ? c wal1 w1 Hok Hcall]; subst.
    pose proof (wp_elim _ _ _ _ _ (log_is_call E c log wal w Hclk Hok Hlog) Hcall) as (_ & Hs & Hl).
    destruct (IH eq_refl _ _ _ eq_refl Hl) as [? ?]. split; [done|]. by transitivity wal1.
Qed.

(** ** Durability: what a power cut cannot take *)

(** The file as it is, and as the last [fsync] left it. *)
Definition synced_as (D : bytes -> bytes -> Prop) (w : world) (fd : nat) : Prop :=
  exists c, ino_synced w !! fd = Some c /\ D (contents w fd) c.

#[export] Instance synced_as_proper D : Proper (same_files ==> eq ==> iff) (synced_as D).
Proof. intros w w' Hw fd _ <-. unfold synced_as. split; intros (c & Hc); exists c; [by rewrite <- Hw|by rewrite Hw]. Qed.

(** All bytes of the file are on the disk; it may end in bytes that were cut off since. *)
Definition saved : world -> nat -> Prop := synced_as prefix.

Lemma enc_nonempty rs : rs <> [] -> 0 < zlen (enc rs).
Proof.
  destruct rs as [|r rs]; [done|]. intros _.
  pose proof (length_encode_recs (r :: rs)). unfold zlen, enc. simpl in *. lia.
Qed.

(** A postcondition on acknowledged calls only. *)
Definition when_acked (P : Wal -> world -> Prop) (r : res (bool * Wal)) (w' : world) : Prop :=
  match r with Ret (true, wal') => P wal' w' | _ => True end.

Section count.
(** [D] is equality for a log that starts out whole, and [prefix] for one whose last
    record a start-up may have cut off. *)
Context (D : bytes -> bytes -> Prop) `{!Reflexive D}.

(** The object's count of unsynced bytes is honest: it is the length (modulo the
    width of the counter) of something no longer than the file, and nothing is
    unsynced when that is zero. *)
Definition sync_count (wal : Wal) (w : world) : Prop :=
  exists n, bytes_since_sync_ wal = u64 n /\ 0 <= n <= zlen (contents w (fd_ wal)) /\
    (n = 0 -> synced_as D w (fd_ wal)) /\
    (policy_ wal = kAlways -> group_commit_ wal = false -> n = 0).

Lemma durable_as w fd : durable w fd -> synced_as D w fd.
Proof using All. intros Hd. by exists (contents w fd). Qed.

Lemma sync_count_zero wal w :
  bytes_since_sync_ wal = 0 -> synced_as D w (fd_ wal) -> sync_count wal w.
Proof. intros Hb Hd. exists 0. split_and!; auto; zlia. Qed.

Lemma sync_count_synced wal w :
  bytes_since_sync_ wal = 0 -> durable w (fd_ wal) -> sync_count wal w.
Proof using All. intros Hb Hd. by apply sync_count_zero, durable_as. Qed.

Lemma sync_count_same wal w w' : same_files w w' -> sync_count wal w -> sync_count wal w'.
Proof. intros Hw (n & ?). exists n. by rewrite <- !Hw. Qed.

Lemma sync_count_write E c wal w :
  match c with CAppend _ _ _ _ | CBatch _ => True | _ => False end ->
  call_records 0 c <> [] -> sync_count wal w ->
  wp (call E c wal) (when_acked sync_count) w.
Proof using All.
  intros Hc Hne (n & Hb & Hn & Hd & Hp).
  eapply wp_mono; [by apply wp_call_write|].
  intros [[[] wal']| |] w' (m & Hm & _ & Hcont & Hr); try done.
  destruct Hr as (-> & Hsame & _ & Hsync).
  cbn [set_buf fd_ buf_ policy_ group_commit_ bytes_since_sync_] in *.
  destruct Hsame as (Hfd & Hpol & Hgc & _). cbn in Hfd, Hpol, Hgc.
  destruct Hsync as [[Hb' Hd']|(Hb' & Hs' & Hna)].
  - apply sync_count_synced; [done|]. by rewrite Hfd.
  - exists (n + zlen (enc (call_records (clock_at E (tick w)) c))).
    assert (0 < zlen (enc (call_records (clock_at E (tick w)) c))).
    { apply enc_nonempty. contradict Hne. by eapply call_records_nonempty. }
    rewrite Hfd, Hpol, Hgc, Hcont, take_ge by done. split_and!.
    + rewrite Hb', Hb. unfold u64. by rewrite Zplus_mod_idemp_l.
    + lia.
    + zlia.
    + lia.
    + intros ? ?. by destruct Hna.
Qed.

Lemma sync_count_sync E wal w : wp (sync E wal) (when_acked sync_count) w.
Proof using All.
  apply wp_sync.
  - intros wal' w' (Hfd & _) _ Hb _ _ Hd. apply sync_count_synced; [done|]. by rewrite Hfd.
  - by intros r w' _ [->| ->] _.
Qed.

Lemma sync_count_call E c wal w :
  sync_count wal w -> wp (call E c wal) (when_acked sync_count) w.
Proof using All.
  intros Hsc. destruct c as [op k v e|[|m ms]| | |]; cbn [call].
  - by apply (sync_count_write E (CAppend op k v e)).
  - done.
  - by apply (sync_count_write E (CBatch (m :: ms))).
  - apply sync_count_sync.
  - unfold maybe_sync. case_match; [done|]. case_match; [done|].
    apply wp_bind, wp_steady_now. intros t w1 Hw1 _. case_match.
    + by apply wp_ret, (sync_count_same _ w).
    + apply sync_count_sync.
  - unfold truncate. apply wp_bind, wp_ftruncate.
    + intros w1 _ _ _. apply sync_count_sync.
    + by intros r w1 _ [->| ->] _.
Qed.

Lemma acked_sync_count E log wal w log' wal' w' :
  sync_count wal w -> rtc (acked E) (log, wal, w) (log', wal', w') -> sync_count wal' w'.
Proof using All.
  intros Hsc Hrun.
  remember (log, wal, w) as x eqn:Hx. remember (log', wal', w') as y eqn:Hy.
  revert log wal w Hx Hsc. induction Hrun as [x|x y' z Hstep Hrun IH]; intros log wal w Hx Hsc.
  - by simplify_eq.
  - subst x. inversion Hstep as [? ? ? c wal1 w1 Hok Hcall]; subst.
    pose proof (wp_elim _ _ _ _ _ (sync_count_call E c wal w Hsc) Hcall) as Hsc1.
    by eapply IH.
Qed.

End count.

(** ** Properties *)

(** C10: Recovery after a crash at any point.  Start from a log that holds exactly
    [log], make any calls that are all acknowledged, then one more call that
    fails or never returns because the process is killed inside it.  A replay of
    the file then yields every acknowledged record, in order, followed by a prefix
    of the records of that last call (or, when it was a truncation, possibly an
    empty log), and nothing else. *)
Theorem wal_crash_recovery (E : env) (log log' : list Record_) (wal wal' : Wal) (w w' w'' : world)
    (c : WalCall) (r : res (bool * Wal)) :
  clock_ok E -> log_is log wal w ->
  rtc (acked E) (log, wal, w) (log', wal', w') ->
  (exists result, replay_scan (contents w' (fd_ wal)) = Some (log', result)) /\
  (call_ok c -> call E c wal' w' = (r, w'') ->
   (forall wal'', r <> Ret (true, wal'')) ->
   exists log'' result,
     log_torn (clock_at E (tick w')) c log' log'' /\
     replay_scan (contents w'' (fd_ wal)) = Some (log'', result)).
Proof.
  intros Hclk Hlog Hrun.
  destruct (acked_log_is _ _ _ _ _ _ _ Hclk Hlog Hrun) as [Hlog' (Hfd & _)]. split.
  - destruct Hlog' as [Hok Hc]. rewrite <- Hfd, Hc, <- (app_nil_r (enc log')).
    apply replay_enc; auto.
  - intros Hok Hcall Hr.
    pose proof (wp_elim _ _ _ _ _ (log_is_call E c log' wal' w' Hclk Hok Hlog') Hcall) as [_ Hpost].
    assert (exists log'', log_torn (clock_at E (tick w')) c log' log'' /\
              log_then_torn log'' (fd_ wal') w'') as (log'' & Ht & Hrs & tail & Hc & Htail).
    { destruct r as [[[] wal'']|e|]; try done. by destruct (Hr wal''). }
    rewrite Hfd in Hc. destruct (replay_enc log'' tail Hrs Htail) as [result Hres].
    exists log'', result. by rewrite Hc.
Qed.

(** C35: An acknowledged write survives a power cut.  From a log that was fully
    synced, after any acknowledged calls: whenever the object reports that no
    sync is needed, the bytes of the file as last fsynced are exactly the
    acknowledged records; and under [kAlways] without group commit it always
    reports that. *)
Theorem wal_acked_durable (E : env) (log log' : list Record_) (wal wal' : Wal) (w w' : world) :
  clock_ok E -> log_is log wal w -> bytes_since_sync_ wal = 0 -> durable w (fd_ wal) ->
  rtc (acked E) (log, wal, w) (log', wal', w') ->
  zlen (contents w' (fd_ wal')) < 2 ^ 64 ->
  (needs_sync wal' = false -> ino_synced w' !! fd_ wal = Some (enc log')) /\
  (policy_ wal = kAlways -> group_commit_ wal = false -> needs_sync wal' = false).
Proof.
  intros Hclk Hlog Hb Hd Hrun Hlen.
  destruct (acked_log_is _ _ _ _ _ _ _ Hclk Hlog Hrun) as [[_ Hc] (Hfd & Hp & Hg & _)].
  destruct (acked_sync_count eq _ _ _ _ _ _ _ (sync_count_synced eq _ _ Hb Hd) Hrun)
    as (n & Hn & Hr & Hz & Ha).
  unfold needs_sync. rewrite Hn, u64_id by (unfold is_u64; lia). split.
  - intros ?%Z.ltb_ge. rewrite <- Hfd, <- Hc. destruct Hz as (c & -> & ->); [lia|done].
  - intros Hpol Hgc. rewrite Ha by congruence. done.
Qed.

(** A kernel that writes one record and dies nine bytes into the next. *)
Definition demo_env : env :=
  mkEnv (fun _ => 5) (fun _ => 0) (fun t => if Nat.eqb t 3 then [Done 9] else [Done 100]).
Definition demo_wal (policy : SyncPolicy) : Wal := mkWal 0 policy [] 0 0 0 0 0 false.
Definition demo_world : world := mkWorld 0 {[lit "wal.log" := 0%nat]} ∅ {[0%nat := []]} {[0%nat := []]} 1.
Definition demo_call : WalCall := CAppend kSet (lit "k") (lit "v") 0.

(** The worlds after the first call and after the second, with the object between. *)
Definition demo_run (policy : SyncPolicy) : res (bool * Wal) * world :=
  call demo_env demo_call (demo_wal policy) demo_world.
Definition demo_wal1 (policy : SyncPolicy) : Wal :=
  match (demo_run policy).1 with Ret (_, wal) => wal | _ => demo_wal policy end.

Lemma demo_call_ok : call_ok demo_call.
Proof. intros now Hnow. constructor; [|constructor]. by split_and!. Qed.

Lemma demo_acked policy :
  rtc (acked demo_env) ([], demo_wal policy, demo_world)
    ([mkRecord kSet 5 0 (lit "k") (lit "v")], demo_wal1 policy, (demo_run policy).2).
Proof.
  apply rtc_once, (acked_call demo_env [] (demo_wal policy) demo_world demo_call).
  - apply demo_call_ok.
  - destruct policy; vm_compute; reflexivity.
Qed.

Lemma wal_crash_recovery_witness :
  let r := mkRecord kSet 5 0 (lit "k") (lit "v") in
  let last := call demo_env demo_call (demo_wal1 kNo) (demo_run kNo).2 in
  last.1 = Dead /\
  exists log'' result, (exists k, log'' = [r] ++ take k [r]) /\
    replay_scan (contents last.2 0) = Some (log'', result).
Proof.
  intros r last. split; [vm_compute; reflexivity|].
  apply (proj2 (wal_crash_recovery demo_env [] [r] (demo_wal kNo) (demo_wal1 kNo) demo_world
    (demo_run kNo).2 last.2 demo_call Dead ltac:(intros t; done) ltac:(done) (demo_acked kNo))).
  - apply demo_call_ok.
  - vm_compute. reflexivity.
  - done.
Defined.

Lemma wal_acked_durable_witness :
  ino_synced (demo_run kAlways).2 !! 0%nat =
    Some (enc [mkRecord kSet 5 0 (lit "k") (lit "v")]).
Proof.
  apply (wal_acked_durable demo_env [] [mkRecord kSet 5 0 (lit "k") (lit "v")]
    (demo_wal kAlways) (demo_wal1 kAlways) demo_world (demo_run kAlways).2).
  - intros t. done.
  - done.
  - done.
  - vm_compute. reflexivity.
  - apply (demo_acked kAlways).
  - vm_compute. reflexivity.
  - vm_compute. reflexivity.
Defined.

(** ** Appending and replaying under a kernel that does its work *)

(** Round trip through the file: when the kernel performs the calls, an
    [append] succeeds and a later [replay] of the path returns, feeds its callback
    every record of the log and then the new one, in order, reports the
    record count and finds nothing to cut. *)
Theorem append_then_replay {S} (E : env) (k : nat) (path : bytes) (wal : Wal) (w : world)
    (log : list Record_) (op : Op) (key value : bytes) (e : Z) (apply : S -> Record_ -> S) (s : S) :
  reliable E k -> clock_ok E -> log_is log wal w -> dir w !! path = Some (fd_ wal) ->
  call_ok (CAppend op key value e) ->
  let r := mkRecord op (clock_at E (tick w)) e key value in
  (length (enc (log ++ [r])) <= k)%nat ->
  exists wal' w' w'',
    append E wal op key value e w = (Ret (true, wal'), w') /\
    replay E path apply s w' =
      (Ret (apply (fold_left apply log s) r,
            mkReplayResult (zlen log + 1) (zlen (enc (log ++ [r]))) false), w'') /\
    same_files w' w''.
Proof.
  intros Hrel Hclk [Hlog Hc] Hdir Hok r Hk.
  assert (enc (log ++ [r]) = enc log ++ encode_rec r) as Henc.
  { rewrite enc_app. f_equal. unfold enc. simpl. by rewrite app_nil_r. }
  assert (Forall record_ok (log ++ [r])) as Hrs.
  { apply Forall_app. split; [done|]. apply (Hok _ (Hclk (tick w))). }
  assert (enc [r] = encode_rec r) as Hr by (unfold enc; simpl; by rewrite app_nil_r).
  destruct (append E wal op key value e w) as [res w1] eqn:H1.
  destruct (wp_elim _ _ _ _ _ (wp_call_write E (CAppend op key value e) wal w I ltac:(done)) H1)
    as (n & Hn & Hf1 & Hc1 & Hres).
  assert (reliable E (length (enc [r]))) as Hrel1.
  { apply (reliable_mono _ _ k); [|done]. rewrite Hr. rewrite Henc, length_app in Hk. lia. }
  destruct res as [[[] wal']|?|]; [|by destruct Hres|done|by destruct Hres].
  destruct Hres as (-> & _).
  assert (contents w1 (fd_ wal) = enc (log ++ [r])) as Hfile.
  { cbn [set_buf buf_ fd_] in Hc1. rewrite Hc1, take_ge, Hc, enc_app by done. done. }
  exists wal', w1, (next_tick (next_tick w1)). split; [done|].
  split; [|by transitivity (next_tick w1)].
  destruct (answers_reliable E k w1 Hrel) as (m & rest & Ha).
  unfold replay, open_existing, read_all. unfold mbind at 1, M_bind at 1. rewrite Ha.
  assert (dir w1 !! path = Some (fd_ wal)) as -> by (by destruct Hf1 as [-> _ _ _ _]).
  unfold mbind, M_bind. destruct (Hrel (tick (next_tick w1))) as [Hlen Hall].
  assert (contents (next_tick w1) (fd_ wal) = enc (log ++ [r])) as Hfile' by done.
  unfold answers. rewrite read_all_reliable, app_nil_l, Hfile'; [|done|by rewrite Hfile'; lia].
  unfold replay_scan, enc. rewrite <- (app_nil_r (concat _)).
  rewrite replay_loop_records; [|done|by left|].
  - cbn [mbind option_bind truncated good_bytes]. rewrite app_nil_r, Z.add_0_l, Z.ltb_irrefl.
    rewrite fold_left_app, zlen_app. done.
  - rewrite app_nil_r. pose proof (length_encode_recs (log ++ [r])). lia.
Qed.

Lemma append_then_replay_witness :
  exists wal' w' w'',
    append (fair_env 99) (demo_wal kAlways) kSet (lit "k") (lit "v") 0 demo_world =
      (Ret (true, wal'), w') /\
    replay (fair_env 99) (lit "wal.log") (fun rs r => r :: rs) [] w' =
      (Ret ([mkRecord kSet 5 0 (lit "k") (lit "v")], mkReplayResult 1 23 false), w'') /\
    same_files w' w''.
Proof.
  apply (append_then_replay (fair_env 99) 99 (lit "wal.log") (demo_wal kAlways) demo_world []
           kSet (lit "k") (lit "v") 0 (fun rs r => r :: rs) []).
  - apply fair_env_reliable.
  - intros t. done.
  - done.
  - vm_compute. reflexivity.
  - apply demo_call_ok.
  - vm_compute. lia.
Defined.

(** A kernel whose disk fills up nine bytes into the first append and has room
    again for the second. *)
Definition full_disk_env : env :=
  mkEnv (fun _ => 5) (fun _ => 0)
    (fun t => if Nat.eqb t 1 then [Done 9; Fail] else [Done 100]).

(** A failed append costs later acknowledged ones.  [append] does not cut the
    file back to [size_] when a write fails part way, so the torn record stays in
    the middle of the log: here the first call reports failure, the second is
    acknowledged and even fsynced, and a replay of the file yields no record at
    all. *)
Theorem failed_append_hides_later_acks :
  exists wal1 w1 wal2 w2 result,
    call full_disk_env demo_call (demo_wal kAlways) demo_world = (Ret (false, wal1), w1) /\
    call full_disk_env demo_call wal1 w1 = (Ret (true, wal2), w2) /\
    durable w2 0 /\
    replay_scan (contents w2 0) = Some ([], result) /\ truncated result = true.
Proof.
  eexists _, _, _, _, _. split; [vm_compute; reflexivity|]. split; [vm_compute; reflexivity|].
  split; [vm_compute; reflexivity|]. split; vm_compute; reflexivity.
Qed.
