(* ===== verification/Sstable.v ===== *)
(** * Sorted string tables

    The immutable files of [sstable.h] and [sstable.cpp]: the writer
    ([SstableWriter::add], [finish]), the reader ([Sstable]'s constructor and
    [get]) and the cursor ([Sstable::Cursor]), over the kernel of [Posix].  A
    pointer into a buffer is a suffix of it and a load past its end is [None];
    such a load is undefined behaviour in the source and ends the model's
    program with the [oob] exception, which the theorems show never happens. *)

From stdpp Require Import gmap.
From S2P Require Import Prelude Endian SortedMap Memtable Bloom Posix.

Definition kMagic : bytes := lit "CDBSSTv2".
Definition kMagicV1 : bytes := lit "CDBSSTv1".
Definition kFooterSize : Z := 32.
Definition kIndexInterval : Z := 4096.
Definition kTombstoneFlag : Z := 1.
Definition kExpiryFlag : Z := 2.
Definition kCursorWindow : Z := 64 * 1024.

(** An out-of-bounds read. *)
Definition oob {A} : M A := throw (lit "out of bounds").
Definition checked {A} (o : option A) : M A :=
  match o with Some a => mret a | None => oob end.

Record IndexEntry := mkIndexEntry { ie_key : bytes; ie_offset : Z }.

(** ** Writing *)

Record SstableWriter := mkWriter {
  sw_fd : nat;
  sw_offset : Z;
  sw_entry_count : Z;
  sw_failed : bool;
  sw_finished : bool;
  sw_bits_per_key : Z;
  sw_bloom_keys : list bytes;
  sw_index : list IndexEntry;
  sw_bytes_since_index : Z
}.

(** [buf_] after the entry has been put into it. *)
Definition entry_buf (key value : bytes) (tombstone : bool) (expires_at_ms : Z) : bytes :=
  let carries_expiry := negb tombstone && negb (expires_at_ms =? 0) in
  let buf := SstEndian.put_u32 [] (u32 (zlen key)) in
  let buf := SstEndian.put_u32 buf (u32 (zlen value)) in
  let flags := if tombstone then kTombstoneFlag else 0 in
  let flags := if carries_expiry then Z.lor flags kExpiryFlag else flags in
  let buf := buf ++ [z2b flags] in
  let buf := if carries_expiry then SstEndian.put_u64 buf (u64 expires_at_ms) else buf in
  buf ++ key ++ value.

(** [block] of [finish]: the count, then each key and offset. *)
Definition index_block (index : list IndexEntry) : bytes :=
  fold_left (fun block e =>
      let block := SstEndian.put_u32 block (u32 (zlen (ie_key e))) in
      let block := block ++ ie_key e in
      SstEndian.put_u64 block (ie_offset e))
    index (SstEndian.put_u32 [] (u32 (zlen index))).

Definition footer_block (index_offset bloom_offset entry_count : Z) : bytes :=
  let footer := SstEndian.put_u64 [] index_offset in
  let footer := SstEndian.put_u64 footer bloom_offset in
  let footer := SstEndian.put_u64 footer (u64 entry_count) in
  footer ++ kMagic.

Section writer.
Context (E : env).

Definition SstableWriter_open (path : bytes) (bits_per_key : Z) : M SstableWriter :=
  fd ← open_trunc E path;
  match fd with
  | None => throw (lit "open")
  | Some fd => mret (mkWriter fd 0 0 false false bits_per_key [] [] 0)
  end.

(** The index entry goes in before the data it points at. *)
Definition note_index (wr : SstableWriter) (key : bytes) : SstableWriter :=
  if bool_decide (length (sw_index wr) = 0%nat) || (kIndexInterval <=? sw_bytes_since_index wr)
  then mkWriter (sw_fd wr) (sw_offset wr) (sw_entry_count wr) (sw_failed wr) (sw_finished wr)
         (sw_bits_per_key wr) (sw_bloom_keys wr)
         (sw_index wr ++ [mkIndexEntry key (sw_offset wr)]) 0
  else wr.

Definition add (wr : SstableWriter) (key value : bytes) (tombstone : bool) (expires_at_ms : Z)
  : M SstableWriter :=
  if sw_failed wr then mret wr
  else
    let buf := entry_buf key value tombstone expires_at_ms in
    let wr := note_index wr key in
    ok ← write_all E (sw_fd wr) buf;
    if ok : bool then
      mret (mkWriter (sw_fd wr) (u64 (sw_offset wr + zlen buf)) (u64 (sw_entry_count wr + 1))
              (sw_failed wr) (sw_finished wr) (sw_bits_per_key wr)
              (sw_bloom_keys wr ++ [key]) (sw_index wr)
              (u64 (sw_bytes_since_index wr + zlen buf)))
    else
      mret (mkWriter (sw_fd wr) (sw_offset wr) (sw_entry_count wr) true (sw_finished wr)
              (sw_bits_per_key wr) (sw_bloom_keys wr) (sw_index wr) (sw_bytes_since_index wr)).

Definition finish (wr : SstableWriter) : M (bool * SstableWriter) :=
  if sw_failed wr || sw_finished wr then mret (false, wr)
  else
    let wr := mkWriter (sw_fd wr) (sw_offset wr) (sw_entry_count wr) (sw_failed wr) true
                (sw_bits_per_key wr) (sw_bloom_keys wr) (sw_index wr) (sw_bytes_since_index wr) in
    let index_offset := sw_offset wr in
    let block := index_block (sw_index wr) in
    ok ← write_all E (sw_fd wr) block;
    if negb ok then mret (false, wr) else
    let bloom_offset := u64 (index_offset + zlen block) in
    let filter := build (sw_bloom_keys wr) (sw_bits_per_key wr) in
    ok ← write_all E (sw_fd wr) filter;
    if negb ok then mret (false, wr) else
    let footer := footer_block index_offset bloom_offset (sw_entry_count wr) in
    ok ← write_all E (sw_fd wr) footer;
    if negb ok then mret (false, wr) else
    ok ← fsync E (sw_fd wr);
    mret (ok : bool, wr).

End writer.

(** ** Reading *)

Record Sstable := mkSstable {
  path_ : bytes;
  fd_ : nat;
  bloom_ : bytes;
  index_ : list IndexEntry;
  data_end_ : Z;
  entry_count_ : Z;
  use_bloom_ : bool
}.

Record Lookup := mkLookup {
  found : bool;
  lk_tombstone : bool;
  lk_value : bytes;
  lk_expires_at_ms : Z
}.

Definition Lookup_none : Lookup := mkLookup false false [] 0.

(** What can be wrong with an index block. *)
Inductive index_result :=
  | IndexOk (index : list IndexEntry)
  | IndexBad (why : bytes)
  | IndexOob.

(** The loop over the [count] entries of the index block. *)
Fixpoint read_index (count : nat) (block : bytes) (pos data_end : Z) (index : list IndexEntry)
  : index_result :=
  match count with
  | O => IndexOk index
  | S count =>
      if zlen block <? pos + 4 then IndexBad (lit "sstable index is truncated")
      else
        match SstEndian.load_u32 (drop (Z.to_nat pos) block) with
        | None => IndexOob
        | Some klen =>
            let pos := pos + 4 in
            if zlen block <? pos + klen + 8 then IndexBad (lit "sstable index is truncated")
            else
              let key := substr block pos klen in
              let pos := pos + klen in
              match SstEndian.load_u64 (drop (Z.to_nat pos) block) with
              | None => IndexOob
              | Some offset =>
                  let pos := pos + 8 in
                  if data_end <? offset then IndexBad (lit "sstable index points past its data")
                  else read_index count block pos data_end (index ++ [mkIndexEntry key offset])
              end
        end
  end.

(** [std::upper_bound]: the position after the last entry not above [key]. *)
Fixpoint upper_bound (fuel : nat) (index : list IndexEntry) (key : bytes) (first len : nat) : nat :=
  match fuel with
  | O => first
  | S fuel =>
      match len with
      | O => first
      | _ =>
          let half := Nat.div2 len in
          let middle := (first + half)%nat in
          match index !! middle with
          | None => first
          | Some e =>
              if bytes_ltb key (ie_key e)
              then upper_bound fuel index key first half
              else upper_bound fuel index key (S middle) (len - half - 1)
          end
      end
  end.

(** The scan of one block for a key. [None] is an out-of-bounds load.  An entry
    takes at least nine bytes, so one round per byte of the block is enough. *)
Fixpoint scan_block (fuel : nat) (block : bytes) (pos : Z) (key : bytes) : option Lookup :=
  match fuel with
  | O => None
  | S fuel =>
      if zlen block <? pos + 9 then Some Lookup_none
      else
        klen ← SstEndian.load_u32 (drop (Z.to_nat pos) block);
        vlen ← SstEndian.load_u32 (drop (Z.to_nat (pos + 4)) block);
        flag ← block !! Z.to_nat (pos + 8);
        let flags := b2z flag in
        let has_expiry := negb (Z.land flags kExpiryFlag =? 0) in
        let stamp := pos + 9 in
        let body := stamp + (if has_expiry then 8 else 0) in
        if zlen block <? body + klen + vlen then Some Lookup_none
        else
          entry_key ← slice block body klen;
          if decide (entry_key = key) then
            let tomb := negb (Z.land flags kTombstoneFlag =? 0) in
            expires ← (if has_expiry
                       then i64 <$> SstEndian.load_u64 (drop (Z.to_nat stamp) block)
                       else Some 0);
            Some (mkLookup true tomb
                    (if tomb then [] else substr block (body + klen) vlen) expires)
          else if bytes_ltb key entry_key then Some Lookup_none
          else scan_block fuel block (body + klen + vlen) key
  end.

Section reader.
Context (E : env).

Definition Sstable_open (path : bytes) (use_bloom : bool) : M Sstable :=
  fd ← open_existing E path;
  match fd with
  | inl _ => throw (lit "open")
  | inr fd =>
  size ← lseek_end E fd;
  match size with
  | None => throw (lit "lseek")
  | Some size =>
  if size <? kFooterSize then throw (lit "sstable is too short to hold a footer") else
  footer ← read_exact E fd (size - kFooterSize) kFooterSize;
  match footer with
  | None => throw (lit "read footer")
  | Some footer =>
  if negb (bool_decide (take 8 (drop 24 footer) = kMagic)) &&
     negb (bool_decide (take 8 (drop 24 footer) = kMagicV1))
  then throw (lit "not a cachedb sstable, or a version we do not know") else
  index_offset ← checked (SstEndian.load_u64 footer);
  bloom_offset ← checked (SstEndian.load_u64 (drop 8 footer));
  entry_count ← checked (SstEndian.load_u64 (drop 16 footer));
  let footer_offset := size - kFooterSize in
  if (bloom_offset <? index_offset) || (footer_offset <? bloom_offset)
  then throw (lit "sstable footer offsets are not in order") else
  let data_end := index_offset in
  block ← read_exact E fd index_offset (bloom_offset - index_offset);
  match block with
  | None => throw (lit "read index")
  | Some block =>
  if zlen block <? 4 then throw (lit "sstable index is truncated") else
  count ← checked (SstEndian.load_u32 block);
  match read_index (Z.to_nat count) block 4 data_end [] with
  | IndexBad why => throw why
  | IndexOob => oob
  | IndexOk index =>
  bloom ← read_exact E fd bloom_offset (footer_offset - bloom_offset);
  match bloom with
  | None => throw (lit "read bloom")
  | Some bloom => mret (mkSstable path fd bloom index data_end entry_count use_bloom)
  end end end end end end.

Definition get (t : Sstable) (key : bytes) : M Lookup :=
  if use_bloom_ t && negb (may_contain (bloom_ t) key) then mret Lookup_none
  else if decide (length (index_ t) = 0%nat) then mret Lookup_none
  else
    match upper_bound (S (length (index_ t))) (index_ t) key 0 (length (index_ t)) with
    | O => mret Lookup_none
    | S slot =>
        from ← checked (ie_offset <$> index_ t !! slot);
        let to := match index_ t !! S slot with
                  | Some e => ie_offset e
                  | None => data_end_ t
                  end in
        if to <=? from then mret Lookup_none
        else
          block ← read_exact E (fd_ t) from (to - from);
          match block with
          | None => mret Lookup_none
          | Some block => checked (scan_block (S (length block)) block 0 key)
          end
    end.

End reader.

(** ** The cursor *)

Record Cursor := mkCursor {
  pos_ : Z;
  buf_start_ : Z;
  cur_buf : bytes;
  key_ : bytes;
  value_ : bytes;
  expires_at_ms_ : Z;
  tombstone_ : bool;
  valid_ : bool;
  failed_ : bool
}.

Definition Cursor_init : Cursor := mkCursor 0 0 [] [] [] 0 false false false.

Definition set_valid (c : Cursor) (valid : bool) : Cursor :=
  mkCursor (pos_ c) (buf_start_ c) (cur_buf c) (key_ c) (value_ c) (expires_at_ms_ c)
    (tombstone_ c) valid (failed_ c).

Section cursor.
Context (E : env) (t : Sstable).

(** The window holds [need] bytes from [pos_]. *)
Definition ensure (c : Cursor) (need : Z) : M (bool * Cursor) :=
  if (buf_start_ c <=? pos_ c) && (pos_ c - buf_start_ c + need <=? zlen (cur_buf c))
  then mret (true, c)
  else if data_end_ t <? pos_ c + need then mret (false, c)
  else
    let remaining := data_end_ t - pos_ c in
    let want := Z.min remaining (Z.max need kCursorWindow) in
    data ← read_exact E (fd_ t) (pos_ c) want;
    match data with
    | None =>
        mret (false, mkCursor (pos_ c) (buf_start_ c) (cur_buf c) (key_ c) (value_ c)
                       (expires_at_ms_ c) (tombstone_ c) (valid_ c) true)
    | Some data =>
        mret (true, mkCursor (pos_ c) (pos_ c) data (key_ c) (value_ c)
                      (expires_at_ms_ c) (tombstone_ c) (valid_ c) (failed_ c))
    end.

(** The parse of one entry, once the window holds it. *)
Definition load (c : Cursor) : M Cursor :=
  let c := set_valid c false in
  if failed_ c || (data_end_ t <=? pos_ c) then mret c
  else
    '(ok, c) ← ensure c 9;
    if negb ok then mret c else
    let p := drop (Z.to_nat (pos_ c - buf_start_ c)) (cur_buf c) in
    klen ← checked (SstEndian.load_u32 p);
    vlen ← checked (SstEndian.load_u32 (drop 4 p));
    flag ← checked (p !! 8%nat);
    let flags := b2z flag in
    let has_expiry := negb (Z.land flags kExpiryFlag =? 0) in
    let body := 9 + (if has_expiry then 8 else 0) in
    let total := body + klen + vlen in
    '(ok, c) ← ensure c total;
    if negb ok then mret c else
    let p := drop (Z.to_nat (pos_ c - buf_start_ c)) (cur_buf c) in
    expires ← checked (if has_expiry then i64 <$> SstEndian.load_u64 (drop 9 p) else Some 0);
    key ← checked (slice p body klen);
    value ← checked (slice p (body + klen) vlen);
    mret (mkCursor (pos_ c + total) (buf_start_ c) (cur_buf c)
            key value expires
            (negb (Z.land flags kTombstoneFlag =? 0)) true (failed_ c)).

(** [cursor()]: the constructor loads the first entry. *)
Definition cursor : M Cursor := load Cursor_init.
Definition next (c : Cursor) : M Cursor := load c.

End cursor.

(** ** The layout of an entry *)

Notation row := (bytes * Entry)%type.

Definition carries (e : Entry) : bool := negb (tombstone e) && negb (expires_at_ms e =? 0).

Definition flags_of (e : Entry) : Z :=
  Z.lor (if tombstone e then kTombstoneFlag else 0) (if carries e then kExpiryFlag else 0).

Definition row_buf (x : row) : bytes :=
  entry_buf x.1 (value x.2) (tombstone x.2) (expires_at_ms x.2).

Definition row_head (x : row) : bytes :=
  le_bytes 4 (zlen x.1) ++ le_bytes 4 (zlen (value x.2)) ++ [z2b (flags_of x.2)].
Definition row_stamp (x : row) : bytes :=
  if carries x.2 then le_bytes 8 (u64 (expires_at_ms x.2)) else [].

(** A row whose lengths fit their fields. *)
Definition row_ok (x : row) : Prop :=
  zlen x.1 < 2 ^ 32 /\ zlen (value x.2) < 2 ^ 32 /\ is_i64 (expires_at_ms x.2).

(** What is read back: a tombstone has no expiry. *)
Definition stored (e : Entry) : Entry :=
  mkEntry (value e) (tombstone e) (if tombstone e then 0 else expires_at_ms e).

Lemma row_buf_eq x :
  row_ok x -> row_buf x = row_head x ++ row_stamp x ++ x.1 ++ value x.2.
Proof.
  intros (Hk & Hv & _). unfold row_buf, entry_buf, row_head, row_stamp, flags_of, carries.
  rewrite !sst_put_u32_le, !u32_id by (unfold is_u32; zlia).
  destruct (tombstone x.2), (expires_at_ms x.2 =? 0); cbn [negb andb];
    rewrite ?sst_put_u64_le, ?app_nil_l, <- ?app_assoc; done.
Qed.

Lemma length_row_head x : length (row_head x) = 9%nat.
Proof. unfold row_head. rewrite !length_app, !length_le_bytes. done. Qed.

Lemma zlen_row_stamp x : zlen (row_stamp x) = if carries x.2 then 8 else 0.
Proof. unfold row_stamp. case_match; [apply zlen_le_bytes|done]. Qed.

Lemma zlen_row_buf x :
  row_ok x -> zlen (row_buf x) = 9 + zlen (row_stamp x) + zlen x.1 + zlen (value x.2).
Proof.
  intros Hx. rewrite row_buf_eq by done. rewrite !zlen_app.
  unfold zlen at 1. rewrite length_row_head. lia.
Qed.

Lemma row_buf_pos x : row_ok x -> 9 <= zlen (row_buf x).
Proof. intros Hx. rewrite zlen_row_buf by done. zlia. Qed.

(** The fields of an entry, read from where it starts. *)
Lemma row_fields x rest :
  row_ok x ->
  let p := row_buf x ++ rest in
  SstEndian.load_u32 p = Some (zlen x.1) /\
  SstEndian.load_u32 (drop 4 p) = Some (zlen (value x.2)) /\
  p !! 8%nat = Some (z2b (flags_of x.2)) /\
  drop 9 p = row_stamp x ++ x.1 ++ value x.2 ++ rest.
Proof.
  intros Hx p. pose proof Hx as (Hk & Hv & _).
  assert (p = le_bytes 4 (zlen x.1) ++ le_bytes 4 (zlen (value x.2)) ++ z2b (flags_of x.2) ::
            row_stamp x ++ x.1 ++ value x.2 ++ rest) as ->.
  { unfold p. rewrite row_buf_eq by done. unfold row_head. by rewrite <- !app_assoc. }
  split_and!.
  - apply sst_load_put_u32. unfold is_u32. zlia.
  - rewrite drop_app_exact by apply length_le_bytes. apply sst_load_put_u32. unfold is_u32. zlia.
  - rewrite !lookup_app_r by (rewrite !length_le_bytes; lia). by rewrite !length_le_bytes.
  - rewrite (drop_app_plus 4 5), (drop_app_plus 4 1) by apply length_le_bytes. done.
Qed.

Lemma flags_expiry e :
  negb (Z.land (b2z (z2b (flags_of e))) kExpiryFlag =? 0) = carries e.
Proof. unfold flags_of. by destruct (tombstone e), (carries e). Qed.

Lemma flags_tombstone e :
  negb (Z.land (b2z (z2b (flags_of e))) kTombstoneFlag =? 0) = tombstone e.
Proof. unfold flags_of. by destruct (tombstone e), (carries e). Qed.

(** The stamp of an entry, read back. *)
Lemma row_stamp_load x rest :
  row_ok x ->
  (if carries x.2 then i64 <$> SstEndian.load_u64 (row_stamp x ++ rest) else Some 0) =
    Some (expires_at_ms (stored x.2)).
Proof.
  intros (_ & _ & He). unfold row_stamp. destruct (carries x.2) eqn:Hc.
  - rewrite sst_load_put_u64 by apply u64_range. cbn [fmap option_fmap option_map].
    rewrite i64_u64 by done. unfold carries in Hc. unfold stored. cbn.
    by destruct (tombstone x.2).
  - unfold carries in Hc. unfold stored. cbn.
    destruct (tombstone x.2); [done|]. cbn in Hc. f_equal. lia.
Qed.

(** ** Scanning a block *)

Definition data_of (rows : list row) : bytes := concat (row_buf <$> rows).

Lemma data_of_cons x rows : data_of (x :: rows) = row_buf x ++ data_of rows.
Proof. done. Qed.
Lemma data_of_app a b : data_of (a ++ b) = data_of a ++ data_of b.
Proof. unfold data_of. by rewrite fmap_app, concat_app. Qed.

Lemma data_of_snoc rows x : data_of (rows ++ [x]) = data_of rows ++ row_buf x.
Proof. rewrite data_of_app, data_of_cons. change (data_of []) with (@nil byte). by rewrite app_nil_r. Qed.

Lemma length_data_of rows : Forall row_ok rows -> (length rows <= length (data_of rows))%nat.
Proof.
  induction 1 as [|x rows Hx _ IH]; [simpl; lia|].
  rewrite data_of_cons, length_app. pose proof (row_buf_pos x Hx). unfold zlen in *. simpl. lia.
Qed.

(** The answer a table gives for what it holds under a key. *)
Definition lookup_of (o : option Entry) : Lookup :=
  match o with
  | None => Lookup_none
  | Some e => mkLookup true (tombstone e) (if tombstone e then [] else value e)
                (expires_at_ms (stored e))
  end.

Lemma scan_block_step fuel pre x rest key :
  row_ok x ->
  scan_block (S fuel) (pre ++ row_buf x ++ rest) (zlen pre) key =
    if decide (x.1 = key) then Some (lookup_of (Some x.2))
    else if bytes_ltb key x.1 then Some Lookup_none
    else scan_block fuel (pre ++ row_buf x ++ rest) (zlen pre + zlen (row_buf x)) key.
Proof.
  intros Hx. pose proof (row_buf_pos x Hx) as Hpos. cbn [scan_block].
  rewrite (proj2 (Z.ltb_ge _ _)) by zlia.
  set (p := row_buf x ++ rest).
  assert (forall n, 0 <= n -> drop (Z.to_nat (zlen pre + n)) (pre ++ p) = drop (Z.to_nat n) p) as Hdrop.
  { intros n Hn. rewrite Z2Nat.inj_add, zlen_to_nat by zlia. by apply drop_app_plus. }
  assert (forall n m, 0 <= n -> substr (pre ++ p) (zlen pre + n) m = substr p n m) as Hsub.
  { intros n m Hn. unfold substr. by rewrite Hdrop. }
  destruct (row_fields x rest Hx) as (H1 & H2 & H3 & H4). fold p in H1, H2, H3, H4.
  rewrite <- (Z.add_0_r (zlen pre)) at 1. rewrite (Hdrop 0) by lia.
  change (Z.to_nat 0) with 0%nat. rewrite drop_0, H1.
  cbn [mbind option_bind]. rewrite (Hdrop 4) by lia. change (Z.to_nat 4) with 4%nat. rewrite H2.
  cbn [mbind option_bind].
  rewrite (Z2Nat.inj_add (zlen pre) 8), zlen_to_nat, lookup_app_r by zlia.
  replace (length pre + Z.to_nat 8 - length pre)%nat with 8%nat by lia. rewrite H3.
  cbn [mbind option_bind]. rewrite flags_expiry, flags_tombstone.
  rewrite <- zlen_row_stamp.
  assert (zlen pre + 9 + zlen (row_stamp x) + zlen x.1 + zlen (value x.2) =
          zlen pre + zlen (row_buf x)) as Hend by (rewrite zlen_row_buf by done; lia).
  rewrite Hend, (proj2 (Z.ltb_ge _ _)) by (unfold p; zlia).
  rewrite <- !(Z.add_assoc (zlen pre)), !Hsub by zlia.
  assert (p = row_head x ++ row_stamp x ++ x.1 ++ value x.2 ++ rest) as Hp.
  { unfold p. by rewrite row_buf_eq, <- !app_assoc by done. }
  assert (slice (pre ++ p) (zlen pre + (9 + zlen (row_stamp x))) (zlen x.1) = Some x.1) as ->.
  { replace (pre ++ p) with ((pre ++ row_head x ++ row_stamp x) ++ x.1 ++ value x.2 ++ rest)
      by (by rewrite Hp, <- !app_assoc).
    apply slice_app_mid. rewrite !zlen_app. unfold zlen at 2. by rewrite length_row_head. }
  cbn [mbind option_bind]. case_decide as Hk; [|done].
  rewrite (Hdrop 9) by lia. change (Z.to_nat 9) with 9%nat. rewrite H4, row_stamp_load by done.
  cbn [mbind option_bind]. do 2 f_equal. unfold lookup_of. f_equal.
  destruct (tombstone x.2); [done|].
  rewrite Hp, !app_assoc, <- app_assoc. apply substr_app_mid. rewrite !zlen_app.
  unfold zlen at 1. rewrite length_row_head. lia.
Qed.

Lemma scan_block_rows fuel pre rows key :
  Forall row_ok rows -> sm_sorted rows -> (length rows < fuel)%nat ->
  scan_block fuel (pre ++ data_of rows) (zlen pre) key = Some (lookup_of (sm_find key rows)).
Proof.
  intros Hok. revert fuel pre. induction Hok as [|x rows Hx Hok IH]; intros fuel pre Hs Hf;
    (destruct fuel as [|fuel]; [simpl in Hf; lia|]).
  - cbn [scan_block data_of fmap list_fmap concat]. rewrite app_nil_r.
    by rewrite (proj2 (Z.ltb_lt _ _)) by lia.
  - rewrite data_of_cons, scan_block_step by done. destruct x as [k e]. cbn [fst snd sm_find].
    destruct (decide (key = k)) as [->|Hne]; [by rewrite decide_True|].
    rewrite decide_False by done. destruct (bytes_ltb key k) eqn:Hlt.
    + apply bytes_ltb_lt in Hlt. pose proof (sm_find_lt key (k, e) rows Hs Hlt) as Hn.
      cbn [sm_find] in Hn. rewrite decide_False in Hn by done. by rewrite Hn.
    + apply sm_sorted_cons in Hs as [_ Hs]. rewrite app_assoc, <- zlen_app.
      apply IH; [done|]. simpl in Hf. lia.
Qed.





(** ** The index

    The rows fall into consecutive blocks; an index entry is the first key of a
    block and the offset where the block starts. *)

Definition head_key (b : list row) : bytes := match b with x :: _ => x.1 | [] => [] end.

Fixpoint block_index (blocks : list (list row)) (offset : Z) : list IndexEntry :=
  match blocks with
  | [] => []
  | b :: bs => mkIndexEntry (head_key b) offset :: block_index bs (offset + zlen (data_of b))
  end.

(** [blocks] cuts [rows] into non-empty pieces. *)
Definition blocks_of (blocks : list (list row)) (rows : list row) : Prop :=
  concat blocks = rows /\ Forall (fun b => b <> []) blocks.

Lemma length_block_index bs off : length (block_index bs off) = length bs.
Proof. revert off. induction bs; intros; simpl; auto. Qed.

Lemma block_index_lookup bs off i :
  block_index bs off !! i =
    (fun b => mkIndexEntry (head_key b) (off + zlen (data_of (concat (take i bs))))) <$> bs !! i.
Proof.
  revert off i. induction bs as [|b bs IH]; intros off i; [done|].
  destruct i as [|i]; cbn [block_index lookup list_lookup fmap option_fmap option_map take concat].
  - change (zlen (data_of [])) with 0. by rewrite Z.add_0_r.
  - rewrite IH. destruct (bs !! i); cbn; [|done]. do 2 f_equal.
    rewrite data_of_app, zlen_app. lia.
Qed.

Lemma block_index_snoc bs b off :
  block_index (bs ++ [b]) off =
    block_index bs off ++ [mkIndexEntry (head_key b) (off + zlen (data_of (concat bs)))].
Proof.
  revert off. induction bs as [|a bs IH]; intros off; cbn [app block_index concat].
  - change (zlen (data_of [])) with 0. by rewrite Z.add_0_r.
  - rewrite IH, data_of_app, zlen_app. by rewrite Z.add_assoc.
Qed.

(** [upper_bound] on a sorted index finds the partition point. *)
Definition index_sorted (index : list IndexEntry) : Prop :=
  forall i j e f, (i < j)%nat -> index !! i = Some e -> index !! j = Some f ->
    bytes_lt (ie_key e) (ie_key f).

Lemma upper_bound_spec fuel index key first len :
  index_sorted index -> (len < fuel)%nat -> (first + len <= length index)%nat ->
  (forall i e, (i < first)%nat -> index !! i = Some e -> ~ bytes_lt key (ie_key e)) ->
  (forall i e, (first + len <= i)%nat -> index !! i = Some e -> bytes_lt key (ie_key e)) ->
  let n := upper_bound fuel index key first len in
  (n <= length index)%nat /\
  (forall i e, (i < n)%nat -> index !! i = Some e -> ~ bytes_lt key (ie_key e)) /\
  (forall i e, (n <= i)%nat -> index !! i = Some e -> bytes_lt key (ie_key e)).
Proof.
  intros Hs. revert first len. induction fuel as [|fuel IH]; intros first len Hf Hl Hlo Hhi; [lia|].
  cbn [upper_bound]. destruct len as [|len].
  { rewrite Nat.add_0_r in *. auto with lia. }
  pose proof (Nat.lt_div2 (S len) ltac:(lia)) as Hd. set (half := Nat.div2 (S len)) in *.
  destruct (lookup_lt_is_Some_2 index (first + half)) as [e He]; [lia|]. rewrite He.
  destruct (bytes_ltb key (ie_key e)) eqn:Hlt.
  - apply bytes_ltb_lt in Hlt. apply IH; [lia|lia|done|].
    intros i f Hi Hf'. destruct (decide (i = first + half)%nat) as [->|]; [congruence|].
    transitivity (ie_key e); [done|]. apply (Hs (first + half)%nat i e f); [lia|done|done].
  - apply IH; [lia|lia| |].
    + intros i f Hi Hf' Hc. assert (~ bytes_lt key (ie_key e)) as Hn
        by (rewrite <- bytes_ltb_lt; by rewrite Hlt).
      destruct (decide (i = first + half)%nat) as [->|]; [congruence|].
      apply Hn. transitivity (ie_key f); [done|]. apply (Hs i (first + half)%nat f e); [lia|done|done].
    + intros i f Hi. apply Hhi. lia.
Qed.

(** Rows in different blocks are in order. *)
Lemma blocks_key_lt (bs : list (list row)) i j b c x y :
  sm_sorted (concat bs) -> (i < j)%nat -> bs !! i = Some b -> bs !! j = Some c ->
  x ∈ b -> y ∈ c -> bytes_lt x.1 y.1.
Proof.
  intros Hs Hij Hb Hc Hx Hy.
  rewrite <- (take_drop_middle bs i b Hb) in Hs. rewrite concat_app in Hs. cbn [concat] in Hs.
  apply sm_sorted_app in Hs as (_ & Hs & _). apply sm_sorted_app in Hs as (_ & _ & Hs).
  apply (Hs x y); [done|]. apply list_elem_of_In, in_concat. exists c.
  split; [|by apply list_elem_of_In]. apply list_elem_of_In.
  apply list_elem_of_lookup. exists (j - S i)%nat. rewrite lookup_drop.
  by replace (S i + (j - S i))%nat with j by lia.
Qed.

Lemma head_key_elem b : b <> [] -> exists x, x ∈ b /\ x.1 = head_key b.
Proof. destruct b as [|x b]; [done|]. intros _. exists x. split; [left|done]. Qed.

Lemma block_index_sorted bs rows off :
  blocks_of bs rows -> sm_sorted rows -> index_sorted (block_index bs off).
Proof.
  intros [<- Hne] Hs i j e f Hij. rewrite !block_index_lookup. rewrite Forall_lookup in Hne.
  destruct (bs !! i) as [b|] eqn:Hb; [|done]. destruct (bs !! j) as [c|] eqn:Hc; [|done].
  intros [= <-] [= <-]. cbn [ie_key].
  destruct (head_key_elem b (Hne _ _ Hb)) as (x & Hx & <-).
  destruct (head_key_elem c (Hne _ _ Hc)) as (y & Hy & <-).
  by eapply blocks_key_lt.
Qed.

(** The head of a block is its least key. *)
Lemma head_key_le b x : sm_sorted b -> x ∈ b -> x.1 = head_key b \/ bytes_lt (head_key b) x.1.
Proof.
  destruct b as [|y b]; [by intros _ ?%elem_of_nil|].
  intros [Hall _]%sm_sorted_cons [->|Hx]%elem_of_cons; [by left|right].
  rewrite Forall_forall in Hall. by apply Hall.
Qed.

(** ** Lookups *)

(** [t], open in [w], serves [rows]: the data block is their encoding, the index
    cuts it into blocks, and the filter has no false negative on their keys. *)
Record table_rep (w : world) (t : Sstable) (rows : list row) : Prop := mkTableRep {
  rep_rows : Forall row_ok rows;
  rep_sorted : sm_sorted rows;
  rep_data : exists tail, contents w (fd_ t) = data_of rows ++ tail;
  rep_end : data_end_ t = zlen (data_of rows);
  rep_index : exists blocks, blocks_of blocks rows /\ index_ t = block_index blocks 0;
  rep_bloom : forall k e, (k, e) ∈ rows -> may_contain (bloom_ t) k = true
}.

Lemma block_sorted (bs : list (list row)) i b :
  sm_sorted (concat bs) -> bs !! i = Some b -> sm_sorted b.
Proof.
  intros Hs Hb. rewrite <- (take_drop_middle bs i b Hb), concat_app in Hs. cbn [concat] in Hs.
  apply sm_sorted_app in Hs as (_ & Hs & _). by apply sm_sorted_app in Hs as (? & _).
Qed.

(** No block from the [i]-th on can hold a key below the head of the [i]-th. *)
Lemma find_before (bs : list (list row)) i key :
  sm_sorted (concat bs) -> Forall (fun b => b <> []) bs ->
  (forall c, bs !! i = Some c -> bytes_lt key (head_key c)) ->
  sm_find key (concat (drop i bs)) = None.
Proof.
  intros Hs Hne Hlt. rewrite Forall_lookup in Hne. apply sm_find_None. intros e He.
  apply list_elem_of_In, in_concat in He as (c & Hc & Hin).
  apply list_elem_of_In, list_elem_of_lookup in Hc as (j & Hj). rewrite lookup_drop in Hj.
  apply list_elem_of_In in Hin.
  destruct (lookup_lt_is_Some_2 bs i) as [d Hd]; [apply lookup_lt_Some in Hj; lia|].
  specialize (Hlt d Hd). destruct j as [|j].
  - rewrite Nat.add_0_r, Hd in Hj. simplify_eq.
    destruct (head_key_le c (key, e) (block_sorted _ _ _ Hs Hd) Hin) as [Heq|Hlt'].
    + cbn in Heq. subst key. by apply bytes_lt_ne in Hlt.
    + by apply bytes_lt_asym in Hlt.
  - destruct (head_key_elem d (Hne _ _ Hd)) as (y & Hy & Hyk).
    assert (bytes_lt y.1 key) as Hl.
    { apply (blocks_key_lt bs i (i + S j) d c y (key, e)); [done|lia|done..]. }
    rewrite Hyk in Hl. by apply bytes_lt_asym in Hlt.
Qed.

(** The one block a key can be in. *)
Lemma find_in_block (bs : list (list row)) slot b key :
  sm_sorted (concat bs) -> Forall (fun b => b <> []) bs -> bs !! slot = Some b ->
  ~ bytes_lt key (head_key b) ->
  (forall c, bs !! S slot = Some c -> bytes_lt key (head_key c)) ->
  sm_find key (concat bs) = sm_find key b.
Proof.
  intros Hs Hne Hb Hge Hlt. pose proof (find_before bs (S slot) key Hs Hne Hlt) as Hafter.
  rewrite Forall_lookup in Hne.
  rewrite <- (take_drop_middle bs slot b Hb) in Hs |- *. rewrite concat_app in Hs |- *.
  cbn [concat] in Hs |- *. apply sm_sorted_app in Hs as (_ & _ & Hbefore).
  rewrite !sm_find_app, Hafter.
  destruct (head_key_elem b (Hne _ _ Hb)) as (hd & Hhd & Hhk).
  destruct (sm_find key (concat (take slot bs))) as [e|] eqn:Hf; [|by destruct (sm_find key b)].
  exfalso. apply sm_find_elem in Hf. apply Hge. rewrite <- Hhk.
  apply (Hbefore (key, e) hd Hf). apply elem_of_app. by left.
Qed.

(** Where a block lies in the data. *)
Lemma block_extent bs rows i b tail :
  blocks_of bs rows -> bs !! i = Some b ->
  let from := zlen (data_of (concat (take i bs))) in
  let to := match block_index bs 0 !! S i with
            | Some e => ie_offset e
            | None => zlen (data_of rows)
            end in
  to - from = zlen (data_of b) /\ to <= zlen (data_of rows) /\
  substr (data_of rows ++ tail) from (zlen (data_of b)) = data_of b.
Proof.
  intros [<- Hne] Hb from to.
  assert (data_of (concat bs) = data_of (concat (take i bs)) ++ data_of b ++
            data_of (concat (drop (S i) bs))) as Hsplit.
  { rewrite <- (take_drop_middle bs i b Hb) at 1. rewrite concat_app. cbn [concat].
    by rewrite !data_of_app. }
  split; [|split].
  - unfold to. rewrite block_index_lookup. destruct (bs !! S i) as [c|] eqn:Hc; cbn.
    + rewrite (take_S_r bs i b Hb), concat_app, data_of_app, zlen_app. cbn [concat].
      rewrite app_nil_r. unfold from. lia.
    + assert (drop (S i) bs = []) as Hd by (apply drop_ge, lookup_ge_None; done).
      rewrite Hsplit, Hd, !zlen_app. change (zlen (data_of (concat []))) with 0. unfold from. lia.
  - unfold to. rewrite block_index_lookup. destruct (bs !! S i) as [c|] eqn:Hc; cbn; [|lia].
    rewrite <- (take_drop (S i) bs) at 2. rewrite concat_app, data_of_app, zlen_app. zlia.
  - rewrite Hsplit, <- !app_assoc. by apply substr_app_mid.
Qed.

(** The index search: no block, or the block the key can only be in. *)
Lemma index_search bs key :
  sm_sorted (concat bs) -> Forall (fun b => b <> []) bs ->
  match upper_bound (S (length bs)) (block_index bs 0) key 0 (length bs) with
  | O => sm_find key (concat bs) = None
  | S slot => exists b, bs !! slot = Some b /\ sm_find key (concat bs) = sm_find key b
  end.
Proof.
  intros Hs Hne.
  destruct (upper_bound_spec (S (length bs)) (block_index bs 0) key 0 (length bs))
    as (Hn & Hlo & Hhi).
  { by apply (block_index_sorted bs (concat bs)). }
  { lia. }
  { by rewrite length_block_index. }
  { intros; lia. }
  { intros i e Hi He%lookup_lt_Some. rewrite length_block_index in He. lia. }
  assert (forall i c, (upper_bound (S (length bs)) (block_index bs 0) key 0 (length bs) <= i)%nat ->
    bs !! i = Some c -> bytes_lt key (head_key c)) as Hhi'.
  { intros i c Hi Hc. specialize (Hhi i). rewrite block_index_lookup, Hc in Hhi.
    by apply (Hhi _ Hi eq_refl). }
  destruct (upper_bound _ _ _ _ _) as [|slot].
  - rewrite <- (drop_0 bs) at 1. apply find_before; [done|done|]. intros c. apply Hhi'. lia.
  - rewrite length_block_index in Hn. destruct (lookup_lt_is_Some_2 bs slot) as [b Hb]; [lia|].
    exists b. split; [done|]. apply (find_in_block bs slot); [done..| |intros c; by apply Hhi'].
    specialize (Hlo slot). rewrite block_index_lookup, Hb in Hlo. by apply (Hlo _ ltac:(lia) eq_refl).
Qed.

Lemma concat_block_ok (bs : list (list row)) i b :
  Forall row_ok (concat bs) -> Forall (fun b => b <> []) bs -> bs !! i = Some b ->
  Forall row_ok b /\ 0 < zlen (data_of b).
Proof.
  intros Hok Hne Hb. rewrite Forall_lookup in Hne. specialize (Hne _ _ Hb).
  rewrite <- (take_drop_middle bs i b Hb), concat_app in Hok. cbn [concat] in Hok.
  apply Forall_app in Hok as [_ [Hok _]%Forall_app]. split; [done|].
  destruct Hok as [|x b Hx _]; [done|].
  rewrite data_of_cons, zlen_app. pose proof (row_buf_pos x Hx). zlia.
Qed.

(** What [get] does, whatever the kernel answers. *)
Definition get_post (E : env) (w : world) (t : Sstable) (rows : list row) (key : bytes)
    (r : res Lookup) (w' : world) : Prop :=
  same_files w w' /\
  match r with
  | Ret l => l = lookup_of (sm_find key rows) \/ l = Lookup_none /\ Fail ∈ answers E w
  | Throw _ => False
  | Dead => ~ reliable E (length (contents w (fd_ t)))
  end.

Lemma get_ticks E t key : tick_mono (get E t key).
Proof.
  assert (forall A (o : option A), tick_mono (checked o)) as Hc.
  { intros A [a|]; [apply tick_mono_ret|apply tick_mono_throw]. }
  unfold get. repeat case_match; try apply tick_mono_ret.
  all: apply tick_mono_bind; [apply Hc|]; intros from; case_match; [apply tick_mono_ret|];
    apply tick_mono_bind; [apply tick_mono_read_exact|]; intros []; [apply Hc|apply tick_mono_ret].
Qed.

Lemma wp_get E t key w rows :
  table_rep w t rows -> wp (get E t key) (get_post E w t rows key) w.
Proof.
  intros [Hok Hs (tail & Hdata) Hend (bs & Hbs & Hix) Hbloom]. unfold get.
  destruct (use_bloom_ t && negb (may_contain (bloom_ t) key)) eqn:Hf.
  { apply wp_ret. split; [done|]. left. apply andb_prop in Hf as [_ Hf].
    destruct (sm_find key rows) as [e|] eqn:Hk; [|done].
    apply sm_find_elem, Hbloom in Hk. by rewrite Hk in Hf. }
  rewrite Hix, length_block_index. pose proof Hbs as [Hcat Hne]. rewrite <- Hcat in Hs, Hok.
  destruct (decide (length bs = 0%nat)) as [Hz|Hz].
  { apply wp_ret. split; [done|]. left. destruct bs; [|done]. by rewrite <- Hcat. }
  pose proof (index_search bs key Hs Hne) as Hfind. rewrite Hcat in Hfind.
  destruct (upper_bound _ _ _ _ _) as [|slot].
  { apply wp_ret. split; [done|]. left. by rewrite Hfind. }
  destruct Hfind as (b & Hb & Hfind).
  destruct (block_extent bs rows slot b tail Hbs Hb) as (Hlen & Hle & Hsub).
  destruct (concat_block_ok bs slot b Hok Hne Hb) as [Hbok Hpos].
  rewrite <- Hend in Hlen, Hle.
  rewrite (block_index_lookup _ _ slot), Hb. cbn [fmap option_fmap option_map checked].
  apply wp_bind, wp_ret. cbn [ie_offset]. rewrite Z.add_0_l.
  set (to := match block_index bs 0 !! S slot with Some e => ie_offset e | None => data_end_ t end) in *.
  rewrite (proj2 (Z.leb_gt _ _)) by lia. rewrite Hlen.
  apply wp_bind, wp_read_exact; [zlia| | |].
  - intros w' Hw _. rewrite Hdata, Hsub.
    pose proof (scan_block_rows (S (length (data_of b))) [] b key Hbok) as Hscan.
    rewrite app_nil_l in Hscan. change (zlen (@nil byte)) with 0 in Hscan.
    rewrite Hscan; [|by eapply block_sorted|].
    + split; [done|]. left. by rewrite Hfind.
    + pose proof (length_data_of b Hbok). lia.
  - intros w' Hw [?|Hshort]; [apply wp_ret; by split; [|right]|].
    rewrite Hdata, zlen_app in Hshort. zlia.
  - intros w' Hw Hrel. split; [done|]. contradict Hrel.
    eapply reliable_mono; [|done]. rewrite Hdata, length_app. rewrite zlen_to_nat.
    rewrite Hend in Hle. unfold zlen in Hle, Hlen. lia.
Qed.

(** ** Opening *)

(** The image of a table that holds [rows]. *)
Definition table_image (bs : list (list row)) (rows : list row) (bits_per_key : Z) : bytes :=
  let index := index_block (block_index bs 0) in
  data_of rows ++ index ++ build (rows.*1) bits_per_key ++
  footer_block (zlen (data_of rows)) (zlen (data_of rows) + zlen index) (zlen rows).

(** Sizes that fit the fields of the format. *)
Definition fits (rows : list row) : Prop :=
  zlen rows < 2 ^ 32 /\ zlen (data_of rows) < 2 ^ 62.

Definition is_table (rows : list row) (data : bytes) : Prop :=
  Forall row_ok rows /\ sm_sorted rows /\ fits rows /\
  exists bs bits_per_key, blocks_of bs rows /\ data = table_image bs rows bits_per_key.

Definition index_buf (e : IndexEntry) : bytes :=
  le_bytes 4 (u32 (zlen (ie_key e))) ++ ie_key e ++ le_bytes 8 (ie_offset e).

Lemma index_block_eq index :
  index_block index = le_bytes 4 (u32 (zlen index)) ++ concat (index_buf <$> index).
Proof.
  unfold index_block. rewrite sst_put_u32_le, app_nil_l.
  generalize (le_bytes 4 (u32 (zlen index))). induction index as [|e index IH]; intros out; simpl.
  - by rewrite app_nil_r.
  - rewrite IH, sst_put_u64_le, sst_put_u32_le. unfold index_buf. by rewrite <- !app_assoc.
Qed.

Lemma footer_block_eq a b c :
  footer_block a b c = le_bytes 8 a ++ le_bytes 8 b ++ le_bytes 8 (u64 c) ++ kMagic.
Proof. unfold footer_block. by rewrite !sst_put_u64_le, app_nil_l, <- !app_assoc. Qed.

Lemma zlen_footer_block a b c : zlen (footer_block a b c) = 32.
Proof. rewrite footer_block_eq, !zlen_app, !zlen_le_bytes. done. Qed.

Lemma length_footer_block a b c : length (footer_block a b c) = 32%nat.
Proof. pose proof (zlen_footer_block a b c) as H. unfold zlen in H. lia. Qed.

(** An index block read back. *)
Definition index_entry_ok (data_end : Z) (e : IndexEntry) : Prop :=
  zlen (ie_key e) < 2 ^ 32 /\ is_u64 (ie_offset e) /\ ie_offset e <= data_end.

Lemma read_index_step n e pre rest data_end acc :
  index_entry_ok data_end e ->
  read_index (S n) (pre ++ index_buf e ++ rest) (zlen pre) data_end acc =
    read_index n (pre ++ index_buf e ++ rest) (zlen (pre ++ index_buf e)) data_end (acc ++ [e]).
Proof.
  intros (Hk & Ho & Hle). set (kl := le_bytes 4 (zlen (ie_key e))).
  assert (index_buf e = kl ++ ie_key e ++ le_bytes 8 (ie_offset e)) as Hbuf.
  { unfold index_buf, kl. by rewrite u32_id by (unfold is_u32; zlia). }
  assert (zlen kl = 4) as Hkl by apply zlen_le_bytes.
  assert (zlen (index_buf e) = 4 + zlen (ie_key e) + 8) as Hlen
    by (rewrite Hbuf, !zlen_app, Hkl, zlen_le_bytes; lia).
  cbn [read_index]. rewrite (proj2 (Z.ltb_ge _ _)) by zlia.
  rewrite zlen_to_nat, drop_app_length, Hbuf, <- !app_assoc.
  unfold kl at 1. rewrite sst_load_put_u32 by (unfold is_u32; zlia).
  rewrite (proj2 (Z.ltb_ge _ _)) by zlia.
  replace (zlen pre + 4 + zlen (ie_key e)) with (zlen (pre ++ kl ++ ie_key e)) by zlia.
  rewrite zlen_to_nat.
  assert (pre ++ kl ++ ie_key e ++ le_bytes 8 (ie_offset e) ++ rest =
          (pre ++ kl ++ ie_key e) ++ le_bytes 8 (ie_offset e) ++ rest) as Hsplit
    by (by rewrite <- !app_assoc).
  rewrite Hsplit at 1. rewrite drop_app_length, sst_load_put_u64 by done.
  rewrite (proj2 (Z.ltb_ge _ _)) by done. f_equal.
  - rewrite !zlen_app, zlen_le_bytes. lia.
  - do 2 f_equal. destruct e as [k o]. cbn [ie_key ie_offset] in *. f_equal.
    rewrite app_assoc. apply substr_app_mid. zlia.
Qed.

Lemma read_index_entries index pre data_end acc :
  Forall (index_entry_ok data_end) index ->
  read_index (length index) (pre ++ concat (index_buf <$> index)) (zlen pre) data_end acc =
    IndexOk (acc ++ index).
Proof.
  intros Hok. revert pre acc. induction Hok as [|e index He _ IH]; intros pre acc.
  - cbn. by rewrite app_nil_r.
  - cbn [length fmap list_fmap concat]. rewrite read_index_step by done.
    rewrite app_assoc, IH. by rewrite <- app_assoc.
Qed.

Lemma block_index_ok bs rows :
  Forall row_ok rows -> blocks_of bs rows -> fits rows ->
  Forall (index_entry_ok (zlen (data_of rows))) (block_index bs 0).
Proof.
  intros Hok [<- Hne] [_ Hfit]. apply Forall_lookup. intros i e He.
  rewrite block_index_lookup in He. destruct (bs !! i) as [b|] eqn:Hb; [|done].
  injection He as <-. cbn [ie_key ie_offset].
  assert (zlen (data_of (concat bs)) =
    zlen (data_of (concat (take i bs))) + zlen (data_of (concat (drop i bs)))) as Hlen.
  { rewrite <- zlen_app, <- data_of_app, <- concat_app, take_drop. done. }
  destruct (concat_block_ok bs i b Hok Hne Hb) as [Hbok _].
  rewrite Forall_lookup in Hne. specialize (Hne _ _ Hb). split_and!; cbn [ie_key ie_offset].
  - destruct Hbok as [|x b (Hk & _)]; [done|]. exact Hk.
  - unfold is_u64. zlia.
  - zlia.
Qed.

(** Cutting the rows gives no more blocks than rows. *)
Lemma blocks_count bs rows : blocks_of bs rows -> (length bs <= length rows)%nat.
Proof.
  intros [<- Hne]. induction Hne as [|b bs Hb _ IH]; [simpl; lia|]. simpl.
  rewrite length_app. destruct b; [done|]. simpl. lia.
Qed.

Lemma zlen_index_block bs rows :
  Forall row_ok rows -> blocks_of bs rows ->
  4 <= zlen (index_block (block_index bs 0)) <= 4 + 12 * zlen rows + zlen (data_of rows).
Proof.
  intros Hok [<- Hne]. rewrite index_block_eq, zlen_app, zlen_le_bytes. split; [zlia|].
  assert (forall off, zlen (concat (index_buf <$> block_index bs off)) <=
    12 * zlen (concat bs) + zlen (data_of (concat bs))) as Hall; [|specialize (Hall 0); lia].
  induction Hne as [|b bs Hb _ IH]; intros off; [done|].
  cbn [concat] in *. apply Forall_app in Hok as [Hokb Hok].
  cbn [block_index fmap list_fmap concat]. rewrite data_of_app, !zlen_app.
  destruct Hokb as [|x b Hx Hokb]; [done|]. rewrite data_of_cons, zlen_app.
  pose proof (zlen_row_buf x Hx). unfold index_buf at 1. cbn [head_key ie_key ie_offset].
  pose proof (IH Hok (off + (zlen (row_buf x) + zlen (data_of b)))). zlia.
Qed.

(** What [Sstable_open] comes to on the image of a table. *)
Definition open_post (E : env) (w : world) (path : bytes) (i : nat) (use_bloom : bool)
    (rows : list row) (r : res Sstable) (w' : world) : Prop :=
  same_files w w' /\
  match r with
  | Ret t => table_rep w' t rows /\ fd_ t = i /\ path_ t = path /\
             use_bloom_ t = use_bloom /\ entry_count_ t = zlen rows
  | _ => ~ reliable E (length (contents w i))
  end.

Lemma footer_loads a b c :
  is_u64 a -> is_u64 b -> is_u64 c ->
  let f := footer_block a b c in
  SstEndian.load_u64 f = Some a /\ SstEndian.load_u64 (drop 8 f) = Some b /\
  SstEndian.load_u64 (drop 16 f) = Some c /\ take 8 (drop 24 f) = kMagic.
Proof.
  intros Ha Hb Hc f. unfold f. rewrite footer_block_eq, (u64_id c) by done. split_and!.
  - by apply sst_load_put_u64.
  - rewrite drop_app_exact by apply length_le_bytes. by apply sst_load_put_u64.
  - rewrite (drop_app_plus 8 8), drop_app_exact by apply length_le_bytes. by apply sst_load_put_u64.
  - rewrite (drop_app_plus 8 16), (drop_app_plus 8 8), drop_app_exact by apply length_le_bytes. done.
Qed.

Lemma index_block_loads bs rows :
  Forall row_ok rows -> blocks_of bs rows -> fits rows ->
  let block := index_block (block_index bs 0) in
  SstEndian.load_u32 block = Some (zlen bs) /\
  read_index (length bs) block 4 (zlen (data_of rows)) [] = IndexOk (block_index bs 0).
Proof.
  intros Hok Hbs Hfit block. pose proof (blocks_count _ _ Hbs) as Hcount.
  assert (block = le_bytes 4 (zlen bs) ++ concat (index_buf <$> block_index bs 0)) as ->.
  { unfold block. rewrite index_block_eq. unfold zlen at 1. rewrite length_block_index.
    rewrite u32_id; [done|]. destruct Hfit. unfold is_u32, zlen in *. lia. }
  split.
  - apply sst_load_put_u32. destruct Hfit. unfold is_u32, zlen in *. lia.
  - rewrite <- (length_block_index bs 0) at 1.
    replace 4 with (zlen (le_bytes 4 (zlen bs))) at 2 by apply zlen_le_bytes.
    rewrite read_index_entries; [done|by apply block_index_ok].
Qed.

Lemma table_image_rep w t bs rows bpk :
  Forall row_ok rows -> sm_sorted rows -> blocks_of bs rows ->
  contents w (fd_ t) = table_image bs rows bpk -> data_end_ t = zlen (data_of rows) ->
  index_ t = block_index bs 0 -> bloom_ t = build (rows.*1) bpk -> table_rep w t rows.
Proof.
  intros Hok Hs Hbs Hc Hend Hix Hbl. constructor; auto.
  - by eexists.
  - by exists bs.
  - intros k e Hin. rewrite Hbl. apply no_false_negative. apply list_elem_of_fmap.
    by exists (k, e).
Qed.

(** The four parts of a file of data, index, filter and footer. *)
Lemma image_slices (file D I B F : bytes) :
  file = D ++ I ++ B ++ F -> zlen F = 32 ->
  zlen file = zlen D + zlen I + zlen B + 32 /\ substr file (zlen D) (zlen I) = I /\
  substr file (zlen D + zlen I) (zlen B) = B /\ substr file (zlen D + zlen I + zlen B) 32 = F.
Proof.
  intros -> HF. split_and!.
  - rewrite !zlen_app. lia.
  - by apply substr_app_mid.
  - rewrite app_assoc. apply substr_app_mid. by rewrite zlen_app.
  - pose proof (substr_app_mid (D ++ I ++ B) F [] (zlen D + zlen I + zlen B)) as H.
    rewrite HF, app_nil_r, <- !app_assoc in H. apply H. rewrite !zlen_app. lia.
Qed.

Lemma wp_Sstable_open E path use_bloom w i rows :
  dir w !! path = Some i -> is_table rows (contents w i) ->
  wp (Sstable_open E path use_bloom) (open_post E w path i use_bloom rows) w.
Proof.
  intros Hdir (Hok & Hs & Hfit & bs & bpk & Hbs & Himg).
  assert (forall (r : res Sstable) w1, same_files w w1 -> match r with Ret _ => False | _ => True end ->
    ~ reliable E (length (contents w i)) -> open_post E w path i use_bloom rows r w1) as Hfail.
  { intros [] w1 Hw1 Hr Hrel; [done|by split..]. }
  assert (~ reliable E 0 -> ~ reliable E (length (contents w i))) as Hr0.
  { intros H. contradict H. eapply reliable_mono; [|done]. lia. }
  pose proof (zlen_index_block bs rows Hok Hbs) as HI.
  destruct (index_block_loads bs rows Hok Hbs Hfit) as [Hcount Hread].
  destruct Hfit as [Hrows Hdata]. pose proof (zlen_nonneg (data_of rows)) as HD.
  destruct (footer_loads (zlen (data_of rows))
    (zlen (data_of rows) + zlen (index_block (block_index bs 0))) (zlen rows))
    as (Hf1 & Hf2 & Hf3 & Hf4); [unfold is_u64; zlia..|].
  unfold table_image in Himg. fold (data_of rows) in *.
  set (D := data_of rows) in *. set (I := index_block (block_index bs 0)) in *.
  set (B := build rows.*1 bpk) in *. set (F := footer_block _ _ _) in *.
  assert (zlen F = 32) as HF by apply zlen_footer_block.
  destruct (image_slices _ D I B F Himg HF) as (Hsize & HsI & HsB & HsF).
  unfold Sstable_open. apply wp_bind, wp_open_existing.
  2: { intros r w1 Hw1 [->| ->] Hrel; [apply wp_throw|]; apply Hfail; auto. }
  intros w1 Hw1. rewrite Hdir. apply wp_bind, wp_lseek_end.
  2: { intros r w2 Hw2 [->| ->] Hrel; [apply wp_throw|]; (apply Hfail; [by etransitivity|done|auto]). }
  intros w2 Hw2. assert (contents w1 i = contents w i) as -> by (by rewrite <- Hw1).
  rewrite Hsize. assert (same_files w w2) as Hw by (by etransitivity).
  unfold kFooterSize. rewrite (proj2 (Z.ltb_ge _ _)) by zlia.
  replace (zlen D + zlen I + zlen B + 32 - 32) with (zlen D + zlen I + zlen B) by lia.
  apply wp_bind, (wp_read_known E w _ _ _ F); [done|zlia|lia|done| |].
  2: { intros r w3 Hw3 [->| ->] Hrel; [apply wp_throw|]; by apply Hfail. }
  intros w3 Hw3. rewrite Hf4, bool_decide_true by done. cbn [negb andb].
  rewrite Hf1, Hf2, Hf3. cbn [checked]. do 3 apply wp_bind, wp_ret.
  rewrite (proj2 (Z.ltb_ge (zlen D + zlen I) (zlen D))),
    (proj2 (Z.ltb_ge (zlen D + zlen I + zlen B) (zlen D + zlen I))) by zlia. cbn [orb].
  replace (zlen D + zlen I - zlen D) with (zlen I) by lia.
  apply wp_bind, (wp_read_known E w _ _ _ I); [done|done|zlia|done| |].
  2: { intros r w4 Hw4 [->| ->] Hrel; [apply wp_throw|]; by apply Hfail. }
  intros w4 Hw4. rewrite (proj2 (Z.ltb_ge _ _)) by lia. rewrite Hcount. cbn [checked].
  apply wp_bind, wp_ret. rewrite zlen_to_nat, Hread.
  replace (zlen D + zlen I + zlen B - (zlen D + zlen I)) with (zlen B) by lia.
  apply wp_bind, (wp_read_known E w _ _ _ B); [done|zlia|lia|done| |].
  2: { intros r w5 Hw5 [->| ->] Hrel; [apply wp_throw|]; by apply Hfail. }
  intros w5 Hw5. apply wp_ret. split; [done|]. split; [|done].
  apply (table_image_rep _ _ bs _ bpk); try done. cbn [fd_]. by rewrite <- Hw5.
Qed.

(** ** Writing a table *)

(** A writer that has put [rows] into its file, and nothing else. *)
Record writer_rep (w : world) (wr : SstableWriter) (rows : list row) : Prop := mkWriterRep {
  wrep_ok : sw_failed wr = false /\ sw_finished wr = false;
  wrep_data : contents w (sw_fd wr) = data_of rows;
  wrep_offset : sw_offset wr = zlen (data_of rows);
  wrep_count : sw_entry_count wr = zlen rows;
  wrep_keys : sw_bloom_keys wr = rows.*1;
  wrep_index : exists bs, blocks_of bs rows /\ sw_index wr = block_index bs 0
}.

Lemma blocks_of_new bs rows x : blocks_of bs rows -> blocks_of (bs ++ [[x]]) (rows ++ [x]).
Proof.
  intros [<- Hne]. split; [by rewrite concat_app|]. apply Forall_app. split; [done|].
  by repeat constructor.
Qed.

Lemma blocks_of_extend bs b rows x :
  blocks_of (bs ++ [b]) rows -> blocks_of (bs ++ [b ++ [x]]) (rows ++ [x]) /\
    block_index (bs ++ [b ++ [x]]) 0 = block_index (bs ++ [b]) 0.
Proof.
  intros [<- [Hne Hb]%Forall_app]. inversion Hb; subst. split; [split|].
  - rewrite !concat_app. cbn [concat]. by rewrite !app_nil_r, app_assoc.
  - apply Forall_app. split; [done|]. constructor; [by destruct b|done].
  - rewrite !block_index_snoc. by destruct b.
Qed.

(** The index the writer keeps still cuts the rows into blocks after one more. *)
Lemma note_index_spec wr x rows :
  sw_offset wr = zlen (data_of rows) ->
  (exists bs, blocks_of bs rows /\ sw_index wr = block_index bs 0) ->
  exists bs, blocks_of bs (rows ++ [x]) /\ sw_index (note_index wr x.1) = block_index bs 0.
Proof.
  intros Hoff (bs & Hbs & Hix). unfold note_index. case_match eqn:Hcond.
  - exists (bs ++ [[x]]). split; [by apply blocks_of_new|].
    rewrite block_index_snoc. cbn [sw_index head_key]. rewrite Hix, Hoff.
    destruct Hbs as [-> _]. by rewrite Z.add_0_l.
  - apply orb_false_iff in Hcond as [Hne _]. apply bool_decide_eq_false in Hne.
    rewrite Hix, length_block_index in Hne.
    destruct (decide (bs = [])) as [->|Hbs0]; [done|].
    destruct (exists_last Hbs0) as (bs' & b & ->).
    destruct (blocks_of_extend _ _ _ x Hbs) as [Hb' Hi']. exists (bs' ++ [b ++ [x]]).
    split; [done|]. by rewrite Hix, Hi'.
Qed.

Lemma note_index_fields wr k :
  sw_fd (note_index wr k) = sw_fd wr /\ sw_offset (note_index wr k) = sw_offset wr /\
  sw_entry_count (note_index wr k) = sw_entry_count wr /\ sw_failed (note_index wr k) = sw_failed wr /\
  sw_finished (note_index wr k) = sw_finished wr /\ sw_bloom_keys (note_index wr k) = sw_bloom_keys wr /\
  sw_bits_per_key (note_index wr k) = sw_bits_per_key wr.
Proof. unfold note_index. by case_match. Qed.

(** What the writer is after an [add]: one more row, or failed for good. *)
Definition add_post (E : env) (w : world) (wr : SstableWriter) (rows : list row)
    (r : res SstableWriter) (w' : world) : Prop :=
  frame (sw_fd wr) w w' /\
  match r with
  | Ret wr' => sw_fd wr' = sw_fd wr /\ sw_bits_per_key wr' = sw_bits_per_key wr /\
      (writer_rep w' wr' rows \/ sw_failed wr' = true /\ ~ reliable E (length (data_of rows)))
  | Throw _ => False
  | Dead => ~ reliable E (length (data_of rows))
  end.

Lemma wp_add E wr x rows w :
  writer_rep w wr rows -> row_ok x -> fits (rows ++ [x]) ->
  wp (add E wr x.1 (value x.2) (tombstone x.2) (expires_at_ms x.2))
     (add_post E w wr (rows ++ [x])) w.
Proof.
  intros [[Hfail Hfin] Hdata Hoff Hcount Hkeys Hix] Hx [Hrows Hlen].
  unfold add. rewrite Hfail. fold (row_buf x).
  pose proof (note_index_spec wr x rows Hoff Hix) as Hix'.
  destruct (note_index_fields wr x.1) as (F1 & F2 & F3 & F4 & F5 & F6 & F7).
  rewrite F1. rewrite data_of_snoc, zlen_app in Hlen.
  rewrite zlen_app in Hrows. change (zlen [x]) with 1 in Hrows.
  assert (~ reliable E (length (row_buf x)) ->
          ~ reliable E (length (data_of (rows ++ [x])))) as Hrel'.
  { intros H. contradict H. eapply reliable_mono; [|done]. rewrite data_of_snoc, length_app. lia. }
  apply wp_bind, wp_write_all. intros n r w' Hn Hc Hf _ [[-> ->]|[->| ->]] Hrel.
  - apply wp_ret. split; [done|]. split; [done|]. split; [done|]. left.
    rewrite take_ge in Hc by done. constructor; cbn.
    + by rewrite F4, F5.
    + by rewrite Hc, Hdata, data_of_snoc.
    + rewrite F2, Hoff, u64_id, data_of_snoc by (unfold is_u64; zlia). by rewrite zlen_app.
    + rewrite F3, Hcount, zlen_app. change (zlen [x]) with 1.
      rewrite u64_id; [done|]. unfold is_u64. zlia.
    + by rewrite F6, Hkeys, fmap_app.
    + done.
  - apply wp_ret. split; [done|]. split; [done|]. split; [done|]. right. auto.
  - split; [done|]. auto.
Qed.

(** [finish] of a writer in order makes a durable table of its rows. *)
Definition finish_post (E : env) (w : world) (wr : SstableWriter) (rows : list row)
    (r : res (bool * SstableWriter)) (w' : world) : Prop :=
  frame (sw_fd wr) w w' /\
  match r with
  | Ret (true, _) => durable w' (sw_fd wr) /\ exists bs, blocks_of bs rows /\
      contents w' (sw_fd wr) = table_image bs rows (sw_bits_per_key wr)
  | Throw _ => False
  | _ => exists bs, blocks_of bs rows /\
           ~ reliable E (length (table_image bs rows (sw_bits_per_key wr)))
  end.

Lemma wp_finish E wr rows w :
  writer_rep w wr rows -> Forall row_ok rows -> sm_sorted rows -> fits rows ->
  wp (finish E wr) (finish_post E w wr rows) w.
Proof.
  intros [[Hfail Hfin] Hdata Hoff Hcount Hkeys (bs & Hbs & Hix)] Hok Hs Hfit.
  unfold finish. rewrite Hfail, Hfin. cbn [orb sw_fd sw_index sw_bloom_keys sw_bits_per_key sw_offset sw_entry_count].
  rewrite Hix, Hoff, Hcount, Hkeys.
  pose proof (zlen_index_block bs rows Hok Hbs) as HI. pose proof Hfit as [Hrows Hlen].
  rewrite u64_id by (unfold is_u64; zlia).
  set (img := table_image bs rows (sw_bits_per_key wr)).
  assert (forall (r : res (bool * SstableWriter)) w1,
    match r with Ret (true, _) | Throw _ => False | _ => True end ->
    frame (sw_fd wr) w w1 -> ~ reliable E (length img) -> finish_post E w wr rows r w1) as Hno.
  { intros [[[] ?]| |] w1 Hr Hf Hrel; try done; (split; [done|by exists bs]). }
  assert (forall n, (n <= length img)%nat -> ~ reliable E n -> ~ reliable E (length img)) as Hmono.
  { intros n Hn H. contradict H. by eapply reliable_mono. }
  assert (length img = length (data_of rows) + length (index_block (block_index bs 0)) +
    length (build rows.*1 (sw_bits_per_key wr)) + 32)%nat as Himg.
  { unfold img, table_image. rewrite !length_app.
    rewrite length_footer_block. lia. }
  apply wp_bind, wp_write_all. intros n1 r1 w1 Hn1 Hc1 Hf1 _ [[-> ->]|[->| ->]] Hrel1.
  2, 3: apply Hno; [done|done|eapply Hmono; [|by apply Hrel1]; lia].
  apply wp_bind, wp_write_all. intros n2 r2 w2 Hn2 Hc2 Hf2 _ [[-> ->]|[->| ->]] Hrel2.
  2, 3: apply Hno; [done|by etransitivity|eapply Hmono; [|by apply Hrel2]; lia].
  assert (frame (sw_fd wr) w w2) as Hfr2 by (by etransitivity). clear Hf1 Hf2.
  apply wp_bind, wp_write_all. intros n3 r3 w3 Hn3 Hc3 Hf3 _ [[-> ->]|[->| ->]] Hrel3.
  2, 3: apply Hno; [done|by etransitivity|eapply Hmono; [|by apply Hrel3]].
  2, 3: rewrite length_footer_block, Himg; lia.
  assert (frame (sw_fd wr) w w3) as Hfr3 by (by etransitivity). clear Hfr2 Hf3.
  rewrite !take_ge in Hc1, Hc2, Hc3 by done.
  assert (contents w3 (sw_fd wr) = img) as Hc.
  { rewrite Hc3, Hc2, Hc1, Hdata. unfold img, table_image. by rewrite <- !app_assoc. }
  apply wp_bind, wp_fsync.
  - intros w4 Hc4 Hf4 _ Hsync. apply wp_ret. split; [by etransitivity|]. split.
    + unfold durable. by rewrite Hsync, Hc4.
    + exists bs. by rewrite Hc4, Hc.
  - intros r w4 Hw4 [->| ->] Hrel; [apply wp_ret|];
      (apply Hno; [done|etransitivity; [done|auto with cachedb]|by apply (Hmono 0%nat); [lia|]]).
Qed.

(** ** Walking a table *)

(** The window is a slice of the data block, and [pos_] is where [rest] starts. *)
Record cursor_inv (w : world) (t : Sstable) (rows : list row) (c : Cursor) (rest : list row)
  : Prop := mkCursorInv {
  ci_rest : exists before, rows = before ++ rest /\ pos_ c = zlen (data_of before);
  ci_failed : failed_ c = false;
  ci_window : 0 <= buf_start_ c /\ buf_start_ c + zlen (cur_buf c) <= data_end_ t /\
    cur_buf c = substr (contents w (fd_ t)) (buf_start_ c) (zlen (cur_buf c))
}.

(** The cursor stands on the first row of [l]. *)
Definition cursor_at (w : world) (t : Sstable) (rows : list row) (c : Cursor) (l : list row) : Prop :=
  match l with
  | [] => valid_ c = false /\ cursor_inv w t rows c []
  | x :: rest =>
      valid_ c = true /\ key_ c = x.1 /\ value_ c = value x.2 /\
      tombstone_ c = tombstone x.2 /\ expires_at_ms_ c = expires_at_ms (stored x.2) /\
      cursor_inv w t rows c rest
  end.

(** The window from [pos_] on shows the file from [pos_] on. *)
Lemma window_view w t c need :
  0 <= buf_start_ c <= pos_ c -> pos_ c - buf_start_ c + need <= zlen (cur_buf c) ->
  cur_buf c = substr (contents w (fd_ t)) (buf_start_ c) (zlen (cur_buf c)) ->
  exists m, need <= Z.of_nat m /\
    drop (Z.to_nat (pos_ c - buf_start_ c)) (cur_buf c) =
      take m (drop (Z.to_nat (pos_ c)) (contents w (fd_ t))).
Proof.
  intros Hs Hn Hbuf. exists (length (cur_buf c) - Z.to_nat (pos_ c - buf_start_ c))%nat.
  split; [unfold zlen in Hn; lia|].
  rewrite Hbuf at 1. unfold substr. rewrite zlen_to_nat, skipn_firstn_comm, drop_drop.
  do 2 f_equal. lia.
Qed.

(** The outcome of [ensure] when the bytes asked for are in the data block. *)
Definition ensure_post (E : env) (w : world) (t : Sstable) (c : Cursor) (need : Z)
    (r : res (bool * Cursor)) (w' : world) : Prop :=
  same_files w w' /\
  match r with
  | Ret (true, c') =>
      pos_ c' = pos_ c /\ valid_ c' = valid_ c /\ failed_ c' = failed_ c /\
      0 <= buf_start_ c' <= pos_ c /\ pos_ c - buf_start_ c' + need <= zlen (cur_buf c') /\
      buf_start_ c' + zlen (cur_buf c') <= data_end_ t /\
      cur_buf c' = substr (contents w (fd_ t)) (buf_start_ c') (zlen (cur_buf c'))
  | Ret (false, c') => failed_ c' = true /\ valid_ c' = valid_ c /\
      ~ reliable E (length (contents w (fd_ t)))
  | Throw _ => False
  | Dead => ~ reliable E (length (contents w (fd_ t)))
  end.

Lemma wp_ensure E w t c need :
  0 <= pos_ c -> 0 <= need -> pos_ c + need <= data_end_ t ->
  data_end_ t <= zlen (contents w (fd_ t)) ->
  0 <= buf_start_ c /\ buf_start_ c + zlen (cur_buf c) <= data_end_ t /\
    cur_buf c = substr (contents w (fd_ t)) (buf_start_ c) (zlen (cur_buf c)) ->
  forall w1, same_files w w1 -> wp (ensure E t c need) (ensure_post E w t c need) w1.
Proof.
  intros Hpos Hneed Hend Hfile (Hs & Hb & Hbuf) w1 Hw1. unfold ensure.
  destruct ((buf_start_ c <=? pos_ c) && (pos_ c - buf_start_ c + need <=? zlen (cur_buf c))) eqn:Hin.
  { apply andb_prop in Hin as [H1 H2]. apply wp_ret. split; [done|]. split_and!; auto; lia. }
  rewrite (proj2 (Z.ltb_ge _ _)) by done.
  set (want := Z.min (data_end_ t - pos_ c) (Z.max need kCursorWindow)).
  assert (need <= want /\ 0 <= want /\ pos_ c + want <= data_end_ t) as (Hw2 & Hw3 & Hw4)
    by (unfold want, kCursorWindow; lia).
  apply wp_bind, (wp_read_known E w _ _ _ (substr (contents w (fd_ t)) (pos_ c) want));
    [done|done|lia|done| |].
  - intros w2 Hw2'. apply wp_ret. split; [done|]. cbn.
    assert (zlen (substr (contents w (fd_ t)) (pos_ c) want) = want) as Hlen.
    { unfold substr. rewrite zlen_take, zlen_drop. lia. }
    rewrite Hlen. split_and!; auto; lia.
  - intros r w2 Hw2' [->| ->] Hrel; [apply wp_ret|]; by split.
Qed.

(** The header of an entry is in its first nine bytes. *)
Lemma row_header_take x rest m :
  row_ok x -> (9 <= m)%nat ->
  let p := take m (row_buf x ++ rest) in
  SstEndian.load_u32 p = Some (zlen x.1) /\
  SstEndian.load_u32 (drop 4 p) = Some (zlen (value x.2)) /\
  p !! 8%nat = Some (z2b (flags_of x.2)).
Proof.
  intros Hx Hm p. destruct (row_fields x rest Hx) as (H1 & H2 & H3 & _).
  pose proof (row_buf_pos x Hx) as Hlen.
  assert (forall l k, (4 <= k)%nat -> 4 <= zlen l ->
    SstEndian.load_u32 (take k l) = SstEndian.load_u32 l) as Hload.
  { intros l k Hk Hl. rewrite !sst_load_u32_le, !decide_True by zlia.
    by rewrite take_take, Nat.min_l by lia. }
  unfold p. split_and!.
  - rewrite Hload; [done|lia|zlia].
  - rewrite skipn_firstn_comm, Hload; [done|lia|zlia].
  - rewrite lookup_take_lt by lia. done.
Qed.

Lemma row_body_take x rest m :
  row_ok x -> zlen (row_buf x) <= Z.of_nat m ->
  let p := take m (row_buf x ++ rest) in
  let body := 9 + zlen (row_stamp x) in
  drop 9 p = row_stamp x ++ x.1 ++ value x.2 ++ take (m - length (row_buf x)) rest /\
  slice p body (zlen x.1) = Some x.1 /\ slice p (body + zlen x.1) (zlen (value x.2)) = Some (value x.2).
Proof.
  intros Hx Hm p body. unfold p. rewrite take_app_ge by (unfold zlen in Hm; lia).
  set (more := take _ rest). pose proof (row_fields x more Hx) as (_ & _ & _ & H9).
  split; [done|].
  assert (row_buf x ++ more = row_head x ++ row_stamp x ++ x.1 ++ value x.2 ++ more) as ->
    by (by rewrite row_buf_eq, <- !app_assoc by done).
  assert (zlen (row_head x) = 9) as Hh by (unfold zlen; by rewrite length_row_head).
  split.
  - rewrite app_assoc. apply slice_app_mid. rewrite zlen_app. unfold body. lia.
  - rewrite !app_assoc, <- app_assoc. apply slice_app_mid. rewrite !zlen_app. unfold body. lia.
Qed.

Definition load_post (E : env) (w : world) (t : Sstable) (rows rest : list row)
    (r : res Cursor) (w' : world) : Prop :=
  same_files w w' /\
  match r with
  | Ret c' => cursor_at w t rows c' rest \/
      failed_ c' = true /\ valid_ c' = false /\ ~ reliable E (length (contents w (fd_ t)))
  | Throw _ => False
  | Dead => ~ reliable E (length (contents w (fd_ t)))
  end.

Lemma load_end E w t rows c w1 :
  table_rep w t rows -> cursor_inv w t rows c [] -> same_files w w1 ->
  wp (load E t c) (load_post E w t rows []) w1.
Proof.
  intros [_ _ _ Hend _ _] [(before & Hrows & Hpos) Hfail Hwin] Hw1.
  unfold load. cbn [set_valid failed_ pos_]. rewrite Hfail, Hpos, Hend.
  rewrite app_nil_r in Hrows. subst before. rewrite (proj2 (Z.leb_le _ _)) by lia.
  apply wp_ret. split; [done|]. left. split; [done|]. constructor; auto.
  exists rows. by rewrite app_nil_r.
Qed.

Lemma load_row E w t rows c x rest w1 :
  table_rep w t rows -> cursor_inv w t rows c (x :: rest) -> same_files w w1 ->
  wp (load E t c) (load_post E w t rows (x :: rest)) w1.
Proof.
  intros [Hok _ (tail & Hdata) Hend _ _] [(before & Hrows & Hpos) Hfail Hwin] Hw1.
  assert (row_ok x) as Hx.
  { rewrite Hrows in Hok. apply Forall_app in Hok as [_ Hok]. by inversion Hok. }
  pose proof (row_buf_pos x Hx) as H9. pose proof (zlen_row_buf x Hx) as Htotal.
  pose proof (zlen_nonneg (data_of before)) as Hb0.
  assert (data_of rows = data_of before ++ row_buf x ++ data_of rest) as Hsplit
    by (by rewrite Hrows, data_of_app, data_of_cons).
  assert (drop (Z.to_nat (zlen (data_of before))) (contents w (fd_ t)) =
          row_buf x ++ data_of rest ++ tail) as Hdrop.
  { rewrite Hdata, Hsplit, <- !app_assoc, zlen_to_nat. apply drop_app_length. }
  assert (zlen (data_of before) + zlen (row_buf x) <= data_end_ t) as Hle
    by (rewrite Hend, Hsplit; zlia).
  assert (data_end_ t <= zlen (contents w (fd_ t))) as Hfile by (rewrite Hend, Hdata; zlia).
  unfold load. set (c0 := set_valid c false). cbn [set_valid failed_ pos_].
  change (failed_ c0) with (failed_ c). change (pos_ c0) with (pos_ c). rewrite Hfail, Hpos.
  rewrite (proj2 (Z.leb_gt _ _)) by lia. cbn [orb].
  apply wp_bind. eapply wp_mono; [apply (wp_ensure E w t c0 9); [cbn; lia..|done|done]|].
  intros r2 w2 [Hw2 Hr2].
  destruct r2 as [[[] c2]|?|]; [|apply wp_ret; split; [done|right; naive_solver]|done|done].
  destruct Hr2 as (Hp2 & Hv2 & Hf2 & Hs2 & Hn2 & He2 & Hb2).
  change (pos_ c0) with (pos_ c) in *. rewrite Hpos in *. cbn [negb].
  destruct (window_view w t c2 9) as (m & Hm & Hview); [lia|lia|done|].
  rewrite Hview, Hp2, Hdrop.
  destruct (row_header_take x (data_of rest ++ tail) m Hx ltac:(lia)) as (L1 & L2 & L3).
  rewrite L1, L2, L3. cbn [checked]. do 3 apply wp_bind, wp_ret.
  rewrite flags_expiry, flags_tombstone, <- zlen_row_stamp.
  replace (9 + zlen (row_stamp x) + zlen x.1 + zlen (value x.2)) with (zlen (row_buf x)) by lia.
  apply wp_bind. eapply wp_mono;
    [apply (wp_ensure E w t c2 (zlen (row_buf x))); [lia|lia|lia|done|split_and!; (done || lia)|done]|].
  intros r3 w3 [Hw3 Hr3].
  destruct r3 as [[[] c3]|?|]; [|apply wp_ret; split; [done|right; naive_solver]|done|done].
  destruct Hr3 as (Hp3 & Hv3 & Hf3 & Hs3 & Hn3 & He3 & Hb3). cbn [negb].
  destruct (window_view w t c3 (zlen (row_buf x))) as (m' & Hm' & Hview'); [lia|lia|done|].
  rewrite Hview', Hp3, Hp2, Hdrop.
  destruct (row_body_take x (data_of rest ++ tail) m' Hx Hm') as (B1 & B2 & B3).
  rewrite B1, B2, B3, row_stamp_load by done. cbn [checked].
  do 3 apply wp_bind, wp_ret. apply wp_ret. split; [done|]. left. split_and!; try done.
  constructor; cbn.
  - exists (before ++ [x]). rewrite Hrows, <- app_assoc, data_of_snoc, zlen_app. done.
  - by rewrite Hf3, Hf2.
  - split_and!; (done || lia).
Qed.

Lemma wp_load E w t rows c rest w1 :
  table_rep w t rows -> cursor_inv w t rows c rest -> same_files w w1 ->
  wp (load E t c) (load_post E w t rows rest) w1.
Proof. intros. destruct rest; [by apply load_end|by apply load_row]. Qed.

Lemma cursor_init_inv w t rows : table_rep w t rows -> cursor_inv w t rows Cursor_init rows.
Proof.
  intros [_ _ _ Hend _ _]. constructor; cbn.
  - by exists [].
  - done.
  - split_and!; [lia|rewrite Hend; zlia|done].
Qed.

(** ** Whole tables *)

(** One [add] per row, in the order given. *)
Fixpoint add_rows (E : env) (wr : SstableWriter) (rows : list row) : M SstableWriter :=
  match rows with
  | [] => mret wr
  | x :: rows =>
      wr ← add E wr x.1 (value x.2) (tombstone x.2) (expires_at_ms x.2);
      add_rows E wr rows
  end.

Lemma fits_app a b : fits (a ++ b) -> fits a.
Proof. unfold fits. rewrite data_of_app, !zlen_app. zlia. Qed.

Lemma not_reliable_app E a b :
  ~ reliable E (length (data_of a)) -> ~ reliable E (length (data_of (a ++ b))).
Proof.
  intros H. contradict H. eapply reliable_mono; [|done]. rewrite data_of_app, length_app. lia.
Qed.

Lemma wp_add_rows E rows : forall wr done w,
  (writer_rep w wr done \/ sw_failed wr = true /\ ~ reliable E (length (data_of (done ++ rows)))) ->
  Forall row_ok rows -> fits (done ++ rows) ->
  wp (add_rows E wr rows) (add_post E w wr (done ++ rows)) w.
Proof.
  induction rows as [|x rows IH]; intros wr done w Hwr Hok Hfit; cbn [add_rows].
  { rewrite app_nil_r in *. apply wp_ret. split; [done|]. auto. }
  inversion Hok as [|? ? Hx Hok']; subst.
  replace (done ++ x :: rows) with ((done ++ [x]) ++ rows) in * by (by rewrite <- app_assoc).
  apply wp_bind. destruct Hwr as [Hwr|[Hf Hrel]].
  - eapply wp_mono; [apply wp_add; [done|done|by eapply fits_app]|].
    intros [wr'|e|] w' [Hfr Hr].
    + destruct Hr as (Hfd & Hbits & Hr).
      eapply wp_mono; [apply (IH wr' (done ++ [x]) w')|]; [|done|done|].
      * destruct Hr as [?|[? Hrel]]; [by left|right]. split; [done|]. by apply not_reliable_app.
      * intros r w2 [Hfr2 Hr2]. rewrite Hfd, Hbits in *. split; [by etransitivity|done].
    + done.
    + split; [done|]. by apply not_reliable_app.
  - unfold add at 1. rewrite Hf. apply wp_ret. apply (IH wr (done ++ [x]) w); auto.
Qed.

(** A table written to a fresh file and opened again. *)
Definition write_table (E : env) (path : bytes) (bits_per_key : Z) (rows : list row) : M bool :=
  wr ← SstableWriter_open E path bits_per_key;
  wr ← add_rows E wr rows;
  '(ok, _) ← finish E wr;
  mret ok.

(** What writing a table leaves: the new file, and on success the table in it. *)
Definition write_post (E : env) (w : world) (path : bytes) (bits_per_key : Z) (rows : list row)
    (r : res bool) (w' : world) : Prop :=
  match r with
  | Ret true => exists i bs, creates path i w w' /\ durable w' i /\ blocks_of bs rows /\
      contents w' i = table_image bs rows bits_per_key
  | _ => (same_files w w' \/ exists i, creates path i w w') /\
         exists bs, blocks_of bs rows /\ ~ reliable E (length (table_image bs rows bits_per_key))
  end.

Lemma length_table_image bs rows bpk :
  (length (data_of rows) <= length (table_image bs rows bpk))%nat.
Proof. unfold table_image. rewrite length_app. lia. Qed.

Lemma table_image_bound bs rows bpk :
  Forall row_ok rows -> blocks_of bs rows ->
  (length (table_image bs rows bpk) <=
   2 * length (data_of rows) + 12 * length rows + length (build rows.*1 bpk) + 36)%nat.
Proof.
  intros Hok Hbs. pose proof (zlen_index_block bs rows Hok Hbs) as H.
  unfold table_image. rewrite !length_app, length_footer_block. unfold zlen in H. lia.
Qed.

Lemma blocks_of_exist rows : exists bs, blocks_of bs rows.
Proof.
  induction rows as [|x rows [bs [<- Hne]]]; [by exists []|].
  exists ([x] :: bs). split; [done|]. by constructor.
Qed.

(** A writer that was just opened. *)
Lemma writer_rep_init w fd bpk :
  contents w fd = [] -> writer_rep w (mkWriter fd 0 0 false false bpk [] [] 0) [].
Proof. intros Hc. constructor; try done. by exists []. Qed.

Lemma wp_write_table E path bpk rows w :
  Forall row_ok rows -> sm_sorted rows -> fits rows ->
  wp (write_table E path bpk rows) (write_post E w path bpk rows) w.
Proof.
  intros Hok Hs Hfit. destruct (blocks_of_exist rows) as [bs0 Hbs0].
  assert (~ reliable E (length (data_of rows)) ->
    ~ reliable E (length (table_image bs0 rows bpk))) as Hrel0.
  { intros H. contradict H. eapply reliable_mono; [|done]. apply length_table_image. }
  unfold write_table, SstableWriter_open. apply wp_bind, wp_bind, wp_open_trunc.
  2: { intros r w1 Hw1 Hr Hrel.
       assert (~ reliable E (length (table_image bs0 rows bpk))).
       { contradict Hrel. eapply reliable_mono; [|done]. lia. }
       destruct Hr as [->| ->]; [apply wp_throw|]; (split; [by left|by exists bs0]). }
  intros i w1 Hcr Hc. apply wp_ret, wp_bind.
  eapply wp_mono; [apply (wp_add_rows E rows _ [] w1)|]; [left; by apply writer_rep_init|done|done|].
  intros [wr|e|] w2 [Hfr Hr]; [|done|].
  2: { split; [right; exists i; by eapply creates_frame|]. exists bs0. auto. }
  destruct Hr as (Hfd & Hbits & Hr). cbn in Hfd, Hbits, Hfr. apply wp_bind.
  assert (creates path i w w2) as Hcr2 by (by eapply creates_frame).
  destruct Hr as [Hwr|[Hfail Hrel]].
  - eapply wp_mono; [by apply wp_finish|]. intros r3 w3 [Hfr3 Hr3]. rewrite Hfd, Hbits in *.
    assert (creates path i w w3) as Hcr3 by (by eapply creates_frame).
    destruct r3 as [[[] ?]|e|]; [|split; eauto|done|split; eauto].
    exists i. naive_solver.
  - unfold finish. rewrite Hfail. cbn [orb]. apply wp_ret, wp_ret.
    split; [eauto|]. exists bs0. auto.
Qed.

(** ** Files that may hold anything *)




Definition not_oob {A} (r : res A) : Prop := r <> Throw (lit "out of bounds").

Lemma not_oob_throw {A} e :
  bool_decide (e = lit "out of bounds") = false -> @not_oob A (Throw e).
Proof. intros He [= ->]. by rewrite bool_decide_true in He. Qed.

(** A branch that returns, dies or throws something else. *)
Ltac not_oob :=
  try first [apply wp_ret | apply wp_throw]; split;
  try done; apply not_oob_throw; vm_compute; reflexivity.






(** Everything a cursor yields, from where it stands; [None] when it failed. *)
Definition stored_row (x : row) : row := (x.1, stored x.2).

Fixpoint walk (E : env) (t : Sstable) (fuel : nat) (c : Cursor) : M (option (list row)) :=
  match fuel with
  | O => mret None
  | S fuel =>
      if valid_ c then
        let x := (key_ c, mkEntry (value_ c) (tombstone_ c) (expires_at_ms_ c)) in
        c ← next E t c;
        rest ← walk E t fuel c;
        mret (cons x <$> rest)
      else mret (if failed_ c then None else Some [])
  end.

Lemma wp_walk E w t rows : table_rep w t rows -> forall l fuel c w1,
  (length l < fuel)%nat -> same_files w w1 ->
  cursor_at w t rows c l \/
    failed_ c = true /\ valid_ c = false /\ ~ reliable E (length (contents w (fd_ t))) ->
  wp (walk E t fuel c) (fun r w' => same_files w w' /\ match r with
    | Ret (Some l') => l' = stored_row <$> l
    | Throw _ => False
    | _ => ~ reliable E (length (contents w (fd_ t)))
    end) w1.
Proof.
  intros Hrep. induction l as [|x l IH]; intros fuel c w1 Hf Hw1 Hc;
    (destruct fuel as [|fuel]; [simpl in Hf; lia|]); cbn [walk];
    (destruct Hc as [Hc|(Hcf & Hcv & Hrel)]; [|by rewrite Hcv, Hcf; apply wp_ret]).
  - destruct Hc as [Hv [_ Hcf _]]. rewrite Hv, Hcf. by apply wp_ret.
  - destruct Hc as (Hv & Hk & Hval & Ht & He & Hinv). rewrite Hv, Hk, Hval, Ht, He.
    apply wp_bind. eapply wp_mono; [by apply wp_load|]. intros [c'|e|] w2 [Hw2 Hr]; [|done|done].
    apply wp_bind. eapply wp_mono; [apply IH; [simpl in Hf; lia|done|done]|].
    intros [[l'|]|e|] w3 [Hw3 Hr3]; [|by apply wp_ret|done|done].
    apply wp_ret. split; [done|]. by rewrite Hr3.
Qed.

(** ** Properties *)

(** C19: A table answers what was put into it.  Rows in key order, with lengths that
    fit, are written to a file by [SstableWriter]; when the kernel performs the
    calls, [finish] reports success with the file fsynced, the file opens, and
    [get] of any key answers exactly what the rows hold under it, whether the
    Bloom filter is used or not. *)
Theorem sstable_roundtrip (E : env) (k : nat) (path : bytes) (bits_per_key : Z) (use_bloom : bool)
    (rows : list row) (key : bytes) (w : world) :
  Forall row_ok rows -> sm_sorted rows -> fits rows ->
  (2 * length (data_of rows) + 12 * length rows + length (build rows.*1 bits_per_key) + 36 <= k)%nat ->
  reliable E k ->
  exists w1 t w2 w3,
    write_table E path bits_per_key rows w = (Ret true, w1) /\
    Sstable_open E path use_bloom w1 = (Ret t, w2) /\
    durable w2 (fd_ t) /\ entry_count_ t = zlen rows /\
    get E t key w2 = (Ret (lookup_of (sm_find key rows)), w3).
Proof.
  intros Hok Hs Hfit Hk Hrel.
  assert (forall bs, blocks_of bs rows -> reliable E (length (table_image bs rows bits_per_key)))
    as Hrel'.
  { intros bs Hbs. apply (reliable_mono _ _ k); [|done]. etransitivity; [|done].
    by apply table_image_bound. }
  pose proof (wp_write_table E path bits_per_key rows w Hok Hs Hfit) as Hw.
  unfold wp in Hw. destruct (write_table E path bits_per_key rows w) as [r1 w1]. cbn [fst snd] in Hw.
  assert (exists i bs, r1 = Ret true /\ creates path i w w1 /\ durable w1 i /\ blocks_of bs rows /\
    contents w1 i = table_image bs rows bits_per_key) as (i & bs & -> & Hcr & Hdur & Hbs & Himg).
  { destruct r1 as [[]|e|]; [naive_solver|..]; destruct Hw as (_ & bs & Hbs & Hn);
      by destruct (Hn (Hrel' bs Hbs)). }
  assert (dir w1 !! path = Some i) as Hd by (rewrite (cr_dir _ _ _ _ Hcr); apply lookup_insert_eq).
  assert (reliable E (length (contents w1 i))) as Hrel1 by (rewrite Himg; by apply Hrel').
  pose proof (wp_Sstable_open E path use_bloom w1 i rows Hd) as Ho. unfold wp in Ho.
  destruct (Sstable_open E path use_bloom w1) as [r2 w2] eqn:E2. cbn [fst snd] in Ho.
  destruct Ho as [Hw2 Ho]; [by repeat (split; [done|]); exists bs, bits_per_key|].
  destruct r2 as [t| |]; [|done..]. destruct Ho as (Hrep & Hfd & _ & _ & Hcount).
  pose proof (wp_get E t key w2 rows Hrep) as Hg. unfold wp in Hg.
  destruct (get E t key w2) as [r3 w3] eqn:E3. cbn [fst snd] in Hg. destruct Hg as [Hw3 Hg].
  exists w1, t, w2, w3. split_and!; try done; [by rewrite Hfd, <- Hw2|].
  assert (contents w2 (fd_ t) = contents w1 i) as Hc by (by rewrite Hfd, <- Hw2).
  rewrite Hc in Hg. destruct r3 as [l| |]; [|done..].
  destruct Hg as [->|[_ Hio]]; [done|]. by destruct (fail_not_reliable _ _ _ Hio Hrel1).
Qed.

Definition demo_rows : list row :=
  [(lit "a", mkEntry (lit "1") false 0); (lit "b", mkEntry [] true 0);
   (lit "c", mkEntry (lit "3") false 9)].

Lemma demo_rows_ok : Forall row_ok demo_rows.
Proof. repeat (apply Forall_cons; split; [by split_and!|]). constructor. Qed.
Lemma demo_rows_sorted : sm_sorted demo_rows.
Proof. repeat (apply sm_sorted_cons; split; [by repeat constructor|]). constructor. Qed.
Lemma demo_rows_fit : fits demo_rows.
Proof. by split. Qed.

Lemma sstable_roundtrip_witness :
  exists w1 t w2 w3,
    write_table (fair_env 300) (lit "t") 10 demo_rows world_init = (Ret true, w1) /\
    Sstable_open (fair_env 300) (lit "t") true w1 = (Ret t, w2) /\
    durable w2 (fd_ t) /\ entry_count_ t = 3 /\
    get (fair_env 300) t (lit "c") w2 = (Ret (mkLookup true false (lit "3") 9), w3).
Proof.
  apply (sstable_roundtrip (fair_env 300) 300 (lit "t") 10 true demo_rows (lit "c") world_init).
  - apply demo_rows_ok.
  - apply demo_rows_sorted.
  - apply demo_rows_fit.
  - vm_compute. lia.
  - apply fair_env_reliable.
Defined.

(** Lookups in a table, whatever the kernel does: the world is left as it was,
    nothing is thrown, no read leaves a buffer, and the answer is exactly what the
    rows hold under the key, except that a read the kernel fails is answered "not
    found".  A call that never returns is the kernel's doing. *)
Theorem sstable_get_correct (E : env) (t : Sstable) (rows : list row) (key : bytes) (w w' : world)
    (r : res Lookup) :
  table_rep w t rows -> get E t key w = (r, w') ->
  same_files w w' /\
  ((r = Ret (lookup_of (sm_find key rows))) \/
   (r = Ret Lookup_none /\ Fail ∈ answers E w) \/
   (r = Dead /\ ~ reliable E (length (contents w (fd_ t))))).
Proof.
  intros Hrep Hget. pose proof (wp_elim _ _ _ _ _ (wp_get E t key w rows Hrep) Hget) as [Hw Hr].
  split; [done|]. destruct r as [l|e|]; naive_solver.
Qed.


(** A cursor yields the table.  Walking a table from its first entry, refilling
    the 64 KB window as it goes, gives every row in key order and then stops; a
    kernel error ends the walk as failed, never as a shorter table. *)
Theorem cursor_walk (E : env) (t : Sstable) (rows : list row) (w w' : world)
    (r : res (option (list row))) :
  table_rep w t rows ->
  (c ← cursor E t; walk E t (S (length rows)) c) w = (r, w') ->
  same_files w w' /\
  (r = Ret (Some (stored_row <$> rows)) \/
   (r = Ret None \/ r = Dead) /\ ~ reliable E (length (contents w (fd_ t)))).
Proof.
  intros Hrep Hrun.
  refine (wp_elim _ (fun r w' => same_files w w' /\
    (r = Ret (Some (stored_row <$> rows)) \/
     (r = Ret None \/ r = Dead) /\ ~ reliable E (length (contents w (fd_ t))))) _ _ _ _ Hrun).
  apply wp_bind.
  eapply wp_mono; [apply (wp_load E w t rows Cursor_init rows w Hrep); [by apply cursor_init_inv|done]|].
  intros [c|e|] w1 [Hw1 Hr]; [|done|by split; [|right; split; [right|]]].
  eapply wp_mono; [apply (wp_walk E w t rows Hrep rows _ c w1); [lia|done|done]|].
  intros [[l|]|e|] w2 [Hw2 Hr2]; (split; [done|]); [by left; rewrite Hr2|right..]; auto; done.
Qed.

(** A world with the table of [demo_rows] open. *)
Definition demo_world : world :=
  mkWorld 0 {[lit "t" := 0%nat]} ∅ {[0%nat := table_image [demo_rows] demo_rows 10]} ∅ 1.
Definition demo_table : Sstable :=
  mkSstable (lit "t") 0 (build demo_rows.*1 10) (block_index [demo_rows] 0)
    (zlen (data_of demo_rows)) 3 true.

Lemma demo_table_rep : table_rep demo_world demo_table demo_rows.
Proof.
  apply (table_image_rep _ _ [demo_rows] _ 10); try done.
  - apply demo_rows_ok.
  - apply demo_rows_sorted.
  - split; [done|]. by repeat constructor.
Qed.

Lemma sstable_get_correct_witness :
  (get (fair_env 300) demo_table (lit "b") demo_world).1 = Ret (mkLookup true true [] 0).
Proof.
  pose proof (sstable_get_correct (fair_env 300) demo_table demo_rows (lit "b") demo_world
    (get (fair_env 300) demo_table (lit "b") demo_world).2
    (get (fair_env 300) demo_table (lit "b") demo_world).1 demo_table_rep
    (surjective_pairing _)) as [_ [H|[[H _]|[H _]]]]; [exact H|vm_compute in H; discriminate..].
Defined.


Lemma cursor_walk_witness :
  ((c ← cursor (fair_env 300) demo_table; walk (fair_env 300) demo_table 4 c) demo_world).1 =
    Ret (Some (stored_row <$> demo_rows)).
Proof.
  destruct (cursor_walk (fair_env 300) demo_table demo_rows demo_world _ _ demo_table_rep
    (surjective_pairing _)) as [_ [H|[_ H]]]; [exact H|].
  destruct H. apply (reliable_mono _ _ 300); [vm_compute; lia|]. apply fair_env_reliable.
Defined.
