(* ===== verification/Compaction.v ===== *)
(** * Compaction: merging tables

    [compact] of [compaction.cpp]: a k-way merge of open tables, newest first,
    through a heap of cursors, into one new table.  The specification is the read
    path's own rule: for every key the first input that has it decides, and when
    nothing older is left tombstones and expired entries go. *)

From stdpp Require Import gmap.
From S2P Require Import Prelude SortedMap Memtable Bloom Posix Sstable.

(** ** The heap

    [std::priority_queue<Head, std::vector<Head>, Order>] as the collection of its
    elements; [top] is an element that none exceeds under [Order]. *)

Record Head := mkHead { input : nat; hkey : bytes }.

(** [Order()(a, b)]: [a] comes out after [b]. *)
Definition Order (a b : Head) : bool :=
  if decide (hkey a = hkey b) then Nat.ltb (input b) (input a)
  else bytes_ltb (hkey b) (hkey a).

(** [top] and [pop]. *)
Fixpoint heap_pop (heap : list Head) : option (Head * list Head) :=
  match heap with
  | [] => None
  | h :: t =>
      match heap_pop t with
      | None => Some (h, [])
      | Some (b, t') => if Order b h then Some (h, t) else Some (b, h :: t')
      end
  end.

Record CompactionResult := mkCompactionResult {
  ok : bool;
  written : Z;
  dropped : Z
}.

Definition CompactionResult_init : CompactionResult := mkCompactionResult false 0 0.

Section compact.
Context (E : env).

(** [cursors.push_back(table->cursor())] for every input. *)
Fixpoint open_cursors (inputs : list Sstable) : M (list Cursor) :=
  match inputs with
  | [] => mret []
  | t :: inputs =>
      c ← cursor E t;
      cs ← open_cursors inputs;
      mret (c :: cs)
  end.

(** The first loop: [None] when a cursor has failed. *)
Fixpoint fill_heap (i : nat) (cursors : list Cursor) (heap : list Head) : option (list Head) :=
  match cursors with
  | [] => Some heap
  | c :: cursors =>
      if failed_ c then None
      else fill_heap (S i) cursors (if valid_ c then heap ++ [mkHead i (key_ c)] else heap)
  end.

(** The locals of the merge loop. *)
Record merge_state := mkMerge {
  ms_heap : list Head;
  ms_cursors : list Cursor;
  ms_writer : SstableWriter;
  ms_previous : option bytes;   (** [previous], when [have_previous] *)
  ms_result : CompactionResult
}.

Context (inputs : list Sstable) (drop_obsolete : bool) (now_ms : Z).

(** What one round does with the entry the cursor stands on. *)
Definition emit (s : merge_state) (head : Head) (cursor : Cursor)
  : M (SstableWriter * option bytes * CompactionResult) :=
  let r := ms_result s in
  let superseded := bool_decide (ms_previous s = Some (hkey head)) in
  if superseded then
    mret (ms_writer s, ms_previous s, mkCompactionResult (ok r) (written r) (u64 (dropped r + 1)))
  else
    let expired := negb (expires_at_ms_ cursor =? 0) && (expires_at_ms_ cursor <=? now_ms) in
    if drop_obsolete && (tombstone_ cursor || expired) then
      mret (ms_writer s, Some (hkey head), mkCompactionResult (ok r) (written r) (u64 (dropped r + 1)))
    else
      wr ← add E (ms_writer s) (key_ cursor) (value_ cursor) (tombstone_ cursor)
             (expires_at_ms_ cursor);
      mret (wr, Some (hkey head), mkCompactionResult (ok r) (u64 (written r + 1)) (dropped r)).

(** The merge loop: [inl] is the early return on a failed cursor. *)
Fixpoint merge_loop (fuel : nat) (s : merge_state) : M (CompactionResult + merge_state) :=
  match fuel with
  | O => throw (lit "out of fuel")
  | S fuel =>
      match heap_pop (ms_heap s) with
      | None => mret (inr s)
      | Some (head, heap) =>
          match ms_cursors s !! input head, inputs !! input head with
          | Some cursor, Some table =>
              '(wr, previous, r) ← emit s head cursor;
              c ← next E table cursor;
              if failed_ c then mret (inl r)
              else
                merge_loop fuel
                  (mkMerge (if valid_ c then heap ++ [mkHead (input head) (key_ c)] else heap)
                     (<[input head := c]> (ms_cursors s)) wr previous r)
          | _, _ => throw (lit "out of bounds")
          end
      end
  end.

(** Every round consumes an entry of at least nine bytes. *)
Definition merge_fuel : nat :=
  S (foldr (fun t n => Z.to_nat (data_end_ t) + n)%nat 0%nat inputs).

Definition compact (out_path : bytes) (bits_per_key : Z) : M CompactionResult :=
  cursors ← open_cursors inputs;
  match fill_heap 0 cursors [] with
  | None => mret CompactionResult_init
  | Some heap =>
      writer ← SstableWriter_open E out_path bits_per_key;
      done ← merge_loop merge_fuel (mkMerge heap cursors writer None CompactionResult_init);
      match done with
      | inl r => mret r
      | inr s =>
          '(finished, _) ← finish E (ms_writer s);
          if finished : bool
          then mret (mkCompactionResult true (written (ms_result s)) (dropped (ms_result s)))
          else mret (ms_result s)
      end
  end.

End compact.

(** ** What a merge means *)

(** The read path's rule over tables, newest first. *)
Fixpoint first_of (ls : list (list row)) (k : bytes) : option Entry :=
  match ls with
  | [] => None
  | l :: ls => match sm_find k l with Some e => Some e | None => first_of ls k end
  end.

Definition obsolete (now_ms : Z) (e : Entry) : bool :=
  tombstone e || (negb (expires_at_ms e =? 0) && (expires_at_ms e <=? now_ms)).

(** What the merge keeps of the deciding entry. *)
Definition keep (drop_obsolete : bool) (now_ms : Z) (e : Entry) : option Entry :=
  if drop_obsolete && obsolete now_ms e then None else Some e.

Lemma first_of_None ls k :
  (forall l x, l ∈ ls -> x ∈ l -> x.1 <> k) -> first_of ls k = None.
Proof.
  induction ls as [|l ls IH]; intros H; [done|]. cbn [first_of].
  destruct (sm_find k l) as [e|] eqn:Hf.
  - apply sm_find_elem in Hf. by destruct (H l (k, e) (list_elem_of_here _ _) Hf).
  - apply IH. intros l' x Hl. apply H. by right.
Qed.

Lemma first_of_advance ls i x l k :
  ls !! i = Some (x :: l) -> k <> x.1 -> first_of (<[i := l]> ls) k = first_of ls k.
Proof.
  revert i. induction ls as [|l' ls IH]; intros i; [done|]. destruct i as [|i]; cbn.
  - intros [= ->] Hk. destruct x as [kx ex]. cbn in *. by rewrite decide_False.
  - intros Hi Hk. by rewrite IH.
Qed.

Lemma first_of_head ls i k e l :
  ls !! i = Some ((k, e) :: l) ->
  (forall j l', (j < i)%nat -> ls !! j = Some l' -> sm_find k l' = None) ->
  first_of ls k = Some e.
Proof.
  revert i. induction ls as [|l0 ls IH]; intros i; [done|]. destruct i as [|i]; cbn.
  - intros [= ->] _. cbn. by rewrite decide_True.
  - intros Hi Hlt. rewrite (Hlt 0%nat l0 ltac:(lia) eq_refl). apply (IH i); [done|].
    intros j l' Hj Hl'. apply (Hlt (S j) l' ltac:(lia) Hl').
Qed.

Lemma first_of_app a b k :
  first_of (a ++ b) k = match first_of a k with Some e => Some e | None => first_of b k end.
Proof. induction a as [|l a IH]; cbn; [done|]. by destruct (sm_find k l). Qed.

(** ** The merge in progress *)

Section merging.
Context (drop_obsolete : bool) (now_ms : Z) (rows : list (list row)).

Notation kept := (keep drop_obsolete now_ms).

(** Keys up to [prev] have been dealt with. *)
Definition settled (prev : option bytes) (k : bytes) : Prop :=
  exists p, prev = Some p /\ ~ bytes_lt p k.

#[local] Instance settled_dec prev k : Decision (settled prev k).
Proof.
  destruct prev as [p|]; [|right; by intros (? & ? & _)].
  destruct (decide (bytes_lt p k)) as [H|H].
  - right. intros (q & [= <-] & Hq). done.
  - left. by exists p.
Defined.

Record merge_spec (out : list row) (prev : option bytes) (ls : list (list row)) : Prop := {
  sp_sorted : sm_sorted out;
  sp_out x : x ∈ out -> settled prev x.1;
  sp_streams l : l ∈ ls -> sm_sorted l;
  sp_rest p l x : prev = Some p -> l ∈ ls -> x ∈ l -> ~ bytes_lt x.1 p;
  sp_done k : settled prev k -> sm_find k out = first_of rows k ≫= kept;
  sp_todo k : ~ settled prev k -> first_of ls k = first_of rows k
}.

(** [head] is the least head: ties go to the lowest index. *)
Definition least (ls : list (list row)) (i : nat) (k : bytes) : Prop :=
  forall j x l, ls !! j = Some (x :: l) -> ~ bytes_lt x.1 k /\ (x.1 = k -> (i <= j)%nat).

Lemma least_all ls i k j l x :
  (forall l, l ∈ ls -> sm_sorted l) -> least ls i k -> ls !! j = Some l -> x ∈ l ->
  ~ bytes_lt x.1 k /\ (x.1 = k -> (i <= j)%nat).
Proof.
  intros Hs Hl Hj Hx. destruct l as [|y l]; [by apply elem_of_nil in Hx|].
  destruct (Hl j y l Hj) as [H1 H2].
  pose proof (Hs _ (list_elem_of_lookup_2 _ _ _ Hj)) as [Hall _]%sm_sorted_cons.
  apply elem_of_cons in Hx as [->|Hx]; [done|].
  rewrite Forall_forall in Hall. specialize (Hall x Hx). unfold key_lt in Hall.
  assert (bytes_lt k x.1) as Hlt.
  { destruct (bytes_lt_trichotomy y.1 k) as [?|[<-|?]]; [done|done|by transitivity y.1]. }
  split; [by apply bytes_lt_asym|]. intros Heq. by apply bytes_lt_ne in Hlt.
Qed.

Lemma elem_of_advance {A} (ls : list (list A)) i x l l' :
  ls !! i = Some (x :: l) -> l' ∈ <[i := l]> ls -> l' ∈ ls \/ l' = l.
Proof.
  intros Hi Hl'. apply list_elem_of_lookup in Hl' as [j Hj].
  destruct (decide (j = i)) as [->|].
  - rewrite list_lookup_insert_eq in Hj by (by eapply lookup_lt_Some). right. congruence.
  - rewrite list_lookup_insert_ne in Hj by done. left. by eapply list_elem_of_lookup_2.
Qed.

(** Every row left after a step was there before it. *)
Lemma advance_rows (ls : list (list row)) i x l l' y :
  ls !! i = Some (x :: l) -> l' ∈ <[i := l]> ls -> y ∈ l' -> exists l0, l0 ∈ ls /\ y ∈ l0.
Proof.
  intros Hi [Hl| ->]%(elem_of_advance ls i x l l' Hi) Hy; [by exists l'|].
  exists (x :: l). split; [by eapply list_elem_of_lookup_2|by right].
Qed.

Lemma advance_sorted (ls : list (list row)) i x l :
  (forall l, l ∈ ls -> sm_sorted l) -> ls !! i = Some (x :: l) ->
  forall l', l' ∈ <[i := l]> ls -> sm_sorted l'.
Proof.
  intros Hs Hi l' [Hl| ->]%(elem_of_advance ls i x l l' Hi); [by apply Hs|].
  pose proof (Hs _ (list_elem_of_lookup_2 _ _ _ Hi)) as Hx. by apply sm_sorted_cons in Hx as [_ ?].
Qed.

(** A superseded entry. *)
Lemma merge_skip out ls i k e l :
  merge_spec out (Some k) ls -> ls !! i = Some ((k, e) :: l) ->
  merge_spec out (Some k) (<[i := l]> ls).
Proof.
  intros [H1 H2 H3 H4 H5 H6] Hi. constructor; auto.
  - by apply (advance_sorted ls i (k, e) l).
  - intros p l' x Hp Hl' Hx. destruct (advance_rows ls i (k, e) l l' x Hi Hl' Hx) as (l0 & ? & ?). eauto.
  - intros k' Hk'. rewrite (first_of_advance ls i (k, e) l); auto.
    intros ->. apply Hk'. exists k. split; [done|]. apply (irreflexivity bytes_lt).
Qed.

(** A new key. *)
Lemma merge_emit out prev ls i k e l :
  merge_spec out prev ls -> ls !! i = Some ((k, e) :: l) -> least ls i k -> prev <> Some k ->
  merge_spec (out ++ match kept e with Some e => [(k, e)] | None => [] end) (Some k) (<[i := l]> ls).
Proof.
  intros [H1 H2 H3 H4 H5 H6] Hi Hleast Hprev.
  assert (forall p, prev = Some p -> bytes_lt p k) as Hpk.
  { intros p ->. destruct (bytes_lt_trichotomy p k) as [?|[->|?]]; [done|done|].
    destruct (H4 p ((k, e) :: l) (k, e) eq_refl); [by eapply list_elem_of_lookup_2|by left|done]. }
  assert (~ settled prev k) as Hunset by (intros (p & Hp & Hn); by apply Hn, Hpk).
  assert (first_of rows k = Some e) as Hfirst.
  { rewrite <- H6 by done. apply (first_of_head ls i k e l Hi). intros j l' Hj Hl'.
    apply sm_find_None. intros e' He'.
    destruct (least_all ls i k j l' (k, e') H3 Hleast Hl' He') as [_ Hle].
    specialize (Hle eq_refl). lia. }
  assert (forall x, x ∈ out -> bytes_lt x.1 k) as Hout.
  { intros x (p & Hp & Hn)%H2. specialize (Hpk _ Hp).
    destruct (bytes_lt_trichotomy x.1 p) as [?|[Heq|?]]; [by transitivity p|by rewrite Heq|done]. }
  set (new := match kept e with Some e => [(k, e)] | None => [] end).
  assert (forall x, x ∈ new -> x.1 = k) as Hnew.
  { intros x. unfold new. destruct (kept e); [|by intros ?%elem_of_nil].
    by intros ->%list_elem_of_singleton. }
  constructor.
  - apply sm_sorted_app. split; [done|]. split; [unfold new; destruct (kept e); repeat constructor|].
    intros x y Hx Hy. unfold key_lt. rewrite (Hnew y Hy). by apply Hout.
  - intros x [Hx|Hx]%elem_of_app; exists k; (split; [done|]).
    + apply bytes_lt_asym. by apply Hout.
    + rewrite (Hnew x Hx). apply (irreflexivity bytes_lt).
  - by apply (advance_sorted ls i (k, e) l).
  - intros p l' x [= <-] Hl' Hx. destruct (advance_rows ls i (k, e) l l' x Hi Hl' Hx) as (l0 & Hl0 & Hx0).
    apply list_elem_of_lookup in Hl0 as [j Hj]. by apply (least_all ls i k j l0 x).
  - intros k' (p & [= <-] & Hk'). rewrite sm_find_app.
    destruct (bytes_lt_trichotomy k k') as [?|[<-|Hlt]]; [done| |].
    + rewrite Hfirst. cbn [mbind option_bind].
      assert (sm_find k out = None) as ->.
      { apply sm_find_None. intros e' He'. specialize (Hout _ He'). by apply bytes_lt_ne in Hout. }
      unfold new. destruct (kept e); cbn; [by rewrite decide_True|done].
    + assert (sm_find k' new = None) as ->.
      { apply sm_find_None. intros e' He'. apply Hnew in He'. cbn in He'. subst.
        by apply bytes_lt_ne in Hlt. }
      destruct (decide (settled prev k')) as [Hs|Hs].
      * rewrite H5 by done. by destruct (first_of rows k' ≫= kept).
      * rewrite <- H6 by done. rewrite (first_of_None ls k').
        { assert (sm_find k' out = None) as ->; [|done]. apply sm_find_None. intros e' He'.
          by apply H2 in He'. }
        intros l' x Hl' Hx Heq. apply list_elem_of_lookup in Hl' as [j Hj].
        destruct (least_all ls i k j l' x H3 Hleast Hj Hx) as [Hn _]. by rewrite Heq in Hn.
  - intros k' Hk'. rewrite (first_of_advance ls i (k, e) l); [|done|].
    + apply H6. intros (p & Hp & Hn). apply Hk'. exists k. split; [done|]. intros Hlt.
      apply Hn. transitivity k; [by apply Hpk|done].
    + intros ->. apply Hk'. exists k. split; [done|]. apply (irreflexivity bytes_lt).
Qed.

Lemma merge_start ls :
  (forall l, l ∈ ls -> sm_sorted l) -> ls = rows -> merge_spec [] None ls.
Proof.
  intros Hs ->. constructor; try done; [constructor|by intros x ?%elem_of_nil|].
  by intros k (p & ? & _).
Qed.

(** No row is left: the output answers for every key. *)
Lemma merge_finish out prev ls :
  merge_spec out prev ls -> (forall l, l ∈ ls -> l = []) ->
  forall k, sm_find k out = first_of rows k ≫= kept.
Proof.
  intros [H1 H2 H3 H4 H5 H6] Hnil k. destruct (decide (settled prev k)) as [Hs|Hs]; [by apply H5|].
  rewrite <- H6 by done. rewrite (first_of_None ls k).
  - apply sm_find_None. intros e He. by apply H2 in He.
  - intros l x Hl Hx. rewrite (Hnil l Hl) in Hx. by apply elem_of_nil in Hx.
Qed.

End merging.


(** ** The heap hands out the least head *)

Lemma Order_irrefl a : Order a a = false.
Proof. unfold Order. rewrite decide_True by done. apply Nat.ltb_irrefl. Qed.

Lemma Order_trans a b c : Order a b = true -> Order b c = true -> Order a c = true.
Proof.
  unfold Order. destruct a as [i ka], b as [j kb], c as [n kc]. cbn [hkey input].
  repeat case_decide; subst; try done; rewrite ?Nat.ltb_lt, ?bytes_ltb_lt; try lia; intros Ha Hb.
  - by apply bytes_lt_asym in Ha.
  - by transitivity kb.
Qed.

Lemma heap_pop_spec heap b t :
  heap_pop heap = Some (b, t) ->
  heap ≡ₚ b :: t /\ forall x, x ∈ heap -> Order b x = false.
Proof.
  revert b t. induction heap as [|h heap IH]; intros b t; cbn [heap_pop]; [done|].
  destruct (heap_pop heap) as [[b' t']|] eqn:Hp.
  - destruct (IH b' t' eq_refl) as [Hperm Hmin]. destruct (Order b' h) eqn:Ho; intros [= <- <-].
    + split; [done|]. intros x [->|Hx]%elem_of_cons; [apply Order_irrefl|].
      destruct (Order h x) eqn:Hh; [|done]. rewrite <- (Hmin x Hx). symmetry. by eapply Order_trans.
    + split; [rewrite Hperm; constructor|]. intros x [->|Hx]%elem_of_cons; auto.
  - intros [= <- <-]. destruct heap as [|h' heap].
    + split; [done|]. intros x ->%list_elem_of_singleton. apply Order_irrefl.
    + exfalso. cbn in Hp. destruct (heap_pop heap) as [[]|]; [by case_match|done].
Qed.

Lemma heap_pop_None heap : heap_pop heap = None -> heap = [].
Proof. destruct heap as [|h heap]; [done|]. cbn. destruct (heap_pop heap) as [[]|]; [by case_match|done]. Qed.

(** The heads of the streams. *)
Definition head_of (i : nat) (l : list row) : list Head :=
  match l with [] => [] | x :: _ => [mkHead i x.1] end.

Fixpoint heads (i : nat) (ls : list (list row)) : list Head :=
  match ls with [] => [] | l :: ls => head_of i l ++ heads (S i) ls end.

Lemma heads_elem o ls h :
  h ∈ heads o ls <-> exists j x l, ls !! j = Some (x :: l) /\ h = mkHead (o + j) x.1.
Proof.
  revert o. induction ls as [|l ls IH]; intros o; cbn [heads].
  { split; [by intros ?%elem_of_nil|]. by intros (j & x & l & ? & _). }
  rewrite elem_of_app, IH. split.
  - intros [Hh|(j & x & l' & Hj & ->)].
    + destruct l as [|x l]; [by apply elem_of_nil in Hh|].
      apply list_elem_of_singleton in Hh as ->. exists 0%nat, x, l. by rewrite Nat.add_0_r.
    + exists (S j), x, l'. split; [done|]. f_equal. lia.
  - intros ([|j] & x & l' & Hj & ->).
    + left. cbn in Hj. injection Hj as ->. cbn [head_of]. rewrite Nat.add_0_r. by left.
    + right. exists j, x, l'. split; [done|]. f_equal. lia.
Qed.

Lemma heads_insert o ls i l0 l :
  ls !! i = Some l0 ->
  heads o (<[i := l]> ls) ≡ₚ head_of (o + i) l ++ heads o (<[i := []]> ls).
Proof.
  revert o i. induction ls as [|l' ls IH]; intros o [|i]; cbn; try done.
  - intros _. by rewrite Nat.add_0_r.
  - intros Hi. rewrite (IH (S o) i Hi), Nat.add_succ_r.
    rewrite !app_assoc. by rewrite (Permutation_app_comm (head_of o l')).
Qed.

(** Popping the head of stream [i] and pushing its next key. *)
Lemma heads_pop heap t ls i x l :
  heap ≡ₚ heads 0 ls -> heap ≡ₚ mkHead i x.1 :: t -> ls !! i = Some (x :: l) ->
  t ++ head_of i l ≡ₚ heads 0 (<[i := l]> ls).
Proof.
  intros Hh Ht Hi. pose proof (heads_insert 0 ls i _ (x :: l) Hi) as H1.
  rewrite list_insert_id in H1 by done. cbn [head_of app] in H1.
  rewrite (heads_insert 0 ls i _ l Hi). etransitivity; [apply Permutation_app_comm|].
  apply Permutation_app_head. apply (Permutation_cons_inv (a := mkHead i x.1)).
  rewrite <- Ht, Hh, H1. done.
Qed.

Lemma heads_least ls heap i k t :
  heap ≡ₚ heads 0 ls -> heap_pop heap = Some (mkHead i k, t) ->
  exists x l, ls !! i = Some (x :: l) /\ k = x.1 /\ least ls i k /\ heap ≡ₚ mkHead i k :: t.
Proof.
  intros Hh Hp. destruct (heap_pop_spec _ _ _ Hp) as [Hperm Hmin].
  assert (mkHead i k ∈ heads 0 ls) as (j & x & l & Hj & [= -> ->])%heads_elem.
  { rewrite <- Hh, Hperm. by left. }
  exists x, l. split_and!; try done. intros j' x' l' Hj'.
  assert (mkHead j' x'.1 ∈ heap) as Hin%Hmin.
  { rewrite Hh. apply heads_elem. by exists j', x', l'. }
  unfold Order in Hin. cbn [hkey input] in Hin. case_decide as Heq.
  - apply Nat.ltb_ge in Hin. rewrite Heq. split; [apply (irreflexivity bytes_lt)|lia].
  - split; [|done]. intros Hlt. apply bytes_ltb_lt in Hlt. congruence.
Qed.

(** ** The loop, over the kernel *)

Lemma table_rep_transfer w w' t rs :
  table_rep w t rs -> contents w' (fd_ t) = contents w (fd_ t) -> table_rep w' t rs.
Proof. intros [H1 H2 H3 H4 H5 H6] Hc. constructor; auto. by rewrite Hc. Qed.

Lemma cursor_at_transfer w w' t rs c l :
  cursor_at w t rs c l -> contents w' (fd_ t) = contents w (fd_ t) -> cursor_at w' t rs c l.
Proof.
  intros Hc Heq. destruct l as [|x l]; cbn in *.
  - destruct Hc as (Hv & [H1 H2 H3]). split; [done|]. constructor; auto. by rewrite Heq.
  - destruct Hc as (Hv & Hk & Hval & Ht & He & [H1 H2 H3]). split_and!; auto.
    constructor; auto. by rewrite Heq.
Qed.

(** Rows as a cursor gives them back. *)
Definition canonical (x : row) : Prop := stored x.2 = x.2.

Section run.
Context (E : env) (inputs : list Sstable) (rows : list (list row)) (w0 : world).
Context (drop_obsolete : bool) (now : Z) (bpk : Z).

Definition total_data : nat := length (data_of (concat rows)).
Definition total_rows : nat := length (concat rows).
Definition total_files : nat := length (concat ((fun t => contents w0 (fd_ t)) <$> inputs)).

(** Rounds that are enough for every loop of the merge. *)
Definition merge_budget : nat :=
  (total_files + 2 * total_data + 12 * total_rows +
   total_rows * Z.to_nat (Z.max 1 bpk) + 60)%nat.

Context (Hrep : Forall2 (table_rep w0) inputs rows).
Context (Hcanon : Forall canonical (concat rows)).
Context (Hfits : fits (concat rows)).

Abbreviation bad := (~ reliable E merge_budget).

(** The inputs' files are as they were. *)
Definition untouched (w : world) : Prop :=
  forall t, t ∈ inputs -> contents w (fd_ t) = contents w0 (fd_ t).

Lemma input_bad w i t :
  inputs !! i = Some t -> untouched w -> ~ reliable E (length (contents w (fd_ t))) -> bad.
Proof.
  intros Ht Hw H. contradict H. eapply reliable_mono; [|done].
  rewrite Hw by (by eapply list_elem_of_lookup_2). unfold merge_budget.
  enough (length (contents w0 (fd_ t)) <= total_files)%nat by lia.
  unfold total_files. rewrite <- (take_drop_middle inputs i t Ht), fmap_app, concat_app, length_app.
  cbn. rewrite length_app. lia.
Qed.

Lemma output_budget out bs :
  Forall row_ok out -> blocks_of bs out ->
  (length out <= total_rows)%nat -> (length (data_of out) <= total_data)%nat ->
  (length (table_image bs out bpk) <= merge_budget)%nat.
Proof.
  intros Hok Hbs Hn Hd. etransitivity; [by apply table_image_bound|].
  pose proof (zlen_build out.*1 bpk) as Hb. unfold zlen in Hb. rewrite length_fmap in Hb.
  assert (length out * Z.to_nat (Z.max 1 bpk) <= total_rows * Z.to_nat (Z.max 1 bpk))%nat
    by (by apply Nat.mul_le_mono_r).
  unfold merge_budget. lia.
Qed.

(** Every input has its cursor on its stream. *)
Definition streams (w : world) (cs : list Cursor) (ls : list (list row)) : Prop :=
  length cs = length inputs /\ length ls = length inputs /\
  forall i t rs c l, inputs !! i = Some t -> rows !! i = Some rs -> cs !! i = Some c ->
    ls !! i = Some l -> cursor_at w t rs c l.

Lemma untouched_frame w w' i :
  untouched w -> frame i w w' -> (forall t, t ∈ inputs -> fd_ t <> i) -> untouched w'.
Proof. intros Hu Hf Hi t Ht. rewrite <- Hu by done. apply (frame_contents i); auto. Qed.

Lemma untouched_same w w' : untouched w -> same_files w w' -> untouched w'.
Proof. intros Hu Hs t Ht. rewrite <- Hs. by apply Hu. Qed.

Lemma streams_transfer w w' cs ls :
  untouched w -> untouched w' -> streams w cs ls -> streams w' cs ls.
Proof.
  intros Hu Hu' (H1 & H2 & H3). split_and!; auto. intros i t rs c l Ht Hrs Hc Hl.
  apply (cursor_at_transfer w); [eauto|]. rewrite Hu, Hu'; [done|by eapply list_elem_of_lookup_2..].
Qed.

Lemma rep_at w i t rs :
  untouched w -> inputs !! i = Some t -> rows !! i = Some rs -> table_rep w t rs.
Proof.
  intros Hu Ht Hrs. apply (table_rep_transfer w0).
  - eapply Forall2_lookup_lr; eauto.
  - apply Hu. by eapply list_elem_of_lookup_2.
Qed.

Lemma wp_open_cursors w w1 ts rs :
  Forall2 (table_rep w) ts rs -> same_files w w1 ->
  (forall t, t ∈ ts -> ~ reliable E (length (contents w (fd_ t))) -> bad) ->
  wp (open_cursors E ts) (fun r w' => same_files w w' /\ match r with
    | Ret cs => Forall3 (fun t l c => cursor_at w t l c l \/ failed_ c = true /\ bad) ts rs cs
    | Throw _ => False
    | Dead => bad
    end) w1.
Proof.
  intros Hts. revert w1. induction Hts as [|t l ts rs Ht Hts IH]; intros w1 Hw1 Hbad; cbn [open_cursors].
  { apply wp_ret. split; [done|constructor]. }
  apply wp_bind. eapply wp_mono; [apply (wp_load E w t l Cursor_init l w1 Ht);
    [by apply cursor_init_inv|done]|].
  intros [c|e|] w2 [Hw2 Hr]; [|done|by split; [|eapply Hbad; [left|]]].
  apply wp_bind. eapply wp_mono; [apply IH; [done|]; intros t' Ht'; apply Hbad; by right|].
  intros [cs|e|] w3 [Hw3 Hr3]; [|done|done].
  apply wp_ret. split; [done|]. constructor; [|done].
  destruct Hr as [?|(? & _ & Hn)]; [by left|right]. split; [done|]. eapply Hbad; [left|done].
Qed.

Lemma fill_heap_spec w ts rs cs :
  Forall3 (fun t l c => cursor_at w t l c l \/ failed_ c = true /\ bad) ts rs cs ->
  forall i heap, match fill_heap i cs heap with
    | None => bad
    | Some h => h ≡ₚ heap ++ heads i rs /\ Forall3 (fun t l c => cursor_at w t l c l) ts rs cs
    end.
Proof.
  induction 1 as [|t l c ts rs cs Hc H3 IH]; intros i heap; cbn [fill_heap heads].
  { split; [by rewrite app_nil_r|constructor]. }
  destruct (failed_ c) eqn:Hf.
  { destruct Hc as [Hc|[_ ?]]; [|done]. exfalso.
    assert (failed_ c = false) by (destruct l; [destruct Hc as [_ []]|destruct Hc as (_&_&_&_&_&[])]; done).
    congruence. }
  destruct Hc as [Hc|[? _]]; [|done].
  specialize (IH (S i) (if valid_ c then heap ++ [mkHead i (key_ c)] else heap)).
  destruct (fill_heap _ _ _) as [h|]; [|done]. destruct IH as [Hh H3'].
  split; [|by constructor]. rewrite Hh. destruct l as [|x l].
  - destruct Hc as [-> _]. done.
  - destruct Hc as (-> & -> & _). cbn [head_of]. by rewrite <- app_assoc.
Qed.

Lemma Forall3_lookup_all {A B C} (P : A -> B -> C -> Prop) l k m :
  Forall3 P l k m -> length m = length l /\ length k = length l /\
  forall i a b c, l !! i = Some a -> k !! i = Some b -> m !! i = Some c -> P a b c.
Proof.
  induction 1 as [|a b c l k m Hp H3 (H1 & H2 & H)]; [done|]. cbn. split_and!; [lia..|].
  intros [|i] a' b' c'; cbn; [naive_solver|eauto].
Qed.

Context (i_out : nat) (Hout : forall t, t ∈ inputs -> fd_ t <> i_out).

(** The output so far, and what is left of it and of the streams. *)
Record sizes (out : list row) (ls : list (list row)) : Prop := {
  sz_out : Forall row_ok out /\ Forall canonical out;
  sz_rest : Forall row_ok (concat ls) /\ Forall canonical (concat ls);
  sz_rows : (length out + length (concat ls) <= total_rows)%nat;
  sz_data : (length (data_of out) + length (data_of (concat ls)) <= total_data)%nat
}.

Record loop_inv (w : world) (s : merge_state) (out : list row) (ls : list (list row)) : Prop := {
  li_untouched : untouched w;
  li_streams : streams w (ms_cursors s) ls;
  li_heap : ms_heap s ≡ₚ heads 0 ls;
  li_spec : merge_spec drop_obsolete now rows out (ms_previous s) ls;
  li_sizes : sizes out ls;
  li_writer : sw_fd (ms_writer s) = i_out /\ sw_bits_per_key (ms_writer s) = bpk /\
    (writer_rep w (ms_writer s) out \/ sw_failed (ms_writer s) = true /\ bad);
  li_result : ok (ms_result s) = false /\ written (ms_result s) = zlen out
}.

Lemma concat_advance (ls : list (list row)) i x l :
  ls !! i = Some (x :: l) -> concat ls ≡ₚ x :: concat (<[i := l]> ls).
Proof.
  revert i. induction ls as [|l0 ls IH]; intros [|i]; cbn; try done.
  - by intros [= ->].
  - intros Hi. rewrite (IH i Hi). by rewrite Permutation_middle.
Qed.

Lemma data_of_perm a b : a ≡ₚ b -> length (data_of a) = length (data_of b).
Proof.
  induction 1; [done| | |congruence]; rewrite !data_of_cons, !length_app; lia.
Qed.

Lemma sizes_step out ls i x l new :
  sizes out ls -> ls !! i = Some (x :: l) -> new = [] \/ new = [x] ->
  sizes (out ++ new) (<[i := l]> ls).
Proof.
  intros [[H1 H2] [H3 H4] H5 H6] Hi Hnew. pose proof (concat_advance ls i x l Hi) as Hp.
  rewrite Hp in H3, H4. inversion H3; inversion H4; subst.
  apply Permutation_length in Hp as Hl. cbn in Hl. apply data_of_perm in Hp as Hd.
  rewrite data_of_cons, length_app in Hd.
  destruct Hnew as [->| ->]; rewrite ?app_nil_r.
  - constructor; auto; lia.
  - constructor; [rewrite !Forall_app; auto|auto|rewrite length_app; cbn; lia|].
    rewrite data_of_snoc, length_app. lia.
Qed.

Lemma fits_out out ls : sizes out ls -> fits out.
Proof.
  intros [_ _ H1 H2]. destruct Hfits as [F1 F2]. unfold fits, total_rows, total_data, zlen in *. lia.
Qed.

(** One round's decision about the entry under the cursor. *)
Definition emit_post (w : world) (s : merge_state) (out : list row) (x : row)
    (r : res (SstableWriter * option bytes * CompactionResult)) (w' : world) : Prop :=
  frame i_out w w' /\
  match r with
  | Ret (wr, prev, res) =>
      exists new, prev = Some x.1 /\
        (new = [] \/ new = [x]) /\
        (ms_previous s = Some x.1 /\ new = [] \/
         ms_previous s <> Some x.1 /\
         new = match keep drop_obsolete now x.2 with Some e => [(x.1, e)] | None => [] end) /\
        sw_fd wr = i_out /\ sw_bits_per_key wr = bpk /\
        (writer_rep w' wr (out ++ new) \/ sw_failed wr = true /\ bad) /\
        ok res = false /\ written res = zlen (out ++ new)
  | Throw _ => False
  | Dead => bad
  end.

Lemma wp_emit w s out ls i c t rs x l :
  loop_inv w s out ls -> ls !! i = Some (x :: l) -> cursor_at w t rs c (x :: l) ->
  wp (emit E drop_obsolete now s (mkHead i x.1) c) (emit_post w s out x) w.
Proof.
  intros [_ _ _ _ Hsz (Hfd & Hbits & Hwr) [Hok Hwritten]] Hi (Hv & Hk & Hval & Ht & He & _).
  pose proof (sizes_step out ls i x l [x] Hsz Hi (or_intror eq_refl)) as Hsz1.
  assert (row_ok x /\ canonical x) as [Hx Hcx].
  { destruct Hsz as [_ [H3 H4] _ _]. rewrite (concat_advance ls i x l Hi) in H3, H4.
    inversion H3; inversion H4; subst. done. }
  assert (expires_at_ms (stored x.2) = expires_at_ms x.2) as Hst by (by rewrite Hcx).
  assert (forall wr prev d, (writer_rep w wr out \/ sw_failed wr = true /\ bad) -> sw_fd wr = i_out ->
    sw_bits_per_key wr = bpk -> prev = Some x.1 ->
    (ms_previous s = Some x.1 \/ ms_previous s <> Some x.1 /\ keep drop_obsolete now x.2 = None) ->
    emit_post w s out x
      (Ret (wr, prev, mkCompactionResult (ok (ms_result s)) (written (ms_result s)) d)) w) as Hno.
  { intros wr prev d Hwr' Hfd' Hbits' -> Hcase. split; [done|]. exists []. rewrite app_nil_r.
    split_and!; auto. destruct Hcase as [?|[? ->]]; auto. }
  unfold emit. cbn [hkey]. rewrite Hk, Hval, Ht, He, Hst.
  case_bool_decide as Hprev; [apply wp_ret, Hno; auto|].
  fold (obsolete now x.2).
  destruct (drop_obsolete && obsolete now x.2) eqn:Hdrop.
  { apply wp_ret, Hno; auto. right. split; [done|]. unfold keep. by rewrite Hdrop. }
  assert (keep drop_obsolete now x.2 = Some x.2) as Hkeep by (unfold keep; by rewrite Hdrop).
  assert (forall wr w', frame i_out w w' -> sw_fd wr = i_out -> sw_bits_per_key wr = bpk ->
    (writer_rep w' wr (out ++ [x]) \/ sw_failed wr = true /\ bad) ->
    emit_post w s out x (Ret (wr, Some x.1, mkCompactionResult (ok (ms_result s))
      (u64 (written (ms_result s) + 1)) (dropped (ms_result s)))) w') as Hyes.
  { intros wr w' Hf Hfd' Hbits' Hwr'. split; [done|]. exists [x]. rewrite Hkeep.
    split_and!; auto; [right; split; [done|by destruct x]|]. cbn [written].
    rewrite Hwritten, zlen_app. change (zlen [x]) with 1. apply u64_id.
    apply fits_out in Hsz as [Hf1 _]. unfold is_u64. zlia. }
  apply wp_bind. destruct Hwr as [Hwr|[Hfail Hbad]].
  - eapply wp_mono; [apply wp_add; [done|done|by apply (fits_out _ (<[i := l]> ls))]|].
    assert (~ reliable E (length (data_of (out ++ [x]))) -> bad) as Hmono.
    { intros H. contradict H. eapply reliable_mono; [|done]. destruct Hsz1 as [_ _ _ H1].
      unfold merge_budget. lia. }
    intros [wr'|e|] w' [Hf Hr]; rewrite Hfd in Hf; [|done|by split; [|apply Hmono]].
    destruct Hr as (Hfd' & Hbits' & Hr). apply wp_ret, Hyes; [done|congruence|congruence|].
    destruct Hr as [?|[? ?]]; auto.
  - unfold add. rewrite Hfail. apply wp_ret, wp_ret, Hyes; [done..|auto].
Qed.

(** What a round leaves when the cursor goes on. *)
Lemma loop_step w w1 s out ls i c t x l rs heap wr prev r new :
  loop_inv w s out ls -> frame i_out w w1 -> ls !! i = Some (x :: l) ->
  inputs !! i = Some t -> rows !! i = Some rs ->
  ms_heap s ≡ₚ mkHead i x.1 :: heap -> least ls i x.1 -> prev = Some x.1 ->
  new = [] \/ new = [x] ->
  (ms_previous s = Some x.1 /\ new = [] \/
   ms_previous s <> Some x.1 /\
   new = match keep drop_obsolete now x.2 with Some e => [(x.1, e)] | None => [] end) ->
  sw_fd wr = i_out /\ sw_bits_per_key wr = bpk /\
    (writer_rep w1 wr (out ++ new) \/ sw_failed wr = true /\ bad) ->
  ok r = false /\ written r = zlen (out ++ new) ->
  cursor_at w1 t rs c l ->
  loop_inv w1 (mkMerge (if valid_ c then heap ++ [mkHead i (key_ c)] else heap)
                 (<[i := c]> (ms_cursors s)) wr prev r) (out ++ new) (<[i := l]> ls).
Proof.
  intros [Hu Hst Hheap Hspec Hsz _ _] Hf Hi Ht Hrs Hpop Hleast -> Hnew Hcase Hwr Hres Hc.
  assert (untouched w1) as Hu1 by (by eapply untouched_frame).
  constructor; cbn [ms_cursors ms_heap ms_writer ms_previous ms_result]; auto.
  - destruct (streams_transfer w w1 _ _ Hu Hu1 Hst) as (L1 & L2 & H3).
    split_and!; [by rewrite length_insert..|].
    intros j t' rs' c' l' Ht' Hrs'. destruct (decide (j = i)) as [->|].
    + rewrite !list_lookup_insert_eq by (apply lookup_lt_Some in Ht; lia). naive_solver congruence.
    + rewrite !list_lookup_insert_ne by done. eauto.
  - rewrite <- (heads_pop (ms_heap s) heap ls i x l Hheap Hpop Hi).
    destruct l as [|y l]; cbn [head_of].
    + destruct Hc as [-> _]. by rewrite app_nil_r.
    + by destruct Hc as (-> & -> & _).
  - destruct x as [k e]. cbn [fst snd] in *. destruct Hcase as [[Hp ->]|[Hp ->]].
    + rewrite app_nil_r, Hp in *. by eapply merge_skip.
    + by apply merge_emit with (prev := ms_previous s).
  - by eapply sizes_step.
Qed.

Definition loop_post (w : world) (r : res (CompactionResult + merge_state)) (w' : world) : Prop :=
  frame i_out w w' /\
  match r with
  | Ret (inr s) => exists out ls, loop_inv w' s out ls /\ forall l, l ∈ ls -> l = []
  | Ret (inl r) => ok r = false /\ bad
  | Throw _ => False
  | Dead => bad
  end.

Lemma wp_merge_loop fuel : forall w s out ls,
  loop_inv w s out ls -> (length (concat ls) < fuel)%nat ->
  wp (merge_loop E inputs drop_obsolete now fuel s) (loop_post w) w.
Proof.
  induction fuel as [|fuel IH]; intros w s out ls Hinv Hfuel; [lia|]. cbn [merge_loop].
  destruct (heap_pop (ms_heap s)) as [[[i k] heap]|] eqn:Hp.
  2: { apply wp_ret. split; [done|]. exists out, ls. split; [done|]. intros l Hl.
       apply heap_pop_None in Hp. destruct Hinv as [_ _ Hh _ _ _ _]. rewrite Hp in Hh.
       apply list_elem_of_lookup in Hl as [j Hj]. destruct l as [|x l]; [done|].
       assert (mkHead j x.1 ∈ heads 0 ls) as Hin by (apply heads_elem; by exists j, x, l).
       rewrite <- Hh in Hin. by apply elem_of_nil in Hin. }
  destruct (heads_least ls (ms_heap s) i k heap) as (x & l & Hi & -> & Hleast & Hpop);
    [by destruct Hinv|done|]. cbn [input].
  pose proof Hinv as [Hu (L1 & L2 & Hat) _ _ _ _ _].
  assert (i < length inputs)%nat as Hlt by (apply lookup_lt_Some in Hi; lia).
  destruct (lookup_lt_is_Some_2 inputs i Hlt) as [t Ht].
  destruct (lookup_lt_is_Some_2 (ms_cursors s) i) as [c Hc]; [lia|].
  destruct (lookup_lt_is_Some_2 rows i) as [rs Hrs]; [apply Forall2_length in Hrep; lia|].
  rewrite Hc, Ht. specialize (Hat i t rs c (x :: l) Ht Hrs Hc Hi).
  apply wp_bind. eapply wp_mono; [by apply (wp_emit w s out ls i c t rs x l)|].
  intros [[[wr prev] r]|e|] w1 [Hf1 Hr]; [|done|done].
  destruct Hr as (new & Hprev & Hnew & Hcase & Hfd & Hbits & Hwr & Hok & Hwritten).
  assert (untouched w1) as Hu1 by (by eapply untouched_frame).
  assert (cursor_at w1 t rs c (x :: l)) as Hat1.
  { apply (cursor_at_transfer w); [done|]. rewrite Hu, Hu1; [done|by eapply list_elem_of_lookup_2..]. }
  apply wp_bind. eapply wp_mono; [apply (wp_load E w1 t rs c l w1)|].
  { by apply (rep_at w1 i). } { by destruct Hat1 as (_ & _ & _ & _ & _ & ?). } { done. }
  intros [c'|e|] w2 [Hw2 Hr2]; [|done|].
  2: { split; [etransitivity; [done|by apply same_files_frame]|]. by eapply input_bad. }
  assert (frame i_out w w2) as Hf2 by (etransitivity; [done|by apply same_files_frame]).
  destruct Hr2 as [Hc'|(Hf' & _ & Hn)].
  - assert (failed_ c' = false) as ->
      by (destruct l; [destruct Hc' as [_ []]|destruct Hc' as (_&_&_&_&_&[])]; done).
    eapply wp_mono; [apply (IH w2 _ (out ++ new) (<[i := l]> ls))|].
    + apply (loop_step w w2 s out ls i c' t x l rs); try done.
      * split_and!; [done..|]. destruct Hwr as [Hwr|]; [left|by right].
        destruct Hwr as [W1 W2 W3 W4 W5 W6]. constructor; auto. by rewrite <- Hw2.
      * apply (cursor_at_transfer w1); [done|]. by rewrite <- Hw2.
    + rewrite (concat_advance ls i x l Hi) in Hfuel. cbn in Hfuel. lia.
    + intros r3 w3 [Hf3 Hr3]. split; [by etransitivity|done].
  - rewrite Hf'. apply wp_ret. split; [done|]. split; [done|]. by eapply input_bad.
Qed.

End run.

(** What [compact] comes to. *)
Definition compact_post (E : env) (inputs : list Sstable) (rows : list (list row)) (w : world)
    (drop_obsolete : bool) (now bpk : Z) (out_path : bytes)
    (r : res CompactionResult) (w' : world) : Prop :=
  match r with
  | Ret (mkCompactionResult true written _) =>
      exists i out, creates out_path i w w' /\ durable w' i /\ is_table out (contents w' i) /\
        Forall canonical out /\ written = zlen out /\
        (length (contents w' i) <= merge_budget inputs rows w bpk)%nat /\
        forall k, sm_find k out = first_of rows k ≫= keep drop_obsolete now
  | _ => (same_files w w' \/ exists i, creates out_path i w w') /\
         ~ reliable E (merge_budget inputs rows w bpk)
  end.

Lemma merge_fuel_enough w inputs rows :
  Forall2 (table_rep w) inputs rows -> (length (concat rows) < merge_fuel inputs)%nat.
Proof.
  unfold merge_fuel. induction 1 as [|t rs inputs rows Ht _ IH]; [cbn; lia|].
  cbn [concat foldr]. rewrite length_app. destruct Ht as [Hok _ _ -> _ _].
  pose proof (length_data_of rs Hok). rewrite zlen_to_nat. lia.
Qed.

Lemma streams_sorted w inputs rows :
  Forall2 (table_rep w) inputs rows -> forall l, l ∈ rows -> sm_sorted l.
Proof.
  intros H2 l [i Hi]%list_elem_of_lookup.
  destruct (Forall2_lookup_r _ _ _ _ _ H2 Hi) as (t & _ & []). done.
Qed.

Lemma rows_ok_concat w inputs rows :
  Forall2 (table_rep w) inputs rows -> Forall row_ok (concat rows).
Proof. induction 1 as [|t rs ? ? Ht _ IH]; [constructor|]. apply Forall_app. by destruct Ht. Qed.

Lemma inputs_transfer w w' inputs rows :
  Forall2 (table_rep w) inputs rows -> untouched inputs w w' -> Forall2 (table_rep w') inputs rows.
Proof.
  intros H2. induction H2 as [|t rs inputs rows Ht _ IH]; intros Hu; constructor.
  - apply (table_rep_transfer w); [done|]. apply Hu. by left.
  - apply IH. intros t' Ht'. apply Hu. by right.
Qed.

(** The inode behind the output name is none of the inputs'. *)
Definition output_free (w : world) (out_path : bytes) (inputs : list Sstable) : Prop :=
  forall t, t ∈ inputs -> dir w !! out_path <> Some (fd_ t) /\ fd_ t <> next_ino w.

Lemma creates_output_free w w' path i inputs :
  output_free w path inputs -> creates path i w w' -> forall t, t ∈ inputs -> fd_ t <> i.
Proof.
  intros Hfree [_ _ _ _ Hc] t Ht. destruct (Hfree t Ht) as [H1 H2].
  destruct Hc as [[Hd _]|(_ & -> & _)]; congruence.
Qed.

Lemma creates_untouched w w' path i inputs :
  output_free w path inputs -> creates path i w w' -> untouched inputs w w'.
Proof.
  intros Hfree Hc t Ht. unfold contents. rewrite (cr_ino _ _ _ _ Hc); [done|].
  by eapply creates_output_free.
Qed.

Lemma wp_compact E inputs rows w drop_obsolete now bpk out_path :
  Forall2 (table_rep w) inputs rows -> Forall canonical (concat rows) -> fits (concat rows) ->
  output_free w out_path inputs ->
  wp (compact E inputs drop_obsolete now out_path bpk)
     (compact_post E inputs rows w drop_obsolete now bpk out_path) w.
Proof.
  intros Hrep Hcanon Hfits Hfree. set (budget := merge_budget inputs rows w bpk).
  assert (untouched inputs w w) as Hu0 by done.
  unfold compact. apply wp_bind. eapply wp_mono;
    [apply (wp_open_cursors E inputs rows w bpk w w inputs rows Hrep); [done|]|].
  { intros t [i Ht]%list_elem_of_lookup. by eapply input_bad. }
  intros [cs|e|] w1 [Hw1 Hcs]; [|done|by split; [left|]].
  pose proof (fill_heap_spec E inputs rows w bpk w inputs rows cs Hcs 0 []) as Hheap.
  destruct (fill_heap 0 cs []) as [heap|]; [|apply wp_ret; by split; [left|]].
  destruct Hheap as [Hheap Hcs']. apply Forall3_lookup_all in Hcs' as (L1 & L2 & Hat).
  assert (forall n, (n <= budget)%nat -> ~ reliable E n -> ~ reliable E budget) as Hmono.
  { intros n Hn H. contradict H. by eapply reliable_mono. }
  unfold SstableWriter_open. apply wp_bind, wp_bind, wp_open_trunc.
  2: { intros r w2 Hw2 Hr Hrel. apply (Hmono 0%nat) in Hrel; [|lia].
       destruct Hr as [->| ->]; [apply wp_throw|]; (split; [left; by etransitivity|done]). }
  intros i w2 Hcr0 Hc2. apply wp_ret. apply (same_creates _ _ _ _ _ Hw1) in Hcr0 as Hcr.
  pose proof (creates_output_free _ _ _ _ _ Hfree Hcr) as Hout.
  pose proof (creates_untouched _ _ _ _ _ Hfree Hcr) as Hu2.
  apply wp_bind. eapply wp_mono;
    [apply (wp_merge_loop E inputs rows w drop_obsolete now bpk Hrep Hfits i Hout
       (merge_fuel inputs) w2 _ [] rows); [|by eapply merge_fuel_enough]|].
  { constructor; cbn [ms_cursors ms_heap ms_writer ms_previous ms_result]; auto.
    - split_and!; [done|done|]. intros j t rs c l Ht Hrs Hc Hl. rewrite Hrs in Hl. injection Hl as <-.
      apply (cursor_at_transfer w); [by eapply Hat|]. apply Hu2. by eapply list_elem_of_lookup_2.
    - apply merge_start; [|done]. by eapply streams_sorted.
    - constructor; auto; [by split; [eapply rows_ok_concat|]|done..].
    - split_and!; auto. left. by apply writer_rep_init. }
  intros [[r|s]|e|] w3 [Hf3 Hr3]; [| |done|].
  - destruct Hr3 as [Hok Hbad]. apply wp_ret. destruct r as [okr wr dr]. cbn in Hok. subst okr.
    split; [right; exists i; by eapply creates_frame|done].
  - destruct Hr3 as (out & ls & [Hu3 _ _ Hspec Hsz (Hfd & Hbits & Hwr) [Hok Hwritten]] & Hnil).
    assert (creates out_path i w w3) as Hcr3 by (by eapply creates_frame).
    destruct (ms_result s) as [okr wn dn] eqn:Hres. cbn in Hok, Hwritten. subst okr.
    pose proof (fits_out _ Hfits _ _ Hsz) as Hfit.
    pose proof (merge_finish _ _ _ _ _ _ Hspec Hnil) as Hfind.
    destruct Hsz as [[Hrok Hcan] _ Hn Hd]. apply wp_bind.
    destruct Hwr as [Hwr|[Hfail Hbad]].
    + eapply wp_mono; [apply (wp_finish E _ out w3 Hwr Hrok); [by destruct Hspec|done]|].
      intros r4 w4 [Hf4 Hr4]. rewrite Hfd, Hbits in *.
      assert (creates out_path i w w4) as Hcr4 by (by eapply creates_frame).
      assert (forall bs, blocks_of bs out -> ~ reliable E (length (table_image bs out bpk)) ->
        ~ reliable E budget) as Hbad.
      { intros bs Hbs H. eapply Hmono; [|done]. apply output_budget; auto; lia. }
      destruct r4 as [[[] ?]|e|]; [|apply wp_ret|done|].
      * destruct Hr4 as (Hdur & bs & Hbs & Himg). apply wp_ret. exists i, out. split_and!; auto.
        { split_and!; auto; [by destruct Hspec|]. by exists bs, bpk. }
        rewrite Himg. apply output_budget; auto; lia.
      * destruct Hr4 as (bs & Hbs & Hrel). split; [by right; exists i|eauto].
      * destruct Hr4 as (bs & Hbs & Hrel). split; [by right; exists i|eauto].
    + unfold finish. rewrite Hfail. cbn [orb]. apply wp_ret, wp_ret.
      split; [by right; exists i|done].
  - split; [right; exists i; by eapply creates_frame|done].
Qed.

(** ** Properties *)

(** C14: A merge answers like its inputs.  Merging open tables, newest first, gives a
    table that, for every key, holds what the first input that has the key holds
    under it; when nothing older remains, deciding tombstones and entries expired by
    [now] are left out, and nothing else is.  The new table is complete and
    fsynced before success is reported, the inputs' files are untouched, and a
    merge that fails, throws or never returns is the kernel's doing. *)
Theorem compaction_correct (E : env) (inputs : list Sstable) (rows : list (list row))
    (w w' : world) (drop_obsolete : bool) (now bits_per_key : Z) (out_path : bytes)
    (r : res CompactionResult) :
  Forall2 (table_rep w) inputs rows -> Forall canonical (concat rows) -> fits (concat rows) ->
  output_free w out_path inputs ->
  compact E inputs drop_obsolete now out_path bits_per_key w = (r, w') ->
  Forall2 (table_rep w') inputs rows /\
  match r with
  | Ret (mkCompactionResult true written _) =>
      exists i out, dir w' !! out_path = Some i /\ durable w' i /\
        is_table out (contents w' i) /\ written = zlen out /\
        forall k, sm_find k out =
          first_of rows k ≫= fun e =>
            if drop_obsolete && obsolete now e then None else Some e
  | _ => ~ reliable E (merge_budget inputs rows w bits_per_key)
  end.
Proof.
  intros Hrep Hcanon Hfits Hfree Hrun.
  pose proof (wp_elim _ _ _ _ _
    (wp_compact E inputs rows w drop_obsolete now bits_per_key out_path Hrep Hcanon Hfits Hfree) Hrun)
    as Hpost.
  assert (same_files w w' \/ (exists i, creates out_path i w w') ->
    Forall2 (table_rep w') inputs rows) as Hkeep.
  { intros Hw. apply (inputs_transfer w); [done|]. destruct Hw as [Hw|[i Hc]].
    - intros t _. by rewrite <- Hw.
    - by eapply creates_untouched. }
  destruct r as [[[] wn dn]|e|]; cbn in Hpost; [|by destruct Hpost as [? ?]; auto..].
  destruct Hpost as (i & out & Hcr & Hdur & Htab & _ & Hn & _ & Hfind). split; [eauto|].
  exists i, out. split_and!; auto. rewrite (cr_dir _ _ _ _ Hcr). apply lookup_insert_eq.
Qed.

(** Two tables of one row each: the newer deletes the key of the older. *)
Definition demo_new : list row := [(lit "a", mkEntry [] true 0)].
Definition demo_old : list row := [(lit "a", mkEntry (lit "1") false 0)].
Definition demo_inputs : list Sstable :=
  [mkSstable (lit "000002.sst") 0 (build demo_new.*1 10) (block_index [demo_new] 0)
     (zlen (data_of demo_new)) 1 true;
   mkSstable (lit "000001.sst") 1 (build demo_old.*1 10) (block_index [demo_old] 0)
     (zlen (data_of demo_old)) 1 true].
Definition demo_merge_world : world :=
  mkWorld 0 {[lit "000002.sst" := 0%nat; lit "000001.sst" := 1%nat]} ∅
    {[0%nat := table_image [demo_new] demo_new 10; 1%nat := table_image [demo_old] demo_old 10]} ∅ 2.

Lemma demo_inputs_rep : Forall2 (table_rep demo_merge_world) demo_inputs [demo_new; demo_old].
Proof.
  constructor; [|constructor; [|constructor]].
  - apply (table_image_rep _ _ [demo_new] _ 10); try done.
    + by repeat constructor. + by repeat constructor. + split; [done|by repeat constructor].
  - apply (table_image_rep _ _ [demo_old] _ 10); try done.
    + by repeat constructor. + by repeat constructor. + split; [done|by repeat constructor].
Qed.

Lemma compaction_correct_witness :
  let run := compact (fair_env 400) demo_inputs true 5 (lit "compact.tmp") 10 demo_merge_world in
  exists i out, dir run.2 !! lit "compact.tmp" = Some i /\ is_table out (contents run.2 i) /\
    sm_find (lit "a") out = None.
Proof.
  intros run.
  destruct (compaction_correct (fair_env 400) demo_inputs [demo_new; demo_old] demo_merge_world run.2
    true 5 10 (lit "compact.tmp") run.1) as [_ H].
  - apply demo_inputs_rep.
  - by repeat constructor.
  - by split.
  - intros t Ht. repeat (apply elem_of_cons in Ht as [->|Ht]; [split; vm_compute; congruence|]).
    by apply elem_of_nil in Ht.
  - apply surjective_pairing.
  - assert (run.1 = Ret (mkCompactionResult true 0 2)) as Hr by (vm_compute; reflexivity).
    rewrite Hr in H. destruct H as (i & out & Hd & _ & Ht & _ & Hf). exists i, out.
    split; [done|]. split; [done|]. by rewrite Hf.
Defined.

(** A two-row table whose second entry has one byte of its key length damaged. *)
Definition damaged_rows : list row :=
  [(lit "a", mkEntry (lit "1") false 0); (lit "b", mkEntry (lit "2") false 0)].
Definition damaged_world : world :=
  mkWorld 0 {[lit "000001.sst" := 0%nat]} ∅
    {[0%nat := <[length (row_buf (lit "a", mkEntry (lit "1") false 0)) := xff]>
                 (table_image [damaged_rows] damaged_rows 10)]} ∅ 1.

(** Damage inside a data block is taken for its end.  The cursor reports failure
    only for a read error; an entry whose length runs past the block just ends the
    walk, so a merge of this table, which opens and counts two entries, succeeds
    with one, and the caller then replaces its input by the shorter table. *)
Theorem damaged_entry_ends_merge :
  exists t w1 w2,
    Sstable_open (fair_env 400) (lit "000001.sst") true damaged_world = (Ret t, w1) /\
    entry_count_ t = 2 /\
    compact (fair_env 400) [t] false 5 (lit "compact.tmp") 10 w1 =
      (Ret (mkCompactionResult true 1 0), w2).
Proof.
  eexists _, _, _. split; [vm_compute; reflexivity|]. split; [reflexivity|].
  vm_compute. reflexivity.
Qed.
