(* ===== verification/Store.v ===== *)
(** * The store

    [class Store] of [store.h] and [store.cpp]: a memtable over a stack of tables,
    newest first, with the write-ahead log in front of it.  Reads go down the
    layers; writes go to the log and then to the memtable; [flush] turns the
    memtable into a table, [maybe_compact] merges a run of tables, [flush_all]
    empties everything, and the constructor rebuilds the stack from the names in
    the data directory. *)

From stdpp Require Import gmap.
From S2P Require Import Prelude Decimal SortedMap Memtable Bloom WalCodec Posix Wal Sstable Compaction.

(** ** Names of tables *)

Definition kTableSuffix : bytes := lit ".sst".
Definition kSequenceDigits : nat := 6.
Definition kCompactTemp : bytes := lit "compact.tmp".
Definition kFlushTemp : bytes := lit "flush.tmp".
Definition ULLONG_MAX : Z := 2 ^ 64 - 1.

(** [sequence_of]: [strtoull] on digits saturates. *)
Definition sequence_of (name : bytes) : option Z :=
  let suffix := length kTableSuffix in
  if decide (length name <= suffix)%nat then None
  else if negb (bool_decide (drop (length name - suffix) name = kTableSuffix)) then None
  else
    let digits := take (length name - suffix) name in
    if decide (digits = []) then None
    else if forallb is_digit digits then Some (Z.min ULLONG_MAX (dec_val digits))
    else None.

(** [snprintf(name, 32, "%06llu.sst", sequence)]: at most 24 characters. *)
Definition table_name (sequence : Z) : bytes :=
  let digits := to_chars sequence in
  replicate (kSequenceDigits - length digits) x30 ++ digits ++ kTableSuffix.

Definition in_dir (d name : bytes) : bytes := d ++ [x2f] ++ name.

(** ** The object *)

Record StoreOptions := mkOptions {
  o_dir : bytes;
  memtable_limit_bytes : Z;
  bloom_bits_per_key : Z;
  use_bloom : bool;
  use_compaction : bool
}.

Record Store := mkStore {
  memtable_ : Memtable;
  sstables_ : list Sstable;
  options_ : StoreOptions;
  next_sequence_ : Z;
  swept_keys_ : Z;
  compactions_ : Z;
  flush_failed_ : bool;
  wal_ : option Wal
}.

Record Found := mkFound { f_value : bytes; f_expires_at_ms : Z }.
Record TtlResult := mkTtl { t_exists : bool; t_has_expiry : bool; t_remaining_ms : Z }.
Record ExpireResult := mkExpire { e_durable : bool; e_applied : bool }.
Record DelResult := mkDel { d_durable : bool; d_was_live : bool }.
Record DelBatchResult := mkDelBatch { b_durable : bool; b_removed : Z }.

Definition set_memtable (st : Store) (m : Memtable) : Store :=
  mkStore m (sstables_ st) (options_ st) (next_sequence_ st) (swept_keys_ st) (compactions_ st)
    (flush_failed_ st) (wal_ st).
Definition set_sstables (st : Store) (ts : list Sstable) : Store :=
  mkStore (memtable_ st) ts (options_ st) (next_sequence_ st) (swept_keys_ st) (compactions_ st)
    (flush_failed_ st) (wal_ st).
Definition set_wal (st : Store) (wal : option Wal) : Store :=
  mkStore (memtable_ st) (sstables_ st) (options_ st) (next_sequence_ st) (swept_keys_ st)
    (compactions_ st) (flush_failed_ st) wal.
Definition set_flush_failed (st : Store) (b : bool) : Store :=
  mkStore (memtable_ st) (sstables_ st) (options_ st) (next_sequence_ st) (swept_keys_ st)
    (compactions_ st) b (wal_ st).

Definition table_path (st : Store) (sequence : Z) : bytes :=
  in_dir (o_dir (options_ st)) (table_name sequence).

(** ** Choosing what to merge *)

Definition kCompactionTrigger : nat := 4.
Definition kTierRatio : Z := 2.

(** The inner walk: from [i] towards the newest while sizes stay in one tier. *)
Fixpoint extend_run (sizes : list Z) (i : nat) (smallest : Z) : nat :=
  match i with
  | O => O
  | S i' =>
      let candidate := nth i' sizes 0 in
      let low := Z.min candidate smallest in
      let high := Z.max candidate smallest in
      if (low =? 0) || (u64 (low * kTierRatio) <? high) then i
      else extend_run sizes i' low
  end.

(** The outer walk: the first run from the oldest end that is long enough, as its
    first index and its length.  Each round moves [i] down, so [i] rounds are
    enough. *)
Fixpoint find_run (fuel : nat) (sizes : list Z) (i : nat) : option (nat * nat) :=
  match fuel with
  | O => None
  | S fuel =>
      match i with
      | O => None
      | S i' =>
          let stop := extend_run sizes i (nth i' sizes 0) in
          if Nat.leb kCompactionTrigger (i - stop) then Some (stop, i - stop)%nat
          else find_run fuel sizes (if Nat.eqb i stop then i' else stop)
      end
  end.

Section operations.
Context (E : env).

(** *** Reading *)

(** The closure [expired]: the clock is read at most once, and only for a stamp;
    [now = 0] is "not read yet". *)
Definition expired (now stamp : Z) : M (bool * Z) :=
  if stamp =? 0 then mret (false, now)
  else
    now ← (if now =? 0 then now_ms E else mret now);
    mret (stamp <=? now, now).

Fixpoint lookup_tables (tables : list Sstable) (key : bytes) (now : Z) : M (option Found) :=
  match tables with
  | [] => mret None
  | t :: tables =>
      l ← Sstable.get E t key;
      if negb (found l) then lookup_tables tables key now
      else if lk_tombstone l then mret None
      else
        '(gone, _) ← expired now (lk_expires_at_ms l);
        if gone : bool then mret None
        else mret (Some (mkFound (lk_value l) (lk_expires_at_ms l)))
  end.

Definition lookup (st : Store) (key : bytes) : M (option Found) :=
  match find (memtable_ st) key with
  | Some e =>
      if tombstone e then mret None
      else
        '(gone, _) ← expired 0 (expires_at_ms e);
        if gone : bool then mret None
        else mret (Some (mkFound (value e) (expires_at_ms e)))
  | None => lookup_tables (sstables_ st) key 0
  end.

Definition get (st : Store) (key : bytes) : M (option bytes) :=
  r ← lookup st key;
  mret (f_value <$> r).

Definition ttl (st : Store) (key : bytes) : M TtlResult :=
  r ← lookup st key;
  match r with
  | None => mret (mkTtl false false 0)
  | Some f =>
      if f_expires_at_ms f =? 0 then mret (mkTtl true false 0)
      else
        now ← now_ms E;
        let remaining := f_expires_at_ms f - now in
        mret (mkTtl true true (if 0 <? remaining then remaining else 0))
  end.

(** *** Flushing *)

(** [wal_ && !wal_->truncate()] *)
Definition log_truncate (st : Store) : M (bool * Store) :=
  match wal_ st with
  | None => mret (true, st)
  | Some wal => '(ok, wal) ← truncate E wal; mret (ok, set_wal st (Some wal))
  end.

(** The second half of [flush]: the finished file gets its name, the name is made
    durable, the log is cut, and only then does the memtable give way. *)
Definition publish (st : Store) (temp path : bytes) (sequence : Z) : M (bool * Store) :=
  renamed ← rename E temp path;
  if negb renamed then (_ ← unlink E temp; mret (false, st)) else
  synced ← fsync_dir E;
  if negb synced then mret (false, st) else
  '(cut, st) ← log_truncate st;
  if negb cut then mret (false, st) else
  table ← Sstable_open E path (use_bloom (options_ st));
  mret (true, mkStore (clear (memtable_ st)) (table :: sstables_ st) (options_ st)
                (u64 (sequence + 1)) (swept_keys_ st) (compactions_ st) (flush_failed_ st)
                (wal_ st)).

Definition flush (st : Store) : M (bool * Store) :=
  let d := o_dir (options_ st) in
  if decide (d = []) then mret (true, st)
  else if Memtable.empty (memtable_ st) then mret (true, st)
  else
    let sequence := next_sequence_ st in
    let path := table_path st sequence in
    let temp := in_dir d kFlushTemp in
    finished ← write_table E temp (bloom_bits_per_key (options_ st)) (for_each (memtable_ st));
    if negb finished then (_ ← unlink E temp; mret (false, st))
    else publish st temp path sequence.

Definition maybe_flush (st : Store) : M Store :=
  if decide (o_dir (options_ st) = []) then mret st
  else if bytes_ (memtable_ st) <? memtable_limit_bytes (options_ st) then mret st
  else
    '(ok, st) ← flush st;
    mret (set_flush_failed st (negb ok)).

(** *** Writing *)

(** [wal_ && !wal_->append(...)] *)
Definition log_append (st : Store) (op : Op) (key value : bytes) (expires_at_ms : Z)
  : M (bool * Store) :=
  match wal_ st with
  | None => mret (true, st)
  | Some wal =>
      '(ok, wal) ← append E wal op key value expires_at_ms;
      mret (ok, set_wal st (Some wal))
  end.

Definition set (st : Store) (key value : bytes) (expires_at_ms : Z) : M (bool * Store) :=
  '(ok, st) ← log_append st kSet key value expires_at_ms;
  if negb ok then mret (false, st)
  else
    let st := set_memtable st (Memtable.set (memtable_ st) key value expires_at_ms) in
    st ← maybe_flush st;
    mret (true, st).

Definition expire (st : Store) (key : bytes) (expires_at_ms : Z) : M (ExpireResult * Store) :=
  r ← lookup st key;
  match r with
  | None => mret (mkExpire true false, st)
  | Some f =>
      '(ok, st) ← set st key (f_value f) expires_at_ms;
      if negb ok then mret (mkExpire false false, st) else mret (mkExpire true true, st)
  end.

Definition del (st : Store) (key : bytes) : M (DelResult * Store) :=
  v ← get st key;
  let was_live := bool_decide (is_Some v) in
  '(ok, st) ← log_append st kDelete key [] 0;
  if negb ok then mret (mkDel false false, st)
  else
    let st := set_memtable st (Memtable.del (memtable_ st) key).2 in
    st ← maybe_flush st;
    mret (mkDel true was_live, st).

Fixpoint del_loop (st : Store) (keys : list bytes) (removed : Z) : M (Z * Store) :=
  match keys with
  | [] => mret (removed, st)
  | key :: keys =>
      v ← get st key;
      let removed := if bool_decide (is_Some v) then removed + 1 else removed in
      del_loop (set_memtable st (Memtable.del (memtable_ st) key).2) keys removed
  end.

Definition del_many (st : Store) (keys : list bytes) : M (DelBatchResult * Store) :=
  '(ok, st) ←
    (match wal_ st with
     | None => mret (true, st)
     | Some wal =>
         '(ok, wal) ← append_batch E wal ((fun key => mkMutation kDelete key [] 0) <$> keys);
         mret (ok, set_wal st (Some wal))
     end);
  if negb ok then mret (mkDelBatch false 0, st)
  else
    '(removed, st) ← del_loop st keys 0;
    st ← maybe_flush st;
    mret (mkDelBatch true removed, st).

(** *** Recovery and housekeeping *)

Definition apply (st : Store) (r : Record_) : Store :=
  set_memtable st
    (match r_op r with
     | kSet => Memtable.set (memtable_ st) (r_key r) (r_value r) (r_expires_at_ms r)
     | kDelete => (Memtable.del (memtable_ st) (r_key r)).2
     end).

Definition sweep_expired (st : Store) (budget : nat) : M (Z * Store) :=
  now ← now_ms E;
  let '(swept, m) := Memtable.sweep_expired (memtable_ st) now budget in
  mret (swept, mkStore m (sstables_ st) (options_ st) (next_sequence_ st)
                 (u64 (swept_keys_ st + swept)) (compactions_ st) (flush_failed_ st) (wal_ st)).

(** A fallible call for each element of a list, in order. *)
Fixpoint mapM_ {A B} (f : A -> M B) (l : list A) : M (list B) :=
  match l with
  | [] => mret []
  | a :: l => b ← f a; bs ← mapM_ f l; mret (b :: bs)
  end.

(** The second half of [maybe_compact]: the merged table takes the newest input's
    name, the other names go, and the stack is updated. *)
Definition replace_run (st : Store) (best_begin best_len : nat) (paths : list bytes)
    (temp : bytes) (merged : CompactionResult) : M (Z * Store) :=
  let tables := sstables_ st in
  let target := default [] (head paths) in
  renamed ← rename E temp target;
  if negb renamed then (_ ← unlink E temp; mret (0, st)) else
  synced ← fsync_dir E;
  if negb synced then mret (0, st) else
  let before := take best_begin tables in
  let after := drop (best_begin + best_len) tables in
  _ ← mapM_ (unlink E) (tail paths);
  _ ← fsync_dir E;
  tables' ←
    (if 0 <? written merged then
       t ← Sstable_open E target (use_bloom (options_ st));
       mret (before ++ t :: after)
     else
       _ ← unlink E target;
       _ ← fsync_dir E;
       mret (before ++ after));
  mret (Z.of_nat best_len - (if 0 <? written merged then 1 else 0),
        mkStore (memtable_ st) tables' (options_ st) (next_sequence_ st) (swept_keys_ st)
          (u64 (compactions_ st + 1)) (flush_failed_ st) (wal_ st)).

Definition maybe_compact (st : Store) : M (Z * Store) :=
  let d := o_dir (options_ st) in
  let tables := sstables_ st in
  if negb (use_compaction (options_ st)) then mret (0, st)
  else if decide (d = []) then mret (0, st)
  else if decide (length tables < kCompactionTrigger)%nat then mret (0, st)
  else
    sizes ← mapM_ (fun t => file_size E (path_ t)) tables;
    match find_run (S (length tables)) sizes (length tables) with
    | None => mret (0, st)
    | Some (best_begin, best_len) =>
        let drop_obsolete := Nat.eqb (best_begin + best_len) (length tables) in
        let inputs := take best_len (drop best_begin tables) in
        let temp := in_dir d kCompactTemp in
        now ← now_ms E;
        merged ← compact E inputs drop_obsolete now temp (bloom_bits_per_key (options_ st));
        if negb (ok merged) then (_ ← unlink E temp; mret (0, st))
        else replace_run st best_begin best_len (path_ <$> inputs) temp merged
    end.

Definition flush_all (st : Store) : M (bool * Store) :=
  let paths := path_ <$> sstables_ st in
  let st := set_sstables st [] in
  gone ← mapM_ (unlink E) paths;
  let ok := forallb (fun r => match r with Some _ => true | None => false end) gone in
  ok ← (if decide (o_dir (options_ st) = []) then mret ok
        else synced ← fsync_dir E; mret (synced && ok));
  if negb ok then mret (false, st) else
  '(cut, st) ← log_truncate st;
  if negb cut then mret (false, st)
  else mret (true, mkStore (clear (memtable_ st)) (sstables_ st) (options_ st) 1 (swept_keys_ st)
                     (compactions_ st) false (wal_ st)).

(** The constructor. *)
Definition Store_open (options : StoreOptions) : M Store :=
  let st := mkStore Memtable_init [] options 1 0 0 false None in
  let d := o_dir options in
  if decide (d = []) then mret st
  else
    names ← list_dir E d;
    match names with
    | None => throw (lit "opendir")
    | Some names =>
        let sequences := omap sequence_of names in
        _ ← unlink E (in_dir d kCompactTemp);
        _ ← unlink E (in_dir d kFlushTemp);
        let sequences := merge_sort Z.ge sequences in
        tables ← mapM_ (fun seq => Sstable_open E (table_path st seq) (use_bloom options)) sequences;
        let next := match sequences with [] => 1 | seq :: _ => u64 (seq + 1) end in
        mret (mkStore Memtable_init tables options next 0 0 false None)
    end.

End operations.

(** ** What the store holds

    The abstract state is a map from keys to entries, the newest first: the
    memtable's entry for a key, or else the first table's. *)

Definition view (m : Memtable) (rows : list (list row)) (k : bytes) : option Entry :=
  match find m k with Some e => Some e | None => first_of rows k end.

(** What a reader at time [now] gets from the deciding entry. *)
Definition answer_at (now : Z) (e : Entry) : option Found :=
  if obsolete now e then None else Some (mkFound (value e) (expires_at_ms e)).

(** The kernel reported an error in a call from interaction [t0] on, before [w']. *)
Definition io_error (E : env) (t0 : nat) (w' : world) : Prop :=
  exists t, between t0 w' t /\ Fail ∈ answers_at E t.

(** What a reader gets from the deciding entry, if any, at a time between [t0] and
    [w']. *)
Definition read_between (E : env) (t0 : nat) (w' : world) (o : option Entry) (f : option Found)
  : Prop := exists t, between t0 w' t /\ f = o ≫= answer_at (clock_at E t).

Definition files_budget (w : world) (tables : list Sstable) : nat :=
  length (concat ((fun t => contents w (fd_ t)) <$> tables)).

(** Tables whose entries are in the form the store writes. *)
Definition rows_canon (rows : list (list row)) : Prop :=
  Forall (fun x : row => entry_ok x.2) (concat rows).

Lemma entry_ok_stored e : entry_ok e -> stored e = e.
Proof.
  intros H. unfold stored. destruct e as [v t x]; cbn. destruct t; [|done].
  destruct (H eq_refl) as [_ Hx]. cbn in Hx. by rewrite Hx.
Qed.

Lemma first_of_canon rows k e : rows_canon rows -> first_of rows k = Some e -> entry_ok e.
Proof.
  unfold rows_canon. induction rows as [|l rows IH]; cbn; [done|]. intros [Hl Hrows]%Forall_app.
  destruct (sm_find k l) as [e'|] eqn:Hf; [|auto]. intros [= ->].
  apply sm_find_elem in Hf. rewrite Forall_forall in Hl. apply (Hl _ Hf).
Qed.

Section lookup_specs.
Context (E : env).

Lemma wp_expired stamp (Q : res (bool * Z) -> world -> Prop) w :
  (forall t now' w', same_files w w' -> between (tick w) w' t ->
     Q (Ret (negb (stamp =? 0) && (stamp <=? clock_at E t), now')) w') ->
  wp (expired E 0 stamp) Q w.
Proof.
  intros H. unfold expired. destruct (stamp =? 0).
  - apply wp_ret. by apply (H (tick w)).
  - apply wp_bind. apply wp_now_ms. intros w' Hw Ht. apply wp_ret.
    apply (H (tick w)); [done|]. unfold between. lia.
Qed.

Lemma expired_ticks now stamp : tick_mono (expired E now stamp).
Proof.
  unfold expired. case_match; [apply tick_mono_ret|].
  apply tick_mono_bind; [|intros; apply tick_mono_ret]. case_match; [|apply tick_mono_ret].
  intros w. cbn. lia.
Qed.

Lemma lookup_tables_ticks tables key now : tick_mono (lookup_tables E tables key now).
Proof.
  induction tables as [|t tables IH]; cbn [lookup_tables]; [apply tick_mono_ret|].
  apply tick_mono_bind; [apply get_ticks|]. intros l. case_match; [done|].
  case_match; [apply tick_mono_ret|]. apply tick_mono_bind; [apply expired_ticks|].
  intros [gone ?]. case_match; apply tick_mono_ret.
Qed.

(** The end of a lookup in the layer that decides. *)
Lemma wp_decide e w0 w (Q : res (option Found) -> world -> Prop) :
  same_files w0 w -> tombstone e = false ->
  (forall t w', same_files w0 w' -> between (tick w) w' t ->
     Q (Ret (answer_at (clock_at E t) e)) w') ->
  wp ('(gone, _) ← expired E 0 (expires_at_ms e);
      if gone : bool then mret None
      else mret (Some (mkFound (value e) (expires_at_ms e)))) Q w.
Proof.
  intros Hw Ht H. apply wp_bind, wp_expired. intros t now' w' Hw' Hbt.
  specialize (H t w' (transitivity Hw Hw') Hbt). unfold answer_at, obsolete in H. rewrite Ht in H.
  cbn [orb] in H. destruct (negb _ && _); by apply wp_ret.
Qed.

Definition lookup_post (w : world) (tables : list Sstable) (o : option Entry) (t0 : nat)
    (r : res (option Found)) (w' : world) : Prop :=
  same_files w w' /\
  match r with
  | Ret f => read_between E t0 w' o f \/ io_error E t0 w'
  | Throw _ => False
  | Dead => ~ reliable E (files_budget w tables)
  end.

(** An entry that decides without a look at the clock. *)
Lemma read_tombstone t0 w' e :
  (t0 <= tick w')%nat -> tombstone e = true -> read_between E t0 w' (Some e) None.
Proof.
  intros Ht He. exists t0. split; [unfold between; lia|]. cbn. unfold answer_at, obsolete. by rewrite He.
Qed.

Lemma wp_lookup_tables w rows tables key t0 : forall w1,
  Forall2 (table_rep w) tables rows -> rows_canon rows -> same_files w w1 -> (t0 <= tick w1)%nat ->
  wp (lookup_tables E tables key 0) (lookup_post w tables (first_of rows key) t0) w1.
Proof.
  intros w1 H2. revert w1. induction H2 as [|t rs tables rows Ht H2 IH]; intros w1 Hc Hw1 Ht1;
    cbn [lookup_tables first_of].
  { apply wp_ret. split; [done|]. left. exists t0. by split. }
  assert (rows_canon rows) as Hc' by (unfold rows_canon in *; cbn in Hc; by apply Forall_app in Hc as [_ ?]).
  assert (table_rep w1 t rs) as Hrep.
  { apply (table_rep_transfer w); [done|]. by rewrite <- Hw1. }
  apply wp_bind. eapply wp_mono; [apply wp_ticks; [apply get_ticks|by apply wp_get]|].
  intros r w2 [[Hw2 Hr] Ht2].
  assert (same_files w w2) as Hw by (by etransitivity).
  destruct r as [l|e|]; [|done|].
  2: { split; [done|]. contradict Hr. eapply reliable_mono; [|done].
       rewrite <- Hw1. unfold files_budget. cbn. rewrite length_app. lia. }
  assert (wp (lookup_tables E tables key 0)
    (fun r w' => lookup_post w (t :: tables) (first_of rows key) t0 r w' /\ (tick w2 <= tick w')%nat) w2)
    as Hnext.
  { apply wp_ticks; [apply lookup_tables_ticks|]. eapply wp_mono; [by apply IH, (Nat.le_trans _ _ _ Ht1)|].
    intros r w3 [Hw3 Hr3]. split; [done|].
    destruct r; auto. contradict Hr3. eapply reliable_mono; [|done].
    unfold files_budget. cbn. rewrite length_app. lia. }
  destruct Hr as [->|[-> Hio]].
  - destruct (sm_find key rs) as [e|] eqn:Hf; cbn [lookup_of found negb lk_tombstone];
      [|eapply wp_mono; [exact Hnext|]; by intros r w3 [? _]].
    assert (stored e = e) as Hst.
    { apply entry_ok_stored. apply (first_of_canon (rs :: rows) key); [done|]. cbn. by rewrite Hf. }
    destruct (tombstone e) eqn:Htomb.
    + apply wp_ret. split; [done|]. left. apply read_tombstone; [lia|done].
    + cbn [lk_expires_at_ms lk_value]. rewrite Hst. eapply wp_decide; [done|done|].
      intros t' w3 Hw3 [Hb1 Hb2]. split; [done|]. left. exists t'. split; [unfold between; lia|done].
  - cbn [Lookup_none found negb]. eapply wp_mono; [exact Hnext|].
    intros r w3 [[Hw3 Hr3] Ht3]. split; [done|]. destruct r; auto.
    right. exists (tick w1). split; [unfold between; lia|done].
Qed.

Lemma wp_lookup w st rows key w1 :
  Forall2 (table_rep w) (sstables_ st) rows -> rows_canon rows -> same_files w w1 ->
  wp (lookup E st key) (lookup_post w (sstables_ st) (view (memtable_ st) rows key) (tick w1)) w1.
Proof.
  intros H2 Hc Hw. unfold lookup, view. destruct (find (memtable_ st) key) as [e|].
  - destruct (tombstone e) eqn:Ht.
    + apply wp_ret. split; [done|]. left. by apply read_tombstone.
    + eapply wp_decide; [done|done|]. intros t w' Hw' Hbt. split; [done|]. left. by exists t.
  - by apply wp_lookup_tables.
Qed.

End lookup_specs.

(** ** The invariant of a running store *)

Definition temps (st : Store) : list bytes :=
  [in_dir (o_dir (options_ st)) kFlushTemp; in_dir (o_dir (options_ st)) kCompactTemp].

(** The inodes the process holds open. *)
Definition open_fds (st : Store) : list nat :=
  (fd_ <$> sstables_ st) ++ match wal_ st with Some wal => [Wal.fd_ wal] | None => [] end.

Record store_inv (w : world) (st : Store) (rows : list (list row)) : Prop := mkStoreInv {
  si_mem : memtable_wf (memtable_ st);
  si_tables : Forall2 (table_rep w) (sstables_ st) rows;
  si_canon : rows_canon rows;
  si_fds fd : fd ∈ open_fds st -> (fd < next_ino w)%nat;
  si_dir p i : dir w !! p = Some i -> (i < next_ino w)%nat;
  si_inj p q i : dir w !! p = Some i -> dir w !! q = Some i -> p = q;
  si_temps p fd : p ∈ temps st -> fd ∈ open_fds st -> dir w !! p <> Some fd;
  si_wal wal t : wal_ st = Some wal -> t ∈ sstables_ st -> fd_ t <> Wal.fd_ wal;
  si_seqs : exists seqs, path_ <$> sstables_ st = table_path st <$> seqs /\
    StronglySorted Z.gt seqs /\ Forall (fun q => 0 <= q < next_sequence_ st) seqs /\
    1 <= next_sequence_ st < 2 ^ 64
}.

(** A lookup on a kernel that does its work. *)
Lemma lookup_reliable E n w st rows key :
  store_inv w st rows -> reliable E n -> (files_budget w (sstables_ st) <= n)%nat ->
  exists t w', between (tick w) w' t /\
    lookup E st key w = (Ret (view (memtable_ st) rows key ≫= answer_at (clock_at E t)), w').
Proof.
  intros I Hrel Hn. destruct (lookup E st key w) as [r w'] eqn:Hlook.
  destruct (wp_elim _ _ _ _ _ (wp_lookup E w st rows key w (si_tables _ _ _ I)
    (si_canon _ _ _ I) (reflexivity w)) Hlook) as [_ Hr].
  destruct r as [f|e|]; [|done|].
  - destruct Hr as [(t & Ht & ->)|(t & _ & Hio)]; [by exists t, w'|by apply (reliable_no_fail E n) in Hio].
  - destruct Hr. by eapply reliable_mono.
Qed.

Lemma open_fds_table st t : t ∈ sstables_ st -> fd_ t ∈ open_fds st.
Proof. intros Ht. apply elem_of_app. left. apply list_elem_of_fmap. by exists t. Qed.

Lemma open_fds_wal st wal : wal_ st = Some wal -> Wal.fd_ wal ∈ open_fds st.
Proof. intros Hw. apply elem_of_app. right. rewrite Hw. by left. Qed.

(** The invariant only speaks of contents, names and the inode counter. *)
Lemma inv_transfer w w' st rows :
  store_inv w st rows ->
  (forall t, t ∈ sstables_ st -> contents w' (fd_ t) = contents w (fd_ t)) ->
  (forall p i, dir w' !! p = Some i -> (i < next_ino w')%nat) ->
  (forall p q i, dir w' !! p = Some i -> dir w' !! q = Some i -> p = q) ->
  (next_ino w <= next_ino w')%nat ->
  (forall p fd, p ∈ temps st -> fd ∈ open_fds st -> dir w' !! p <> Some fd) ->
  store_inv w' st rows.
Proof.
  intros [H1 H2 H3 H4 H5 HI H6 H7 H8] Hc Hd Hi Hn Ht. constructor; auto.
  - apply (inputs_transfer w); [done|]. intros t Ht'. by apply Hc.
  - intros fd Hfd. specialize (H4 fd Hfd). lia.
Qed.

Lemma inv_same w w' st rows : same_files w w' -> store_inv w st rows -> store_inv w' st rows.
Proof.
  intros Hw Hinv. pose proof Hw as (Hd & _ & _ & _ & Hn). apply (inv_transfer w); auto.
  - intros t _. by rewrite <- Hw.
  - rewrite Hd, Hn. by destruct Hinv.
  - rewrite Hd. by destruct Hinv.
  - by rewrite Hn.
  - rewrite Hd. by destruct Hinv.
Qed.

(** The log's inode is nobody else's. *)
Lemma inv_frame w w' st rows wal :
  wal_ st = Some wal -> frame (Wal.fd_ wal) w w' -> store_inv w st rows -> store_inv w' st rows.
Proof.
  intros Hw Hf Hinv. pose proof Hf as [Hd _ Hn _ _]. apply (inv_transfer w); auto.
  - intros t Ht. apply (frame_contents (Wal.fd_ wal)); [done|]. by eapply si_wal.
  - rewrite Hd, Hn. by destruct Hinv.
  - rewrite Hd. by destruct Hinv.
  - by rewrite Hn.
  - rewrite Hd. by destruct Hinv.
Qed.

Lemma inv_set_wal w st rows wal wal' :
  wal_ st = Some wal -> Wal.fd_ wal' = Wal.fd_ wal -> store_inv w st rows ->
  store_inv w (set_wal st (Some wal')) rows.
Proof.
  intros Hw Hfd [H1 H2 H3 H4 H5 HI H6 H7 H8].
  assert (open_fds (set_wal st (Some wal')) = open_fds st) as Ho
    by (unfold open_fds; cbn; by rewrite Hw, Hfd).
  constructor; auto.
  - by rewrite Ho.
  - rewrite Ho. apply H6.
  - intros wal1 t [= <-] Ht. rewrite Hfd. by apply H7.
Qed.

Lemma inv_set_memtable w st rows m :
  memtable_wf m -> store_inv w st rows -> store_inv w (set_memtable st m) rows.
Proof. intros Hm [H1 H2 H3 H4 H5 HI H6 H7 H8]. by constructor. Qed.

Lemma inv_set_flush_failed w st rows b :
  store_inv w st rows -> store_inv w (set_flush_failed st b) rows.
Proof. intros [H1 H2 H3 H4 H5 HI H6 H7 H8]. by constructor. Qed.

(** *** Names *)

Lemma last_app_r {A} (a b : list A) x : last b = Some x -> last (a ++ b) = Some x.
Proof. rewrite last_app. by destruct (last b). Qed.

Lemma table_path_not_temp st seq p : p ∈ temps st -> p <> table_path st seq.
Proof.
  intros Hp Heq. assert (last (table_path st seq) = Some x74) as Ht.
  { unfold table_path, in_dir, table_name. repeat apply last_app_r. reflexivity. }
  rewrite <- Heq in Ht.
  assert (last p = Some x70) as Hp'; [|congruence].
  unfold temps in Hp. apply elem_of_cons in Hp as [->|Hp];
    [|apply elem_of_cons in Hp as [->|Hp]; [|by apply elem_of_nil in Hp]];
    unfold in_dir; repeat apply last_app_r; reflexivity.
Qed.

Lemma temps_ne d : in_dir d kFlushTemp <> in_dir d kCompactTemp.
Proof. unfold in_dir. intros H%app_inv_head. discriminate. Qed.

Lemma inv_creates w w' st rows p i :
  store_inv w st rows -> p ∈ temps st -> creates p i w w' ->
  store_inv w' st rows /\ i ∉ open_fds st.
Proof.
  intros Hinv Hp [Hd _ Hino _ Hi]. pose proof Hinv as [_ _ _ H4 H5 HI H6 _ _].
  assert (i ∉ open_fds st) as Hfree.
  { intros Hin. destruct Hi as [[Hi _]|(_ & -> & _)]; [by apply (H6 p i)|].
    specialize (H4 _ Hin). lia. }
  split; [|done]. apply (inv_transfer w); auto.
  - intros t Ht%open_fds_table. unfold contents. rewrite Hino; [done|]. by intros <-.
  - intros q j. rewrite Hd. destruct (decide (q = p)) as [->|].
    + rewrite lookup_insert_eq. intros [= <-].
      destruct Hi as [[Hi%H5 ->]|(_ & -> & ->)]; lia.
    + rewrite lookup_insert_ne by done. intros Hq%H5. destruct Hi as [[_ ->]|(_ & _ & ->)]; lia.
  - assert (forall q, q <> p -> dir w !! q <> Some i) as Hne.
    { intros q Hq Hqi. destruct Hi as [[Hi _]|(_ & -> & _)]; [by apply Hq, (HI q p i)|].
      apply H5 in Hqi. lia. }
    intros q1 q2 j. rewrite Hd. destruct (decide (q1 = p)) as [->|], (decide (q2 = p)) as [->|];
      rewrite ?lookup_insert_eq, ?lookup_insert_ne by done; try done.
    + intros [= <-] H2. by apply Hne in H2.
    + intros H1 [= <-]. by apply Hne in H1.
    + apply HI.
  - destruct Hi as [[_ ->]|(_ & _ & ->)]; lia.
  - intros q fd Hq Hfd. rewrite Hd. destruct (decide (q = p)) as [->|].
    + rewrite lookup_insert_eq. intros [= ->]. done.
    + rewrite lookup_insert_ne by done. by apply H6.
Qed.

Lemma inv_rename w w' st rows p q i :
  store_inv w st rows -> p ∈ temps st -> q ∉ temps st -> dir w !! p = Some i ->
  dir w' = <[q := i]> (delete p (dir w)) -> same_inodes w w' ->
  store_inv w' st rows /\ (forall r, r ∈ temps st -> dir w' !! r <> Some i).
Proof.
  intros Hinv Hp Hq Hi Hd Hs. pose proof Hinv as [_ _ _ H4 H5 HI H6 _ _].
  pose proof Hs as (_ & _ & Hn).
  assert (forall r j, dir w' !! r = Some j -> r = q /\ j = i \/ r <> q /\ r <> p /\ dir w !! r = Some j)
    as Hlook.
  { intros r j. rewrite Hd. destruct (decide (r = q)) as [->|].
    - rewrite lookup_insert_eq. intros [= <-]. auto.
    - rewrite lookup_insert_ne by done. intros [Hrp Hr]%lookup_delete_Some. auto. }
  split.
  - apply (inv_transfer w); auto.
    + intros t _. by apply same_inodes_contents.
    + intros r j [[-> ->]|(_ & _ & Hr)]%Hlook; rewrite Hn; eauto.
    + intros r1 r2 j [[-> ->]|(_ & Hp1 & Hr1)]%Hlook [[-> Hj]|(_ & Hp2 & Hr2)]%Hlook; subst; auto.
      * by destruct Hp2; apply (HI r2 p i).
      * by destruct Hp1; apply (HI r1 p i).
      * by apply (HI r1 r2 j).
    + by rewrite Hn.
    + intros r fd Hr Hfd [[-> ->]|(_ & _ & Hr')]%Hlook; [done|]. by apply (H6 r fd).
  - intros r Hr [[-> _]|(_ & Hrp & Hr')]%Hlook; [done|]. by apply Hrp, (HI r p i).
Qed.

Lemma inv_names w w' st rows :
  store_inv w st rows -> same_inodes w w' -> dir w' ⊆ dir w -> store_inv w' st rows.
Proof.
  intros Hinv Hs Hd. pose proof Hinv as [_ _ _ H4 H5 HI H6 _ _]. pose proof Hs as (_ & _ & Hn).
  assert (forall p i, dir w' !! p = Some i -> dir w !! p = Some i) as Hsub
    by (intros p i Hp; by apply (lookup_weaken (dir w') (dir w))).
  apply (inv_transfer w); auto.
  - intros t _. by apply same_inodes_contents.
  - intros p i Hp%Hsub. rewrite Hn. eauto.
  - intros p q i Hp%Hsub Hq%Hsub. eauto.
  - by rewrite Hn.
  - intros p fd Hp Hfd Hc%Hsub. by apply (H6 p fd).
Qed.

Lemma wp_unlink_inv E st rows path (Q : res (option bool) -> world -> Prop) w :
  store_inv w st rows ->
  (forall r w', store_inv w' st rows -> (forall e, r <> Throw e) ->
     (r = Dead -> ~ reliable E 0) -> Q r w') ->
  wp (unlink E path) Q w.
Proof.
  intros Hinv HQ. apply wp_unlink.
  - intros w' Hd _ Hs b _. apply HQ; [|done|done]. apply (inv_names w); [done|done|].
    rewrite Hd. apply delete_subseteq.
  - intros r w' Hw Hr Hrel. apply HQ; [by apply (inv_same w)|by destruct Hr as [->| ->]|done].
Qed.

(** ** Flushing keeps what the store holds *)

(** Rows whose lengths fit the table format, and a sequence number to spare. *)
Definition flush_ready (st : Store) : Prop :=
  Forall row_ok (entries_ (memtable_ st)) /\ fits (entries_ (memtable_ st)) /\
  next_sequence_ st + 1 < 2 ^ 64.

Definition flush_budget (st : Store) : nat :=
  (let es := entries_ (memtable_ st) in
   2 * length (data_of es) + 12 * length es +
   length (build es.*1 (bloom_bits_per_key (options_ st))) + 36)%nat.

(** Two stores that hold the same things. *)
Definition same_view (st : Store) (rows : list (list row)) (st' : Store) (rows' : list (list row))
  : Prop :=
  forall k, view (memtable_ st') rows' k = view (memtable_ st) rows k.

Definition flush_post (E : env) (st : Store) (rows : list (list row))
    (r : res (bool * Store)) (w' : world) : Prop :=
  match r with
  | Ret (b, st') => exists rows', store_inv w' st' rows' /\ same_view st rows st' rows' /\
      options_ st' = options_ st /\
      (b = true -> o_dir (options_ st) <> [] -> entries_ (memtable_ st') = []) /\
      (b = false -> memtable_ st' = memtable_ st /\ ~ reliable E (flush_budget st))
  | _ => ~ reliable E (flush_budget st)
  end.

Lemma view_clear m rows k : view Memtable_init (entries_ m :: rows) k = view m rows k.
Proof. done. Qed.

(** The store after the table has been added to the stack. *)
Lemma inv_flushed w st rows t :
  store_inv w st rows -> flush_ready st -> table_rep w t (entries_ (memtable_ st)) ->
  path_ t = table_path st (next_sequence_ st) ->
  fd_ t ∉ open_fds st -> (fd_ t < next_ino w)%nat ->
  (forall p, p ∈ temps st -> dir w !! p <> Some (fd_ t)) ->
  store_inv w (mkStore (clear (memtable_ st)) (t :: sstables_ st) (options_ st)
    (u64 (next_sequence_ st + 1)) (swept_keys_ st) (compactions_ st) (flush_failed_ st) (wal_ st))
    (entries_ (memtable_ st) :: rows).
Proof.
  intros [H1 H2 H3 H4 H5 HI H6 H7 H8] (_ & _ & Hseq) Ht Hpath Hfree Hlt Htemp. constructor; cbn; auto.
  - apply init_wf.
  - apply Forall_app. split; [by apply wf_entries|done].
  - intros fd [->|Hfd]%elem_of_cons; auto.
  - intros p fd Hp [->|Hfd]%elem_of_cons; auto.
  - intros wal t' Hw [->|Ht']%elem_of_cons Heq; [|by apply (H7 wal t')].
    apply Hfree. rewrite Heq. by apply open_fds_wal.
  - destruct H8 as (seqs & Hp & Hs & Hall & Hn). exists (next_sequence_ st :: seqs).
    rewrite u64_id by (unfold is_u64; lia). split_and!; [by rewrite fmap_cons, Hpath, Hp|..|lia|lia].
    + constructor; [done|]. eapply Forall_impl; [exact Hall|]. intros q Hq. cbn in Hq. lia.
    + constructor; [lia|]. eapply Forall_impl; [exact Hall|]. intros q Hq. cbn in Hq. lia.
Qed.

Lemma wp_log_truncate E st rows w i (Q : res (bool * Store) -> world -> Prop) :
  store_inv w st rows -> i ∉ open_fds st ->
  (forall st' w', store_inv w' st' rows -> contents w' i = contents w i -> dir w' = dir w ->
     next_ino w' = next_ino w -> memtable_ st' = memtable_ st -> sstables_ st' = sstables_ st ->
     options_ st' = options_ st -> next_sequence_ st' = next_sequence_ st ->
     open_fds st' = open_fds st -> Q (Ret (true, st')) w') ->
  (forall st' w', store_inv w' st' rows -> memtable_ st' = memtable_ st -> options_ st' = options_ st ->
     ~ reliable E 0 -> Q (Ret (false, st')) w') ->
  (forall w', ~ reliable E 0 -> Q Dead w') ->
  wp (log_truncate E st) Q w.
Proof.
  intros Hinv Hi Ht Hf Hd. unfold log_truncate. destruct (wal_ st) as [wal|] eqn:Hw; [|by apply wp_ret, Ht].
  pose proof (open_fds_wal _ _ Hw) as Hin.
  apply wp_bind, wp_truncate.
  - intros wal' w' (Hfd & _) Hfr _ _. apply wp_ret. apply Ht; auto.
    + apply (inv_set_wal _ _ _ wal); [done|done|]. by apply (inv_frame w _ _ _ wal).
    + apply (frame_contents (Wal.fd_ wal)); [done|]. by intros ->.
    + by destruct Hfr.
    + by destruct Hfr.
    + unfold open_fds. cbn. by rewrite Hw, Hfd.
  - intros r w' Hfr _ [(wal' & (Hfd & _) & ->)| ->] Hrel; [apply wp_ret|by apply Hd].
    apply Hf; auto. apply (inv_set_wal _ _ _ wal); [done|done|]. by apply (inv_frame w _ _ _ wal).
Qed.

Lemma flush_gave_up E st rows (w' : world) st' :
  store_inv w' st' rows -> memtable_ st' = memtable_ st -> options_ st' = options_ st ->
  ~ reliable E (flush_budget st) -> flush_post E st rows (Ret (false, st')) w'.
Proof.
  intros Hinv Hm Ho Hrel. exists rows. split_and!; auto; [|done].
  intros k. by rewrite Hm.
Qed.

Lemma wp_publish E st rows w i path temp seq :
  store_inv w st rows -> flush_ready st -> seq = next_sequence_ st -> path = table_path st seq ->
  temp ∈ temps st -> path ∉ temps st -> dir w !! temp = Some i -> i ∉ open_fds st ->
  is_table (entries_ (memtable_ st)) (contents w i) ->
  (length (contents w i) <= flush_budget st)%nat -> o_dir (options_ st) <> [] ->
  wp (publish E st temp path seq) (flush_post E st rows) w.
Proof.
  intros Hinv Hready -> Hpatheq Htemp Hpath Hi Hfree Htab Hlen Hdir.
  assert (forall n, (n <= flush_budget st)%nat -> ~ reliable E n -> ~ reliable E (flush_budget st))
    as Hmono by (intros n Hn H; contradict H; by eapply reliable_mono).
  assert (~ reliable E 0 -> ~ reliable E (flush_budget st)) as Hmono0 by (apply Hmono; lia).
  unfold publish. apply wp_bind, wp_rename.
  2: { intros w' _ Hn. congruence. }
  2: { intros r w1 Hw1 [->| ->] Hrel%Hmono0; [|done]. apply wp_bind. eapply wp_unlink_inv;
       [by apply (inv_same w)|]. intros [] w2 Hinv2 Hnt _;
       [apply wp_ret; by apply flush_gave_up|by destruct (Hnt what)|done]. }
  intros j w1 Hj Hd1 _ Hs1. assert (j = i) as -> by congruence. cbn [negb].
  destruct (inv_rename w w1 st rows temp path i) as [Hinv1 Hnot1]; auto.
  assert (dir w1 !! path = Some i) as Hp1 by (rewrite Hd1; apply lookup_insert_eq).
  assert (contents w1 i = contents w i) as Hc1 by (by apply same_inodes_contents).
  apply wp_bind, wp_fsync_dir.
  2: { intros r w2 Hw2 [->| ->] Hrel%Hmono0; [|done]. apply wp_ret, flush_gave_up; auto.
       by apply (inv_same w1). }
  intros w2 Hd2 _ Hs2. cbn [negb].
  assert (store_inv w2 st rows) as Hinv2 by (apply (inv_names w1); [done|done|by rewrite Hd2]).
  apply wp_bind, (wp_log_truncate E st rows w2 i); auto.
  2: { intros st' w3 Hinv3 Hm Ho Hrel%Hmono0. by apply wp_ret, flush_gave_up. }
  intros st' w3 Hinv3 Hc3 Hd3 Hn3 Hm Ht Ho Hseq Hfds. cbn [negb].
  assert (dir w3 !! path = Some i) as Hp3 by (by rewrite Hd3, Hd2).
  assert (contents w3 i = contents w i) as Hci.
  { rewrite Hc3, <- Hc1. by apply same_inodes_contents. }
  apply wp_bind. eapply wp_mono; [apply (wp_Sstable_open E path _ w3 i (entries_ (memtable_ st)) Hp3); by rewrite Hci|].
  intros [t|e|] w4 [Hw4 Hr4]; [|rewrite Hci in Hr4; by eapply Hmono..].
  destruct Hr4 as (Hrep & Hfd & Hpt & _). apply wp_ret. exists (entries_ (memtable_ st) :: rows).
  rewrite <- Hm, <- Hseq. split_and!; try done.
  - apply inv_flushed; rewrite ?Hfd, ?Hfds; auto.
    + by apply (inv_same w3).
    + unfold flush_ready. by rewrite Hm, Hseq.
    + by rewrite Hm.
    + rewrite Hpt, Hpatheq. unfold table_path. by rewrite Ho, Hseq.
    + destruct Hw4 as (_ & _ & _ & _ & ->). by apply (si_dir _ _ _ Hinv3 path).
    + intros p. unfold temps. rewrite Ho. intros Hp. destruct Hw4 as (-> & _).
      rewrite Hd3, Hd2. by apply Hnot1.
  - intros k. cbn [memtable_]. rewrite Hm. apply view_clear.
Qed.

Lemma wp_flush E st rows w :
  store_inv w st rows -> flush_ready st ->
  wp (flush E st) (flush_post E st rows) w.
Proof.
  intros Hinv Hready. unfold flush.
  destruct (decide (o_dir (options_ st) = [])) as [Hdir|Hdir].
  { apply wp_ret. exists rows. split_and!; auto; done. }
  destruct (Memtable.empty (memtable_ st)) eqn:Hemp.
  { apply wp_ret. exists rows. split_and!; auto; [done| |done].
    intros _ _. unfold Memtable.empty in Hemp. by destruct (entries_ (memtable_ st)). }
  set (temp := in_dir (o_dir (options_ st)) kFlushTemp).
  assert (temp ∈ temps st) as Htemp by (by left).
  assert (table_path st (next_sequence_ st) ∉ temps st) as Hpath
    by (intros Hin; by apply (table_path_not_temp _ (next_sequence_ st) _ Hin)).
  pose proof Hready as (Hok & Hfit & _). pose proof (wf_sorted _ (si_mem _ _ _ Hinv)) as Hsorted.
  apply wp_bind. eapply wp_mono; [by apply (wp_write_table E temp _ (entries_ (memtable_ st)))|].
  intros r w1 Hw1.
  assert (match r with Ret true => True | _ => store_inv w1 st rows /\ ~ reliable E (flush_budget st) end)
    as Hfail.
  { destruct r as [[]|e|]; [done|..]; destruct Hw1 as (Hcr & bs & Hbs & Hrel); (split;
      [destruct Hcr as [Hs|[i Hc]]; [by apply (inv_same w)|by apply (inv_creates w _ _ _ temp i)]
      |contradict Hrel; eapply reliable_mono; [|done]; by apply table_image_bound]). }
  destruct r as [[]|e|]; [|apply wp_bind|by destruct Hfail..].
  2: { destruct Hfail as [Hinv1 Hrel]. eapply wp_unlink_inv; [done|].
       intros [] w2 Hinv2 Hnt _; [apply wp_ret; by apply flush_gave_up|by destruct (Hnt what)|done]. }
  destruct Hw1 as (i & bs & Hcr & Hdur & Hbs & Himg).
  destruct (inv_creates w w1 st rows temp i Hinv Htemp Hcr) as [Hinv1 Hfree].
  apply (wp_publish E st rows w1 i); auto.
  - rewrite (cr_dir _ _ _ _ Hcr). apply lookup_insert_eq.
  - rewrite Himg. split_and!; auto. by exists bs, (bloom_bits_per_key (options_ st)).
  - rewrite Himg. by apply table_image_bound.
Qed.

(** ** Writes *)

(** Two stores that differ only in their log object. *)
Definition same_but_log (st st' : Store) : Prop :=
  memtable_ st' = memtable_ st /\ sstables_ st' = sstables_ st /\ options_ st' = options_ st /\
  next_sequence_ st' = next_sequence_ st.

(** The length of a log record does not depend on its timestamp. *)
Definition record_size (op : Op) (key value : bytes) (e : Z) : nat :=
  length (encode_rec (mkRecord op 0 e key value)).

Lemma record_size_now op key value e now :
  length (enc (call_records now (CAppend op key value e))) = record_size op key value e.
Proof.
  unfold enc, record_size. cbn [call_records fmap list_fmap concat]. rewrite app_nil_r.
  pose proof (zlen_encode_rec (mkRecord op now e key value)) as H1.
  pose proof (zlen_encode_rec (mkRecord op 0 e key value)) as H2.
  cbn [r_op r_expires_at_ms r_key r_value] in *. unfold zlen in *. lia.
Qed.

Lemma wp_log_append E st rows op key value e w :
  store_inv w st rows ->
  wp (log_append E st op key value e) (fun r w' => match r with
    | Ret (b, st') => store_inv w' st' rows /\ same_but_log st st' /\
        (b = false -> ~ reliable E (record_size op key value e))
    | Throw _ => False
    | Dead => ~ reliable E (record_size op key value e)
    end) w.
Proof.
  intros Hinv. unfold log_append. destruct (wal_ st) as [wal|] eqn:Hw; [|by apply wp_ret].
  apply wp_bind. eapply wp_mono;
    [exact (wp_call_write E (CAppend op key value e) wal w I ltac:(done))|].
  intros r w1 (n & _ & Hfr & _ & Hr). cbn [set_buf buf_ Wal.fd_] in *.
  rewrite record_size_now in Hr.
  assert (forall wal', same_wal wal wal' -> store_inv w1 (set_wal st (Some wal')) rows) as Hset.
  { intros wal' (Hfd & _). apply (inv_set_wal _ _ _ wal); [done|done|]. by apply (inv_frame w _ _ _ wal). }
  destruct r as [[b wal']|?|]; [|done|done]. apply wp_ret.
  destruct b; [destruct Hr as (_ & Hsame & _)|destruct Hr as [Hsame Hrel]];
    (split; [by apply Hset|]); by split.
Qed.

(** What [maybe_flush] leaves. *)
Definition kept_post (E : env) (st : Store) (rows : list (list row)) (r : res Store) (w' : world) : Prop :=
  match r with
  | Ret st' => exists rows', store_inv w' st' rows' /\ same_view st rows st' rows' /\
      options_ st' = options_ st
  | _ => ~ reliable E (flush_budget st)
  end.

Lemma wp_maybe_flush E st rows w :
  store_inv w st rows -> flush_ready st ->
  wp (maybe_flush E st) (kept_post E st rows) w.
Proof.
  intros Hinv Hready. unfold maybe_flush. case_decide; [apply wp_ret; by exists rows|].
  case_match; [apply wp_ret; by exists rows|]. apply wp_bind.
  eapply wp_mono; [by apply wp_flush|]. intros [[b st']|e|] w' Hr; [|done|done].
  destruct Hr as (rows' & Hinv' & Hview & Ho & _). apply wp_ret. exists rows'.
  split; [by apply inv_set_flush_failed|done].
Qed.

(** The abstract effect of a write on the map. *)
Definition put_view (f : bytes -> option Entry) (k : bytes) (e : Entry) : bytes -> option Entry :=
  fun k' => if decide (k' = k) then Some e else f k'.

Definition tomb : Entry := mkEntry [] true 0.

Lemma view_set m rows k v e k' :
  memtable_wf m -> view (Memtable.set m k v e) rows k' = put_view (view m rows) k (mkEntry v false e) k'.
Proof.
  intros Hwf. unfold view, put_view. rewrite find_set by done. by case_decide.
Qed.

Lemma view_del m rows k k' :
  memtable_wf m -> view (Memtable.del m k).2 rows k' = put_view (view m rows) k tomb k'.
Proof.
  intros Hwf. unfold view, put_view. rewrite find_del by done. by case_decide.
Qed.

(** Rounds enough for every loop of a write: its log record, and the flush it may
    bring about. *)
Definition write_budget (st : Store) (op : Op) (key value : bytes) (e : Z)
    (m' : Memtable) : nat :=
  (record_size op key value e +
   flush_budget (set_memtable st m'))%nat.

Lemma flush_budget_log st st' m :
  same_but_log st st' -> flush_budget (set_memtable st' m) = flush_budget (set_memtable st m).
Proof. intros (_ & _ & Ho & _). unfold flush_budget. cbn. by rewrite Ho. Qed.

(** The outcome of a write of one entry: it is in the map, or nothing changed. *)
Definition write_post {A} (E : env) (n : nat) (st : Store) (rows : list (list row))
    (key : bytes) (e : Entry) (acked : A -> bool) (yes : A) (r : res (A * Store)) (w' : world)
  : Prop :=
  match r with
  | Ret (a, st') => exists rows', store_inv w' st' rows' /\ options_ st' = options_ st /\
      (forall k, view (memtable_ st') rows' k =
         (if acked a then put_view (view (memtable_ st) rows) key e else view (memtable_ st) rows) k) /\
      (if acked a then a = yes else ~ reliable E n)
  | _ => ~ reliable E n
  end.

(** The tail shared by [set] and [del]: log, memtable, flush. *)
Lemma wp_write {A} E st rows op key value ex w (m' : Memtable) e (yes no : A) (acked : A -> bool) :
  store_inv w st rows -> memtable_wf m' -> flush_ready (set_memtable st m') -> acked yes = true -> acked no = false ->
  (forall k, view m' rows k = put_view (view (memtable_ st) rows) key e k) ->
  forall f, (forall st', memtable_ st' = memtable_ st -> f st' = set_memtable st' m') ->
  wp ('(ok, st) ← log_append E st op key value ex;
      if negb ok then mret (no, st)
      else st ← maybe_flush E (f st); mret (yes, st))
     (write_post E (write_budget st op key value ex m') st rows key e acked yes) w.
Proof.
  intros Hinv Hwf Hready Hyes Hno Hview f Hf. apply wp_bind.
  eapply wp_mono; [by apply wp_log_append|].
  assert (forall n, (n <= write_budget st op key value ex m')%nat -> ~ reliable E n ->
    ~ reliable E (write_budget st op key value ex m')) as Hmono.
  { intros n Hn H. contradict H. by eapply reliable_mono. }
  intros [[b st1]|?|] w1 Hr; [|done|eapply Hmono; [|done]; unfold write_budget; lia].
  destruct Hr as (Hinv1 & Hsame & Hrel). pose proof Hsame as (Hm & Ht & Ho & Hs).
  destruct b; cbn [negb].
  - rewrite (Hf st1 Hm). apply wp_bind.
    eapply wp_mono; [apply (wp_maybe_flush E (set_memtable st1 m') rows w1)|].
    + by apply inv_set_memtable.
    + unfold flush_ready in *. cbn in *. by rewrite Hs.
    + intros [st2|?|] w2 Hr2; [|unfold kept_post in Hr2; rewrite (flush_budget_log st) in Hr2 by done;
        eapply Hmono; [|done]; unfold write_budget; lia..].
      destruct Hr2 as (rows' & Hinv2 & Hv2 & Ho2). apply wp_ret. exists rows'.
      rewrite Hyes.
      split_and!; [done|by rewrite Ho2|intros k; rewrite Hv2; apply Hview|done].
  - apply wp_ret. exists rows. rewrite Hno. split_and!; auto.
    + intros k. by rewrite Hm.
    + eapply Hmono; [|by apply Hrel]. unfold write_budget; lia.
Qed.

Lemma wp_set E st rows key value ex w :
  store_inv w st rows -> flush_ready (set_memtable st (Memtable.set (memtable_ st) key value ex)) ->
  wp (set E st key value ex)
     (write_post E (write_budget st kSet key value ex (Memtable.set (memtable_ st) key value ex))
        st rows key (mkEntry value false ex) id true) w.
Proof.
  intros Hinv Hready. unfold set. pose proof (si_mem _ _ _ Hinv) as Hwf.
  apply (wp_write E st rows kSet key value ex w (Memtable.set (memtable_ st) key value ex)
    (mkEntry value false ex) true false id); auto.
  - by apply set_wf.
  - intros k. by apply view_set.
  - intros st' Hm. by rewrite Hm.
Qed.

Lemma write_post_mono {A} E n n' st rows key e (acked : A -> bool) yes r w' :
  (n <= n')%nat -> write_post E n st rows key e acked yes r w' ->
  write_post E n' st rows key e acked yes r w'.
Proof.
  intros Hn. assert (~ reliable E n -> ~ reliable E n') as Hmono.
  { intros H. contradict H. by eapply reliable_mono. }
  destruct r as [[a st']|?|]; cbn; auto.
  intros (rows' & ? & ? & ? & ?). exists rows'. split_and!; auto. destruct (acked a); auto.
Qed.

(** [del], with the reply it gives when the log accepted it. *)
Definition del_budget (w : world) (st : Store) (key : bytes) : nat :=
  (files_budget w (sstables_ st) +
   write_budget st kDelete key [] 0 (Memtable.del (memtable_ st) key).2)%nat.

(** The lookup that comes first ends in [w1]. *)
Definition live_at (E : env) (t0 : nat) (w1 : world) (o : option Entry) (live : bool) : Prop :=
  (exists f, read_between E t0 w1 o f /\ live = bool_decide (is_Some f)) \/ io_error E t0 w1.

Lemma wp_del E st rows key w :
  store_inv w st rows -> flush_ready (set_memtable st (Memtable.del (memtable_ st) key).2) ->
  wp (del E st key) (fun r w' =>
    exists live w1, write_post E (del_budget w st key) st rows key tomb d_durable (mkDel true live) r w' /\
      same_files w w1 /\ live_at E (tick w) w1 (view (memtable_ st) rows key) live) w.
Proof.
  intros Hinv Hready. unfold del, get. pose proof (si_mem _ _ _ Hinv) as Hwf.
  pose proof (si_tables _ _ _ Hinv) as Htab. pose proof (si_canon _ _ _ Hinv) as Hcan.
  apply wp_bind, wp_bind. eapply wp_mono; [by apply (wp_lookup E w)|].
  intros [f|?|] w1 [Hw1 Hr]; [|done|].
  2: { exists (bool_decide (is_Some (view (memtable_ st) rows key ≫= answer_at (clock_at E (tick w))))), w.
       split_and!; [|done|].
       - cbn. contradict Hr. eapply reliable_mono; [|done]. unfold del_budget. lia.
       - left. eexists. split; [|done]. by exists (tick w). }
  apply wp_ret. eapply wp_mono.
  - apply (wp_write E st rows kDelete key [] 0 w1 (Memtable.del (memtable_ st) key).2 tomb
      (mkDel true (bool_decide (is_Some (f_value <$> f)))) (mkDel false false)
      d_durable); try done; [by apply (inv_same w)|by apply del_wf|intros k; by apply view_del|].
    intros st' Hm. by rewrite Hm.
  - intros r w2 Hw2. exists (bool_decide (is_Some (f_value <$> f))), w1. split_and!; [|done|].
    + eapply write_post_mono; [|exact Hw2]. unfold del_budget. lia.
    + destruct Hr as [Hr|Hio]; [left; exists f|by right]. split; [done|].
      apply bool_decide_ext. by rewrite fmap_is_Some.
Qed.

(** ** Compaction keeps what readers see *)

Lemma extend_run_le sizes i smallest : (extend_run sizes i smallest <= i)%nat.
Proof.
  revert smallest. induction i as [|i IH]; intros smallest; cbn [extend_run]; [lia|].
  case_match; [lia|]. etransitivity; [apply IH|lia].
Qed.

(** A run is found inside the stack and is long enough to bother. *)
Lemma find_run_sound fuel sizes i b len :
  find_run fuel sizes i = Some (b, len) -> (b + len <= i)%nat /\ (kCompactionTrigger <= len)%nat.
Proof.
  revert i. induction fuel as [|fuel IH]; intros i; cbn [find_run]; [done|].
  destruct i as [|i]; [done|]. set (stop := extend_run sizes (S i) _).
  pose proof (extend_run_le sizes (S i) (nth i sizes 0)) as Hle. fold stop in Hle.
  destruct (Nat.leb _ _) eqn:Hlen.
  - intros [= <- <-]. apply Nat.leb_le in Hlen. lia.
  - intros [H1 H2]%IH. split; [|done]. destruct (Nat.eqb (S i) stop); lia.
Qed.

(** Equal to every reader from [now] on. *)
Definition view_equiv (now : Z) (f g : bytes -> option Entry) : Prop :=
  forall t k, now <= t -> f k ≫= answer_at t = g k ≫= answer_at t.

#[export] Instance view_equiv_equiv now : Equivalence (view_equiv now).
Proof.
  split.
  - by intros f t k.
  - intros f g H t k Ht. by rewrite H.
  - intros f g h H1 H2 t k Ht. by rewrite H1, H2.
Qed.

Lemma obsolete_mono now t e : now <= t -> obsolete now e = true -> obsolete t e = true.
Proof.
  unfold obsolete. intros Ht. destruct (tombstone e); [done|]. cbn.
  destruct (expires_at_ms e =? 0); [done|]. cbn. lia.
Qed.

(** Replacing a run of tables by their merge. *)
Lemma view_merge m rb rm ra (out : list (list row)) drop_obsolete now :
  (forall k, first_of out k = first_of rm k ≫= keep drop_obsolete now) ->
  (drop_obsolete = true -> ra = []) ->
  view_equiv now (view m (rb ++ out ++ ra)) (view m (rb ++ rm ++ ra)).
Proof.
  intros Hout Hdrop t k Ht. unfold view. destruct (find m k) as [e|]; [done|].
  rewrite !first_of_app, Hout. destruct (first_of rb k) as [e|]; [done|].
  destruct (first_of rm k) as [e|]; [|done]. cbn [mbind option_bind]. unfold keep.
  destruct (drop_obsolete && obsolete now e) eqn:Hd; [|done].
  apply andb_prop in Hd as [-> Hob]. rewrite Hdrop by done. cbn.
  unfold answer_at. by rewrite (obsolete_mono now t).
Qed.

(** *** Names of tables, read back *)

Lemma dec_val_zeros n ds : dec_val (replicate n x30 ++ ds) = dec_val ds.
Proof. unfold dec_val. rewrite fold_left_app. f_equal. induction n as [|n IH]; [done|exact IH]. Qed.

Lemma sequence_of_table_name seq : is_u64 seq -> sequence_of (table_name seq) = Some seq.
Proof.
  intros Hseq. unfold is_u64 in Hseq. unfold sequence_of, table_name, to_chars.
  rewrite (proj2 (Z.ltb_ge seq 0)) by lia. set (ds := dec_digits 20 seq).
  set (zs := replicate _ _). rewrite app_assoc.
  assert (length kTableSuffix = 4%nat) as HL by done.
  assert (ds <> []) as Hne by apply dec_digits_nonempty.
  assert (1 <= length ds)%nat as Hlen by (destruct ds; cbn; [done|lia]).
  rewrite !length_app, HL. rewrite decide_False by lia.
  replace (length zs + length ds + 4 - 4)%nat with (length (zs ++ ds)) by (rewrite length_app; lia).
  rewrite drop_app_length, take_app_length, bool_decide_eq_true_2 by done. cbn [negb].
  rewrite decide_False by (intros [_ ?]%app_eq_nil; done).
  rewrite forallb_app, (proj2 (forallb_forall is_digit zs)), (proj2 (forallb_forall is_digit ds)).
  - cbn [andb]. unfold zs. rewrite dec_val_zeros. unfold ds. rewrite dec_digits_val.
    + f_equal. unfold ULLONG_MAX. lia.
    + change (10 ^ Z.of_nat 20) with 100000000000000000000. lia.
  - intros b Hb. pose proof (dec_digits_digits 20 seq ltac:(lia)) as Had.
    unfold all_digits in Had. rewrite Forall_forall in Had. apply Had. by apply list_elem_of_In.
  - intros b Hb%list_elem_of_In. by apply elem_of_replicate in Hb as [-> _].
Qed.

Lemma table_path_inj st p q :
  is_u64 p -> is_u64 q -> table_path st p = table_path st q -> p = q.
Proof.
  intros Hp Hq H. unfold table_path, in_dir in H. apply app_inv_head in H.
  apply app_inv_head in H.
  apply (f_equal sequence_of) in H. rewrite !sequence_of_table_name in H by done. by injection H.
Qed.

Lemma tables_paths_nodup w st rows : store_inv w st rows -> NoDup (path_ <$> sstables_ st).
Proof.
  intros Hinv. destruct (si_seqs _ _ _ Hinv) as (seqs & -> & Hs & Hall & Hn).
  induction Hs as [|q seqs Hs IH Hq]; cbn; [constructor|].
  apply Forall_cons in Hall as [Hq' Hall]. constructor; [|by apply IH].
  intros (q2 & Heq & Hin)%list_elem_of_fmap. rewrite Forall_forall in Hq, Hall.
  apply table_path_inj in Heq; [|unfold is_u64; specialize (Hall _ Hin); cbn in Hall; lia..].
  specialize (Hq _ Hin). lia.
Qed.

(** *** Changing the stack *)

Lemma sublist_fmap_inv {A B} (f : A -> B) (l : list B) (k : list A) :
  l `sublist_of` (f <$> k) -> exists k', l = f <$> k' /\ k' `sublist_of` k.
Proof.
  revert l. induction k as [|a k IH]; intros l H; cbn in H.
  - apply sublist_nil_r in H as ->. by exists [].
  - apply sublist_cons_r in H as [H|(l' & -> & H)]; apply IH in H as (k' & -> & Hk).
    + exists k'. split; [done|by constructor].
    + exists (a :: k'). split; [done|by constructor].
Qed.

Lemma Forall_sublist {A} (P : A -> Prop) l k : l `sublist_of` k -> Forall P k -> Forall P l.
Proof. rewrite !Forall_forall. intros Hs H x Hx. apply H. by eapply elem_of_sublist. Qed.

Lemma sublist_sorted {A} (R : A -> A -> Prop) l k :
  l `sublist_of` k -> StronglySorted R k -> StronglySorted R l.
Proof.
  induction 1 as [|a l k H IH|a l k H IH]; intros Hs; [done|..]; inversion_clear Hs; auto.
  constructor; [by apply IH|]. by eapply Forall_sublist.
Qed.

(** Another stack of tables, each an old one or on an inode of its own, under some
    of the old names. *)
Lemma inv_replace w st rows ts rows' n :
  store_inv w st rows -> Forall2 (table_rep w) ts rows' -> rows_canon rows' ->
  (forall t, t ∈ ts -> t ∈ sstables_ st \/
     fd_ t ∉ open_fds st /\ (fd_ t < next_ino w)%nat /\
     forall p, p ∈ temps st -> dir w !! p <> Some (fd_ t)) ->
  (path_ <$> ts) `sublist_of` (path_ <$> sstables_ st) ->
  store_inv w (mkStore (memtable_ st) ts (options_ st) (next_sequence_ st) (swept_keys_ st) n
    (flush_failed_ st) (wal_ st)) rows'.
Proof.
  intros Hinv H2 Hcan Hts Hpaths. pose proof Hinv as [H1 _ _ H4 H5 HI H6 H7 H8].
  assert (forall fd, fd ∈ open_fds (mkStore (memtable_ st) ts (options_ st) (next_sequence_ st)
      (swept_keys_ st) n (flush_failed_ st) (wal_ st)) ->
    fd ∈ open_fds st \/ (fd < next_ino w)%nat /\ forall p, p ∈ temps st -> dir w !! p <> Some fd) as Hfd.
  { unfold open_fds at 1. cbn. intros fd [(t & -> & Ht)%list_elem_of_fmap|Hw]%elem_of_app.
    - destruct (Hts t Ht) as [Hin|(_ & ? & ?)]; [left; by apply open_fds_table|auto].
    - left. apply elem_of_app. by right. }
  constructor; cbn; auto.
  - intros fd [?|[]]%Hfd; auto.
  - intros p fd Hp [?|[]]%Hfd; auto.
  - intros wal t Hw Ht. destruct (Hts t Ht) as [Hin|(Hfree & _)]; [by apply H7|].
    intros Heq. apply Hfree. rewrite Heq. by apply open_fds_wal.
  - destruct H8 as (seqs & Hp & Hs & Hall & Hn). rewrite Hp in Hpaths.
    apply sublist_fmap_inv in Hpaths as (seqs' & Hp' & Hsub). exists seqs'.
    split_and!; [by rewrite Hp'|by eapply sublist_sorted|by eapply Forall_sublist|lia|lia].
Qed.

(** Fewer names, the same files. *)
Definition shrinks (w w' : world) : Prop := same_inodes w w' /\ dir w' ⊆ dir w.

#[export] Instance shrinks_refl : Reflexive shrinks.
Proof. by intros w. Qed.
#[export] Instance shrinks_trans : Transitive shrinks.
Proof. intros w1 w2 w3 [H1 D1] [H2 D2]. split; by etransitivity. Qed.

Lemma shrinks_same w w' : same_files w w' -> shrinks w w'.
Proof. intros Hw. split; [by apply same_files_inodes|]. by rewrite Hw. Qed.

Lemma inv_shrinks w w' st rows : store_inv w st rows -> shrinks w w' -> store_inv w' st rows.
Proof. intros Hinv [H1 H2]. by apply (inv_names w). Qed.

Lemma wp_unlink_names E path (Q : res (option bool) -> world -> Prop) w :
  (forall r w', shrinks w w' -> dir_synced w' = dir_synced w ->
     (forall p, p <> path -> dir w' !! p = dir w !! p) ->
     (reliable E 0 -> dir w' !! path = None) -> Q (Ret r) w') ->
  (forall w', ~ reliable E 0 -> Q Dead w') ->
  wp (unlink E path) Q w.
Proof.
  intros Hs Hf. apply wp_unlink.
  - intros w' Hd Hds Hi b _. apply Hs.
    + split; [done|]. rewrite Hd. apply delete_subseteq.
    + done.
    + intros p Hp. by rewrite Hd, lookup_delete_ne.
    + intros _. by rewrite Hd, lookup_delete_eq.
  - intros r w' Hw [->| ->] Hrel; [|by apply Hf]. apply Hs; [by apply shrinks_same|by rewrite <- Hw| |done].
    intros p _. by rewrite <- Hw.
Qed.

Lemma wp_unlink_shrinks E path (Q : res (option bool) -> world -> Prop) w :
  (forall r w', shrinks w w' -> (forall p, p <> path -> dir w' !! p = dir w !! p) -> Q (Ret r) w') ->
  (forall w', ~ reliable E 0 -> Q Dead w') ->
  wp (unlink E path) Q w.
Proof. intros Hs Hf. apply wp_unlink_names; auto. Qed.

Lemma wp_unlink_all E paths : forall (Q : res (list (option bool)) -> world -> Prop) w,
  (forall l w', shrinks w w' -> (forall p, p ∉ paths -> dir w' !! p = dir w !! p) -> Q (Ret l) w') ->
  (forall w', ~ reliable E 0 -> Q Dead w') ->
  wp (mapM_ (unlink E) paths) Q w.
Proof.
  induction paths as [|path paths IH]; intros Q w Hs Hf; cbn [mapM_].
  - by apply wp_ret, Hs.
  - apply wp_bind, wp_unlink_shrinks; [|done]. intros r w1 Hw1 Hd1.
    apply wp_bind, IH; [|done]. intros l w2 Hw2 Hd2. apply wp_ret, Hs; [by etransitivity|].
    intros p [Hp Hps]%not_elem_of_cons. by rewrite Hd2, Hd1.
Qed.

Lemma wp_fsync_dir_shrinks E (Q : res bool -> world -> Prop) w :
  (forall b w', shrinks w w' -> dir w' = dir w -> (b = false -> ~ reliable E 0) -> Q (Ret b) w') ->
  (forall w', ~ reliable E 0 -> Q Dead w') ->
  wp (fsync_dir E) Q w.
Proof.
  intros Hs Hf. apply wp_fsync_dir.
  - intros w' Hd _ Hi. apply Hs; [split; [done|by rewrite Hd]|done|done].
  - intros r w' Hw [->| ->] Hrel; [|by apply Hf]. apply Hs; [by apply shrinks_same| |done].
    by rewrite <- Hw.
Qed.

(** What a round of compaction leaves; [idle] says that there was nothing to do. *)
Definition compacted_post (E : env) (N : nat) (idle : Prop) (st : Store) (rows : list (list row))
    (r : res (Z * Store)) (w' : world) : Prop :=
  match r with
  | Ret (n, st') => exists rows' t, store_inv w' st' rows' /\
      memtable_ st' = memtable_ st /\ options_ st' = options_ st /\ wal_ st' = wal_ st /\
      view_equiv (clock_at E t) (view (memtable_ st') rows') (view (memtable_ st) rows) /\
      zlen (sstables_ st') = zlen (sstables_ st) - n /\
      (n = 0 -> st' = st /\ (idle \/ ~ reliable E N)) /\
      (n <> 0 -> Z.of_nat kCompactionTrigger - 1 <= n)
  | _ => ~ reliable E N
  end.

Lemma compaction_gave_up E N (idle : Prop) st rows w :
  store_inv w st rows -> idle \/ ~ reliable E N -> compacted_post E N idle st rows (Ret (0, st)) w.
Proof. intros Hinv Hwhy. exists rows, 0%nat. split_and!; try done. lia. Qed.

Section replacing.
Context (E : env) (N : nat) (st : Store) (tb tm ta : list Sstable) (rb rm ra : list (list row)).
Context (target : bytes) (i : nat) (out : list row) (merged : CompactionResult).
Context (drop_obsolete : bool) (t : nat).
Context (Hstack : sstables_ st = tb ++ tm ++ ta).
Context (Htarget : head (path_ <$> tm) = Some target).
Context (Hlong : (kCompactionTrigger <= length tm)%nat).
Context (Hwritten : written merged = zlen out).
Context (Hcanon : Forall (fun x : row => entry_ok x.2) out).
Context (Hout : forall k, sm_find k out = first_of rm k ≫= keep drop_obsolete (clock_at E t)).
Context (Hdrop : drop_obsolete = true -> ra = []).
Context (Hfree : i ∉ open_fds st).

(** The stack without the run, and with the merged table in its place. *)
Lemma inv_run_replaced w ts outs n :
  store_inv w st (rb ++ rm ++ ra) -> length tb = length rb -> length tm = length rm ->
  Forall2 (table_rep w) ts outs -> rows_canon outs ->
  (forall x, x ∈ ts -> fd_ x = i /\ path_ x = target) -> (length ts <= 1)%nat ->
  (i < next_ino w)%nat -> (forall p, p ∈ temps st -> dir w !! p <> Some i) ->
  store_inv w (mkStore (memtable_ st) (tb ++ ts ++ ta) (options_ st) (next_sequence_ st)
    (swept_keys_ st) n (flush_failed_ st) (wal_ st)) (rb ++ outs ++ ra).
Proof.
  intros Hinv Hlb Hlm H2 Hcan Hts Hlen Hi Htemps.
  pose proof (si_tables _ _ _ Hinv) as Htab. rewrite Hstack in Htab.
  apply Forall2_app_inv in Htab as [Hb Hma]; [|done]. apply Forall2_app_inv in Hma as [_ Ha]; [|done].
  apply (inv_replace w st (rb ++ rm ++ ra)); [done| | | |].
  - by repeat apply Forall2_app.
  - pose proof (si_canon _ _ _ Hinv) as Hc. unfold rows_canon in *.
    rewrite !concat_app, !Forall_app in *. naive_solver.
  - intros x. rewrite Hstack, !elem_of_app. intros [?|[Hx|?]]; [auto| |auto].
    right. destruct (Hts x Hx) as [-> _]. auto.
  - rewrite Hstack, !fmap_app. apply sublist_app; [done|]. apply sublist_app; [|done].
    destruct ts as [|x [|y ts]]; cbn in Hlen; [apply sublist_nil_l| |lia].
    destruct (Hts x ltac:(by left)) as [_ Hpx]. cbn. rewrite Hpx.
    apply singleton_sublist_l. by apply head_Some_elem_of.
Qed.

(** The last step of [maybe_compact]: opening the merged table, or dropping it
    when it holds nothing. *)
Lemma wp_reopen w :
  store_inv w st (rb ++ rm ++ ra) -> length tb = length rb -> length tm = length rm ->
  dir w !! target = Some i -> (forall p, p ∈ temps st -> dir w !! p <> Some i) ->
  is_table out (contents w i) -> (length (contents w i) <= N)%nat ->
  wp (tables' ←
    (if 0 <? written merged then
       t ← Sstable_open E target (use_bloom (options_ st));
       mret (tb ++ t :: ta)
     else
       _ ← unlink E target;
       _ ← fsync_dir E;
       mret (tb ++ ta));
     mret (Z.of_nat (length tm) - (if 0 <? written merged then 1 else 0),
        mkStore (memtable_ st) tables' (options_ st) (next_sequence_ st) (swept_keys_ st)
          (u64 (compactions_ st + 1)) (flush_failed_ st) (wal_ st)))
    (compacted_post E N False st (rb ++ rm ++ ra)) w.
Proof.
  intros Hinv Hlb Hlm Hdir Htemps Htab HN.
  pose proof (si_dir _ _ _ Hinv _ _ Hdir) as Hi. unfold kCompactionTrigger in *.
  assert (~ reliable E 0 -> ~ reliable E N) as Hmono.
  { intros H. contradict H. eapply reliable_mono; [|done]. lia. }
  rewrite Hwritten. destruct (Z.ltb_spec 0 (zlen out)) as [Hpos|Hzero].
  - apply wp_bind, wp_bind. eapply wp_mono; [by apply (wp_Sstable_open E target _ w i out)|].
    intros [x|e|] w1 [Hw1 Hr]; [|cbn; contradict Hr; by eapply reliable_mono..].
    destruct Hr as (Hrep & Hfd & Hpx & _). do 2 apply wp_ret. exists (rb ++ [out] ++ ra), t.
    split_and!; try done.
    + apply (inv_run_replaced w1 [x] [out]); auto.
      * by apply (inv_same w).
      * unfold rows_canon. cbn. by rewrite app_nil_r.
      * intros y [->|?%elem_of_nil]%elem_of_cons; auto. done.
      * destruct Hw1 as (_ & _ & _ & _ & ->). done.
      * intros p Hp. rewrite <- Hw1. auto.
    + apply (view_merge _ _ _ _ _ drop_obsolete); [|done]. intros k. rewrite <- Hout. cbn.
      by destruct (sm_find k out).
    + cbn [sstables_]. rewrite Hstack. unfold zlen. rewrite !length_app. cbn. lia.
    + intros Hn. lia.
    + unfold kCompactionTrigger. lia.
  - assert (out = []) as -> by (destruct out; [done|rewrite zlen_cons in Hzero; pose proof (zlen_nonneg l); lia]).
    apply wp_bind, wp_bind, wp_unlink_shrinks; [|auto]. intros r w1 Hw1 _.
    apply wp_bind, wp_fsync_dir_shrinks; [|auto]. intros b w2 Hw2 _ _. do 2 apply wp_ret.
    exists (rb ++ [] ++ ra), t. assert (shrinks w w2) as Hw by (by etransitivity).
    split_and!; try done.
    + apply (inv_run_replaced w2 [] []);
        [by eapply inv_shrinks|done|done|by constructor|by constructor|by intros x ?%elem_of_nil
        |cbn; lia|..].
      * destruct Hw as [(_ & _ & ->) _]. done.
      * intros p Hp Hc. apply (Htemps p Hp). destruct Hw as [_ Hd]. by eapply lookup_weaken.
    + apply (view_merge _ _ _ _ _ drop_obsolete); [|done]. intros k. by rewrite <- Hout.
    + cbn [sstables_]. rewrite Hstack. unfold zlen. rewrite !length_app. cbn. lia.
    + intros Hn. lia.
    + unfold kCompactionTrigger. lia.
Qed.

Lemma wp_replace_run w temp :
  store_inv w st (rb ++ rm ++ ra) -> length tb = length rb -> length tm = length rm ->
  temp ∈ temps st -> dir w !! temp = Some i ->
  is_table out (contents w i) -> (length (contents w i) <= N)%nat ->
  wp (replace_run E st (length tb) (length tm) (path_ <$> tm) temp merged)
     (compacted_post E N False st (rb ++ rm ++ ra)) w.
Proof.
  intros Hinv Hlb Hlm Htemp Hdir Htab HN.
  assert (~ reliable E 0 -> ~ reliable E N) as Hmono.
  { intros H. contradict H. eapply reliable_mono; [|done]. lia. }
  assert (exists tl, path_ <$> tm = target :: tl) as [tl Hpm].
  { destruct (path_ <$> tm) as [|p tl]; [done|]. injection Htarget as ->. by exists tl. }
  assert (target ∉ tl) as Hnot.
  { pose proof (tables_paths_nodup _ _ _ Hinv) as Hnd. rewrite Hstack, !fmap_app, Hpm in Hnd. cbn in Hnd.
    apply NoDup_app in Hnd as (_ & _ & Hnd). apply NoDup_cons in Hnd as [Hnd _]. set_solver. }
  assert (target ∉ temps st) as Hnt.
  { destruct (si_seqs _ _ _ Hinv) as (seqs & Hseqs & _).
    assert (target ∈ path_ <$> sstables_ st) as Hin by (rewrite Hstack, !fmap_app, Hpm; set_solver).
    rewrite Hseqs in Hin. apply list_elem_of_fmap in Hin as (q & Hq & _).
    intros Hbad. by apply (table_path_not_temp st q target). }
  unfold replace_run. rewrite Hpm. cbn [head default tail].
  apply wp_bind, wp_rename.
  2: { intros w' _ Hn. congruence. }
  2: { intros r w1 Hw1 [->| ->] Hrel%Hmono; [|done]. cbn [negb]. apply wp_bind, wp_unlink_shrinks; [|auto].
       intros b w2 Hw2 _. apply wp_ret, compaction_gave_up; [|auto]. eapply inv_shrinks; [|done].
       by apply (inv_same w). }
  intros j w1 Hj Hd1 _ Hs1. assert (j = i) as -> by congruence. cbn [negb].
  destruct (inv_rename w w1 st (rb ++ rm ++ ra) temp target i) as [Hinv1 Htemps1]; auto.
  assert (dir w1 !! target = Some i) as Ht1 by (rewrite Hd1; apply lookup_insert_eq).
  apply wp_bind, wp_fsync_dir_shrinks; [|auto]. intros b w2 Hw2 Hd2 Hb.
  pose proof (inv_shrinks _ _ _ _ Hinv1 Hw2) as Hinv2.
  destruct b; cbn [negb]; [|apply wp_ret, compaction_gave_up; auto].
  apply wp_bind, wp_unlink_all; [|auto]. intros l w3 Hw3 Hd3.
  apply wp_bind, wp_fsync_dir_shrinks; [|auto]. intros b w4 Hw4 Hd4 _.
  assert (shrinks w1 w4) as Hw by (do 2 (etransitivity; [done|]); done).
  assert (contents w4 i = contents w i) as Hc.
  { apply same_inodes_contents. etransitivity; [done|by destruct Hw]. }
  rewrite Hstack, take_app_length, app_assoc, <- length_app, drop_app_length.
  apply (wp_reopen w4); auto; rewrite ?Hc; auto.
  - by apply (inv_shrinks w1).
  - rewrite Hd4, Hd3, Hd2; [done|]. exact Hnot.
  - intros p Hp Hq. apply (Htemps1 p Hp). destruct Hw as [_ Hdw]. by eapply lookup_weaken.
Qed.

End replacing.

(** A contiguous part of a list, and what is around it. *)
Lemma split_run {A} (l : list A) b len :
  l = take b l ++ take len (drop b l) ++ drop (b + len) l.
Proof. by rewrite <- (drop_drop l len b), take_drop, take_drop. Qed.

(** A merge of part of the stack is no bigger than a merge of all of it. *)
Lemma merge_budget_run tb tm ta rb rm ra w bpk :
  (merge_budget tm rm w bpk <= merge_budget (tb ++ tm ++ ta) (rb ++ rm ++ ra) w bpk)%nat.
Proof.
  unfold merge_budget, total_files, total_data, total_rows.
  rewrite !fmap_app, !concat_app, !data_of_app, !length_app. nia.
Qed.

Lemma merge_budget_same w w' tm rm bpk :
  same_files w w' -> merge_budget tm rm w' bpk = merge_budget tm rm w bpk.
Proof.
  intros Hw. unfold merge_budget, total_files. do 6 f_equal. apply list_fmap_ext.
  intros i t _. by rewrite <- Hw.
Qed.

Lemma fits_run rb rm ra : fits (concat (rb ++ rm ++ ra)) -> fits (concat rm).
Proof. unfold fits, zlen. rewrite !concat_app, !data_of_app, !length_app. lia. Qed.

Definition table_sizes (w : world) (tables : list Sstable) : list Z :=
  (fun t => size_at w (path_ t)) <$> tables.

Lemma wp_sizes E tables : forall (Q : res (list Z) -> world -> Prop) w,
  (forall sizes w', same_files w w' -> sizes = table_sizes w tables \/ ~ reliable E 0 ->
     Q (Ret sizes) w') ->
  (forall w', ~ reliable E 0 -> Q Dead w') ->
  wp (mapM_ (fun t => file_size E (path_ t)) tables) Q w.
Proof.
  induction tables as [|t tables IH]; intros Q w Hs Hf; cbn [mapM_].
  - apply wp_ret, Hs; [done|by left].
  - assert (forall n w1, same_files w w1 -> n = size_at w (path_ t) \/ ~ reliable E 0 ->
      wp (bs ← mapM_ (fun t => file_size E (path_ t)) tables; mret (n :: bs)) Q w1) as Hnext.
    { intros n w1 Hw1 Hn. apply wp_bind, IH; [|done]. intros sizes w2 Hw2 Hsz. apply wp_ret, Hs.
      - by etransitivity.
      - destruct Hn as [->|]; [|by right]. destruct Hsz as [->|]; [left|by right]. cbn. f_equal.
        apply list_fmap_ext. intros i x _. unfold size_at. rewrite <- Hw1.
        destruct (dir w !! path_ x); [by rewrite <- Hw1|done]. }
    apply wp_bind, wp_file_size; [intros w1 Hw1; apply Hnext; auto|].
    intros r w1 Hw1 [->| ->] Hrel; [apply Hnext; auto|auto].
Qed.

(** Entries that a merge keeps are entries its inputs held. *)
Lemma merged_canon out rows drop_obsolete now :
  sm_sorted out -> rows_canon rows ->
  (forall k, sm_find k out = first_of rows k ≫= keep drop_obsolete now) ->
  Forall (fun x : row => entry_ok x.2) out.
Proof.
  intros Hs Hcan Hout. apply Forall_forall. intros [k e] Hin.
  pose proof (Hout k) as Hk. rewrite (sm_elem_find _ _ _ Hs Hin) in Hk. symmetry in Hk.
  apply bind_Some in Hk as (e' & Hf & Hkeep). unfold keep in Hkeep. case_match; [done|].
  injection Hkeep as <-. by eapply first_of_canon.
Qed.

(** There is no run to merge. *)
Definition no_run (w : world) (st : Store) : Prop :=
  use_compaction (options_ st) = false \/ o_dir (options_ st) = [] \/
  find_run (S (length (sstables_ st))) (table_sizes w (sstables_ st)) (length (sstables_ st)) = None.

Definition compact_budget (w : world) (st : Store) (rows : list (list row)) : nat :=
  merge_budget (sstables_ st) rows w (bloom_bits_per_key (options_ st)).

(** From the choice of a run on. *)
Lemma wp_merge_run E st rows w b len t :
  store_inv w st rows -> fits (concat rows) ->
  (b + len <= length (sstables_ st))%nat -> (kCompactionTrigger <= len)%nat ->
  wp (merged ← compact E (take len (drop b (sstables_ st)))
        (Nat.eqb (b + len) (length (sstables_ st))) (clock_at E t)
        (in_dir (o_dir (options_ st)) kCompactTemp) (bloom_bits_per_key (options_ st));
      if negb (ok merged) then
        (_ ← unlink E (in_dir (o_dir (options_ st)) kCompactTemp); mret (0, st))
      else replace_run E st b len (path_ <$> take len (drop b (sstables_ st)))
             (in_dir (o_dir (options_ st)) kCompactTemp) merged)
     (compacted_post E (compact_budget w st rows) False st rows) w.
Proof.
  intros Hinv Hfits Hin Hlong. set (temp := in_dir _ _). set (bpk := bloom_bits_per_key _).
  set (last := Nat.eqb _ _).
  assert (temp ∈ temps st) as Htemp by (right; by left).
  pose proof (Forall2_length _ _ _ (si_tables _ _ _ Hinv)) as Hlen.
  pose proof (split_run (sstables_ st) b len) as Hts. pose proof (split_run rows b len) as Hrs.
  set (tb := take b (sstables_ st)) in *. set (tm := take len (drop b (sstables_ st))) in *.
  set (ta := drop (b + len) (sstables_ st)) in *.
  set (rb := take b rows) in *. set (rm := take len (drop b rows)) in *.
  set (ra := drop (b + len) rows) in *.
  assert (length tb = b /\ length rb = b /\ length tm = len /\ length rm = len) as (Ltb & Lrb & Ltm & Lrm).
  { unfold tb, rb, tm, rm. rewrite !length_take, !length_drop. lia. }
  assert (last = true -> ra = []) as Hlast.
  { intros Hl%Nat.eqb_eq. apply drop_ge. lia. }
  pose proof (si_tables _ _ _ Hinv) as Htab. pose proof (si_canon _ _ _ Hinv) as Hcan.
  unfold compact_budget. rewrite Hts, Hrs in *. clearbody tb tm ta rb rm ra last. clear Hin Hlen Hrs.
  apply Forall2_app_inv in Htab as [_ Hma]; [|lia]. apply Forall2_app_inv in Hma as [Hm _]; [|lia].
  assert (rows_canon rm) as Hcm.
  { unfold rows_canon in *. rewrite !concat_app, !Forall_app in Hcan. naive_solver. }
  set (N := merge_budget (tb ++ tm ++ ta) (rb ++ rm ++ ra) w bpk).
  pose proof (merge_budget_run tb tm ta rb rm ra w bpk) as HN. fold N in HN.
  assert (forall n, (n <= merge_budget tm rm w bpk)%nat -> ~ reliable E n -> ~ reliable E N) as Hmono.
  { intros n Hn H. contradict H. eapply reliable_mono; [|done]. lia. }
  apply wp_bind. eapply wp_mono; [apply (wp_compact E tm rm w last (clock_at E t) bpk temp)|].
  - done.
  - eapply Forall_impl; [exact Hcm|]. intros x. apply entry_ok_stored.
  - by eapply fits_run.
  - intros x Hx. assert (fd_ x ∈ open_fds st) as Hfd.
    { apply open_fds_table. rewrite Hts. set_solver. }
    split; [by apply (si_temps _ _ _ Hinv)|]. apply (si_fds _ _ _ Hinv) in Hfd. lia.
  - intros r w1 Hr.
    assert ((same_files w w1 \/ exists i, creates temp i w w1) -> store_inv w1 st (rb ++ rm ++ ra)) as Hkeep.
    { intros [Hs|[i Hc]]; [by apply (inv_same w)|by apply (inv_creates w _ _ _ temp i)]. }
    destruct r as [[[] wn dn]|e|]; cbn [compact_post ok negb] in *;
      [|destruct Hr as [Hw1 Hrel]; apply Hmono in Hrel; [|done]; try done..].
    + destruct Hr as (i & out & Hcr & _ & Hout & _ & Hn & Hlo & Hfind).
      destruct (inv_creates w w1 st _ temp i Hinv Htemp Hcr) as [Hinv1 Hfree].
      rewrite <- Ltb, <- Ltm at 1.
      apply (wp_replace_run E N st tb tm ta rb rm ra (default [] (head (path_ <$> tm))) i out _ last t);
        auto; try lia.
      * destruct tm; [cbn in Ltm; unfold kCompactionTrigger in Hlong; lia|done].
      * destruct Hout as (_ & Hs & _). by eapply merged_canon.
      * rewrite (cr_dir _ _ _ _ Hcr). apply lookup_insert_eq.
    + apply wp_bind, wp_unlink_shrinks; [|auto]. intros b' w2 Hw2 _.
      apply wp_ret, compaction_gave_up; [|auto]. eapply inv_shrinks; [by apply Hkeep|done].
Qed.

Lemma wp_maybe_compact E st rows w :
  store_inv w st rows -> fits (concat rows) ->
  wp (maybe_compact E st) (compacted_post E (compact_budget w st rows) (no_run w st) st rows) w.
Proof.
  intros Hinv Hfits. unfold maybe_compact.
  assert (~ reliable E 0 -> ~ reliable E (compact_budget w st rows)) as Hmono.
  { intros H. contradict H. eapply reliable_mono; [|done]. lia. }
  unfold no_run. destruct (use_compaction (options_ st)); cbn [negb];
    [|apply wp_ret, compaction_gave_up; auto].
  case_decide as Hdir; [apply wp_ret, compaction_gave_up; auto|].
  case_decide as Hlt.
  { apply wp_ret, compaction_gave_up; [done|]. left. right. right.
    destruct (find_run _ _ _) as [[b len]|] eqn:Hrun; [|done]. apply find_run_sound in Hrun. lia. }
  apply wp_bind, wp_sizes; [|auto]. intros sizes w1 Hw1 Hsizes.
  pose proof (inv_same _ _ _ _ Hw1 Hinv) as Hinv1.
  destruct (find_run _ _ _) as [[b len]|] eqn:Hrun.
  2: { apply wp_ret, compaction_gave_up; [done|]. destruct Hsizes as [->|]; auto. }
  apply find_run_sound in Hrun as [Hin Hlong].
  apply wp_bind, wp_now_ms. intros w2 Hw2 _. pose proof (inv_same _ _ _ _ Hw2 Hinv1) as Hinv2.
  eapply wp_mono; [by apply (wp_merge_run E st rows w2 b len (tick w1))|].
  assert (same_files w w2) as Hw by (by etransitivity).
  unfold compact_budget. rewrite (merge_budget_same w w2) by done.
  intros [[n st']|e|] w'; [|done|done]. cbn. naive_solver.
Qed.

(** ** Opening a data directory *)

(** The directory of a closed store: its tables by descending sequence number, each
    under the name [flush] gives it, and no other name that reads as a table. *)
Record dir_rep (w : world) (o : StoreOptions) (layers : list (Z * list row)) : Prop := mkDirRep {
  dr_sorted : StronglySorted Z.gt layers.*1;
  dr_seqs : Forall (fun q => 0 <= q < 2 ^ 64 - 1) layers.*1;
  dr_table q rs : (q, rs) ∈ layers -> exists i,
    dir w !! in_dir (o_dir o) (table_name q) = Some i /\ is_table rs (contents w i);
  dr_canon : rows_canon layers.*2;
  dr_names p i n q : dir w !! p = Some i -> name_in (o_dir o) p = Some n -> sequence_of n = Some q ->
    q ∈ layers.*1 /\ p = in_dir (o_dir o) (table_name q);
  dr_dir p i : dir w !! p = Some i -> (i < next_ino w)%nat;
  dr_inj p q i : dir w !! p = Some i -> dir w !! q = Some i -> p = q
}.

Lemma table_name_no_slash q : 0 <= q -> x2f ∉ table_name q.
Proof.
  intros Hq. unfold table_name, to_chars. rewrite (proj2 (Z.ltb_ge q 0)) by lia.
  rewrite !elem_of_app. intros [H|[H|H]].
  - by apply elem_of_replicate in H as [? _].
  - pose proof (dec_digits_digits 20 q Hq) as Hd. unfold all_digits in Hd.
    rewrite Forall_forall in Hd. by apply Hd in H.
  - repeat (apply elem_of_cons in H as [?|H]; [done|]). by apply elem_of_nil in H.
Qed.

Lemma name_in_dir d n : x2f ∉ n -> name_in d (in_dir d n) = Some n.
Proof.
  intros Hn. unfold name_in, in_dir. cbn [app].
  rewrite take_app_length, lookup_app_r, Nat.sub_diag by done.
  rewrite <- Nat.add_1_r, (drop_app_plus (length d) 1) by done. cbn [drop lookup list_lookup].
  by rewrite decide_True.
Qed.

Lemma omap_bind {A B C} (f : A -> option B) (g : B -> option C) (l : list A) :
  omap g (omap f l) = omap (fun x => f x ≫= g) l.
Proof.
  induction l as [|x l IH]; [done|]. cbn. destruct (f x) as [y|]; cbn; [|done].
  destruct (g y); by rewrite <- IH.
Qed.

Lemma NoDup_omap {A B} (f : A -> option B) (l : list A) :
  NoDup l -> (forall x y b, x ∈ l -> y ∈ l -> f x = Some b -> f y = Some b -> x = y) ->
  NoDup (omap f l).
Proof.
  induction 1 as [|x l Hx Hl IH]; intros Hinj; cbn; [constructor|].
  assert (NoDup (omap f l)) as Hrest.
  { apply IH. intros y z b Hy Hz. apply Hinj; by right. }
  destruct (f x) as [b|] eqn:Hb; [|done]. constructor; [|done].
  intros (y & Hy & Hyb)%list_elem_of_omap. apply Hx.
  rewrite (Hinj x y b); [done|by left|by right|done|done].
Qed.

#[export] Instance Zge_antisymm : AntiSymm (=) Z.ge.
Proof. intros x y. lia. Qed.
#[export] Instance Zge_trans : Transitive Z.ge.
Proof. intros x y z. lia. Qed.
#[export] Instance Zge_total : Total Z.ge.
Proof. intros x y. lia. Qed.

(** What the scan of the directory collects, sorted. *)
Lemma scan_sequences w o layers :
  dir_rep w o layers ->
  merge_sort Z.ge (omap sequence_of (omap (name_in (o_dir o)) (map_to_list (dir w)).*1)) = layers.*1.
Proof.
  intros Hrep. pose proof Hrep as [Hsort Hseqs Htab _ Hnames _ _].
  apply (StronglySorted_unique Z.ge).
  - apply StronglySorted_merge_sort; apply _.
  - clear -Hsort. induction Hsort as [|q l Hl IH Hq]; constructor; [done|].
    eapply Forall_impl; [exact Hq|]. intros x Hx. cbn in Hx. lia.
  - rewrite merge_sort_Permutation, omap_bind. apply NoDup_Permutation.
    + apply NoDup_omap; [apply NoDup_fst_map_to_list|].
      intros p p' q (x & -> & Hx)%list_elem_of_fmap (y & -> & Hy)%list_elem_of_fmap.
      destruct x as [p i], y as [p' i']. apply elem_of_map_to_list in Hx, Hy.
      intros (n & Hn & Hq)%bind_Some (n' & Hn' & Hq')%bind_Some. cbn in Hn, Hn'.
      destruct (Hnames _ _ _ _ Hx Hn Hq) as [_ ->]. by destruct (Hnames _ _ _ _ Hy Hn' Hq') as [_ ->].
    + clear -Hsort. induction Hsort as [|q l Hl IH Hq]; constructor; [|done].
      intros Hin. rewrite Forall_forall in Hq. specialize (Hq _ Hin). lia.
    + intros q. rewrite list_elem_of_omap. split.
      * intros (p & ((p' & i) & -> & Hp)%list_elem_of_fmap & (n & Hn & Hq)%bind_Some).
        apply elem_of_map_to_list in Hp. by destruct (Hnames _ _ _ _ Hp Hn Hq).
      * intros Hq. pose proof Hq as ((q' & rs) & Heq & Hin)%list_elem_of_fmap. cbn in Heq. subst q'.
        rewrite Forall_forall in Hseqs. specialize (Hseqs _ Hq). cbn in Hseqs.
        destruct (Htab _ _ Hin) as (i & Hi & _).
        exists (in_dir (o_dir o) (table_name q)). split.
        { apply list_elem_of_fmap. exists (in_dir (o_dir o) (table_name q), i). split; [done|].
          by apply elem_of_map_to_list. }
        rewrite name_in_dir by (apply table_name_no_slash; lia). cbn.
        apply sequence_of_table_name. unfold is_u64. lia.
Qed.

(** Every table's file is within [N] bytes. *)
Definition dir_budget (w : world) (o : StoreOptions) (layers : list (Z * list row)) (N : nat) : Prop :=
  forall q rs i, (q, rs) ∈ layers -> dir w !! in_dir (o_dir o) (table_name q) = Some i ->
    (length (contents w i) <= N)%nat.

(** The tables of the directory, opened in order. *)
Lemma wp_open_tables E w o layers N : dir_rep w o layers -> forall sub w1,
  sub ⊆ layers -> same_inodes w w1 ->
  (forall q, q ∈ layers.*1 -> dir w1 !! in_dir (o_dir o) (table_name q) =
     dir w !! in_dir (o_dir o) (table_name q)) ->
  dir_budget w o layers N ->
  wp (mapM_ (fun q => Sstable_open E (in_dir (o_dir o) (table_name q)) (use_bloom o)) sub.*1)
     (fun r w' => same_files w1 w' /\ match r with
        | Ret ts => Forall2 (table_rep w') ts sub.*2 /\
            path_ <$> ts = (fun q => in_dir (o_dir o) (table_name q)) <$> sub.*1 /\
            Forall (fun t => dir w1 !! path_ t = Some (fd_ t)) ts
        | _ => ~ reliable E N
        end) w1.
Proof.
  intros Hrep. induction sub as [|[q rs] sub IH]; intros w1 Hsub Hw1 Hd1 HN; cbn [fmap list_fmap fst snd mapM_].
  { apply wp_ret. repeat split; constructor. }
  assert ((q, rs) ∈ layers) as Hin by (apply Hsub; by left).
  destruct (dr_table _ _ _ Hrep q rs Hin) as (i & Hi & Htab).
  pose proof (HN _ _ _ Hin Hi) as Hlen.
  assert (contents w1 i = contents w i) as Hc by (by apply same_inodes_contents).
  assert (dir w1 !! in_dir (o_dir o) (table_name q) = Some i) as Hi1.
  { rewrite Hd1; [done|]. apply list_elem_of_fmap. by exists (q, rs). }
  apply wp_bind. eapply wp_mono; [apply (wp_Sstable_open E _ (use_bloom o) w1 i rs Hi1); by rewrite Hc|].
  intros [t|e|] w2 [Hw2 Hr]; [|split; [done|]; contradict Hr; eapply reliable_mono; [|done]; by rewrite Hc..].
  destruct Hr as (Ht & Hfd & Hp & _). apply wp_bind. eapply wp_mono; [apply (IH w2)|].
  - intros x Hx. apply Hsub. by right.
  - etransitivity; [done|by apply same_files_inodes].
  - intros q' Hq'. rewrite <- Hw2. by apply Hd1.
  - done.
  - intros r w3 [Hw3 Hr]. assert (same_files w1 w3) as Hw13 by (by etransitivity).
    destruct r as [ts|e|]; [|by split..]. destruct Hr as (H2 & Hps & Hfds). apply wp_ret.
    split; [done|]. split_and!.
    + constructor; [|done]. apply (table_rep_transfer w2); [done|]. by rewrite <- Hw3.
    + by rewrite fmap_cons, Hps, Hp.
    + constructor; [by rewrite Hp, Hfd|]. eapply Forall_impl; [exact Hfds|]. intros x. cbn.
      by rewrite <- Hw2.
Qed.


(** The number the next flush will use. *)
Definition next_of (layers : list (Z * list row)) : Z :=
  match layers with [] => 1 | (q, _) :: _ => q + 1 end.

(** The object the constructor builds on an existing directory. *)
Definition opened (o : StoreOptions) (ts : list Sstable) (layers : list (Z * list row)) : Store :=
  mkStore Memtable_init ts o (next_of layers) 0 0 false None.

Lemma next_of_range layers :
  StronglySorted Z.gt layers.*1 -> Forall (fun q => 0 <= q < 2 ^ 64 - 1) layers.*1 ->
  Forall (fun q => 0 <= q < next_of layers) layers.*1 /\ 1 <= next_of layers < 2 ^ 64.
Proof.
  intros Hs Ha. destruct layers as [|[q rs] layers]; cbn in *; [split; [constructor|lia]|].
  apply Forall_cons in Ha as [Hq Ha]. apply StronglySorted_inv in Hs as [_ Hs].
  rewrite Forall_forall in Ha, Hs. split; [|lia]. constructor; [lia|].
  apply Forall_forall. intros x Hx. specialize (Ha _ Hx). specialize (Hs _ Hx). cbn in *. lia.
Qed.

Lemma inv_opened w w' o layers ts :
  dir_rep w o layers -> shrinks w w' -> Forall2 (table_rep w') ts layers.*2 ->
  path_ <$> ts = (fun q => in_dir (o_dir o) (table_name q)) <$> layers.*1 ->
  Forall (fun t => dir w' !! path_ t = Some (fd_ t)) ts ->
  store_inv w' (opened o ts layers) layers.*2.
Proof.
  intros [Hsort Hseqs _ Hcan _ Hdir Hinj] [(_ & _ & Hn) Hsub] H2 Hps Hfds.
  assert (forall p i, dir w' !! p = Some i -> dir w !! p = Some i) as Hw
    by (intros p i Hp; by eapply lookup_weaken).
  assert (forall fd, fd ∈ open_fds (opened o ts layers) -> exists q, 
    dir w' !! table_path (opened o ts layers) q = Some fd) as Hopen.
  { intros fd. unfold open_fds. cbn. rewrite app_nil_r. intros (t & -> & Ht)%list_elem_of_fmap.
    rewrite Forall_forall in Hfds. specialize (Hfds t Ht). cbn in Hfds.
    assert (path_ t ∈ path_ <$> ts) as Hp by (apply list_elem_of_fmap; by exists t).
    rewrite Hps in Hp. apply list_elem_of_fmap in Hp as (q & Hq & _).
    exists q. rewrite Hq in Hfds. exact Hfds. }
  constructor; cbn [opened memtable_ sstables_ wal_].
  - apply init_wf.
  - done.
  - done.
  - intros fd (q & Hq)%Hopen. rewrite Hn. by eapply Hdir, Hw.
  - intros p i Hp. rewrite Hn. by eapply Hdir, Hw.
  - intros p q i Hp Hq. by eapply Hinj; apply Hw.
  - intros p fd Hp (q & Hq)%Hopen Hpf. apply (table_path_not_temp _ q _ Hp).
    by eapply Hinj; apply Hw.
  - done.
  - exists layers.*1. split_and!; [exact Hps|done|by apply next_of_range..].
Qed.

Lemma wp_Store_open E o layers N w :
  dir_rep w o layers -> dir_budget w o layers N -> o_dir o <> [] ->
  wp (Store_open E o) (fun r w' => match r with
    | Ret st => exists ts, st = opened o ts layers /\ store_inv w' st layers.*2 /\
        path_ <$> ts = (fun q => in_dir (o_dir o) (table_name q)) <$> layers.*1 /\
        shrinks w w' /\ (forall p, p ∉ temps st -> dir w' !! p = dir w !! p) /\
        Forall (fun t => dir w' !! path_ t = Some (fd_ t)) ts /\ dir_synced w' = dir_synced w /\
        (reliable E 0 -> forall p, p ∈ temps st -> dir w' !! p = None)
    | _ => ~ reliable E N
    end) w.
Proof.
  intros Hrep HN Hne. assert (~ reliable E 0 -> ~ reliable E N) as Hmono.
  { intros H. contradict H. eapply reliable_mono; [|done]. lia. }
  unfold Store_open. rewrite decide_False by done.
  apply wp_bind, wp_list_dir.
  2: { intros r w1 _ [->| ->] Hrel; [apply wp_throw|]; auto. }
  intros w1 Hw1. apply wp_bind, wp_unlink_names; [|auto]. intros r2 w2 Hw2 Hs2 Hd2 Hg2.
  apply wp_bind, wp_unlink_names; [|auto]. intros r3 w3 Hw3 Hs3 Hd3 Hg3.
  rewrite (scan_sequences _ _ _ Hrep).
  assert (shrinks w w3) as Hw by (do 2 (etransitivity; [|done]); by apply shrinks_same).
  apply wp_bind. eapply wp_mono; [apply (wp_open_tables E w o layers N Hrep layers w3)|].
  - done.
  - by destruct Hw.
  - intros q _. assert (forall p, p ∈ temps (opened o [] layers) -> in_dir (o_dir o) (table_name q) <> p) as Hnt.
    { intros p Hp Heq. by apply (table_path_not_temp _ q _ Hp). }
    rewrite Hd3, Hd2 by (apply Hnt; set_solver). by rewrite <- Hw1.
  - done.
  - intros [ts|e|] w4 [Hw4 Hr]; [|done|done]. destruct Hr as (H2 & Hps & Hfds). apply wp_ret.
    exists ts. assert (match layers.*1 with [] => 1 | seq :: _ => u64 (seq + 1) end = next_of layers) as ->.
    { destruct layers as [|[q rs] layers]; [done|]. cbn. apply u64_id. unfold is_u64.
      pose proof (dr_seqs _ _ _ Hrep) as Hs. cbn in Hs. apply Forall_cons in Hs as [Hs _]. lia. }
    assert (shrinks w w4) as Hsh by (etransitivity; [done|by apply shrinks_same]).
    assert (Forall (fun t => dir w4 !! path_ t = Some (fd_ t)) ts) as Hfds4.
    { eapply Forall_impl; [exact Hfds|]. intros t. cbn. by rewrite <- Hw4. }
    split_and!; [done|by apply (inv_opened w)|done|done| |done| |].
    + intros p Hp. cbn in Hp. rewrite <- Hw4, Hd3, Hd2 by set_solver. by rewrite <- Hw1.
    + by rewrite <- Hw4, Hs3, Hs2, <- Hw1.
    + intros Hrel p Hp. rewrite <- Hw4.
      apply elem_of_cons in Hp as [->|Hp]; [|apply elem_of_cons in Hp as [->|Hp]; [|by apply elem_of_nil in Hp]].
      * by apply Hg3.
      * rewrite Hd3; [by apply Hg2|apply not_eq_sym, temps_ne].
Qed.
