(* ===== verification/StoreSpec.v ===== *)
(** * What the store promises

    The theorems about [class Store], on the definitions of [Store.v]: a store is
    a map from keys to entries ([view]), a read gives what the deciding entry
    says at the time of the read, a write changes one key, a flush and a
    compaction change nothing a reader can see.  The invariant [store_inv] ties
    the object to the files.  Four scenarios at the end show where a failing
    kernel or a crash brings back what had been deleted. *)

From stdpp Require Import gmap.
From S2P Require Import Prelude Decimal SortedMap Memtable Bloom WalCodec Posix Wal Sstable Compaction Store.

(** ** A small store

    One table under a memtable of one key, with a log. *)

Definition demo_options : StoreOptions := mkOptions (lit "d") 64 10 true true.

Definition demo_table : Sstable :=
  mkSstable (lit "d/000001.sst") 0 (build demo_old.*1 10) (block_index [demo_old] 0)
    (zlen (data_of demo_old)) 1 true.

Definition demo_log : Wal := mkWal 1 kAlways [] 0 1000 0 0 0 false.

Definition demo_store : Store :=
  mkStore (Memtable.set Memtable_init (lit "b") (lit "2") 0) [demo_table] demo_options 2 0 0 false
    (Some demo_log).

Definition demo_disk : world :=
  mkWorld 0 {[lit "d/000001.sst" := 0%nat; lit "d/wal.log" := 1%nat]} ∅
    {[0%nat := table_image [demo_old] demo_old 10; 1%nat := []]} ∅ 2.

Lemma demo_dir p i : dir demo_disk !! p = Some i ->
  p = lit "d/000001.sst" /\ i = 0%nat \/ p = lit "d/wal.log" /\ i = 1%nat.
Proof.
  unfold demo_disk, dir. intros [[<- <-]|[_ H]]%lookup_insert_Some; [auto|].
  apply lookup_singleton_Some in H as [<- <-]. auto.
Qed.

Lemma small_table_rep : table_rep demo_disk demo_table demo_old.
Proof.
  apply (table_image_rep _ _ [demo_old] _ 10); try done.
  - by repeat constructor.
  - by repeat constructor.
  - split; [done|by repeat constructor].
Qed.

Lemma demo_store_inv : store_inv demo_disk demo_store [demo_old].
Proof.
  constructor.
  - apply set_wf, init_wf.
  - constructor; [apply small_table_rep|constructor].
  - by repeat constructor.
  - intros fd. cbn. intros [->|[->|?%elem_of_nil]%elem_of_cons]%elem_of_cons; [lia|lia|done].
  - intros p i [[-> ->]|[-> ->]]%demo_dir; cbn; lia.
  - intros p q i [[-> ->]|[-> ->]]%demo_dir [[-> Hi]|[-> Hi]]%demo_dir; done.
  - intros p fd Hp _ [[-> _]|[-> _]]%demo_dir;
      repeat (apply elem_of_cons in Hp as [?|Hp]; [done|]); by apply elem_of_nil in Hp.
  - intros wal t [= <-] [->|?%elem_of_nil]%elem_of_cons; done.
  - exists [1]. split_and!; [done|by repeat constructor|by repeat constructor|done|done].
Qed.

Lemma demo_flush_ready m :
  Forall row_ok (entries_ m) -> fits (entries_ m) -> flush_ready (set_memtable demo_store m).
Proof. by intros. Qed.

(** ** Reading *)

(** C20: A lookup gives what the store holds.  [Store::lookup] goes down the memtable
    and the tables, newest first, through Bloom filters, sparse indexes and block
    scans; whatever the key, its result is the deciding entry of the abstract map,
    read at the clock during the call: nothing for a tombstone or a stamp that has passed, its
    value and stamp otherwise.  It changes no file and throws nothing; it can differ
    only when the kernel reports an error during the call, and fails to return only
    when a system call does. *)
Theorem store_lookup_correct (E : env) (st : Store) (rows : list (list row)) (w w' : world)
    (key : bytes) (r : res (option Found)) :
  store_inv w st rows -> lookup E st key w = (r, w') ->
  same_files w w' /\
  match r with
  | Ret f => (exists t, between (tick w) w' t /\
                f = view (memtable_ st) rows key ≫= answer_at (clock_at E t)) \/
             io_error E (tick w) w'
  | Throw _ => False
  | Dead => ~ reliable E (files_budget w (sstables_ st))
  end.
Proof.
  intros Hinv Hrun.
  exact (wp_elim _ _ _ _ _ (wp_lookup E w st rows key w (si_tables _ _ _ Hinv)
    (si_canon _ _ _ Hinv) (reflexivity w)) Hrun).
Qed.

Lemma demo_lookup_a :
  (lookup (fair_env 400) demo_store (lit "a") demo_disk).1 = Ret (Some (mkFound (lit "1") 0)).
Proof. vm_compute. reflexivity. Qed.

Lemma store_lookup_correct_witness :
  exists w', lookup (fair_env 400) demo_store (lit "a") demo_disk =
    (Ret (Some (mkFound (lit "1") 0)), w') /\ same_files demo_disk w'.
Proof.
  pose proof demo_lookup_a as Hr.
  destruct (lookup (fair_env 400) demo_store (lit "a") demo_disk) as [r w'] eqn:Hrun. cbn in Hr.
  destruct (store_lookup_correct (fair_env 400) demo_store [demo_old] demo_disk w' (lit "a") r
    demo_store_inv Hrun) as [H _].
  exists w'. split; [f_equal; exact Hr|exact H].
Defined.

(** ** Writing *)

(** [Store::set] changes one key or nothing.  When it reports success the
    abstract map has the new entry, even though the write may have filled the
    memtable and set off a flush; when it reports failure the map is as it was,
    and the kernel is to blame.  The invariant holds either way. *)
Theorem store_set_correct (E : env) (st : Store) (rows : list (list row)) (w w' : world)
    (key value : bytes) (expires_at_ms : Z) (r : res (bool * Store)) :
  let m := Memtable.set (memtable_ st) key value expires_at_ms in
  let budget := write_budget st kSet key value expires_at_ms m in
  store_inv w st rows -> flush_ready (set_memtable st m) ->
  set E st key value expires_at_ms w = (r, w') ->
  match r with
  | Ret (ok, st') => exists rows', store_inv w' st' rows' /\ options_ st' = options_ st /\
      (forall k, view (memtable_ st') rows' k =
         if decide (ok = true /\ k = key) then Some (mkEntry value false expires_at_ms)
         else view (memtable_ st) rows k) /\
      (ok = false -> ~ reliable E budget)
  | _ => ~ reliable E budget
  end.
Proof.
  intros m budget Hinv Hready Hrun.
  pose proof (wp_elim _ _ _ _ _ (wp_set E st rows key value expires_at_ms w Hinv Hready) Hrun) as H.
  destruct r as [[ok st']|e|]; [|exact H|exact H].
  destruct H as (rows' & Hinv' & Ho & Hv & Hok). exists rows'.
  split; [done|]. split; [done|]. split; [|by destruct ok].
  intros k. rewrite Hv. unfold put_view, id. destruct ok; repeat case_decide; naive_solver.
Qed.

Lemma demo_fair n : (n <= 400)%nat -> ~ ~ reliable (fair_env 400) n.
Proof. intros Hn H. apply H. eapply reliable_mono; [exact Hn|apply fair_env_reliable]. Qed.

Ltac fair := match goal with H : ~ reliable (fair_env 400) _ |- _ =>
  exfalso; revert H; apply demo_fair; vm_compute; lia end.

Lemma demo_set_ready :
  flush_ready (set_memtable demo_store (Memtable.set (memtable_ demo_store) (lit "a") (lit "9") 0)).
Proof. apply demo_flush_ready; [by repeat constructor|by split]. Qed.

Lemma store_set_correct_witness :
  exists st' rows' w', set (fair_env 400) demo_store (lit "a") (lit "9") 0 demo_disk = (Ret (true, st'), w') /\
    store_inv w' st' rows' /\
    view (memtable_ st') rows' (lit "a") = Some (mkEntry (lit "9") false 0).
Proof.
  destruct (set (fair_env 400) demo_store (lit "a") (lit "9") 0 demo_disk) as [r w'] eqn:Hrun.
  pose proof (store_set_correct (fair_env 400) demo_store [demo_old] demo_disk w' (lit "a") (lit "9") 0 r
    demo_store_inv demo_set_ready Hrun) as H.
  destruct r as [[[] st']|e|]; [|destruct H as (? & _ & _ & _ & H); specialize (H eq_refl); fair|fair|fair].
  destruct H as (rows' & Hinv & _ & Hv & _). exists st', rows', w'. split; [done|]. split; [done|].
  by rewrite Hv.
Defined.

(** [Store::del] hides one key or changes nothing.  When it is durable the
    abstract map has a tombstone for the key, whatever older tables hold, and
    [was_live] says whether a read of the key just before gave a value; when it is
    not durable the map is as it was.  A key that was absent is logged and
    deleted all the same. *)
Theorem store_del_correct (E : env) (st : Store) (rows : list (list row)) (w w' : world)
    (key : bytes) (r : res (DelResult * Store)) :
  store_inv w st rows -> flush_ready (set_memtable st (Memtable.del (memtable_ st) key).2) ->
  del E st key w = (r, w') ->
  match r with
  | Ret (d, st') => exists rows', store_inv w' st' rows' /\ options_ st' = options_ st /\
      (forall k, view (memtable_ st') rows' k =
         if decide (d_durable d = true /\ k = key) then Some tomb else view (memtable_ st) rows k) /\
      (d_durable d = false -> ~ reliable E (del_budget w st key)) /\
      (d_durable d = true -> exists w1, same_files w w1 /\
         live_at E (tick w) w1 (view (memtable_ st) rows key) (d_was_live d))
  | _ => ~ reliable E (del_budget w st key)
  end.
Proof.
  intros Hinv Hready Hrun.
  destruct (wp_elim _ _ _ _ _ (wp_del E st rows key w Hinv Hready) Hrun) as (live & w1 & H & Hw1 & Hlive).
  destruct r as [[d st']|e|]; [|exact H|exact H].
  destruct H as (rows' & Hinv' & Ho & Hv & Hd). exists rows'. destruct (d_durable d) eqn:Hdur.
  - subst d. split_and!; try done; [|by exists w1].
    intros k. rewrite Hv. unfold put_view. repeat case_decide; naive_solver.
  - by split_and!.
Qed.

Lemma demo_del_ready :
  flush_ready (set_memtable demo_store (Memtable.del (memtable_ demo_store) (lit "a")).2).
Proof. apply demo_flush_ready; [by repeat constructor|by split]. Qed.

Lemma store_del_correct_witness :
  exists d st' rows' w', del (fair_env 400) demo_store (lit "a") demo_disk = (Ret (d, st'), w') /\
    d_durable d = true /\ store_inv w' st' rows' /\ view (memtable_ st') rows' (lit "a") = Some tomb.
Proof.
  destruct (del (fair_env 400) demo_store (lit "a") demo_disk) as [r w'] eqn:Hrun.
  pose proof (store_del_correct (fair_env 400) demo_store [demo_old] demo_disk w' (lit "a") r
    demo_store_inv demo_del_ready Hrun) as H.
  destruct r as [[d st']|e|]; [|fair|fair].
  destruct H as (rows' & Hinv & _ & Hv & Hd & _). destruct (d_durable d) eqn:Hdur;
    [|specialize (Hd eq_refl); fair].
  exists d, st', rows', w'. split; [reflexivity|]. split; [exact Hdur|]. split; [exact Hinv|].
  rewrite Hv. apply decide_True. split; reflexivity.
Defined.

(** C9: A write is read back.  On a kernel that does its work, [Store::set] succeeds,
    and every later lookup in the store it leaves, of the key just written or of
    any other, gives what the map with that one change says at the time of the
    lookup.  Whether the write stayed in the memtable or was flushed to a table on
    the way makes no difference. *)
Theorem set_then_lookup (E : env) (n : nat) (st : Store) (rows : list (list row)) (w : world)
    (key value : bytes) (expires_at_ms : Z) :
  let m := Memtable.set (memtable_ st) key value expires_at_ms in
  store_inv w st rows -> flush_ready (set_memtable st m) ->
  reliable E n -> (write_budget st kSet key value expires_at_ms m <= n)%nat ->
  exists st' w', set E st key value expires_at_ms w = (Ret (true, st'), w') /\
    forall k, (files_budget w' (sstables_ st') <= n)%nat ->
    exists t w'', between (tick w') w'' t /\
      lookup E st' k w' =
        (Ret ((if decide (k = key) then Some (mkEntry value false expires_at_ms)
               else view (memtable_ st) rows k) ≫= answer_at (clock_at E t)), w'').
Proof.
  intros m Hinv Hready Hrel Hn. destruct (set E st key value expires_at_ms w) as [r w'] eqn:Hrun.
  assert (forall k, (k <= n)%nat -> ~ ~ reliable E k) as Hno.
  { intros k Hk H. apply H. by eapply reliable_mono. }
  pose proof (wp_elim _ _ _ _ _ (wp_set E st rows key value expires_at_ms w Hinv Hready) Hrun) as H.
  destruct r as [[[] st']|e|]; [|destruct H as (? & _ & _ & _ & H)|..]; try by destruct (Hno _ Hn).
  destruct H as (rows' & Hinv' & _ & Hv & _). exists st', w'. split; [done|]. intros k Hk.
  destruct (lookup_reliable E n w' st' rows' k Hinv' Hrel Hk) as (t & w'' & Ht & Hlook).
  exists t, w''. split; [done|]. by rewrite Hlook, Hv.
Qed.

Lemma set_then_lookup_witness :
  exists st' w' t w'', set (fair_env 400) demo_store (lit "a") (lit "9") 0 demo_disk = (Ret (true, st'), w') /\
    lookup (fair_env 400) st' (lit "a") w' =
      (Ret (answer_at (clock_at (fair_env 400) t) (mkEntry (lit "9") false 0)), w'').
Proof.
  destruct (set_then_lookup (fair_env 400) 400 demo_store [demo_old] demo_disk (lit "a") (lit "9") 0
    demo_store_inv demo_set_ready (fair_env_reliable 400) ltac:(vm_compute; lia)) as (st' & w' & Hrun & H).
  assert (files_budget w' (sstables_ st') <= 400)%nat as Hb.
  { assert (match set (fair_env 400) demo_store (lit "a") (lit "9") 0 demo_disk with
            | (Ret (_, st'), w') => files_budget w' (sstables_ st') <= 400
            | _ => False
            end)%nat as Hset by (vm_compute; lia).
    by rewrite Hrun in Hset. }
  destruct (H (lit "a") Hb) as (t & w'' & _ & Hlook). exists st', w', t, w''. split; [exact Hrun|].
  exact Hlook.
Defined.

(** ** Housekeeping *)

(** C13: A flush moves entries without changing the map.  After [Store::flush] every
    key has the entry it had, the invariant holds for the new stack, success means
    the memtable is empty, and failure leaves the memtable as it was and is the
    kernel's doing.  An exception can only come from a kernel that failed too. *)
Theorem flush_keeps_map (E : env) (st : Store) (rows : list (list row)) (w w' : world)
    (r : res (bool * Store)) :
  store_inv w st rows -> flush_ready st -> flush E st w = (r, w') ->
  match r with
  | Ret (ok, st') => exists rows', store_inv w' st' rows' /\
      (forall k, view (memtable_ st') rows' k = view (memtable_ st) rows k) /\
      (ok = true -> o_dir (options_ st) <> [] -> entries_ (memtable_ st') = []) /\
      (ok = false -> memtable_ st' = memtable_ st /\ ~ reliable E (flush_budget st))
  | _ => ~ reliable E (flush_budget st)
  end.
Proof.
  intros Hinv Hready Hrun.
  pose proof (wp_elim _ _ _ _ _ (wp_flush E st rows w Hinv Hready) Hrun) as H.
  destruct r as [[ok st']|e|]; [|exact H|exact H].
  destruct H as (rows' & Hinv' & Hv & _ & Ht & Hf). by exists rows'.
Qed.

Lemma demo_ready : flush_ready demo_store.
Proof. split_and!; [by repeat constructor|by split|done]. Qed.

Lemma flush_keeps_map_witness :
  exists st' rows' w', flush (fair_env 400) demo_store demo_disk = (Ret (true, st'), w') /\
    entries_ (memtable_ st') = [] /\
    view (memtable_ st') rows' (lit "b") = Some (mkEntry (lit "2") false 0).
Proof.
  destruct (flush (fair_env 400) demo_store demo_disk) as [r w'] eqn:Hrun.
  pose proof (flush_keeps_map (fair_env 400) demo_store [demo_old] demo_disk w' r
    demo_store_inv demo_ready Hrun) as H.
  destruct r as [[[] st']|e|]; [|destruct H as (? & _ & _ & _ & H); destruct (H eq_refl) as [_ ?]; fair|fair|fair].
  destruct H as (rows' & _ & Hv & He & _). exists st', rows', w'. split; [reflexivity|].
  split; [apply He; [reflexivity|discriminate]|]. rewrite Hv. vm_compute. reflexivity.
Defined.

(** C12: Compaction changes nothing a reader can see.  After [Store::maybe_compact]
    every key reads as before at the time the merge looked at the clock and at any
    later time, although tombstones and expired entries may be gone from the
    bottom of the stack; the memtable and the log are untouched; the number it
    returns is the number of tables that disappeared, at least three if any; and it
    returns zero only when no run of tables was worth merging or the kernel
    failed it. *)
Theorem maybe_compact_keeps_reads (E : env) (st : Store) (rows : list (list row)) (w w' : world)
    (r : res (Z * Store)) :
  store_inv w st rows -> fits (concat rows) -> maybe_compact E st w = (r, w') ->
  match r with
  | Ret (n, st') => exists rows' t, store_inv w' st' rows' /\
      memtable_ st' = memtable_ st /\ wal_ st' = wal_ st /\
      (forall now k, clock_at E t <= now ->
         view (memtable_ st') rows' k ≫= answer_at now = view (memtable_ st) rows k ≫= answer_at now) /\
      zlen (sstables_ st') = zlen (sstables_ st) - n /\
      (n = 0 -> st' = st /\ (no_run w st \/ ~ reliable E (compact_budget w st rows))) /\
      (n <> 0 -> 3 <= n)
  | _ => ~ reliable E (compact_budget w st rows)
  end.
Proof.
  intros Hinv Hfits Hrun.
  pose proof (wp_elim _ _ _ _ _ (wp_maybe_compact E st rows w Hinv Hfits) Hrun) as H.
  destruct r as [[n st']|e|]; [|exact H|exact H].
  destruct H as (rows' & t & Hinv' & Hm & _ & Hwal & Hv & Hz & Hn & Hp). by exists rows', t.
Qed.

(** Four tables: the newest deletes the key of the oldest. *)
Definition stack_rows : list (list row) :=
  [demo_new; [(lit "b", mkEntry (lit "2") false 0)]; [(lit "c", mkEntry (lit "3") false 0)]; demo_old].

Definition stack_path (i : nat) : bytes := in_dir (lit "d") (table_name (Z.of_nat i)).

Definition stack_names : gmap bytes nat :=
  {[stack_path 4 := 0%nat; stack_path 3 := 1%nat; stack_path 2 := 2%nat; stack_path 1 := 3%nat]}.
Definition stack_files : gmap nat bytes :=
  list_to_map (imap (fun i rs => (i, table_image [rs] rs 10)) stack_rows).
Definition stack_disk : world := mkWorld 0 stack_names stack_names stack_files stack_files 4.

Definition stack_table (i : nat) (rs : list row) : Sstable :=
  mkSstable (stack_path (4 - i)) i (build rs.*1 10) (block_index [rs] 0) (zlen (data_of rs)) 1 true.

Definition stack_store : Store :=
  mkStore Memtable_init (imap stack_table stack_rows) demo_options 5 0 0 false None.

Lemma stack_dir p i : dir stack_disk !! p = Some i -> (i < 4)%nat /\ p = stack_path (4 - i).
Proof.
  unfold stack_disk, dir, stack_names.
  intros [[<- <-]|[_ [[<- <-]|[_ [[<- <-]|[_ H]]%lookup_insert_Some]]%lookup_insert_Some]]%lookup_insert_Some.
  1-3: split; [lia|reflexivity].
  apply lookup_singleton_Some in H as [<- <-]. split; [lia|reflexivity].
Qed.

Lemma stack_image i rs : stack_rows !! i = Some rs ->
  Forall row_ok rs /\ sm_sorted rs /\ fits rs /\ blocks_of [rs] rs /\
  contents stack_disk i = table_image [rs] rs 10.
Proof.
  destruct i as [|[|[|[|i]]]]; intros Hi; [injection Hi as <-..|done];
    (split; [by repeat constructor|]; split; [by repeat constructor|]; split; [by split|];
     split; [split; [done|by repeat constructor]|done]).
Qed.

Lemma stack_rep i rs : stack_rows !! i = Some rs -> table_rep stack_disk (stack_table i rs) rs.
Proof.
  intros (Hok & Hs & _ & Hb & Hc)%stack_image. by apply (table_image_rep _ _ [rs] _ 10).
Qed.

Lemma stack_store_inv : store_inv stack_disk stack_store stack_rows.
Proof.
  constructor.
  - apply init_wf.
  - do 4 (apply Forall2_cons; split; [by apply stack_rep|]). constructor.
  - by repeat constructor.
  - intros fd Hfd. repeat (apply elem_of_cons in Hfd as [->|Hfd]; [cbn; lia|]). by apply elem_of_nil in Hfd.
  - intros p i [Hi _]%stack_dir. exact Hi.
  - by intros p q i [_ ->]%stack_dir [_ ->]%stack_dir.
  - intros p fd Hp _ [_ ->]%stack_dir. by apply (table_path_not_temp stack_store (Z.of_nat (4 - fd))) in Hp.
  - done.
  - exists [4; 3; 2; 1]. split_and!; [reflexivity|by repeat constructor|by repeat constructor|done|done].
Qed.

Lemma stack_merges :
  match maybe_compact (fair_env 1000) stack_store stack_disk with
  | (Ret (n, _), _) => n = 3
  | _ => False
  end.
Proof. vm_compute. reflexivity. Qed.

Lemma maybe_compact_keeps_reads_witness :
  exists st' rows' w', maybe_compact (fair_env 1000) stack_store stack_disk = (Ret (3, st'), w') /\
    zlen (sstables_ st') = 1 /\ view (memtable_ st') rows' (lit "a") ≫= answer_at 5 = None /\
    view (memtable_ st') rows' (lit "b") ≫= answer_at 5 = Some (mkFound (lit "2") 0).
Proof.
  pose proof stack_merges as Hm.
  destruct (maybe_compact (fair_env 1000) stack_store stack_disk) as [r w'] eqn:Hrun.
  pose proof (maybe_compact_keeps_reads (fair_env 1000) stack_store stack_rows stack_disk w' r
    stack_store_inv ltac:(split; reflexivity) Hrun) as H.
  destruct r as [[n st']|e|]; [|destruct Hm|destruct Hm]. rewrite Hm in *.
  destruct H as (rows' & t & _ & _ & _ & Hv & Hz & _ & _). exists st', rows', w'.
  split; [reflexivity|]. split; [exact Hz|].
  rewrite !Hv by (cbn; lia). split; vm_compute; reflexivity.
Defined.

(** The names of tables are read back.  For every 64-bit sequence number the
    constructor recovers from [%06llu.sst] the number [flush] put there, however
    many digits it takes, so distinct numbers have distinct names; and it takes
    neither of the two temporary files nor the log for a table. *)
Theorem table_names_roundtrip (seq : Z) :
  is_u64 seq ->
  sequence_of (table_name seq) = Some seq /\
  (forall seq', is_u64 seq' -> table_name seq = table_name seq' -> seq = seq') /\
  sequence_of kFlushTemp = None /\ sequence_of kCompactTemp = None /\
  sequence_of (lit "wal.log") = None.
Proof.
  intros Hseq. split; [by apply sequence_of_table_name|]. split; [|by vm_compute].
  intros seq' Hseq' Heq. apply (f_equal sequence_of) in Heq.
  rewrite !sequence_of_table_name in Heq by done. by injection Heq.
Qed.

Lemma table_names_roundtrip_witness :
  sequence_of (table_name 12345678) = Some 12345678 /\ table_name 12345678 = lit "12345678.sst".
Proof.
  split; [|vm_compute; reflexivity].
  apply (table_names_roundtrip 12345678). unfold is_u64. lia.
Defined.

(** Table [j] is in the tier of the smallest table among the older ones of a run
    that ends at [stop]. *)
Definition in_tier (sizes : list Z) (stop j : nat) : Prop :=
  exists j', (j <= j' < stop)%nat /\
    (forall k, (j < k < stop)%nat -> nth j' sizes 0 <= nth k sizes 0) /\
    0 < nth j sizes 0 /\ 0 < nth j' sizes 0 /\
    nth j sizes 0 <= kTierRatio * nth j' sizes 0 /\ nth j' sizes 0 <= kTierRatio * nth j sizes 0.

Lemma extend_run_tiered sizes stop : Forall (fun x => 0 <= x < 2 ^ 63) sizes ->
  forall i m, (i <= stop)%nat -> (i - 1 <= m < stop)%nat ->
  (forall k, (i <= k < stop)%nat -> nth m sizes 0 <= nth k sizes 0) ->
  forall j, (extend_run sizes i (nth m sizes 0%Z) <= j < i)%nat -> in_tier sizes stop j.
Proof.
  intros Hall. assert (forall k, 0 <= nth k sizes 0 < 2 ^ 63) as Hsz.
  { intros k. destruct (nth_in_or_default k sizes 0) as [Hin| ->]; [|lia].
    rewrite Forall_forall in Hall. apply Hall. by apply list_elem_of_In. }
  induction i as [|i IH]; intros m Hi Hm Hmin j; cbn [extend_run]; [lia|].
  destruct (_ || _) eqn:Hstop; [lia|]. apply orb_false_elim in Hstop as [Hlow Hhigh].
  pose proof (Hsz i) as Hsi. pose proof (Hsz m) as Hsm. unfold kTierRatio in *.
  rewrite u64_id in Hhigh by (unfold is_u64; lia).
  intros Hj. destruct (decide (j = i)) as [->|Hne].
  - exists m. unfold kTierRatio. split_and!; try lia. intros k Hk. apply Hmin. lia.
  - destruct (decide (nth i sizes 0 <= nth m sizes 0)) as [Hle|Hgt].
    + rewrite Z.min_l in Hj by lia. apply (IH i); [lia|lia| |lia].
      intros k Hk. destruct (decide (k = i)) as [->|]; [lia|]. specialize (Hmin k). lia.
    + rewrite Z.min_r in Hj by lia. apply (IH m); [lia|lia| |lia].
      intros k Hk. destruct (decide (k = i)) as [->|]; [lia|]. apply Hmin. lia.
Qed.

Lemma find_run_tier sizes b len fuel : Forall (fun x => 0 <= x < 2 ^ 63) sizes -> forall i,
  find_run fuel sizes i = Some (b, len) ->
  forall j, (b <= j < b + len)%nat -> in_tier sizes (b + len) j.
Proof.
  intros Hall. induction fuel as [|fuel IH]; intros i; cbn [find_run]; [done|].
  destruct i as [|i]; [done|]. set (stop := extend_run sizes (S i) _).
  pose proof (extend_run_le sizes (S i) (nth i sizes 0)) as Hle. fold stop in Hle.
  destruct (Nat.leb _ _); [|apply IH]. intros [= <- <-] j Hj.
  replace (stop + (S i - stop))%nat with (S i) in * by lia.
  apply (extend_run_tiered sizes (S i) Hall (S i) i); [lia|lia| |exact Hj]. lia.
Qed.

(** The run [maybe_compact] merges is a contiguous part of the stack, at least
    four tables long; none of its tables is empty, and each is within a factor of
    two, either way, of the smallest of the older tables of the run. *)
Theorem find_run_tiered (sizes : list Z) (b len : nat) :
  Forall (fun x => 0 <= x < 2 ^ 63) sizes ->
  find_run (S (length sizes)) sizes (length sizes) = Some (b, len) ->
  (b + len <= length sizes)%nat /\ (4 <= len)%nat /\
  forall j, (b <= j < b + len)%nat -> in_tier sizes (b + len) j.
Proof.
  intros Hall Hrun. destruct (find_run_sound _ _ _ _ _ Hrun) as [H1 H2].
  split; [done|]. split; [done|]. by eapply find_run_tier.
Qed.

Lemma find_run_tiered_witness :
  find_run 6 [90; 10; 11; 12; 20] 5 = Some (1, 4)%nat /\ in_tier [90; 10; 11; 12; 20] 5 1.
Proof.
  split; [reflexivity|].
  apply (find_run_tiered [90; 10; 11; 12; 20] 1 4);
    [repeat constructor; lia|reflexivity|lia].
Defined.

(** A run may hold tables that are not in one tier.  The comment on [kTierRatio]
    says that two tables belong together if neither is more than twice as large as
    the other; the walk compares with the smallest table so far only, so sizes that
    halve from one table to the next are merged as one run, eight to one here. *)
Theorem run_spans_tiers :
  find_run 5 [100; 200; 400; 800] 4 = Some (0, 4)%nat /\ ~ (800 <= kTierRatio * 100).
Proof. split; [reflexivity|]. by vm_compute. Qed.

(** C34: A restart finds the tables again.  On a directory that holds the tables of
    [layers], each under the name [flush] gives its sequence number, the
    constructor of [Store] opens all of them, newest first whatever order the
    directory lists them in, so the map it starts with is that of the layers; it
    continues the numbering after the newest; and it throws or hangs only when the
    kernel fails. *)
Theorem store_open_recovers (E : env) (o : StoreOptions) (layers : list (Z * list row))
    (N : nat) (w w' : world) (r : res Store) :
  dir_rep w o layers -> dir_budget w o layers N -> o_dir o <> [] ->
  Store_open E o w = (r, w') ->
  match r with
  | Ret st => store_inv w' st layers.*2 /\
      (forall k, view (memtable_ st) layers.*2 k = first_of layers.*2 k) /\
      path_ <$> sstables_ st = table_path st <$> layers.*1 /\
      (forall q, q ∈ layers.*1 -> q < next_sequence_ st)
  | _ => ~ reliable E N
  end.
Proof.
  intros Hrep HN Hne Hrun.
  pose proof (wp_elim _ _ _ _ _ (wp_Store_open E o layers N w Hrep HN Hne) Hrun) as H.
  destruct r as [st|e|]; [|exact H|exact H]. destruct H as (ts & -> & Hinv & Hps & _).
  split_and!; [done|done|exact Hps|]. intros q Hq. cbn.
  destruct (next_of_range layers (dr_sorted _ _ _ Hrep) (dr_seqs _ _ _ Hrep)) as [Ha _].
  rewrite Forall_forall in Ha. by apply Ha.
Qed.

Definition stack_layers : list (Z * list row) := zip [4; 3; 2; 1] stack_rows.

Lemma stack_dir_rep : dir_rep stack_disk demo_options stack_layers.
Proof.
  assert (forall i rs, stack_rows !! i = Some rs -> is_table rs (contents stack_disk i)) as Htab.
  { intros i rs (Hok & Hs & Hf & Hb & Hc)%stack_image. by repeat (split; [done|]); exists [rs], 10. }
  constructor.
  - by repeat constructor.
  - by repeat constructor.
  - intros q rs Hin. repeat (apply elem_of_cons in Hin as [[= -> ->]|Hin];
      [eexists; split; [vm_compute; reflexivity|by apply Htab]|]). by apply elem_of_nil in Hin.
  - by repeat constructor.
  - intros p i n q [Hi ->]%stack_dir. unfold stack_path.
    rewrite name_in_dir by (apply table_name_no_slash; lia). intros [= <-].
    rewrite sequence_of_table_name by (unfold is_u64; lia). intros [= <-]. split; [|done].
    destruct i as [|[|[|[|i]]]]; [set_solver..|lia].
  - intros p i [Hi _]%stack_dir. exact Hi.
  - by intros p q i [_ ->]%stack_dir [_ ->]%stack_dir.
Qed.

Lemma stack_opens :
  match Store_open (fair_env 400) demo_options stack_disk with
  | (Ret st, _) => next_sequence_ st = 5
  | _ => False
  end.
Proof. vm_compute. reflexivity. Qed.

Lemma stack_dir_budget : dir_budget stack_disk demo_options stack_layers 400.
Proof.
  intros q rs i _ [Hi _]%stack_dir. destruct i as [|[|[|[|i]]]]; [vm_compute; lia..|lia].
Qed.

Lemma store_open_recovers_witness :
  exists st w', Store_open (fair_env 400) demo_options stack_disk = (Ret st, w') /\
    store_inv w' st stack_rows.
Proof.
  pose proof stack_opens as Hr.
  destruct (Store_open (fair_env 400) demo_options stack_disk) as [r w'] eqn:Hrun.
  pose proof (store_open_recovers (fair_env 400) demo_options stack_layers 400 stack_disk w' r
    stack_dir_rep stack_dir_budget ltac:(discriminate) Hrun) as H.
  destruct r as [st|e|]; [|destruct Hr|destruct Hr]. exists st, w'. split; [reflexivity|].
  exact (proj1 H).
Defined.

(** ** What a failing kernel or a crash can do *)

(** The kernel fails, or kills the process, at the interaction [at_]. *)
Definition env_but (at_ : nat) (a : list answer) : env :=
  mkEnv (fun _ => 5) (fun _ => 0)
    (fun t => if Nat.eqb t at_ then a else replicate 1000 (Done 100)).

(** A read error uncovers a deleted key.  [Sstable::get] reports a block it could
    not read as "not found", and [Store::lookup] then asks the next older table:
    the key deleted in the newest table reads as nothing when the disk works, and
    as its old value when the first read fails. *)
Theorem read_error_uncovers_deleted :
  (lookup (env_but 9 []) stack_store (lit "a") stack_disk).1 = Ret None /\
  (lookup (env_but 0 [Fail]) stack_store (lit "a") stack_disk).1 =
    Ret (Some (mkFound (lit "1") 0)).
Proof. split; vm_compute; reflexivity. Qed.

(** Power is lost: names and contents are what was last made durable. *)
Definition power_loss (w : world) : world :=
  mkWorld (tick w) (dir_synced w) (dir_synced w) (ino_synced w) (ino_synced w) (next_ino w).

(** What a store reopened on the directory says of a key. *)
Definition reopened (key : bytes) (w : world) : res (option Found) :=
  ((st ← Store_open (env_but 999 []) demo_options; lookup (env_but 999 []) st key) w).1.

(** A crash in the middle of a compaction brings deleted keys back.  The merged
    table takes the newest input's name before the other inputs' names are
    removed, and the comment there calls a crash in between harmless because the
    merged table shadows them.  A merge that reaches the oldest table drops its
    tombstones, so it does not: power is lost just before the first unlink, and
    the key deleted by the newest table reads as its oldest value after a
    restart. *)
Theorem compaction_crash_resurrects :
  reopened (lit "a") stack_disk = Ret None /\
  (maybe_compact (env_but 19 []) stack_store stack_disk).1 = Dead /\
  reopened (lit "a") (power_loss (maybe_compact (env_but 19 []) stack_store stack_disk).2) =
    Ret (Some (mkFound (lit "1") 0)).
Proof. split_and!; vm_compute; reflexivity. Qed.

(** A store on an empty directory with a log, whose memtable is full after one
    write. *)
Definition empty_disk : world :=
  mkWorld 0 {[lit "d/wal.log" := 0%nat]} {[lit "d/wal.log" := 0%nat]} {[0%nat := []]} {[0%nat := []]} 1.
Definition empty_store : Store :=
  mkStore Memtable_init [] (mkOptions (lit "d") 1 10 true true) 1 0 0 false
    (Some (mkWal 0 kAlways [] 0 1000 0 0 0 false)).

Definition set_flush_all (E : env) : M (bool * bool) :=
  '(set_ok, st) ← set E empty_store (lit "a") (lit "1") 0;
  '(flushed, _) ← flush_all E st;
  mret (set_ok, flushed).





(** FLUSHALL does not remove a table whose flush failed late.  When the directory
    cannot be fsynced after the rename, [flush] reports failure and keeps the
    memtable, but the table has its name and is not in the stack.  A [flush_all]
    after that removes only the tables of the stack, makes the orphan's name
    durable, and reports success: a restart reads the flushed key back. *)
Theorem flush_all_misses_orphan :
  let run := set_flush_all (env_but 11 [Fail]) empty_disk in
  run.1 = Ret (true, true) /\
  reopened (lit "a") (power_loss run.2) = Ret (Some (mkFound (lit "1") 0)).
Proof. split; vm_compute; reflexivity. Qed.
