(* ===== verification/Command.v ===== *)
(** * The command layer ([command.h], [command.cpp])

    One parsed command runs against the store and its reply is appended to the
    output.  A handler is a function of the command, the store and the output so
    far; the clock and the disk are reached through the [Posix] calls.  [args[i]]
    is [arg c i], whose range the arity check of [execute] guarantees. *)

From stdpp Require Import gmap.
From S2P Require Import Prelude Decimal Resp SortedMap Memtable WalCodec Posix Wal Sstable Compaction Store.

(** ** Names and numbers *)

Definition kMaxNameLen : nat := 16.

(** [std::tolower] and [std::isprint] in the C locale. *)
Definition tolower (c : byte) : byte :=
  if (65 <=? b2z c) && (b2z c <=? 90) then z2b (b2z c + 32) else c.
Definition isprint (c : byte) : bool := (32 <=? b2z c) && (b2z c <=? 126).

Definition normalize_name (name : bytes) : option bytes :=
  if decide (kMaxNameLen < length name)%nat then None else Some (tolower <$> name).

Definition kMaxEcho : nat := 64.
Definition append_printable (out s : bytes) : bytes :=
  out ++ ((fun c => if isprint c then c else x2e) <$> take kMaxEcho s).

Definition kNotAnInteger : bytes := lit "ERR value is not an integer or out of range".

(** The digit loop of [parse_int64]; the overflow test comes before the
    multiplication. *)
Fixpoint parse_digits (text : bytes) (value : Z) : option Z :=
  match text with
  | [] => Some value
  | c :: text =>
      if (b2z c <? 48) || (57 <? b2z c) then None
      else
        let digit := b2z c - 48 in
        if (INT64_MAX - digit) / 10 <? value then None
        else parse_digits text (value * 10 + digit)
  end.

Definition parse_int64 (text : bytes) : option Z :=
  match text with
  | [] => None
  | c :: rest =>
      if decide (20 < length text)%nat then None
      else
        let negative := bool_decide (c = x2d) in
        let digits := if negative then rest else text in
        if negative && bool_decide (length text = 1%nat) then None
        else if bool_decide (head digits = Some x30) && (bool_decide (1 < length digits)%nat || negative)
        then None
        else
          value ← parse_digits digits 0;
          Some (if negative then - value else value)
  end.

Definition arg (c : Command) (i : nat) : bytes := nth i (args c) [].

Definition policy_name (policy : SyncPolicy) : bytes :=
  match policy with
  | kAlways => lit "always"
  | kEverySec => lit "everysec"
  | kNo => lit "no"
  end.

(** ** What INFO reads of the store *)

Definition memtable_keys (st : Store) : Z := live_count_ (memtable_ st).
Definition memtable_bytes (st : Store) : Z := bytes_ (memtable_ st).
Definition sstable_count (st : Store) : Z := zlen (sstables_ st).
Definition wal_bytes (st : Store) : Z := match wal_ st with Some wal => size_ wal | None => 0 end.
Definition wal_syncs (st : Store) : Z := match wal_ st with Some wal => syncs_ wal | None => 0 end.
Definition has_wal (st : Store) : bool := match wal_ st with Some _ => true | None => false end.
Definition wal_policy (st : Store) : SyncPolicy :=
  match wal_ st with Some wal => policy_ wal | None => kNo end.

(** ** Handlers *)

Section handlers.
Context (E : env).
(** The reading of the clock when the process started. *)
Context (kStartedMs : Z).

Definition Handler : Type := Command -> Store -> bytes -> M (Store * bytes).

Definition reply (st : Store) (out : bytes) : M (Store * bytes) := mret (st, out).

Definition deadline_from (amount unit_ms : Z) : M (option Z) :=
  if INT64_MAX / unit_ms <? amount then mret None
  else
    let delta := amount * unit_ms in
    now ← now_ms E;
    if INT64_MAX - now <? delta then mret None
    else
      let out := now + delta in
      mret (Some (if out =? 0 then -1 else out)).

Definition cmd_ping : Handler := fun c st out =>
  if decide (length (args c) = 1%nat) then reply st (append_simple_string out (lit "PONG"))
  else reply st (append_bulk_string out (arg c 1)).

Definition kInvalidExpireSet : bytes := lit "ERR invalid expire time in 'set' command".
Definition kWriteFailed : bytes := lit "ERR the write could not be logged and was not applied".

(** The call to [Store::set] that ends SET and INCR, and its reply. *)
Definition store_set (st : Store) (key value : bytes) (expires_at_ms : Z) (out ok : bytes)
  : M (Store * bytes) :=
  '(done, st) ← Store.set E st key value expires_at_ms;
  if negb done then reply st (append_error out kWriteFailed) else reply st ok.

Definition cmd_set : Handler := fun c st out =>
  let finish expires_at_ms :=
    store_set st (arg c 1) (arg c 2) expires_at_ms out (append_simple_string out (lit "OK")) in
  if decide (length (args c) = 5%nat) then
    match normalize_name (arg c 3) with
    | Some option_ =>
        if bool_decide (option_ = lit "ex") || bool_decide (option_ = lit "px") then
          match parse_int64 (arg c 4) with
          | None => reply st (append_error out kNotAnInteger)
          | Some amount =>
              if amount <=? 0 then reply st (append_error out kInvalidExpireSet)
              else
                d ← deadline_from amount (if bool_decide (option_ = lit "ex") then 1000 else 1);
                match d with
                | None => reply st (append_error out kInvalidExpireSet)
                | Some expires_at_ms => finish expires_at_ms
                end
          end
        else reply st (append_error out (lit "ERR syntax error"))
    | None => reply st (append_error out (lit "ERR syntax error"))
    end
  else if decide (length (args c) = 3%nat) then finish 0
  else reply st (append_error out (lit "ERR syntax error")).

Definition cmd_get : Handler := fun c st out =>
  v ← Store.get E st (arg c 1);
  match v with
  | Some v => reply st (append_bulk_string out v)
  | None => reply st (append_null_bulk out)
  end.

Definition kDeleteFailed : bytes := lit "ERR the delete could not be logged and was not applied".

Definition cmd_del : Handler := fun c st out =>
  if decide (length (args c) = 2%nat) then
    '(r, st) ← Store.del E st (arg c 1);
    if negb (d_durable r) then reply st (append_error out kDeleteFailed)
    else reply st (append_integer out (if d_was_live r then 1 else 0))
  else
    '(r, st) ← del_many E st (drop 1 (args c));
    if negb (b_durable r) then reply st (append_error out kDeleteFailed)
    else reply st (append_integer out (b_removed r)).

(** [Store::exists] for each key. *)
Fixpoint count_existing (st : Store) (keys : list bytes) (found : Z) : M Z :=
  match keys with
  | [] => mret found
  | key :: keys =>
      v ← Store.get E st key;
      count_existing st keys (if bool_decide (is_Some v) then found + 1 else found)
  end.

Definition cmd_exists : Handler := fun c st out =>
  found ← count_existing st (drop 1 (args c)) 0;
  reply st (append_integer out found).

Definition cmd_expire : Handler := fun c st out =>
  match parse_int64 (arg c 2) with
  | None => reply st (append_error out kNotAnInteger)
  | Some seconds =>
      d ← (if seconds <=? 0 then mret (Some (-1)) else deadline_from seconds 1000);
      match d with
      | None => reply st (append_error out (lit "ERR invalid expire time in 'expire' command"))
      | Some deadline =>
          '(r, st) ← Store.expire E st (arg c 1) deadline;
          if negb (e_durable r) then
            reply st (append_error out (lit "ERR the expiry could not be logged and was not applied"))
          else reply st (append_integer out (if e_applied r then 1 else 0))
      end
  end.

Definition cmd_ttl : Handler := fun c st out =>
  r ← Store.ttl E st (arg c 1);
  if negb (t_exists r) then reply st (append_integer out (-2))
  else if negb (t_has_expiry r) then reply st (append_integer out (-1))
  else reply st (append_integer out (Z.quot (t_remaining_ms r + 999) 1000)).

Definition cmd_incr : Handler := fun c st out =>
  found ← Store.lookup E st (arg c 1);
  match (match found with
         | Some f => value ← parse_int64 (f_value f); Some (value, f_expires_at_ms f)
         | None => Some (0, 0)
         end) with
  | None => reply st (append_error out kNotAnInteger)
  | Some (value, expires_at_ms) =>
      if value =? INT64_MAX then
        reply st (append_error out (lit "ERR increment or decrement would overflow"))
      else
        let value := value + 1 in
        store_set st (arg c 1) (to_chars value) expires_at_ms out (append_integer out value)
  end.

Definition cmd_flushall : Handler := fun c st out =>
  '(ok, st) ← flush_all E st;
  if negb ok then reply st (append_error out (lit "ERR the flush could not be completed"))
  else reply st (append_simple_string out (lit "OK")).

(** [line(key, value)] of [cmd_info]. *)
Definition info_line (info key : bytes) (value : Z) : bytes :=
  info ++ key ++ [x3a] ++ to_chars value ++ kCrlf.

Definition cmd_info : Handler := fun c st out =>
  now ← now_ms E;
  let info := lit "# Server" ++ kCrlf in
  let info := info_line info (lit "uptime_in_seconds") (u64 (Z.quot (now - kStartedMs) 1000)) in
  let info := info ++ kCrlf ++ lit "# Memtable" ++ kCrlf in
  let info := info_line info (lit "memtable_keys") (memtable_keys st) in
  let info := info_line info (lit "memtable_bytes") (memtable_bytes st) in
  let info := info_line info (lit "memtable_limit_bytes") (memtable_limit_bytes (options_ st)) in
  let info := info ++ kCrlf ++ lit "# Persistence" ++ kCrlf in
  let info := info_line info (lit "sstable_count") (sstable_count st) in
  let info := info_line info (lit "wal_bytes") (wal_bytes st) in
  let info := info_line info (lit "wal_fsyncs") (wal_syncs st) in
  let info := info ++ lit "wal_fsync_policy:" in
  let info := info ++ (if has_wal st then policy_name (wal_policy st) else lit "none") in
  let info := info ++ kCrlf in
  let info := info_line info (lit "flush_failed") (if flush_failed_ st then 1 else 0) in
  let info := info ++ kCrlf ++ lit "# Expiry" ++ kCrlf in
  let info := info_line info (lit "expired_keys_swept") (swept_keys_ st) in
  reply st (append_bulk_string out info).

(** The answers CONFIG GET knows. *)
Definition config_value (st : Store) (param : bytes) : option bytes :=
  if bool_decide (param = lit "save") then Some []
  else if bool_decide (param = lit "appendonly") then Some (lit "yes")
  else if bool_decide (param = lit "appendfsync") then
    Some (if has_wal st then policy_name (wal_policy st) else lit "no")
  else if bool_decide (param = lit "maxmemory") then Some (lit "0")
  else None.

Definition cmd_config : Handler := fun c st out =>
  if bool_decide (normalize_name (arg c 1) = Some (lit "get")) then
    if negb (bool_decide (length (args c) = 3%nat)) then reply st (append_array_header out 0)
    else
      match normalize_name (arg c 2) ≫= config_value st with
      | None => reply st (append_array_header out 0)
      | Some value =>
          let out := append_array_header out 2 in
          let out := append_bulk_string out (arg c 2) in
          reply st (append_bulk_string out value)
      end
  else
    let msg := lit "ERR Unknown CONFIG subcommand or wrong number of " in
    let msg := msg ++ lit "arguments for '" in
    let msg := append_printable msg (arg c 1) in
    let msg := msg ++ lit "'" in
    reply st (append_error out msg).

Definition cmd_command : Handler := fun c st out => reply st (append_array_header out 0).

(** ** Dispatch *)

Record Spec := mkSpec { handler : Handler; min_args : Z; max_args : Z }.

Definition dispatch_table : list (bytes * Spec) :=
  [(lit "ping", mkSpec cmd_ping 1 2);
   (lit "set", mkSpec cmd_set 3 (-1));
   (lit "get", mkSpec cmd_get 2 2);
   (lit "expire", mkSpec cmd_expire 3 3);
   (lit "ttl", mkSpec cmd_ttl 2 2);
   (lit "incr", mkSpec cmd_incr 2 2);
   (lit "flushall", mkSpec cmd_flushall 1 (-1));
   (lit "info", mkSpec cmd_info 1 2);
   (lit "config", mkSpec cmd_config 2 (-1));
   (lit "del", mkSpec cmd_del 2 (-1));
   (lit "exists", mkSpec cmd_exists 2 (-1));
   (lit "command", mkSpec cmd_command 1 (-1))].

(** [table.find(name)]. *)
Fixpoint find_spec (table : list (bytes * Spec)) (name : bytes) : option Spec :=
  match table with
  | [] => None
  | (n, spec) :: table => if decide (n = name) then Some spec else find_spec table name
  end.

Definition execute (cmd : Command) (st : Store) (out : bytes) : M (Store * bytes) :=
  match args cmd with
  | [] => mret (st, out)
  | first :: _ =>
      match (name ← normalize_name first; spec ← find_spec dispatch_table name; Some (name, spec)) with
      | None =>
          let msg := lit "ERR unknown command '" in
          let msg := append_printable msg first in
          let msg := msg ++ lit "'" in
          mret (st, append_error out msg)
      | Some (name, spec) =>
          let argc := zlen (args cmd) in
          if (argc <? min_args spec) || ((0 <=? max_args spec) && (max_args spec <? argc)) then
            let msg := lit "ERR wrong number of arguments for '" in
            let msg := msg ++ name in
            let msg := msg ++ lit "' command" in
            mret (st, append_error out msg)
          else handler spec cmd st out
      end
  end.

End handlers.

(** ** Integers *)

Lemma parse_digits_spec text v n :
  0 <= v <= INT64_MAX ->
  parse_digits text v = Some n <->
  all_digits text /\ n = v * 10 ^ zlen text + dec_val text /\ n <= INT64_MAX.
Proof.
  revert v n. induction text as [|c text IH]; intros v n Hv; cbn [parse_digits].
  { change (zlen []) with 0. change (dec_val []) with 0. rewrite Z.mul_1_r, Z.add_0_r. split.
    - intros [= <-]. split_and!; [constructor|done|lia].
    - by intros (_ & -> & _). }
  assert ((b2z c <? 48) || (57 <? b2z c) = negb (is_digit c)) as ->.
  { unfold is_digit. destruct (Z.ltb_spec (b2z c) 48), (Z.ltb_spec 57 (b2z c)),
      (Z.leb_spec 48 (b2z c)), (Z.leb_spec (b2z c) 57); cbn; lia || done. }
  unfold all_digits. rewrite Forall_cons. destruct (is_digit c) eqn:Hc; cbn [negb]; [|naive_solver].
  pose proof (digit_val_range c Hc) as Hr. fold (digit_val c).
  assert (dec_val (c :: text) = digit_val c * 10 ^ zlen text + dec_val text) as Hval.
  { change (c :: text) with ([c] ++ text). apply dec_val_app. }
  rewrite Hval, zlen_cons, Z.pow_add_r, Z.pow_1_r by (pose proof (zlen_nonneg text); lia).
  destruct (Z.ltb_spec ((INT64_MAX - digit_val c) / 10) v) as [Hov|Hok].
  - split; [done|]. intros ((_ & Hd) & -> & Hle). exfalso.
    assert (INT64_MAX < v * 10 + digit_val c) by (pose proof (Z.mul_succ_div_gt (INT64_MAX - digit_val c) 10); lia).
    pose proof (dec_val_nonneg _ Hd). assert (1 <= 10 ^ zlen text) by (apply (Z.pow_le_mono_r 10 0); [lia|apply zlen_nonneg]).
    nia.
  - assert (v * 10 + digit_val c <= INT64_MAX) as Hle.
    { pose proof (Z.mul_div_le (INT64_MAX - digit_val c) 10). lia. }
    rewrite IH by lia. unfold all_digits. split; intros H; naive_solver lia.
Qed.

(** Digits that [parse_int64] lets through are spelled the canonical way. *)
Definition canonical_digits (ds : bytes) : Prop :=
  all_digits ds /\ ds <> [] /\ (length ds <= 20)%nat /\
  match ds with b :: _ :: _ => digit_val b <> 0 | _ => True end.

Lemma digit_zero c : is_digit c = true -> digit_val c = 0 <-> c = x30.
Proof.
  intros Hc. split; [|by intros ->]. intros H. rewrite <- (digit_of_val c Hc), H. reflexivity.
Qed.

Lemma digits_no_minus ds c : all_digits ds -> head ds = Some c -> c <> x2d.
Proof. intros Hd Hh ->. destruct ds; [done|]. injection Hh as ->. by apply Forall_cons in Hd as [? _]. Qed.

Lemma dec_digits_canon n : 0 <= n < 10 ^ 19 ->
  let ds := dec_digits 20 n in
  all_digits ds /\ ds <> [] /\ (length ds <= 19)%nat /\ dec_val ds = n /\
  (head ds = Some x30 -> length ds = 1%nat /\ n = 0).
Proof.
  intros Hn ds. split; [apply dec_digits_digits; lia|]. split; [apply dec_digits_nonempty|].
  split.
  { unfold ds. rewrite (dec_digits_fuel 19) by (cbn; lia). apply dec_digits_length. }
  split; [apply dec_digits_val; cbn; lia|]. intros Hh.
  destruct (decide (n = 0)) as [->|Hne]; [done|].
  destruct (dec_digits_head 20 n) as (b & l & Hb & Hv & Hd); [cbn; lia|].
  unfold ds in Hh. rewrite Hb in Hh. injection Hh as ->. by destruct Hv.
Qed.

Lemma parse_int64_to_chars n : INT64_MIN < n <= INT64_MAX -> parse_int64 (to_chars n) = Some n.
Proof.
  unfold INT64_MIN, INT64_MAX. intros Hn. unfold to_chars.
  destruct (Z.ltb_spec n 0) as [Hneg|Hpos].
  - destruct (dec_digits_canon (- n)) as (Hd & Hne & Hl & Hv & Hz); [cbn; lia|].
    set (ds := dec_digits 20 (- n)) in *. unfold parse_int64. cbn [length].
    rewrite decide_False by lia. rewrite (bool_decide_eq_true_2 (x2d = x2d)) by done. cbn [andb].
    rewrite (bool_decide_eq_false_2 (S (length ds) = 1%nat)) by (destruct ds; [done|cbn; lia]).
    rewrite orb_true_r, andb_true_r.
    rewrite bool_decide_eq_false_2 by (intros [_ ?]%Hz; lia).
    rewrite (proj2 (parse_digits_spec ds 0 (- n) ltac:(unfold INT64_MAX; lia))).
    + cbn. f_equal. lia.
    + unfold INT64_MAX. split_and!; [done|lia|lia].
  - destruct (dec_digits_canon n) as (Hd & Hne & Hl & Hv & Hz); [cbn; lia|].
    set (ds := dec_digits 20 n) in *. clearbody ds. destruct ds as [|c ds]; [done|]. unfold parse_int64.
    rewrite decide_False by lia.
    rewrite (bool_decide_eq_false_2 (c = x2d)) by (by apply (digits_no_minus (c :: ds))). cbn [andb].
    rewrite orb_false_r, (proj2 (andb_false_iff _ _)).
    + rewrite (proj2 (parse_digits_spec (c :: ds) 0 n ltac:(unfold INT64_MAX; lia))); [done|].
      unfold INT64_MAX. split_and!; [done|lia|lia].
    + destruct (bool_decide (head (c :: ds) = Some x30)) eqn:Hh; [right|by left].
      apply bool_decide_eq_true in Hh. apply bool_decide_eq_false. apply Hz in Hh as [-> _]. lia.
Qed.

Lemma parse_int64_inv s n :
  parse_int64 s = Some n -> INT64_MIN < n <= INT64_MAX /\ s = to_chars n.
Proof.
  destruct s as [|c s]; [done|]. unfold parse_int64. case_decide as Hlen; [done|].
  destruct (bool_decide (c = x2d)) eqn:Hneg; cbn [andb].
  - apply bool_decide_eq_true in Hneg as ->. case_bool_decide as H1; [done|].
    rewrite orb_true_r, andb_true_r. case_bool_decide as Hh; [done|].
    intros (v & Hv & [= <-])%bind_Some.
    apply (parse_digits_spec s 0 v) in Hv as (Hd & Hval & Hle); [|unfold INT64_MAX; lia].
    rewrite Z.mul_0_l, Z.add_0_l in Hval. subst v.
    assert (0 <= dec_val s) by (by apply dec_val_nonneg).
    assert (s <> [] /\ dec_digits 20 (dec_val s) = s) as [Hne Hs].
    { destruct s as [|d s]; [done|]. split; [done|]. apply dec_digits_canonical; auto; [unfold zlen; cbn [length] in *; lia|].
      destruct s; [done|]. apply Forall_cons in Hd as [Hd _]. intros Hz%digit_zero; [|done]. by subst. }
    assert (dec_val s <> 0) as Hnz.
    { intros Hz. rewrite Hz in Hs. apply Hh. by rewrite <- Hs. }
    split; [unfold INT64_MIN, INT64_MAX in *; lia|]. unfold to_chars.
    rewrite (proj2 (Z.ltb_lt _ 0)) by lia. by rewrite Z.opp_involutive, Hs.
  - rewrite orb_false_r. destruct (_ && _) eqn:Hz; [done|].
    intros (v & Hv & [= <-])%bind_Some.
    apply (parse_digits_spec (c :: s) 0 v) in Hv as (Hd & Hval & Hle); [|unfold INT64_MAX; lia].
    rewrite Z.mul_0_l, Z.add_0_l in Hval. subst v.
    assert (0 <= dec_val (c :: s)) by (by apply dec_val_nonneg).
    split; [unfold INT64_MIN, INT64_MAX in *; lia|]. unfold to_chars.
    rewrite (proj2 (Z.ltb_ge _ 0)) by lia. symmetry. apply dec_digits_canonical; auto; [unfold zlen; cbn [length] in *; lia|].
    destruct s as [|d s]; [done|]. apply Forall_cons in Hd as [Hd _]. intros ->%digit_zero; [|done].
    by rewrite !bool_decide_eq_true_2 in Hz by (cbn; lia || done).
Qed.

(** ** Replies

    The replies of the protocol, as far as the handlers produce them, and their
    bytes. *)

Inductive resp_reply :=
  | RSimple (s : bytes)
  | RError (s : bytes)
  | RInteger (n : Z)
  | RBulk (s : bytes)
  | RNull
  | RArray (items : list bytes).

Definition encode_reply (r : resp_reply) : bytes :=
  match r with
  | RSimple s => append_simple_string [] s
  | RError s => append_error [] s
  | RInteger n => append_integer [] n
  | RBulk s => bulk s
  | RNull => append_null_bulk []
  | RArray items => append_array_header [] (zlen items) ++ concat (bulk <$> items)
  end.

(** A line of a reply ends where it seems to end. *)
Definition reply_ok (r : resp_reply) : Prop :=
  match r with
  | RSimple s | RError s => is_single_line s = true
  | _ => True
  end.

(** [out'] is [out] and one more reply. *)
Definition one_reply (out : bytes) (r : res (Store * bytes)) (w : world) : Prop :=
  match r with
  | Ret (_, out') => exists x, reply_ok x /\ out' = out ++ encode_reply x
  | _ => True
  end.

Lemma reply_simple out s st w : is_single_line s = true -> one_reply out (Ret (st, append_simple_string out s)) w.
Proof. intros Hs. by exists (RSimple s). Qed.

Lemma reply_error out s st w : is_single_line s = true -> one_reply out (Ret (st, append_error out s)) w.
Proof. intros Hs. by exists (RError s). Qed.

Lemma reply_integer out n st w : one_reply out (Ret (st, append_integer out n)) w.
Proof.
  exists (RInteger n). split; [done|]. cbn. unfold append_integer, append_i64. by rewrite <- !app_assoc.
Qed.

Lemma reply_bulk out s st w : one_reply out (Ret (st, append_bulk_string out s)) w.
Proof. exists (RBulk s). split; [done|]. apply append_bulk_string_app. Qed.

Lemma reply_null out st w : one_reply out (Ret (st, append_null_bulk out)) w.
Proof. by exists RNull. Qed.

Lemma append_array_header_app out n : append_array_header out n = out ++ append_array_header [] n.
Proof. unfold append_array_header, append_i64. by rewrite <- !app_assoc. Qed.

Lemma reply_array0 out st w : one_reply out (Ret (st, append_array_header out 0)) w.
Proof.
  exists (RArray []). split; [done|]. cbn [encode_reply fmap list_fmap concat].
  by rewrite app_nil_r, append_array_header_app.
Qed.

Lemma reply_array2 out a b st w :
  one_reply out (Ret (st, append_bulk_string (append_bulk_string (append_array_header out 2) a) b)) w.
Proof.
  exists (RArray [a; b]). split; [done|]. cbn [encode_reply fmap list_fmap concat].
  rewrite !append_bulk_string_app, append_array_header_app, app_nil_r, <- !app_assoc. done.
Qed.

Create HintDb replies.
#[export] Hint Resolve reply_simple reply_error reply_integer reply_bulk reply_null
  reply_array0 reply_array2 : replies.

(** Whatever a call does, as long as the rest is right whatever it returned. *)
Lemma wp_then {A} (m : M A) (k : A -> M (Store * bytes)) out w :
  (forall a w', wp (k a) (one_reply out) w') -> wp (m ≫= k) (one_reply out) w.
Proof.
  intros H. apply wp_bind. unfold wp at 1. destruct (m w) as [[a|e|] w']; cbn; [apply H|done|done].
Qed.

Lemma is_single_line_app a b : is_single_line (a ++ b) = is_single_line a && is_single_line b.
Proof. apply forallb_app. Qed.

Lemma printable_single_line s : is_single_line ((fun c => if isprint c then c else x2e) <$> s) = true.
Proof.
  induction s as [|c s IH]; [done|]. unfold is_single_line in *. cbn [fmap list_fmap forallb].
  rewrite IH, andb_true_r. destruct (isprint c) eqn:Hc; [|done].
  rewrite !bool_decide_eq_false_2; [done| |]; by intros ->.
Qed.

Lemma printable_quoted msg s :
  is_single_line msg = true -> is_single_line (append_printable msg s ++ lit "'") = true.
Proof.
  intros Hm. unfold append_printable. rewrite !is_single_line_app, Hm.
  by rewrite (printable_single_line (take kMaxEcho s)).
Qed.

Ltac one_reply_tac :=
  repeat first
    [ apply wp_ret; solve [auto with replies]
    | apply wp_then; intros ? ?
    | progress unfold reply, store_set
    | match goal with |- context [let '(_, _) := ?x in _] => destruct x end
    | case_match ].

Section one_reply.
Context (E : env) (kStartedMs : Z).

Lemma handlers_one_reply c st out w name spec :
  find_spec (dispatch_table E kStartedMs) name = Some spec ->
  wp (handler spec c st out) (one_reply out) w.
Proof.
  unfold dispatch_table. cbn [find_spec]. intros H.
  repeat (case_decide; [injection H as <-; cbn [handler]|]); [..|done].
  - unfold cmd_ping. one_reply_tac.
  - unfold cmd_set. one_reply_tac.
  - unfold cmd_get. one_reply_tac.
  - unfold cmd_expire. one_reply_tac.
  - unfold cmd_ttl. one_reply_tac.
  - unfold cmd_incr. one_reply_tac.
  - unfold cmd_flushall. one_reply_tac.
  - unfold cmd_info. one_reply_tac.
  - unfold cmd_config. one_reply_tac. apply wp_ret, reply_error. by apply printable_quoted.
  - unfold cmd_del. one_reply_tac.
  - unfold cmd_exists. one_reply_tac.
  - unfold cmd_command. one_reply_tac.
Qed.

(** A name of the table is one of the table's literals. *)
Lemma spec_name_single_line name spec :
  find_spec (dispatch_table E kStartedMs) name = Some spec -> is_single_line name = true.
Proof.
  unfold dispatch_table. cbn [find_spec]. intros H.
  repeat (case_decide; [subst name; reflexivity|]). done.
Qed.

Lemma wp_execute_one_reply cmd st out w :
  args cmd <> [] -> wp (execute E kStartedMs cmd st out) (one_reply out) w.
Proof.
  intros Hne. unfold execute. destruct (args cmd) as [|first rest]; [done|].
  destruct (normalize_name first) as [name|]; cbn [mbind option_bind].
  - destruct (find_spec _ name) as [spec|] eqn:Hspec; cbn [mbind option_bind].
    + case_match; [|by eapply handlers_one_reply].
      apply wp_ret, reply_error. rewrite !is_single_line_app, (spec_name_single_line _ _ Hspec).
      reflexivity.
    + apply wp_ret, reply_error. by apply printable_quoted.
  - apply wp_ret, reply_error. by apply printable_quoted.
Qed.
End one_reply.

(** A client's reading of one reply: the line, and the payload it announces. *)
Definition read_line (b : bytes) : option (bytes * bytes) :=
  i ← find_crlf b; Some (take i b, drop (i + 2) b).

Definition read_bulk (b : bytes) : option (option bytes * bytes) :=
  match b with
  | c :: b =>
      if decide (c = x24) then
        '(line, b) ← read_line b;
        n ← parse_i64 line;
        if n =? -1 then Some (None, b)
        else if decide (take 2 (drop (Z.to_nat n) b) = kCrlf) then
          Some (Some (take (Z.to_nat n) b), drop (Z.to_nat n + 2) b)
        else None
      else None
  | [] => None
  end.

Fixpoint read_bulks (n : nat) (b : bytes) : option (list bytes * bytes) :=
  match n with
  | O => Some ([], b)
  | S n =>
      '(s, b) ← read_bulk b;
      s ← s;
      '(ss, b) ← read_bulks n b;
      Some (s :: ss, b)
  end.

Definition read_reply (b : bytes) : option (resp_reply * bytes) :=
  match b with
  | [] => None
  | c :: rest =>
      if decide (c = x2b) then '(line, b) ← read_line rest; Some (RSimple line, b)
      else if decide (c = x2d) then '(line, b) ← read_line rest; Some (RError line, b)
      else if decide (c = x3a) then
        '(line, b) ← read_line rest; n ← parse_i64 line; Some (RInteger n, b)
      else if decide (c = x2a) then
        '(line, b) ← read_line rest; n ← parse_i64 line;
        '(items, b) ← read_bulks (Z.to_nat n) b; Some (RArray items, b)
      else
        '(s, b) ← read_bulk b;
        Some (match s with Some s => RBulk s | None => RNull end, b)
  end.

(** Lengths that fit the protocol's integers. *)
Definition reply_fits (r : resp_reply) : Prop :=
  match r with
  | RInteger n => is_i64 n
  | RBulk s => is_i64 (zlen s)
  | RArray items => is_i64 (zlen items) /\ Forall (fun s => is_i64 (zlen s)) items
  | _ => True
  end.

Lemma read_line_single s rest :
  is_single_line s = true -> read_line (s ++ kCrlf ++ rest) = Some (s, rest).
Proof.
  intros Hs. unfold read_line. assert (find_crlf (s ++ kCrlf ++ rest) = Some (length s)) as ->.
  { apply find_crlf_skip. apply Forall_forall. intros c Hc%list_elem_of_In ->.
    unfold is_single_line in Hs. rewrite forallb_forall in Hs. by apply Hs in Hc. }
  cbn [mbind option_bind]. by rewrite take_app_length, drop_header.
Qed.

Lemma read_line_number n rest :
  is_i64 n -> read_line (to_chars n ++ kCrlf ++ rest) = Some (to_chars n, rest).
Proof.
  intros Hn. unfold read_line. rewrite (proj1 (header_line n rest Hn)).
  cbn [mbind option_bind]. by rewrite take_app_length, drop_header.
Qed.

Lemma read_bulk_bulk s rest : is_i64 (zlen s) -> read_bulk (bulk s ++ rest) = Some (Some s, rest).
Proof.
  intros Hn. unfold bulk, append_bulk_string, append_i64, read_bulk. cbn [app].
  rewrite decide_True by done. rewrite <- !app_assoc, read_line_number by done. cbn [mbind option_bind].
  rewrite parse_i64_to_chars by done. cbn [mbind option_bind].
  pose proof (zlen_nonneg s). rewrite (proj2 (Z.eqb_neq _ _)) by lia.
  rewrite zlen_to_nat, drop_app_length. rewrite decide_True by done.
  rewrite take_app_length, (drop_app_plus (length s) 2) by done. done.
Qed.

Lemma read_bulks_bulks items rest :
  Forall (fun s => is_i64 (zlen s)) items ->
  read_bulks (length items) (concat (bulk <$> items) ++ rest) = Some (items, rest).
Proof.
  induction 1 as [|s items Hs _ IH]; [done|]. cbn [length read_bulks fmap list_fmap concat].
  rewrite <- app_assoc, read_bulk_bulk by done. cbn [mbind option_bind]. by rewrite IH.
Qed.

Lemma read_encoded_reply r rest :
  reply_ok r -> reply_fits r -> read_reply (encode_reply r ++ rest) = Some (r, rest).
Proof.
  destruct r as [s|s|n|s| |items]; cbn [reply_ok reply_fits encode_reply]; intros Hok Hfit.
  - unfold append_simple_string. cbn [app read_reply]. rewrite decide_True by done.
    rewrite <- app_assoc. by rewrite read_line_single.
  - unfold append_error. cbn [app read_reply]. rewrite decide_False, decide_True by done.
    rewrite <- app_assoc. by rewrite read_line_single.
  - unfold append_integer, append_i64. cbn [app read_reply].
    rewrite !decide_False, decide_True by done.
    rewrite <- app_assoc, read_line_number by done. cbn. by rewrite parse_i64_to_chars.
  - unfold read_reply. destruct (bulk s ++ rest) as [|c b] eqn:Hb; [by apply app_eq_nil in Hb as [? _]|].
    assert (c = x24) as -> by (injection Hb as <- _; done).
    rewrite !decide_False by done. rewrite <- Hb, read_bulk_bulk by done. done.
  - cbn. reflexivity.
  - destruct Hfit as [Hn Hall]. unfold append_array_header, append_i64. cbn [app read_reply].
    rewrite !decide_False, decide_True by done.
    rewrite <- !app_assoc, read_line_number by done. cbn [mbind option_bind].
    rewrite parse_i64_to_chars by done. cbn [mbind option_bind].
    by rewrite zlen_to_nat, read_bulks_bulks.
Qed.

(** ** INCR *)

(** What INCR makes of the value it finds: an error, or the new value and the
    stamp it keeps. *)
Definition incr_of (found : option Found) : bytes + Z * Z :=
  match found with
  | None => inr (1, 0)
  | Some f =>
      match parse_int64 (f_value f) with
      | None => inl kNotAnInteger
      | Some n =>
          if n =? INT64_MAX then inl (lit "ERR increment or decrement would overflow")
          else inr (n + 1, f_expires_at_ms f)
      end
  end.

(** Room for the write of a value under a key. *)
Definition room (st : Store) (key value : bytes) (expires_at_ms : Z) : Prop :=
  flush_ready (set_memtable st (Memtable.set (memtable_ st) key value expires_at_ms)).

Definition set_budget (st : Store) (key value : bytes) (expires_at_ms : Z) : nat :=
  write_budget st kSet key value expires_at_ms (Memtable.set (memtable_ st) key value expires_at_ms).

(** The end of SET and INCR. *)
Lemma wp_store_set E st rows key value ex out ok w :
  store_inv w st rows -> room st key value ex ->
  wp (store_set E st key value ex out ok) (fun r w' => match r with
    | Ret (st', out') => exists rows', store_inv w' st' rows' /\
        (out' = ok /\ (forall k, view (memtable_ st') rows' k =
                         put_view (view (memtable_ st) rows) key (mkEntry value false ex) k) \/
         out' = append_error out kWriteFailed /\
           (forall k, view (memtable_ st') rows' k = view (memtable_ st) rows k) /\
           ~ reliable E (set_budget st key value ex))
    | _ => ~ reliable E (set_budget st key value ex)
    end) w.
Proof.
  intros Hinv Hroom. unfold store_set. apply wp_bind.
  eapply wp_mono; [by apply wp_set|]. intros [[b st']|e|] w' Hr; [|exact Hr|exact Hr].
  destruct Hr as (rows' & Hinv' & _ & Hv & Hb). destruct b; apply wp_ret; exists rows'; auto.
Qed.

(** What the command comes to when its lookup found [found]. *)
Definition incr_post (E : env) (st : Store) (rows : list (list row)) (key out : bytes)
    (found : option Found) (r : res (Store * bytes)) (w' : world) : Prop :=
  match incr_of found, r with
  | inl msg, Ret (st', out') => st' = st /\ store_inv w' st rows /\ out' = append_error out msg
  | inl _, _ => False
  | inr (v, ex), Ret (st', out') => exists rows', store_inv w' st' rows' /\
      (out' = append_integer out v /\ (forall k, view (memtable_ st') rows' k =
         put_view (view (memtable_ st) rows) key (mkEntry (to_chars v) false ex) k) \/
       out' = append_error out kWriteFailed /\
         (forall k, view (memtable_ st') rows' k = view (memtable_ st) rows k) /\
         ~ reliable E (set_budget st key (to_chars v) ex))
  | inr (v, ex), _ => ~ reliable E (set_budget st key (to_chars v) ex)
  end.

Lemma wp_trivial {A} (m : M A) (Q : res A -> world -> Prop) w : (forall r w', Q r w') -> wp m Q w.
Proof. intros H. apply H. Qed.

Lemma wp_incr E st rows c out w :
  store_inv w st rows ->
  (forall now v ex, incr_of (view (memtable_ st) rows (arg c 1) ≫= answer_at now) = inr (v, ex) ->
     room st (arg c 1) (to_chars v) ex) ->
  wp (cmd_incr E c st out) (fun r w' =>
    ~ reliable E (files_budget w (sstables_ st)) \/
    exists w1, same_files w w1 /\ (io_error E (tick w) w1 \/
      exists found, read_between E (tick w) w1 (view (memtable_ st) rows (arg c 1)) found /\
        incr_post E st rows (arg c 1) out found r w')) w.
Proof.
  intros Hinv Hroom. unfold cmd_incr. apply wp_bind. eapply wp_mono;
    [by apply (wp_lookup E w st rows _ w (si_tables _ _ _ Hinv) (si_canon _ _ _ Hinv))|].
  intros [found|e|] w1 [Hw1 Hr]; [|done|by left].
  assert (store_inv w1 st rows) as Hinv1 by (by apply (inv_same w)).
  destruct Hr as [Hread|Hio]; [|apply wp_trivial; intros r w'; right; exists w1; auto].
  eapply wp_mono with (P := incr_post E st rows (arg c 1) out found);
    [|intros r w' Hp; right; exists w1; split; [done|]; right; by exists found].
  destruct Hread as (t & _ & ->). specialize (Hroom (clock_at E t)).
  unfold incr_post. destruct (view _ _ _ ≫= _) as [f|]; cbn [incr_of] in *.
  - destruct (parse_int64 (f_value f)) as [n|]; cbn [mbind option_bind]; [|by apply wp_ret].
    destruct (n =? INT64_MAX); [by apply wp_ret|]. by apply wp_store_set, Hroom.
  - change (0 =? INT64_MAX) with false. cbv iota. by apply wp_store_set, Hroom.
Qed.

(** ** What the command layer promises *)

(** C29: [parse_int64] accepts exactly the canonical spellings.  A text is read as [n]
    if and only if it is the decimal that [std::to_string] gives for [n], for every
    64-bit [n] but the least: no sign but a minus, no leading zero, no minus zero,
    nothing left over, and no wrap-around. *)
Theorem parse_int64_canonical (text : bytes) (n : Z) :
  parse_int64 text = Some n <-> (INT64_MIN < n <= INT64_MAX /\ text = to_chars n).
Proof.
  split; [apply parse_int64_inv|]. intros [Hn ->]. by apply parse_int64_to_chars.
Qed.

(** The least 64-bit integer is refused.  The parser's comment says it is strict in
    the same way Redis is, which takes every integer that reads back to the bytes it
    came from; this one does, and is not taken. *)
Theorem parse_int64_refuses_least :
  parse_i64 (to_chars INT64_MIN) = Some INT64_MIN /\ parse_int64 (to_chars INT64_MIN) = None.
Proof. split; vm_compute; reflexivity. Qed.

(** C18: Every command gets exactly one reply.  Whatever the arguments, the store and
    the kernel do, [execute] appends one well-formed reply to the output, so bytes a
    client sent cannot forge another one: a client that reads the output from
    there gets that reply and is left at the first byte of what follows. *)
Theorem execute_one_reply (E : env) (kStartedMs : Z) (cmd : Command) (st st' : Store)
    (out out' : bytes) (w w' : world) :
  args cmd <> [] ->
  execute E kStartedMs cmd st out w = (Ret (st', out'), w') ->
  exists r, reply_ok r /\ out' = out ++ encode_reply r /\
    forall rest, reply_fits r -> read_reply (encode_reply r ++ rest) = Some (r, rest).
Proof.
  intros Hne Hrun.
  destruct (wp_elim _ _ _ _ _ (wp_execute_one_reply E kStartedMs cmd st out w Hne) Hrun)
    as (r & Hok & ->). exists r. split_and!; auto.
  intros rest Hfit. by apply read_encoded_reply.
Qed.

Definition ram_store : Store :=
  mkStore (Memtable.set Memtable_init (lit "n") (lit "41") 9000) [] (mkOptions [] 64 10 true true) 1 0 0
    false None.

Lemma execute_one_reply_witness :
  exists st' out' w' r,
    execute (fair_env 9) 0 (mkCommand [lit "X" ++ kCrlf ++ lit "+OK"]) ram_store [] world_init =
      (Ret (st', out'), w') /\
    out' = encode_reply r /\ r = RError (lit "ERR unknown command 'X..+OK'").
Proof.
  destruct (execute (fair_env 9) 0 (mkCommand [lit "X" ++ kCrlf ++ lit "+OK"]) ram_store [] world_init)
    as [r w'] eqn:Hrun.
  pose proof Hrun as Hrun'. vm_compute in Hrun'. destruct r as [[st' out']|e|]; [|discriminate..].
  destruct (execute_one_reply (fair_env 9) 0 (mkCommand [lit "X" ++ kCrlf ++ lit "+OK"]) ram_store st'
    [] out' world_init w' ltac:(discriminate) Hrun) as (r & Hok & Hout & Hread).
  exists st', out', w', (RError (lit "ERR unknown command 'X..+OK'")).
  split; [reflexivity|]. split; [|reflexivity]. injection Hrun' as _ <- _. reflexivity.
Defined.

(** A lifetime never wraps into the past.  [deadline_from] gives the exact deadline
    when it fits in 64 bits (moved off zero, which means "no expiry"), refuses it
    otherwise, and computes nothing that overflows on the way. *)
Theorem deadline_exact (E : env) (amount unit_ms : Z) (w : world) :
  0 < amount <= INT64_MAX -> unit_ms = 1 \/ unit_ms = 1000 -> 0 <= clock_at E (tick w) <= INT64_MAX ->
  (deadline_from E amount unit_ms w).1 =
    Ret (if clock_at E (tick w) + amount * unit_ms <=? INT64_MAX
         then Some (clock_at E (tick w) + amount * unit_ms) else None).
Proof.
  intros Ha Hu Hc. unfold deadline_from. destruct (Z.ltb_spec (INT64_MAX / unit_ms) amount) as [Hbig|Hok].
  - assert (INT64_MAX < unit_ms * amount) as H.
    { pose proof (Z.mul_succ_div_gt INT64_MAX unit_ms). destruct Hu as [-> | ->]; lia. }
    rewrite (proj2 (Z.leb_gt _ _)) by lia. reflexivity.
  - cbv [mbind M_bind now_ms]. set (now := clock_at E (tick w)) in *. set (delta := amount * unit_ms).
    assert (0 < delta) by (subst delta; destruct Hu as [-> | ->]; lia).
    destruct (Z.ltb_spec (INT64_MAX - now) delta) as [Hover|Hfit].
    + rewrite (proj2 (Z.leb_gt _ _)) by lia. reflexivity.
    + rewrite (proj2 (Z.leb_le _ _)) by lia. rewrite (proj2 (Z.eqb_neq _ _)) by lia. reflexivity.
Qed.

Lemma deadline_exact_witness :
  (deadline_from (fair_env 9) 9999999999999 1000 world_init).1 = Ret (Some 9999999999999005) /\
  (deadline_from (fair_env 9) 9223372036854775807 1 world_init).1 = Ret None.
Proof.
  split.
  - rewrite (deadline_exact (fair_env 9) 9999999999999 1000 world_init); [reflexivity|..];
      unfold INT64_MAX; cbn; lia.
  - rewrite (deadline_exact (fair_env 9) 9223372036854775807 1 world_init); [reflexivity|..];
      unfold INT64_MAX; cbn; lia.
Defined.

(** INCR adds one to what a reader would have seen, and keeps the expiry.  A key
    that is absent, deleted or expired counts from zero; a value that is not a
    canonical integer, or the greatest one, is refused with the store untouched;
    otherwise the reply is the new number and the key holds its decimal under the
    stamp it had.  When the write cannot be logged nothing has changed. *)
Theorem incr_correct (E : env) (st : Store) (rows : list (list row)) (c : Command) (out : bytes)
    (w w' : world) (r : res (Store * bytes)) :
  store_inv w st rows ->
  (forall now v ex, incr_of (view (memtable_ st) rows (arg c 1) ≫= answer_at now) = inr (v, ex) ->
     room st (arg c 1) (to_chars v) ex) ->
  cmd_incr E c st out w = (r, w') ->
  ~ reliable E (files_budget w (sstables_ st)) \/
  exists w1, same_files w w1 /\ (io_error E (tick w) w1 \/
    exists found, read_between E (tick w) w1 (view (memtable_ st) rows (arg c 1)) found /\
      incr_post E st rows (arg c 1) out found r w').
Proof. intros Hinv Hroom Hrun. exact (wp_elim _ _ _ _ _ (wp_incr E st rows c out w Hinv Hroom) Hrun). Qed.

Lemma ram_store_inv : store_inv world_init ram_store [].
Proof.
  constructor; try done.
  - apply set_wf, init_wf.
  - by constructor.
  - intros fd Hfd. by apply elem_of_nil in Hfd.
  - exists []. split_and!; [done|constructor|constructor|done|done].
Qed.

Lemma ram_room now v ex :
  incr_of (view (memtable_ ram_store) [] (lit "n") ≫= answer_at now) = inr (v, ex) ->
  room ram_store (lit "n") (to_chars v) ex.
Proof.
  assert (view (memtable_ ram_store) [] (lit "n") = Some (mkEntry (lit "41") false 9000)) as -> by done.
  cbn [mbind option_bind]. unfold answer_at. destruct (obsolete _ _).
  - intros H. assert (inr (1, 0) = inr (v, ex)) as [= <- <-] by exact H.
    split_and!; [by repeat constructor|by split|done].
  - intros H. assert (inr (42, 9000) = inr (v, ex)) as [= <- <-] by exact H.
    split_and!; [by repeat constructor|by split|done].
Qed.

Lemma incr_correct_witness :
  exists st' w', cmd_incr (fair_env 400) (mkCommand [lit "incr"; lit "n"]) ram_store [] world_init =
    (Ret (st', lit ":42" ++ kCrlf), w') /\ exists rows', store_inv w' st' rows'.
Proof.
  destruct (cmd_incr (fair_env 400) (mkCommand [lit "incr"; lit "n"]) ram_store [] world_init)
    as [r w'] eqn:Hrun.
  destruct (incr_correct (fair_env 400) ram_store [] (mkCommand [lit "incr"; lit "n"]) [] world_init w' r
    ram_store_inv ram_room Hrun) as [Hbad|(w1 & Hw1 & [(t & _ & Hio)|(found & (t & Ht & Hf) & Hpost)])].
  - exfalso. apply Hbad. apply (reliable_mono _ _ 400); [vm_compute; lia|apply fair_env_reliable].
  - exfalso. exact (reliable_no_fail _ _ t (fair_env_reliable 400) Hio).
  - vm_compute in Hf. subst found. vm_compute in Hrun.
    destruct r as [[st' out']|e|]; [|discriminate Hrun..].
    destruct Hpost as (rows' & Hinv' & _). exists st', w'. split; [|by exists rows'].
    injection Hrun as _ <- _. reflexivity.
Defined.
