(* ===== verification/Value.v ===== *)
(** * Values on their way out ([class Value] of [store.h])

    A hit in the memtable is not copied: the [Value] that [lookup] returns borrows the
    entry's own string, and may be read only until the memtable changes.  A hit in a
    table owns its bytes.  [Store] and [Command] speak of the bytes; here the same
    functions are written with the views, over a store that counts the changes of its
    memtable.  A view knows which entry's string it points into and at which count it was
    taken.  To read it at a later count is [None], an access to memory that may be gone,
    and so is to assign it over the very string it points into.  (The count is stricter
    than C++, where only a change of that one string, or the end of its node, spoils the
    view.)

    [Store::set] takes such a view, so a caller that hands it a borrowed one can be
    written down; [Store::expire] copies first.  The theorem shows that every reader of a
    [Value] reads it in time, so that the byte-level functions are what the program
    does. *)

From stdpp Require Import gmap.
From S2P Require Import Prelude Decimal Resp SortedMap Memtable WalCodec Posix Wal Sstable Compaction Store Command.

(** ** Views *)

(** A [std::string_view]: the bytes, and the entry of the memtable whose string they are,
    with the count at which the view was taken.  No entry is a view of memory that
    outlives the call: an argument, a local string, the [Value] itself. *)
Record sview := mkView { sv_bytes : bytes; sv_entry : option (bytes * nat) }.

Definition view_of (b : bytes) : sview := mkView b None.

(** The bytes, if they are still there. *)
Definition sview_read (epoch : nat) (v : sview) : option bytes :=
  match sv_entry v with
  | None => Some (sv_bytes v)
  | Some (_, taken) => if Nat.eqb taken epoch then Some (sv_bytes v) else None
  end.

(** ** The class *)

Record Value := mkValue { owns_ : bool; owned_ : bytes; view_ : sview }.

Definition borrowed (view : sview) : Value := mkValue false [] view.
Definition owned (bytes_ : bytes) : Value := mkValue true bytes_ (view_of []).

(** [get]: recomputed from the members of this object. *)
Definition value_get (v : Value) : sview := if owns_ v then view_of (owned_ v) else view_ v.

(** The move: the target, and a source of which only the string has changed, to
    whatever the library leaves there. *)
Definition value_move (v : Value) (left_over : bytes) : Value * Value :=
  (v, mkValue (owns_ v) left_over (view_ v)).

(** ** The store with views *)

Record VStore := mkVStore { vs_store : Store; vs_epoch : nat }.

Record FoundV := mkFoundV { fv_value : Value; fv_expires_at_ms : Z }.

Section views.
Context (E : env).

Fixpoint lookup_tables_v (tables : list Sstable) (key : bytes) (now : Z) : M (option FoundV) :=
  match tables with
  | [] => mret None
  | t :: tables =>
      l ← Sstable.get E t key;
      if negb (found l) then lookup_tables_v tables key now
      else if lk_tombstone l then mret None
      else
        '(gone, _) ← expired E now (lk_expires_at_ms l);
        if gone : bool then mret None
        else mret (Some (mkFoundV (owned (lk_value l)) (lk_expires_at_ms l)))
  end.

Definition lookup_v (s : VStore) (key : bytes) : M (option FoundV) :=
  match find (memtable_ (vs_store s)) key with
  | Some e =>
      if tombstone e then mret None
      else
        '(gone, _) ← expired E 0 (expires_at_ms e);
        if gone : bool then mret None
        else mret (Some (mkFoundV (borrowed (mkView (value e) (Some (key, vs_epoch s)))) (expires_at_ms e)))
  | None => lookup_tables_v (sstables_ (vs_store s)) key 0
  end.

(** [std::move(found->value)] *)
Definition get_v (s : VStore) (key : bytes) : M (option Value) :=
  r ← lookup_v s key;
  mret ((fun f => (value_move (fv_value f) []).1) <$> r).

(** [Memtable::set].  A new entry is built from the view before the table changes; an
    entry that is there has its string assigned over, and the view must not be of that
    string. *)
Definition memtable_set_v (epoch : nat) (m : Memtable) (key : bytes) (value : sview) (expires : Z) : option Memtable :=
  match find m key, sv_entry value with
  | Some _, Some (k, _) =>
      if decide (k = key) then None
      else b ← sview_read epoch value; Some (Memtable.set m key b expires)
  | _, _ => b ← sview_read epoch value; Some (Memtable.set m key b expires)
  end.

(** [Store::set]: the log reads the view, then the memtable does, and then the memtable
    has changed. *)
Definition set_v (s : VStore) (key : bytes) (value : sview) (expires_at_ms : Z) : M (option (bool * VStore)) :=
  let st := vs_store s in
  logged ← match wal_ st with
    | None => mret (Some (true, st))
    | Some _ =>
        match sview_read (vs_epoch s) value with
        | None => mret None
        | Some b => r ← log_append E st kSet key b expires_at_ms; mret (Some r)
        end
    end;
  match logged with
  | None => mret None
  | Some (ok, st) =>
      if negb ok then mret (Some (false, mkVStore st (vs_epoch s)))
      else
        match memtable_set_v (vs_epoch s) (memtable_ st) key value expires_at_ms with
        | None => mret None
        | Some m =>
            st ← maybe_flush E (set_memtable st m);
            mret (Some (true, mkVStore st (S (vs_epoch s))))
        end
  end.

(** What [Store::expire] does with the answer to the write. *)
Definition expire_end (r : option (bool * VStore)) : option (ExpireResult * VStore) :=
  match r with
  | None => None
  | Some (ok, s) => Some (if negb ok then (mkExpire false false, s) else (mkExpire true true, s))
  end.

(** [const std::string value(found->value.get())], and only then the write. *)
Definition expire_v (s : VStore) (key : bytes) (expires_at_ms : Z) : M (option (ExpireResult * VStore)) :=
  r ← lookup_v s key;
  match r with
  | None => mret (Some (mkExpire true false, s))
  | Some f =>
      match sview_read (vs_epoch s) (value_get (fv_value f)) with
      | None => mret None
      | Some value => r ← set_v s key (view_of value) expires_at_ms; mret (expire_end r)
      end
  end.

Definition cmd_get_v (c : Command) (s : VStore) (out : bytes) : M (option (VStore * bytes)) :=
  v ← get_v s (arg c 1);
  match v with
  | Some v =>
      match sview_read (vs_epoch s) (value_get v) with
      | None => mret None
      | Some bytes_ => mret (Some (s, append_bulk_string out bytes_))
      end
  | None => mret (Some (s, append_null_bulk out))
  end.

(** The bytes become a number before anything is written. *)
Definition cmd_incr_v (c : Command) (s : VStore) (out : bytes) : M (option (VStore * bytes)) :=
  found ← lookup_v s (arg c 1);
  match (match found with
         | Some f =>
             match sview_read (vs_epoch s) (value_get (fv_value f)) with
             | None => None
             | Some bytes_ => Some (value ← parse_int64 bytes_; Some (value, fv_expires_at_ms f))
             end
         | None => Some (Some (0, 0))
         end) with
  | None => mret None
  | Some None => mret (Some (s, append_error out kNotAnInteger))
  | Some (Some (value, expires_at_ms)) =>
      if value =? INT64_MAX then
        mret (Some (s, append_error out (lit "ERR increment or decrement would overflow")))
      else
        let value := value + 1 in
        r ← set_v s (arg c 1) (view_of (to_chars value)) expires_at_ms;
        match r with
        | None => mret None
        | Some (ok, s) =>
            if negb ok then mret (Some (s, append_error out kWriteFailed))
            else mret (Some (s, append_integer out value))
        end
  end.

(** EXPIRE without the copy: the view goes straight into the write. *)
Definition expire_uncopied (s : VStore) (key : bytes) (expires_at_ms : Z) : M (option (ExpireResult * VStore)) :=
  r ← lookup_v s key;
  match r with
  | None => mret (Some (mkExpire true false, s))
  | Some f => r ← set_v s key (value_get (fv_value f)) expires_at_ms; mret (expire_end r)
  end.

(** ** Views are read in time *)

(** What a [FoundV] says while the count is [epoch]. *)
Definition reads (epoch : nat) (f : FoundV) : option Found :=
  (fun b => mkFound b (fv_expires_at_ms f)) <$> sview_read epoch (value_get (fv_value f)).

(** A run that has the outcome and the disk of another, with results in the relation [R]. *)
Definition runs_as {A B} (R : A -> B -> Prop) (m : M A) (m' : M B) : Prop := forall w,
  match m' w with
  | (Ret b, w') => exists a, m w = (Ret a, w') /\ R a b
  | (Throw e, w') => m w = (Throw e, w')
  | (Dead, w') => m w = (Dead, w')
  end.

Lemma runs_ret {A B} (R : A -> B -> Prop) a b : R a b -> runs_as R (mret a) (mret b).
Proof. intros H w. by exists a. Qed.

Lemma runs_bind {A B A' B'} (R : A -> B -> Prop) (R' : A' -> B' -> Prop) m m' k k' :
  runs_as R m m' -> (forall a b, R a b -> runs_as R' (k a) (k' b)) -> runs_as R' (m ≫= k) (m' ≫= k').
Proof.
  intros Hm Hk w. specialize (Hm w). cbv [mbind M_bind]. destruct (m' w) as [[b|e|] w'].
  - destruct Hm as (a & -> & HR). by apply Hk.
  - by rewrite Hm.
  - by rewrite Hm.
Qed.

Lemma runs_same {A} (m : M A) : runs_as eq m m.
Proof. intros w. destruct (m w) as [[a|e|] w']; [by exists a|done|done]. Qed.

(** The same answer, at this count. *)
Definition found_as (epoch : nat) (r : option FoundV) (r' : option Found) : Prop :=
  match r, r' with
  | Some f, Some f' => reads epoch f = Some f'
  | None, None => True
  | _, _ => False
  end.

Lemma runs_lookup_tables epoch tables key : forall now,
  runs_as (found_as epoch) (lookup_tables_v tables key now) (lookup_tables E tables key now).
Proof.
  induction tables as [|t tables IH]; intros now; cbn [lookup_tables lookup_tables_v]; [by apply runs_ret|].
  eapply runs_bind; [apply runs_same|]. intros l _ <-. destruct (negb (found l)); [done|].
  destruct (lk_tombstone l); [by apply runs_ret|].
  eapply runs_bind; [apply runs_same|]. intros [gone x] _ <-. by destruct gone; apply runs_ret.
Qed.

Lemma runs_lookup s key : runs_as (found_as (vs_epoch s)) (lookup_v s key) (lookup E (vs_store s) key).
Proof.
  unfold lookup_v, lookup. destruct (find _ key) as [e|]; [|apply runs_lookup_tables].
  destruct (tombstone e); [by apply runs_ret|]. eapply runs_bind; [apply runs_same|].
  intros [gone x] _ <-. destruct gone; apply runs_ret; [done|]. unfold found_as, reads. cbn.
  by rewrite Nat.eqb_refl.
Qed.

Lemma memtable_set_copy epoch m key b e :
  memtable_set_v epoch m key (view_of b) e = Some (Memtable.set m key b e).
Proof. unfold memtable_set_v. by destruct (find m key). Qed.

(** A write of bytes of one's own. *)
Lemma runs_set s key b e :
  runs_as (fun a r => exists s', a = Some (r.1, s') /\ vs_store s' = r.2) (set_v s key (view_of b) e)
    (Store.set E (vs_store s) key b e).
Proof.
  unfold set_v, Store.set. apply (runs_bind (fun (a : option (bool * Store)) r => a = Some r)).
  - unfold log_append. destruct (wal_ (vs_store s)) as [wal|]; [|by apply runs_ret].
    cbn [sview_read view_of sv_entry]. intros w. cbv [mbind M_bind].
    by destruct (append _ _ _ _ _ _ w) as [[[ok wal']|x|] w']; [eexists|..].
  - intros _ [ok st] ->. destruct (negb ok); [apply runs_ret; by eexists|]. rewrite memtable_set_copy.
    eapply runs_bind; [apply runs_same|]. intros st' _ <-. apply runs_ret. by eexists.
Qed.

(** The results of the byte-level functions, none of them from a view that is gone. *)
Definition sound_result (a : option (ExpireResult * VStore)) (b : ExpireResult * Store) : Prop :=
  exists r s, a = Some (r, s) /\ b = (r, vs_store s).
Definition sound_reply (a : option (VStore * bytes)) (b : Store * bytes) : Prop :=
  exists s out, a = Some (s, out) /\ b = (vs_store s, out).

Lemma reads_found s f f' :
  found_as (vs_epoch s) (Some f) (Some f') ->
  sview_read (vs_epoch s) (value_get (fv_value f)) = Some (f_value f') /\ fv_expires_at_ms f = f_expires_at_ms f'.
Proof. cbn. unfold reads. destruct (sview_read _ _) as [b|]; [|done]. by intros [= <-]. Qed.

Lemma runs_expire s key e : runs_as sound_result (expire_v s key e) (expire E (vs_store s) key e).
Proof.
  unfold expire_v, expire. eapply runs_bind; [apply runs_lookup|].
  intros [f|] [f'|] Hf; [|done|done|apply runs_ret; by eexists _, _].
  apply reads_found in Hf as [-> _]. eapply runs_bind; [apply runs_set|].
  intros a [ok st'] (s' & -> & Hst). cbn [fst snd expire_end] in *. subst st'. destruct (negb ok); apply runs_ret; by eexists _, _.
Qed.

Lemma runs_cmd_get c s out : runs_as sound_reply (cmd_get_v c s out) (cmd_get E c (vs_store s) out).
Proof.
  unfold cmd_get_v, get_v, cmd_get, Store.get.
  eapply (runs_bind (fun v b => match v, b with
    | Some v, Some b => sview_read (vs_epoch s) (value_get v) = Some b | None, None => True | _, _ => False end)).
  - eapply runs_bind; [apply runs_lookup|]. intros [f|] [f'|] Hf; apply runs_ret; [|done..].
    apply reads_found in Hf as [Hv _]. exact Hv.
  - intros [v|] [b|] Hv; [|done|done|apply runs_ret; by eexists _, _]. rewrite Hv. apply runs_ret. by eexists _, _.
Qed.

Lemma runs_cmd_incr c s out : runs_as sound_reply (cmd_incr_v c s out) (cmd_incr E c (vs_store s) out).
Proof.
  unfold cmd_incr_v, cmd_incr. eapply runs_bind; [apply runs_lookup|].
  assert (forall n e, runs_as sound_reply
    (r ← set_v s (arg c 1) (view_of (to_chars n)) e;
     match r with
     | None => mret None
     | Some (ok, s) =>
         if negb ok then mret (Some (s, append_error out kWriteFailed)) else mret (Some (s, append_integer out n))
     end)
    (store_set E (vs_store s) (arg c 1) (to_chars n) e out (append_integer out n))) as Hset.
  { intros n e. unfold store_set. eapply runs_bind; [apply runs_set|].
    intros a [ok st'] (s' & -> & Hst). cbn [fst snd] in *. subst st'. destruct (negb ok); apply runs_ret; by eexists _, _. }
  intros [f|] [f'|] Hf; [|done|done|apply Hset].
  apply reads_found in Hf as [-> ->]. destruct (parse_int64 _) as [n|]; cbn [mbind option_bind].
  - destruct (n =? INT64_MAX); [|apply Hset]. apply runs_ret. by eexists _, _.
  - apply runs_ret. by eexists _, _.
Qed.
End views.

(** ** The theorems *)

(** C32: Borrowed values are read in time.  A value that [lookup] found in the memtable is
    a view of the entry's own string, spoilt by the next change of the memtable and not
    to be assigned over that string.  GET, INCR and EXPIRE, the functions that look into
    one, with the views passed about as the code passes them, never read a view that is
    gone nor hand the write one that it spoils, whatever the kernel does, and come to the
    results, the stores and the states of the disk of the functions that pass bytes. *)
Theorem borrows_read_in_time (E : env) (c : Command) (s : VStore) (key out : bytes) (stamp : Z) :
  runs_as sound_reply (cmd_get_v E c s out) (cmd_get E c (vs_store s) out) /\
  runs_as sound_reply (cmd_incr_v E c s out) (cmd_incr E c (vs_store s) out) /\
  runs_as sound_result (expire_v E s key stamp) (expire E (vs_store s) key stamp).
Proof. split_and!; [apply runs_cmd_get|apply runs_cmd_incr|apply runs_expire]. Qed.

(** The copy in EXPIRE is needed: without it the write assigns a string to itself. *)
Theorem uncopied_view_is_gone :
  let s := mkVStore (set_memtable (mkStore Memtable_init [] (mkOptions [] 1 10 true true) 1 0 0 false None)
             (Memtable.set Memtable_init (lit "k") (lit "v") 0)) 0 in
  let w := mkWorld 0 ∅ ∅ ∅ ∅ 0 in
  (expire_uncopied (fair_env 9) s (lit "k") 9 w).1 = Ret None.
Proof. vm_compute. reflexivity. Qed.
