(* ===== verification/Abstract.v ===== *)
(** * The server as its clients know it

    What the commands mean, without memtable, tables, log or files: a map from keys to
    entries, and for every command the reply it gets and the changes it makes.  Time
    enters through readings of the wall clock, the [i]-th of which a command takes
    while it runs is [τ i]: a key is there as long as its entry is not a tombstone and
    its stamp has not passed.

    The first part is shared with [Durable]: the writes of a history, and the map after
    them. *)

From stdpp Require Import gmap.
From S2P Require Import Prelude Decimal Resp SortedMap Memtable WalCodec Posix Wal Sstable Compaction Store Command.

(** ** Histories *)

Definition write : Type := bytes * Entry.

Definition rec_entry (r : Record_) : Entry :=
  match r_op r with kSet => mkEntry (r_value r) false (r_expires_at_ms r) | kDelete => tomb end.
Definition write_of (r : Record_) : write := (r_key r, rec_entry r).

(** The last of the writes to a key. *)
Fixpoint last_of (ws : list write) (k : bytes) : option Entry :=
  match ws with
  | [] => None
  | (k', e) :: ws =>
      match last_of ws k with
      | Some e' => Some e'
      | None => if decide (k' = k) then Some e else None
      end
  end.

(** A map after some writes. *)
Definition after (V : bytes -> option Entry) (ws : list write) (k : bytes) : option Entry :=
  match last_of ws k with Some e => Some e | None => V k end.

Lemma last_of_app a b k :
  last_of (a ++ b) k = match last_of b k with Some e => Some e | None => last_of a k end.
Proof.
  induction a as [|[k' e] a IH]; cbn [app last_of]; [by destruct (last_of b k)|].
  rewrite IH. by destruct (last_of b k).
Qed.

Lemma after_app V a b k : after V (a ++ b) k = after (after V a) b k.
Proof. unfold after. rewrite last_of_app. by destruct (last_of b k). Qed.

(** No reader from [T] on can tell the two apart. *)
Definition same_answer (T : Z) (a b : option Entry) : Prop :=
  forall t, T <= t -> a ≫= answer_at t = b ≫= answer_at t.

#[export] Instance same_answer_equiv T : Equivalence (same_answer T).
Proof.
  split; [by intros a t|by intros a b H t Ht; rewrite H|].
  intros a b c H1 H2 t Ht. by rewrite H1, H2.
Qed.

Lemma same_answer_mono T T' a b : T <= T' -> same_answer T a b -> same_answer T' a b.
Proof. intros HT H t Ht. apply H. lia. Qed.

Lemma after_same T V V' ws k :
  same_answer T (V k) (V' k) -> same_answer T (after V ws k) (after V' ws k).
Proof. unfold after. by destruct (last_of ws k). Qed.

(** ** The meaning of a command *)

(** A change to the map: an entry for a key, or FLUSHALL. *)
Inductive change :=
  | Put (k : bytes) (e : Entry)
  | Wipe.

Definition nothing : bytes -> option Entry := fun _ => None.

Definition change_map (V : bytes -> option Entry) (c : change) : bytes -> option Entry :=
  match c with Put k e => after V [(k, e)] | Wipe => nothing end.

Definition meaning : Type := resp_reply * list change.

Definition puts (ws : list write) : list change := (fun x : write => Put x.1 x.2) <$> ws.

Section commands.
(** The answer to [CONFIG GET appendfsync], the text of INFO, the readings of the
    clock and the map. *)
Context (fsync_name info : bytes) (τ : nat -> Z) (V : bytes -> option Entry).

Definition seen (i : nat) (k : bytes) : option Found := V k ≫= answer_at (τ i).

Definition says (r : resp_reply) : meaning := (r, []).

Definition abs_ping (c : Command) : meaning :=
  match args c with
  | [_] => says (RSimple (lit "PONG"))
  | _ => says (RBulk (arg c 1))
  end.

(** A lifetime of [amount] units from [now], unless the stamp would not fit. *)
Definition abs_deadline (amount unit_ms now : Z) : option Z :=
  if now + amount * unit_ms <=? INT64_MAX then Some (now + amount * unit_ms) else None.

Definition unit_of (option_ : bytes) : option Z :=
  name ← normalize_name option_;
  if decide (name = lit "ex") then Some 1000
  else if decide (name = lit "px") then Some 1 else None.

Definition set_to (k v : bytes) (stamp : Z) (r : resp_reply) : meaning := (r, [Put k (mkEntry v false stamp)]).

Definition abs_set (c : Command) : meaning :=
  match drop 1 (args c) with
  | [k; v] => set_to k v 0 (RSimple (lit "OK"))
  | [k; v; option_; amount] =>
      match unit_of option_, parse_int64 amount with
      | None, _ => says (RError (lit "ERR syntax error"))
      | Some _, None => says (RError kNotAnInteger)
      | Some unit_ms, Some n =>
          match (if n <=? 0 then None else abs_deadline n unit_ms (τ 0)) with
          | None => says (RError kInvalidExpireSet)
          | Some stamp => set_to k v stamp (RSimple (lit "OK"))
          end
      end
  | _ => says (RError (lit "ERR syntax error"))
  end.

Definition abs_get (c : Command) : meaning :=
  says (match seen 0 (arg c 1) with Some f => RBulk (f_value f) | None => RNull end).

Definition abs_expire (c : Command) : meaning :=
  match parse_int64 (arg c 2) with
  | None => says (RError kNotAnInteger)
  | Some n =>
      match (if n <=? 0 then Some (-1) else abs_deadline n 1000 (τ 0)), seen 1 (arg c 1) with
      | None, _ => says (RError (lit "ERR invalid expire time in 'expire' command"))
      | Some _, None => says (RInteger 0)
      | Some stamp, Some f => set_to (arg c 1) (f_value f) stamp (RInteger 1)
      end
  end.

Definition abs_ttl (c : Command) : meaning :=
  says (match seen 0 (arg c 1) with
        | None => RInteger (-2)
        | Some f =>
            if f_expires_at_ms f =? 0 then RInteger (-1)
            else RInteger (Z.quot (Z.max 0 (f_expires_at_ms f - τ 1) + 999) 1000)
        end).

Definition abs_incr (c : Command) : meaning :=
  match incr_of (seen 0 (arg c 1)) with
  | inl msg => says (RError msg)
  | inr (n, stamp) => set_to (arg c 1) (to_chars n) stamp (RInteger n)
  end.

Definition abs_config (c : Command) : meaning :=
  if decide (normalize_name (arg c 1) = Some (lit "get")) then
    match drop 2 (args c) with
    | [param] =>
        match (name ← normalize_name param;
               if decide (name = lit "save") then Some []
               else if decide (name = lit "appendonly") then Some (lit "yes")
               else if decide (name = lit "appendfsync") then Some fsync_name
               else if decide (name = lit "maxmemory") then Some (lit "0")
               else None) with
        | None => says (RArray [])
        | Some value => says (RArray [param; value])
        end
    | _ => says (RArray [])
    end
  else
    says (RError (append_printable
      (lit "ERR Unknown CONFIG subcommand or wrong number of arguments for '") (arg c 1) ++ lit "'")).

End commands.

(** EXISTS: how many of the keys, counted as often as they are given, are there, the
    [i]-th at the [i]-th reading. *)
Fixpoint count_live (τ : nat -> Z) (V : bytes -> option Entry) (keys : list bytes) : Z :=
  match keys with
  | [] => 0
  | k :: keys =>
      match seen τ V 0 k with Some _ => 1 | None => 0 end + count_live (fun i => τ (S i)) V keys
  end.

(** DEL: a key is gone once it has been named. *)
Fixpoint count_removed (τ : nat -> Z) (V : bytes -> option Entry) (keys : list bytes) : Z :=
  match keys with
  | [] => 0
  | k :: keys =>
      match seen τ V 0 k with Some _ => 1 | None => 0 end
      + count_removed (fun i => τ (S i)) (after V [(k, tomb)]) keys
  end.

Definition deletions (keys : list bytes) : list write := (fun k => (k, tomb)) <$> keys.

Definition abs_exists (τ : nat -> Z) (V : bytes -> option Entry) (c : Command) : meaning :=
  says (RInteger (count_live τ V (drop 1 (args c)))).

Definition abs_del (τ : nat -> Z) (V : bytes -> option Entry) (c : Command) : meaning :=
  (RInteger (count_removed τ V (drop 1 (args c))), puts (deletions (drop 1 (args c)))).

(** ** Dispatch *)

Definition abs_command (fsync_name info : bytes) (τ : nat -> Z) (V : bytes -> option Entry)
    (name : bytes) (c : Command) : meaning :=
  if decide (name = lit "ping") then abs_ping c
  else if decide (name = lit "set") then abs_set τ c
  else if decide (name = lit "get") then abs_get τ V c
  else if decide (name = lit "expire") then abs_expire τ V c
  else if decide (name = lit "ttl") then abs_ttl τ V c
  else if decide (name = lit "incr") then abs_incr τ V c
  else if decide (name = lit "flushall") then (RSimple (lit "OK"), [Wipe])
  else if decide (name = lit "info") then says (RBulk info)
  else if decide (name = lit "config") then abs_config fsync_name c
  else if decide (name = lit "del") then abs_del τ V c
  else if decide (name = lit "exists") then abs_exists τ V c
  else says (RArray []).

(** The commands and how many words they take: at least, and at most when bounded. *)
Definition arity (name : bytes) : option (Z * option Z) :=
  if bool_decide (name ∈ [lit "get"; lit "ttl"; lit "incr"]) then Some (2, Some 2)
  else if bool_decide (name ∈ [lit "ping"; lit "info"]) then Some (1, Some 2)
  else if bool_decide (name ∈ [lit "flushall"; lit "command"]) then Some (1, None)
  else if bool_decide (name ∈ [lit "config"; lit "del"; lit "exists"]) then Some (2, None)
  else if bool_decide (name = lit "set") then Some (3, None)
  else if bool_decide (name = lit "expire") then Some (3, Some 3)
  else None.

Definition arity_ok (a : Z * option Z) (n : Z) : bool :=
  (a.1 <=? n) && match a.2 with Some most => n <=? most | None => true end.

Definition abs_execute (fsync_name info : bytes) (τ : nat -> Z) (V : bytes -> option Entry)
    (c : Command) : meaning :=
  match (name ← normalize_name (arg c 0); a ← arity name; Some (name, a)) with
  | None => says (RError (append_printable (lit "ERR unknown command '") (arg c 0) ++ lit "'"))
  | Some (name, a) =>
      if arity_ok a (zlen (args c)) then abs_command fsync_name info τ V name c
      else says (RError (lit "ERR wrong number of arguments for '" ++ name ++ lit "' command"))
  end.

