(* ===== verification/Connection.v ===== *)
(** * A client connection ([connection.h], [connection.cpp])

    Everything a connection needs except the socket: bytes go in, complete commands
    run, replies queue up, and the writer takes them away in pieces. *)

From stdpp Require Import gmap.
From S2P Require Import Prelude Decimal Resp SortedMap Memtable WalCodec Posix Wal Sstable Compaction Store Command.

Definition kMaxReadBuffer : Z := 512 * 1024 * 1024.
Definition kCompactThreshold : Z := 64 * 1024.

Record Connection := mkConnection {
  parser_ : RespParser;
  in_ : bytes;
  out_ : bytes;
  out_pos_ : Z;
  max_read_buffer_ : Z;
  closing_ : bool
}.

Definition Connection_init (max_read_buffer : Z) : Connection :=
  mkConnection RespParser_init [] [] 0 max_read_buffer false.

Section connection.
Context (E : env) (kStartedMs : Z).

(** Where the loop of [on_bytes] stands when it breaks. *)
Record loop_state := mkLoop {
  lp_parser : RespParser;
  lp_consumed : nat;
  lp_store : Store;
  lp_out : bytes;
  lp_closing : bool
}.

(** The [for (;;)] of [on_bytes].  Every round but the last takes at least a byte
    ([parse_complete_advances]), so one round per byte and one more are enough;
    [None] is a run out of rounds. *)
Fixpoint on_bytes_loop (fuel : nat) (in_ : bytes) (p : RespParser) (consumed : nat) (st : Store)
    (out : bytes) : M (option loop_state) :=
  match fuel with
  | O => mret None
  | S fuel =>
      match parse p (drop consumed in_) with
      | None => mret None
      | Some (result, p, cmd) =>
          let consumed := (consumed + Resp.consumed result)%nat in
          match status result with
          | Complete =>
              '(st, out) ← execute E kStartedMs (default (mkCommand []) cmd) st out;
              on_bytes_loop fuel in_ p consumed st out
          | ProtocolError =>
              mret (Some (mkLoop p consumed st (append_error out (lit "ERR " ++ error result)) true))
          | NeedMoreData => mret (Some (mkLoop p consumed st out false))
          end
      end
  end.

Definition on_bytes (c : Connection) (bytes : bytes) (st : Store)
  : M (option (bool * Connection * Store)) :=
  if closing_ c then mret (Some (false, c, st))
  else if max_read_buffer_ c <? zlen (in_ c) + zlen bytes then
    mret (Some (false, mkConnection (parser_ c) (in_ c)
                  (append_error (out_ c) (lit "ERR Protocol error: request too large"))
                  (out_pos_ c) (max_read_buffer_ c) true, st))
  else
    let input := in_ c ++ bytes in
    r ← on_bytes_loop (S (length input)) input (parser_ c) 0 st (out_ c);
    match r with
    | None => mret None
    | Some l =>
        mret (Some (negb (lp_closing l),
                mkConnection (lp_parser l) (drop (lp_consumed l) input) (lp_out l) (out_pos_ c)
                  (max_read_buffer_ c) (lp_closing l),
                lp_store l))
    end.

End connection.

Definition pending_output (c : Connection) : bytes := drop (Z.to_nat (out_pos_ c)) (out_ c).
Definition has_pending_output (c : Connection) : bool := negb (bool_decide (pending_output c = [])).
Definition should_close (c : Connection) : bool := closing_ c && negb (has_pending_output c).

Definition consume_output (c : Connection) (n : Z) : Connection :=
  let pos := out_pos_ c + n in
  if pos =? zlen (out_ c) then
    mkConnection (parser_ c) (in_ c) [] 0 (max_read_buffer_ c) (closing_ c)
  else if (kCompactThreshold <=? pos) && (zlen (out_ c) <=? pos * 2) then
    mkConnection (parser_ c) (in_ c) (drop (Z.to_nat pos) (out_ c)) 0 (max_read_buffer_ c) (closing_ c)
  else mkConnection (parser_ c) (in_ c) (out_ c) pos (max_read_buffer_ c) (closing_ c).

(** ** Invariant *)

Record conn_wf (c : Connection) : Prop := mkConnWf {
  cw_parser : parser_wf (parser_ c);
  cw_pos : 0 <= out_pos_ c <= zlen (out_ c)
}.

Lemma parse_step_complete p rest p' n e o :
  parse_step p rest = Return p' n Complete e o -> (1 <= n)%nat.
Proof. unfold parse_step, need_more, fail. repeat case_match; intros; simplify_eq/=; lia. Qed.

Lemma parse_loop_complete fuel p rest pos r p' o :
  parse_loop fuel p rest pos = Some (r, p', o) -> status r = Complete -> (pos < consumed r)%nat.
Proof.
  revert p rest pos. induction fuel as [|fuel IH]; intros p rest pos; cbn [parse_loop]; [done|].
  destruct (parse_step p rest) as [p1 n|p1 n s e o1] eqn:Hs.
  - intros H Hc. specialize (IH _ _ _ H Hc). lia.
  - intros [= <- <- <-]. cbn. intros ->. apply parse_step_complete in Hs. lia.
Qed.

(** A command that is complete has taken at least a byte. *)
Lemma parse_complete_advances p input r p' o :
  parse p input = Some (r, p', o) -> status r = Complete -> (0 < consumed r)%nat.
Proof. apply parse_loop_complete. Qed.

(** An error of the parser is one line; anything else carries no message. *)
Lemma parse_loop_error_line fuel p input pos r p' o :
  parse_loop fuel p input pos = Some (r, p', o) ->
  is_single_line (error r) = true /\ (status r <> ProtocolError -> error r = []).
Proof.
  revert p input pos. induction fuel as [|fuel IH]; intros p input pos; cbn [parse_loop]; [done|].
  destruct (parse_step p input) as [p1 n|p1 n s e o1] eqn:Hs; [apply IH|].
  intros [= <- <- <-]. cbn. revert Hs. unfold parse_step, need_more, fail.
  repeat case_match; intros; simplify_eq/=; done.
Qed.

Lemma parse_error_line p input r p' o :
  parse p input = Some (r, p', o) ->
  is_single_line (error r) = true /\ (status r <> ProtocolError -> error r = []).
Proof. apply parse_loop_error_line. Qed.

(** ** The loop *)

Section loop.
Context (E : env) (kStartedMs : Z).

Abbreviation loop := (on_bytes_loop E kStartedMs).

(** What one call of the parser gives, at a position inside the buffer. *)
Lemma parse_at p (input : bytes) consumed0 :
  parser_wf p -> (consumed0 <= length input)%nat ->
  exists r p' o, parse p (drop consumed0 input) = Some (r, p', o) /\ parser_wf p' /\
    (status r = Complete -> exists c, o = Some c /\ args c <> []) /\
    (consumed0 + consumed r <= length input)%nat /\
    (status r = Complete -> (0 < consumed r)%nat).
Proof.
  intros Hwf Hc. destruct (parse_is_Some p (drop consumed0 input)) as [[[r p'] o] Hp].
  destruct (parse_loop_wf _ _ _ _ _ _ _ Hwf Hp) as (Hwf' & Hs & [_ Hle] & Hcmd).
  rewrite length_drop in Hle. exists r, p', o. split_and!; auto; [|lia|].
  - intros [c ->]%Hs. exists c. split; [done|]. by destruct (Hcmd c eq_refl).
  - by apply (parse_complete_advances p (drop consumed0 input) r p' o).
Qed.

(** Rounds that are enough are enough. *)
Lemma loop_fuel f1 f2 input p c0 st out w :
  parser_wf p -> (c0 <= length input)%nat ->
  (length input - c0 < f1)%nat -> (length input - c0 < f2)%nat ->
  loop f1 input p c0 st out w = loop f2 input p c0 st out w.
Proof.
  revert f2 p c0 st out w. induction f1 as [|f1 IH]; intros f2 p c0 st out w Hwf Hc H1 H2; [lia|].
  destruct f2 as [|f2]; [lia|]. cbn [on_bytes_loop].
  destruct (parse_at p input c0 Hwf Hc) as (r & p' & o & -> & Hwf' & Hcmd & Hle & Hadv).
  destruct (status r); [done| |done]. specialize (Hadv eq_refl).
  cbv [mbind M_bind]. destruct (execute _ _ _ _ _ w) as [[[st1 out1]|e|] w1]; [|done|done].
  apply IH; [done|lia|lia|lia].
Qed.

(** The loop always breaks inside the buffer, with the parser in order, after one
    reply per command and one for an error of the framing. *)
Lemma wp_loop f input p c0 st out w :
  parser_wf p -> (c0 <= length input)%nat -> (length input - c0 < f)%nat ->
  wp (loop f input p c0 st out) (fun r w' => match r with
    | Ret None => False
    | Ret (Some l) => parser_wf (lp_parser l) /\ (c0 <= lp_consumed l <= length input)%nat /\
        exists replies, Forall reply_ok replies /\ lp_out l = out ++ concat (encode_reply <$> replies)
    | _ => True
    end) w.
Proof.
  revert p c0 st out w. induction f as [|f IH]; intros p c0 st out w Hwf Hc Hf; [lia|].
  cbn [on_bytes_loop].
  destruct (parse_at p input c0 Hwf Hc) as (r & p' & o & Hp & Hwf' & Hcmd & Hle & Hadv).
  rewrite Hp. destruct (status r) eqn:Hs.
  - apply wp_ret. cbn. split_and!; [done|lia|lia|]. exists []. split; [constructor|]. by rewrite app_nil_r.
  - destruct (Hcmd eq_refl) as (c & -> & Hne). specialize (Hadv eq_refl). cbn [default].
    apply wp_bind. eapply wp_mono; [by apply (wp_execute_one_reply E kStartedMs c st out w)|].
    intros [[st1 out1]|e|] w1 Hr; [|done|done]. destruct Hr as (x & Hx & ->).
    eapply wp_mono; [apply IH; [done|lia|lia]|].
    intros [[l|]|e|] w2; [|done|done|done]. intros (H1 & H2 & replies & Hok & Ho).
    split_and!; [done|lia|lia|]. exists (x :: replies). split; [by constructor|].
    by rewrite Ho, <- app_assoc.
  - apply wp_ret. cbn. split_and!; [done|lia|lia|].
    exists [RError (lit "ERR " ++ error r)]. split.
    + constructor; [|constructor]. cbn [reply_ok]. rewrite is_single_line_app.
      by rewrite (proj1 (parse_error_line _ _ _ _ _ Hp)).
    + cbn. by rewrite app_nil_r.
Qed.

Lemma drop_app_le {A} n (a b : list A) : (n <= length a)%nat -> drop n (a ++ b) = drop n a ++ b.
Proof. intros Hn. rewrite drop_app. by replace (n - length a)%nat with 0%nat by lia. Qed.

(** More bytes after a loop that broke for want of them: the loop on all the bytes
    gets to the same place and goes on from there. *)
Lemma loop_app f g h a b p c0 st out w l w' :
  parser_wf p -> (c0 <= length a)%nat ->
  (length a - c0 < f)%nat -> (length (a ++ b) - c0 < g)%nat ->
  (length (a ++ b) - lp_consumed l < h)%nat ->
  loop f a p c0 st out w = (Ret (Some l), w') -> lp_closing l = false ->
  loop g (a ++ b) p c0 st out w =
    loop h (a ++ b) (lp_parser l) (lp_consumed l) (lp_store l) (lp_out l) w'.
Proof.
  revert g p c0 st out w. induction f as [|f IH]; intros g p c0 st out w Hwf Hc Hf Hg Hh; [lia|].
  destruct g as [|g]; [lia|]. cbn [on_bytes_loop].
  destruct (parse_at p a c0 Hwf Hc) as (r & p' & o & Hp & Hwf' & Hcmd & Hle & Hadv).
  destruct (parse_error_line _ _ _ _ _ Hp) as [_ Herr].
  rewrite Hp, drop_app_le by done. destruct (status r) eqn:Hs.
  - intros [= <- <-] _. cbn [lp_parser lp_consumed lp_store lp_out] in *.
    destruct h as [|h]; [lia|]. cbn [on_bytes_loop].
    destruct (parse_resume_gen _ _ b _ _ _ Hp Hs) as [_ ->].
    rewrite drop_drop, Nat.add_comm, drop_app_le by lia.
    destruct (parse_is_Some p' (drop (consumed r + c0) a ++ b)) as [[[r2 p2] o2] Hp2].
    assert ((c0 + consumed r + consumed r2 <= length (a ++ b))%nat /\ parser_wf p2 /\
      (status r2 = Complete -> (0 < consumed r2)%nat)) as (Hle2 & Hwf2 & Hadv2).
    { destruct (parse_at p' (a ++ b) (c0 + consumed r)) as (r3 & p3 & o3 & Hp3 & H1 & _ & H2 & H3);
        [done|rewrite length_app; lia|].
      rewrite drop_app_le, Nat.add_comm in Hp3 by lia. rewrite Hp2 in Hp3. by injection Hp3 as <- <- <-. }
    rewrite Hp2. cbn [fmap option_fmap option_map shift_result status consumed error].
    rewrite Nat.add_assoc, (Nat.add_comm c0). destruct (status r2); [done| |done].
    specialize (Hadv2 eq_refl). cbv [mbind M_bind].
    destruct (execute _ _ _ _ _ w) as [[[st1 out1]|e|] w1]; [|done|done].
    apply loop_fuel; [done|lia|lia|lia].
  - specialize (Hadv eq_refl). rewrite (parse_stable_gen _ _ b _ _ _ Hp) by
      (rewrite ?Hs, ?Herr by congruence; done). rewrite Hs.
    cbv [mbind M_bind]. destruct (execute _ _ _ _ _ w) as [[[st1 out1]|e|] w1]; [|done|done].
    apply IH; auto; rewrite ?length_app in *; lia.
  - by intros [= <- <-].
Qed.

(** Positions are counted from the start of the buffer, wherever that is. *)
Definition shift_loop (n : nat) (r : res (option loop_state)) : res (option loop_state) :=
  match r with
  | Ret (Some l) =>
      Ret (Some (mkLoop (lp_parser l) (n + lp_consumed l) (lp_store l) (lp_out l) (lp_closing l)))
  | r => r
  end.

Lemma loop_shift f input p n c0 st out w :
  loop f input p (n + c0) st out w =
    let '(r, w') := loop f (drop n input) p c0 st out w in (shift_loop n r, w').
Proof.
  revert p c0 st out w. induction f as [|f IH]; intros p c0 st out w; cbn [on_bytes_loop]; [done|].
  rewrite drop_drop.
  destruct (parse p _) as [[[r p'] o]|]; [|done]. destruct (status r); [| |].
  - cbn. by rewrite Nat.add_assoc.
  - cbv [mbind M_bind]. destruct (execute _ _ _ _ _ w) as [[[st1 out1]|e|] w1]; [|done|done].
    rewrite <- IH. by rewrite Nat.add_assoc.
  - cbn. by rewrite Nat.add_assoc.
Qed.
End loop.

(** ** Commands one after the other *)

Section pipeline.
Context (E : env) (kStartedMs : Z).

Fixpoint execute_all (cmds : list (list bytes)) (st : Store) (out : bytes) : M (Store * bytes) :=
  match cmds with
  | [] => mret (st, out)
  | cmd :: cmds => '(st, out) ← execute E kStartedMs (mkCommand cmd) st out; execute_all cmds st out
  end.

(** Requests the parser's caps let through. *)
Definition request_ok (cmd : list bytes) : Prop :=
  cmd <> [] /\ Forall (fun s => zlen s <= kMaxBulkLen) cmd /\ zlen cmd <= kMaxMultibulkLen.

Definition requests (cmds : list (list bytes)) : bytes := concat (encode_request <$> cmds).

Lemma loop_requests f a cmds st out w :
  Forall request_ok cmds -> (length (requests cmds) < f)%nat ->
  on_bytes_loop E kStartedMs f (a ++ requests cmds) RespParser_init (length a) st out w =
    (r ← execute_all cmds st out;
     mret (Some (mkLoop RespParser_init (length (a ++ requests cmds)) r.1 r.2 false))) w.
Proof.
  intros Hok. revert f a st out w. induction Hok as [|cmd cmds (Hne & Hs & Hn) Hok IH];
    intros f a st out w Hf.
  - destruct f as [|f]; [lia|]. unfold requests. cbn [fmap list_fmap concat on_bytes_loop execute_all].
    rewrite app_nil_r, drop_all. cbn. by rewrite Nat.add_0_r.
  - assert (requests (cmd :: cmds) = encode_request cmd ++ requests cmds) as Hreq by done.
    rewrite Hreq in Hf |- *. rewrite length_app in Hf.
    destruct f as [|f]; [lia|]. cbn [on_bytes_loop execute_all].
    rewrite drop_app_length, (parse_encode_request cmd (requests cmds)) by done.
    cbn [status consumed default].
    cbv [mbind M_bind]. destruct (execute _ _ _ _ _ w) as [[[st1 out1]|e|] w1]; [|done|done].
    rewrite <- length_app, app_assoc.
    pose proof (parse_complete_advances _ _ _ _ _ (parse_encode_request cmd [] Hne Hs Hn) eq_refl) as Hpos.
    cbn [consumed] in Hpos.
    rewrite IH by lia. done.
Qed.
End pipeline.

(** ** What a connection promises *)

(** Where [on_bytes] leaves a connection. *)
Lemma on_bytes_post (E : env) (kStartedMs : Z) (c : Connection) (bytes : bytes) (st : Store)
    (w w' : world) (o : option (bool * Connection * Store)) :
  conn_wf c -> on_bytes E kStartedMs c bytes st w = (Ret o, w') ->
  exists go c' st', o = Some (go, c', st') /\ conn_wf c' /\ go = negb (closing_ c') /\
    max_read_buffer_ c' = max_read_buffer_ c /\
    (zlen (in_ c') <= Z.max (zlen (in_ c)) (max_read_buffer_ c)) /\
    exists replies, Forall reply_ok replies /\
      pending_output c' = pending_output c ++ concat (encode_reply <$> replies).
Proof.
  intros [Hwf Hpos] Hrun.
  assert (forall x, drop (Z.to_nat (out_pos_ c)) (out_ c ++ x) = pending_output c ++ x) as Hout.
  { intros x. apply drop_app_le. unfold zlen in Hpos. lia. }
  unfold on_bytes in Hrun. destruct (closing_ c) eqn:Hcl.
  { injection Hrun as <- <-. exists false, c, st. rewrite Hcl.
    split; [done|]. split; [by split|]. split; [done|]. split; [done|]. split; [lia|].
    exists []. split; [constructor|]. by rewrite app_nil_r. }
  destruct (Z.ltb_spec (max_read_buffer_ c) (zlen (in_ c) + zlen bytes)) as [Hbig|Hfit].
  { injection Hrun as <- <-. eexists _, _, _. split; [done|].
    assert (forall m, append_error (out_ c) m = out_ c ++ encode_reply (RError m)) as Happ by done.
    split_and!; try done; [|cbn; lia|].
    - split; [done|]. cbn [out_pos_ out_]. rewrite Happ, zlen_app. pose proof (zlen_nonneg
        (encode_reply (RError (lit "ERR Protocol error: request too large")))). lia.
    - exists [RError (lit "ERR Protocol error: request too large")].
      split; [by repeat constructor|]. unfold pending_output at 1. cbn [out_pos_ out_].
      rewrite Happ, Hout. cbn [fmap list_fmap concat]. by rewrite app_nil_r. }
  revert Hrun. cbv [mbind M_bind].
  destruct (on_bytes_loop _ _ _ _ _ _ _ _ w) as [r w1] eqn:Hloop.
  pose proof (wp_elim _ _ _ _ _ (wp_loop E kStartedMs (S (length (in_ c ++ bytes))) (in_ c ++ bytes) (parser_ c) 0 st (out_ c) w
    Hwf ltac:(lia) ltac:(lia)) Hloop) as Hr.
  destruct r as [[l|]|e|]; [|done|done|done].
  destruct Hr as (Hwf' & Hc & replies & Hok & Ho). intros [= <- <-]. eexists _, _, _. split; [done|].
  split_and!; try done.
  - split; [done|]. cbn [out_pos_ out_]. rewrite Ho, zlen_app.
    pose proof (zlen_nonneg (concat (encode_reply <$> replies))). lia.
  - cbn [in_]. unfold zlen in *. rewrite length_drop, length_app. lia.
  - exists replies. split; [done|]. unfold pending_output at 1. cbn [out_pos_ out_]. by rewrite Ho, Hout.
Qed.

(** [on_bytes] always comes to an end, keeps the connection in order, and only adds
    whole replies.  Whatever bytes arrive, when the commands in them return so does
    the loop; the parser's invariant and the output offset are kept; the output the
    writer has not taken yet is still there, followed by well-formed replies and
    nothing else; and the result says whether the connection goes on. *)
Theorem on_bytes_correct (E : env) (kStartedMs : Z) (c : Connection) (bytes : bytes) (st : Store)
    (w w' : world) (o : option (bool * Connection * Store)) :
  conn_wf c -> on_bytes E kStartedMs c bytes st w = (Ret o, w') ->
  exists go c' st', o = Some (go, c', st') /\ conn_wf c' /\ go = negb (closing_ c') /\
    max_read_buffer_ c' = max_read_buffer_ c /\
    (zlen (in_ c') <= Z.max (zlen (in_ c)) (max_read_buffer_ c)) /\
    exists replies, Forall reply_ok replies /\
      pending_output c' = pending_output c ++ concat (encode_reply <$> replies).
Proof. apply on_bytes_post. Qed.

Lemma init_conn_wf n : conn_wf (Connection_init n).
Proof. by split. Qed.

Lemma on_bytes_correct_witness :
  exists go c' st' w', on_bytes (fair_env 9) 0 (Connection_init 100) (lit "PING" ++ kCrlf ++ lit "GE") ram_store
      world_init = (Ret (Some (go, c', st')), w') /\ conn_wf c' /\ go = true /\ in_ c' = lit "GE".
Proof.
  destruct (on_bytes (fair_env 9) 0 (Connection_init 100) (lit "PING" ++ kCrlf ++ lit "GE") ram_store world_init)
    as [r w'] eqn:Hrun.
  pose proof Hrun as Hrun'. vm_compute in Hrun'. destruct r as [o|e|]; [|discriminate Hrun'..].
  destruct (on_bytes_correct (fair_env 9) 0 (Connection_init 100) (lit "PING" ++ kCrlf ++ lit "GE") ram_store
    world_init w' o (init_conn_wf 100) Hrun) as (go & c' & st' & Ho & Hwf & Hgo & _).
  exists go, c', st', w'. rewrite Ho in *. split; [reflexivity|]. split; [exact Hwf|].
  injection Hrun' as <- <- _ _. split; reflexivity.
Defined.

(** C15: How the bytes were cut into reads does not matter.  When a first read left the
    connection open, handing over the rest of the bytes in a second call comes to
    exactly what one call with all of them would have: the same replies in the
    same order, the same store, the same state of the connection and of the disk. *)
Theorem on_bytes_chunks (E : env) (kStartedMs : Z) (c c1 : Connection) (a b : bytes) (st st1 : Store)
    (w w1 : world) :
  conn_wf c -> zlen (in_ c) + zlen (a ++ b) <= max_read_buffer_ c ->
  on_bytes E kStartedMs c a st w = (Ret (Some (true, c1, st1)), w1) ->
  on_bytes E kStartedMs c (a ++ b) st w = on_bytes E kStartedMs c1 b st1 w1.
Proof.
  intros [Hwf _] Hmax Hrun. rewrite zlen_app in Hmax.
  pose proof (zlen_nonneg a). pose proof (zlen_nonneg b).
  unfold on_bytes in Hrun. destruct (closing_ c) eqn:Hcl; [done|].
  rewrite (proj2 (Z.ltb_ge _ _)) in Hrun by lia. revert Hrun. cbv [mbind M_bind].
  destruct (on_bytes_loop _ _ _ _ _ _ _ _ w) as [r w2] eqn:Hloop.
  pose proof (wp_elim _ _ _ _ _ (wp_loop E kStartedMs (S (length (in_ c ++ a))) (in_ c ++ a) (parser_ c) 0 st (out_ c) w
    Hwf ltac:(lia) ltac:(lia)) Hloop) as Hr.
  destruct r as [[l|]|e|]; [|done|done|done]. destruct Hr as (Hwf1 & [_ Hc] & _).
  destruct (lp_closing l) eqn:Hlc; [done|]. cbn [negb]. intros [= <- <- <-].
  unfold on_bytes. rewrite Hcl. cbn [closing_ max_read_buffer_ in_ parser_ out_ out_pos_].
  assert (zlen (drop (lp_consumed l) (in_ c ++ a)) <= zlen (in_ c) + zlen a) as Hleft.
  { unfold zlen. rewrite length_drop, length_app. lia. }
  rewrite !(proj2 (Z.ltb_ge _ _)) by (rewrite ?zlen_app; lia).
  rewrite app_assoc, <- drop_app_le by done. set (input := (in_ c ++ a) ++ b).
  cbv [mbind M_bind].
  pose proof (loop_app E kStartedMs (S (length (in_ c ++ a))) (S (length input)) (S (length input))
    (in_ c ++ a) b (parser_ c) 0 st (out_ c) w l w2 Hwf ltac:(lia) ltac:(lia) ltac:(subst input; lia)
    ltac:(subst input; lia) Hloop Hlc) as Happ. fold input in Happ. rewrite Happ. clear Happ.
  rewrite <- (Nat.add_0_r (lp_consumed l)) at 1. rewrite loop_shift.
  rewrite (loop_fuel E kStartedMs (S (length input)) (S (length (drop (lp_consumed l) input)))); try done; try lia;
    [|rewrite length_drop; lia].
  destruct (on_bytes_loop _ _ _ _ _ _ _ _ w2) as [[[l2|]|e|] w3]; cbn; rewrite ?drop_drop; reflexivity.
Qed.

Lemma on_bytes_chunks_witness :
  exists c1 st1 w1,
    on_bytes (fair_env 9) 0 (Connection_init 100) (lit "PI") ram_store world_init =
      (Ret (Some (true, c1, st1)), w1) /\
    on_bytes (fair_env 9) 0 (Connection_init 100) (lit "PI" ++ lit "NG" ++ kCrlf) ram_store world_init =
      on_bytes (fair_env 9) 0 c1 (lit "NG" ++ kCrlf) st1 w1.
Proof.
  eexists _, _, _. split; [vm_compute; reflexivity|].
  apply (on_bytes_chunks (fair_env 9) 0 (Connection_init 100) _ (lit "PI") (lit "NG" ++ kCrlf));
    [apply init_conn_wf|vm_compute; discriminate|vm_compute; reflexivity].
Defined.

(** C38: Pipelined requests run in order and to the end.  On a connection between two
    commands, the bytes of any number of requests have exactly the effect of
    executing the commands one after the other, each on the store the one before
    left, and the connection is again between two commands, with no input left
    over. *)
Theorem pipelined_requests (E : env) (kStartedMs : Z) (c : Connection) (cmds : list (list bytes))
    (st : Store) (w : world) :
  closing_ c = false -> parser_ c = RespParser_init -> in_ c = [] ->
  Forall request_ok cmds -> zlen (requests cmds) <= max_read_buffer_ c ->
  on_bytes E kStartedMs c (requests cmds) st w =
    match execute_all E kStartedMs cmds st (out_ c) w with
    | (Ret (st', out'), w') =>
        (Ret (Some (true, mkConnection RespParser_init [] out' (out_pos_ c) (max_read_buffer_ c) false, st')), w')
    | (Throw e, w') => (Throw e, w')
    | (Dead, w') => (Dead, w')
    end.
Proof.
  intros Hcl Hp Hin Hok Hmax. unfold on_bytes. rewrite Hcl, Hp, Hin. cbn [app].
  change (zlen []) with 0. rewrite (proj2 (Z.ltb_ge _ _)) by lia.
  pose proof (loop_requests E kStartedMs (S (length (requests cmds))) [] cmds st (out_ c) w Hok
    ltac:(lia)) as Hloop. cbn [app length] in Hloop.
  unfold mbind at 1, M_bind at 1. rewrite Hloop. cbv [mbind M_bind].
  destruct (execute_all _ _ _ _ _ w) as [[[st' out']|e|] w']; [|done|done].
  cbn. by rewrite drop_all.
Qed.

Lemma pipelined_requests_witness :
  exists st' w',
    on_bytes (fair_env 400) 0 (Connection_init 200)
      (requests [[lit "SET"; lit "k"; lit "v"]; [lit "GET"; lit "k"]]) ram_store world_init =
    (Ret (Some (true, mkConnection RespParser_init [] (lit "+OK" ++ kCrlf ++ bulk (lit "v")) 0 200 false, st')), w').
Proof.
  eexists _, _.
  rewrite (pipelined_requests (fair_env 400) 0 (Connection_init 200)
    [[lit "SET"; lit "k"; lit "v"]; [lit "GET"; lit "k"]] ram_store world_init);
    [vm_compute; reflexivity|reflexivity|reflexivity|reflexivity| |vm_compute; discriminate].
  repeat constructor; try discriminate; vm_compute; discriminate.
Defined.

(** What is pending after the writer took [n] bytes. *)
Lemma consume_output_post (c : Connection) (n : Z) :
  conn_wf c -> 0 <= n <= zlen (pending_output c) ->
  pending_output (consume_output c n) = drop (Z.to_nat n) (pending_output c) /\
  conn_wf (consume_output c n) /\
  (zlen (out_ (consume_output c n)) <= zlen (out_ c)) /\
  (should_close (consume_output c n) = true <->
     closing_ c = true /\ n = zlen (pending_output c)).
Proof.
  intros [Hwf Hpos] Hn. unfold pending_output in Hn. unfold zlen in Hn at 1. rewrite length_drop in Hn.
  assert (n <= zlen (out_ c) - out_pos_ c) as Hn' by (unfold zlen in *; lia).
  assert (pending_output (consume_output c n) = drop (Z.to_nat n) (pending_output c)) as Hpend.
  { unfold consume_output, pending_output. rewrite drop_drop.
    replace (Z.to_nat (out_pos_ c) + Z.to_nat n)%nat with (Z.to_nat (out_pos_ c + n)) by lia.
    destruct (Z.eqb_spec (out_pos_ c + n) (zlen (out_ c))) as [He|He].
    - symmetry. apply drop_ge. unfold zlen in He. lia.
    - by case_match. }
  split; [done|]. split.
  { unfold consume_output. repeat case_match; split; cbn [parser_ out_pos_ out_]; try done; lia || zlia. }
  split.
  { unfold consume_output. repeat case_match; cbn [out_]; unfold zlen; rewrite ?length_drop; cbn; lia. }
  assert (closing_ (consume_output c n) = closing_ c) as Hc by (unfold consume_output; repeat case_match; done).
  unfold should_close, has_pending_output. rewrite Hpend, Hc, negb_involutive, andb_true_iff, bool_decide_eq_true.
  split; intros [H1 H2]; (split; [done|]).
  - apply (f_equal length) in H2. rewrite length_drop in H2. cbn in H2.
    unfold zlen, pending_output in *. rewrite length_drop in *. lia.
  - subst n. apply drop_ge. unfold zlen. lia.
Qed.

(** Writing output away loses nothing and repeats nothing.  After the socket took
    [n] of the pending bytes, exactly the others are pending, whichever of its three
    ways [consume_output] shortens the buffer, and the offset stays inside it; so
    the bytes a client receives are the replies in the order they were queued. *)
Theorem consume_output_exact (c : Connection) (n : Z) :
  conn_wf c -> 0 <= n <= zlen (pending_output c) ->
  pending_output (consume_output c n) = drop (Z.to_nat n) (pending_output c) /\
  conn_wf (consume_output c n) /\
  (zlen (out_ (consume_output c n)) <= zlen (out_ c)) /\
  (should_close (consume_output c n) = true <->
     closing_ c = true /\ n = zlen (pending_output c)).
Proof. apply consume_output_post. Qed.

Lemma consume_output_exact_witness :
  let c := mkConnection RespParser_init [] (lit "+OK" ++ kCrlf ++ lit "+PONG" ++ kCrlf) 0 100 false in
  pending_output (consume_output c 7) = lit "ONG" ++ kCrlf.
Proof.
  intros c. destruct (consume_output_exact c 7) as [-> _]; [by split|vm_compute; split; discriminate|].
  reflexivity.
Defined.
