(* ===== verification/LogGuard.v ===== *)
(** * The log's file is nobody else's, and its count of unsynced bytes is honest

    The event loop decides whether to [fsync] by asking the log object how many
    bytes it has written since the last [fsync] ([needs_sync]).  This file shows
    that the answer can be trusted through every operation of the store and every
    command: no operation but the log's own touches the log's inode, and the count
    is zero only when the file is on the disk, unless the kernel has reported an error
    on the way.  No assumption is made on sizes, formats or the kernel's answers.

    Two relations carry the argument.  [spares T w w'] relates two worlds between
    which no file but those behind the temporary names [T] was written; [log_rel]
    relates two states of a store.  Both are preorders, so an operation is treated
    by chaining its steps. *)

From stdpp Require Import gmap.
From S2P Require Import Prelude Resp SortedMap Memtable WalCodec Posix Wal Sstable Compaction Store Command Connection.

(** ** Worlds *)

(** The inode exists and no temporary name leads to it. *)
Definition isolated (T : list bytes) (fd : nat) (w : world) : Prop :=
  (fd < next_ino w)%nat /\ forall p, p ∈ T -> dir w !! p <> Some fd.

(** An isolated inode stays isolated, with its contents as they were. *)
Definition spares (T : list bytes) (w w' : world) : Prop :=
  (tick w <= tick w')%nat /\
  forall fd, isolated T fd w ->
    isolated T fd w' /\ contents w' fd = contents w fd /\ ino_synced w' !! fd = ino_synced w !! fd.

#[export] Instance spares_preorder T : PreOrder (spares T).
Proof.
  split; [by split|]. intros w1 w2 w3 [Ht1 H1] [Ht2 H2]. split; [lia|].
  intros fd (Hi & Hc & Hs)%H1. destruct (H2 fd Hi) as (? & ? & ?). split_and!; [done|congruence..].
Qed.

Lemma same_files_spares T w w' : same_files w w' -> (tick w <= tick w')%nat -> spares T w w'.
Proof.
  intros Hw Ht. split; [done|]. intros fd [Hlt Hp]. pose proof Hw as (Hd & _ & _ & Hs & Hn).
  split; [split; [by rewrite Hn|by rewrite Hd]|]. split; [by rewrite <- Hw|by rewrite Hs].
Qed.

Lemma creates_spares T p i w w' :
  p ∈ T -> creates p i w w' -> (tick w <= tick w')%nat -> spares T w w'.
Proof.
  intros Hp [Hd _ Hi Hs Hn] Ht. split; [done|]. intros fd [Hlt Hfree].
  assert (fd <> i) as Hne by (destruct Hn as [[Hn _]|(_ & -> & _)]; [intros ->; by apply (Hfree p)|lia]).
  split; [split|].
  - destruct Hn as [[_ ->]|(_ & _ & ->)]; lia.
  - intros q Hq. rewrite Hd. destruct (decide (q = p)) as [->|].
    + rewrite lookup_insert_eq. congruence.
    + rewrite lookup_insert_ne by done. by apply Hfree.
  - unfold contents. by rewrite Hi, Hs.
Qed.

Lemma names_spares T w w' :
  same_inodes w w' -> (forall p fd, p ∈ T -> dir w' !! p = Some fd -> exists q, q ∈ T /\ dir w !! q = Some fd) ->
  (tick w <= tick w')%nat -> spares T w w'.
Proof.
  intros Hs Hd Ht. split; [done|]. intros fd [Hlt Hfree]. pose proof Hs as (_ & Hsy & Hn).
  split; [split; [by rewrite Hn|]|].
  - intros p Hp Hl. destruct (Hd p fd Hp Hl) as (q & Hq & Hlq). by apply (Hfree q).
  - by rewrite (same_inodes_contents w w'), Hsy.
Qed.

(** ** Programs that leave the log alone *)

Definition sparing {A} (T : list bytes) (m : M A) : Prop := forall w, spares T w (m w).2.

Lemma sparing_ret {A} T (a : A) : sparing T (mret a).
Proof. by intros w. Qed.

Lemma sparing_throw {A} T e : sparing T (@throw A e).
Proof. by intros w. Qed.

Lemma sparing_bind {A B} T (m : M A) (k : A -> M B) :
  sparing T m -> (forall a, sparing T (k a)) -> sparing T (m ≫= k).
Proof.
  intros Hm Hk w. cbv [mbind M_bind]. specialize (Hm w). destruct (m w) as [[a|e|] w1]; cbn in *; auto.
  etransitivity; [done|apply Hk].
Qed.

Create HintDb sparing.
#[export] Hint Resolve sparing_ret sparing_throw sparing_bind : sparing.

(** The steps of a program that only reads: split binds, cases and tuples. *)
Ltac sparing_step :=
  match goal with
  | |- sparing _ (match ?x with _ => _ end) => destruct x
  | |- sparing _ (_ ≫= _) => apply sparing_bind; [|intros ?]
  | |- forall _, _ => intros ?
  | |- _ => solve [eauto with sparing]
  end.
Ltac sparing := repeat sparing_step.

Section calls.
Context (E : env) (T : list bytes).

(** A call that changes no file. *)
Lemma sparing_reads {A} (m : M A) :
  (forall w, same_files w (m w).2 /\ (tick w <= tick (m w).2)%nat) -> sparing T m.
Proof. intros H w. by apply same_files_spares; apply H. Qed.

Lemma sparing_now_ms : sparing T (now_ms E).
Proof. apply sparing_reads. intros w. by split; [apply same_files_tick|cbn; lia]. Qed.

Lemma sparing_read_exact fd offset n : sparing T (read_exact E fd offset n).
Proof.
  apply sparing_reads. intros w. unfold read_exact. case_match; cbn; [|done].
  split; [apply same_files_tick|lia].
Qed.

Lemma sparing_open_existing path : sparing T (open_existing E path).
Proof.
  apply sparing_reads. intros w. unfold open_existing.
  repeat case_match; cbn; (split; [try apply same_files_tick; done|lia]).
Qed.

Lemma sparing_lseek_end fd : sparing T (lseek_end E fd).
Proof.
  apply sparing_reads. intros w. unfold lseek_end.
  repeat case_match; cbn; (split; [try apply same_files_tick; done|lia]).
Qed.

Lemma sparing_file_size path : sparing T (file_size E path).
Proof.
  apply sparing_reads. intros w. unfold file_size.
  repeat case_match; cbn; (split; [try apply same_files_tick; done|lia]).
Qed.

Lemma sparing_unlink path : sparing T (unlink E path).
Proof.
  intros w. unfold unlink. repeat case_match; cbn; try reflexivity;
    try (apply same_files_spares; [apply same_files_tick|cbn; lia]).
  apply names_spares; [done| |cbn; lia]. cbn. intros p fd Hp Hl.
  exists p. apply lookup_delete_Some in Hl. naive_solver.
Qed.

Lemma sparing_rename from to : from ∈ T -> sparing T (rename E from to).
Proof.
  intros Hf w. unfold rename. repeat case_match; cbn; try reflexivity;
    try (apply same_files_spares; [apply same_files_tick|cbn; lia]).
  apply names_spares; [done| |cbn; lia]. cbn. intros p fd Hp. destruct (decide (p = to)) as [->|].
  - rewrite lookup_insert_eq. intros [= ->]. by exists from.
  - rewrite lookup_insert_ne by done. intros [_ Hl]%lookup_delete_Some. by exists p.
Qed.

Lemma sparing_fsync_dir : sparing T (fsync_dir E).
Proof.
  unfold fsync_dir. apply sparing_bind.
  - apply sparing_reads. intros w. unfold one_call.
    repeat case_match; cbn; (split; [try apply same_files_tick; done|lia]).
  - intros []; [|apply sparing_ret]. intros w. unfold fsync_names.
    repeat case_match; cbn; try reflexivity;
      try (apply same_files_spares; [apply same_files_tick|cbn; lia]).
    apply names_spares; [done| |cbn; lia]. cbn. eauto.
Qed.

Lemma sparing_checked {A} (o : option A) : sparing T (checked o).
Proof. destruct o; [apply sparing_ret|apply sparing_throw]. Qed.

Lemma sparing_oob {A} : sparing T (@oob A).
Proof. apply sparing_throw. Qed.

End calls.

#[export] Hint Resolve sparing_now_ms sparing_read_exact sparing_open_existing sparing_lseek_end
  sparing_file_size sparing_unlink sparing_rename sparing_fsync_dir sparing_checked sparing_oob : sparing.

(** *** Tables *)

Section tables.
Context (E : env) (T : list bytes).

Lemma sparing_Sstable_open path b : sparing T (Sstable_open E path b).
Proof. unfold Sstable_open. sparing. Qed.

Lemma sparing_get t key : sparing T (Sstable.get E t key).
Proof. unfold Sstable.get. sparing. Qed.

Lemma sparing_ensure t c need : sparing T (ensure E t c need).
Proof. unfold ensure. sparing. Qed.
#[local] Hint Resolve sparing_ensure : sparing.

Lemma sparing_load t c : sparing T (load E t c).
Proof. unfold load. sparing. Qed.
#[local] Hint Resolve sparing_load : sparing.

Lemma sparing_open_cursors inputs : sparing T (open_cursors E inputs).
Proof. induction inputs; cbn [open_cursors]; unfold cursor; sparing. Qed.

End tables.

#[export] Hint Resolve sparing_Sstable_open sparing_get sparing_ensure sparing_load sparing_open_cursors
  : sparing.

(** The writer of a table writes to its own descriptor only. *)
Definition within {A} (fd : nat) (m : M A) : Prop :=
  forall w, frame fd w (m w).2 /\ (tick w <= tick (m w).2)%nat.

Lemma within_ret {A} fd (a : A) : within fd (mret a).
Proof. by intros w. Qed.

Lemma within_throw {A} fd e : within fd (@throw A e).
Proof. by intros w. Qed.

(** The continuation may use what the first step is known to return. *)
Lemma within_bind {A B} fd (m : M A) (k : A -> M B) (P : A -> Prop) :
  within fd m -> (forall w, match (m w).1 with Ret a => P a | _ => True end) ->
  (forall a, P a -> within fd (k a)) -> within fd (m ≫= k).
Proof.
  intros Hm HP Hk w. cbv [mbind M_bind]. specialize (Hm w). specialize (HP w).
  destruct (m w) as [[a|e|] w1]; cbn in *; auto. destruct Hm as [Hf Ht], (Hk a HP w1) as [Hf1 Ht1].
  split; [by etransitivity|lia].
Qed.

Lemma within_then {A B} fd (m : M A) (k : A -> M B) :
  within fd m -> (forall a, within fd (k a)) -> within fd (m ≫= k).
Proof. intros Hm Hk. apply (within_bind _ _ _ (fun _ => True)); auto. intros w. by case_match. Qed.

Lemma write_loop_tick script fd data w : tick (write_loop script fd data w).2 = tick w.
Proof.
  revert data w. induction script as [|[] script IH]; intros [|c data] w; cbn [write_loop]; try done;
    by rewrite IH.
Qed.

Lemma within_write_all E fd data : within fd (write_all E fd data).
Proof.
  intros w. unfold write_all. destruct (write_loop _ _ _ _) as [r w'] eqn:Hw.
  pose proof (write_loop_tick (answers E w) fd data w) as Ht. rewrite Hw in Ht.
  apply write_loop_spec in Hw as (n & _ & _ & Hf & _). cbn in *. split; [|lia].
  etransitivity; [done|apply same_files_frame, same_files_tick].
Qed.

Lemma within_fsync E fd : within fd (fsync E fd).
Proof.
  intros w. unfold fsync. repeat case_match; cbn; (split; [|lia]).
  - constructor; try done. intros i Hi. cbn. by rewrite lookup_insert_ne.
  - apply same_files_frame, same_files_tick.
  - reflexivity.
Qed.

Lemma within_reads {A} fd (m : M A) : sparing [] m ->
  (forall w, same_files w (m w).2) -> within fd m.
Proof. intros H Hs w. split; [by apply same_files_frame|apply H]. Qed.
#[export] Hint Resolve within_ret within_throw within_write_all within_fsync : sparing.

(** The writer keeps its descriptor. *)
Lemma add_within E wr key value tomb ex :
  within (sw_fd wr) (add E wr key value tomb ex).
Proof.
  unfold add. case_match; [apply within_ret|].
  assert (sw_fd (note_index wr key) = sw_fd wr) as -> by (unfold note_index; by case_match).
  apply within_then; [apply within_write_all|]. intros []; apply within_ret.
Qed.

Lemma add_fd E wr key value tomb ex w :
  match (add E wr key value tomb ex w).1 with Ret wr' => sw_fd wr' = sw_fd wr | _ => True end.
Proof.
  unfold add. destruct (sw_failed wr); [done|].
  assert (sw_fd (note_index wr key) = sw_fd wr) as Hn by (unfold note_index; by case_match).
  cbv [mbind M_bind]. destruct (write_all _ _ _ w) as [[[]|e|] w1]; cbn; done.
Qed.

Lemma finish_within E wr : within (sw_fd wr) (finish E wr).
Proof.
  unfold finish. case_match; [apply within_ret|].
  repeat (apply within_then; [first [apply within_write_all|apply within_fsync]|];
          intros b; try (destruct b; cbn [negb]; [|apply within_ret])); apply within_ret.
Qed.

Lemma add_rows_within E rows wr : within (sw_fd wr) (add_rows E wr rows).
Proof.
  revert wr. induction rows as [|x rows IH]; intros wr; cbn [add_rows]; [apply within_ret|].
  apply (within_bind _ _ _ (fun wr' => sw_fd wr' = sw_fd wr)).
  - apply add_within.
  - intros w. apply add_fd.
  - intros wr' <-. apply IH.
Qed.

Lemma add_rows_fd E rows wr w :
  match (add_rows E wr rows w).1 with Ret wr' => sw_fd wr' = sw_fd wr | _ => True end.
Proof.
  revert wr w. induction rows as [|x rows IH]; intros wr w; cbn [add_rows]; [done|].
  pose proof (add_fd E wr x.1 (value x.2) (tombstone x.2) (expires_at_ms x.2) w) as Hfd.
  cbv [mbind M_bind]. destruct (add _ _ _ _ _ _ w) as [[wr'|e|] w1]; cbn in *; try done.
  specialize (IH wr' w1). by case_match; rewrite ?IH.
Qed.

Lemma open_trunc_post E path w :
  match (open_trunc E path w).1 with
  | Ret (Some i) => creates path i w (open_trunc E path w).2
  | _ => same_files w (open_trunc E path w).2
  end /\ (tick w <= tick (open_trunc E path w).2)%nat.
Proof.
  unfold open_trunc, create_entry. destruct (answers E w) as [|[] ?]; cbn; try done;
    [|split; [apply same_files_tick|lia]..].
  destruct (dir w !! path) as [i|] eqn:Hd; cbn; (split; [|lia]).
  - constructor; cbn; auto; [by rewrite insert_id|]. intros j Hj. by rewrite lookup_insert_ne.
  - constructor; cbn; auto. intros j Hj. by rewrite !lookup_insert_ne by done.
Qed.

(** A program that opens a temporary file and then works within it. *)
Lemma sparing_writer {A} E T path bpk (k : SstableWriter -> M A) :
  path ∈ T -> (forall wr, within (sw_fd wr) (k wr)) ->
  sparing T (wr ← SstableWriter_open E path bpk; k wr).
Proof.
  intros Hp Hk w. unfold SstableWriter_open. cbv [mbind M_bind].
  pose proof (open_trunc_post E path w) as [Hw Ht].
  destruct (open_trunc E path w) as [[[i|]|e|] w1]; cbn in *; try by apply same_files_spares.
  match goal with |- context [k ?wr w1] => destruct (Hk wr w1) as [Hf Ht1]; cbn in Hf end.
  eapply (creates_spares _ path i); [done|by eapply creates_frame|lia].
Qed.

Lemma sparing_write_table E T path bpk rows : path ∈ T -> sparing T (write_table E path bpk rows).
Proof.
  intros Hp. apply sparing_writer; [done|]. intros wr.
  apply (within_bind _ _ _ (fun wr' => sw_fd wr' = sw_fd wr)).
  - apply add_rows_within.
  - intros w. apply add_rows_fd.
  - intros wr' <-. apply within_then; [apply finish_within|]. intros []. apply within_ret.
Qed.

(** Reading a cursor forward changes no file. *)
Definition reading {A} (m : M A) : Prop :=
  forall w, same_files w (m w).2 /\ (tick w <= tick (m w).2)%nat.

Lemma reading_within {A} fd (m : M A) : reading m -> within fd m.
Proof. intros H w. destruct (H w). split; [by apply same_files_frame|done]. Qed.

Lemma reading_bind {A B} (m : M A) (k : A -> M B) :
  reading m -> (forall a, reading (k a)) -> reading (m ≫= k).
Proof.
  intros Hm Hk w. cbv [mbind M_bind]. specialize (Hm w). destruct (m w) as [[a|e|] w1]; cbn in *; auto.
  destruct Hm as [Hs Ht], (Hk a w1) as [Hs1 Ht1]. split; [by etransitivity|lia].
Qed.

Lemma reading_ret {A} (a : A) : reading (mret a).
Proof. by intros w. Qed.

Lemma reading_checked {A} (o : option A) : reading (checked o).
Proof. by destruct o. Qed.

Lemma reading_ensure E t c need : reading (ensure E t c need).
Proof.
  unfold ensure. repeat case_match; try apply reading_ret. apply reading_bind.
  - intros w. unfold read_exact. case_match; cbn; [|done]. split; [apply same_files_tick|lia].
  - intros []; apply reading_ret.
Qed.

Lemma reading_load E t c : reading (load E t c).
Proof.
  unfold load. case_match; [apply reading_ret|].
  repeat first [apply reading_ret | apply reading_checked | apply reading_ensure
    | apply reading_bind; [|intros ?] | match goal with |- reading (match ?x with _ => _ end) => destruct x end].
Qed.

(** The writer a merge hands on has the descriptor it was given. *)
Definition out_fd (r : CompactionResult + merge_state) (fd : nat) : Prop :=
  match r with inl _ => True | inr s => sw_fd (ms_writer s) = fd end.

Lemma emit_within E drop now s head c :
  within (sw_fd (ms_writer s)) (emit E drop now s head c) /\
  forall w, match (emit E drop now s head c w).1 with
            | Ret (wr, _, _) => sw_fd wr = sw_fd (ms_writer s) | _ => True end.
Proof.
  unfold emit. case_match; [by split; [apply within_ret|]|].
  case_match; [by split; [apply within_ret|]|]. split.
  - apply within_then; [apply add_within|]. intros; apply within_ret.
  - intros w. cbv [mbind M_bind].
    pose proof (add_fd E (ms_writer s) (key_ c) (value_ c) (tombstone_ c) (expires_at_ms_ c) w) as Hfd.
    by destruct (add _ _ _ _ _ _ w) as [[wr|e|] w1].
Qed.

Lemma merge_loop_within E inputs drop now fuel : forall s,
  within (sw_fd (ms_writer s)) (merge_loop E inputs drop now fuel s) /\
  forall w, match (merge_loop E inputs drop now fuel s w).1 with
            | Ret r => out_fd r (sw_fd (ms_writer s)) | _ => True end.
Proof.
  induction fuel as [|fuel IH]; intros s; cbn [merge_loop]; [by split; [apply within_throw|]|].
  destruct (heap_pop (ms_heap s)) as [[head heap]|]; [|by split; [apply within_ret|]].
  destruct (ms_cursors s !! input head) as [c|]; [|by split; [apply within_throw|]].
  destruct (inputs !! input head) as [table|]; [|by split; [apply within_throw|]].
  destruct (emit_within E drop now s head c) as [Hw Hfd]. split.
  - apply (within_bind _ _ _ (fun x => sw_fd x.1.1 = sw_fd (ms_writer s))); [done| |].
    { intros w. specialize (Hfd w). by destruct (emit _ _ _ _ _ _ w) as [[[[wr ?] ?]|e|] ?]. }
    intros [[wr previous] r] <-. apply within_then; [apply reading_within, reading_load|].
    intros c'. case_match; [apply within_ret|].
    match goal with |- within _ (merge_loop _ _ _ _ _ ?s') => exact (proj1 (IH s')) end.
  - intros w. specialize (Hfd w). cbv [mbind M_bind].
    destruct (emit _ _ _ _ _ _ w) as [[[[wr previous] r]|e|] w1]; cbn in Hfd; try done.
    destruct (next E table c w1) as [[c'|e|] w2]; try done.
    destruct (failed_ c'); [done|]. rewrite <- Hfd.
    match goal with |- context [merge_loop _ _ _ _ _ ?s'] => exact (proj2 (IH s') w2) end.
Qed.

Lemma sparing_compact E T inputs drop now path bpk :
  path ∈ T -> sparing T (compact E inputs drop now path bpk).
Proof.
  intros Hp. unfold compact. apply sparing_bind; [apply sparing_open_cursors|]. intros cursors.
  destruct (fill_heap _ _ _) as [heap|]; [|apply sparing_ret].
  apply sparing_writer; [done|]. intros wr.
  destruct (merge_loop_within E inputs drop now (merge_fuel inputs)
              (mkMerge heap cursors wr None CompactionResult_init)) as [Hw Hfd].
  eapply within_bind; [exact Hw|exact Hfd|]. intros [r|s] Hs; [apply within_ret|].
  cbn in Hs. rewrite <- Hs. apply within_then; [apply finish_within|].
  intros [[] ?]; apply within_ret.
Qed.
#[export] Hint Resolve sparing_write_table sparing_compact : sparing.

(** ** The log object's own operations *)

(** The kernel has reported an error in an interaction before the [n]-th. *)
Definition kernel_failed (E : env) (n : nat) : Prop := exists t, (t < n)%nat /\ Fail ∈ answers_at E t.

Lemma kernel_failed_mono E n m : (n <= m)%nat -> kernel_failed E n -> kernel_failed E m.
Proof. intros Hn (t & Ht & Hf). exists t. split; [lia|done]. Qed.

Lemma kernel_failed_now E w w' : Fail ∈ answers E w -> (tick w < tick w')%nat -> kernel_failed E (tick w').
Proof. intros Hf Ht. by exists (tick w). Qed.

Section log_calls.
Context (E : env).

Lemma retry_eintr_false script : retry_eintr script = Some false -> Fail ∈ script.
Proof.
  induction script as [|[] script IH]; cbn; [done|done| |]; [intros ?%IH; by right|by left].
Qed.

Lemma write_loop_false script fd data w :
  (write_loop script fd data w).1 = Ret false -> Fail ∈ script.
Proof.
  revert data w. induction script as [|[] script IH]; intros [|c data] w; cbn [write_loop]; try done.
  - intros ?%IH. by right.
  - intros ?%IH. by right.
  - intros _. by left.
Qed.

Lemma sync_false wal w wal' w' :
  sync E wal w = (Ret (false, wal'), w') ->
  wal' = wal /\ same_files w w' /\ kernel_failed E (tick w').
Proof.
  unfold sync, fsync. cbv [mbind M_bind]. destruct (retry_eintr (answers E w)) as [[]|] eqn:Hr.
  - by intros [= <- _].
  - intros [= <- <-]. split; [done|]. split; [apply same_files_tick|].
    apply (kernel_failed_now _ w); [by apply retry_eintr_false|cbn; lia].
  - done.
Qed.

Lemma within_sync wal : within (Wal.fd_ wal) (sync E wal).
Proof.
  unfold sync. apply within_then; [apply within_fsync|]. intros []; [|apply within_ret].
  apply within_then; [|intros; apply within_ret]. apply reading_within. intros w.
  split; [apply same_files_tick|cbn; lia].
Qed.

Lemma within_commit_buf wal : within (Wal.fd_ wal) (commit_buf E wal).
Proof.
  unfold commit_buf. apply within_then; [apply within_write_all|]. intros []; [|apply within_ret].
  case_match; [|apply within_ret]. apply (within_sync (note_written wal)).
Qed.

Lemma within_now_ms fd : within fd (now_ms E).
Proof. apply reading_within. intros w. split; [apply same_files_tick|cbn; lia]. Qed.

Lemma within_steady_now fd : within fd (steady_now E).
Proof. apply reading_within. intros w. split; [apply same_files_tick|cbn; lia]. Qed.

Lemma within_ftruncate fd n : within fd (ftruncate E fd n).
Proof.
  intros w. unfold ftruncate, one_call. repeat case_match; cbn; (split; [|lia]); try reflexivity;
    try (apply same_files_frame, same_files_tick).
  etransitivity; [apply frame_set_ino|apply same_files_frame, same_files_tick].
Qed.

Lemma within_call c wal : within (Wal.fd_ wal) (call E c wal).
Proof.
  destruct c as [op k v e|ms| | |]; cbn [call].
  - unfold append. apply within_then; [apply within_now_ms|]. intros now.
    match goal with |- within _ (commit_buf E ?x) => apply (within_commit_buf x) end.
  - unfold append_batch. case_match; [apply within_ret|].
    apply within_then; [apply within_now_ms|]. intros now.
    match goal with |- within _ (commit_buf E ?x) => apply (within_commit_buf x) end.
  - apply within_sync.
  - unfold maybe_sync. repeat (case_match; [apply within_ret|]).
    apply within_then; [apply within_steady_now|]. intros now. case_match; [apply within_ret|apply within_sync].
  - unfold truncate. apply within_then; [apply within_ftruncate|]. intros []; [|apply within_ret].
    match goal with |- within _ (sync E ?x) => apply (within_sync x) end.
Qed.

(** The object keeps its identity through every call. *)
Lemma sync_same wal w b wal' w' : sync E wal w = (Ret (b, wal'), w') -> same_wal wal wal'.
Proof.
  unfold sync. cbv [mbind M_bind]. destruct (fsync _ _ w) as [[[]|e|] w1]; try done; by intros [= <- <- <-].
Qed.

Lemma commit_buf_same wal w b wal' w' : commit_buf E wal w = (Ret (b, wal'), w') -> same_wal wal wal'.
Proof.
  unfold commit_buf. cbv [mbind M_bind]. destruct (write_all _ _ _ w) as [[[]|e|] w1]; try done.
  - case_match; [by intros ?%sync_same|by intros [= <- <- <-]].
  - by intros [= <- <- <-].
Qed.

Lemma call_same c wal w b wal' w' : call E c wal w = (Ret (b, wal'), w') -> same_wal wal wal'.
Proof.
  destruct c as [op k v e|ms| | |]; cbn [call].
  - unfold append. cbv [mbind M_bind now_ms]. intros H%commit_buf_same. exact H.
  - unfold append_batch. destruct (decide _); [by intros [= <- <- <-]|]. cbv [mbind M_bind now_ms].
    intros H%commit_buf_same. exact H.
  - apply sync_same.
  - unfold maybe_sync. repeat (case_match; [by intros [= <- <- <-]|]). cbv [mbind M_bind steady_now].
    case_match; [by intros [= <- <- <-]|apply sync_same].
  - unfold truncate. cbv [mbind M_bind]. destruct (ftruncate _ _ _ w) as [[[]|e|] w1]; try done.
    + intros H%sync_same. exact H.
    + by intros [= <- <- <-].
Qed.

(** A call that reports failure was failed by the kernel, or changed nothing. *)
Lemma commit_buf_false wal w wal' w' :
  commit_buf E wal w = (Ret (false, wal'), w') -> kernel_failed E (tick w').
Proof.
  unfold commit_buf, write_all. cbv [mbind M_bind].
  pose proof (write_loop_tick (answers E w) (Wal.fd_ wal) (buf_ wal) w) as Ht.
  pose proof (write_loop_false (answers E w) (Wal.fd_ wal) (buf_ wal) w) as Hf.
  destruct (write_loop _ _ _ _) as [[[]|e|] w1]; cbn in *; try done.
  - case_match; [|done]. by intros (_ & _ & ?)%sync_false.
  - intros [= <- <-]. apply (kernel_failed_now _ w); [by apply Hf|cbn; lia].
Qed.

Lemma call_false c wal w wal' w' :
  call E c wal w = (Ret (false, wal'), w') ->
  kernel_failed E (tick w') \/ (wal' = wal /\ same_files w w').
Proof.
  destruct c as [op k v e|ms| | |]; cbn [call].
  - unfold append. cbv [mbind M_bind now_ms]. intros ?%commit_buf_false. by left.
  - unfold append_batch. destruct (decide _); [done|]. cbv [mbind M_bind now_ms].
    intros ?%commit_buf_false. by left.
  - intros (-> & ? & _)%sync_false. by right.
  - unfold maybe_sync. repeat (case_match; [done|]). cbv [mbind M_bind steady_now].
    case_match; [done|]. intros (_ & _ & ?)%sync_false. by left.
  - unfold truncate, ftruncate, one_call. cbv [mbind M_bind].
    destruct (answers E w) as [|[] ?]; try done.
    + intros (_ & _ & ?)%sync_false. by left.
    + intros [= <- <-]. right. split; [done|apply same_files_tick].
    + intros [= <- <-]. right. split; [done|apply same_files_tick].
Qed.

(** The count stays honest, or the kernel has failed. *)
Lemma call_count c wal w b wal' w' :
  call E c wal w = (Ret (b, wal'), w') -> sync_count prefix wal w ->
  sync_count prefix wal' w' \/ kernel_failed E (tick w').
Proof.
  intros Hcall Hsc. destruct b.
  - left. exact (wp_elim _ _ _ _ _ (sync_count_call prefix E c wal w Hsc) Hcall).
  - apply call_false in Hcall as [?|[-> Hw]]; [by right|left]. by apply (sync_count_same _ _ w).
Qed.

End log_calls.

(** ** The store *)

Definition log_inv (E : env) (st : Store) (w : world) : Prop :=
  match wal_ st with
  | None => True
  | Some wal => isolated (temps st) (Wal.fd_ wal) w /\ (sync_count prefix wal w \/ kernel_failed E (tick w))
  end.

Definition same_log (a b : option Wal) : Prop :=
  match a, b with
  | None, None => True
  | Some wal, Some wal' => same_wal wal wal'
  | _, _ => False
  end.

#[export] Instance same_log_preorder : PreOrder same_log.
Proof.
  split; [intros [wal|]; cbn; done|]. intros [a|] [b|] [c|]; cbn; try done. by transitivity b.
Qed.

(** From one state of the store to a later one. *)
Record log_rel (E : env) (x y : Store * world) : Prop := mkLogRel {
  lr_tick : (tick x.2 <= tick y.2)%nat;
  lr_options : options_ y.1 = options_ x.1;
  lr_log : same_log (wal_ x.1) (wal_ y.1);
  lr_inv : log_inv E x.1 x.2 -> log_inv E y.1 y.2
}.

#[export] Instance log_rel_preorder E : PreOrder (log_rel E).
Proof.
  split; [intros [st w]; by constructor|].
  intros x y z [T1 O1 L1 I1] [T2 O2 L2 I2]. constructor; [lia|congruence|by etransitivity|auto].
Qed.

(** Nothing of the log, of the options or of its file has changed. *)
Lemma log_rel_spares E st st' w w' :
  spares (temps st) w w' -> options_ st' = options_ st -> wal_ st' = wal_ st ->
  log_rel E (st, w) (st', w').
Proof.
  intros [Ht Hs] Ho Hw. constructor; cbn; [done|done|by rewrite Hw|].
  unfold log_inv, temps in *. rewrite Hw, Ho. destruct (wal_ st) as [wal|]; [|done].
  intros [Hi Hc]. destruct (Hs _ Hi) as (Hi' & Hcont & Hsy). split; [done|].
  destruct Hc as [(n & Hn & Hr & Hd & Hp)|Hc]; [left|right; by eapply kernel_failed_mono].
  exists n. split; [done|]. rewrite Hcont. split; [done|]. split; [|done].
  intros Hz. unfold synced_as. rewrite Hsy, Hcont. by apply Hd.
Qed.

(** A program that ends in a later state of the store, whatever it returns. *)
Definition logged {A} (E : env) (proj : A -> Store) (st : Store) (m : M A) : Prop :=
  forall w, (tick w <= tick (m w).2)%nat /\
    match (m w).1 with Ret a => log_rel E (st, w) (proj a, (m w).2) | _ => True end.

Lemma logged_ret {A} E (proj : A -> Store) st a :
  options_ (proj a) = options_ st -> wal_ (proj a) = wal_ st -> logged E proj st (mret a).
Proof. intros Ho Hw w. split; [done|]. by apply log_rel_spares. Qed.

Lemma logged_throw {A} E (proj : A -> Store) st e : logged E proj st (throw e).
Proof. by intros w. Qed.

Lemma logged_bind {A B} E (p : A -> Store) (q : B -> Store) st (m : M A) (k : A -> M B) :
  logged E p st m -> (forall a, logged E q (p a) (k a)) -> logged E q st (m ≫= k).
Proof.
  intros Hm Hk w. cbv [mbind M_bind]. specialize (Hm w).
  destruct (m w) as [[a|e|] w1]; cbn in *; destruct Hm as [Ht Hr]; try done.
  destruct (Hk a w1) as [Ht1 Hr1]. split; [lia|]. destruct (k a w1) as [[b|e|] w2]; try done.
  cbn in *. by etransitivity.
Qed.

(** Steps that leave the log alone do not move the store. *)
Lemma logged_spare {A B} E (q : B -> Store) st (m : M A) (k : A -> M B) :
  sparing (temps st) m -> (forall a, logged E q st (k a)) -> logged E q st (m ≫= k).
Proof.
  intros Hm Hk. apply (logged_bind E (fun _ => st)); [|done]. intros w. specialize (Hm w).
  split; [apply Hm|]. case_match; [|done..]. by apply log_rel_spares.
Qed.

(** The store may be replaced by one with the same log. *)
Lemma logged_from {A} E (q : A -> Store) st st' (m : M A) :
  options_ st' = options_ st -> wal_ st' = wal_ st -> logged E q st' m -> logged E q st m.
Proof.
  intros Ho Hw Hm w. destruct (Hm w) as [Ht Hr]. split; [done|]. case_match; [|done..].
  transitivity (st', w); [|done]. by apply log_rel_spares.
Qed.

(** Split binds and cases; the steps that spare the log are found by the hints. *)
Ltac logged_step :=
  match goal with
  | |- logged _ _ _ (mret _) => apply logged_ret; [done|done]
  | |- logged _ _ _ (throw _) => apply logged_throw
  | |- logged _ _ _ (match ?x with _ => _ end) => destruct x
  | |- logged _ _ ?st (_ ≫= _) => apply logged_spare; [solve [sparing]|intros ?]
  | |- forall _, _ => intros ?
  end.

Section store_ops.
Context (E : env).

Lemma sparing_expired T now stamp : sparing T (expired E now stamp).
Proof. unfold expired. sparing. Qed.
#[local] Hint Resolve sparing_expired : sparing.

Lemma sparing_lookup_tables T tables key now : sparing T (lookup_tables E tables key now).
Proof. revert now. induction tables as [|t tables IH]; intros now; cbn [lookup_tables]; sparing. Qed.
#[local] Hint Resolve sparing_lookup_tables : sparing.

Lemma sparing_lookup T st key : sparing T (lookup E st key).
Proof. unfold lookup. sparing. Qed.
#[local] Hint Resolve sparing_lookup : sparing.

Lemma sparing_store_get T st key : sparing T (get E st key).
Proof. unfold get. sparing. Qed.

Lemma sparing_mapM {A B} T (f : A -> M B) l : (forall a, sparing T (f a)) -> sparing T (mapM_ f l).
Proof. intros Hf. induction l; cbn [mapM_]; sparing. Qed.

(** A call of the log object, with the object put back into the store. *)
Lemma logged_call c st wal :
  wal_ st = Some wal ->
  logged E snd st ('(ok, wal) ← call E c wal; mret (ok, set_wal st (Some wal))).
Proof.
  intros Hw w. cbv [mbind M_bind]. destruct (within_call E c wal w) as [Hf Ht].
  destruct (call E c wal w) as [[[b wal']|e|] w'] eqn:Hc; cbn in *; [|done..].
  pose proof (call_same E _ _ _ _ _ _ Hc) as Hsame. pose proof Hsame as (Hfd & _).
  split; [done|]. constructor; cbn; [done|done|by rewrite Hw|].
  unfold log_inv. cbn [wal_ set_wal]. rewrite Hw, Hfd.
  intros [[Hlt Hp] Hsc]. destruct Hf as [Hd _ Hn _ _]. split.
  - split; [by rewrite Hn|]. by rewrite Hd.
  - destruct Hsc as [Hsc|Hk]; [by eapply call_count|right; by eapply kernel_failed_mono].
Qed.

Lemma logged_log_append st op key value e : logged E snd st (log_append E st op key value e).
Proof.
  unfold log_append. destruct (wal_ st) as [wal|] eqn:Hw; [|by apply logged_ret].
  by apply (logged_call (CAppend op key value e)).
Qed.

Lemma logged_log_truncate st : logged E snd st (log_truncate E st).
Proof.
  unfold log_truncate. destruct (wal_ st) as [wal|] eqn:Hw; [|by apply logged_ret].
  by apply (logged_call CTruncate).
Qed.

Lemma logged_publish st temp path sequence :
  temp ∈ temps st -> logged E snd st (publish E st temp path sequence).
Proof.
  intros Hp. unfold publish. apply logged_spare; [by apply sparing_rename|]. intros [].
  2: { apply logged_spare; [apply sparing_unlink|]. intros. by apply logged_ret. }
  apply logged_spare; [apply sparing_fsync_dir|]. intros []; [|by apply logged_ret]. cbn [negb].
  apply (logged_bind E snd); [apply logged_log_truncate|]. intros [[] st']; [|by apply logged_ret].
  cbn [negb snd]. apply logged_spare; [apply sparing_Sstable_open|]. intros. by apply logged_ret.
Qed.

Lemma logged_flush st : logged E snd st (flush E st).
Proof.
  unfold flush. repeat (case_match; [by apply logged_ret|]).
  assert (in_dir (o_dir (options_ st)) kFlushTemp ∈ temps st) as Hp by (by left).
  apply logged_spare; [by apply sparing_write_table|]. intros []; [by apply logged_publish|].
  apply logged_spare; [apply sparing_unlink|]. intros. by apply logged_ret.
Qed.

Lemma logged_maybe_flush st : logged E id st (maybe_flush E st).
Proof.
  unfold maybe_flush. repeat (case_match; [by apply logged_ret|]).
  apply (logged_bind E snd); [apply logged_flush|]. intros [b st']. by apply logged_ret.
Qed.

Lemma logged_set st key value e : logged E snd st (set E st key value e).
Proof.
  unfold set. apply (logged_bind E snd); [apply logged_log_append|]. intros [[] st']; [|by apply logged_ret].
  cbn [negb snd]. eapply logged_from; [| |apply (logged_bind E id); [apply logged_maybe_flush|]]; [done..|].
  intros. by apply logged_ret.
Qed.

Lemma logged_expire st key e : logged E snd st (expire E st key e).
Proof.
  unfold expire. apply logged_spare; [apply sparing_lookup|]. intros [f|]; [|by apply logged_ret].
  apply (logged_bind E snd); [apply logged_set|]. intros [[] st']; by apply logged_ret.
Qed.

Lemma logged_del st key : logged E snd st (del E st key).
Proof.
  unfold del. apply logged_spare; [apply sparing_store_get|]. intros v.
  apply (logged_bind E snd); [apply logged_log_append|]. intros [[] st']; [|by apply logged_ret].
  cbn [negb snd]. eapply logged_from; [| |apply (logged_bind E id); [apply logged_maybe_flush|]]; [done..|].
  intros. by apply logged_ret.
Qed.

Lemma logged_del_loop keys : forall st removed, logged E snd st (del_loop E st keys removed).
Proof.
  induction keys as [|key keys IH]; intros st removed; cbn [del_loop]; [by apply logged_ret|].
  apply logged_spare; [apply sparing_store_get|]. intros v. eapply logged_from; [| |apply IH]; done.
Qed.

Lemma logged_del_many st keys : logged E snd st (del_many E st keys).
Proof.
  unfold del_many. apply (logged_bind E snd).
  { destruct (wal_ st) as [wal|] eqn:Hw; [|by apply logged_ret]. by apply (logged_call (CBatch _)). }
  intros [[] st']; [|by apply logged_ret]. cbn [negb snd].
  apply (logged_bind E snd); [apply logged_del_loop|]. intros [removed st2].
  apply (logged_bind E id); [apply logged_maybe_flush|]. intros. by apply logged_ret.
Qed.

Lemma logged_sweep st budget : logged E snd st (sweep_expired E st budget).
Proof.
  unfold sweep_expired. apply logged_spare; [apply sparing_now_ms|]. intros now.
  destruct (Memtable.sweep_expired _ _ _). by apply logged_ret.
Qed.

Lemma logged_replace_run st b len paths temp merged :
  temp ∈ temps st -> logged E snd st (replace_run E st b len paths temp merged).
Proof.
  intros Hp. unfold replace_run. apply logged_spare; [by apply sparing_rename|]. intros [].
  2: { apply logged_spare; [apply sparing_unlink|]. intros. by apply logged_ret. }
  apply logged_spare; [apply sparing_fsync_dir|]. intros []; [|by apply logged_ret]. cbn [negb].
  apply logged_spare; [apply sparing_mapM, sparing_unlink|]. intros _.
  apply logged_spare; [apply sparing_fsync_dir|]. intros _.
  apply logged_spare; [sparing|]. intros ts. by apply logged_ret.
Qed.

Lemma logged_maybe_compact st : logged E snd st (maybe_compact E st).
Proof.
  unfold maybe_compact. repeat (case_match; [by apply logged_ret|]).
  apply logged_spare; [apply sparing_mapM; intros; apply sparing_file_size|]. intros sizes.
  destruct (find_run _ _ _) as [[b len]|]; [|by apply logged_ret].
  apply logged_spare; [apply sparing_now_ms|]. intros now.
  assert (in_dir (o_dir (options_ st)) kCompactTemp ∈ temps st) as Hp by (by right; left).
  apply logged_spare; [by apply sparing_compact|]. intros merged.
  case_match; [|by apply logged_replace_run].
  apply logged_spare; [apply sparing_unlink|]. intros. by apply logged_ret.
Qed.

Lemma logged_flush_all st : logged E snd st (flush_all E st).
Proof.
  unfold flush_all. apply logged_spare; [apply sparing_mapM, sparing_unlink|]. intros gone.
  apply logged_spare; [sparing|]. intros []; [|by apply logged_ret]. cbn [negb].
  eapply logged_from; [| |apply (logged_bind E snd); [apply logged_log_truncate|]]; [done..|].
  intros [[] st']; by apply logged_ret.
Qed.

End store_ops.

#[export] Hint Resolve sparing_expired sparing_lookup sparing_store_get sparing_mapM : sparing.

(** ** Commands and connections *)

Section commands.
Context (E : env) (kStartedMs : Z).

Lemma sparing_count_existing T st keys : forall n, sparing T (count_existing E st keys n).
Proof. induction keys as [|k keys IH]; intros n; cbn [count_existing]; sparing. Qed.

Lemma sparing_deadline T amount unit_ms : sparing T (deadline_from E amount unit_ms).
Proof. unfold deadline_from. sparing. Qed.

Lemma sparing_ttl T st key : sparing T (ttl E st key).
Proof. unfold ttl. sparing. Qed.
#[local] Hint Resolve sparing_count_existing sparing_deadline sparing_ttl : sparing.

Lemma logged_store_set st key value ex out ok : logged E fst st (store_set E st key value ex out ok).
Proof.
  unfold store_set. apply (logged_bind E snd); [apply logged_set|]. intros [[] st']; by apply logged_ret.
Qed.

Ltac logged_cmd := repeat first
  [ apply logged_store_set | logged_step
  | match goal with |- logged _ _ _ (reply _ _) => apply logged_ret; [done|done] end ].

Lemma logged_handler c st out name spec :
  find_spec (dispatch_table E kStartedMs) name = Some spec -> logged E fst st (handler spec c st out).
Proof.
  unfold dispatch_table. cbn [find_spec].
  repeat (case_decide; [intros [= <-]; cbn [handler]|]); [..|done].
  - unfold cmd_ping. logged_cmd.
  - unfold cmd_set. logged_cmd.
  - unfold cmd_get. logged_cmd.
  - unfold cmd_expire. destruct (parse_int64 (arg c 2)); [|logged_cmd].
    apply logged_spare; [sparing|]. intros [d|]; [|logged_cmd].
    apply (logged_bind E snd); [apply logged_expire|]. intros [r st']. cbn [snd]. logged_cmd.
  - unfold cmd_ttl. logged_cmd.
  - unfold cmd_incr. logged_cmd.
  - unfold cmd_flushall. apply (logged_bind E snd); [apply logged_flush_all|].
    intros [r st']. cbn [snd]. logged_cmd.
  - unfold cmd_info. logged_cmd.
  - unfold cmd_config. logged_cmd.
  - unfold cmd_del. case_decide; (apply (logged_bind E snd);
      [first [apply logged_del|apply logged_del_many]|]; intros [r st']; cbn [snd]; logged_cmd).
  - unfold cmd_exists. logged_cmd.
  - unfold cmd_command. logged_cmd.
Qed.

Lemma logged_execute cmd st out : logged E fst st (execute E kStartedMs cmd st out).
Proof.
  unfold execute. destruct (args cmd) as [|first rest]; [by apply logged_ret|].
  destruct (normalize_name first) as [name|]; [|by apply logged_ret].
  cbn [mbind option_bind]. destruct (find_spec _ name) as [spec|] eqn:Hs; [|by apply logged_ret].
  cbn [mbind option_bind]. case_match; [by apply logged_ret|]. by eapply logged_handler.
Qed.

(** The same for programs that may come to no store. *)
Definition logged_opt {A} (proj : A -> Store) (st : Store) (m : M (option A)) : Prop :=
  forall w, (tick w <= tick (m w).2)%nat /\
    match (m w).1 with Ret (Some a) => log_rel E (st, w) (proj a, (m w).2) | _ => True end.

Lemma logged_on_bytes_loop fuel input : forall p c0 st out,
  logged_opt lp_store st (on_bytes_loop E kStartedMs fuel input p c0 st out).
Proof.
  induction fuel as [|fuel IH]; intros p c0 st out w; cbn [on_bytes_loop]; [done|].
  destruct (parse p _) as [[[r p'] o]|]; [|done]. destruct (status r); [done| |done].
  pose proof (logged_execute (default (mkCommand []) o) st out w) as [Ht Hr]. cbv [mbind M_bind].
  destruct (execute _ _ _ _ _ w) as [[[st1 out1]|e|] w1]; cbn in *; [|done..].
  destruct (IH p' (c0 + consumed r)%nat st1 out1 w1) as [Ht1 Hr1]. split; [lia|].
  destruct (on_bytes_loop _ _ _ _ _ _ _ _ w1) as [[[l|]|e|] w2]; try done. cbn in *. by etransitivity.
Qed.

Lemma logged_on_bytes c bs st : logged_opt snd st (on_bytes E kStartedMs c bs st).
Proof.
  intros w. unfold on_bytes. case_match; [done|]. case_match; [done|].
  destruct (logged_on_bytes_loop (S (length (in_ c ++ bs))) (in_ c ++ bs) (parser_ c) 0 st (out_ c) w)
    as [Ht Hr]. cbv [mbind M_bind].
  by destruct (on_bytes_loop _ _ _ _ _ _ _ _ w) as [[[l|]|e|] w1].
Qed.

End commands.
