(* ===== verification/Session.v ===== *)
(** * What a client is owed

    The commands in the bytes a client has sent are a function of those bytes
    alone: [frames] cuts a stream into commands with the parser of [resp.cpp],
    whatever reads the bytes arrived in.  A connection fed in any number of pieces
    ([Connection::on_bytes]) has queued exactly one reply per command, each the one
    [execute] gave to that command, in the order of the stream, and one error more
    when the framing broke. *)

From stdpp Require Import gmap.
From S2P Require Import Prelude Decimal Resp SortedMap Memtable WalCodec Posix Wal Sstable Compaction Store Command Connection.

(** ** Cutting a stream into commands *)

Record framing := mkFraming {
  fr_cmds : list Command;
  fr_parser : RespParser;
  fr_consumed : nat;
  fr_broken : bool
}.

Definition fr_cons (c : Command) (fr : framing) : framing :=
  mkFraming (c :: fr_cmds fr) (fr_parser fr) (fr_consumed fr) (fr_broken fr).

(** The rounds of [on_bytes_loop], without running the commands. *)
Fixpoint frames (fuel : nat) (input : bytes) (p : RespParser) (consumed : nat) : framing :=
  match fuel with
  | O => mkFraming [] p consumed false
  | S fuel =>
      match parse p (drop consumed input) with
      | None => mkFraming [] p consumed false
      | Some (result, p, cmd) =>
          let consumed := (consumed + Resp.consumed result)%nat in
          match status result with
          | Complete => fr_cons (default (mkCommand []) cmd) (frames fuel input p consumed)
          | ProtocolError => mkFraming [] p consumed true
          | NeedMoreData => mkFraming [] p consumed false
          end
      end
  end.

(** A stream from its start. *)
Definition framed (rx : bytes) : framing := frames (S (length rx)) rx RespParser_init 0.

Definition fr_app (cs : list Command) (fr : framing) : framing :=
  mkFraming (cs ++ fr_cmds fr) (fr_parser fr) (fr_consumed fr) (fr_broken fr).

Lemma frames_fuel f1 f2 input p c0 :
  parser_wf p -> (c0 <= length input)%nat ->
  (length input - c0 < f1)%nat -> (length input - c0 < f2)%nat ->
  frames f1 input p c0 = frames f2 input p c0.
Proof.
  revert f2 p c0. induction f1 as [|f1 IH]; intros f2 p c0 Hwf Hc H1 H2; [lia|].
  destruct f2 as [|f2]; [lia|]. cbn [frames].
  destruct (parse_at p input c0 Hwf Hc) as (r & p' & o & -> & Hwf' & Hcmd & Hle & Hadv).
  destruct (status r); [done| |done]. specialize (Hadv eq_refl). f_equal.
  apply IH; [done|lia|lia|lia].
Qed.

(** The parser stays in order and inside the stream. *)
Lemma frames_wf f input p c0 :
  parser_wf p -> (c0 <= length input)%nat ->
  parser_wf (fr_parser (frames f input p c0)) /\
  (c0 <= fr_consumed (frames f input p c0) <= length input)%nat.
Proof.
  revert p c0. induction f as [|f IH]; intros p c0 Hwf Hc; cbn [frames]; [split; [done|cbn; lia]|].
  destruct (parse_at p input c0 Hwf Hc) as (r & p' & o & -> & Hwf' & Hcmd & Hle & Hadv).
  destruct (status r); cbn; [split; [done|lia]| |split; [done|lia]].
  destruct (IH p' (c0 + consumed r)%nat Hwf' Hle) as [? ?]. split; [done|lia].
Qed.

(** More bytes: the commands of the first part, and then those of the rest, from
    where the first part left the parser. *)
Lemma frames_app f g h a b p c0 :
  parser_wf p -> (c0 <= length a)%nat ->
  (length a - c0 < f)%nat -> (length (a ++ b) - c0 < g)%nat ->
  (length (a ++ b) - fr_consumed (frames f a p c0) < h)%nat ->
  fr_broken (frames f a p c0) = false ->
  frames g (a ++ b) p c0 =
    fr_app (fr_cmds (frames f a p c0))
      (frames h (a ++ b) (fr_parser (frames f a p c0)) (fr_consumed (frames f a p c0))).
Proof.
  revert g p c0. induction f as [|f IH]; intros g p c0 Hwf Hc Hf Hg; [lia|].
  destruct g as [|g]; [lia|]. cbn [frames].
  destruct (parse_at p a c0 Hwf Hc) as (r & p' & o & Hp & Hwf' & Hcmd & Hle & Hadv).
  destruct (parse_error_line _ _ _ _ _ Hp) as [_ Herr].
  rewrite Hp, drop_app_le by done. destruct (status r) eqn:Hs.
  - cbn [fr_cmds fr_parser fr_consumed fr_broken]. intros Hh _.
    destruct h as [|h]; [lia|]. cbn [frames].
    destruct (parse_resume_gen _ _ b _ _ _ Hp Hs) as [_ ->].
    rewrite drop_drop, Nat.add_comm, drop_app_le by lia.
    destruct (parse_is_Some p' (drop (consumed r + c0) a ++ b)) as [[[r2 p2] o2] Hp2].
    assert ((c0 + consumed r + consumed r2 <= length (a ++ b))%nat /\ parser_wf p2 /\
      (status r2 = Complete -> (0 < consumed r2)%nat)) as (Hle2 & Hwf2 & Hadv2).
    { destruct (parse_at p' (a ++ b) (c0 + consumed r)) as (r3 & p3 & o3 & Hp3 & H1 & _ & H2 & H3);
        [done|rewrite length_app; lia|].
      rewrite drop_app_le, Nat.add_comm in Hp3 by lia. rewrite Hp2 in Hp3. by injection Hp3 as <- <- <-. }
    rewrite Hp2. cbn [fmap option_fmap option_map shift_result status consumed error].
    rewrite Nat.add_assoc, (Nat.add_comm c0). destruct (status r2); [done| |done].
    specialize (Hadv2 eq_refl).
    rewrite (frames_fuel g h) by (done || lia). done.
  - specialize (Hadv eq_refl). rewrite (parse_stable_gen _ _ b _ _ _ Hp) by
      (rewrite ?Hs, ?Herr by congruence; done). rewrite Hs.
    cbn [fr_cons fr_cmds fr_parser fr_consumed fr_broken]. intros Hh Hb.
    rewrite (IH g) by (rewrite ?length_app in *; (done || lia)). done.
  - done.
Qed.

Definition fr_shift (n : nat) (fr : framing) : framing :=
  mkFraming (fr_cmds fr) (fr_parser fr) (n + fr_consumed fr) (fr_broken fr).

Lemma frames_shift f input p n c0 : frames f input p (n + c0) = fr_shift n (frames f (drop n input) p c0).
Proof.
  revert p c0. induction f as [|f IH]; intros p c0; cbn [frames]; [done|]. rewrite drop_drop.
  destruct (parse p _) as [[[r p'] o]|]; [|done]. rewrite <- Nat.add_assoc.
  destruct (status r); [done| |done]. by rewrite IH.
Qed.

(** ** The loop of a connection, read as framing and execution *)

Section owed.
Context (E : env) (kStartedMs : Z).

(** [r] is a reply [execute] gave to [cmd]. *)
Definition answered (cmd : Command) (r : resp_reply) : Prop :=
  reply_ok r /\
  exists st out w st' w', execute E kStartedMs cmd st out w = (Ret (st', out ++ encode_reply r), w').

(** The replies [ok] allows the commands, and one error when the framing broke. *)
Definition owed_by (ok : list Command -> list resp_reply -> Prop) (cmds : list Command) (broken : bool)
    (replies : list resp_reply) : Prop :=
  exists rs tail, replies = rs ++ tail /\ ok cmds rs /\
    (if broken then exists m, is_single_line m = true /\ tail = [RError m] else tail = []).

(** One reply per command, in order. *)
Definition owed : list Command -> bool -> list resp_reply -> Prop := owed_by (Forall2 answered).

(** What two rules allow one after the other. *)
Definition then_ok (ok1 ok2 : list Command -> list resp_reply -> Prop) (cmds : list Command)
    (rs : list resp_reply) : Prop :=
  exists c1 c2 r1 r2, cmds = c1 ++ c2 /\ rs = r1 ++ r2 /\ ok1 c1 r1 /\ ok2 c2 r2.

Lemma then_answered cmds rs : then_ok (Forall2 answered) (Forall2 answered) cmds rs -> Forall2 answered cmds rs.
Proof. intros (c1 & c2 & r1 & r2 & -> & -> & H1 & H2). by apply Forall2_app. Qed.

Definition encode_all (replies : list resp_reply) : bytes := concat (encode_reply <$> replies).

Lemma encode_all_app a b : encode_all (a ++ b) = encode_all a ++ encode_all b.
Proof. unfold encode_all. by rewrite fmap_app, concat_app. Qed.

Lemma owed_cons cmd cmds broken r rs :
  answered cmd r -> owed cmds broken rs -> owed (cmd :: cmds) broken (r :: rs).
Proof. intros Hr (rs0 & tail & -> & Hf & Ht). exists (r :: rs0), tail. split; [done|]. by split; [constructor|]. Qed.

Lemma owed_app ok1 ok2 cmds1 cmds2 broken rs1 rs2 :
  owed_by ok1 cmds1 false rs1 -> owed_by ok2 cmds2 broken rs2 ->
  owed_by (then_ok ok1 ok2) (cmds1 ++ cmds2) broken (rs1 ++ rs2).
Proof.
  intros (a & ta & -> & Ha & ->) (b & tb & -> & Hb & Ht). exists (a ++ b), tb.
  rewrite app_nil_r, app_assoc. split; [done|]. split; [|done]. by exists cmds1, cmds2, a, b.
Qed.

Lemma loop_frames f input p c0 st out w l w' :
  parser_wf p -> (c0 <= length input)%nat ->
  on_bytes_loop E kStartedMs f input p c0 st out w = (Ret (Some l), w') ->
  let fr := frames f input p c0 in
  lp_parser l = fr_parser fr /\ lp_consumed l = fr_consumed fr /\ lp_closing l = fr_broken fr /\
  exists replies, owed (fr_cmds fr) (fr_broken fr) replies /\ lp_out l = out ++ encode_all replies.
Proof.
  revert p c0 st out w. induction f as [|f IH]; intros p c0 st out w Hwf Hc; cbn [on_bytes_loop frames]; [done|].
  destruct (parse_at p input c0 Hwf Hc) as (r & p' & o & Hp & Hwf' & Hcmd & Hle & Hadv).
  rewrite Hp. destruct (status r) eqn:Hs.
  - intros [= <- <-]. cbn. split_and!; try done. exists []. split; [by exists [], []|]. by rewrite app_nil_r.
  - destruct (Hcmd eq_refl) as (c & -> & Hne). cbn [default]. cbv [mbind M_bind].
    pose proof (wp_execute_one_reply E kStartedMs c st out w Hne) as Hx. unfold wp in Hx.
    destruct (execute _ _ _ _ _ w) as [[[st1 out1]|e|] w1] eqn:He; [|done|done].
    cbn in Hx. destruct Hx as (x & Hx & ->). intros H.
    destruct (IH p' (c0 + consumed r)%nat st1 _ w1 Hwf' Hle H) as (H1 & H2 & H3 & replies & Ho & Hout).
    split_and!; try done. exists (x :: replies). split.
    + apply owed_cons; [|done]. split; [done|]. by eexists _, _, _, _, _.
    + by rewrite Hout, <- app_assoc.
  - intros [= <- <-]. cbn. split_and!; try done.
    exists [RError (lit "ERR " ++ error r)]. split.
    + exists [], [RError (lit "ERR " ++ error r)]. split; [done|]. split; [constructor|].
      eexists. split; [|done]. by rewrite is_single_line_app, (proj1 (parse_error_line _ _ _ _ _ Hp)).
    + unfold encode_all. cbn. by rewrite app_nil_r.
Qed.

(** ** A connection over its whole life

    [rx] is everything read from the socket so far and [tx] everything written to
    it.  While the connection is open all of [rx] has been framed; once it is
    closing, what was framed is a prefix. *)
Definition session_by (ok : list Command -> list resp_reply -> Prop) (rx tx : bytes) (c : Connection) : Prop :=
  conn_wf c /\
  exists fed replies, fed `prefix_of` rx /\
    owed_by ok (fr_cmds (framed fed)) (closing_ c) replies /\
    tx ++ pending_output c = encode_all replies /\
    (closing_ c = false ->
       fed = rx /\ fr_broken (framed rx) = false /\ parser_ c = fr_parser (framed rx) /\
       in_ c = drop (fr_consumed (framed rx)) rx).

Definition session : bytes -> bytes -> Connection -> Prop := session_by (Forall2 answered).

Lemma session_init ok n : ok [] [] -> session_by ok [] [] (Connection_init n).
Proof.
  intros Hok. split; [apply init_conn_wf|]. exists [], []. split; [done|].
  split; [by exists [], []|]. by split.
Qed.

Lemma session_mono (ok ok' : list Command -> list resp_reply -> Prop) rx tx c :
  (forall cs rs, ok cs rs -> ok' cs rs) -> session_by ok rx tx c -> session_by ok' rx tx c.
Proof.
  intros H (Hwf & fed & replies & Hpre & (rs & tail & Hrs & Hok & Ht) & Hrest).
  split; [done|]. exists fed, replies. split; [done|]. split; [|done]. exists rs, tail. auto.
Qed.

Lemma framed_wf rx :
  parser_wf (fr_parser (framed rx)) /\ (fr_consumed (framed rx) <= length rx)%nat.
Proof. destruct (frames_wf (S (length rx)) rx RespParser_init 0) as [? ?]; [done|lia|]. split; [done|unfold framed; lia]. Qed.

(** The stream one piece longer, framed from what the connection holds. *)
Lemma framed_app rx data :
  fr_broken (framed rx) = false ->
  framed (rx ++ data) =
    fr_app (fr_cmds (framed rx))
      (fr_shift (fr_consumed (framed rx))
         (frames (S (length (drop (fr_consumed (framed rx)) rx ++ data)))
            (drop (fr_consumed (framed rx)) rx ++ data) (fr_parser (framed rx)) 0)).
Proof.
  intros Hb. destruct (framed_wf rx) as [Hwf Hle]. unfold framed at 1.
  rewrite (frames_app (S (length rx)) (S (length (rx ++ data))) (S (length (rx ++ data))) rx data RespParser_init 0) by (done || lia).
  fold (framed rx). f_equal.
  pose proof (frames_shift (S (length (rx ++ data))) (rx ++ data) (fr_parser (framed rx))
    (fr_consumed (framed rx)) 0) as Hsh. rewrite Nat.add_0_r in Hsh.
  rewrite Hsh, drop_app_le by done.
  rewrite (frames_fuel (S (length (rx ++ data))) (S (length (drop (fr_consumed (framed rx)) rx ++ data))));
    try done; try lia; rewrite ?length_app, ?length_drop; lia.
Qed.

(** Bytes that are not looked at. *)
Definition refused (c : Connection) (data : bytes) : bool :=
  closing_ c || (max_read_buffer_ c <? zlen (in_ c) + zlen data).

(** The commands a piece of input completes. *)
Definition completed (c : Connection) (data : bytes) : framing :=
  frames (S (length (in_ c ++ data))) (in_ c ++ data) (parser_ c) 0.

(** What the loop of [on_bytes] must do for the session to go on under [ok2]. *)
Definition fed_ok (ok2 : list Command -> list resp_reply -> Prop) (c : Connection) (data : bytes) (st : Store)
    (w : world) : Prop :=
  if refused c data then ok2 [] []
  else forall l w1,
    on_bytes_loop E kStartedMs (S (length (in_ c ++ data))) (in_ c ++ data) (parser_ c) 0 st (out_ c) w =
      (Ret (Some l), w1) ->
    exists rs, owed_by ok2 (fr_cmds (completed c data)) (fr_broken (completed c data)) rs /\
      lp_out l = out_ c ++ encode_all rs.

Lemma session_fed_by ok ok2 rx tx c data st w b c' st' w' :
  session_by ok rx tx c -> on_bytes E kStartedMs c data st w = (Ret (Some (b, c', st')), w') ->
  fed_ok ok2 c data st w -> session_by (then_ok ok ok2) (rx ++ data) tx c'.
Proof.
  intros (Hwf & fed & replies & Hpre & Howed & Hout & Hopen) Hrun Hfed.
  destruct (on_bytes_post E kStartedMs c data st w w' _ Hwf Hrun)
    as (? & ? & ? & [= <- <- <-] & Hwf' & _ & _ & _ & replies' & Hok' & Hout').
  split; [done|]. unfold on_bytes in Hrun. unfold fed_ok, refused in Hfed. destruct (closing_ c) eqn:Hcl.
  { injection Hrun as <- <- <- <-. exists fed, replies. rewrite Hcl.
    split; [by apply prefix_app_r|]. split; [|done]. destruct Howed as (rs & tail & Hr & Hrs & Ht).
    exists rs, tail. split; [done|]. split; [|done]. cbn in Hfed.
    exists (fr_cmds (framed fed)), [], rs, []. by rewrite !app_nil_r. }
  destruct (Hopen eq_refl) as (-> & Hbroken & Hparser & Hin). cbn [orb] in Hfed.
  destruct (max_read_buffer_ c <? _).
  { injection Hrun as <- <- <- <-. cbn [closing_]. set (m := lit "ERR Protocol error: request too large").
    exists rx, (replies ++ [RError m]). split; [by apply prefix_app_r|]. split.
    { destruct Howed as (rs & tail & -> & Hrs & ->). rewrite app_nil_r. exists rs, [RError m].
      split; [done|]. split; [|by exists m]. exists (fr_cmds (framed rx)), [], rs, []. by rewrite !app_nil_r. }
    split; [|done]. rewrite encode_all_app, <- Hout, <- app_assoc. f_equal.
    unfold pending_output. cbn [out_ out_pos_].
    change (append_error (out_ c) m) with (out_ c ++ encode_reply (RError m)).
    rewrite drop_app_le by (destruct Hwf as [_ Hp]; unfold zlen in Hp; lia).
    unfold encode_all. cbn [fmap list_fmap concat]. by rewrite app_nil_r. }
  revert Hrun. cbv [mbind M_bind].
  destruct (on_bytes_loop _ _ _ _ _ _ _ _ w) as [[[l|]|e|] w1] eqn:Hloop; [|done..].
  intros [= <- <- <- <-]. destruct Hwf as [Hpwf Hpos]. destruct (Hfed l w1 eq_refl) as (rs & Hrs & Hlout).
  apply loop_frames in Hloop as (H1 & H2 & H3 & _); [|done|lia].
  pose proof (framed_app rx data Hbroken) as Hfr. rewrite <- Hparser, <- Hin in Hfr.
  fold (completed c data) in *. set (fr := completed c data) in *.
  exists (rx ++ data), (replies ++ rs). split; [done|]. cbn [closing_]. rewrite Hfr, H3.
  cbn [fr_app fr_shift fr_cmds fr_broken fr_parser fr_consumed]. split; [by apply owed_app|]. split.
  - rewrite encode_all_app, <- Hout, <- app_assoc. f_equal. unfold pending_output. cbn [out_ out_pos_].
    rewrite Hlout, drop_app_le; [done|]. unfold zlen in Hpos. lia.
  - intros Hb. split_and!; try done. cbn [in_].
    rewrite H2, <- drop_drop, (drop_app_le _ rx), <- Hin by apply framed_wf. done.
Qed.

(** Whatever the kernel does, the replies are those [execute] gave. *)
Lemma fed_answered c data st w : conn_wf c -> fed_ok (Forall2 answered) c data st w.
Proof.
  intros [Hwf _]. unfold fed_ok. destruct (refused c data); [constructor|]. intros l w1 Hloop.
  apply loop_frames in Hloop as (_ & _ & _ & rs & Hrs); [|done|lia]. by exists rs.
Qed.

Lemma session_sent ok rx tx c n :
  session_by ok rx tx c -> (n <= length (pending_output c))%nat ->
  session_by ok rx (tx ++ take n (pending_output c)) (consume_output c (Z.of_nat n)).
Proof.
  intros (Hwf & fed & replies & Hpre & Howed & Hout & Hopen) Hn.
  destruct (consume_output_post c (Z.of_nat n) Hwf) as (Hp & Hwf' & _); [unfold zlen; lia|].
  assert (closing_ (consume_output c (Z.of_nat n)) = closing_ c /\
          parser_ (consume_output c (Z.of_nat n)) = parser_ c /\
          in_ (consume_output c (Z.of_nat n)) = in_ c) as (Hc & Hps & Hi)
    by (unfold consume_output; repeat case_match; done).
  split; [done|]. exists fed, replies. rewrite Hc, Hp, Hps, Hi, Nat2Z.id, <- app_assoc, take_drop. auto.
Qed.

End owed.
