(* ===== verification/Server.v ===== *)
(** * The event loop ([server.h], [server.cpp])

    [class Server]: a listening socket, an epoll instance and the connections, over
    the store and its log.  The kernel's side of the sockets is not code of the
    repository, so it is a parameter: a [net] gives, for the [n]-th interaction of
    the loop with it, the readiness it reports and the answers it gives to the
    calls of that interaction (a loop that retries may need several; one whose
    answers run out never returns, because the process was killed there).

    The state of a run is the object, the files, the number of interactions so far
    and a trace of what went over the sockets.  A byte sent is recorded with the
    files as they were at that moment, so that "no reply leaves before the fsync"
    is a property of the trace; so are the files each turn's [maybe_compact] starts
    from, and those an input the process died in was read to.  The answers to
    [EPOLL_CTL_MOD] are in it too.  The trace is for the theorems only: the program does
    not read it. *)

From stdpp Require Import gmap.
From S2P Require Import Prelude Resp SortedMap Memtable WalCodec Posix Wal Sstable Compaction Store Command Connection LogGuard.

(** ** Constants *)

Definition kMaxEvents : nat := 256.
Definition kReadChunk : nat := Z.to_nat (16 * 1024).
Definition kTickMs : Z := 100.
Definition kSweepBudget : nat := 100.

(** [<sys/epoll.h>] and [<netinet/in.h>]. *)
Definition EPOLLIN : Z := 1.
Definition EPOLLOUT : Z := 4.
Definition EPOLLERR : Z := 8.
Definition EPOLLHUP : Z := 16.
Definition INADDR_LOOPBACK : Z := 2130706433.

(** The values of [errno] the loop tells apart. *)
Inductive errno := EINTR | EAGAIN | ECONNABORTED | EOTHER.

(** ** The kernel's side *)

Record net := mkNet {
  shutdown_at : nat -> bool;                   (** [g_shutdown], when it is looked at *)
  epoll_at : nat -> errno + list (Z * Z);      (** [epoll_wait]: descriptors and events *)
  accept_at : nat -> list (errno + Z * bool);  (** [accept4], and whether [EPOLL_CTL_ADD] succeeds *)
  read_at : nat -> list (errno + bytes);       (** [read]: no bytes is the end of the stream *)
  send_at : nat -> list (errno + nat);         (** [send]: how many bytes it takes *)
  ctl_at : nat -> bool;                        (** [EPOLL_CTL_MOD] succeeds *)
  setup_at : nat -> errno + Z                  (** the calls of the constructor *)
}.

(** ** The object and the run *)

Record ConnState := mkConnState { conn : Connection; interest : Z }.

(** [conns_] is keyed by the descriptor each [ConnState] owns; the log the object
    borrows is the one the store writes to ([main.cpp:158] attaches it before the
    server is built). *)
Record Server := mkServer {
  store_ : Store;
  epoll_ : Z;
  listener_ : Z;
  conns_ : gmap Z ConnState
}.

Inductive event :=
  | Listening (addr port : Z)
  | Accepted (fd : Z)
  | Received (fd : Z) (data : bytes)
  | Interrupted (fd : Z) (data : bytes) (at_ : world)
  | Sent (fd : Z) (data : bytes) (at_ : world)
  | Watched (fd : Z) (mask : Z) (granted : bool)
  | Closed (fd : Z)
  | Merging (at_ : world).

Record sys := mkSys {
  srv : Server;
  files : world;
  calls : nat;
  trace : list event
}.

Definition SM (A : Type) : Type := sys -> res A * sys.

#[export] Instance SM_ret : MRet SM := fun A a σ => (Ret a, σ).
#[export] Instance SM_bind : MBind SM := fun A B k m σ =>
  match m σ with
  | (Ret a, σ') => k a σ'
  | (Throw e, σ') => (Throw e, σ')
  | (Dead, σ') => (Dead, σ')
  end.

Definition sthrow {A} (what : bytes) : SM A := fun σ => (Throw what, σ).
Definition sdead {A} : SM A := fun σ => (Dead, σ).

(** *** Access to the state *)

Definition server : SM Server := fun σ => (Ret (srv σ), σ).
Definition put_server (s : Server) : SM unit := fun σ =>
  (Ret tt, mkSys s (files σ) (calls σ) (trace σ)).
Definition next_call : SM nat := fun σ =>
  (Ret (calls σ), mkSys (srv σ) (files σ) (S (calls σ)) (trace σ)).
Definition log (e : world -> event) : SM unit := fun σ =>
  (Ret tt, mkSys (srv σ) (files σ) (calls σ) (trace σ ++ [e (files σ)])).

Definition set_store (s : Server) (st : Store) : Server :=
  mkServer st (epoll_ s) (listener_ s) (conns_ s).
Definition set_conns (s : Server) (cs : gmap Z ConnState) : Server :=
  mkServer (store_ s) (epoll_ s) (listener_ s) cs.
Definition put_conn (fd : Z) (c : ConnState) : SM unit :=
  s ← server; put_server (set_conns s (<[fd := c]> (conns_ s))).

(** A call of the store, and one of the log. *)
Definition on_store {A} (f : Store -> M (A * Store)) : SM A := fun σ =>
  match f (store_ (srv σ)) (files σ) with
  | (Ret (a, st), w) => (Ret a, mkSys (set_store (srv σ) st) w (calls σ) (trace σ))
  | (Throw e, w) => (Throw e, mkSys (srv σ) w (calls σ) (trace σ))
  | (Dead, w) => (Dead, mkSys (srv σ) w (calls σ) (trace σ))
  end.

Definition on_wal (f : Wal -> M (bool * Wal)) : SM bool :=
  on_store (fun st =>
    match wal_ st with
    | None => mret (true, st)
    | Some wal => '(ok, wal) ← f wal; mret (ok, set_wal st (Some wal))
    end).

Section server.
Context (E : env) (N : net) (kStartedMs : Z).

(** ** The constructor

    It runs on an object whose descriptors are not open yet (-1). *)

Definition setup (what : bytes) : SM Z :=
  n ← next_call;
  match setup_at N n with
  | inl _ => sthrow what
  | inr v => if v <? 0 then sthrow what else mret v
  end.

Definition Server_open (port : Z) : SM unit :=
  fd ← setup (lit "socket");
  s ← server;
  _ ← put_server (mkServer (store_ s) (epoll_ s) fd (conns_ s));
  _ ← setup (lit "setsockopt(SO_REUSEADDR)");
  _ ← setup (lit "bind");
  _ ← setup (lit "listen");
  _ ← log (fun _ => Listening INADDR_LOOPBACK port);
  fd ← setup (lit "epoll_create1");
  s ← server;
  _ ← put_server (mkServer (store_ s) fd (listener_ s) (conns_ s));
  _ ← setup (lit "epoll_ctl(listener)");
  mret tt.

(** ** Connections *)

(** Erasing the entry closes the descriptor, which leaves the epoll set. *)
Definition close_connection (fd : Z) : SM unit :=
  s ← server;
  _ ← put_server (set_conns s (delete fd (conns_ s)));
  log (fun _ => Closed fd).

(** [conns_.emplace(...)]: an entry that is there stays. *)
Definition emplace (fd : Z) : SM unit :=
  s ← server;
  match conns_ s !! fd with
  | Some _ => mret tt
  | None =>
      _ ← put_server (set_conns s (<[fd := mkConnState (Connection_init kMaxReadBuffer) EPOLLIN]> (conns_ s)));
      log (fun _ => Accepted fd)
  end.

Fixpoint accept_loop (script : list (errno + Z * bool)) : SM unit :=
  match script with
  | [] => sdead
  | inl EINTR :: script => accept_loop script
  | inl ECONNABORTED :: script => accept_loop script
  | inl EAGAIN :: _ => mret tt
  | inl EOTHER :: _ => mret tt
  | inr (raw, registered) :: script =>
      if registered : bool then _ ← emplace raw; accept_loop script
      else accept_loop script
  end.

Definition accept_ready : SM unit :=
  n ← next_call;
  accept_loop (accept_at N n).

(** [state.conn.on_bytes(bytes, store_)].  [on_bytes] always comes to a result, so
    its [None] is never taken ([on_bytes_correct]).  An input it does not return from, by
    an exception or with the process, is noted with the files it began on. *)
Definition feed (fd : Z) (state : ConnState) (data : bytes) : SM unit := fun σ =>
  let cut := trace σ ++ [Interrupted fd data (files σ)] in
  match on_bytes E kStartedMs (conn state) data (store_ (srv σ)) (files σ) with
  | (Ret (Some (_, c, st)), w) =>
      put_conn fd (mkConnState c (interest state))
        (mkSys (set_store (srv σ) st) w (calls σ) (trace σ ++ [Received fd data]))
  | (Ret None, w) => (Throw (lit "unreachable"), mkSys (srv σ) w (calls σ) cut)
  | (Throw e, w) => (Throw e, mkSys (srv σ) w (calls σ) cut)
  | (Dead, w) => (Dead, mkSys (srv σ) w (calls σ) cut)
  end.

Fixpoint read_loop (script : list (errno + bytes)) (fd : Z) (state : ConnState) : SM bool :=
  match script with
  | [] => sdead
  | inr [] :: _ => mret false
  | inr data :: _ => _ ← feed fd state (take kReadChunk data); mret true
  | inl EINTR :: script => read_loop script fd state
  | inl EAGAIN :: _ => mret true
  | inl _ :: _ => mret false
  end.

Definition read_available (fd : Z) (state : ConnState) : SM bool :=
  n ← next_call;
  read_loop (read_at N n) fd state.

(** Reads and executes, but does not write. *)
Definition service (fd : Z) (events : Z) : SM bool :=
  s ← server;
  match conns_ s !! fd with
  | None => mret false
  | Some state =>
      if negb (Z.land events (Z.lor EPOLLERR EPOLLHUP) =? 0) then
        _ ← close_connection fd; mret false
      else if negb (Z.land events EPOLLIN =? 0) then
        ok ← read_available fd state;
        if ok : bool then mret true
        else _ ← close_connection fd; mret false
      else mret true
  end.

(** A [send] takes no more than it is given. *)
Fixpoint send_loop (script : list (errno + nat)) (fd : Z) (state : ConnState) : SM (bool * ConnState) :=
  if negb (has_pending_output (conn state)) then mret (true, state)
  else
    match script with
    | [] => sdead
    | inr n :: script =>
        let out := pending_output (conn state) in
        match Nat.min n (length out) with
        | O => mret (false, state)
        | S _ as n =>
            _ ← log (Sent fd (take n out));
            let state := mkConnState (consume_output (conn state) (Z.of_nat n)) (interest state) in
            _ ← put_conn fd state;
            send_loop script fd state
        end
    | inl EINTR :: script => send_loop script fd state
    | inl EAGAIN :: _ => mret (true, state)
    | inl _ :: _ => mret (false, state)
    end.

Definition write_pending (fd : Z) (state : ConnState) : SM (bool * ConnState) :=
  n ← next_call;
  send_loop (send_at N n) fd state.

Definition wanted (c : Connection) : Z :=
  Z.lor EPOLLIN (if has_pending_output c then EPOLLOUT else 0).

Definition update_interest (fd : Z) (state : ConnState) : SM unit :=
  let want := wanted (conn state) in
  if want =? interest state then mret tt
  else
    n ← next_call;
    _ ← log (fun _ => Watched fd want (ctl_at N n));
    if ctl_at N n then put_conn fd (mkConnState (conn state) want) else mret tt.

(** The other half, run after the fsync. *)
Definition release (fd : Z) : SM unit :=
  s ← server;
  match conns_ s !! fd with
  | None => mret tt
  | Some state =>
      '(ok, state) ← (if has_pending_output (conn state) then write_pending fd state
                      else mret (true, state));
      if negb ok then close_connection fd
      else if should_close (conn state) then close_connection fd
      else update_interest fd state
  end.

(** ** The loop *)

Fixpoint handle_events (events : list (Z * Z)) (touched : list Z) : SM (list Z) :=
  match events with
  | [] => mret touched
  | (fd, mask) :: events =>
      s ← server;
      if fd =? listener_ s then
        _ ← accept_ready; handle_events events touched
      else
        served ← service fd mask;
        handle_events events (if served : bool then touched ++ [fd] else touched)
  end.

Fixpoint release_all (touched : list Z) : SM unit :=
  match touched with
  | [] => mret tt
  | fd :: touched => _ ← release fd; release_all touched
  end.

(** [wal_.needs_sync() && !wal_.sync()], negated. *)
Definition commit : SM bool :=
  on_wal (fun wal => if needs_sync wal then sync E wal else mret (true, wal)).

(** [store_.maybe_compact()], noted in the trace. *)
Definition compact_tick : SM Z :=
  _ ← log Merging;
  on_store (maybe_compact E).

(** What follows the commit: the replies, the sweep, the merge and the tick of the log. *)
Definition after_commit (touched : list Z) : SM unit :=
  _ ← release_all touched;
  _ ← on_store (fun st => sweep_expired E st kSweepBudget);
  _ ← compact_tick;
  _ ← on_wal (maybe_sync E);
  mret tt.

(** One turn of the [while]: [Some] is a [return], [None] another turn. *)
Definition iteration : SM (option bool) :=
  n ← next_call;
  match epoll_at N n with
  | inl EINTR => mret None
  | inl _ => sthrow (lit "epoll_wait")
  | inr events =>
      touched ← handle_events (take kMaxEvents events) [];
      ok ← commit;
      if ok : bool then _ ← after_commit touched; mret None
      else mret (Some false)
  end.

(** [run()], for at most [fuel] turns; [None] is a loop that is still running. *)
Fixpoint run (fuel : nat) : SM (option bool) :=
  match fuel with
  | O => mret None
  | S fuel =>
      n ← next_call;
      if shutdown_at N n then _ ← on_wal (sync E); mret (Some true)
      else
        r ← iteration;
        match r with
        | Some b => mret (Some b)
        | None => run fuel
        end
  end.

End server.
