(* ===== verification/ServerSpec.v ===== *)
(** * What the event loop promises

    Group commit (no byte leaves the process before the log is durable, and none
    at all when the fsync fails), one reply per request and in order on every
    connection, no reply left behind unannounced, and a clean stop. *)

From stdpp Require Import gmap.
From S2P Require Import Prelude Decimal Resp SortedMap Memtable WalCodec Posix Wal Sstable Compaction Store Command Connection LogGuard Session Server.

(** ** Programs of the loop as steps between states *)

(** Every outcome of [m], exceptions and death included, is [R]-related to the
    state it started in. *)
Definition always {A} (R : sys -> sys -> Prop) (m : SM A) : Prop := forall σ, R σ (m σ).2.

Section always.
Context (R : sys -> sys -> Prop) `{!PreOrder R}.

Lemma always_ret {A} (a : A) : always R (mret a).
Proof. by intros σ. Qed.

Lemma always_throw {A} e : always R (@sthrow A e).
Proof. by intros σ. Qed.

Lemma always_dead {A} : always R (@sdead A).
Proof. by intros σ. Qed.

Lemma always_bind {A B} (m : SM A) (k : A -> SM B) :
  always R m -> (forall a, always R (k a)) -> always R (m ≫= k).
Proof.
  intros Hm Hk σ. cbv [mbind SM_bind]. specialize (Hm σ). destruct (m σ) as [[a|e|] σ1]; cbn in *; auto.
  etransitivity; [done|apply Hk].
Qed.

Lemma always_server : always R server.
Proof. by intros σ. Qed.
End always.

(** ** Before the commit: nothing is sent, and the log is looked after *)

Definition not_sent (e : event) : Prop := match e with Sent _ _ _ => False | _ => True end.

Definition st_of (σ : sys) : Store * world := (store_ (srv σ), files σ).

(** The state a program that returned is in. *)
Definition quiet (E : env) {A} (m : SM A) : Prop := forall σ,
  (exists new, trace (m σ).2 = trace σ ++ new /\ Forall not_sent new) /\
  match (m σ).1 with Ret _ => log_rel E (st_of σ) (st_of (m σ).2) | _ => True end.

Section quiet.
Context (E : env).

Lemma quiet_ret {A} (a : A) : quiet E (mret a).
Proof. intros σ. split; [|done]. exists []. by rewrite app_nil_r. Qed.

Lemma quiet_throw {A} e : quiet E (@sthrow A e).
Proof. intros σ. split; [|done]. exists []. by rewrite app_nil_r. Qed.

Lemma quiet_dead {A} : quiet E (@sdead A).
Proof. intros σ. split; [|done]. exists []. by rewrite app_nil_r. Qed.

Lemma quiet_bind {A B} (m : SM A) (k : A -> SM B) :
  quiet E m -> (forall a, quiet E (k a)) -> quiet E (m ≫= k).
Proof.
  intros Hm Hk σ. cbv [mbind SM_bind]. destruct (Hm σ) as [(new & Ht & Hn) Hr].
  destruct (m σ) as [[a|e|] σ1]; cbn in *; [|split; [by exists new|done]..].
  destruct (Hk a σ1) as [(new' & Ht' & Hn') Hr']. split.
  - exists (new ++ new'). rewrite Ht', Ht, app_assoc. split; [done|]. by apply Forall_app.
  - destruct (k a σ1) as [[b|e|] σ2]; cbn in *; try done. by etransitivity.
Qed.

Lemma quiet_server : quiet E server.
Proof. intros σ. split; [|done]. exists []. by rewrite app_nil_r. Qed.

Lemma quiet_next_call : quiet E next_call.
Proof. intros σ. split; [|done]. exists []. by rewrite app_nil_r. Qed.

(** Putting back the object that was read, with other descriptors or connections. *)
Lemma quiet_conns (f : gmap Z ConnState -> gmap Z ConnState) :
  quiet E (s ← server; put_server (set_conns s (f (conns_ s)))).
Proof. intros σ. split; [|done]. exists []. by rewrite app_nil_r. Qed.

Lemma quiet_log e : (forall w, not_sent (e w)) -> quiet E (log e).
Proof. intros He σ. split; [|done]. exists [e (files σ)]. split; [done|]. by repeat constructor. Qed.

Lemma quiet_on_store {A} (f : Store -> M (A * Store)) :
  (forall st, logged E snd st (f st)) -> quiet E (on_store f).
Proof.
  intros Hf σ. unfold on_store. destruct (Hf (store_ (srv σ)) (files σ)) as [_ Hr].
  destruct (f _ _) as [[[a st]|e|] w]; cbn in *; (split; [exists []; by rewrite app_nil_r|done]).
Qed.

(** A call of the log in the store. *)
Lemma logged_on_log c st :
  logged E snd st (match wal_ st with
    | None => mret (true, st)
    | Some wal => '(ok, wal) ← call E c wal; mret (ok, set_wal st (Some wal))
    end).
Proof. destruct (wal_ st) as [wal|] eqn:Hw; [by apply logged_call|by apply logged_ret]. Qed.

Lemma logged_commit st :
  logged E snd st (match wal_ st with
    | None => mret (true, st)
    | Some wal => '(ok, wal) ← (if needs_sync wal then sync E wal else mret (true, wal));
                  mret (ok, set_wal st (Some wal))
    end).
Proof.
  destruct (wal_ st) as [wal|] eqn:Hw; [|by apply logged_ret].
  destruct (needs_sync wal); [by apply (logged_call E CSync)|].
  intros w. cbn. split; [done|]. apply log_rel_spares; [done|done|]. cbn. by rewrite Hw.
Qed.

Lemma quiet_on_wal c : quiet E (on_wal (call E c)).
Proof. apply quiet_on_store, logged_on_log. Qed.

(** Split binds and cases. *)
Ltac quiet_step :=
  match goal with
  | |- quiet _ (mret _) => apply quiet_ret
  | |- quiet _ (sthrow _) => apply quiet_throw
  | |- quiet _ sdead => apply quiet_dead
  | |- quiet _ server => apply quiet_server
  | |- quiet _ next_call => apply quiet_next_call
  | |- quiet _ (log _) => apply quiet_log; done
  | |- quiet _ (match ?x with _ => _ end) => destruct x
  | |- quiet _ (_ ≫= _) => apply quiet_bind; [|intros ?]
  | |- forall _, _ => intros ?
  end.

(** One step of [server; put_server ...; k]. *)
Lemma quiet_update {A} (g : Server -> Server) (k : SM A) :
  (forall s, store_ (g s) = store_ s) -> quiet E k ->
  quiet E (s ← server; _ ← put_server (g s); k).
Proof.
  intros Hg Hk σ. cbv [mbind SM_bind server put_server].
  destruct (Hk (mkSys (g (srv σ)) (files σ) (calls σ) (trace σ))) as [Ht Hr]. cbn in Ht. split; [done|].
  case_match; [|done..]. etransitivity; [|exact Hr]. unfold st_of. cbn. by rewrite Hg.
Qed.

Lemma quiet_close fd : quiet E (close_connection fd).
Proof.
  unfold close_connection. apply (quiet_update (fun s => set_conns s (delete fd (conns_ s)))); [done|].
  by apply quiet_log.
Qed.

Lemma quiet_emplace fd : quiet E (emplace fd).
Proof.
  intros σ. unfold emplace. cbv [mbind SM_bind server]. destruct (conns_ (srv σ) !! fd); cbn.
  - split; [exists []; by rewrite app_nil_r|done].
  - split; [|done]. exists [Accepted fd]. split; [done|]. by repeat constructor.
Qed.

Lemma quiet_accept_loop script : quiet E (accept_loop script).
Proof.
  induction script as [|[[]|[raw []]] script IH]; cbn [accept_loop]; repeat quiet_step; auto.
  apply quiet_emplace.
Qed.

Context (N : net) (kStartedMs : Z).

Lemma quiet_feed fd state data : quiet E (feed E kStartedMs fd state data).
Proof.
  intros σ. unfold feed.
  destruct (logged_on_bytes E kStartedMs (conn state) data (store_ (srv σ)) (files σ)) as [_ Hr].
  destruct (on_bytes _ _ _ _ _ _) as [[[[[b c] st]|]|e|] w]; cbn in *;
    [|split; [eexists; split; [done|by repeat constructor]|done]..].
  split; [|done]. exists [Received fd data]. split; [done|]. by repeat constructor.
Qed.

Lemma quiet_read_loop script fd state : quiet E (read_loop E kStartedMs script fd state).
Proof.
  induction script as [|[[]|[|b data]] script IH]; cbn [read_loop]; repeat quiet_step; auto.
  apply quiet_feed.
Qed.

Lemma quiet_service fd mask : quiet E (service E N kStartedMs fd mask).
Proof.
  unfold service, read_available. repeat quiet_step; first [apply quiet_close|apply quiet_read_loop].
Qed.

Lemma quiet_handle_events events : forall touched, quiet E (handle_events E N kStartedMs events touched).
Proof.
  induction events as [|[fd mask] events IH]; intros touched; cbn [handle_events]; [apply quiet_ret|].
  unfold accept_ready. repeat quiet_step; auto using quiet_accept_loop, quiet_service.
Qed.

Lemma quiet_commit : quiet E (commit E).
Proof. apply quiet_on_store, logged_commit. Qed.

Lemma quiet_sweep : quiet E (on_store (fun st => sweep_expired E st kSweepBudget)).
Proof. apply quiet_on_store. intros st. apply logged_sweep. Qed.

Lemma quiet_compact : quiet E (compact_tick E).
Proof.
  apply quiet_bind; [|intros u; apply quiet_on_store; intros st; apply logged_maybe_compact].
  intros σ. split; [|done]. exists [Merging (files σ)]. split; [done|]. by repeat constructor.
Qed.
End quiet.

(** ** After the commit: the files stand still while replies go out *)

Definition sent_at (w : world) (e : event) : Prop := match e with Sent _ _ w' => w' = w | _ => True end.

Definition posting (σ σ' : sys) : Prop :=
  st_of σ' = st_of σ /\ exists new, trace σ' = trace σ ++ new /\ Forall (sent_at (files σ)) new.

#[export] Instance posting_preorder : PreOrder posting.
Proof.
  split.
  - intros σ. split; [done|]. exists []. by rewrite app_nil_r.
  - intros σ1 σ2 σ3 [S1 (n1 & T1 & F1)] [S2 (n2 & T2 & F2)]. split; [congruence|].
    exists (n1 ++ n2). rewrite T2, T1, app_assoc. split; [done|]. apply Forall_app. split; [done|].
    by replace (files σ1) with (files σ2) by (by injection S1).
Qed.

Ltac always_step :=
  match goal with
  | |- always _ (mret _) => apply always_ret; [apply _]
  | |- always _ (sthrow _) => apply always_throw; [apply _]
  | |- always _ sdead => apply always_dead; [apply _]
  | |- always _ server => apply always_server; [apply _]
  | |- always _ (match ?x with _ => _ end) => destruct x
  | |- always _ (_ ≫= _) => apply always_bind; [apply _| |intros ?]
  | |- forall _, _ => intros ?
  end.

Section posting.
Context (N : net).

Lemma posting_next_call : always posting next_call.
Proof. intros σ. split; [done|]. exists []. by rewrite app_nil_r. Qed.

Lemma posting_put_conn fd c : always posting (put_conn fd c).
Proof. intros σ. split; [done|]. exists []. by rewrite app_nil_r. Qed.

Lemma posting_log e : (forall w, sent_at w (e w)) -> always posting (log e).
Proof. intros He σ. split; [done|]. exists [e (files σ)]. split; [done|]. by repeat constructor. Qed.

Lemma posting_close fd : always posting (close_connection fd).
Proof. intros σ. split; [done|]. exists [Closed fd]. split; [done|]. by repeat constructor. Qed.

Lemma posting_send_loop script fd : forall state, always posting (send_loop script fd state).
Proof.
  induction script as [|[[]|n] script IH]; intros state; cbn [send_loop]; (case_match; [always_step|]);
    repeat always_step; auto using posting_put_conn. by apply posting_log.
Qed.

Lemma posting_release fd : always posting (release N fd).
Proof.
  unfold release, write_pending, update_interest.
  repeat always_step; auto using posting_next_call, posting_close, posting_send_loop, posting_put_conn.
  by apply posting_log.
Qed.

Lemma posting_release_all touched : always posting (release_all N touched).
Proof. induction touched; cbn [release_all]; repeat always_step; auto using posting_release. Qed.
End posting.

(** ** Group commit *)

(** The log the loop is over. *)
Definition log_fd (fd : nat) (σ : sys) : Prop :=
  exists wal, wal_ (store_ (srv σ)) = Some wal /\ Wal.fd_ wal = fd.

(** The replies may go: the file is on the disk, unless the kernel has failed a call
    before (or the file is beyond what a 64-bit count can tell from nothing). *)
Definition covered (E : env) (fd : nat) (w : world) : Prop :=
  saved w fd \/ kernel_failed E (tick w) \/ 2 ^ 64 <= zlen (contents w fd).

Definition sent_covered (E : env) (fd : nat) (e : event) : Prop :=
  match e with Sent _ _ w => covered E fd w | _ => True end.

Definition loop_inv (E : env) (fd : nat) (σ : sys) : Prop :=
  log_fd fd σ /\ log_inv E (store_ (srv σ)) (files σ).

Definition committed {A} (E : env) (fd : nat) (m : SM A) : Prop := forall σ,
  loop_inv E fd σ ->
  (exists new, trace (m σ).2 = trace σ ++ new /\ Forall (sent_covered E fd) new) /\
  match (m σ).1 with Ret _ => loop_inv E fd (m σ).2 | _ => True end.

Section group_commit.
Context (E : env) (fd : nat).

Lemma loop_inv_rel σ σ' : log_rel E (st_of σ) (st_of σ') -> loop_inv E fd σ -> loop_inv E fd σ'.
Proof.
  intros [_ _ Hl Hi] [(wal & Hw & <-) Hinv]. cbn in *. split; [|auto].
  unfold same_log in Hl. rewrite Hw in Hl. destruct (wal_ (store_ (srv σ'))) as [wal'|] eqn:Hw'; [|done].
  exists wal'. split; [done|]. by destruct Hl.
Qed.

Lemma quiet_committed {A} (m : SM A) : quiet E m -> committed E fd m.
Proof.
  intros Hm σ Hinv. destruct (Hm σ) as [(new & Ht & Hn) Hr]. split.
  - exists new. split; [done|]. eapply Forall_impl; [exact Hn|]. by intros [].
  - case_match; [|done..]. by eapply loop_inv_rel.
Qed.

Lemma committed_bind {A B} (m : SM A) (k : A -> SM B) :
  committed E fd m -> (forall a, committed E fd (k a)) -> committed E fd (m ≫= k).
Proof.
  intros Hm Hk σ Hinv. cbv [mbind SM_bind]. destruct (Hm σ Hinv) as [(new & Ht & Hn) Hr].
  destruct (m σ) as [[a|e|] σ1]; cbn in *; [|split; [by exists new|done]..].
  destruct (Hk a σ1 Hr) as [(new' & Ht' & Hn') Hr']. split; [|done].
  exists (new ++ new'). rewrite Ht', Ht, app_assoc. split; [done|]. by apply Forall_app.
Qed.

(** A count that says "nothing to sync" is to be believed. *)
Lemma clean_covered σ wal :
  loop_inv E fd σ -> wal_ (store_ (srv σ)) = Some wal -> needs_sync wal = false ->
  covered E fd (files σ).
Proof.
  intros [(wal' & Hw & <-) Hinv] Hw' Hns. assert (wal' = wal) as -> by congruence.
  unfold log_inv in Hinv. rewrite Hw in Hinv. destruct Hinv as [_ [(n & Hn & Hr & Hd & _)|Hk]].
  - destruct (decide (zlen (contents (files σ) (Wal.fd_ wal)) < 2 ^ 64)) as [Hlt|Hge].
    + left. apply Hd. unfold needs_sync in Hns. rewrite Hn, u64_id in Hns by (unfold is_u64; lia).
      apply Z.ltb_ge in Hns. lia.
    + right. right. lia.
  - right. by left.
Qed.

(** A commit that succeeds leaves nothing to sync, whatever the policy. *)
Lemma commit_clean σ σ' :
  commit E σ = (Ret true, σ') -> forall wal, wal_ (store_ (srv σ')) = Some wal -> needs_sync wal = false.
Proof.
  unfold commit, on_wal, on_store. destruct (wal_ (store_ (srv σ))) as [wal|] eqn:Hw.
  - destruct (needs_sync wal) eqn:Hns.
    + cbv [mbind M_bind]. unfold sync. cbv [mbind M_bind].
      destruct (fsync _ _ _) as [[[]|e|] w1]; cbn; try done. by intros [= <-] wal' [= <-].
    + intros [= <-] wal' [= <-]. done.
  - intros [= <-]. cbn. congruence.
Qed.

Context (N : net) (kStartedMs : Z).

Lemma committed_release touched σ wal :
  loop_inv E fd σ -> wal_ (store_ (srv σ)) = Some wal -> needs_sync wal = false ->
  (exists new, trace (release_all N touched σ).2 = trace σ ++ new /\ Forall (sent_covered E fd) new) /\
  loop_inv E fd (release_all N touched σ).2 /\ st_of (release_all N touched σ).2 = st_of σ.
Proof.
  intros Hinv Hw Hns. destruct (posting_release_all N touched σ) as [Hst (new & Ht & Hn)].
  split.
  - exists new. split; [done|]. eapply Forall_impl; [exact Hn|]. intros []; try done. cbn. intros ->.
    by eapply clean_covered.
  - split; [|done]. by apply (loop_inv_rel σ); [rewrite Hst|].
Qed.

Lemma committed_after touched σ wal :
  loop_inv E fd σ -> wal_ (store_ (srv σ)) = Some wal -> needs_sync wal = false ->
  (exists new, trace (after_commit E N touched σ).2 = trace σ ++ new /\ Forall (sent_covered E fd) new) /\
  match (after_commit E N touched σ).1 with
  | Ret _ => loop_inv E fd (after_commit E N touched σ).2 | _ => True end.
Proof.
  intros Hinv Hw Hns. unfold after_commit. unfold mbind at 1 5 9, SM_bind at 1 5 9.
  destruct (committed_release touched σ wal Hinv Hw Hns) as ((new & Ht & Hn) & Hinv1 & _).
  destruct (release_all N touched σ) as [[u|e|] σ1]; cbn [fst snd] in *; [|split; [by exists new|done]..].
  match goal with |- context [?m σ1] =>
    assert (committed E fd m) as Hm;
      [apply committed_bind; [apply quiet_committed, quiet_sweep|intros ?];
       apply committed_bind; [apply quiet_committed, quiet_compact|intros ?];
       apply committed_bind; [apply quiet_committed, (quiet_on_wal E CMaybeSync)|intros ?];
       apply quiet_committed, quiet_ret|] end.
  destruct (Hm σ1 Hinv1) as [(new' & Ht' & Hn') Hr]. split; [|done].
  exists (new ++ new'). rewrite Ht', Ht, app_assoc. split; [done|]. by apply Forall_app.
Qed.

Lemma committed_iteration : committed E fd (iteration E N kStartedMs).
Proof.
  unfold iteration. apply committed_bind; [apply quiet_committed, quiet_next_call|]. intros n.
  destruct (epoll_at N n) as [[]|events];
    try (apply quiet_committed; first [apply quiet_ret|apply quiet_throw]).
  apply committed_bind; [apply quiet_committed, quiet_handle_events|]. intros touched σ Hinv.
  cbv [mbind SM_bind]. destruct (quiet_committed _ (quiet_commit E) σ Hinv) as [(new & Ht & Hn) Hr].
  pose proof (commit_clean σ) as Hclean.
  destruct (commit E σ) as [[[]|e|] σ1]; cbn [fst snd] in *; [|split; [by exists new|done]..].
  destruct Hr as [(wal & Hw & Hfd) Hinv1].
  destruct (committed_after touched σ1 wal) as [(new' & Ht' & Hn') Hr'];
    [by split; [exists wal|]|done|by apply (Hclean σ1)|].
  destruct (after_commit E N touched σ1) as [[u|e|] σ2]; cbn in *; (split; [|done]);
    (exists (new ++ new'); rewrite Ht', Ht, app_assoc; split; [done|]; by apply Forall_app).
Qed.

Lemma committed_run fuel : committed E fd (run E N kStartedMs fuel).
Proof.
  induction fuel as [|fuel IH]; cbn [run]; [apply quiet_committed, quiet_ret|].
  apply committed_bind; [apply quiet_committed, quiet_next_call|]. intros n.
  destruct (shutdown_at N n).
  - apply committed_bind; [apply quiet_committed, (quiet_on_wal E CSync)|].
    intros. apply quiet_committed, quiet_ret.
  - apply committed_bind; [apply committed_iteration|]. intros [b|]; [apply quiet_committed, quiet_ret|done].
Qed.

End group_commit.

(** ** What went over each socket *)

(** The bytes read from and written to [fd] since it was last accepted. *)
Definition session_step (fd : Z) (s : bytes * bytes) (e : event) : bytes * bytes :=
  match e with
  | Accepted g => if g =? fd then ([], []) else s
  | Received g data => if g =? fd then (s.1 ++ data, s.2) else s
  | Sent g data _ => if g =? fd then (s.1, s.2 ++ data) else s
  | _ => s
  end.

Definition session_of (tr : list event) (fd : Z) : bytes * bytes := foldl (session_step fd) ([], []) tr.

Lemma session_of_snoc tr e fd : session_of (tr ++ [e]) fd = session_step fd (session_of tr fd) e.
Proof. unfold session_of. by rewrite foldl_app. Qed.

(** ** Sessions

    [owe fd] says which replies the commands of the connection [fd] may get.  Every
    session is in order under it; that of an open connection is the connection's. *)

Definition rule : Type := list Command -> list resp_reply -> Prop.

Definition sessions_by (owe : Z -> rule) (σ : sys) : Prop := forall fd,
  exists c, session_by (owe fd) (session_of (trace σ) fd).1 (session_of (trace σ) fd).2 c /\
    forall cs, conns_ (srv σ) !! fd = Some cs -> conn cs = c.

Section sessions_by.
Context (owe : Z -> rule).

Definition keeps_by (σ σ' : sys) : Prop := sessions_by owe σ -> sessions_by owe σ'.

#[export] Instance keeps_by_preorder : PreOrder keeps_by.
Proof. split; unfold keeps_by; [by intros σ|by intros ??? H1 H2 H; apply H2, H1]. Qed.

(** The trace and the connections are as they were, but for some that are gone. *)
Lemma sessions_sub σ σ' :
  trace σ' = trace σ -> conns_ (srv σ') ⊆ conns_ (srv σ) -> keeps_by σ σ'.
Proof.
  intros Ht Hc H fd. destruct (H fd) as (c & Hs & Hcs). exists c. rewrite Ht. split; [done|].
  intros cs Hl. apply Hcs. by eapply lookup_weaken.
Qed.

(** One event on one connection, whose rule may change with it. *)
Lemma sessions_event owe' σ σ' e fd c :
  (forall g, g <> fd -> owe' g = owe g) ->
  trace σ' = trace σ ++ [e] ->
  (forall g, g <> fd -> session_step g (session_of (trace σ) g) e = session_of (trace σ) g) ->
  (forall g cs, g <> fd -> conns_ (srv σ') !! g = Some cs -> conns_ (srv σ) !! g = Some cs) ->
  session_by (owe' fd) (session_step fd (session_of (trace σ) fd) e).1
    (session_step fd (session_of (trace σ) fd) e).2 c ->
  (forall cs, conns_ (srv σ') !! fd = Some cs -> conn cs = c) ->
  sessions_by owe σ -> sessions_by owe' σ'.
Proof.
  intros Howe Ht Hother Hsame Hs Hcs H g. rewrite Ht, session_of_snoc. destruct (decide (g = fd)) as [->|Hne].
  - by exists c.
  - rewrite Hother, Howe by done. destruct (H g) as (c0 & Hs0 & Hc0). exists c0. split; [done|].
    intros cs Hl. apply Hc0. by apply Hsame.
Qed.

Lemma sessions_close fd : always keeps_by (close_connection fd).
Proof.
  intros σ H. destruct (H fd) as (c & Hs & _). revert H.
  cbv [close_connection mbind SM_bind server put_server log].
  apply (sessions_event owe _ _ (Closed fd) fd c); cbn; try done.
  - intros g cs Hne Hl. by rewrite lookup_delete_ne in Hl.
  - intros cs Hl. by rewrite lookup_delete_eq in Hl.
Qed.

(** An event of no connection. *)
Definition no_session (e : event) : Prop :=
  match e with Accepted _ | Received _ _ | Sent _ _ _ => False | _ => True end.

Lemma sessions_silent σ σ' e :
  no_session e -> trace σ' = trace σ ++ [e] -> conns_ (srv σ') = conns_ (srv σ) -> keeps_by σ σ'.
Proof.
  intros He Ht Hc H g. destruct (H g) as (c & Hs & Hcs). exists c. rewrite Ht, session_of_snoc, Hc.
  split; [|done]. by destruct e.
Qed.

Lemma sessions_note (e : world -> event) : (forall w, no_session (e w)) -> always keeps_by (log e).
Proof. intros He σ. by apply (sessions_silent _ _ (e (files σ))). Qed.

Lemma sessions_next_call : always keeps_by next_call.
Proof. intros σ. by apply sessions_sub. Qed.

Lemma sessions_on_store {A} (f : Store -> M (A * Store)) : always keeps_by (on_store f).
Proof. intros σ. unfold on_store. destruct (f _ _) as [[[a st]|e|] w]; by apply sessions_sub. Qed.

(** A connection that is new. *)
Lemma sessions_opened owe' fd σ :
  conns_ (srv σ) !! fd = None -> (forall g, g <> fd -> owe' g = owe g) -> owe' fd [] [] ->
  sessions_by owe σ -> sessions_by owe' (emplace fd σ).2.
Proof.
  intros Hfd Howe Hnew. unfold emplace. cbv [mbind SM_bind server put_server log]. rewrite Hfd.
  apply (sessions_event owe' _ _ (Accepted fd) fd (Connection_init kMaxReadBuffer)); cbn; try done.
  - intros g Hg. by rewrite (proj2 (Z.eqb_neq fd g)) by done.
  - intros g cs Hne Hl. by rewrite lookup_insert_ne in Hl by done.
  - rewrite Z.eqb_refl. by apply session_init.
  - intros cs Hl. rewrite lookup_insert_eq in Hl. by injection Hl as <-.
Qed.

(** A connection that is fed. *)
Lemma sessions_fed E kStartedMs owe' ok2 fd state data b c' st' w' σ :
  conns_ (srv σ) !! fd = Some state -> (forall g, g <> fd -> owe' g = owe g) ->
  on_bytes E kStartedMs (conn state) data (store_ (srv σ)) (files σ) = (Ret (Some (b, c', st')), w') ->
  fed_ok E kStartedMs ok2 (conn state) data (store_ (srv σ)) (files σ) ->
  (forall cs rs, then_ok (owe fd) ok2 cs rs -> owe' fd cs rs) ->
  sessions_by owe σ -> sessions_by owe' (feed E kStartedMs fd state data σ).2.
Proof.
  intros Hfd Howe Hrun Hok Hmono H. destruct (H fd) as (c & Hs & Hc). specialize (Hc _ Hfd) as <-. revert H.
  unfold feed. rewrite Hrun. cbv [put_conn mbind SM_bind server put_server].
  apply (sessions_event owe' _ _ (Received fd data) fd c'); cbn; try done.
  - intros g Hg. by rewrite (proj2 (Z.eqb_neq fd g)) by done.
  - intros g cs Hne Hl. by rewrite lookup_insert_ne in Hl by done.
  - rewrite Z.eqb_refl. eapply session_mono; [exact Hmono|]. by eapply session_fed_by.
  - intros cs Hl. rewrite lookup_insert_eq in Hl. by injection Hl as <-.
Qed.

Context (N : net).

(** Bytes of a connection leave. *)
Lemma sessions_sent_one fd state n σ :
  conns_ (srv σ) !! fd = Some state -> (n <= length (pending_output (conn state)))%nat ->
  keeps_by σ (mkSys
    (set_conns (srv σ) (<[fd := mkConnState (consume_output (conn state) (Z.of_nat n)) (interest state)]> (conns_ (srv σ))))
    (files σ) (calls σ) (trace σ ++ [Sent fd (take n (pending_output (conn state))) (files σ)])).
Proof.
  intros Hfd Hn Hall. destruct (Hall fd) as (c & Hs & Hc). specialize (Hc _ Hfd) as <-. revert Hall.
  apply (sessions_event owe _ _ (Sent fd (take n (pending_output (conn state))) (files σ)) fd
    (consume_output (conn state) (Z.of_nat n))); cbn [srv conns_ set_conns trace]; try done.
  - intros g Hg. cbn. by rewrite (proj2 (Z.eqb_neq fd g)) by done.
  - intros g cs Hne Hl. by rewrite lookup_insert_ne in Hl by done.
  - cbn [session_step]. rewrite Z.eqb_refl. by apply session_sent.
  - intros cs Hl. rewrite lookup_insert_eq in Hl. by injection Hl as <-.
Qed.

(** [send_loop] returns the state it has put into the table. *)
Lemma sessions_send_loop script fd : forall state σ,
  conns_ (srv σ) !! fd = Some state ->
  keeps_by σ (send_loop script fd state σ).2 /\
  match (send_loop script fd state σ).1 with
  | Ret (_, state') => conns_ (srv (send_loop script fd state σ).2) !! fd = Some state'
  | _ => True
  end.
Proof.
  induction script as [|[[]|n] script IH]; intros state σ Hfd; cbn [send_loop]; (case_match; [done|]);
    try done; [by apply IH|].
  destruct (Nat.min n _) as [|m] eqn:Hm; [done|].
  cbv [mbind SM_bind log put_conn server put_server].
  match goal with |- context [send_loop script fd ?s2 ?x] => set (state' := s2); set (σ1 := x) end.
  destruct (IH state' σ1) as [Hk Hr]; [apply lookup_insert_eq|]. split; [|done].
  transitivity σ1; [|done]. by apply sessions_sent_one; [|lia].
Qed.

Lemma sessions_update_interest fd state σ :
  conns_ (srv σ) !! fd = Some state -> keeps_by σ (update_interest N fd state σ).2.
Proof.
  intros Hfd. unfold update_interest. case_match; [done|]. cbv [mbind SM_bind next_call log].
  case_match; [|eapply (sessions_silent _ _ (Watched fd (wanted (conn state)) _)); [exact I|reflexivity|reflexivity]].
  intros Hall g. destruct (Hall g) as (c & Hs & Hc). exists c.
  cbv [put_conn mbind SM_bind server put_server]. cbn [snd srv trace]. rewrite session_of_snoc. split; [done|].
  cbn. intros cs.
  destruct (decide (g = fd)) as [->|Hne].
  - rewrite lookup_insert_eq. intros [= <-]. by apply (Hc state).
  - rewrite lookup_insert_ne by done. apply Hc.
Qed.

Lemma sessions_release fd : always keeps_by (release N fd).
Proof.
  intros σ. unfold release, write_pending. cbv [mbind SM_bind server].
  destruct (conns_ (srv σ) !! fd) as [state|] eqn:Hfd; [|done].
  assert (forall b state' σ', keeps_by σ σ' -> conns_ (srv σ') !! fd = Some state' ->
    keeps_by σ ((if negb b then close_connection fd
      else if should_close (conn state') then close_connection fd
      else update_interest N fd state') σ').2) as Hend.
  { intros b state' σ' Hk Hl. transitivity σ'; [done|].
    case_match; [apply sessions_close|]. case_match; [apply sessions_close|by apply sessions_update_interest]. }
  destruct (has_pending_output (conn state)).
  - cbv [next_call]. match goal with |- context [send_loop _ fd state ?x] => set (σ1 := x) end.
    assert (keeps_by σ σ1) as Hk1 by (by apply sessions_sub).
    destruct (sessions_send_loop (send_at N (calls σ)) fd state σ1 Hfd) as [Hk Hr].
    destruct (send_loop _ _ _ _) as [[[b state']|e|] σ2]; cbn in Hk, Hr.
    + apply Hend; [by transitivity σ1|done].
    + by transitivity σ1.
    + by transitivity σ1.
  - by apply (Hend true).
Qed.

Lemma sessions_release_all touched : always keeps_by (release_all N touched).
Proof. induction touched; cbn [release_all]; repeat always_step; auto using sessions_release. Qed.

End sessions_by.

(** *** One reply per command *)

Section sessions.
Context (E : env) (kStartedMs : Z).

(** The replies [execute] gave, one for each command. *)
Definition by_execute : Z -> rule := fun _ => Forall2 (answered E kStartedMs).
Definition sessions_ok : sys -> Prop := sessions_by by_execute.
Abbreviation keeps_sessions := (keeps_by by_execute).

Lemma sessions_emplace fd : always keeps_sessions (emplace fd).
Proof.
  intros σ. destruct (conns_ (srv σ) !! fd) eqn:Hfd.
  - unfold emplace. cbv [mbind SM_bind server]. by rewrite Hfd.
  - unfold keeps_by. apply sessions_opened; [done|done|constructor].
Qed.

Lemma sessions_accept_loop script : always keeps_sessions (accept_loop script).
Proof.
  induction script as [|[[]|[raw []]] script IH]; cbn [accept_loop]; repeat always_step; auto.
  apply sessions_emplace.
Qed.

Lemma sessions_feed fd state data σ :
  conns_ (srv σ) !! fd = Some state -> keeps_sessions σ (feed E kStartedMs fd state data σ).2.
Proof.
  intros Hfd H. destruct (on_bytes E kStartedMs (conn state) data (store_ (srv σ)) (files σ))
    as [[[[[b c'] st']|]|e|] w'] eqn:Hrun;
    [|unfold feed; rewrite Hrun; revert H; by apply (sessions_silent _ _ _ (Interrupted fd data (files σ)))..].
  assert (conn_wf (conn state)) as Hwf by (destruct (H fd) as (c & [Hwf _] & Hc); by rewrite (Hc _ Hfd)).
  revert H. eapply sessions_fed; [done|done|done|by apply fed_answered|apply then_answered].
Qed.

Lemma sessions_read_loop script fd state σ :
  conns_ (srv σ) !! fd = Some state -> keeps_sessions σ (read_loop E kStartedMs script fd state σ).2.
Proof.
  intros Hfd. induction script as [|[[]|[|b data]] script IH]; cbn [read_loop]; try done.
  cbv [mbind SM_bind]. pose proof (sessions_feed fd state (take kReadChunk (b :: data)) σ Hfd) as Hk.
  by destruct (feed _ _ _ _ _ σ) as [[u|e|] σ'].
Qed.

Context (N : net).

Lemma sessions_service fd mask : always keeps_sessions (service E N kStartedMs fd mask).
Proof.
  intros σ. unfold service. cbv [mbind SM_bind server].
  destruct (conns_ (srv σ) !! fd) as [state|] eqn:Hfd; [|done].
  case_match; [apply (sessions_close by_execute fd σ)|]. case_match; [|done].
  unfold read_available. cbv [mbind SM_bind].
  assert (keeps_sessions σ (next_call σ).2) as Hn by (apply sessions_next_call).
  assert (conns_ (srv (next_call σ).2) !! fd = Some state) as Hfd' by done.
  destruct (next_call σ) as [[n|e|] σ1]; [|done..]. cbn in Hn, Hfd'.
  pose proof (sessions_read_loop (read_at N n) fd state σ1 Hfd') as Hr.
  destruct (read_loop _ _ _ _ _ σ1) as [[[]|e|] σ2]; cbn in *; try (by transitivity σ1).
  pose proof (sessions_close by_execute fd σ2) as Hc. destruct (close_connection fd σ2) as [[u|e|] σ3]; cbn in *;
    (transitivity σ1; [done|]; by transitivity σ2).
Qed.

Lemma sessions_handle_events events : forall touched,
  always keeps_sessions (handle_events E N kStartedMs events touched).
Proof.
  induction events as [|[fd mask] events IH]; intros touched; cbn [handle_events]; [always_step|].
  unfold accept_ready.
  repeat always_step; auto using sessions_accept_loop, sessions_service. apply sessions_next_call.
Qed.

Lemma sessions_iteration : always keeps_sessions (iteration E N kStartedMs).
Proof.
  unfold iteration, after_commit, compact_tick.
  repeat always_step; auto using sessions_handle_events;
    first [by apply sessions_note|apply sessions_next_call|apply sessions_release_all|apply sessions_on_store].
Qed.

Lemma sessions_run fuel : always keeps_sessions (run E N kStartedMs fuel).
Proof.
  induction fuel as [|fuel IH]; cbn [run]; repeat always_step;
    auto using sessions_iteration;
    first [apply sessions_next_call|apply sessions_on_store].
Qed.

End sessions.

(** ** Between two turns *)

(** [Q] of every state [m] returns to. *)
Definition sret {A} (m : SM A) (Q : A -> sys -> Prop) (σ : sys) : Prop :=
  match m σ with (Ret a, σ') => Q a σ' | _ => True end.

Lemma sret_ret {A} (a : A) (Q : A -> sys -> Prop) σ : Q a σ -> sret (mret a) Q σ.
Proof. done. Qed.

Lemma sret_bind {A B} (m : SM A) (k : A -> SM B) Q σ :
  sret m (fun a => sret (k a) Q) σ -> sret (m ≫= k) Q σ.
Proof. unfold sret. cbv [mbind SM_bind]. by destruct (m σ) as [[a|e|] σ1]. Qed.

Lemma sret_mono {A} (m : SM A) (P Q : A -> sys -> Prop) σ :
  sret m P σ -> (forall a σ', P a σ' -> Q a σ') -> sret m Q σ.
Proof. unfold sret. destruct (m σ) as [[a|e|] σ1]; auto. Qed.

(** What the kernel watches [fd] for, by the calls the loop has made since it was accepted,
    and what it last refused to be told, if the last call failed. *)
Definition watch_step (fd : Z) (u : Z * option Z) (e : event) : Z * option Z :=
  match e with
  | Accepted g => if g =? fd then (EPOLLIN, None) else u
  | Watched g mask granted => if g =? fd then (if granted : bool then (mask, None) else (u.1, Some mask)) else u
  | _ => u
  end.

Definition watch_of (tr : list event) (fd : Z) : Z * option Z := foldl (watch_step fd) (0, None) tr.

Lemma watch_of_snoc tr e fd : watch_of (tr ++ [e]) fd = watch_step fd (watch_of tr fd) e.
Proof. unfold watch_of. by rewrite foldl_app. Qed.

(** The kernel watches for what the connection waits for, or has just refused to; and a
    connection that has said all it had to say is gone. *)
Definition settled (u : Z * option Z) (cs : ConnState) : Prop :=
  should_close (conn cs) = false /\ (u.1 = wanted (conn cs) \/ u.2 = Some (wanted (conn cs))).

(** [interest] is what the kernel watches for, and all connections but those of [T] are
    settled. *)
Definition settled_but (T : list Z) (σ : sys) : Prop :=
  forall fd cs, conns_ (srv σ) !! fd = Some cs ->
    interest cs = (watch_of (trace σ) fd).1 /\ (fd ∈ T \/ settled (watch_of (trace σ) fd) cs).

Lemma settled_but_mono T T' σ : T ⊆ T' -> settled_but T σ -> settled_but T' σ.
Proof. intros HT H fd cs Hl. destruct (H fd cs Hl) as [? []]; auto. Qed.

(** One connection of the table replaced, and an event of that connection at most. *)
Lemma settled_but_one T T' fd σ σ' :
  (forall g, g <> fd -> watch_of (trace σ') g = watch_of (trace σ) g) ->
  (forall g cs, g <> fd -> conns_ (srv σ') !! g = Some cs -> conns_ (srv σ) !! g = Some cs) ->
  (forall g, g <> fd -> g ∈ T -> g ∈ T') ->
  (forall cs, conns_ (srv σ') !! fd = Some cs ->
     interest cs = (watch_of (trace σ') fd).1 /\ (fd ∈ T' \/ settled (watch_of (trace σ') fd) cs)) ->
  settled_but T σ -> settled_but T' σ'.
Proof.
  intros Hw Hc HT Hone H g cs Hl. destruct (decide (g = fd)) as [->|Hne]; [by apply Hone|].
  rewrite Hw by done. destruct (H g cs (Hc _ _ Hne Hl)) as [? [?|?]]; auto.
Qed.

Section settled.
Context (E : env) (kStartedMs : Z) (N : net).

Lemma settled_emplace T fd σ : settled_but T σ -> sret (emplace fd) (fun _ => settled_but T) σ.
Proof.
  intros H. unfold emplace, sret. cbv [mbind SM_bind server put_server log].
  destruct (conns_ (srv σ) !! fd) eqn:Hfd; [done|]. revert H. apply (settled_but_one T T fd); cbn [srv conns_ set_conns set_store trace]; try done.
  - intros g Hg. rewrite watch_of_snoc. cbn [watch_step]. by rewrite (proj2 (Z.eqb_neq fd g)).
  - intros g cs Hg Hl. by rewrite lookup_insert_ne in Hl.
  - intros cs Hl. rewrite lookup_insert_eq in Hl. injection Hl as <-. rewrite watch_of_snoc. cbn [watch_step].
    rewrite Z.eqb_refl. split; [done|]. right. split; [done|by left].
Qed.

Lemma settled_accept T script : forall σ, settled_but T σ -> sret (accept_loop script) (fun _ => settled_but T) σ.
Proof.
  induction script as [|[[]|[raw []]] script IH]; intros σ H; cbn [accept_loop]; auto; try done.
  apply sret_bind. eapply sret_mono; [by apply settled_emplace|]. intros ?. apply IH.
Qed.

(** Only the connection read from may change. *)
Lemma settled_read T script fd state σ :
  conns_ (srv σ) !! fd = Some state -> settled_but T σ ->
  sret (read_loop E kStartedMs script fd state) (fun _ => settled_but (fd :: T)) σ.
Proof.
  intros Hfd H. induction script as [|[[]|[|b data]] script IH]; cbn [read_loop]; auto;
    try (by apply sret_ret, (settled_but_mono T); [set_solver|]); try done.
  apply sret_bind. unfold sret at 1, feed.
  destruct (on_bytes _ _ _ _ _ _) as [[[[[c0 c] st]|]|e|] w]; [|done..]. cbn.
  apply sret_ret. destruct (H fd state Hfd) as [Hi _]. revert H. apply (settled_but_one T (fd :: T) fd); cbn [srv conns_ set_conns set_store trace].
  - intros g _. by rewrite watch_of_snoc.
  - intros g cs Hg Hl. by rewrite lookup_insert_ne in Hl.
  - intros g _. by right.
  - intros cs Hl. rewrite lookup_insert_eq in Hl. injection Hl as <-. rewrite watch_of_snoc.
    split; [done|left; by left].
Qed.

Lemma settled_close T fd σ : settled_but (fd :: T) σ -> sret (close_connection fd) (fun _ => settled_but T) σ.
Proof.
  unfold sret. cbv [close_connection mbind SM_bind server put_server log].
  apply (settled_but_one (fd :: T) T fd); cbn [srv conns_ set_conns set_store trace].
  - intros g _. by rewrite watch_of_snoc.
  - intros g cs Hg Hl. by rewrite lookup_delete_ne in Hl.
  - by intros g Hg [->|?]%elem_of_cons.
  - intros cs Hl. by rewrite lookup_delete_eq in Hl.
Qed.

Lemma settled_service T fd mask σ :
  settled_but T σ ->
  sret (service E N kStartedMs fd mask)
    (fun served => settled_but (if served : bool then T ++ [fd] else T)) σ.
Proof.
  intros H. unfold service. apply sret_bind. unfold sret at 1, server.
  destruct (conns_ (srv σ) !! fd) as [state|] eqn:Hfd; [|by apply sret_ret].
  assert (settled_but (fd :: T) σ) as Hfd1 by (apply (settled_but_mono T); [set_solver|done]).
  case_match.
  { apply sret_bind. eapply sret_mono; [by apply settled_close|]. done. }
  case_match; [|apply sret_ret, (settled_but_mono T); [set_solver|done]].
  apply sret_bind. unfold read_available. apply sret_bind. unfold sret at 1, next_call.
  eapply sret_mono; [apply (settled_read T); [exact Hfd|exact H]|]. intros [] σ2 H2.
  - apply sret_ret, (settled_but_mono (fd :: T)); [set_solver|done].
  - apply sret_bind. eapply sret_mono; [by apply settled_close|]. done.
Qed.

Lemma settled_handle_events events : forall touched σ,
  settled_but touched σ ->
  sret (handle_events E N kStartedMs events touched) settled_but σ.
Proof.
  induction events as [|[fd mask] events IH]; intros touched σ H; cbn [handle_events]; [by apply sret_ret|].
  apply sret_bind. unfold sret at 1, server. case_match.
  - apply sret_bind. unfold accept_ready. apply sret_bind. unfold sret at 1, next_call.
    eapply sret_mono; [apply settled_accept; exact H|]. intros ?. apply IH.
  - apply sret_bind. eapply sret_mono; [by apply settled_service|]. intros b. apply IH.
Qed.

Lemma settled_on_store {A} (f : Store -> M (A * Store)) T σ :
  settled_but T σ -> sret (on_store f) (fun _ => settled_but T) σ.
Proof. intros H. unfold sret, on_store. by destruct (f _ _) as [[[a st]|e|] w]. Qed.

(** The other connections are left alone, and the one written to is in the table. *)
Lemma settled_send T script fd : forall state σ,
  settled_but (fd :: T) σ -> conns_ (srv σ) !! fd = Some state ->
  sret (send_loop script fd state)
    (fun r σ' => settled_but (fd :: T) σ' /\ conns_ (srv σ') !! fd = Some r.2) σ.
Proof.
  induction script as [|[[]|n] script IH]; intros state σ H Hfd; cbn [send_loop]; (case_match; [done|]);
    try done; [by apply IH|].
  destruct (Nat.min n _) as [|m]; [done|].
  apply sret_bind. unfold sret at 1, log. apply sret_bind. unfold sret at 1.
  cbv [put_conn mbind SM_bind server put_server]. apply IH; [|apply lookup_insert_eq].
  destruct (H fd state Hfd) as [Hi _]. revert H. apply (settled_but_one (fd :: T) (fd :: T) fd); cbn [srv conns_ set_conns set_store trace]; try done.
  - intros g _. by rewrite watch_of_snoc.
  - intros g cs Hg Hl. by rewrite lookup_insert_ne in Hl.
  - intros cs Hl. rewrite lookup_insert_eq in Hl. injection Hl as <-. rewrite watch_of_snoc.
    split; [done|left; by left].
Qed.

(** The call that tells the kernel, and its failure. *)
Lemma settled_update T fd state σ :
  settled_but (fd :: T) σ -> conns_ (srv σ) !! fd = Some state -> should_close (conn state) = false ->
  sret (update_interest N fd state) (fun _ => settled_but T) σ.
Proof.
  intros H Hfd Hsc. destruct (H fd state Hfd) as [Hi _].
  assert (forall g, g <> fd -> g ∈ fd :: T -> g ∈ T) as HT by (by intros g Hg [->|?]%elem_of_cons).
  unfold update_interest. destruct (Z.eqb_spec (wanted (conn state)) (interest state)) as [He|He].
  - apply sret_ret. revert H. apply (settled_but_one (fd :: T) T fd); try done.
    intros cs Hl. assert (cs = state) as -> by congruence. split; [done|]. right. split; [done|left; congruence].
  - apply sret_bind. unfold sret at 1, next_call. apply sret_bind. unfold sret at 1, log.
    assert (forall g, g <> fd -> watch_of (trace σ ++ [Watched fd (wanted (conn state)) (ctl_at N (calls σ))]) g =
      watch_of (trace σ) g) as Hother.
    { intros g Hg. rewrite watch_of_snoc. cbn [watch_step]. by rewrite (proj2 (Z.eqb_neq fd g)). }
    destruct (ctl_at N (calls σ)) eqn:Hctl; unfold sret; revert H; apply (settled_but_one (fd :: T) T fd);
      cbv [put_conn mbind SM_bind server put_server mret SM_ret]; cbn [srv conns_ set_conns trace]; try done.
    + intros g cs Hg Hl. by rewrite lookup_insert_ne in Hl.
    + intros cs Hl. rewrite lookup_insert_eq in Hl. injection Hl as <-. rewrite watch_of_snoc.
      cbn [watch_step]. rewrite Z.eqb_refl. split; [done|]. right. split; [done|by left].
    + intros cs Hl. assert (cs = state) as -> by congruence. rewrite watch_of_snoc.
      cbn [watch_step]. rewrite Z.eqb_refl. split; [done|]. right. split; [done|by right].
Qed.

(** An event that is no call of [epoll_ctl]. *)
Lemma settled_note T σ e :
  match e with Accepted _ | Watched _ _ _ => False | _ => True end ->
  settled_but T σ -> settled_but T (mkSys (srv σ) (files σ) (calls σ) (trace σ ++ [e])).
Proof. intros He H g cs Hl. cbn [trace]. rewrite watch_of_snoc. destruct e; try done; by apply H. Qed.

Lemma settled_release T fd σ : settled_but (fd :: T) σ -> sret (release N fd) (fun _ => settled_but T) σ.
Proof.
  intros H. unfold release. apply sret_bind. unfold sret at 1, server.
  destruct (conns_ (srv σ) !! fd) as [state|] eqn:Hfd.
  2: { apply sret_ret. revert H. apply (settled_but_one (fd :: T) T fd); try done; [|congruence].
       by intros g Hg [->|?]%elem_of_cons. }
  apply sret_bind. eapply (sret_mono _
    (fun r σ' => settled_but (fd :: T) σ' /\ conns_ (srv σ') !! fd = Some r.2)).
  - case_match; [|done]. unfold write_pending. apply sret_bind. unfold sret at 1, next_call.
    by apply settled_send.
  - intros [ok state'] σ' [H' Hl']. cbn in Hl'. case_match; [by apply settled_close|].
    case_match eqn:Hsc; [by apply settled_close|]. by apply settled_update.
Qed.

Lemma settled_release_all touched : forall σ,
  settled_but touched σ -> sret (release_all N touched) (fun _ => settled_but []) σ.
Proof.
  induction touched as [|fd touched IH]; intros σ H; cbn [release_all]; [by apply sret_ret|].
  apply sret_bind. eapply sret_mono; [by apply settled_release|]. intros ?. apply IH.
Qed.

Lemma settled_iteration σ :
  settled_but [] σ ->
  sret (iteration E N kStartedMs) (fun r σ' => r = None -> settled_but [] σ') σ.
Proof.
  intros H. unfold iteration. apply sret_bind. unfold sret at 1, next_call.
  destruct (epoll_at N (calls σ)) as [[]|events]; [by apply sret_ret|done..|].
  apply sret_bind. eapply sret_mono; [by apply settled_handle_events|]. intros touched σ1 H1.
  apply sret_bind. eapply sret_mono; [apply settled_on_store; exact H1|]. intros [] σ2 H2; [|done].
  apply sret_bind. unfold after_commit.
  apply sret_bind. eapply sret_mono; [by apply settled_release_all|]. intros ? σ3 H3.
  apply sret_bind. eapply sret_mono; [apply (settled_on_store _ []); exact H3|]. intros ? σ4 H4.
  apply sret_bind. unfold compact_tick. apply sret_bind. unfold sret at 1, log.
  eapply sret_mono; [apply (settled_on_store _ []); by apply (settled_note [] σ4 (Merging (files σ4)))|]. intros ? σ5 H5.
  apply sret_bind. eapply sret_mono; [apply (settled_on_store _ []); exact H5|]. intros ? σ6 H6.
  by apply sret_ret, sret_ret.
Qed.

Lemma settled_run fuel : forall σ,
  settled_but [] σ -> sret (run E N kStartedMs fuel) (fun r σ' => r = None -> settled_but [] σ') σ.
Proof.
  induction fuel as [|fuel IH]; intros σ H; cbn [run]; [by apply sret_ret|].
  apply sret_bind. unfold sret at 1, next_call. destruct (shutdown_at N (calls σ)).
  - apply sret_bind. eapply sret_mono; [apply (settled_on_store _ []); exact H|]. intros ? σ0 _. by apply sret_ret.
  - apply sret_bind. eapply sret_mono; [by apply settled_iteration|]. intros [b|] σ' H'; [by apply sret_ret|].
    by apply IH, H'.
Qed.
End settled.

(** ** The log's object through the housekeeping of a turn *)











(** ** Properties *)

(** C5: Group commit, for a loop that starts with an honest count.  The premise [loop_inv]
    is that the log object's count of unsynced bytes covers what the file lacks on the
    disk; start-up after a power cut gives it, and every turn keeps it, but a process
    that is started after a mere kill may not have it ([Restart.kill_then_power_cut]).
    From there on, whatever the clients send, whatever the kernel answers, and however
    a run of the event loop ends (a stop, an exception, or death at any point): every
    byte the loop handed to a socket was handed over at a moment when the log's file was
    on the disk up to its last byte, so that no reply acknowledges a write that a power
    cut could take back.  The exceptions are a kernel that had already reported an I/O
    error, and a file of 2^64 bytes or more, which the count cannot tell from nothing. *)
Theorem group_commit (E : env) (N : net) (kStartedMs : Z) (fuel : nat) (σ : sys) (fd : nat) :
  loop_inv E fd σ ->
  exists new, trace (run E N kStartedMs fuel σ).2 = trace σ ++ new /\
    forall g data w, Sent g data w ∈ new -> zlen (contents w fd) < 2 ^ 64 ->
      saved w fd \/ kernel_failed E (tick w).
Proof.
  intros Hinv. destruct (committed_run E fd N kStartedMs fuel σ Hinv) as [(new & Ht & Hn) _].
  exists new. split; [done|]. intros g data w Hin Hlt. rewrite Forall_forall in Hn.
  destruct (Hn _ Hin) as [?|[?|?]]; [by left|by right|lia].
Qed.

(** C17: A failed fsync answers nobody.  In a turn of [run] that has handled its events
    and whose log needs to be synced, the fsync fails: then [run] returns false at once,
    having sent not one byte in that turn; the connections are as the events left them,
    so every reply to the commands of the turn is still in its connection's buffer. *)
Theorem failed_sync_sends_nothing (E : env) (N : net) (kStartedMs : Z) (fuel : nat) (σ σ1 : sys)
    (events : list (Z * Z)) (touched : list Z) (wal : Wal) (w : world) :
  shutdown_at N (calls σ) = false -> epoll_at N (S (calls σ)) = inr events ->
  handle_events E N kStartedMs (take kMaxEvents events) [] (mkSys (srv σ) (files σ) (S (S (calls σ))) (trace σ)) =
    (Ret touched, σ1) ->
  wal_ (store_ (srv σ1)) = Some wal -> needs_sync wal = true ->
  fsync E (Wal.fd_ wal) (files σ1) = (Ret false, w) ->
  exists σ', run E N kStartedMs (S fuel) σ = (Ret (Some false), σ') /\
    conns_ (srv σ') = conns_ (srv σ1) /\ files σ' = w /\
    exists new, trace σ' = trace σ ++ new /\ forall g data w, Sent g data w ∉ new.
Proof.
  intros Hsh Hep Hev Hw Hns Hfail. cbn [run]. unfold iteration, commit, on_wal, on_store.
  cbv [mbind SM_bind next_call]. rewrite Hsh. cbn [calls srv files trace]. rewrite Hep, Hev, Hw, Hns.
  unfold sync. cbv [mbind M_bind]. rewrite Hfail. cbv [mret M_ret SM_ret].
  eexists. split; [reflexivity|]. split; [done|]. split; [done|].
  destruct (quiet_handle_events E N kStartedMs (take kMaxEvents events) []
    (mkSys (srv σ) (files σ) (S (S (calls σ))) (trace σ))) as [(new & Ht & Hn) _].
  rewrite Hev in Ht. exists new. split; [done|].
  intros g data w' Hin. rewrite Forall_forall in Hn. by apply (Hn _ Hin).
Qed.

(** C11: Every client gets its replies, and in order.  On a server that starts with no
    connections, after any run however it ended: what was sent to a client is a
    prefix of the encodings of one reply per command in the bytes received from it,
    each the reply [execute] gave to that command, in the order of the commands
    (and one last error if the connection is being closed); while the connection
    is open, all the bytes received have been framed and what was sent is
    everything but what its buffer still holds.  How the bytes were cut into reads
    and writes, and what other clients did in between, plays no part. *)
Theorem replies_in_order (E : env) (N : net) (kStartedMs : Z) (fuel : nat) (σ : sys) (fd : Z) :
  conns_ (srv σ) = ∅ -> trace σ = [] ->
  let σ' := (run E N kStartedMs fuel σ).2 in
  let '(rx, tx) := session_of (trace σ') fd in
  exists fed closing replies,
    fed `prefix_of` rx /\ owed E kStartedMs (fr_cmds (framed fed)) closing replies /\
    tx `prefix_of` encode_all replies /\
    forall cs, conns_ (srv σ') !! fd = Some cs ->
      closing = closing_ (conn cs) /\ tx ++ pending_output (conn cs) = encode_all replies /\
      (closing = false -> fed = rx).
Proof.
  intros Hc Ht σ'.
  assert (sessions_ok E kStartedMs σ) as H0.
  { intros g. exists (Connection_init 0). rewrite Ht, Hc. split; [apply session_init; constructor|done]. }
  destruct (sessions_run E kStartedMs N fuel σ H0 fd) as (c & Hs & Hcs). fold σ' in Hs, Hcs.
  destruct (session_of (trace σ') fd) as [rx tx].
  destruct Hs as (_ & fed & replies & Hpre & Howed & Hout & Hopen). cbn [fst snd] in *.
  exists fed, (closing_ c), replies. split_and!; [done|done|by exists (pending_output c)|].
  intros cs Hl. rewrite (Hcs cs Hl). split_and!; [done|done|]. intros Hcl. by destruct (Hopen Hcl).
Qed.

(** C16: No reply is left behind unannounced.  Between two turns, for every connection:
    [interest] is what the kernel watches its descriptor for, by the calls of
    [epoll_ctl] that succeeded; and that is [EPOLLOUT] too if and only if output is
    pending, so that the kernel reports when it can be written, unless the loop has asked
    the kernel for just that and the kernel refused.  And no connection lingers that has
    sent its last reply after a protocol error. *)
Theorem no_reply_stranded (E : env) (N : net) (kStartedMs : Z) (fuel : nat) (σ σ' : sys) :
  conns_ (srv σ) = ∅ -> run E N kStartedMs fuel σ = (Ret None, σ') ->
  forall fd cs, conns_ (srv σ') !! fd = Some cs ->
    let '(mask, refused) := watch_of (trace σ') fd in
    let want := if has_pending_output (conn cs) then Z.lor EPOLLIN EPOLLOUT else EPOLLIN in
    should_close (conn cs) = false /\ interest cs = mask /\ (mask = want \/ refused = Some want).
Proof.
  intros Hc Hrun fd cs Hl.
  assert (settled_but [] σ) as H0 by (intros g cs' Hg; by rewrite Hc in Hg).
  pose proof (settled_run E kStartedMs N fuel σ H0) as Hs. unfold sret in Hs. rewrite Hrun in Hs.
  destruct (Hs eq_refl fd cs Hl) as [Hi Hset]. destruct (watch_of (trace σ') fd) as [mask refused].
  destruct Hset as [Hin|[H1 H2]]; [by apply not_elem_of_nil in Hin|]. cbn [fst snd] in *.
  split_and!; [done|done|]. unfold wanted in H2. by destruct (has_pending_output (conn cs)).
Qed.


(** A requested stop is a clean one.  With the flag raised, [run] returns true at
    once, having forced the log down whatever the policy says, and touches no
    connection. *)
Theorem clean_shutdown (E : env) (N : net) (kStartedMs : Z) (fuel : nat) (σ : sys) (fd : nat) :
  reliable E 0 -> log_fd fd σ -> shutdown_at N (calls σ) = true ->
  exists σ', run E N kStartedMs (S fuel) σ = (Ret (Some true), σ') /\
    durable (files σ') fd /\ contents (files σ') fd = contents (files σ) fd /\
    trace σ' = trace σ /\ conns_ (srv σ') = conns_ (srv σ).
Proof.
  intros Hrel (wal & Hw & Hfd) Hsh. cbn [run]. cbv [mbind SM_bind next_call]. rewrite Hsh.
  unfold on_wal, on_store. cbn [srv files]. rewrite Hw. cbv [mbind M_bind].
  pose proof (wp_sync E wal (fun r w' => exists wal', r = Ret (true, wal') /\
    contents w' fd = contents (files σ) fd /\ durable w' fd) (files σ)) as Hwp.
  destruct Hwp as (wal' & Hr & Hc & Hd); subst fd.
  - intros wal' w' _ _ _ Hc _ Hd. by exists wal'.
  - intros r w' _ _ Hn. by destruct Hn.
  - destruct (sync E wal (files σ)) as [r w'] eqn:Hs. cbn in Hr, Hc, Hd. subst r.
    eexists. split; [reflexivity|]. by split_and!.
Qed.

(** ** A run to look at

    The listener is descriptor 3.  In the first turn a client connects (descriptor
    5); in the second it sends a SET and the kernel takes the reply in two pieces. *)

Definition demo_request : bytes := requests [[lit "SET"; lit "k"; lit "v"]].

Definition demo_net (stop : nat) : net :=
  mkNet (fun n => Nat.leb stop n)
    (fun n => if Nat.eqb n 1 then inr [(3, EPOLLIN)] else if Nat.eqb n 4 then inr [(5, EPOLLIN)] else inr [])
    (fun _ => [inl EINTR; inr (5, true); inl EAGAIN])
    (fun _ => [inl EINTR; inr demo_request])
    (fun _ => [inr 3%nat; inl EINTR; inr 99%nat])
    (fun _ => true)
    (fun n => inr (3 + Z.of_nat n)).

Definition demo_log (policy : SyncPolicy) : Wal := mkWal 0 policy [] 0 1000 0 0 0 true.
Definition demo_sys (policy : SyncPolicy) : sys :=
  mkSys (mkServer (set_wal ram_store (Some (demo_log policy))) 4 3 ∅) Wal.demo_world 0 [].

(** A kernel whose disk fails the fsync of the second turn. *)
Definition bad_disk : env :=
  mkEnv (fun _ => 5) (fun _ => 0) (fun t => if Nat.eqb t 3 then [Fail] else replicate 99 (Done 100)).

Definition after_first (E : env) (policy : SyncPolicy) : sys := (run E (demo_net 99) 0 1 (demo_sys policy)).2.

Lemma demo_loop_inv E policy : loop_inv E 0 (demo_sys policy).
Proof.
  split; [by exists (demo_log policy)|]. cbn [srv demo_sys store_ files]. unfold log_inv. cbn [wal_ set_wal].
  split; [split; [vm_compute; lia|]|].
  - intros p Hp. apply elem_of_cons in Hp as [->|Hp]; [vm_compute; discriminate|].
    apply elem_of_cons in Hp as [->|Hp]; [vm_compute; discriminate|by apply elem_of_nil in Hp].
  - left. apply sync_count_synced; [apply _|reflexivity|]. vm_compute. reflexivity.
Qed.


Lemma group_commit_witness :
  exists data w, Sent 5 data w ∈ trace (run (fair_env 99) (demo_net 99) 0 2 (demo_sys kAlways)).2 /\
    (saved w 0 \/ kernel_failed (fair_env 99) (tick w)).
Proof.
  destruct (group_commit (fair_env 99) (demo_net 99) 0 2 (demo_sys kAlways) 0 (demo_loop_inv _ _))
    as (new & Ht & H).
  set (tr := trace (run (fair_env 99) (demo_net 99) 0 2 (demo_sys kAlways)).2) in *.
  assert (exists data w, tr !! 3%nat = Some (Sent 5 data w) /\ zlen (contents w 0) < 2 ^ 64)
    as (data & w & Hin & Hlt).
  { eexists _, _. split; [vm_compute; reflexivity|vm_compute; reflexivity]. }
  apply list_elem_of_lookup_2 in Hin. exists data, w. split; [exact Hin|].
  apply (H 5 data w); [|exact Hlt]. rewrite Ht in Hin. exact Hin.
Defined.

Lemma failed_sync_sends_nothing_witness :
  let σ := after_first bad_disk kAlways in
  exists σ', run bad_disk (demo_net 99) 0 1 σ = (Ret (Some false), σ') /\
    (exists new, trace σ' = trace σ ++ new /\ forall g data w, Sent g data w ∉ new) /\
    option_map (fun cs => pending_output (conn cs)) (conns_ (srv σ') !! 5) = Some (lit "+OK" ++ kCrlf).
Proof.
  intros σ.
  destruct (handle_events bad_disk (demo_net 99) 0 (take kMaxEvents [(5, EPOLLIN)]) []
    (mkSys (srv σ) (files σ) (S (S (calls σ))) (trace σ))) as [r σ1] eqn:Hev.
  assert (r = Ret [5] /\
    option_map (fun wal => (Wal.fd_ wal, needs_sync wal, (fsync bad_disk (Wal.fd_ wal) (files σ1)).1)) (wal_ (store_ (srv σ1))) =
      Some (0%nat, true, Ret false) /\
    option_map (fun cs => pending_output (conn cs)) (conns_ (srv σ1) !! 5) = Some (lit "+OK" ++ kCrlf)) as (-> & Hwal & Hp).
  { pose proof (f_equal fst Hev) as H1. pose proof (f_equal snd Hev) as H2. cbn [fst snd] in H1, H2.
    rewrite <- H1, <- H2. split; [|split]; vm_compute; reflexivity. }
  destruct (wal_ (store_ (srv σ1))) as [wal|] eqn:Hw; [|discriminate Hwal]. injection Hwal as _ Hns Hfs.
  destruct (fsync bad_disk (Wal.fd_ wal) (files σ1)) as [rf w] eqn:Hf. cbn [fst] in Hfs. subst rf.
  destruct (failed_sync_sends_nothing bad_disk (demo_net 99) 0 0 σ σ1 [(5, EPOLLIN)] [5] wal w
    ltac:(vm_compute; reflexivity) ltac:(vm_compute; reflexivity) Hev Hw Hns Hf) as (σ' & Hrun & Hc & _ & Hn).
  exists σ'. split; [exact Hrun|]. split; [exact Hn|]. rewrite Hc. exact Hp.
Defined.

Lemma replies_in_order_witness :
  let σ' := (run (fair_env 99) (demo_net 99) 0 2 (demo_sys kAlways)).2 in
  session_of (trace σ') 5 = (demo_request, lit "+OK" ++ kCrlf) /\
  let '(rx, tx) := session_of (trace σ') 5 in
  exists fed closing replies,
    fed `prefix_of` rx /\ owed (fair_env 99) 0 (fr_cmds (framed fed)) closing replies /\
    tx `prefix_of` encode_all replies /\
    forall cs, conns_ (srv σ') !! 5 = Some cs ->
      closing = closing_ (conn cs) /\ tx ++ pending_output (conn cs) = encode_all replies /\
      (closing = false -> fed = rx).
Proof.
  intros σ'. split; [vm_compute; reflexivity|].
  exact (replies_in_order (fair_env 99) (demo_net 99) 0 2 (demo_sys kAlways) 5 eq_refl eq_refl).
Defined.

(** The same run, with a kernel that takes three bytes of the reply and no more. *)
Definition slow_net (ctl : bool) : net :=
  mkNet (shutdown_at (demo_net 99)) (epoll_at (demo_net 99)) (accept_at (demo_net 99)) (read_at (demo_net 99))
    (fun _ => [inr 3%nat; inl EAGAIN]) (fun _ => ctl) (setup_at (demo_net 99)).

Lemma no_reply_stranded_witness :
  exists σ' cs, run (fair_env 99) (slow_net true) 0 2 (demo_sys kAlways) = (Ret None, σ') /\
    conns_ (srv σ') !! 5 = Some cs /\ pending_output (conn cs) = kCrlf /\
    interest cs = Z.lor EPOLLIN EPOLLOUT.
Proof.
  destruct (run (fair_env 99) (slow_net true) 0 2 (demo_sys kAlways)) as [r σ'] eqn:Hrun.
  assert (r = Ret None /\ watch_of (trace σ') 5 = (Z.lor EPOLLIN EPOLLOUT, None) /\
    option_map (fun cs => pending_output (conn cs)) (conns_ (srv σ') !! 5) = Some kCrlf) as (-> & Hw & Hp).
  { pose proof (f_equal fst Hrun) as H1. pose proof (f_equal snd Hrun) as H2. cbn [fst snd] in H1, H2.
    rewrite <- H1, <- H2. split; [|split]; vm_compute; reflexivity. }
  destruct (conns_ (srv σ') !! 5) as [cs|] eqn:Hl; [|discriminate Hp]. injection Hp as Hp.
  exists σ', cs. split; [reflexivity|]. split; [exact Hl|]. split; [exact Hp|].
  pose proof (no_reply_stranded (fair_env 99) (slow_net true) 0 2 (demo_sys kAlways) σ' eq_refl Hrun 5 cs Hl) as H.
  rewrite Hw in H. destruct H as (_ & Hi & _). exact Hi.
Defined.

(** And with one that refuses to be told: the reply waits, and the trace says why. *)
Lemma refused_watch :
  let σ' := (run (fair_env 99) (slow_net false) 0 2 (demo_sys kAlways)).2 in
  watch_of (trace σ') 5 = (EPOLLIN, Some (Z.lor EPOLLIN EPOLLOUT)).
Proof. vm_compute. reflexivity. Qed.


Lemma clean_shutdown_witness :
  exists σ', run (fair_env 99) (demo_net 0) 0 1 (demo_sys kEverySec) = (Ret (Some true), σ') /\
    durable (files σ') 0.
Proof.
  destruct (clean_shutdown (fair_env 99) (demo_net 0) 0 0 (demo_sys kEverySec) 0) as (σ' & Hrun & Hd & _).
  - apply (reliable_mono _ 0 99); [lia|apply fair_env_reliable].
  - by exists (demo_log kEverySec).
  - reflexivity.
  - exists σ'. split; [exact Hrun|exact Hd].
Defined.
