(* ===== verification/Main.v ===== *)
(** * The program ([main.cpp])

    The command line, the start-up (directory, tables, replay, log, listener, in that
    order) and the exit code.  [argv] is the list of the arguments after the
    program's name; a C string is its bytes before the terminating zero. *)

From stdpp Require Import gmap.
From S2P Require Import Prelude Decimal Resp SortedMap Memtable WalCodec Posix Wal Sstable Compaction Store Command Connection LogGuard Server.

(** ** Numbers on the command line *)

(** [isspace] in the C locale. *)
Definition isspace (c : byte) : bool := (b2z c =? 32) || ((9 <=? b2z c) && (b2z c <=? 13)).

Fixpoint drop_while (f : byte -> bool) (s : bytes) : bytes :=
  match s with [] => [] | c :: t => if f c then drop_while f t else s end.
Fixpoint take_while (f : byte -> bool) (s : bytes) : bytes :=
  match s with [] => [] | c :: t => if f c then c :: take_while f t else [] end.

Definition split_sign (s : bytes) : bool * bytes :=
  match s with
  | c :: t => if bool_decide (c = x2d) then (true, t) else if bool_decide (c = x2b) then (false, t)
              else (false, s)
  | [] => (false, s)
  end.

(** [strtol(s, nullptr, 10)] and [strtoll], both 64 bits wide: white space, a sign,
    digits; no digits is 0, and a value out of range saturates. *)
Definition strtol (s : bytes) : Z :=
  let '(negative, s) := split_sign (drop_while isspace s) in
  let value := dec_val (take_while is_digit s) in
  if negative then Z.max INT64_MIN (- value) else Z.min INT64_MAX value.

(** ** Options *)

Definition kDefaultPort : Z := 6379.
Definition kDefaultDir : bytes := lit "data".
Definition kDefaultMemtableLimit : Z := 4 * 1024 * 1024.
Definition kDefaultBitsPerKey : Z := 10.
Definition kSyncIntervalMs : Z := 1000.

Definition parse_fsync (name : bytes) : option SyncPolicy :=
  if bool_decide (name = lit "always") then Some kAlways
  else if bool_decide (name = lit "everysec") then Some kEverySec
  else if bool_decide (name = lit "no") then Some kNo
  else None.

(** The locals of [main] that the arguments set. *)
Record Options := mkOpts {
  port : Z;
  dir_name : bytes;
  policy : SyncPolicy;
  memtable_limit : Z;
  bloom : bool;
  compaction : bool;
  group : bool
}.

Definition default_options : Options :=
  mkOpts kDefaultPort kDefaultDir kAlways kDefaultMemtableLimit true true true.

(** The loop over [argv]: [None] is [return 1].  An option that takes a value and is
    the last argument matches none of the cases. *)
Fixpoint parse_args (argv : list bytes) (o : Options) : option Options :=
  match argv with
  | [] => Some o
  | a :: rest =>
      match bool_decide (a = lit "--port"), rest with
      | true, v :: rest =>
          let value := strtol v in
          if (value <=? 0) || (65535 <? value) then None
          else parse_args rest (mkOpts value (dir_name o) (policy o) (memtable_limit o) (bloom o)
                                  (compaction o) (group o))
      | _, _ =>
      match bool_decide (a = lit "--dir"), rest with
      | true, v :: rest =>
          parse_args rest (mkOpts (port o) v (policy o) (memtable_limit o) (bloom o) (compaction o) (group o))
      | _, _ =>
      match bool_decide (a = lit "--memtable-limit"), rest with
      | true, v :: rest =>
          let value := strtol v in
          if value <=? 0 then None
          else parse_args rest (mkOpts (port o) (dir_name o) (policy o) value (bloom o) (compaction o) (group o))
      | _, _ =>
      if bool_decide (a = lit "--no-bloom") then
        parse_args rest (mkOpts (port o) (dir_name o) (policy o) (memtable_limit o) false (compaction o) (group o))
      else if bool_decide (a = lit "--no-compaction") then
        parse_args rest (mkOpts (port o) (dir_name o) (policy o) (memtable_limit o) (bloom o) false (group o))
      else if bool_decide (a = lit "--no-group-commit") then
        parse_args rest (mkOpts (port o) (dir_name o) (policy o) (memtable_limit o) (bloom o) (compaction o) false)
      else
      match bool_decide (a = lit "--fsync"), rest with
      | true, v :: rest =>
          match parse_fsync v with
          | None => None
          | Some p =>
              parse_args rest (mkOpts (port o) (dir_name o) p (memtable_limit o) (bloom o) (compaction o) (group o))
          end
      | _, _ => None
      end end end end
  end.

(** ** Starting up *)

Definition wal_path (d : bytes) : bytes := d ++ lit "/wal.log".

Definition store_options (o : Options) : StoreOptions :=
  mkOptions (dir_name o) (memtable_limit o) kDefaultBitsPerKey (bloom o) (compaction o).

Section main.
Context (E : env).

(** [mkdir(dir) != 0 && errno != EEXIST], negated; the directory holds no file of
    the model yet. *)
Definition mkdir : M bool := one_call E (fun w => w).

(** From the first line of the [try] to [store.set_wal(&wal)]. *)
Definition startup (o : Options) : M (Store * ReplayResult) :=
  made ← mkdir;
  if negb made then throw (lit "mkdir") else
  st ← Store_open E (store_options o);
  '(st, recovered) ← replay E (wal_path (dir_name o)) apply st;
  wal ← Wal_open E (wal_path (dir_name o)) (policy o) kSyncIntervalMs;
  mret (Store.set_wal st (Some (set_group_commit wal (group o))), recovered).

(** How a process ends, or that it has not. *)
Inductive outcome :=
  | Exit (code : Z)
  | Running
  | Killed.

(** The [catch]: every exception is a message and an exit code of 1. *)
Definition outcome_of (r : res (option bool)) : outcome :=
  match r with
  | Ret (Some true) => Exit 0
  | Ret (Some false) => Exit 1
  | Ret None => Running
  | Throw _ => Exit 1
  | Dead => Killed
  end.

Context (N : net) (kStartedMs : Z).

(** [main], with the loop of the server run for at most [fuel] turns. *)
Definition main (fuel : nat) (argv : list bytes) (w : world) : outcome * option sys :=
  match parse_args argv default_options with
  | None => (Exit 1, None)
  | Some o =>
      match startup o w with
      | (Ret (st, _), w) =>
          let '(r, σ) :=
            (_ ← Server_open N (port o); run E N kStartedMs fuel) (mkSys (mkServer st (-1) (-1) ∅) w 0 []) in
          (outcome_of r, Some σ)
      | (Throw _, _) => (Exit 1, None)
      | (Dead, _) => (Killed, None)
      end
  end.

End main.

(** ** The command line *)

Lemma strtol_range s : INT64_MIN <= strtol s <= INT64_MAX.
Proof.
  unfold strtol. assert (forall t, all_digits (take_while is_digit t)) as Hd.
  { induction t as [|c t IH]; cbn; [constructor|]. destruct (is_digit c) eqn:Hc; [by constructor|constructor]. }
  destruct (split_sign _) as [n t].
  pose proof (dec_val_nonneg _ (Hd t)). unfold INT64_MIN, INT64_MAX in *. destruct n; lia.
Qed.

Definition options_ok (o : Options) : Prop :=
  1 <= port o <= 65535 /\ 1 <= memtable_limit o <= INT64_MAX.

(** Every path through the loop keeps the ranges of the numeric options. *)
Lemma parse_args_ranges n : forall argv o o',
  (length argv <= n)%nat -> options_ok o -> parse_args argv o = Some o' -> options_ok o'.
Proof.
  induction n as [|n IH]; intros [|a argv] o o' Hn Hok; cbn [parse_args length] in *;
    try (by intros [= <-]); [lia|].
  assert (forall rest o1 o2, (length rest <= length argv)%nat -> options_ok o1 ->
            parse_args rest o1 = Some o2 -> options_ok o2) as Hgo
    by (intros rest o1 o2 Hl; apply IH; lia).
  destruct Hok as [Hp Hm].
  repeat match goal with
  | |- context [match bool_decide ?P with _ => _ end] => destruct (bool_decide P)
  | |- context [match argv with _ => _ end] => destruct argv as [|v rest]
  end; cbn [length] in *;
  repeat match goal with
  | |- (if ?b then None else _) = _ -> _ => destruct b eqn:?; [done|]
  | |- match parse_fsync ?v with _ => _ end = _ -> _ => destruct (parse_fsync v); [|done]
  end; try done;
  try (apply Hgo; [cbn [length]; lia|]; split; cbn [port memtable_limit]; (done || lia)).
  all: pose proof (strtol_range v); (apply Hgo; [cbn [length]; lia|]; split; cbn [port memtable_limit]; (done || lia)).
Qed.

(** A number printed in decimal is read back. *)
Lemma strtol_to_chars n : 0 <= n <= INT64_MAX -> strtol (to_chars n) = n.
Proof.
  intros Hn. unfold strtol, to_chars. rewrite (proj2 (Z.ltb_ge n 0)) by lia.
  assert (n < 10 ^ Z.of_nat 20) as Hlt by (unfold INT64_MAX in Hn; cbn; lia).
  pose proof (dec_digits_digits 20 n ltac:(lia)) as Hd. pose proof (dec_digits_val 20 n ltac:(lia)) as Hv.
  pose proof (dec_digits_nonempty 19 n) as Hne. remember (dec_digits 20 n) as ds.
  assert (forall l, all_digits l -> take_while is_digit l = l) as Htw.
  { induction 1 as [|c l Hc _ IH]; cbn; [done|]. by rewrite Hc, IH. }
  destruct ds as [|c ds]; [done|]. assert (is_digit c = true) as Hc by (by inversion Hd).
  assert (isspace c = false /\ c <> x2d /\ c <> x2b) as (Hs & Hm & Hp).
  { unfold is_digit in Hc. unfold isspace. split_and!; [lia| |]; intros ->; discriminate Hc. }
  cbn [drop_while]. rewrite Hs. cbn [split_sign]. rewrite !bool_decide_false by done.
  rewrite Htw, Hv by done. lia.
Qed.

(** The arguments that ask for [o]. *)
Definition print_args (o : Options) : list bytes :=
  [lit "--port"; to_chars (port o); lit "--dir"; dir_name o;
   lit "--memtable-limit"; to_chars (memtable_limit o); lit "--fsync"; policy_name (policy o)] ++
  (if bloom o then [] else [lit "--no-bloom"]) ++
  (if compaction o then [] else [lit "--no-compaction"]) ++
  (if group o then [] else [lit "--no-group-commit"]).

(** C22: The numbers on the command line are checked.  Whatever the arguments, options
    that are accepted have a port from 1 to 65535, so that the cast to [uint16_t]
    is exact, and a positive memtable limit that fits [size_t]. *)
Theorem parse_args_bounds (argv : list bytes) (o : Options) :
  parse_args argv default_options = Some o ->
  1 <= port o <= 65535 /\ 1 <= memtable_limit o < 2 ^ 63.
Proof.
  intros H. assert (options_ok default_options) as Hd by (split; by vm_compute).
  pose proof (parse_args_ranges (length argv) argv _ _ ltac:(done) Hd H) as [H1 H2].
  unfold INT64_MAX in H2. lia.
Qed.

Lemma parse_args_bounds_witness :
  exists o, parse_args [lit "--port"; lit " +7000x"; lit "--no-bloom"] default_options = Some o /\
    port o = 7000 /\ 1 <= port o <= 65535.
Proof.
  eexists. split; [vm_compute; reflexivity|]. split; [reflexivity|].
  eapply (parse_args_bounds [lit "--port"; lit " +7000x"; lit "--no-bloom"]). vm_compute. reflexivity.
Defined.

(** One turn of the loop on each option that takes a value. *)
Lemma step_port v rest o :
  parse_args (lit "--port" :: v :: rest) o =
    if (strtol v <=? 0) || (65535 <? strtol v) then None
    else parse_args rest (mkOpts (strtol v) (dir_name o) (policy o) (memtable_limit o) (bloom o)
                            (compaction o) (group o)).
Proof. reflexivity. Qed.

Lemma step_dir v rest o :
  parse_args (lit "--dir" :: v :: rest) o =
    parse_args rest (mkOpts (port o) v (policy o) (memtable_limit o) (bloom o) (compaction o) (group o)).
Proof. reflexivity. Qed.

Lemma step_limit v rest o :
  parse_args (lit "--memtable-limit" :: v :: rest) o =
    if strtol v <=? 0 then None
    else parse_args rest (mkOpts (port o) (dir_name o) (policy o) (strtol v) (bloom o) (compaction o) (group o)).
Proof. reflexivity. Qed.

Lemma step_fsync v rest o :
  parse_args (lit "--fsync" :: v :: rest) o =
    match parse_fsync v with
    | None => None
    | Some p =>
        parse_args rest (mkOpts (port o) (dir_name o) p (memtable_limit o) (bloom o) (compaction o) (group o))
    end.
Proof. reflexivity. Qed.

Lemma step_switches p d pol m b c g :
  parse_args ((if b : bool then [] else [lit "--no-bloom"]) ++
    (if c : bool then [] else [lit "--no-compaction"]) ++
    (if g : bool then [] else [lit "--no-group-commit"])) (mkOpts p d pol m true true true) =
  Some (mkOpts p d pol m b c g).
Proof. destruct b, c, g; reflexivity. Qed.

(** Every configuration can be asked for.  The arguments printed for options in
    range parse back to exactly those options, the policy and the three switches
    included. *)
Theorem parse_print_args (o : Options) :
  1 <= port o <= 65535 -> 1 <= memtable_limit o <= INT64_MAX ->
  parse_args (print_args o) default_options = Some o.
Proof.
  intros Hp Hm. destruct o as [p d pol m b c g]. cbn [port memtable_limit] in *.
  unfold print_args. cbn [port dir_name policy memtable_limit bloom compaction group app].
  rewrite step_port, strtol_to_chars by (unfold INT64_MAX; lia).
  rewrite (proj2 (Z.leb_gt p 0)), (proj2 (Z.ltb_ge 65535 p)) by lia. cbn [orb].
  rewrite step_dir, step_limit, strtol_to_chars by lia. rewrite (proj2 (Z.leb_gt m 0)) by lia.
  rewrite step_fsync.
  assert (parse_fsync (policy_name pol) = Some pol) as -> by (by destruct pol).
  apply step_switches.
Qed.

Lemma parse_print_args_witness :
  let o := mkOpts 7001 (lit "d") kEverySec 4096 true false true in
  parse_args (print_args o) default_options = Some o.
Proof. apply parse_print_args; cbn; unfold INT64_MAX; lia. Defined.

(** An argument the loop does not know, or an option without its value, ends the
    program with exit code 1 before any file is touched. *)
Lemma unknown_argument E N kStartedMs fuel w :
  main E N kStartedMs fuel [lit "--port"] w = (Exit 1, None) /\
  main E N kStartedMs fuel [lit "--fsync"; lit "sometimes"] w = (Exit 1, None).
Proof. by split. Qed.
