(* ===== verification/Crash.v ===== *)
(** * Crashes

    What a machine may find on its disk after the process was killed or the power
    failed, and the system calls of a kernel that either does its work or never
    returns.  On such a kernel ([crash_only]) every operation succeeds or dies at
    one of its system calls, so a theorem about the world it dies in is a theorem
    about every crash point. *)

From stdpp Require Import gmap.
From S2P Require Import Prelude SortedMap Memtable WalCodec Posix Wal Sstable Compaction Store LogGuard.

(** ** What is left *)

(** A file of which [s] was fsynced last and that now reads [c]: after a power cut it
    is one of the two or, when it had been appended to, anything in between. *)
Definition crash_bytes (s c x : bytes) : Prop :=
  x = c \/ x = s \/ exists y n, c = s ++ y /\ x = s ++ take n y.

(** Names and files after a power cut: every name on its own is as it was last seen or
    as it was last made durable.  What is found is then what is on the disk. *)
Record power_cut (w w' : world) : Prop := mkPowerCut {
  pc_dir p : dir w' !! p = dir w !! p \/ dir w' !! p = dir_synced w !! p;
  pc_ino i : crash_bytes (default [] (ino_synced w !! i)) (contents w i) (contents w' i);
  pc_dir_synced : dir_synced w' = dir w';
  pc_ino_synced i : (i < next_ino w')%nat -> ino_synced w' !! i = Some (contents w' i);
  pc_next : next_ino w' = next_ino w
}.

(** A process that was killed leaves the page cache behind; a power cut does not. *)
Definition crash (w w' : world) : Prop := same_files w w' \/ power_cut w w'.

Lemma durable_crash w w' i : durable w i -> crash w w' -> contents w' i = contents w i.
Proof.
  intros Hd [Hw|Hc]; [by rewrite <- Hw|].
  destruct (pc_ino _ _ Hc i) as [->|[->|(y & n & Hy & ->)]]; [done|by rewrite Hd|].
  rewrite Hd in Hy |- *. cbn in *. rewrite <- (app_nil_r (contents w i)) in Hy at 1.
  apply app_inv_head in Hy as <-. by rewrite take_nil, app_nil_r.
Qed.

Lemma crash_dir w w' p :
  crash w w' -> dir w' !! p = dir w !! p \/ dir w' !! p = dir_synced w !! p.
Proof. intros [Hw|Hc]; [left; by rewrite <- Hw|by apply pc_dir]. Qed.

Lemma crash_next w w' : crash w w' -> next_ino w' = next_ino w.
Proof. intros [(_ & _ & _ & _ & ?)|[]]; done. Qed.

Lemma same_files_crash w w1 w' : same_files w w1 -> crash w1 w' -> crash w w'.
Proof.
  intros Hw [Hs|[D I S J N]]; [left; by etransitivity|right].
  destruct Hw as (H1 & H2 & H3 & H4 & H5). constructor; try congruence; auto.
  - intros p. rewrite <- H1, <- H2. apply D.
  - intros i. unfold contents at 1. rewrite <- H3, <- H4. apply I.
Qed.

(** ** A kernel that works until it does not *)

Definition crash_only (E : env) : Prop :=
  forall t, Forall (fun a => exists m, a = Done (S m)) (answers_at E t).

(** The same kernel, with [n] more answers to every interaction. *)
Definition patient (E : env) (n : nat) : env :=
  mkEnv (clock_at E) (steady_at E) (fun t => answers_at E t ++ replicate (S n) (Done 1)).

Lemma patient_reliable E n : crash_only E -> reliable (patient E n) n.
Proof.
  intros H t. cbn [patient answers_at]. rewrite length_app, length_replicate. split; [lia|].
  apply Forall_app. split; [apply H|]. apply Forall_replicate. by exists 0%nat.
Qed.

(** [m] dies or does what [m'] does. *)
Definition dies_or {A} (m m' : M A) : Prop := forall w, (m w).1 = Dead \/ m w = m' w.

Lemma dies_or_refl {A} (m : M A) : dies_or m m.
Proof. intros w. by right. Qed.

Lemma dies_or_bind {A B} (m m' : M A) (k k' : A -> M B) :
  dies_or m m' -> (forall a, dies_or (k a) (k' a)) -> dies_or (m ≫= k) (m' ≫= k').
Proof.
  intros Hm Hk w. cbv [mbind M_bind]. destruct (Hm w) as [Hd|He].
  - destruct (m w) as [[a|e|] w1]; [done..|]. by left.
  - rewrite <- He. destruct (m w) as [[a|e|] w1]; [apply Hk|by right..].
Qed.

Section patience.
Context (E : env) (n : nat).

Lemma answers_patient w : answers (patient E n) w = answers E w ++ replicate (S n) (Done 1).
Proof. done. Qed.

Lemma dies_open_existing path : dies_or (open_existing E path) (open_existing (patient E n) path).
Proof.
  intros w. unfold open_existing. rewrite answers_patient.
  destruct (answers E w) as [|[] l]; [by left|by right..].
Qed.

Lemma dies_lseek fd : dies_or (lseek_end E fd) (lseek_end (patient E n) fd).
Proof.
  intros w. unfold lseek_end. rewrite answers_patient.
  destruct (answers E w) as [|[] l]; [by left|by right..].
Qed.

Lemma read_loop_more script more left want acc r :
  read_loop script left want acc = Some r -> read_loop (script ++ more) left want acc = Some r.
Proof.
  revert left want acc. induction script as [|a script IH]; intros left [|want] acc; cbn [read_loop app];
    try done.
  - by destruct more.
  - destruct a; [case_match; [done|apply IH]|apply IH|done].
Qed.

Lemma dies_read_exact fd offset len :
  dies_or (read_exact E fd offset len) (read_exact (patient E n) fd offset len).
Proof.
  intros w. unfold read_exact. rewrite answers_patient.
  destruct (read_loop (answers E w) _ _ _) as [r|] eqn:Hr; [|by left].
  right. by rewrite (read_loop_more _ _ _ _ _ _ Hr).
Qed.

Lemma dies_Sstable_open path b : dies_or (Sstable_open E path b) (Sstable_open (patient E n) path b).
Proof.
  unfold Sstable_open.
  repeat first [apply dies_or_refl | apply dies_open_existing | apply dies_lseek | apply dies_read_exact
    | apply dies_or_bind; [|intros ?]
    | match goal with |- dies_or (match ?x with _ => _ end) _ => destruct x end].
Qed.

Lemma dies_get t key : dies_or (Sstable.get E t key) (Sstable.get (patient E n) t key).
Proof.
  unfold Sstable.get.
  repeat first [apply dies_or_refl | apply dies_read_exact
    | apply dies_or_bind; [|intros ?]
    | match goal with |- dies_or (match ?x with _ => _ end) _ => destruct x end].
Qed.

(** The calls that write. *)
Lemma write_loop_more script more fd data : forall w,
  (write_loop script fd data w).1 = Dead \/ write_loop script fd data w = write_loop (script ++ more) fd data w.
Proof.
  revert data. induction script as [|a script IH]; intros [|b data] w; cbn [write_loop app fst]; auto.
  - right. by destruct more.
  - destruct a; auto.
Qed.

Lemma dies_write_all fd data : dies_or (write_all E fd data) (write_all (patient E n) fd data).
Proof.
  intros w. unfold write_all. rewrite answers_patient.
  destruct (write_loop_more (answers E w) (replicate (S n) (Done 1)) fd data w) as [Hd|<-]; [|by right].
  left. by destruct (write_loop _ _ _ _).
Qed.

Lemma dies_fsync fd : dies_or (fsync E fd) (fsync (patient E n) fd).
Proof.
  intros w. unfold fsync. rewrite answers_patient. generalize (replicate (S n) (Done 1)).
  intros more. induction (answers E w) as [|[] l IH]; cbn [retry_eintr app]; [by left|by right| |by right]. exact IH.
Qed.

Lemma dies_open_trunc path : dies_or (open_trunc E path) (open_trunc (patient E n) path).
Proof.
  intros w. unfold open_trunc. rewrite answers_patient.
  destruct (answers E w) as [|[] l]; [by left|by right..].
Qed.

(** A program put together of calls. *)
Ltac by_calls :=
  repeat first [apply dies_or_refl | apply dies_open_trunc | apply dies_read_exact | apply dies_write_all
    | apply dies_fsync
    | apply dies_or_bind; [|intros ?]
    | match goal with |- dies_or (match ?x with _ => _ end) _ => destruct x end].

Lemma dies_load t c : dies_or (load E t c) (load (patient E n) t c).
Proof. unfold load, ensure. by_calls. Qed.

Lemma dies_open_cursors inputs : dies_or (open_cursors E inputs) (open_cursors (patient E n) inputs).
Proof.
  induction inputs as [|t inputs IH]; [apply dies_or_refl|]. cbn [open_cursors].
  apply dies_or_bind; [apply dies_load|]. intros c. apply dies_or_bind; [done|]. intros cs. apply dies_or_refl.
Qed.

Lemma dies_emit d now s h c : dies_or (emit E d now s h c) (emit (patient E n) d now s h c).
Proof. unfold emit, add. by_calls. Qed.

Lemma dies_merge_loop inputs d now fuel : forall s,
  dies_or (merge_loop E inputs d now fuel s) (merge_loop (patient E n) inputs d now fuel s).
Proof.
  induction fuel as [|fuel IH]; intros s; [apply dies_or_refl|]. cbn [merge_loop].
  repeat first [apply dies_or_refl | apply dies_emit | apply dies_load | apply IH
    | apply dies_or_bind; [|intros ?]
    | match goal with |- dies_or (match ?x with _ => _ end) _ => destruct x end].
Qed.

Lemma dies_compact inputs d now path bpk :
  dies_or (compact E inputs d now path bpk) (compact (patient E n) inputs d now path bpk).
Proof.
  unfold compact. apply dies_or_bind; [apply dies_open_cursors|]. intros cs.
  destruct (fill_heap 0 cs []); [|apply dies_or_refl].
  apply dies_or_bind; [unfold SstableWriter_open; by_calls|]. intros wr.
  apply dies_or_bind; [apply dies_merge_loop|]. intros [r|s]; unfold finish; by_calls.
Qed.
End patience.

(** *** The calls: success, or a death *)

Section calls.
Context (E : env) (Hco : crash_only E).

Lemma co_no_fail t : Fail ∉ answers_at E t.
Proof using Hco.
  intros Hin. pose proof (Hco t) as H. rewrite Forall_forall in H. by destruct (H _ Hin).
Qed.

Lemma co_answers w : answers E w = [] \/ exists m l, answers E w = Done (S m) :: l.
Proof using Hco.
  pose proof (Hco (tick w)) as H. unfold answers. destruct H as [|a l [m ->] _]; [by left|right; by eexists _, _].
Qed.

Lemma co_kernel n : ~ kernel_failed E n.
Proof using Hco. intros (t & _ & Hf). by apply (co_no_fail t). Qed.

Lemma co_write_all fd data (Q : res bool -> world -> Prop) w :
  (forall w', contents w' fd = contents w fd ++ data -> frame fd w w' ->
     ino_synced w' = ino_synced w -> Q (Ret true) w') ->
  (forall n w', contents w' fd = contents w fd ++ take n data -> frame fd w w' ->
     ino_synced w' = ino_synced w -> Q Dead w') ->
  wp (write_all E fd data) Q w.
Proof using Hco.
  intros Ht Hd. unfold wp, write_all.
  destruct (write_loop (answers E w) fd data w) as [r w'] eqn:Hw.
  pose proof (write_loop_false (answers E w) fd data w) as Hf. rewrite Hw in Hf. cbn [fst snd] in *.
  apply write_loop_spec in Hw as (n & Hn & Hc & Hfr & Hs & Hr).
  assert (frame fd w (next_tick w')) as Hfr' by (etransitivity; [done|apply same_files_frame, same_files_tick]).
  destruct Hr as [[-> ->]|[->| ->]].
  - apply Ht; [by rewrite take_ge in Hc|done|done].
  - destruct (co_no_fail (tick w)). by apply Hf.
  - by apply (Hd n).
Qed.

Lemma co_retry w : retry_eintr (answers E w) = Some true \/ retry_eintr (answers E w) = None.
Proof using Hco. destruct (co_answers w) as [->|(m & l & ->)]; auto. Qed.

Lemma co_fsync fd (Q : res bool -> world -> Prop) w :
  (forall w', contents w' fd = contents w fd -> frame fd w w' -> ino w' = ino w ->
     ino_synced w' !! fd = Some (contents w fd) -> Q (Ret true) w') ->
  Q Dead w -> wp (fsync E fd) Q w.
Proof using Hco.
  intros Ht Hd. unfold wp, fsync. destruct (co_retry w) as [->| ->]; cbn [fst snd]; [|done].
  apply Ht; try done.
  - constructor; try done. intros i Hi. cbn. by rewrite lookup_insert_ne.
  - cbn. by rewrite lookup_insert_eq.
Qed.

Lemma co_rename from to i (Q : res bool -> world -> Prop) w :
  dir w !! from = Some i ->
  (forall w', dir w' = <[to := i]> (delete from (dir w)) -> dir_synced w' = dir_synced w ->
     same_inodes w w' -> Q (Ret true) w') ->
  Q Dead w -> wp (rename E from to) Q w.
Proof using Hco.
  intros Hi Ht Hd. unfold wp, rename. destruct (co_answers w) as [->|(m & l & ->)]; [done|].
  rewrite Hi. by apply Ht.
Qed.

Lemma co_fsync_dir (Q : res bool -> world -> Prop) w :
  (forall w', dir w' = dir w -> dir_synced w' = dir w -> same_inodes w w' -> Q (Ret true) w') ->
  (forall w', same_files w w' -> Q Dead w') -> wp (fsync_dir E) Q w.
Proof using Hco.
  intros Ht Hd. unfold fsync_dir. apply wp_bind. unfold wp, one_call.
  destruct (co_answers w) as [->|(m & l & ->)]; cbn [fst snd]; [by apply Hd|].
  unfold wp, fsync_names. destruct (co_retry (next_tick w)) as [->| ->]; cbn [fst snd].
  - by apply Ht.
  - by apply Hd.
Qed.

Lemma co_ftruncate fd n (Q : res bool -> world -> Prop) w :
  (forall w', contents w' fd = take (Z.to_nat n) (contents w fd) -> frame fd w w' ->
     ino_synced w' = ino_synced w -> Q (Ret true) w') ->
  Q Dead w -> wp (ftruncate E fd n) Q w.
Proof using Hco.
  intros Ht Hd. unfold wp, ftruncate, one_call.
  destruct (co_answers w) as [->|(m & l & ->)]; cbn [fst snd]; [done|]. apply Ht.
  - apply contents_set_ino.
  - etransitivity; [apply frame_set_ino|apply same_files_frame, same_files_tick].
  - done.
Qed.

Lemma co_unlink path (Q : res (option bool) -> world -> Prop) w :
  (forall b w', dir w' = delete path (dir w) -> dir_synced w' = dir_synced w -> same_inodes w w' ->
     Q (Ret (Some b)) w') ->
  Q Dead w -> wp (unlink E path) Q w.
Proof using Hco.
  intros Ht Hd. unfold wp, unlink. destruct (co_answers w) as [->|(m & l & ->)]; [done|].
  destruct (dir w !! path) as [i|] eqn:Hi; cbn [fst snd]; apply Ht; try done. cbn. by rewrite delete_id.
Qed.

(** *** The log *)

Lemma co_sync wal (Q : res (bool * Wal) -> world -> Prop) w :
  (forall wal' w', same_wal wal wal' -> contents w' (Wal.fd_ wal) = contents w (Wal.fd_ wal) ->
     frame (Wal.fd_ wal) w w' -> durable w' (Wal.fd_ wal) -> Q (Ret (true, wal')) w') ->
  Q Dead w -> wp (sync E wal) Q w.
Proof using Hco.
  intros Ht Hd. unfold sync. apply wp_bind, co_fsync; [|done].
  intros w1 Hc Hf _ Hs. apply wp_bind, wp_steady_now. intros t w2 Hw2 _. apply wp_ret, Ht.
  - done.
  - by rewrite <- Hw2.
  - etransitivity; [done|by apply same_files_frame].
  - rewrite <- Hw2. unfold durable. by rewrite Hs, Hc.
Qed.

(** What an append leaves behind, wherever it dies: a prefix of the data after the
    file, with what was durable still durable. *)
Definition appended (fd : nat) (data : bytes) (w w' : world) : Prop :=
  frame fd w w' /\ (exists n, contents w' fd = contents w fd ++ take n data) /\
  ino_synced w' !! fd = ino_synced w !! fd.

(** What a successful append has made durable: everything, or as much as before;
    and everything when the policy asks for it. *)
Definition synced_after (wal : Wal) (w w' : world) : Prop :=
  durable w' (Wal.fd_ wal) \/
  ino_synced w' !! Wal.fd_ wal = ino_synced w !! Wal.fd_ wal /\
  ~ (policy_ wal = kAlways /\ group_commit_ wal = false).

Lemma co_commit_buf wal (Q : res (bool * Wal) -> world -> Prop) w :
  (forall wal' w', same_wal wal wal' -> contents w' (Wal.fd_ wal) = contents w (Wal.fd_ wal) ++ buf_ wal ->
     frame (Wal.fd_ wal) w w' ->
     synced_after wal w w' ->
     Q (Ret (true, wal')) w') ->
  (forall w', appended (Wal.fd_ wal) (buf_ wal) w w' -> Q Dead w') ->
  wp (commit_buf E wal) Q w.
Proof using Hco.
  intros Ht Hd. unfold commit_buf. apply wp_bind, co_write_all.
  - intros w1 Hc Hf Hs. destruct (_ && _) eqn:Hpol.
    + apply (co_sync (note_written wal)).
      * intros wal' w2 Hsame Hc2 Hf2 Hd2. cbn in *.
        apply Ht; [done|by rewrite Hc2|by etransitivity|by left].
      * apply Hd. split; [done|]. split; [|by rewrite Hs]. exists (length (buf_ wal)).
        by rewrite take_ge by done.
    + apply wp_ret, Ht; [done|done|done|right]. split; [by rewrite Hs|]. cbn in Hpol. intros [Hp Hg].
      by rewrite bool_decide_true, Hg in Hpol by done.
  - intros n w1 Hc Hf Hs. apply Hd. split; [done|]. split; [by exists n|by rewrite Hs].
Qed.

(** [append] and a batch that is not empty. *)
Lemma co_call_write c wal (Q : res (bool * Wal) -> world -> Prop) w :
  match c with CAppend _ _ _ _ | CBatch _ => True | _ => False end ->
  call_records 0 c <> [] ->
  let data := enc (call_records (clock_at E (tick w)) c) in
  (forall wal' w', same_wal wal wal' -> contents w' (Wal.fd_ wal) = contents w (Wal.fd_ wal) ++ data ->
     frame (Wal.fd_ wal) w w' ->
     synced_after wal w w' ->
     Q (Ret (true, wal')) w') ->
  (forall w', appended (Wal.fd_ wal) data w w' -> Q Dead w') ->
  wp (call E c wal) Q w.
Proof using Hco.
  intros Hc Hne data Ht Hd.
  assert (forall w1, same_files w w1 -> wp (commit_buf E (set_buf wal data)) Q w1) as Hgo.
  { intros w1 Hw. apply co_commit_buf; cbn [set_buf buf_ Wal.fd_].
    - intros wal' w' Hsame Hcont Hf Hs. apply Ht; [done|by rewrite Hcont, <- Hw| |unfold synced_after in *; by rewrite Hw].
      etransitivity; [by apply same_files_frame|done].
    - intros w' (Hf & (n & Hn) & Hs). apply Hd. split; [etransitivity; [by apply same_files_frame|done]|].
      split; [exists n; by rewrite Hn, <- Hw|by rewrite Hs, <- Hw]. }
  destruct c as [op k v e|ms| | |]; try done; cbn [call].
  - unfold append. apply wp_bind, wp_now_ms. intros w1 Hw1 _. rewrite encode_record_app.
    rewrite <- (app_nil_r (encode_rec _)). by apply Hgo.
  - unfold append_batch. destruct (decide (ms = [])) as [->|]; [done|].
    apply wp_bind, wp_now_ms. intros w1 Hw1 _. rewrite encode_batch. by apply Hgo.
Qed.

Lemma co_truncate wal (Q : res (bool * Wal) -> world -> Prop) w :
  (forall wal' w', same_wal wal wal' -> contents w' (Wal.fd_ wal) = [] -> frame (Wal.fd_ wal) w w' ->
     durable w' (Wal.fd_ wal) -> Q (Ret (true, wal')) w') ->
  Q Dead w ->
  (forall w', contents w' (Wal.fd_ wal) = [] -> frame (Wal.fd_ wal) w w' ->
     ino_synced w' = ino_synced w -> Q Dead w') ->
  wp (truncate E wal) Q w.
Proof using Hco.
  intros Ht Hd0 Hd1. unfold truncate. apply wp_bind, co_ftruncate; [|done].
  intros w1 Hc Hf Hs. change (take _ _) with (@nil byte) in Hc.
  match goal with |- wp (sync E ?x) _ _ => apply (co_sync x) end; cbn [Wal.fd_].
  - intros wal' w2 Hsame Hc2 Hf2 Hd2. apply Ht; [done|congruence|by etransitivity|done].
  - by apply Hd1.
Qed.

(** *** Tables *)

(** A program that returns only as [P] says. *)
Definition returns {A} (P : A -> Prop) (m : M A) : Prop :=
  forall w, match (m w).1 with Ret a => P a | Throw _ => False | Dead => True end.

Lemma returns_bind {A B} (P : A -> Prop) (Q : B -> Prop) (m : M A) (k : A -> M B) :
  returns P m -> (forall a, P a -> returns Q (k a)) -> returns Q (m ≫= k).
Proof.
  intros Hm Hk w. cbv [mbind M_bind]. specialize (Hm w). destruct (m w) as [[a|e|] w1]; [|done..].
  by apply Hk.
Qed.

Lemma returns_write_all fd data : returns (fun b => b = true) (write_all E fd data).
Proof using Hco.
  intros w. by apply (co_write_all fd data (fun r _ =>
    match r with Ret a => a = true | Throw _ => False | Dead => True end) w).
Qed.

Lemma returns_fsync fd : returns (fun b => b = true) (fsync E fd).
Proof using Hco.
  intros w. by apply (co_fsync fd (fun r _ =>
    match r with Ret a => a = true | Throw _ => False | Dead => True end) w).
Qed.

Definition healthy (wr : SstableWriter) : Prop := sw_failed wr = false /\ sw_finished wr = false.

Lemma returns_add wr key value tomb ex :
  healthy wr -> returns healthy (add E wr key value tomb ex).
Proof using Hco.
  intros [Hf Hn]. unfold add. rewrite Hf.
  assert (healthy (note_index wr key)) as [Hf' Hn'] by (unfold note_index; by case_match).
  eapply returns_bind; [apply returns_write_all|]. by intros b -> w.
Qed.

Lemma returns_add_rows rows : forall wr, healthy wr -> returns healthy (add_rows E wr rows).
Proof using Hco.
  induction rows as [|x rows IH]; intros wr Hwr; cbn [add_rows]; [by intros w|].
  eapply returns_bind; [by apply returns_add|]. intros wr' Hwr'. by apply IH.
Qed.

Lemma returns_finish wr : healthy wr -> returns (fun x => x.1 = true) (finish E wr).
Proof using Hco.
  intros [Hf Hn]. unfold finish. rewrite Hf, Hn. cbn [orb].
  do 3 (eapply returns_bind; [apply returns_write_all|]; intros ? ->; cbn [negb]).
  eapply returns_bind; [apply returns_fsync|]. by intros b -> w.
Qed.

Lemma returns_write_table path bpk rows : returns (fun b => b = true) (write_table E path bpk rows).
Proof using Hco.
  unfold write_table. apply (returns_bind healthy).
  - intros w. unfold SstableWriter_open. cbv [mbind M_bind]. unfold open_trunc.
    destruct (co_answers w) as [->|(m & l & ->)]; [done|]. by destruct (create_entry path w).
  - intros wr Hwr. eapply returns_bind; [by apply returns_add_rows|]. intros wr' Hwr'.
    eapply returns_bind; [by apply returns_finish|]. by intros [b ?] Hb w.
Qed.

Lemma co_write_table path bpk rows (Q : res bool -> world -> Prop) w :
  Forall row_ok rows -> sm_sorted rows -> fits rows ->
  (forall i bs w', creates path i w w' -> durable w' i -> blocks_of bs rows ->
     contents w' i = table_image bs rows bpk -> Q (Ret true) w') ->
  (forall w', same_files w w' \/ (exists i, creates path i w w') -> Q Dead w') ->
  wp (write_table E path bpk rows) Q w.
Proof using Hco.
  intros Hok Hs Hf Ht Hd. pose proof (wp_write_table E path bpk rows w Hok Hs Hf) as Hw.
  pose proof (returns_write_table path bpk rows w) as Hr. unfold wp in *.
  destruct (write_table E path bpk rows w) as [[b|e|] w']; cbn in *; [|done|by apply Hd, Hw].
  subst b. destruct Hw as (i & bs & ? & ? & ? & ?). by eapply Ht.
Qed.

Lemma co_Sstable_open path b i rows (Q : res Sstable -> world -> Prop) w :
  dir w !! path = Some i -> is_table rows (contents w i) ->
  (forall t w', same_files w w' -> table_rep w' t rows -> fd_ t = i -> path_ t = path -> Q (Ret t) w') ->
  (forall w', same_files w w' -> Q Dead w') ->
  wp (Sstable_open E path b) Q w.
Proof using Hco.
  intros Hdir Htab Ht Hd.
  pose proof (wp_Sstable_open E path b w i rows Hdir Htab) as Hw.
  pose proof (wp_Sstable_open (patient E (length (contents w i))) path b w i rows Hdir Htab) as Hp.
  pose proof (patient_reliable E (length (contents w i)) Hco) as Hrel. unfold wp in *.
  destruct (dies_Sstable_open E (length (contents w i)) path b w) as [Hdead|Heq].
  - destruct (Sstable_open E path b w) as [r w']; cbn in *. subst r. by apply Hd, Hw.
  - rewrite <- Heq in Hp. destruct (Sstable_open E path b w) as [[t|e|] w']; cbn in *;
      destruct Hp as [Hs Hp]; [|done|done]. destruct Hp as (? & ? & ? & _). by apply Ht.
Qed.

(** *** Merges *)

Definition merged_post (rows : list (list row)) (d : bool) (now : Z) (path : bytes) (w : world)
    (r : res CompactionResult) (w' : world) : Prop :=
  match r with
  | Ret m => exists i out, ok m = true /\ written m = zlen out /\ creates path i w w' /\ durable w' i /\
      is_table out (contents w' i) /\ forall k, sm_find k out = first_of rows k ≫= keep d now
  | Throw _ => False
  | Dead => same_files w w' \/ exists i, creates path i w w'
  end.

Lemma co_compact inputs rows d now path bpk w :
  Forall2 (table_rep w) inputs rows -> Forall canonical (concat rows) -> fits (concat rows) ->
  output_free w path inputs ->
  wp (compact E inputs d now path bpk) (merged_post rows d now path w) w.
Proof using Hco.
  intros Hrep Hcan Hfit Hfree. set (n := merge_budget inputs rows w bpk).
  pose proof (wp_compact E inputs rows w d now bpk path Hrep Hcan Hfit Hfree) as Hw.
  pose proof (wp_compact (patient E n) inputs rows w d now bpk path Hrep Hcan Hfit Hfree) as Hp.
  pose proof (patient_reliable E n Hco) as Hrel. unfold wp in *.
  destruct (dies_compact E n inputs d now path bpk w) as [Hdead|Heq].
  - destruct (compact E inputs d now path bpk w) as [r w']; cbn in *. subst r. apply Hw.
  - rewrite <- Heq in Hp. destruct (compact E inputs d now path bpk w) as [[[[] wn dn]|e|] w']; cbn in *;
      [|by destruct Hp..].
    destruct Hp as (i & out & ? & ? & ? & _ & -> & _ & ?). by exists i, out.
Qed.

End calls.
