(* ===== verification/Durable.v ===== *)
(** * What survives a crash

    The abstract history of a store is the map it started from and the writes since.
    [running] ties a running store to its history: the tables hold the writes up to
    some point, the log the rest, and a known prefix of the log is durable.
    [recoverable] says what a crash leaves of it.  The theorems show that on a
    kernel that works until the process dies, every operation keeps [running] when
    it returns, and wherever it dies it leaves a disk from which a restart gives
    back, for every key, the value the key had at some point of the history between
    the last durable write and the end.

    [flush_all] and [maybe_compact] are not among these operations: [StoreSpec] and
    [Lifecycle] show a moment in each when they do not have this property.  What they do
    have is in [Refine] and [Merging]. *)

From stdpp Require Import gmap.
From S2P Require Import Prelude Decimal SortedMap Memtable WalCodec Posix Wal Sstable Compaction Store Abstract LogGuard Crash.

(** ** Disks *)

Definition log_path (o : StoreOptions) : bytes := in_dir (o_dir o) (lit "wal.log").

(** [p] leads to [i], now or after a power cut. *)
Definition named (w : world) (p : bytes) (i : nat) : Prop :=
  dir w !! p = Some i \/ dir_synced w !! p = Some i.

Definition extra_layer (extra : option (Z * nat * list row)) : list (Z * list row) :=
  match extra with Some (q, _, rs) => [(q, rs)] | None => [] end.

(** The data directory: tables whose names and contents are durable, perhaps one more
    whose contents are durable and whose name may not be, and a log. *)
Record disk (w : world) (o : StoreOptions) (layers : list (Z * list row))
    (extra : option (Z * nat * list row)) (fd : nat) : Prop := mkDisk {
  dk_sorted : StronglySorted Z.gt (extra_layer extra ++ layers).*1;
  dk_seqs : Forall (fun q => 0 <= q < 2 ^ 64 - 1) (extra_layer extra ++ layers).*1;
  dk_canon : rows_canon (extra_layer extra ++ layers).*2;
  dk_table q rs : (q, rs) ∈ layers -> exists i,
    dir w !! in_dir (o_dir o) (table_name q) = Some i /\
    dir_synced w !! in_dir (o_dir o) (table_name q) = Some i /\
    durable w i /\ is_table rs (contents w i);
  dk_extra q i rs : extra = Some (q, i, rs) ->
    durable w i /\ is_table rs (contents w i) /\
    forall j, named w (in_dir (o_dir o) (table_name q)) j -> j = i;
  dk_names p i n q : named w p i -> name_in (o_dir o) p = Some n -> sequence_of n = Some q ->
    q ∈ (extra_layer extra ++ layers).*1 /\ p = in_dir (o_dir o) (table_name q);
  dk_bound p i : named w p i -> (i < next_ino w)%nat;
  dk_inj p q i : named w p i -> named w q i -> p = q;
  dk_log : dir w !! log_path o = Some fd /\ dir_synced w !! log_path o = Some fd
}.

Lemma crash_named w w' p i : crash w w' -> dir w' !! p = Some i -> named w p i.
Proof. intros Hc Hp. destruct (crash_dir _ _ p Hc) as [H|H]; rewrite H in Hp; [by left|by right]. Qed.

Lemma crash_stable w w' p i :
  crash w w' -> dir w !! p = Some i -> dir_synced w !! p = Some i -> dir w' !! p = Some i.
Proof. intros Hc H1 H2. by destruct (crash_dir _ _ p Hc) as [->| ->]. Qed.

(** After a crash the tables are all there, and the one in the making is there
    entirely or not at all. *)
Lemma disk_crash w w' o layers extra fd :
  disk w o layers extra fd -> crash w w' ->
  exists layers', dir_rep w' o layers' /\ dir w' !! log_path o = Some fd /\
    (layers' = layers \/ extra <> None /\ layers' = extra_layer extra ++ layers).
Proof.
  intros D Hc.
  assert (forall q rs, (q, rs) ∈ layers -> exists i,
    dir w' !! in_dir (o_dir o) (table_name q) = Some i /\ is_table rs (contents w' i)) as Htab.
  { intros q rs Hin. destruct (dk_table _ _ _ _ _ D q rs Hin) as (i & H1 & H2 & Hd & Ht).
    exists i. split; [by apply (crash_stable w)|]. by rewrite (durable_crash w). }
  assert (dir w' !! log_path o = Some fd) as Hlog.
  { destruct (dk_log _ _ _ _ _ D) as [H1 H2]. by apply (crash_stable w). }
  assert (forall p i, dir w' !! p = Some i -> (i < next_ino w')%nat) as Hb.
  { intros p i Hp. rewrite (crash_next w w' Hc). by eapply dk_bound, crash_named. }
  assert (forall p q i, dir w' !! p = Some i -> dir w' !! q = Some i -> p = q) as Hi.
  { intros p q i Hp Hq. by eapply dk_inj; [exact D|eapply crash_named..]. }
  destruct extra as [[[q0 i0] rs0]|].
  2: { exists layers. split; [|by auto]. constructor; auto; try apply D.
       intros p i n q Hp Hn Hq. by eapply (dk_names _ _ _ _ _ D); [eapply crash_named|..]. }
  destruct D as [Hs Hq Hcan _ Hex Hnm _ _ _].
  cbn [extra_layer app fmap list_fmap fst snd] in Hs, Hq, Hcan, Hnm.
  destruct (Hex q0 i0 rs0 eq_refl) as (Hd0 & Ht0 & Hj0).
  destruct (dir w' !! in_dir (o_dir o) (table_name q0)) as [j|] eqn:Hp0.
  - assert (j = i0) as -> by (by eapply Hj0, crash_named).
    exists ((q0, rs0) :: layers). split; [|by auto]. constructor; auto.
    + intros q rs [[= -> ->]|Hin]%elem_of_cons; [|auto]. exists i0. split; [done|]. by rewrite (durable_crash w).
    + intros p i n q Hp. by eapply Hnm, crash_named.
  - exists layers. split; [|by auto]. constructor; auto.
    + by apply StronglySorted_inv in Hs as [? _].
    + by apply Forall_cons in Hq as [_ ?].
    + unfold rows_canon in *. cbn in Hcan. by apply Forall_app in Hcan as [_ ?].
    + intros p i n q Hp Hn Hsq. destruct (Hnm p i n q) as [Hin ->]; [by eapply crash_named|done|done|].
      split; [|done]. apply elem_of_cons in Hin as [->|]; [congruence|done].
Qed.

(** ** The log after a crash *)

(** A log of which a prefix of at least [m] records was written out. *)
Lemma enc_take_app m all : enc all = enc (take m all) ++ enc (drop m all).
Proof. by rewrite <- enc_app, take_drop. Qed.

Lemma log_prefix m all p :
  Forall record_ok all -> (m <= length all)%nat -> (length (enc (take m all)) <= p)%nat ->
  exists j tail, (m <= j <= length all)%nat /\ take p (enc all) = enc (take j all) ++ tail /\
    (tail = [] \/ torn tail).
Proof.
  intros Hok Hm Hp. rewrite (enc_take_app m all), take_app_ge by done.
  destruct (take_enc (p - length (enc (take m all))) (drop m all)) as (k & tail & Hk & Ht);
    [by apply Forall_drop|].
  exists (Nat.min (m + k) (length all)), tail. split; [lia|]. split; [|done].
  rewrite Hk, app_assoc, <- enc_app. f_equal. f_equal. rewrite take_take_drop.
  destruct (decide (m + k <= length all)%nat); [by rewrite Nat.min_l|].
  by rewrite Nat.min_r, !take_ge by lia.
Qed.

Lemma log_crash w w' fd all m p tail :
  crash w w' -> Forall record_ok all -> contents w fd = take p (enc all) ->
  (m <= length all)%nat -> (length (enc (take m all)) <= p)%nat ->
  ino_synced w !! fd = Some (enc (take m all) ++ tail) -> tail = [] \/ torn tail ->
  exists j tail', (m <= j <= length all)%nat /\
    contents w' fd = enc (take j all) ++ tail' /\ (tail' = [] \/ torn tail').
Proof.
  intros Hc Hok Hcont Hm Hp Hs Ht.
  assert (contents w' fd = contents w fd \/ contents w' fd = enc (take m all) ++ tail \/
    exists q, contents w' fd = take q (contents w fd) /\ (length (enc (take m all)) <= q)%nat) as Hcase.
  { destruct Hc as [Hw|Hc]; [left; by rewrite <- Hw|].
    destruct (pc_ino _ _ Hc fd) as [->|[->|(y & n & Hy & ->)]]; [by left|right; left; by rewrite Hs|].
    rewrite Hs in Hy |- *. cbn [default] in *. right. right.
    exists (length (enc (take m all) ++ tail) + n)%nat. split; [|rewrite length_app; lia].
    by rewrite Hy, take_app_add. }
  destruct Hcase as [->|[->|(q & -> & Hq)]].
  - rewrite Hcont. by apply log_prefix.
  - exists m, tail. split; [lia|done].
  - rewrite Hcont, take_take. apply log_prefix; [done|done|lia].
Qed.

(** ** A running store and its history *)

(** The memtable against the writes in the log: the same keys, and for a reader from
    [T] on the same answers (the sweep turns expired entries into tombstones). *)
Definition mem_is (T : Z) (m : Memtable) (ws : list write) : Prop := forall k,
  match find m k, last_of ws k with
  | None, None => True
  | Some e, Some e' => same_answer T (Some e) (Some e')
  | _, _ => False
  end.

(** What a restart would find: a directory of tables and a log whose last record may be
    torn, that together give every key a value it had between the [s]-th write and
    the last. *)
Definition recoverable (o : StoreOptions) (V0 : bytes -> option Entry) (ws : list write) (s : nat)
    (T : Z) (w : world) : Prop :=
  exists layers log tail fd,
    dir_rep w o layers /\ dir w !! log_path o = Some fd /\ Forall record_ok log /\
    contents w fd = enc log ++ tail /\ (tail = [] \/ torn tail) /\
    forall k, exists j, (s <= j <= length ws)%nat /\
      same_answer T (after (first_of layers.*2) (write_of <$> log) k) (after V0 (take j ws) k).

Lemma recoverable_weaken o V0 ws s s' T w :
  (s' <= s)%nat -> recoverable o V0 ws s T w -> recoverable o V0 ws s' T w.
Proof.
  intros Hs (l & lg & tl & fd & ? & ? & ? & ? & ? & Hk). exists l, lg, tl, fd. split_and!; try done.
  intros k. destruct (Hk k) as (j & Hj & Ha). exists j. split; [lia|done].
Qed.

(** Every crash in [w] is survived. *)
Definition survives (o : StoreOptions) (V0 : bytes -> option Entry) (ws : list write) (s : nat)
    (T : Z) (w : world) : Prop := forall w', crash w w' -> recoverable o V0 ws s T w'.

(** The ghost state: the tables, the log's inode, its records, and how many of them are
    known to be durable. *)
Record ghost := mkGhost {
  g_layers : list (Z * list row);
  g_fd : nat;
  g_recs : list Record_;
  g_m : nat
}.

Definition log_durable (w : world) (fd : nat) (recs : list Record_) (m : nat) : Prop :=
  (m <= length recs)%nat /\
  exists tail, ino_synced w !! fd = Some (enc (take m recs) ++ tail) /\ (tail = [] \/ torn tail).

(** [ws] is what the tables hold ([ws1]) and what the log holds, and the first [s] of
    them are durable. *)
Definition history (V0 : bytes -> option Entry) (ws : list write) (s : nat) (T : Z) (g : ghost) : Prop :=
  exists ws1, ws = ws1 ++ (write_of <$> g_recs g) /\ s = (length ws1 + g_m g)%nat /\
    forall k, same_answer T (first_of (g_layers g).*2 k) (after V0 ws1 k).

Record running (V0 : bytes -> option Entry) (ws : list write) (s : nat) (T : Z)
    (w : world) (st : Store) (g : ghost) : Prop := mkRunning {
  rn_inv : store_inv w st (g_layers g).*2;
  rn_dir : o_dir (options_ st) <> [];
  rn_wal : exists wal, wal_ st = Some wal /\ Wal.fd_ wal = g_fd g;
  rn_disk : disk w (options_ st) (g_layers g) None (g_fd g);
  rn_next : Forall (fun q => q < next_sequence_ st) (g_layers g).*1;
  rn_paths : path_ <$> sstables_ st = table_path st <$> (g_layers g).*1;
  rn_temps p : p ∈ temps st -> dir w !! p = None;
  rn_recs : Forall record_ok (g_recs g);
  rn_contents : contents w (g_fd g) = enc (g_recs g);
  rn_synced : log_durable w (g_fd g) (g_recs g) (g_m g);
  rn_mem : mem_is T (memtable_ st) (write_of <$> g_recs g);
  rn_hist : history V0 ws s T g
}.

(** Histories whose log is cut at [j]. *)
Lemma history_cut V0 ws s T g j k :
  history V0 ws s T g -> (g_m g <= j <= length (g_recs g))%nat ->
  exists i, (s <= i <= length ws)%nat /\
    same_answer T (after (first_of (g_layers g).*2) (write_of <$> take j (g_recs g)) k)
      (after V0 (take i ws) k).
Proof.
  intros (ws1 & -> & -> & Hbase) Hj. exists (length ws1 + j)%nat. split.
  - rewrite length_app, length_fmap. lia.
  - rewrite take_app_add, <- fmap_take, after_app. by apply after_same.
Qed.

Lemma history_length V0 ws s T g :
  history V0 ws s T g -> (g_m g <= length (g_recs g))%nat -> (s <= length ws)%nat.
Proof. intros (ws1 & -> & -> & _) Hm. rewrite length_app, length_fmap. lia. Qed.

(** The file of the log, appended to in part. *)
Lemma survives_log V0 ws s T w o g more p :
  disk w o (g_layers g) None (g_fd g) -> Forall record_ok (g_recs g ++ more) ->
  history V0 ws s T g -> log_durable w (g_fd g) (g_recs g) (g_m g) ->
  contents w (g_fd g) = enc (g_recs g) ++ take p (enc more) ->
  survives o V0 (ws ++ (write_of <$> more)) s T w.
Proof.
  intros D Hok Hh [Hm (tail & Hs & Ht)] Hc w' Hcr.
  destruct (disk_crash _ _ _ _ _ _ D Hcr) as (layers & Hrep & Hlog & [->|[? _]]); [|done].
  assert (take (g_m g) (g_recs g ++ more) = take (g_m g) (g_recs g)) as Htk by (by rewrite take_app_le).
  destruct (log_crash w w' (g_fd g) (g_recs g ++ more) (g_m g) (length (enc (g_recs g)) + p) tail)
    as (j & tail' & Hj & Hx & Ht'); try done.
  - by rewrite Hc, enc_app, take_app_add.
  - rewrite length_app. lia.
  - rewrite Htk, (enc_take_app (g_m g) (g_recs g)), length_app. lia.
  - by rewrite Htk.
  - exists (g_layers g), (take j (g_recs g ++ more)), tail', (g_fd g). split_and!; try done.
    { by apply Forall_take. }
    intros k.
    assert (history V0 (ws ++ (write_of <$> more)) s T
      (mkGhost (g_layers g) (g_fd g) (g_recs g ++ more) (g_m g))) as Hh'.
    { destruct Hh as (ws1 & -> & -> & Hbase). exists ws1. cbn. by rewrite fmap_app, app_assoc. }
    by apply (history_cut _ _ _ _ _ j k Hh').
Qed.

(** A disk at rest survives a crash. *)
Lemma survives_rest V0 ws s T w o g :
  disk w o (g_layers g) None (g_fd g) -> Forall record_ok (g_recs g) -> history V0 ws s T g ->
  log_durable w (g_fd g) (g_recs g) (g_m g) -> contents w (g_fd g) = enc (g_recs g) ->
  survives o V0 ws s T w.
Proof.
  intros D Hok Hh Hd Hc. rewrite <- (app_nil_r ws). apply (survives_log V0 ws s T w _ g [] 0); try done.
  - by rewrite app_nil_r.
  - by rewrite take_0, app_nil_r.
Qed.

Lemma running_survives V0 ws s T w st g :
  running V0 ws s T w st g -> survives (options_ st) V0 ws s T w.
Proof. intros R. by apply (survives_rest V0 ws s T w _ g); apply R. Qed.

(** A world in which the log's file has changed and nothing else. *)
Lemma disk_frame w w' o layers extra fd :
  disk w o layers extra fd -> frame fd w w' ->
  (forall q i rs, extra = Some (q, i, rs) -> i <> fd) ->
  (forall q rs, (q, rs) ∈ layers -> in_dir (o_dir o) (table_name q) <> log_path o) ->
  disk w' o layers extra fd.
Proof.
  intros D [Hd Hs Hn Hi Hj] Hex Hlog.
  assert (forall p i, named w' p i -> named w p i) as Hnm by (intros p i; unfold named; by rewrite Hd, Hs).
  assert (forall i, i <> fd -> durable w i -> durable w' i /\ contents w' i = contents w i) as Hdur.
  { intros i Hne Hdu. assert (contents w' i = contents w i) as Hc by (unfold contents; by rewrite Hi).
    split; [|done]. unfold durable. by rewrite Hj, Hc. }
  destruct D as [D1 D2 D3 D4 D5 D6 D7 D8 D9]. constructor; auto.
  - intros q rs Hin. destruct (D4 q rs Hin) as (i & H1 & H2 & H3 & H4). exists i.
    assert (i <> fd) as Hne.
    { intros ->. apply (Hlog q rs Hin). apply (D8 _ _ fd); [by left|left; apply D9]. }
    destruct (Hdur i Hne H3) as [? Hc]. rewrite Hd, Hs, Hc. auto.
  - intros q i rs He. destruct (D5 q i rs He) as (H1 & H2 & H3).
    destruct (Hdur i (Hex _ _ _ He) H1) as [? Hc]. rewrite Hc. split_and!; [done|done|]. eauto.
  - intros p i n q Hp. by eapply D6, Hnm.
  - intros p i Hp. rewrite Hn. by eapply D7, Hnm.
  - intros p q i Hp Hq. by eapply D8; apply Hnm.
  - by rewrite Hd, Hs.
Qed.

(** The log's name is no table's. *)
Lemma log_path_not_table o q : in_dir (o_dir o) (table_name q) <> log_path o.
Proof.
  unfold log_path, in_dir. intros H. apply app_inv_head in H. cbn [app] in H.
  injection H as H. assert (last (table_name q) = Some x74) as Ht.
  { unfold table_name. repeat apply last_app_r. reflexivity. }
  rewrite H in Ht. discriminate Ht.
Qed.

Lemma log_path_not_temp st p : p ∈ temps st -> p <> log_path (options_ st).
Proof.
  intros Hp Heq. subst p. unfold temps, log_path, in_dir in Hp.
  apply elem_of_cons in Hp as [H|Hp]; [by apply app_inv_head in H|].
  apply elem_of_cons in Hp as [H|Hp]; [by apply app_inv_head in H|]. by apply elem_of_nil in Hp.
Qed.

(** ** The memtable follows the log *)

Lemma mem_is_set T m ws k v e :
  memtable_wf m -> mem_is T m ws -> mem_is T (Memtable.set m k v e) (ws ++ [(k, mkEntry v false e)]).
Proof.
  intros Hwf H k'. specialize (H k'). rewrite find_set, last_of_app by done. cbn [last_of].
  destruct (decide (k' = k)) as [->|Hne]; [by rewrite decide_True|]. by rewrite decide_False.
Qed.

Lemma mem_is_del T m ws k :
  memtable_wf m -> mem_is T m ws -> mem_is T (Memtable.del m k).2 (ws ++ [(k, tomb)]).
Proof.
  intros Hwf H k'. specialize (H k'). rewrite find_del, last_of_app by done. cbn [last_of].
  destruct (decide (k' = k)) as [->|Hne]; [by rewrite decide_True|]. by rewrite decide_False.
Qed.

Lemma mem_is_mono T T' m ws : T <= T' -> mem_is T m ws -> mem_is T' m ws.
Proof.
  intros HT H k. specialize (H k). destruct (find m k), (last_of ws k); try done.
  by eapply same_answer_mono.
Qed.

(** What the store holds is the end of the history. *)
Lemma mem_is_view T m ws rows V k :
  mem_is T m ws -> same_answer T (first_of rows k) (V k) ->
  same_answer T (view m rows k) (after V ws k).
Proof.
  intros H Hb. specialize (H k). unfold view, after.
  by destruct (find m k), (last_of ws k).
Qed.

Lemma running_view V0 ws s T w st g k :
  running V0 ws s T w st g -> same_answer T (view (memtable_ st) (g_layers g).*2 k) (after V0 ws k).
Proof.
  intros R. destruct (rn_hist _ _ _ _ _ _ _ R) as (ws1 & -> & _ & Hb). rewrite after_app.
  apply mem_is_view; [apply R|apply Hb].
Qed.

(** ** A write reaches the log *)

Definition writes_of (c : WalCall) : list write := write_of <$> call_records 0 c.

Lemma writes_of_now c now : write_of <$> call_records now c = writes_of c.
Proof.
  unfold writes_of. destruct c as [| ms| | |]; try done. cbn [call_records].
  rewrite <- !list_fmap_compose. apply list_fmap_ext. by intros.
Qed.

Section ops.
Context (E : env) (Hco : crash_only E) (Hclk : clock_ok E).

(** A store with other contents of memory over the same files. *)
Lemma running_mem V0 ws s T w st g m n :
  running V0 ws s T w st g -> memtable_wf m -> mem_is T m (write_of <$> g_recs g) ->
  running V0 ws s T w (mkStore m (sstables_ st) (options_ st) (next_sequence_ st) n (compactions_ st)
    (flush_failed_ st) (wal_ st)) g.
Proof.
  intros R Hwf Hm. pose proof (rn_inv _ _ _ _ _ _ _ R) as [H1 H2 H3 H4 H5 HI H6 H7 H8].
  destruct R. by constructor.
Qed.

Lemma running_same V0 ws s T w w' st g :
  same_files w w' -> running V0 ws s T w st g -> running V0 ws s T w' st g.
Proof.
  intros Hw [R1 R2 R3 R4 R5 RP R6 R7 R8 R9 R10 R11].
  pose proof Hw as (Hd & Hs & Hi & Hj & Hn). constructor; auto.
  - by apply (inv_same w).
  - apply (disk_frame w); [done|by apply same_files_frame|done|]. intros; apply log_path_not_table.
  - by rewrite Hd.
  - by rewrite <- Hw.
  - unfold log_durable. by rewrite Hj.
Qed.

(** From the log call to the memtable. *)
Lemma wp_log_write V0 ws s T st g wal c w :
  running V0 ws s T w st g -> wal_ st = Some wal ->
  match c with CAppend _ _ _ _ | CBatch _ => True | _ => False end ->
  call_records 0 c <> [] -> call_ok c ->
  wp (call E c wal) (fun r w' => match r with
    | Ret (b, wal') => b = true /\ same_wal wal wal' /\
        forall m', memtable_wf m' -> mem_is T m' ((write_of <$> g_recs g) ++ writes_of c) ->
        exists g' s', running V0 (ws ++ writes_of c) s' T w' (set_memtable (set_wal st (Some wal')) m') g' /\
          (s <= s')%nat /\ g_layers g' = g_layers g /\
          (policy_ wal = kAlways -> group_commit_ wal = false -> s' = length (ws ++ writes_of c))
    | Throw _ => False
    | Dead => survives (options_ st) V0 (ws ++ writes_of c) s T w'
    end) w.
Proof using Hco Hclk.
  intros R Hw Hc Hne Hok. pose proof R as [R1 R2 (wal0 & Hw0 & Hfd) R4 R5 RP R6 R7 R8 R9 R10 R11].
  assert (wal0 = wal) as -> by congruence.
  set (new := call_records (clock_at E (tick w)) c).
  assert (Forall record_ok (g_recs g ++ new)) as Hrecs by (apply Forall_app; split; [done|by apply Hok]).
  assert (write_of <$> new = writes_of c) as Hnew by apply writes_of_now.
  assert (forall w', frame (g_fd g) w w' -> disk w' (options_ st) (g_layers g) None (g_fd g)) as Hdisk.
  { intros w' Hf. apply (disk_frame w); [done|done|done|]. intros; apply log_path_not_table. }
  apply co_call_write; [done|done|done|..]; fold new; rewrite Hfd.
  - intros wal' w' Hsame Hcont Hf Hs. split; [done|]. split; [done|]. intros m' Hwf Hmem.
    assert (exists m1, log_durable w' (g_fd g) (g_recs g ++ new) m1 /\ (g_m g <= m1)%nat /\
      (policy_ wal = kAlways -> group_commit_ wal = false -> m1 = length (g_recs g ++ new)))
      as (m1 & Hdur & Hm1 & Hpol).
    { destruct R9 as [Hm (tail & Hsy & Ht)]. unfold synced_after in Hs. rewrite Hfd in Hs.
      destruct Hs as [Hs|[Hs Hp]].
      - exists (length (g_recs g ++ new)). split; [|split; [rewrite length_app; lia|done]].
        split; [done|]. exists []. split; [|by left].
        rewrite Hs, Hcont, R8, app_nil_r, firstn_all, enc_app. done.
      - exists (g_m g). split; [|split; [lia|naive_solver]]. split; [rewrite length_app; lia|].
        exists tail. by rewrite Hs, take_app_le. }
    destruct R11 as (ws1 & Hws & -> & Hb).
    exists (mkGhost (g_layers g) (g_fd g) (g_recs g ++ new) m1), (length ws1 + m1)%nat.
    assert (length ws1 + length (g_recs g ++ new) = length (ws ++ writes_of c))%nat as Hlen.
    { rewrite Hws, <- Hnew, !length_app, !length_fmap. lia. }
    split; [|split; [lia|split; [done|intros; rewrite <- Hlen; by rewrite Hpol]]].
    constructor; cbn [g_layers g_fd g_recs g_m]; auto.
    + apply inv_set_memtable; [done|]. apply (inv_set_wal _ _ _ wal); [done|by destruct Hsame|].
      apply (inv_frame w _ _ _ wal); [done|by rewrite Hfd|done].
    + exists wal'. split; [done|]. destruct Hsame as (-> & _). done.
    + intros p Hp. rewrite (frame_dir _ _ _ Hf). by apply R6.
    + by rewrite Hcont, R8, enc_app.
    + by rewrite fmap_app, Hnew.
    + exists ws1. cbn. rewrite fmap_app, Hnew, app_assoc, <- Hws. auto.
  - intros w' (Hf & (n & Hcont) & Hs). rewrite <- Hnew.
    apply (survives_log V0 ws s T w' _ g new n); auto.
    + unfold log_durable. by rewrite Hs.
    + by rewrite Hcont, R8.
Qed.

(** ** A flush *)

(** The names a table is assembled under. *)
Definition scratch (o : StoreOptions) (p : bytes) : Prop :=
  p = in_dir (o_dir o) kFlushTemp \/ p = in_dir (o_dir o) kCompactTemp.

Lemma scratch_temps st p : p ∈ temps st <-> scratch (options_ st) p.
Proof. unfold temps, scratch. by rewrite !elem_of_cons, elem_of_nil; intuition. Qed.

Lemma temp_not_table o p n q :
  scratch o p -> name_in (o_dir o) p = Some n -> sequence_of n = Some q -> False.
Proof.
  intros [->| ->]; (rewrite name_in_dir; [by intros [= <-]|]; intros H;
    repeat (apply elem_of_cons in H as [?|H]; [done|]); by apply elem_of_nil in H).
Qed.

(** The temporary file is nobody else's. *)
Lemma disk_creates w w' o layers fd p i :
  disk w o layers None fd -> scratch o p -> dir w !! p = None -> creates p i w w' ->
  disk w' o layers None fd /\ i = next_ino w /\
  (forall j, (j < next_ino w)%nat -> contents w' j = contents w j /\ ino_synced w' !! j = ino_synced w !! j).
Proof.
  intros D Hp Hnone [Hd Hs Hi Hj Hn].
  assert (i = next_ino w /\ next_ino w' = S (next_ino w)) as [-> Hn'] by (destruct Hn as [[? _]|(_ & ? & ?)]; [congruence|done]).
  assert (forall j, (j < next_ino w)%nat -> contents w' j = contents w j /\ ino_synced w' !! j = ino_synced w !! j) as Hold.
  { intros j Hlt. unfold contents. by rewrite Hi, Hj by lia. }
  split; [|done].
  assert (forall q j, named w' q j -> q = p /\ j = next_ino w \/ named w q j) as Hnm.
  { intros q j [H|H]; [|right; right; by rewrite <- Hs]. rewrite Hd in H.
    apply lookup_insert_Some in H as [[<- <-]|[_ H]]; [by left|right; by left]. }
  assert (forall q j, dir w !! q = Some j -> dir w' !! q = Some j) as Hkeep.
  { intros q j H. rewrite Hd, lookup_insert_ne; [done|]. congruence. }
  destruct D as [D1 D2 D3 D4 D5 D6 D7 D8 D9]. constructor; auto; try done.
  - intros q rs Hin. destruct (D4 q rs Hin) as (j & H1 & H2 & H3 & H4). exists j.
    destruct (Hold j) as [Hc Hsy]; [eapply D7; by left|].
    split_and!; [by apply Hkeep|by rewrite Hs|unfold durable; by rewrite Hc, Hsy|by rewrite Hc].
  - intros q j n q' [[-> ->]|H]%Hnm; [|by eapply D6]. intros Hnn Hq.
    by destruct (temp_not_table o p n q' Hp Hnn Hq).
  - intros q j [[-> ->]|H%D7]%Hnm; lia.
  - intros q q' j [[-> ->]|H]%Hnm [[-> Hj']|H']%Hnm; try done; [..|by eapply D8].
    + apply D7 in H'. lia.
    + apply D7 in H. lia.
  - destruct D9 as [H1 H2]. split; [by apply Hkeep|by rewrite Hs].
Qed.

(** The finished table takes its name. *)
Lemma disk_rename w w' o layers fd p q i rs :
  disk w o layers None fd -> p = in_dir (o_dir o) kFlushTemp -> dir w !! p = Some i ->
  (forall j, dir_synced w !! p = Some j -> j <> i) ->
  dir w' = <[in_dir (o_dir o) (table_name q) := i]> (delete p (dir w)) -> dir_synced w' = dir_synced w ->
  same_inodes w w' ->
  Forall (fun q' => q' < q) layers.*1 -> 0 <= q < 2 ^ 64 - 1 -> Forall (fun x : row => entry_ok x.2) rs ->
  durable w i -> is_table rs (contents w i) ->
  disk w' o layers (Some (q, i, rs)) fd.
Proof.
  intros D Hp Hi Hsy Hd Hs Hino Hlt Hq Hcan Hdur Htab. set (path := in_dir (o_dir o) (table_name q)) in *.
  pose proof Hino as (_ & Hsi & Hn).
  assert (forall j, contents w' j = contents w j) as Hc by (intros j; by apply same_inodes_contents).
  assert (forall j, durable w j -> durable w' j) as Hdd by (intros j; unfold durable; by rewrite Hc, Hsi).
  assert (forall j, ~ named w path j) as Hfree.
  { intros j Hj. destruct (dk_names _ _ _ _ _ D path j (table_name q) q Hj) as [Hin _].
    - apply name_in_dir, table_name_no_slash. lia.
    - apply sequence_of_table_name. unfold is_u64. lia.
    - rewrite Forall_forall in Hlt. specialize (Hlt q Hin). cbn in Hlt. lia. }
  assert (forall r j, named w' r j -> r = path /\ j = i \/ r <> path /\ (r = p -> j <> i) /\ named w r j) as Hnm.
  { intros r j [H|H].
    - rewrite Hd in H. apply lookup_insert_Some in H as [[<- <-]|[Hne H]]; [by left|].
      apply lookup_delete_Some in H as [Hnp H]. right. split_and!; [done|done|by left].
    - rewrite Hs in H. right. split_and!; [intros ->; apply (Hfree j); by right|intros ->; by apply Hsy|by right]. }
  assert (p <> log_path o /\ forall q', p <> in_dir (o_dir o) (table_name q')) as [Hpl Hpt].
  { split.
    - rewrite Hp. unfold log_path, in_dir. intros H. by apply app_inv_head in H.
    - intros q' Heq. apply (table_path_not_temp (opened o [] []) q' p); [|done].
      rewrite Hp. by left. }
  assert (forall r j, dir w !! r = Some j -> r <> p -> dir w' !! r = Some j) as Hkeep.
  { intros r j H Hr. rewrite Hd, lookup_insert_ne, lookup_delete_ne; [done|done|].
    intros ->. apply (Hfree j). by left. }
  destruct D as [D1 D2 D3 D4 D5 D6 D7 D8 D9]. constructor; cbn [extra_layer app fmap list_fmap fst snd].
  - constructor; [done|]. eapply Forall_impl; [exact Hlt|]. cbn. lia.
  - by constructor.
  - unfold rows_canon in *. cbn. by apply Forall_app.
  - intros q' rs' Hin. destruct (D4 q' rs' Hin) as (j & H1 & H2 & H3 & H4). exists j.
    split_and!; [apply Hkeep; [done|by symmetry; apply not_eq_sym]|by rewrite Hs|by apply Hdd|by rewrite Hc].
  - intros ? ? ? [= <- <- <-]. split_and!; [by apply Hdd|by rewrite Hc|].
    intros j [[_ ->]|(Hne & _)]%Hnm; done.
  - intros r j n q' [[-> ->]|(_ & _ & H)]%Hnm Hn1 Hq1.
    + unfold path in Hn1. rewrite name_in_dir in Hn1 by (apply table_name_no_slash; lia).
      injection Hn1 as <-. rewrite sequence_of_table_name in Hq1 by (unfold is_u64; lia).
      injection Hq1 as <-. split; [by left|done].
    + destruct (D6 r j n q' H Hn1 Hq1) as [? ->]. split; [by right|done].
  - intros r j [[-> ->]|(_ & _ & H)]%Hnm; rewrite Hn; [eapply D7; by left|by eapply D7].
  - intros r r' j [[-> ->]|(Hr & Hrp & H)]%Hnm [[-> Hj]|(Hr' & Hrp' & H')]%Hnm; subst; auto.
    + destruct (decide (r' = in_dir (o_dir o) kFlushTemp)) as [Heq|Hne]; [by destruct (Hrp' Heq)|].
      destruct Hne. eapply D8; [exact H'|by left].
    + destruct (decide (r = in_dir (o_dir o) kFlushTemp)) as [Heq|Hne]; [by destruct (Hrp Heq)|].
      destruct Hne. eapply D8; [exact H|by left].
    + by eapply D8.
  - destruct D9 as [H1 H2]. split; [apply Hkeep; [done|by apply not_eq_sym]|by rewrite Hs].
Qed.

(** The names are made durable. *)
Lemma disk_publish w w' o layers fd q i rs :
  disk w o layers (Some (q, i, rs)) fd -> dir w !! in_dir (o_dir o) (table_name q) = Some i ->
  dir w' = dir w -> dir_synced w' = dir w -> same_inodes w w' ->
  disk w' o ((q, rs) :: layers) None fd.
Proof.
  intros D Hi Hd Hs Hino. pose proof Hino as (_ & Hsi & Hn).
  assert (forall j, contents w' j = contents w j) as Hc by (intros j; by apply same_inodes_contents).
  assert (forall j, durable w j -> durable w' j) as Hdd by (intros j; unfold durable; by rewrite Hc, Hsi).
  assert (forall r j, named w' r j -> named w r j) as Hnm.
  { intros r j [H|H]; left; [by rewrite Hd in H|by rewrite Hs in H]. }
  destruct D as [D1 D2 D3 D4 D5 D6 D7 D8 D9]. constructor; auto; try done.
  - intros q' rs' [[= -> ->]|Hin]%elem_of_cons.
    + destruct (D5 q i rs eq_refl) as (H1 & H2 & _). exists i.
      rewrite Hd, Hs, Hc. split_and!; auto.
    + destruct (D4 q' rs' Hin) as (j & H1 & H2 & H3 & H4). exists j. rewrite Hd, Hs, Hc. split_and!; auto.
  - intros r j n q' H. by eapply D6, Hnm.
  - intros r j H. rewrite Hn. by eapply D7, Hnm.
  - intros r r' j H H'. by eapply D8; apply Hnm.
  - rewrite Hd, Hs. by destruct D9.
Qed.

(** A directory all of whose names are durable, with other tables. *)
Lemma disk_settled w w' o layers layers' fd :
  disk w o layers None fd -> dir_synced w' = dir w' ->
  layers'.*1 `sublist_of` layers.*1 -> rows_canon layers'.*2 ->
  (forall q rs, (q, rs) ∈ layers' -> exists i, dir w' !! in_dir (o_dir o) (table_name q) = Some i /\
     durable w' i /\ is_table rs (contents w' i)) ->
  (forall q, q ∈ layers.*1 -> q ∉ layers'.*1 -> dir w' !! in_dir (o_dir o) (table_name q) = None) ->
  (forall p i, dir w' !! p = Some i -> exists j, named w p j) ->
  (forall p i, dir w' !! p = Some i -> (i < next_ino w')%nat) ->
  (forall p q i, dir w' !! p = Some i -> dir w' !! q = Some i -> p = q) ->
  dir w' !! log_path o = Some fd ->
  disk w' o layers' None fd.
Proof.
  intros D Hs Hsub Hcan Htab Hgone Hold Hb Hi Hlog.
  assert (forall p i, named w' p i -> dir w' !! p = Some i) as Hnow.
  { intros p i [?|H]; [done|]. by rewrite Hs in H. }
  destruct D as [D1 D2 D3 D4 D5 D6 D7 D8 D9].
  constructor; cbn [extra_layer app fmap list_fmap] in *.
  - by eapply sublist_sorted.
  - by eapply Forall_sublist.
  - done.
  - intros q rs Hin. destruct (Htab q rs Hin) as (i & H1 & H2 & H3). exists i. by rewrite Hs.
  - done.
  - intros p i n q Hp%Hnow Hnn Hq. destruct (Hold p i Hp) as (j & Hj).
    destruct (D6 p j n q Hj Hnn Hq) as [Hin ->]. split; [|done].
    destruct (decide (q ∈ layers'.*1)) as [?|Hn]; [done|]. by rewrite (Hgone q Hin Hn) in Hp.
  - intros p i Hp%Hnow. eauto.
  - intros p q i Hp%Hnow Hq%Hnow. eauto.
  - by rewrite Hs.
Qed.

(** With the memtable's table in place, any part of the log that holds its durable
    records gives a point of the history, and so does no log at all. *)
Lemma full_cut V0 ws s T g m q j k :
  history V0 ws s T g -> (g_m g <= length (g_recs g))%nat -> mem_is T m (write_of <$> g_recs g) ->
  (g_m g <= j <= length (g_recs g) \/ j = 0)%nat ->
  exists i, (s <= i <= length ws)%nat /\
    same_answer T
      (after (first_of ((q, entries_ m) :: g_layers g).*2) (write_of <$> take j (g_recs g)) k)
      (after V0 (take i ws) k).
Proof.
  intros Hh Hm Hmem Hj. pose proof (history_length _ _ _ _ _ Hh Hm) as Hlen.
  destruct Hh as (ws1 & Hws & Hs & Hb).
  destruct (last_of (write_of <$> take j (g_recs g)) k) as [e|] eqn:Hl.
  - destruct Hj as [Hj| ->]; [|done]. exists (length ws1 + j)%nat.
    assert (length ws = length ws1 + length (g_recs g))%nat as Hn by (by rewrite Hws, length_app, length_fmap).
    split; [lia|]. rewrite Hws, take_app_add, <- fmap_take, after_app. unfold after at 1 2. by rewrite Hl.
  - exists (length ws). split; [lia|]. rewrite firstn_all, Hws, after_app.
    unfold after at 1. rewrite Hl.
    change (first_of ((q, entries_ m) :: g_layers g).*2 k) with (view m (g_layers g).*2 k).
    apply mem_is_view; [done|apply Hb].
Qed.

(** A crash while the table is being published: its name may be there or not. *)
Lemma survives_publishing V0 ws s T w o g q i m :
  disk w o (g_layers g) (Some (q, i, entries_ m)) (g_fd g) ->
  Forall record_ok (g_recs g) -> history V0 ws s T g -> mem_is T m (write_of <$> g_recs g) ->
  log_durable w (g_fd g) (g_recs g) (g_m g) -> contents w (g_fd g) = enc (g_recs g) ->
  survives o V0 ws s T w.
Proof.
  intros D Hok Hh Hmem [Hm (tail & Hs & Ht)] Hc w' Hcr.
  destruct (disk_crash _ _ _ _ _ _ D Hcr) as (layers & Hrep & Hlog & Hl).
  destruct (log_crash w w' (g_fd g) (g_recs g) (g_m g) (length (enc (g_recs g))) tail)
    as (j & tail' & Hj & Hx & Ht'); try done.
  - by rewrite Hc, take_ge.
  - rewrite (enc_take_app (g_m g) (g_recs g)), length_app. lia.
  - exists layers, (take j (g_recs g)), tail', (g_fd g). split_and!; try done.
    { by apply Forall_take. }
    intros k. destruct Hl as [->|[_ ->]]; [by apply history_cut|]. apply full_cut; auto.
Qed.

(** A crash after that, before the cut of the log is durable. *)
Lemma survives_cutting V0 ws s T w o g q m :
  disk w o ((q, entries_ m) :: g_layers g) None (g_fd g) ->
  Forall record_ok (g_recs g) -> history V0 ws s T g -> mem_is T m (write_of <$> g_recs g) ->
  log_durable w (g_fd g) (g_recs g) (g_m g) ->
  contents w (g_fd g) = enc (g_recs g) \/ contents w (g_fd g) = [] ->
  survives o V0 ws s T w.
Proof.
  intros D Hok Hh Hmem [Hm (tail & Hs & Ht)] Hc w' Hcr.
  destruct (disk_crash _ _ _ _ _ _ D Hcr) as (layers & Hrep & Hlog & [->|[? _]]); [|done].
  assert (exists j tail', (g_m g <= j <= length (g_recs g) \/ j = 0)%nat /\
    contents w' (g_fd g) = enc (take j (g_recs g)) ++ tail' /\ (tail' = [] \/ torn tail'))
    as (j & tail' & Hj & Hx & Ht').
  { destruct Hc as [Hc|Hc].
    - destruct (log_crash w w' (g_fd g) (g_recs g) (g_m g) (length (enc (g_recs g))) tail)
        as (j & tail' & Hj & Hx & Ht'); try done; [by rewrite Hc, take_ge| |].
      + rewrite (enc_take_app (g_m g) (g_recs g)), length_app. lia.
      + exists j, tail'. split; [by left|done].
    - assert (contents w' (g_fd g) = [] \/ contents w' (g_fd g) = enc (take (g_m g) (g_recs g)) ++ tail) as Hcase.
      { destruct Hcr as [Hw|Hcr]; [left; by rewrite <- Hw|].
        destruct (pc_ino _ _ Hcr (g_fd g)) as [->|[->|(y & n & Hy & ->)]];
          [by left|right; by rewrite Hs|]. rewrite Hc in Hy. symmetry in Hy.
        apply app_eq_nil in Hy as [Hy1 ->]. rewrite Hy1, take_nil. by left. }
      destruct Hcase as [->| ->].
      + exists 0%nat, []. split; [by right|]. split; [done|by left].
      + exists (g_m g), tail. split; [left; lia|done]. }
  exists ((q, entries_ m) :: g_layers g), (take j (g_recs g)), tail', (g_fd g). split_and!; try done.
  { by apply Forall_take. }
  intros k. by apply full_cut.
Qed.

(** The outcome of an operation that returns a store: the history has grown by [new]. *)
Definition step_post {A} (V0 : bytes -> option Entry) (ws new : list write) (s : nat) (T : Z)
    (st : Store) (proj : A -> Store) (ok : A -> world -> Prop) (r : res A) (w' : world) : Prop :=
  match r with
  | Ret a => ok a w' /\ options_ (proj a) = options_ st /\
      exists g' s', running V0 (ws ++ new) s' T w' (proj a) g' /\ (s <= s')%nat
  | Throw _ => False
  | Dead => survives (options_ st) V0 (ws ++ new) s T w'
  end.

(** What a flush that worked does to the memory of the store. *)
Definition emptied (st st' : Store) : Prop :=
  memtable_ st' = Memtable_init /\ next_sequence_ st' = next_sequence_ st + 1.

Definition kept (st st' : Store) : Prop :=
  memtable_ st' = memtable_ st /\ next_sequence_ st' = next_sequence_ st.

(** And [maybe_flush]: under the limit nothing, from the limit on a flush. *)
Definition trimmed (st st' : Store) : Prop :=
  emptied st st' \/
  kept st st' /\ (bytes_ (memtable_ st) < memtable_limit_bytes (options_ st) \/ entries_ (memtable_ st) = []).

(** A table finished under the temporary name. *)
Record finished (w : world) (st : Store) (g : ghost) (i : nat) : Prop := mkFinished {
  fi_inv : store_inv w st (g_layers g).*2;
  fi_disk : disk w (options_ st) (g_layers g) None (g_fd g);
  fi_temp : dir w !! in_dir (o_dir (options_ st)) kFlushTemp = Some i;
  fi_other : dir w !! in_dir (o_dir (options_ st)) kCompactTemp = None;
  fi_synced j : dir_synced w !! in_dir (o_dir (options_ st)) kFlushTemp = Some j -> j <> i;
  fi_free : i ∉ open_fds st;
  fi_durable : durable w i;
  fi_table : is_table (entries_ (memtable_ st)) (contents w i);
  fi_contents : contents w (g_fd g) = enc (g_recs g);
  fi_log : log_durable w (g_fd g) (g_recs g) (g_m g)
}.

(** The last step: the log is cut, the table is in place, and the store takes it over. *)
Lemma wp_adopt_run V0 ws s T st g w0 w i wal :
  let q := next_sequence_ st in
  let st3 := set_wal st (Some wal) in
  running V0 ws s T w0 st g -> flush_ready st -> Wal.fd_ wal = g_fd g ->
  store_inv w st3 (g_layers g).*2 ->
  disk w (options_ st) ((q, entries_ (memtable_ st)) :: g_layers g) None (g_fd g) ->
  dir w !! table_path st q = Some i -> (i < next_ino w)%nat -> i ∉ open_fds st ->
  is_table (entries_ (memtable_ st)) (contents w i) ->
  contents w (g_fd g) = [] -> durable w (g_fd g) -> (forall p, p ∈ temps st -> dir w !! p = None) ->
  wp (table ← Sstable_open E (table_path st q) (use_bloom (options_ st3));
      mret (true, mkStore (clear (memtable_ st3)) (table :: sstables_ st3) (options_ st3) (u64 (q + 1))
                    (swept_keys_ st3) (compactions_ st3) (flush_failed_ st3) (wal_ st3)))
    (step_post V0 ws [] s T st snd (fun x _ => x.1 = true /\ emptied st x.2)) w.
Proof using Hco.
  intros q st3 R Hready Hfd I D Hp Hi Hfree Htab Hc Hdur Htemps.
  pose proof (rn_hist _ _ _ _ _ _ _ R) as Hh.
  assert (s <= length ws)%nat as Hlen by (apply (history_length _ _ _ _ _ Hh), R).
  destruct (si_seqs _ _ _ (rn_inv _ _ _ _ _ _ _ R)) as (_ & _ & _ & _ & Hq).
  pose proof Hready as (_ & _ & Hq').
  set (g' := mkGhost ((q, entries_ (memtable_ st)) :: g_layers g) (g_fd g) [] 0).
  assert (history V0 ws (length ws) T g') as Hh'.
  { exists ws. cbn [g' g_recs g_m g_layers]. rewrite app_nil_r, Nat.add_0_r. split_and!; [done|done|].
    intros k. change (first_of ((q, entries_ (memtable_ st)) :: g_layers g).*2 k)
      with (view (memtable_ st) (g_layers g).*2 k). by eapply running_view. }
  assert (log_durable w (g_fd g) [] 0) as Hl.
  { split; [done|]. exists []. split; [|by left]. unfold durable in Hdur. by rewrite Hdur, Hc. }
  unfold step_post. rewrite !app_nil_r.
  apply wp_bind, (co_Sstable_open E Hco _ _ i (entries_ (memtable_ st))); [done|done| |].
  - intros t w4 Hw4 Hrep Hft Hpt. apply wp_ret. split.
    { split; [done|]. split; [done|]. apply u64_id. unfold is_u64. lia. }
    split; [done|]. exists g', (length ws). rewrite ?app_nil_r. split; [|done]. apply (running_same V0 ws (length ws) T w); [done|].
    assert (table_rep w t (entries_ (memtable_ st))) as Hrep3.
    { apply (table_rep_transfer w4); [done|]. by rewrite <- Hw4. }
    constructor; cbn [g' g_layers g_fd g_recs g_m fmap list_fmap fst snd options_ snd]; auto.
    + apply (inv_flushed w st3); auto; cbn [st3 set_wal memtable_]; rewrite ?Hft; auto.
      * intros Hin. apply Hfree. revert Hin. unfold open_fds. cbn [st3 set_wal wal_ sstables_].
        destruct (rn_wal _ _ _ _ _ _ _ R) as (wal0 & -> & ->). by rewrite Hfd.
      * intros p Hpt'. by rewrite Htemps.
    + apply R.
    + by exists wal.
    + cbn [next_sequence_]. rewrite u64_id by (unfold is_u64; lia). constructor; [lia|].
      eapply Forall_impl; [apply (rn_next _ _ _ _ _ _ _ R)|]. cbn. subst q. lia.
    + cbn [sstables_ fmap list_fmap]. rewrite Hpt. f_equal. exact (rn_paths _ _ _ _ _ _ _ R).
    + by intros k.
  - intros w4 Hw4 w5 Hcr. apply (recoverable_weaken _ _ _ (length ws)); [done|].
    apply (survives_rest V0 ws (length ws) T w (options_ st) g'); [done|constructor|done|done|done|].
    by eapply same_files_crash.
Qed.

(** With the table published for good, the log is cut. *)
Lemma wp_cut_run V0 ws s T st g w0 w i :
  let q := next_sequence_ st in
  let path := table_path st q in
  running V0 ws s T w0 st g -> flush_ready st -> store_inv w st (g_layers g).*2 ->
  disk w (options_ st) ((q, entries_ (memtable_ st)) :: g_layers g) None (g_fd g) ->
  dir w !! path = Some i -> i ∉ open_fds st -> is_table (entries_ (memtable_ st)) (contents w i) ->
  contents w (g_fd g) = enc (g_recs g) -> log_durable w (g_fd g) (g_recs g) (g_m g) ->
  (forall p, p ∈ temps st -> dir w !! p = None) ->
  wp ('(cut, st) ← log_truncate E st;
      if negb cut then mret (false, st) else
      table ← Sstable_open E path (use_bloom (options_ st));
      mret (true, mkStore (clear (memtable_ st)) (table :: sstables_ st) (options_ st) (u64 (q + 1))
                    (swept_keys_ st) (compactions_ st) (flush_failed_ st) (wal_ st)))
    (step_post V0 ws [] s T st snd (fun x _ => x.1 = true /\ emptied st x.2)) w.
Proof using Hco.
  intros q path R Hready I D Hp Hfree Htab Hc Hl Htemps.
  pose proof R as [_ _ (wal & Hw & Hfd) _ _ _ _ R7 _ _ R10 R11].
  assert (forall w', frame (g_fd g) w w' ->
    disk w' (options_ st) ((q, entries_ (memtable_ st)) :: g_layers g) None (g_fd g)) as Hdisk.
  { intros w' Hf. apply (disk_frame w); [done|done|done|]. intros; apply log_path_not_table. }
  unfold log_truncate. rewrite Hw. apply wp_bind, wp_bind, co_truncate; [done|..].
  2: { unfold step_post. rewrite app_nil_r. apply (survives_cutting V0 ws s T w _ g q (memtable_ st)); auto. }
  2: { rewrite Hfd. intros w3 Hc3 Hf3 Hs3. unfold step_post. rewrite app_nil_r.
       apply (survives_cutting V0 ws s T w3 _ g q (memtable_ st)); auto.
       unfold log_durable. by rewrite Hs3. }
  rewrite Hfd. intros wal' w3 Hsame Hc3 Hf3 Hdur3. apply wp_ret. cbn [negb].
  assert (Wal.fd_ wal' = g_fd g) as Hfd' by (destruct Hsame as (-> & _); done).
  assert (store_inv w3 (set_wal st (Some wal')) (g_layers g).*2) as I3.
  { apply (inv_set_wal _ _ _ wal); [done|by rewrite Hfd'|]. apply (inv_frame w _ _ _ wal); [done|by rewrite Hfd|done]. }
  assert (i <> g_fd g) as Hne.
  { intros ->. apply Hfree. rewrite <- Hfd. by apply open_fds_wal. }
  pose proof (frame_dir _ _ _ Hf3) as Hd3.
  apply (wp_adopt_run V0 ws s T st g w0 w3 i wal'); auto.
  - by rewrite Hd3.
  - eapply si_dir; [exact I3|]. by rewrite Hd3.
  - by rewrite (frame_contents (g_fd g) i w w3).
  - intros p Ht. rewrite Hd3. by apply Htemps.
Qed.

Lemma wp_publish_run V0 ws s T st g w0 w i :
  running V0 ws s T w0 st g -> flush_ready st -> finished w st g i ->
  wp (publish E st (in_dir (o_dir (options_ st)) kFlushTemp) (table_path st (next_sequence_ st))
        (next_sequence_ st))
    (step_post V0 ws [] s T st snd (fun x _ => x.1 = true /\ emptied st x.2)) w.
Proof using Hco.
  intros R Hready F. pose proof R as [R1 R2 (wal & Hw & Hfd) _ R5 RP _ R7 _ _ R10 R11].
  destruct F as [F1 F2 F3 F4 F5 F6 F7 F8 F9 F10].
  set (temp := in_dir (o_dir (options_ st)) kFlushTemp) in *.
  set (q := next_sequence_ st). set (path := table_path st q).
  assert (temp ∈ temps st) as Htemp by (by left).
  assert (path ∉ temps st) as Hpath by (intros Hin; by apply (table_path_not_temp _ q _ Hin)).
  assert (0 <= q < 2 ^ 64 - 1) as Hq.
  { destruct (si_seqs _ _ _ R1) as (seqs & _ & _ & _ & ?). destruct Hready as (_ & _ & ?). subst q. lia. }
  unfold step_post. rewrite !app_nil_r.
  unfold publish. apply wp_bind, (co_rename E Hco temp path i); [done| |by apply (survives_rest V0 ws s T w _ g)].
  intros w1 Hd1 Hs1 Hi1. cbn [negb].
  assert (forall w', same_inodes w w' -> contents w' (g_fd g) = enc (g_recs g) /\
    log_durable w' (g_fd g) (g_recs g) (g_m g)) as Hlog.
  { intros w' Hin. unfold log_durable. rewrite (same_inodes_contents w w') by done.
    destruct Hin as (_ & -> & _). done. }
  assert (disk w1 (options_ st) (g_layers g) (Some (q, i, entries_ (memtable_ st))) (g_fd g)) as D1.
  { apply (disk_rename w w1 _ _ _ temp q i); auto. by apply wf_entries, (si_mem _ _ _ R1). }
  destruct (inv_rename w w1 st (g_layers g).*2 temp path i) as [I1 Hnot1]; auto.
  assert (dir w1 !! path = Some i) as Hp1 by (rewrite Hd1; apply lookup_insert_eq).
  assert (forall w', same_files w1 w' -> survives (options_ st) V0 ws s T w') as Hdead1.
  { intros w' Hw1. destruct (Hlog w1 Hi1) as [Hc1 Hl1]. intros w'' Hcr.
    apply (survives_publishing V0 ws s T w1 _ g q i (memtable_ st)); auto. by eapply same_files_crash. }
  apply wp_bind, co_fsync_dir; [done| |done].
  intros w2 Hd2 Hs2 Hi2. cbn [negb].
  assert (disk w2 (options_ st) ((q, entries_ (memtable_ st)) :: g_layers g) None (g_fd g)) as D2
    by (by apply (disk_publish w1 w2 _ _ _ q i)).
  assert (store_inv w2 st (g_layers g).*2) as I2 by (apply (inv_names w1); [done|done|by rewrite Hd2]).
  assert (same_inodes w w2) as Hi02 by (by etransitivity).
  destruct (Hlog w2 Hi02) as [Hc2 Hl2].
  assert (contents w2 i = contents w i) as Hci by (by apply same_inodes_contents).
  eapply wp_mono; [apply (wp_cut_run V0 ws s T st g w0 w2 i); auto|unfold step_post; by rewrite app_nil_r].
  - by rewrite Hd2.
  - by rewrite Hci.
  - intros p Hp. rewrite Hd2, Hd1. rewrite lookup_insert_ne by (intros <-; by apply Hpath).
    apply elem_of_cons in Hp as [->|Hp]; [apply lookup_delete_eq|].
    apply elem_of_cons in Hp as [->|Hp]; [|by apply elem_of_nil in Hp].
    rewrite lookup_delete_ne; [done|]. apply temps_ne.
Qed.

(** The temporary file, when it is created and nothing but it has changed. *)
Lemma running_creates V0 ws s T w w' st g p i :
  running V0 ws s T w st g -> p ∈ temps st -> creates p i w w' ->
  disk w' (options_ st) (g_layers g) None (g_fd g) /\ i = next_ino w /\
  contents w' (g_fd g) = enc (g_recs g) /\ log_durable w' (g_fd g) (g_recs g) (g_m g).
Proof.
  intros R Htemp Hcr. destruct (disk_creates w w' (options_ st) (g_layers g) (g_fd g) p i)
    as (D & -> & Hold); [apply R|by apply scratch_temps|by apply (rn_temps _ _ _ _ _ _ _ R)|done|].
  destruct (Hold (g_fd g)) as [Hc Hs].
  { eapply dk_bound; [apply R|]. left. apply (dk_log _ _ _ _ _ (rn_disk _ _ _ _ _ _ _ R)). }
  split_and!; [done|done|by rewrite Hc; apply R|]. unfold log_durable. rewrite Hs. apply R.
Qed.

Lemma wp_flush_run V0 ws s T st g w :
  running V0 ws s T w st g -> flush_ready st ->
  wp (flush E st) (step_post V0 ws [] s T st snd (fun x _ => x.1 = true /\
    (emptied st x.2 \/ x.2 = st /\ entries_ (memtable_ st) = []))) w.
Proof using Hco.
  intros R Hready. unfold flush. rewrite decide_False by apply R.
  destruct (Memtable.empty (memtable_ st)) eqn:Hempty.
  { apply wp_ret. split; [split; [done|right; split; [done|]]|].
    - unfold Memtable.empty in Hempty. by destruct (entries_ (memtable_ st)).
    - split; [done|]. exists g, s. by rewrite app_nil_r. }
  pose proof Hready as (Hok & Hfit & _).
  assert (in_dir (o_dir (options_ st)) kFlushTemp ∈ temps st) as Htemp by (by left).
  apply wp_bind, co_write_table; [done|done|apply wf_sorted, (si_mem _ _ _ (rn_inv _ _ _ _ _ _ _ R))|done|..].
  - intros i bs w1 Hcr Hdur Hbs Himg. cbn [negb].
    destruct (running_creates _ _ _ _ _ _ _ _ _ _ R Htemp Hcr) as (D & Hi & Hc & Hl).
    destruct (inv_creates w w1 st (g_layers g).*2 _ i (rn_inv _ _ _ _ _ _ _ R) Htemp Hcr) as [I1 Hfree].
    eapply wp_mono; [apply (wp_publish_run V0 ws s T st g w w1 i R Hready)|].
    2: { intros [x|e|] w2; [|done|done]. intros ([Hx Hm] & Hrest). split; [by auto|done]. }
    constructor; auto.
    + rewrite (cr_dir _ _ _ _ Hcr). apply lookup_insert_eq.
    + rewrite (cr_dir _ _ _ _ Hcr), lookup_insert_ne by apply temps_ne.
      apply (rn_temps _ _ _ _ _ _ _ R). by right; left.
    + intros j Hj. rewrite (cr_dir_synced _ _ _ _ Hcr) in Hj.
      assert (j < next_ino w)%nat by (eapply dk_bound; [apply R|by right]). lia.
    + rewrite Himg. split_and!; [done|apply wf_sorted, (si_mem _ _ _ I1)|done|].
      by exists bs, (bloom_bits_per_key (options_ st)).
  - intros w1 [Hw1|[i Hcr]]; unfold step_post; rewrite app_nil_r.
    + by apply (running_survives V0 ws s T w1 st g), (running_same V0 ws s T w).
    + destruct (running_creates _ _ _ _ _ _ _ _ _ _ R Htemp Hcr) as (D & _ & Hc & Hl).
      apply (survives_rest V0 ws s T w1 _ g); auto; apply R.
Qed.

(** [maybe_flush] never loses a return: its failure is recorded, not reported. *)
Lemma wp_maybe_flush_run V0 ws s T st g w :
  running V0 ws s T w st g -> flush_ready st ->
  wp (maybe_flush E st) (step_post V0 ws [] s T st id (fun st' _ => trimmed st st')) w.
Proof using Hco.
  intros R Hready. unfold maybe_flush. rewrite decide_False by apply R.
  destruct (Z.ltb_spec (bytes_ (memtable_ st)) (memtable_limit_bytes (options_ st))).
  { apply wp_ret. split; [right; split; [done|by left]|]. split; [done|]. exists g, s. by rewrite app_nil_r. }
  apply wp_bind. eapply wp_mono; [by eapply wp_flush_run|].
  intros [[b st']|e|] w'; [|done|done]. intros ((Hb & Hm) & Ho & g' & s' & R' & Hs).
  apply wp_ret. split.
  { destruct Hm as [Hm|[Hm Hz]]; [by left|]. cbn in Hm. subst st'. right. split; [done|by right]. }
  split; [done|]. exists g', s'. split; [|done].
  pose proof (rn_inv _ _ _ _ _ _ _ R') as I. destruct R'. constructor; auto.
  by apply inv_set_flush_failed.
Qed.

(** Continuing after a step that has added its writes. *)
Lemma step_more {A} V0 ws new s T st st1 (proj : A -> Store) (ok : A -> world -> Prop) s1 r w' :
  options_ st1 = options_ st -> (s <= s1)%nat ->
  step_post V0 (ws ++ new) [] s1 T st1 proj ok r w' -> step_post V0 ws new s T st proj ok r w'.
Proof.
  intros Ho Hs. unfold step_post. rewrite app_nil_r, Ho. destruct r as [a|e|]; [|done|].
  - intros (H1 & H2 & g' & s' & R & Hs'). split; [done|]. split; [done|]. exists g', s'. split; [done|lia].
  - intros H w'' Hc. by eapply recoverable_weaken, H.
Qed.

(** The writes with one record. *)
Lemma wp_write_run {A} V0 ws s T st g op key value ex w (m' : Memtable) (yes no : A) (ok : A -> Prop) :
  running V0 ws s T w st g -> call_ok (CAppend op key value ex) -> ok yes ->
  memtable_wf m' -> mem_is T m' ((write_of <$> g_recs g) ++ writes_of (CAppend op key value ex)) ->
  flush_ready (set_memtable st m') ->
  forall f, (forall st', memtable_ st' = memtable_ st -> f st' = set_memtable st' m') ->
  wp ('(done, st) ← log_append E st op key value ex;
      if negb done then mret (no, st)
      else st ← maybe_flush E (f st); mret (yes, st))
    (step_post V0 ws (writes_of (CAppend op key value ex)) s T st snd
       (fun x _ => ok x.1 /\ trimmed (set_memtable st m') x.2)) w.
Proof using Hco Hclk.
  intros R Hok Hyes Hwf Hmem Hready f Hf. destruct (rn_wal _ _ _ _ _ _ _ R) as (wal & Hw & _).
  unfold log_append. rewrite Hw. apply wp_bind, wp_bind.
  eapply wp_mono; [apply (wp_log_write V0 ws s T st g wal (CAppend op key value ex) w R Hw I); [done|done]|].
  intros [[b wal']|e|] w1; [|done|done]. intros (-> & _ & Hrun). apply wp_ret. cbn [negb].
  destruct (Hrun m' Hwf Hmem) as (g1 & s1 & R1 & Hs1 & _).
  rewrite (Hf (set_wal st (Some wal'))) by done.
  apply wp_bind. eapply wp_mono; [apply (wp_maybe_flush_run V0 _ s1 T _ g1 w1 R1); exact Hready|].
  intros r w2 Hr. eapply (step_more (A := Store) _ _ _ s _ st) in Hr; [|done|done].
  destruct r as [st2|e|]; [|done|done]. apply wp_ret. destruct Hr as (Htr & Ho & Hg).
  split; [split; [done|exact Htr]|]. by split.
Qed.

Lemma wp_set_run V0 ws s T st g key value ex w :
  running V0 ws s T w st g -> call_ok (CAppend kSet key value ex) ->
  flush_ready (set_memtable st (Memtable.set (memtable_ st) key value ex)) ->
  wp (Store.set E st key value ex)
    (step_post V0 ws [(key, mkEntry value false ex)] s T st snd (fun x _ => x.1 = true /\
       trimmed (set_memtable st (Memtable.set (memtable_ st) key value ex)) x.2)) w.
Proof using Hco Hclk.
  intros R Hok Hready. pose proof (si_mem _ _ _ (rn_inv _ _ _ _ _ _ _ R)) as Hwf.
  apply (wp_write_run V0 ws s T st g kSet key value ex w (Memtable.set (memtable_ st) key value ex)
    true false (fun b => b = true)); auto.
  - by apply set_wf.
  - apply mem_is_set; [done|apply R].
  - intros st' Hm. by rewrite Hm.
Qed.

(** A lookup changes no file, and on this kernel what it returns is what the store holds. *)
Lemma wp_lookup_co st rows key w :
  store_inv w st rows ->
  wp (lookup E st key) (fun r w' => same_files w w' /\ match r with
    | Ret f => read_between E (tick w) w' (view (memtable_ st) rows key) f
    | Throw _ => False
    | Dead => True
    end) w.
Proof using Hco.
  intros I. eapply wp_mono; [apply (wp_lookup E w st rows key w); [apply I|apply I|reflexivity]|].
  intros [f|e|] w' [Hw Hr]; [|done|done]. split; [done|].
  destruct Hr as [?|(t & _ & Hf)]; [done|]. by apply (co_no_fail E Hco) in Hf.
Qed.

Lemma wp_get_co st rows key w :
  store_inv w st rows ->
  wp (Store.get E st key) (fun r w' => same_files w w' /\ match r with
    | Ret v => exists f, read_between E (tick w) w' (view (memtable_ st) rows key) f /\ v = f_value <$> f
    | Throw _ => False
    | Dead => True
    end) w.
Proof using Hco.
  intros I. unfold Store.get. apply wp_bind. eapply wp_mono; [by eapply wp_lookup_co|].
  intros [f|e|] w' [Hw Hr]; [|done|done]. apply wp_ret. split; [done|]. by exists f.
Qed.

Lemma step_dead {A} V0 ws new s T st g (proj : A -> Store) ok w :
  running V0 ws s T w st g -> step_post V0 ws new s T st proj ok Dead w.
Proof.
  intros R w' Hc. destruct (running_survives _ _ _ _ _ _ _ R w' Hc) as (l & lg & tl & fd & ? & ? & ? & ? & ? & Hk).
  exists l, lg, tl, fd. split_and!; try done. intros k. destruct (Hk k) as (j & Hj & Ha).
  exists j. rewrite length_app. split; [lia|]. by rewrite take_app_le by lia.
Qed.

(** More is known of a result than a step says. *)
Lemma step_ok {A} V0 ws new s T st (proj : A -> Store) (ok ok' : A -> world -> Prop) r w' :
  (forall a, r = Ret a -> ok a w' -> ok' a w') ->
  step_post V0 ws new s T st proj ok r w' -> step_post V0 ws new s T st proj ok' r w'.
Proof. intros H. destruct r as [a|e|]; [|done|done]. intros (Hok & ?). split; [by apply H|done]. Qed.

Lemma logged_ticks {A} (proj : A -> Store) st (m : M A) : logged E proj st m -> tick_mono m.
Proof. intros H w. apply (H w). Qed.

Lemma wp_del_run V0 ws s T st g key w :
  running V0 ws s T w st g -> call_ok (CAppend kDelete key [] 0) ->
  flush_ready (set_memtable st (Memtable.del (memtable_ st) key).2) ->
  wp (Store.del E st key) (step_post V0 ws [(key, tomb)] s T st snd (fun x w' => d_durable x.1 = true /\
    (exists f, read_between E (tick w) w' (view (memtable_ st) (g_layers g).*2 key) f /\
       d_was_live x.1 = bool_decide (is_Some f)) /\
    trimmed (set_memtable st (Memtable.del (memtable_ st) key).2) x.2)) w.
Proof using Hco Hclk.
  intros R Hok Hready. pose proof (si_mem _ _ _ (rn_inv _ _ _ _ _ _ _ R)) as Hwf.
  unfold Store.del. apply wp_bind. eapply wp_mono; [by eapply wp_get_co, R|].
  intros [v|e|] w1 [Hw1 Hr]; [|done|by eapply step_dead, running_same].
  destruct Hr as (f & (t & Ht & Hf) & ->).
  assert (bool_decide (is_Some (f_value <$> f)) = bool_decide (is_Some f)) as ->
    by (apply bool_decide_ext, fmap_is_Some).
  eapply wp_mono; [apply wp_ticks|].
  - apply (logged_ticks snd st). apply (logged_bind E snd snd); [apply logged_log_append|].
    intros [done st1]. case_match; [by apply logged_ret|].
    apply (logged_bind E id snd); [|intros; by apply logged_ret].
    eapply logged_from; [| |apply logged_maybe_flush]; done.
  - eapply (wp_write_run V0 ws s T st g kDelete key [] 0 w1 (Memtable.del (memtable_ st) key).2
      (mkDel true (bool_decide (is_Some f))) (mkDel false false)
      (fun d => d = mkDel true (bool_decide (is_Some f)))); auto.
    + by apply (running_same V0 ws s T w).
    + by apply del_wf.
    + apply mem_is_del; [done|apply R].
    + intros st' Hm. by rewrite Hm.
  - intros r w2 [Hr Ht2]. eapply step_ok; [|exact Hr]. intros [d st'] _ [Hd Htr]. cbn in Hd. subst d.
    split; [done|]. split; [|done]. exists f. split; [|done]. exists t. split; [|done].
    unfold between in *. lia.
Qed.

(** *** Many deletions at once *)

Definition del_all (keys : list bytes) (m : Memtable) : Memtable :=
  fold_left (fun m key => (Memtable.del m key).2) keys m.

Lemma del_all_wf keys : forall m, memtable_wf m -> memtable_wf (del_all keys m).
Proof. induction keys as [|key keys IH]; intros m Hm; [done|]. by apply IH, del_wf. Qed.

Lemma mem_is_del_all T keys : forall m ws, memtable_wf m -> mem_is T m ws ->
  mem_is T (del_all keys m) (ws ++ deletions keys).
Proof.
  induction keys as [|key keys IH]; intros m ws Hwf Hm; [by rewrite app_nil_r|].
  unfold deletions. rewrite fmap_cons.
  replace (ws ++ (key, tomb) :: ((fun key => (key, tomb)) <$> keys))
    with ((ws ++ [(key, tomb)]) ++ deletions keys) by (by rewrite <- app_assoc).
  apply (IH (Memtable.del m key).2); [by apply del_wf|by apply mem_is_del].
Qed.

Lemma view_del_after m rows key k :
  memtable_wf m -> view (Memtable.del m key).2 rows k = after (view m rows) [(key, tomb)] k.
Proof.
  intros Hwf. unfold view, after. rewrite find_del by done. cbn [last_of].
  case_decide as Hk; [by rewrite decide_True|by rewrite decide_False].
Qed.

(** Readings taken one after the other between two moments. *)
Definition moments (t0 : nat) (w' : world) (τ : nat -> Z) : Prop :=
  exists ι, (forall i, between t0 w' (ι i) /\ ι i <= ι (S i))%nat /\ forall i, τ i = clock_at E (ι i).

Definition scons (z : Z) (τ : nat -> Z) (i : nat) : Z := match i with O => z | S i => τ i end.

Lemma moments_cons t0 w1 w2 t τ :
  between t0 w1 t -> moments (tick w1) w2 τ -> moments t0 w2 (scons (clock_at E t) τ).
Proof.
  intros [H1 H2] (ι & Hι & Hτ). exists (fun i => match i with O => t | S i => ι i end). split.
  - unfold between in *. intros [|i]; [destruct (Hι 0%nat)|destruct (Hι i)]; lia.
  - intros [|i]; [done|apply Hτ].
Qed.

Lemma moments_const t0 w' t : between t0 w' t -> moments t0 w' (fun _ => clock_at E t).
Proof. intros H. by exists (fun _ => t). Qed.

Lemma count_removed_ext keys : forall τ V V',
  (forall k, V k = V' k) -> count_removed τ V keys = count_removed τ V' keys.
Proof.
  induction keys as [|key keys IH]; intros τ V V' HV; [done|]. cbn [count_removed]. unfold seen. rewrite HV.
  f_equal. apply IH. intros k. unfold after. by rewrite HV.
Qed.

Lemma wp_del_loop_co rows keys : forall st removed w,
  store_inv w st rows ->
  wp (del_loop E st keys removed) (fun r w' => same_files w w' /\ match r with
    | Ret (removed', st') => st' = set_memtable st (del_all keys (memtable_ st)) /\
        exists τ, moments (tick w) w' τ /\ removed' = removed + count_removed τ (view (memtable_ st) rows) keys
    | Throw _ => False
    | Dead => True
    end) w.
Proof using Hco.
  induction keys as [|key keys IH]; intros st removed w I; cbn [del_loop].
  { apply wp_ret. split; [done|]. split; [by destruct st|]. exists (fun _ => clock_at E (tick w)).
    split; [apply moments_const; by unfold between|]. cbn. lia. }
  apply wp_bind. eapply wp_mono; [by eapply wp_get_co|].
  intros [v|e|] w1 [Hw1 Hr]; [|done|done]. destruct Hr as (f & (t & Ht & Hf) & ->).
  eapply wp_mono; [apply (IH (set_memtable st (Memtable.del (memtable_ st) key).2))|].
  - apply inv_set_memtable; [apply del_wf, I|]. by apply (inv_same w).
  - intros r w2 [Hw2 Hr2]. split; [by etransitivity|]. destruct r as [[removed' st']|e|]; [|done|done].
    destruct Hr2 as (-> & τ & Hτ & ->). split; [done|]. exists (scons (clock_at E t) τ).
    split; [by eapply moments_cons|]. cbn [count_removed].
    change (fun i => scons (clock_at E t) τ (S i)) with τ. unfold seen at 1. cbn [scons]. rewrite <- Hf.
    rewrite (count_removed_ext keys τ (view (memtable_ (set_memtable st _)) rows)
      (after (view (memtable_ st) rows) [(key, tomb)])) by (intros; by apply view_del_after, I).
    destruct f as [f|]; cbn [fmap option_fmap option_map].
    + rewrite bool_decide_eq_true_2 by done. lia.
    + rewrite bool_decide_eq_false_2 by apply is_Some_None. lia.
Qed.

Definition delete_batch (keys : list bytes) : WalCall :=
  CBatch ((fun key => mkMutation kDelete key [] 0) <$> keys).

Lemma writes_of_batch keys : writes_of (delete_batch keys) = deletions keys.
Proof. unfold writes_of, delete_batch. cbn [call_records]. by rewrite <- !list_fmap_compose. Qed.

Lemma moments_mono t0 t1 w1 w2 τ :
  (t0 <= t1)%nat -> (tick w1 <= tick w2)%nat -> moments t1 w1 τ -> moments t0 w2 τ.
Proof.
  intros H1 H2 (ι & Hι & Hτ). exists ι. split; [|done]. intros i. destruct (Hι i) as [[? ?] ?].
  unfold between. split; lia.
Qed.

Lemma wp_del_many_run V0 ws s T st g keys w :
  running V0 ws s T w st g -> keys <> [] -> call_ok (delete_batch keys) ->
  flush_ready (set_memtable st (del_all keys (memtable_ st))) ->
  wp (del_many E st keys)
    (step_post V0 ws (deletions keys) s T st snd (fun x w' => b_durable x.1 = true /\
       (exists τ, moments (tick w) w' τ /\
          b_removed x.1 = count_removed τ (view (memtable_ st) (g_layers g).*2) keys) /\
       trimmed (set_memtable st (del_all keys (memtable_ st))) x.2)) w.
Proof using Hco Hclk.
  intros R Hne Hok Hready. destruct (rn_wal _ _ _ _ _ _ _ R) as (wal & Hw & _).
  pose proof (si_mem _ _ _ (rn_inv _ _ _ _ _ _ _ R)) as Hwf.
  rewrite <- writes_of_batch. unfold del_many. rewrite Hw. apply wp_bind, wp_bind.
  eapply wp_mono; [apply wp_ticks;
    [|apply (wp_log_write V0 ws s T st g wal (delete_batch keys) w R Hw I); [|done]]|].
  { intros w0. apply (within_call E (delete_batch keys) wal w0). }
  { cbn. by destruct keys. }
  intros [[b wal']|e|] w1 [Hr Ht1]; [|done|done]. destruct Hr as (-> & _ & Hrun). apply wp_ret. cbn [negb].
  destruct (Hrun (del_all keys (memtable_ st))) as (g1 & s1 & R1 & Hs1 & Hly & _).
  { by apply del_all_wf. }
  { rewrite writes_of_batch. apply mem_is_del_all; [done|apply R]. }
  assert (store_inv w1 (set_wal st (Some wal')) (g_layers g1).*2) as I1.
  { pose proof (rn_inv _ _ _ _ _ _ _ R1) as [H1 H2 H3 H4 H5 HI H6 H7 H8]. by constructor. }
  apply wp_bind. eapply wp_mono; [by apply (wp_del_loop_co (g_layers g1).*2 keys (set_wal st (Some wal')) 0 w1)|].
  intros [[removed st2]|e|] w2 [Hw2 Hr]; [|done|].
  2: { apply (step_more _ _ _ _ _ st (set_memtable (set_wal st (Some wal')) (del_all keys (memtable_ st)))
         _ _ s1); [done|done|].
       eapply (step_dead V0 _ [] s1 T _ g1), (running_same V0 _ s1 T w1); done. }
  destruct Hr as (-> & τ & Hτ & Hrem). rewrite Hly in Hrem. apply wp_bind.
  eapply wp_mono; [apply wp_ticks; [apply (logged_ticks id _ _ (logged_maybe_flush E _))|];
    eapply (wp_maybe_flush_run V0 _ s1 T _ g1 w2);
    [by eapply (running_same V0 _ s1 T w1)|exact Hready]|].
  intros r w3 [Hr Ht3]. eapply (step_more (A := Store) _ _ _ s _ st) in Hr; [|done|done].
  destruct r as [st3|e|]; [|done|done]. apply wp_ret. destruct Hr as (Htr & Ho & Hg).
  split; [|by split]. split; [done|]. split; [|exact Htr]. exists τ. split; [|done].
  by eapply moments_mono.
Qed.

(** *** The clock and the sweep *)

Lemma sweep_same_answer now t e : now <= t -> answer_at t (sweep_entry now e) = answer_at t e.
Proof.
  intros Ht. unfold sweep_entry. destruct (is_expired now e) eqn:He; [|done].
  unfold answer_at, obsolete, is_expired in *. cbn. destruct (tombstone e); [done|]. cbn in *.
  destruct (expires_at_ms e =? 0); [done|]. cbn in *. by rewrite (proj2 (Z.leb_le _ t)) by lia.
Qed.

Lemma mem_is_sweep T m ws now b :
  memtable_wf m -> now <= T -> mem_is T m ws -> mem_is T (Memtable.sweep_expired m now b).2 ws.
Proof.
  intros Hwf Hnow H k. specialize (H k). destruct (find_sweep m now b k Hwf) as [->| ->]; [done|].
  destruct (find m k) as [e|]; [|done]. cbn. destruct (last_of ws k) as [e'|]; [|done].
  intros t Ht. rewrite <- (H t Ht). cbn. apply sweep_same_answer. lia.
Qed.

Context (T : Z).

(** What the sweep does to the memory of the store. *)
Definition swept_to (st st' : Store) : Prop :=
  exists now b, memtable_ st' = (Memtable.sweep_expired (memtable_ st) now b).2 /\
    next_sequence_ st' = next_sequence_ st.

Lemma wp_sweep_run V0 ws s st g budget w :
  running V0 ws s T w st g -> clock_at E (tick w) <= T ->
  wp (Store.sweep_expired E st budget) (step_post V0 ws [] s T st snd (fun x _ => swept_to st x.2)) w.
Proof.
  intros R Hpast. pose proof (si_mem _ _ _ (rn_inv _ _ _ _ _ _ _ R)) as Hwf.
  unfold Store.sweep_expired. apply wp_bind, wp_now_ms. intros w1 Hw1 _.
  destruct (Memtable.sweep_expired (memtable_ st) (clock_at E (tick w)) budget) as [n m] eqn:Hs.
  apply wp_ret. split; [eexists _, _; by rewrite Hs|]. split; [done|]. exists g, s. rewrite app_nil_r. split; [|done].
  apply running_mem; [by apply (running_same V0 ws s T w)|..].
  - pose proof (sweep_wf (memtable_ st) (clock_at E (tick w)) budget Hwf) as H. by rewrite Hs in H.
  - pose proof (mem_is_sweep T (memtable_ st) (write_of <$> g_recs g) (clock_at E (tick w)) budget Hwf
      Hpast (rn_mem _ _ _ _ _ _ _ R)) as H. by rewrite Hs in H.
Qed.

(** *** Forcing the log down *)

(** Whole records are no torn one. *)
Lemma enc_not_torn recs x : Forall record_ok recs -> recs <> [] -> ~ torn (enc recs ++ x).
Proof.
  intros Hok Hne Ht. destruct Hok as [|r recs Hr _]; [done|]. apply decode_torn in Ht.
  unfold enc in Ht. cbn [fmap list_fmap concat] in Ht. rewrite <- app_assoc, decode_encode_rec in Ht by done. done.
Qed.

(** A log all of whose bytes are on the disk has all of its records there. *)
Lemma saved_records w fd recs m :
  Forall record_ok recs -> contents w fd = enc recs -> log_durable w fd recs m -> saved w fd ->
  log_durable w fd recs (length recs).
Proof.
  intros Hok Hc [Hm (tail & Hs & Ht)] (c & Hs' & x & ->). rewrite Hs, Hc in Hs'. injection Hs' as Heq.
  rewrite (enc_take_app m recs), <- app_assoc in Heq. apply app_inv_head in Heq as ->.
  split; [done|]. destruct (decide (m = length recs)) as [->|Hne].
  { exists (enc (drop (length recs) recs) ++ x). by rewrite Hs. }
  exfalso. assert (drop m recs <> []) as Hd by (intros H%(f_equal length); rewrite length_drop in H; cbn in H; lia).
  destruct Ht as [H|Ht]; [|by apply (enc_not_torn (drop m recs) x); [apply Forall_drop|..]].
  apply app_eq_nil in H as [H _]. pose proof (enc_nonempty _ Hd) as Hz. rewrite H in Hz. by cbn in Hz.
Qed.

(** When the log's file is on the disk, so is the whole history. *)
Lemma running_synced V0 ws s w st g :
  running V0 ws s T w st g -> saved w (g_fd g) ->
  running V0 ws (length ws) T w st (mkGhost (g_layers g) (g_fd g) (g_recs g) (length (g_recs g))).
Proof.
  intros [R1 R2 R3 R4 R5 RP R6 R7 R8 R9 R10 R11] Hd. constructor; auto; cbn.
  - by eapply saved_records.
  - destruct R11 as (ws1 & -> & _ & Hb). exists ws1. split; [done|]. split; [|done].
    by rewrite length_app, length_fmap.
Qed.

(** The log in another state of its own. *)
Lemma running_log V0 ws s w w' st g wal wal' m :
  running V0 ws s T w st g -> wal_ st = Some wal -> same_wal wal wal' -> frame (g_fd g) w w' ->
  contents w' (g_fd g) = contents w (g_fd g) -> (m <= length (g_recs g))%nat ->
  log_durable w' (g_fd g) (g_recs g) m -> (g_m g <= m)%nat ->
  exists s', running V0 ws s' T w' (set_wal st (Some wal'))
    (mkGhost (g_layers g) (g_fd g) (g_recs g) m) /\ (s <= s')%nat.
Proof.
  intros [R1 R2 (wal0 & Hw0 & Hfd) R4 R5 RP R6 R7 R8 R9 R10 (ws1 & Hws & Hs & Hb)] Hw Hsame Hf Hc Hm Hl Hle.
  assert (wal0 = wal) as -> by congruence.
  exists (length ws1 + m)%nat. split; [|lia]. constructor; cbn; auto.
  - apply (inv_set_wal _ _ _ wal); [done|by destruct Hsame|]. apply (inv_frame w _ _ _ wal); [done|by rewrite Hfd|done].
  - exists wal'. split; [done|]. destruct Hsame as (-> & _). done.
  - apply (disk_frame w); [done|done|done|]. intros; apply log_path_not_table.
  - intros p Hp. rewrite (frame_dir _ _ _ Hf). by apply R6.
  - by rewrite Hc.
  - by exists ws1.
Qed.

(** [sync] through the store's log. *)
Definition store_sync (st : Store) : M (bool * Store) :=
  match wal_ st with
  | None => mret (true, st)
  | Some wal => '(ok, wal) ← sync E wal; mret (ok, set_wal st (Some wal))
  end.

Lemma wp_sync_run V0 ws s st g w :
  running V0 ws s T w st g ->
  wp (store_sync st) (fun r w' => step_post V0 ws [] s T st snd
      (fun x _ => exists wal, x = (true, set_wal st (Some wal))) r w' /\
    match r with Ret (_, st') => exists g', running V0 ws (length ws) T w' st' g' | _ => True end) w.
Proof using Hco.
  intros R. destruct (rn_wal _ _ _ _ _ _ _ R) as (wal & Hw & Hfd). unfold store_sync. rewrite Hw.
  apply wp_bind, co_sync; [done| |].
  - rewrite Hfd. intros wal' w' Hsame Hc Hf Hd. apply wp_ret.
    destruct (running_log V0 ws s w w' st g wal wal' (length (g_recs g)) R Hw Hsame Hf Hc) as (s' & R' & Hs').
    + done.
    + split; [done|]. exists []. split; [|by left]. rewrite Hd, Hc, firstn_all, app_nil_r.
      by rewrite (rn_contents _ _ _ _ _ _ _ R).
    + apply (rn_synced _ _ _ _ _ _ _ R).
    + split.
      * split; [by exists wal'|]. split; [done|]. exists (mkGhost (g_layers g) (g_fd g) (g_recs g) (length (g_recs g))), s'.
        by rewrite app_nil_r.
      * eexists. apply (running_synced V0 ws s' _ _ _ R'). by apply durable_as; [apply _|].
  - split; [|done]. by eapply step_dead.
Qed.

End ops.
