(* ===== verification/Recovery.v ===== *)
(** * From a crash to the next start

    The start-up of [main.cpp] on a disk that a crash left: the tables are opened, the
    log is replayed over them, its torn tail is cut off, and the log is opened for
    appending.  Together with [Durable] this closes the circle: run, crash, start
    again, run. *)

From stdpp Require Import gmap.
From S2P Require Import Prelude Decimal SortedMap Memtable WalCodec Posix Wal Sstable Compaction Store Abstract LogGuard Main Crash Durable.

(** ** Replay *)

Lemma read_all_loop_spec script left acc r :
  read_all_loop script left acc = Some r -> r = None \/ r = Some (acc ++ left).
Proof.
  revert left acc. induction script as [|a script IH]; intros left acc; cbn [read_all_loop]; [done|].
  destruct a as [n| |]; [|apply IH|intros [= <-]; by left].
  destruct left as [|c left]; [intros [= <-]; right; by rewrite app_nil_r|].
  intros [->| ->]%IH; [by left|right]. by rewrite <- app_assoc, take_drop.
Qed.

Lemma wp_read_all E fd (Q : res (option bytes) -> world -> Prop) w :
  (forall w', same_files w w' -> Q (Ret (Some (contents w fd))) w') ->
  (forall r w', same_files w w' -> r = Ret None \/ r = Dead -> ~ reliable E (length (contents w fd)) -> Q r w') ->
  wp (read_all E fd) Q w.
Proof.
  intros Ht Hf. unfold wp, read_all.
  assert (forall r0, r0 <> Some (Some (contents w fd)) -> read_all_loop (answers E w) (contents w fd) [] = r0 ->
    ~ reliable E (length (contents w fd))) as Hrel.
  { intros r0 Hne Hr Hrel. destruct (Hrel (tick w)) as [Hl Ha]. apply Hne. rewrite <- Hr.
    apply (read_all_reliable _ _ [] Ha Hl). }
  destruct (read_all_loop (answers E w) (contents w fd) []) as [r|] eqn:Hr; cbn [fst snd].
  - destruct (read_all_loop_spec _ _ _ _ Hr) as [->| ->].
    + apply Hf; [apply same_files_tick|by left|by apply (Hrel (Some None))].
    + apply Ht, same_files_tick.
  - apply Hf; [done|by right|by apply (Hrel None)].
Qed.

(** [replay] on whole records and perhaps a torn one: the records reach the callback in
    order, and only they are left in the file. *)
Lemma wp_replay {S} E path (app : S -> Record_ -> S) (s0 : S) fd log tail w :
  dir w !! path = Some fd -> contents w fd = enc log ++ tail ->
  Forall record_ok log -> tail = [] \/ torn tail ->
  wp (replay E path app s0) (fun r w' => match r with
    | Ret (s, result) => s = fold_left app log s0 /\
        result = mkReplayResult (zlen log) (zlen (enc log)) (bool_decide (tail <> [])) /\
        frame fd w w' /\ contents w' fd = enc log /\ ino_synced w' = ino_synced w
    | _ => ~ reliable E (length (contents w fd))
    end) w.
Proof.
  intros Hd Hc Hok Ht. unfold replay.
  assert (~ reliable E 0 -> ~ reliable E (length (contents w fd))) as H0.
  { intros H. contradict H. eapply reliable_mono; [|done]. lia. }
  apply wp_bind, wp_open_existing.
  2: { intros r w1 _ [->| ->] Hrel; [apply wp_throw|]; auto. }
  intros w1 Hw1. rewrite Hd. apply wp_bind, wp_read_all.
  2: { intros r w2 _ [->| ->] Hrel; [apply wp_throw|]; by rewrite Hw1. }
  intros w2 Hw2. rewrite <- Hw1, Hc. unfold enc at 1. rewrite (replay_scan_torn log tail) by done.
  cbn [truncated good_bytes]. assert (same_files w w2) as Hw by (by etransitivity).
  case_bool_decide as Htail.
  - apply wp_bind, wp_ftruncate.
    + intros w3 Hc3 Hf3 Hs3. apply wp_ret. split_and!; [done|done|..].
      * etransitivity; [by apply same_files_frame|done].
      * rewrite Hc3, <- Hw, Hc. unfold zlen. rewrite Nat2Z.id. apply take_app_length.
      * by rewrite Hs3, <- Hw.
    + intros r w3 _ [->| ->] Hrel; [apply wp_throw|]; rewrite Hc in H0; auto.
  - apply wp_ret. assert (tail = []) as -> by (by destruct tail). rewrite app_nil_r in Hc.
    split_and!; [done|done|by apply same_files_frame|by rewrite <- Hw, Hc|by rewrite <- Hw].
Qed.

Lemma wp_Wal_open E path pol iv fd w :
  dir w !! path = Some fd ->
  wp (Wal_open E path pol iv) (fun r w' => match r with
    | Ret wal => same_files w w' /\ wal = mkWal fd pol [] (last_sync_ wal) iv (u64 (zlen (contents w fd))) 0 0 false
    | _ => ~ reliable E 0
    end) w.
Proof.
  intros Hd. unfold Wal_open. apply wp_bind, wp_steady_now. intros t w1 Hw1 _.
  apply wp_bind. unfold wp at 1, open_append, create_entry.
  assert (dir w1 !! path = Some fd) as Hd1 by (by rewrite <- Hw1).
  destruct (answers E w1) as [|[n| |] l] eqn:Ha.
  - apply (not_reliable E 0 w1). by rewrite Ha.
  - rewrite Hd1. cbn [fst snd]. apply wp_bind, wp_lseek_end.
    + intros w2 Hw2. apply wp_ret. assert (same_files w w2) as Hw.
      { etransitivity; [done|]. etransitivity; [|done]. apply same_files_tick. }
      split; [done|]. cbn [last_sync_]. do 2 f_equal. rewrite <- (same_files_tick w1). by rewrite <- Hw1.
    + intros r w2 _ [->| ->] Hrel; [by apply wp_throw|done].
  - cbn [fst snd]. apply wp_throw, (not_reliable E 0 w1). by rewrite Ha.
  - cbn [fst snd]. apply wp_throw, (not_reliable E 0 w1). by rewrite Ha.
Qed.

(** ** The callback rebuilds the memtable *)

Lemma apply_all log : forall st, memtable_wf (memtable_ st) ->
  let st' := fold_left apply log st in
  memtable_wf (memtable_ st') /\
  (forall k, find (memtable_ st') k = match last_of (write_of <$> log) k with
                                       | Some e => Some e | None => find (memtable_ st) k end) /\
  st' = set_memtable st (memtable_ st').
Proof.
  induction log as [|r log IH]; intros st Hwf; cbn [fold_left].
  { split_and!; [done|done|]. by destruct st. }
  assert (memtable_wf (memtable_ (apply st r)) /\ forall k, find (memtable_ (apply st r)) k =
    if decide (r_key r = k) then Some (rec_entry r) else find (memtable_ st) k) as [Hwf1 Hf1].
  { unfold apply, rec_entry. cbn [memtable_ set_memtable]. destruct (r_op r).
    - split; [by apply set_wf|]. intros k. rewrite find_set by done. by repeat case_decide.
    - split; [by apply del_wf|]. intros k. rewrite find_del by done. by repeat case_decide. }
  destruct (IH (apply st r) Hwf1) as (H1 & H2 & H3). split_and!; [done| |].
  - intros k. rewrite H2, fmap_cons. cbn [last_of write_of]. rewrite Hf1.
    destruct (last_of (write_of <$> log) k); [done|]. by case_decide.
  - rewrite H3 at 1. done.
Qed.

(** ** The start-up *)

(** Every file is within [n] bytes. *)
Definition files_within (w : world) (n : nat) : Prop := forall i, (length (contents w i) <= n)%nat.

Lemma store_options_log o : wal_path (dir_name o) = log_path (store_options o).
Proof. done. Qed.

(** What the start-up has built. *)
Definition started (o : Options) (layers : list (Z * list row)) (log : list Record_) (fd : nat)
    (w : world) (st : Store) (w' : world) : Prop :=
  store_inv w' st layers.*2 /\ options_ st = store_options o /\ next_sequence_ st = next_of layers /\
  path_ <$> sstables_ st = table_path st <$> layers.*1 /\
  (forall k, find (memtable_ st) k = last_of (write_of <$> log) k) /\
  (exists t size, wal_ st = Some (mkWal fd (policy o) [] t kSyncIntervalMs size 0 0 (group o))) /\
  contents w' fd = enc log /\ ino_synced w' = ino_synced w /\ next_ino w' = next_ino w /\
  (forall i, i <> fd -> contents w' i = contents w i) /\
  dir w' ⊆ dir w /\ (forall p, p ∉ temps st -> dir w' !! p = dir w !! p) /\ dir_synced w' = dir_synced w /\
  (exists st0, memtable_ st0 = Memtable_init /\ memtable_ st = memtable_ (fold_left apply log st0)).

(** The log joins a store that has none. *)
Lemma inv_attach w st rows wal :
  store_inv w st rows -> wal_ st = None -> dir w !! log_path (options_ st) = Some (Wal.fd_ wal) ->
  (forall t, t ∈ sstables_ st -> fd_ t <> Wal.fd_ wal) ->
  store_inv w (Store.set_wal st (Some wal)) rows.
Proof.
  intros [J1 J2 J3 J4 J5 JI J6 J7 J8] Hnw Hlog Hfd.
  assert (forall x, x ∈ open_fds (Store.set_wal st (Some wal)) -> x ∈ open_fds st \/ x = Wal.fd_ wal) as Hof.
  { intros x. unfold open_fds. rewrite Hnw, app_nil_r. cbn. intros [?|Hx]%elem_of_app; [by left|].
    apply list_elem_of_singleton in Hx. by right. }
  constructor; auto.
  - intros x [Hx| ->]%Hof; [by apply J4|]. by apply (J5 _ _ Hlog).
  - intros p x Hp [Hx| ->]%Hof; [by apply J6|]. intros Hpx.
    apply (log_path_not_temp st p); [done|]. by apply (JI _ _ (Wal.fd_ wal)).
  - intros wal1 t [= <-] Hin. by apply Hfd.
Qed.

(** The log's file is no table's. *)
Lemma tables_not_log w o ts (qs : list Z) fd :
  (forall p q i, dir w !! p = Some i -> dir w !! q = Some i -> p = q) ->
  Forall (fun t => dir w !! path_ t = Some (fd_ t)) ts ->
  path_ <$> ts = (fun q => in_dir (o_dir o) (table_name q)) <$> qs ->
  dir w !! log_path o = Some fd -> forall t, t ∈ ts -> fd_ t <> fd.
Proof.
  intros Hinj Hfds Hps Hlog t Hin Heq. rewrite Forall_forall in Hfds. specialize (Hfds t Hin). cbn in Hfds.
  rewrite Heq in Hfds. assert (path_ t ∈ path_ <$> ts) as Hp by (apply list_elem_of_fmap; by exists t).
  rewrite Hps in Hp. apply list_elem_of_fmap in Hp as (q & Hq & _).
  apply (log_path_not_table o q). rewrite <- Hq. by apply (Hinj _ _ fd).
Qed.

Lemma dir_rep_same w w' o layers : same_files w w' -> dir_rep w o layers -> dir_rep w' o layers.
Proof.
  intros Hw [H1 H2 H3 H4 H5 H6 H7]. pose proof Hw as (Hd & _ & _ & _ & Hnx).
  constructor; auto; rewrite ?Hd, ?Hnx; auto.
  intros q rs Hin. destruct (H3 q rs Hin) as (i & Hi & Htb). exists i. by rewrite <- Hw.
Qed.

(** The log replayed into the store that was opened, and attached to it. *)
Lemma started_replayed o layers log fd w w2 w4 ts t size :
  let op := opened (store_options o) ts layers in
  same_inodes w w2 -> dir w2 ⊆ dir w -> (forall p, p ∉ temps op -> dir w2 !! p = dir w !! p) ->
  dir_synced w2 = dir_synced w -> store_inv w2 op layers.*2 ->
  path_ <$> ts = (fun q => in_dir (o_dir (store_options o)) (table_name q)) <$> layers.*1 ->
  Forall (fun t => dir w2 !! path_ t = Some (fd_ t)) ts -> dir w2 !! wal_path (dir_name o) = Some fd ->
  frame fd w2 w4 -> contents w4 fd = enc log -> ino_synced w4 = ino_synced w2 ->
  started o layers log fd w
    (set_wal (fold_left apply log op) (Some (mkWal fd (policy o) [] t kSyncIntervalMs size 0 0 (group o)))) w4.
Proof.
  intros op Hi2 Hsub Hnames Hsyn I2 Hps Hfds Hlog2 Hf Hc4 Hs4. pose proof (frame_dir _ _ _ Hf) as Hd4.
  destruct (apply_all log op init_wf) as (Hwf3 & Hfind3 & Heq3). set (st3 := fold_left apply log op) in *.
  assert (sstables_ st3 = ts /\ options_ st3 = store_options o /\ next_sequence_ st3 = next_of layers)
    as (Hts & Ho & Hnx) by (by rewrite Heq3).
  pose proof (tables_not_log w2 (store_options o) ts _ fd (si_inj _ _ _ I2) Hfds Hps Hlog2) as Hfd.
  assert (store_inv w2 st3 layers.*2) as I3 by (rewrite Heq3; by apply inv_set_memtable).
  assert (store_inv w4 st3 layers.*2) as I4.
  { apply (inv_transfer w2); auto.
    - intros t' Hin. rewrite Hts in Hin. apply (frame_contents fd); auto.
    - rewrite Hd4, (frame_next _ _ _ Hf). apply I3.
    - rewrite Hd4. apply I3.
    - by rewrite (frame_next _ _ _ Hf).
    - rewrite Hd4. apply I3. }
  unfold started. split_and!.
  - apply inv_attach; [done|by rewrite Heq3|by rewrite Ho, Hd4|by rewrite Hts].
  - done.
  - done.
  - cbn [sstables_ Store.set_wal]. rewrite Hts, Hps. apply list_fmap_ext. intros _ q _.
    unfold table_path. cbn [options_ Store.set_wal]. by rewrite Ho.
  - intros k. cbn [memtable_ Store.set_wal]. rewrite Hfind3. by destruct (last_of _ k).
  - by eexists _, _.
  - done.
  - rewrite Hs4. by destruct Hi2 as (_ & -> & _).
  - rewrite (frame_next _ _ _ Hf). by destruct Hi2 as (_ & _ & ->).
  - intros i Hi. rewrite (frame_contents fd i w2 w4) by done. by apply same_inodes_contents.
  - by rewrite Hd4.
  - intros p Hp. rewrite Hd4. apply Hnames. unfold temps in *. cbn in Hp. by rewrite Ho in Hp.
  - by rewrite (frame_dir_synced _ _ _ Hf).
  - by exists op.
Qed.

Lemma wp_startup E o layers log tail fd n w :
  dir_rep w (store_options o) layers -> dir_name o <> [] ->
  dir w !! wal_path (dir_name o) = Some fd -> contents w fd = enc log ++ tail ->
  Forall record_ok log -> tail = [] \/ torn tail -> files_within w n ->
  wp (startup E o) (fun r w' => match r with
    | Ret (st, result) => started o layers log fd w st w' /\
        (reliable E n -> forall p, p ∈ temps st -> dir w' !! p = None) /\
        result = mkReplayResult (zlen log) (zlen (enc log)) (bool_decide (tail <> []))
    | _ => ~ reliable E n
    end) w.
Proof.
  intros Hrep Hdir Hlog Hc Hok Ht Hn.
  assert (forall k, (k <= n)%nat -> ~ reliable E k -> ~ reliable E n) as Hmono.
  { intros k Hk H. contradict H. by eapply reliable_mono. }
  assert (~ reliable E 0 -> ~ reliable E n) as H0 by (apply Hmono; lia).
  unfold startup, mkdir. apply wp_bind, wp_one_call.
  2: { intros r w1 _ [->| ->] Hrel; [apply wp_throw|]; auto. }
  intros w1 Hw1. cbn [negb].
  pose proof (dir_rep_same w w1 _ _ Hw1 Hrep) as Hrep1.
  apply wp_bind. eapply wp_mono; [apply (wp_Store_open E (store_options o) layers n w1 Hrep1); [|done]|].
  { intros q rs i _ _. rewrite <- Hw1. apply Hn. }
  intros [st|e|] w2 Hst; [|done|done].
  destruct Hst as (ts & -> & I2 & Hps & [Hsh Hsub] & Hnames & Hfds & Hsyn & Hgone).
  assert (same_inodes w w2) as Hi2 by (etransitivity; [by apply same_files_inodes|done]).
  assert (dir w2 !! wal_path (dir_name o) = Some fd) as Hlog2.
  { rewrite Hnames; [by rewrite <- Hw1|]. intros Hin.
    by apply (log_path_not_temp (opened (store_options o) ts layers) _ Hin). }
  assert (forall i, contents w2 i = contents w i) as Hc2 by (intros i; by apply same_inodes_contents).
  apply wp_bind. eapply wp_mono; [apply (wp_replay E _ apply _ fd log tail w2); [done|by rewrite Hc2|done|done]|].
  intros [[st3 result]|e|] w3 Hr; [|rewrite Hc2 in Hr; eapply Hmono; [apply Hn|done]..].
  destruct Hr as (-> & -> & Hf3 & Hc3 & Hs3).
  assert (dir w3 = dir w2) as Hd3 by (by apply frame_dir in Hf3).
  apply wp_bind. eapply wp_mono; [apply (wp_Wal_open E _ (policy o) kSyncIntervalMs fd w3); by rewrite Hd3|].
  intros [wal|e|] w4 Hr; [|by apply H0..]. destruct Hr as [Hw4 ->]. apply wp_ret.
  split; [|split; [|done]].
  - apply (started_replayed o layers log fd w w2 w4 ts); auto.
    + destruct Hw1 as (Hd1 & _). by rewrite Hd1 in Hsub.
    + intros p Hp. rewrite Hnames by done. by rewrite <- Hw1.
    + by rewrite Hsyn, <- Hw1.
    + etransitivity; [done|by apply same_files_frame].
    + by rewrite <- Hw4.
    + by rewrite <- Hw4.
  - intros Hrel p Hp. rewrite <- Hw4, Hd3. apply Hgone; [eapply reliable_mono; [|done]; lia|].
    revert Hp. unfold temps. cbn [options_ Store.set_wal].
    by destruct (apply_all log (opened (store_options o) ts layers) init_wf) as (_ & _ & ->).
Qed.

(** After a power cut what is on the disk is durable, so the new process is again in
    the state [Durable] reasons about, with nothing left to sync. *)
Lemma started_running o layers log tail fd T w st w' :
  dir_synced w = dir w -> (forall i, (i < next_ino w)%nat -> ino_synced w !! i = Some (contents w i)) ->
  dir_rep w (store_options o) layers -> dir_name o <> [] ->
  dir w !! wal_path (dir_name o) = Some fd -> contents w fd = enc log ++ tail ->
  Forall record_ok log -> tail = [] \/ torn tail ->
  started o layers log fd w st w' -> (forall p, p ∈ temps st -> dir w' !! p = None) ->
  running (first_of layers.*2) (write_of <$> log) (length log) T w' st (mkGhost layers fd log (length log)).
Proof.
  intros Hds His Hrep Hdir Hlog Hc Hok Ht (I & Ho & Hnx & Hpaths & Hfind & (t0 & size & Hw) & Hc' & Hs & Hn & Hkeep & Hsub & Hnames & Hds' & _) Hgone.
  assert (forall p i, named w' p i -> dir w !! p = Some i) as Hnm.
  { intros p i [H|H]; [by eapply lookup_weaken|]. by rewrite Hds', Hds in H. }
  assert (forall q, dir w' !! in_dir (o_dir (store_options o)) (table_name q) =
    dir w !! in_dir (o_dir (store_options o)) (table_name q)) as Htab.
  { intros q. apply Hnames. intros Hp. apply (table_path_not_temp st q _ Hp). unfold table_path. by rewrite Ho. }
  destruct Hrep as [H1 H2 H3 H4 H5 H6 H7].
  constructor; cbn [g_layers g_fd g_recs g_m]; auto.
  - by rewrite Ho.
  - rewrite Hw. by eexists.
  - rewrite Ho. constructor; cbn [extra_layer app]; auto.
    + intros q rs Hin. destruct (H3 q rs Hin) as (i & Hi & Hit). exists i.
      assert (i <> fd) as Hne.
      { intros ->. apply (log_path_not_table (store_options o) q). by apply (H7 _ _ fd). }
      rewrite Htab, Hds', Hds, Hkeep by done. split_and!; try done. unfold durable. rewrite Hs, Hkeep by done. by eapply His, H6.
    + done.
    + intros p i m q Hp. by eapply H5, Hnm.
    + intros p i Hp. rewrite Hn. by eapply H6, Hnm.
    + intros p q i Hp Hq. by eapply H7; apply Hnm.
    + split; [|by rewrite Hds', Hds]. rewrite Hnames; [done|]. intros Hp.
      apply (log_path_not_temp st _ Hp). by rewrite Ho.
  - rewrite Hnx. eapply Forall_impl; [apply (next_of_range layers H1 H2)|]. cbn. lia.
  - split; [done|]. exists tail. rewrite firstn_all, Hs, His, Hc by (by eapply H6). done.
  - intros k. rewrite Hfind. by destruct (last_of _ k).
  - exists []. split_and!; [done|done|]. done.
Qed.

(** The start-up on a disk that can be recovered, by a kernel that does its work. *)
Lemma recoverable_startup E o V0 ws s T n w :
  recoverable (store_options o) V0 ws s T w -> dir_name o <> [] -> reliable E n -> files_within w n ->
  exists st result w' (layers : list (Z * list row)),
    startup E o w = (Ret (st, result), w') /\ store_inv w' st layers.*2 /\
    forall k, exists j, (s <= j <= length ws)%nat /\
      same_answer T (view (memtable_ st) layers.*2 k) (after V0 (take j ws) k).
Proof.
  intros (layers & log & tail & fd & Hrep & Hlog & Hok & Hc & Ht & Hk) Hdir Hrel Hn.
  pose proof (wp_startup E o layers log tail fd n w Hrep Hdir Hlog Hc Hok Ht Hn) as H. unfold wp in H.
  destruct (startup E o w) as [[[st result]|e|] w']; [|done|done]. cbn [fst snd] in H.
  destruct H as [(I & _ & _ & _ & Hfind & _) _]. exists st, result, w', layers. split_and!; [done|done|].
  intros k. destruct (Hk k) as (j & Hj & Ha). exists j. split; [done|]. etransitivity; [|exact Ha].
  unfold view, after. by rewrite Hfind.
Qed.

(** After a power cut, moreover, the new store runs as the old one did. *)
Lemma recoverable_restart E o V0 ws s T n w :
  recoverable (store_options o) V0 ws s T w -> dir_name o <> [] -> reliable E n -> files_within w n ->
  dir_synced w = dir w -> (forall i, (i < next_ino w)%nat -> ino_synced w !! i = Some (contents w i)) ->
  exists st result w' V ws' g, startup E o w = (Ret (st, result), w') /\
    running V ws' (length ws') T w' st g /\
    forall k, exists j, (s <= j <= length ws)%nat /\
      same_answer T (after V ws' k) (after V0 (take j ws) k).
Proof.
  intros (layers & log & tail & fd & Hrep & Hlog & Hok & Hc & Ht & Hk) Hdir Hrel Hn Hds His.
  pose proof (wp_startup E o layers log tail fd n w Hrep Hdir Hlog Hc Hok Ht Hn) as H. unfold wp in H.
  destruct (startup E o w) as [[[st result]|e|] w']; [|done|done]. cbn [fst snd] in H.
  destruct H as (Hst & Hgone & _).
  exists st, result, w', (first_of layers.*2), (write_of <$> log), (mkGhost layers fd log (length log)).
  split; [done|]. split; [|done]. rewrite length_fmap.
  by apply (started_running o layers log tail fd T w); auto.
Qed.
