(* ===== verification/Lifecycle.v ===== *)
(** * Run, crash, start again

    A client's calls on a running store, one after the other, and the theorems that
    put [Durable] and [Recovery] together: what the store holds is the end of its
    history, wherever the process dies the next start gives back a point of the
    history no older than the last durable one, and after a power cut the new process
    is in the state the old one was in.  At the end, two runs in which the machine
    fails at a moment the code is not prepared for. *)

From stdpp Require Import gmap.
From S2P Require Import Prelude Decimal SortedMap Memtable WalCodec Posix Wal Sstable Compaction Store StoreSpec Abstract LogGuard Main Crash Durable Recovery.

(** ** Calls *)

Inductive StoreCall :=
  | SSet (key value : bytes) (expires_at_ms : Z)
  | SDel (key : bytes)
  | SDelMany (keys : list bytes)
  | SLookup (key : bytes)
  | SSweep (budget : nat)
  | SFlush
  | SSync
  | SMaybeSync.

(** [maybe_sync] through the store's log. *)
Definition store_maybe_sync (E : env) (st : Store) : M (bool * Store) :=
  match wal_ st with
  | None => mret (true, st)
  | Some wal => '(ok, wal) ← maybe_sync E wal; mret (ok, set_wal st (Some wal))
  end.

Definition on_snd {A} (m : M (A * Store)) : M Store := x ← m; mret x.2.

Definition scall (E : env) (c : StoreCall) (st : Store) : M Store :=
  match c with
  | SSet key value ex => on_snd (Store.set E st key value ex)
  | SDel key => on_snd (Store.del E st key)
  | SDelMany keys => on_snd (del_many E st keys)
  | SLookup key => _ ← lookup E st key; mret st
  | SSweep budget => on_snd (Store.sweep_expired E st budget)
  | SFlush => on_snd (flush E st)
  | SSync => on_snd (store_sync E st)
  | SMaybeSync => on_snd (store_maybe_sync E st)
  end.

Fixpoint scalls (E : env) (cs : list StoreCall) (st : Store) : M Store :=
  match cs with
  | [] => mret st
  | c :: cs => st ← scall E c st; scalls E cs st
  end.

(** What a call adds to the history. *)
Definition swrites (c : StoreCall) : list write :=
  match c with
  | SSet key value ex => [(key, mkEntry value false ex)]
  | SDel key => [(key, tomb)]
  | SDelMany keys => deletions keys
  | _ => []
  end.

Definition all_writes (cs : list StoreCall) : list write := concat (swrites <$> cs).

(** The lengths fit the formats of the log and the tables. *)
Definition call_ready (c : StoreCall) (st : Store) : Prop :=
  match c with
  | SSet key value ex => call_ok (CAppend kSet key value ex) /\
      flush_ready (set_memtable st (Memtable.set (memtable_ st) key value ex))
  | SDel key => call_ok (CAppend kDelete key [] 0) /\
      flush_ready (set_memtable st (Memtable.del (memtable_ st) key).2)
  | SDelMany keys => keys <> [] /\ call_ok (delete_batch keys) /\
      flush_ready (set_memtable st (del_all keys (memtable_ st)))
  | SFlush => flush_ready st
  | SLookup _ | SSweep _ | SSync | SMaybeSync => True
  end.

Fixpoint calls_ready (E : env) (cs : list StoreCall) (st : Store) (w : world) : Prop :=
  match cs with
  | [] => True
  | c :: cs => call_ready c st /\
      match scall E c st w with (Ret st', w') => calls_ready E cs st' w' | _ => True end
  end.

(** The log's file is as last fsynced. *)
Definition log_synced (w : world) (st : Store) : Prop :=
  match wal_ st with Some wal => durable w (Wal.fd_ wal) | None => False end.

Section calls.
Context (E : env) (Hco : crash_only E) (Hclk : clock_ok E) (T : Z) (Hpast : forall t, clock_at E t <= T).

Lemma wp_maybe_sync_run V0 ws s st g w :
  running V0 ws s T w st g ->
  wp (store_maybe_sync E st) (step_post V0 ws [] s T st snd (fun x _ => exists wal, x = (true, set_wal st (Some wal)))) w.
Proof using Hco.
  intros R. destruct (rn_wal _ _ _ _ _ _ _ R) as (wal & Hw & Hfd).
  assert (forall w1, same_files w w1 ->
    step_post V0 ws [] s T st snd (fun x _ => exists wal, x = (true, set_wal st (Some wal)))
      (Ret (true, set_wal st (Some wal))) w1) as Hsame.
  { intros w1 Hw1. split; [by exists wal|]. split; [done|]. exists g, s. rewrite app_nil_r. split; [|done].
    apply (running_same V0 ws s T w); [done|]. rewrite <- Hw. by destruct st. }
  unfold store_maybe_sync. rewrite Hw. unfold maybe_sync. apply wp_bind.
  destruct (negb _); [by apply wp_ret, wp_ret, Hsame|]. destruct (_ =? 0); [by apply wp_ret, wp_ret, Hsame|].
  apply wp_bind, wp_steady_now. intros t w1 Hw1 _. destruct (_ <? _); [by apply wp_ret, wp_ret, Hsame|].
  pose proof (wp_sync_run E Hco T V0 ws s st g w1 (running_same V0 ws s T w w1 st g Hw1 R)) as H.
  unfold store_sync in H. rewrite Hw in H. cbv [wp mbind M_bind] in *.
  destruct (sync E wal w1) as [[[b wal']|e|] w2]; cbn [fst snd] in *; apply H.
Qed.

Lemma wp_on_snd {A} V0 ws new s st ok (m : M (A * Store)) w :
  wp m (step_post V0 ws new s T st snd ok) w ->
  wp (on_snd m) (step_post V0 ws new s T st id (fun _ _ => True)) w.
Proof.
  intros H. apply wp_bind. eapply wp_mono; [exact H|].
  intros [[a st']|e|] w'; [|done|done]. intros (_ & Ho & Hg). by apply wp_ret.
Qed.

Lemma wp_scall V0 ws s st g c w :
  running V0 ws s T w st g -> call_ready c st ->
  wp (scall E c st) (step_post V0 ws (swrites c) s T st id (fun _ _ => True)) w.
Proof using Hco Hclk Hpast.
  intros R Hready. destruct c as [key value ex|key|keys|key|budget| | |]; cbn [scall swrites call_ready] in *.
  - destruct Hready as [H1 H2]. by eapply wp_on_snd, wp_set_run.
  - destruct Hready as [H1 H2]. by eapply wp_on_snd, wp_del_run.
  - destruct Hready as (H1 & H2 & H3).
    by eapply wp_on_snd, wp_del_many_run.
  - pose proof (rn_inv _ _ _ _ _ _ _ R) as I.
    apply wp_bind. eapply wp_mono; [apply (wp_lookup E w st (g_layers g).*2 key w); [apply I|apply I|reflexivity]|].
    intros [f|e|] w' [Hw Hr]; [apply wp_ret|done|].
    + split; [done|]. split; [done|]. exists g, s. rewrite app_nil_r. split; [|done].
      by apply (running_same V0 ws s T w).
    + eapply step_dead. by apply (running_same V0 ws s T w).
  - eapply wp_on_snd, wp_sweep_run; [done|apply Hpast].
  - by eapply wp_on_snd, wp_flush_run.
  - eapply wp_on_snd. eapply wp_mono; [by eapply wp_sync_run|]. by intros r w' [H _].
  - by eapply wp_on_snd, wp_maybe_sync_run.
Qed.

(** A run of calls that returned. *)
Lemma scalls_running V0 cs : forall ws s st g w st' w',
  running V0 ws s T w st g -> calls_ready E cs st w -> scalls E cs st w = (Ret st', w') ->
  options_ st' = options_ st /\
  exists g' s', running V0 (ws ++ all_writes cs) s' T w' st' g' /\ (s <= s')%nat.
Proof using Hco Hclk Hpast.
  induction cs as [|c cs IH]; intros ws s st g w st' w' R Hready Hrun.
  { injection Hrun as <- <-. split; [done|]. exists g, s. unfold all_writes. by rewrite app_nil_r. }
  destruct Hready as [Hc Hready]. cbn [scalls] in Hrun. cbv [mbind M_bind] in Hrun.
  pose proof (wp_scall V0 ws s st g c w R Hc) as H. unfold wp in H.
  destruct (scall E c st w) as [[st1|e|] w1]; [|done|done].
  destruct H as (_ & Ho & g1 & s1 & R1 & Hs1). cbn [fst snd id] in *.
  destruct (IH _ _ _ _ _ _ _ R1 Hready Hrun) as (Ho' & g' & s' & R' & Hs').
  split; [congruence|]. exists g', s'. split; [|lia]. unfold all_writes. rewrite fmap_cons, concat_cons.
  by rewrite app_assoc.
Qed.

Lemma scalls_no_throw V0 cs : forall ws s st g w e w',
  running V0 ws s T w st g -> calls_ready E cs st w -> scalls E cs st w <> (Throw e, w').
Proof using Hco Hclk Hpast.
  induction cs as [|c cs IH]; intros ws s st g w e w' R Hready; [done|].
  destruct Hready as [Hc Hready]. cbn [scalls]. cbv [mbind M_bind].
  pose proof (wp_scall V0 ws s st g c w R Hc) as H. unfold wp in H.
  destruct (scall E c st w) as [[st1|e1|] w1]; [|done|done].
  destruct H as (_ & _ & g1 & s1 & R1 & _). by eapply IH.
Qed.

Lemma calls_ready_app cs1 cs2 : forall st w st1 w1,
  calls_ready E (cs1 ++ cs2) st w -> scalls E cs1 st w = (Ret st1, w1) ->
  calls_ready E cs1 st w /\ calls_ready E cs2 st1 w1.
Proof.
  induction cs1 as [|c cs1 IH]; intros st w st1 w1 Hr Hrun; cbn [app calls_ready scalls] in *.
  { by injection Hrun as <- <-. }
  cbv [mbind M_bind] in Hrun. destruct Hr as [Hc Hr].
  destruct (scall E c st w) as [[st2|e|] w2]; [|done|done].
  destruct (IH _ _ _ _ Hr Hrun) as [H1 H2]. done.
Qed.

(** Whatever comes after a moment at which the log was synced, every crash leaves at
    least the writes before that moment. *)
Lemma calls_survive V0 ws s st g w cs1 cs2 c st1 w1 st2 w2 r w3 :
  running V0 ws s T w st g -> calls_ready E (cs1 ++ cs2 ++ [c]) st w ->
  scalls E cs1 st w = (Ret st1, w1) -> log_synced w1 st1 ->
  scalls E cs2 st1 w1 = (Ret st2, w2) -> scall E c st2 w2 = (r, w3) ->
  survives (options_ st) V0 (ws ++ all_writes (cs1 ++ cs2 ++ [c])) (length (ws ++ all_writes cs1)) T w3.
Proof using Hco Hclk Hpast.
  intros R Hready H1 Hsync H2 H3.
  destruct (calls_ready_app _ _ _ _ _ _ Hready H1) as [Hr1 Hr].
  destruct (calls_ready_app _ _ _ _ _ _ Hr H2) as [Hr2 [Hr3 _]].
  destruct (scalls_running _ _ _ _ _ _ _ _ _ R Hr1 H1) as (Ho1 & g1 & s1 & R1 & _).
  assert (durable w1 (g_fd g1)) as Hd.
  { destruct (rn_wal _ _ _ _ _ _ _ R1) as (wal & Hw & <-). unfold log_synced in Hsync. by rewrite Hw in Hsync. }
  pose proof (running_synced T _ _ _ _ _ _ R1 (durable_as prefix _ _ Hd)) as R1'.
  destruct (scalls_running _ _ _ _ _ _ _ _ _ R1' Hr2 H2) as (Ho2 & g2 & s2 & R2 & Hs2).
  pose proof (wp_elim _ _ _ _ _ (wp_scall V0 _ s2 st2 g2 c w2 R2 Hr3) H3) as H.
  assert (ws ++ all_writes (cs1 ++ cs2 ++ [c]) = ((ws ++ all_writes cs1) ++ all_writes cs2) ++ swrites c) as ->.
  { unfold all_writes. rewrite !fmap_app, !concat_app, <- !app_assoc. cbn. by rewrite app_nil_r. }
  assert (survives (options_ st) V0 (((ws ++ all_writes cs1) ++ all_writes cs2) ++ swrites c) s2 T w3) as Hs.
  { destruct r as [st3|e|]; [|done|by rewrite <- Ho1, <- Ho2]. destruct H as (_ & Ho & g3 & s3 & R3 & Hs3).
    cbn [id] in *. rewrite <- Ho1, <- Ho2, <- Ho. intros w4 Hc.
    eapply recoverable_weaken; [|by eapply running_survives]. done. }
  intros w4 Hc. eapply recoverable_weaken; [exact Hs2|by apply Hs].
Qed.

End calls.

(** ** The theorems *)

(** What the store holds is the end of its history.  On a kernel that works until it
    kills the process, after any calls that all returned, every key is answered by
    the last write to it, or by the map the store started from, whether the writes are
    in the memtable, in tables, or were swept, and by [Store::lookup] itself once
    the kernel lets it finish.  No call throws. *)
Theorem calls_follow_history (E : env) (V0 : bytes -> option Entry) (ws : list write) (s : nat) (T : Z)
    (w w' : world) (st : Store) (g : ghost) (cs : list StoreCall) (r : res Store) :
  crash_only E -> clock_ok E -> (forall t, clock_at E t <= T) ->
  running V0 ws s T w st g -> calls_ready E cs st w -> scalls E cs st w = (r, w') ->
  match r with
  | Ret st' => forall E' n k, reliable E' n -> (files_budget w' (sstables_ st') <= n)%nat ->
      (forall t, T <= clock_at E' t) ->
      exists t w'', between (tick w') w'' t /\
        lookup E' st' k w' = (Ret (after V0 (ws ++ all_writes cs) k ≫= answer_at (clock_at E' t)), w'')
  | Throw _ => False
  | Dead => True
  end.
Proof.
  intros Hco Hclk HT R Hready Hrun. destruct r as [st'|e|]; [| |done].
  - destruct (scalls_running E Hco Hclk T HT _ _ _ _ _ _ _ _ _ R Hready Hrun) as (_ & g' & s' & R' & _).
    intros E' n k Hrel Hn HT'.
    destruct (lookup_reliable E' n w' st' (g_layers g').*2 k) as (t & w'' & Ht & Hl); [apply R'|done|done|].
    exists t, w''. split; [done|]. rewrite Hl. by rewrite (running_view _ _ _ _ _ _ _ k R').
  - by eapply (scalls_no_throw E Hco Hclk T HT).
Qed.

(** C4: Nothing that was durable is lost, wherever the process dies.  A store runs some
    calls, after which its log is synced; it runs some more, and during or after
    the last of them the process is killed or the power fails.  Then [startup] of
    [main.cpp] on what is left returns, and a lookup of any key in the store it built
    gives a value the key had at some point of the history from the sync to the end:
    never one older than the sync, never one that was not written.  The death may
    fall anywhere: within a record, between the rename of a flushed table, the fsync
    of the directory and the cut of the log, or during a sync. *)
Theorem crash_recovery (E E' : env) (o : Options) (V0 : bytes -> option Entry) (ws : list write) (s : nat) (T : Z)
    (w w1 w2 w3 w4 : world) (st st1 st2 : Store) (g : ghost) (cs1 cs2 : list StoreCall) (c : StoreCall)
    (r : res Store) (n : nat) :
  crash_only E -> clock_ok E -> (forall t, clock_at E t <= T) ->
  running V0 ws s T w st g -> options_ st = store_options o ->
  calls_ready E (cs1 ++ cs2 ++ [c]) st w ->
  scalls E cs1 st w = (Ret st1, w1) -> log_synced w1 st1 ->
  scalls E cs2 st1 w1 = (Ret st2, w2) -> scall E c st2 w2 = (r, w3) -> crash w3 w4 ->
  reliable E' n -> files_within w4 n ->
  let written := ws ++ all_writes (cs1 ++ cs2 ++ [c]) in
  exists st' result w5, startup E' o w4 = (Ret (st', result), w5) /\
    forall k, exists j, (length (ws ++ all_writes cs1) <= j <= length written)%nat /\
      forall E2 m, reliable E2 m -> (files_budget w5 (sstables_ st') <= m)%nat ->
        (forall t, T <= clock_at E2 t) ->
        exists t w6, between (tick w5) w6 t /\
          lookup E2 st' k w5 = (Ret (after V0 (take j written) k ≫= answer_at (clock_at E2 t)), w6).
Proof.
  intros Hco Hclk HT R Ho Hready H1 Hsync H2 H3 Hcr Hrel Hn written.
  pose proof (calls_survive E Hco Hclk T HT _ _ _ _ _ _ _ _ _ _ _ _ _ _ _ R Hready H1 Hsync H2 H3 w4 Hcr) as Hrec.
  pose proof (rn_dir _ _ _ _ _ _ _ R) as Hdir. rewrite Ho in Hrec, Hdir.
  destruct (recoverable_startup E' o _ _ _ _ n w4 Hrec Hdir Hrel Hn) as (st' & result & w5 & layers & Hst & I & Hk).
  exists st', result, w5. split; [done|]. intros k. destruct (Hk k) as (j & Hj & Ha). exists j. split; [done|].
  intros E2 m Hrel2 Hm HT2. destruct (lookup_reliable E2 m w5 st' layers.*2 k I Hrel2 Hm) as (t & w6 & Ht & Hl).
  exists t, w6. split; [done|]. rewrite Hl. by rewrite (Ha _ (HT2 t)).
Qed.

(** C33: A power cut closes the circle.  When the power fails instead, the process that
    [startup] makes on what is left is in the very state these theorems start from:
    it follows a history of its own, all of it durable, that for every key ends in a
    value the old history had between the sync and its end.  So the same holds of
    the next run, and of the one after that. *)
Theorem power_cut_restart (E E' : env) (o : Options) (V0 : bytes -> option Entry) (ws : list write) (s : nat) (T : Z)
    (w w1 w2 w3 w4 : world) (st st1 st2 : Store) (g : ghost) (cs1 cs2 : list StoreCall) (c : StoreCall)
    (r : res Store) (n : nat) :
  crash_only E -> clock_ok E -> (forall t, clock_at E t <= T) ->
  running V0 ws s T w st g -> options_ st = store_options o ->
  calls_ready E (cs1 ++ cs2 ++ [c]) st w ->
  scalls E cs1 st w = (Ret st1, w1) -> log_synced w1 st1 ->
  scalls E cs2 st1 w1 = (Ret st2, w2) -> scall E c st2 w2 = (r, w3) -> power_cut w3 w4 ->
  reliable E' n -> files_within w4 n ->
  let written := ws ++ all_writes (cs1 ++ cs2 ++ [c]) in
  exists st' result w5 V ws' g', startup E' o w4 = (Ret (st', result), w5) /\
    running V ws' (length ws') T w5 st' g' /\
    forall k, exists j, (length (ws ++ all_writes cs1) <= j <= length written)%nat /\
      same_answer T (after V ws' k) (after V0 (take j written) k).
Proof.
  intros Hco Hclk HT R Ho Hready H1 Hsync H2 H3 Hcr Hrel Hn written.
  pose proof (calls_survive E Hco Hclk T HT _ _ _ _ _ _ _ _ _ _ _ _ _ _ _ R Hready H1 Hsync H2 H3 w4
    (or_intror Hcr)) as Hrec.
  pose proof (rn_dir _ _ _ _ _ _ _ R) as Hdir. rewrite Ho in Hrec, Hdir.
  apply (recoverable_restart E' o _ _ _ _ n w4 Hrec Hdir Hrel Hn); apply Hcr.
Qed.

(** ** A life *)

(** A store with an empty log on an empty directory, whose log is in the directory
    durably. *)
Definition life_options : Options := mkOpts 6379 (lit "d") kAlways 1000 true true false.
Definition life_store : Store :=
  mkStore Memtable_init [] (store_options life_options) 1 0 0 false
    (Some (mkWal 0 kAlways [] 0 1000 0 0 0 false)).

Lemma life_dir p i : named empty_disk p i -> p = lit "d/wal.log" /\ i = 0%nat.
Proof. unfold empty_disk. intros [H|H]; cbn [dir dir_synced] in H; by apply lookup_singleton_Some in H as [<- <-]. Qed.

Lemma life_running : running (fun _ => None) [] 0 5 empty_disk life_store (mkGhost [] 0 [] 0).
Proof.
  constructor; cbn [g_layers g_fd g_recs g_m fmap list_fmap].
  - constructor.
    + apply init_wf.
    + constructor.
    + constructor.
    + intros fd. cbn. intros [->|?%elem_of_nil]%elem_of_cons; [lia|done].
    + intros p i H. destruct (life_dir p i) as [-> ->]; [by left|]. cbn. lia.
    + intros p q i H1 H2. destruct (life_dir p i) as [-> ->]; [by left|].
      by destruct (life_dir q 0) as [-> _]; [left|].
    + intros p fd Hp _ H. destruct (life_dir p fd) as [-> ->]; [by left|].
      by repeat (apply elem_of_cons in Hp as [?|Hp]; [done|]); apply elem_of_nil in Hp.
    + intros wal t _ Hin. by apply elem_of_nil in Hin.
    + exists []. split_and!; [done|constructor|constructor|done|done].
  - done.
  - by eexists.
  - constructor; cbn [extra_layer app fmap list_fmap].
    + constructor.
    + constructor.
    + constructor.
    + by intros ? ? ?%elem_of_nil.
    + done.
    + intros p i n q [-> ->]%life_dir [= <-] Hq. by vm_compute in Hq.
    + intros p i [-> ->]%life_dir. cbn. lia.
    + by intros p q i [-> ->]%life_dir [-> _]%life_dir.
    + done.
  - constructor.
  - done.
  - intros p Hp. repeat (apply elem_of_cons in Hp as [->|Hp]; [by vm_compute|]). by apply elem_of_nil in Hp.
  - constructor.
  - done.
  - split; [done|]. exists []. split; [done|by left].
  - by intros k.
  - by exists [].
Qed.

(** The client writes a key; the log is fsynced.  Then the memtable is flushed and the
    kernel stops at the interaction [at_]. *)
Definition life_env (at_ : nat) : env := env_but at_ [].
Definition life_set : StoreCall := SSet (lit "a") (lit "1") 0.
Definition life_stored : Store :=
  mkStore (Memtable.set Memtable_init (lit "a") (lit "1") 0) [] (store_options life_options) 1 0 0 false
    (Some (mkWal 0 kAlways (encode_rec (mkRecord kSet 5 0 (lit "a") (lit "1"))) 0 1000 23 0 1 false)).
Definition life_disk : world := (scall (life_env 11) life_set life_store empty_disk).2.

Lemma life_crash_only at_ : crash_only (life_env at_).
Proof.
  intros t. unfold life_env, env_but. cbn [answers_at]. destruct (Nat.eqb t at_); [constructor|].
  apply Forall_replicate. by exists 99%nat.
Qed.

Lemma life_clock at_ : clock_ok (life_env at_).
Proof. intros t. unfold is_i64, INT64_MIN, INT64_MAX. cbn. lia. Qed.

Lemma life_past at_ t : clock_at (life_env at_) t <= 5.
Proof. cbn. lia. Qed.

Lemma life_first : scall (life_env 11) life_set life_store empty_disk = (Ret life_stored, life_disk).
Proof.
  unfold life_disk. rewrite (surjective_pairing (scall _ _ _ _)) at 1.
  apply (f_equal (fun r => (r, _))). vm_compute. reflexivity.
Qed.

Lemma life_wrote : scalls (life_env 11) [life_set] life_store empty_disk = (Ret life_stored, life_disk).
Proof. cbn [scalls]. cbv [mbind M_bind]. by rewrite life_first. Qed.

Lemma life_synced : log_synced life_disk life_stored.
Proof. vm_compute. reflexivity. Qed.

Lemma life_ready : calls_ready (life_env 11) ([life_set] ++ [] ++ [SFlush]) life_store empty_disk.
Proof.
  assert (flush_ready life_stored) as Hf by (split_and!; [by repeat constructor|by split|done]).
  assert (call_ready life_set life_store) as Hc.
  { split; [|exact Hf]. intros now Hnow. apply Forall_singleton. by split_and!. }
  cbn [app calls_ready]. rewrite life_first. split; [exact Hc|]. split; [exact Hf|]. by destruct (scall _ _ _ _) as [[]].
Qed.

(** Dead between the rename of the table and the fsync of the directory, and what is left
    when the power fails. *)
Definition life_dead : world := (scall (life_env 11) SFlush life_stored life_disk).2.
Definition life_left : world := power_loss life_dead.

Lemma power_loss_cut w :
  (forall i, (i < next_ino (power_loss w))%nat -> ino_synced (power_loss w) !! i = Some (contents (power_loss w) i)) ->
  power_cut w (power_loss w).
Proof. constructor; try done; [by right|]. intros i. right. by left. Qed.

Lemma life_cut : power_cut life_dead life_left.
Proof.
  apply power_loss_cut. change (power_loss life_dead) with life_left.
  assert (next_ino life_left = 2%nat) as -> by (vm_compute; reflexivity).
  intros [|[|i]] Hi; [vm_compute; reflexivity..|lia].
Qed.

Lemma files_within_map w n : map_Forall (fun _ b => length b <= n)%nat (ino w) -> files_within w n.
Proof.
  intros H i. unfold contents. destruct (ino w !! i) as [b|] eqn:Hb; cbn; [|lia]. by apply (H i).
Qed.

Lemma life_within : files_within life_left 400.
Proof. apply files_within_map. apply (bool_decide_unpack _). vm_compute. exact I. Qed.

Lemma crash_recovery_witness :
  exists st result w5 t w6, startup (fair_env 400) life_options life_left = (Ret (st, result), w5) /\
    lookup (fair_env 400) st (lit "a") w5 =
      (Ret (answer_at (clock_at (fair_env 400) t) (mkEntry (lit "1") false 0)), w6).
Proof.
  destruct (crash_recovery (life_env 11) (fair_env 400) life_options (fun _ => None) [] 0 5 empty_disk life_disk
    life_disk life_dead life_left life_store life_stored life_stored (mkGhost [] 0 [] 0) [life_set] [] SFlush
    (scall (life_env 11) SFlush life_stored life_disk).1 400 (life_crash_only 11) (life_clock 11) (life_past 11)
    life_running eq_refl life_ready life_wrote life_synced eq_refl (surjective_pairing _)
    (or_intror life_cut) (fair_env_reliable 400) life_within) as (st & result & w5 & Hst & Hk).
  destruct (Hk (lit "a")) as (j & Hj & Hl). change (1 <= j <= 1)%nat in Hj. assert (j = 1%nat) as -> by lia.
  destruct (Hl (fair_env 400) 400%nat (fair_env_reliable 400)) as (t & w6 & _ & Hlook).
  - assert (match startup (fair_env 400) life_options life_left with
            | (Ret (st, _), w5) => files_budget w5 (sstables_ st) <= 400
            | _ => False
            end)%nat as Hb by (vm_compute; lia).
    by rewrite Hst in Hb.
  - intros t. cbn. lia.
  - exists st, result, w5, t, w6. split; [exact Hst|exact Hlook].
Defined.

Lemma power_cut_restart_witness :
  exists st result w5 V ws g, startup (fair_env 400) life_options life_left = (Ret (st, result), w5) /\
    running V ws (length ws) 5 w5 st g /\ after V ws (lit "a") ≫= answer_at 5 = Some (mkFound (lit "1") 0).
Proof.
  destruct (power_cut_restart (life_env 11) (fair_env 400) life_options (fun _ => None) [] 0 5 empty_disk life_disk
    life_disk life_dead life_left life_store life_stored life_stored (mkGhost [] 0 [] 0) [life_set] [] SFlush
    (scall (life_env 11) SFlush life_stored life_disk).1 400 (life_crash_only 11) (life_clock 11) (life_past 11)
    life_running eq_refl life_ready life_wrote life_synced eq_refl (surjective_pairing _)
    life_cut (fair_env_reliable 400) life_within) as (st & result & w5 & V & ws & g & Hst & R & Hk).
  exists st, result, w5, V, ws, g. split; [exact Hst|]. split; [exact R|].
  destruct (Hk (lit "a")) as (j & Hj & Ha). change (1 <= j <= 1)%nat in Hj. assert (j = 1%nat) as -> by lia.
  rewrite (Ha 5) by lia. vm_compute. reflexivity.
Defined.

Lemma calls_follow_history_witness :
  exists t w'', lookup (fair_env 400) life_stored (lit "a") life_disk =
    (Ret (answer_at (clock_at (fair_env 400) t) (mkEntry (lit "1") false 0)), w'').
Proof.
  pose proof (calls_follow_history (life_env 11) (fun _ => None) [] 0 5 empty_disk life_disk life_store
    (mkGhost [] 0 [] 0) [life_set] (Ret life_stored) (life_crash_only 11) (life_clock 11) (life_past 11)
    life_running (proj1 (calls_ready_app (life_env 11) _ _ _ _ _ _ life_ready life_wrote)) life_wrote) as H.
  destruct (H (fair_env 400) 400%nat (lit "a") (fair_env_reliable 400)) as (t & w'' & _ & Hl).
  - vm_compute. lia.
  - intros t. cbn. lia.
  - exists t, w''. exact Hl.
Defined.

(** ** What a machine can do at the wrong moment *)

(** What a process started on the disk says of a key. *)
Definition restarted (key : bytes) (w : world) : res (option Found) :=
  (('(st, _) ← startup (fair_env 400) life_options; lookup (fair_env 400) st key) w).1.

(** The first run in a new directory, and one write. *)
Definition first_run : M bool :=
  '(st, _) ← startup (fair_env 400) life_options;
  '(acked, st) ← Store.set (fair_env 400) st (lit "a") (lit "1") 0;
  mret (acked && negb (match wal_ st with Some wal => needs_sync wal | None => true end)).

(** The first log can vanish.  [Wal::Wal] creates [wal.log] and nothing fsyncs the
    directory before the first flush, so under [kAlways] a write of the first run
    is appended, fsynced and acknowledged while the name of the file that holds it is
    not durable.  A process that is killed finds the write again; after a power cut
    the log is gone and so is the write. *)
Theorem first_log_lost :
  let run := first_run (mkWorld 0 ∅ ∅ ∅ ∅ 0) in
  run.1 = Ret true /\ restarted (lit "a") run.2 = Ret (Some (mkFound (lit "1") 0)) /\
  restarted (lit "a") (power_loss run.2) = Ret None.
Proof. split_and!; vm_compute; reflexivity. Qed.

(** A FLUSHALL that dies half-way brings deleted keys back.  The tables are unlinked
    newest first, so between the first unlink and the last the older tables stand
    uncovered: a process killed there, with no power lost, leaves a directory in
    which a key deleted before the FLUSHALL reads as its oldest value.  It did so
    neither before the FLUSHALL nor after one that finished. *)
Theorem flush_all_crash_resurrects :
  reopened (lit "a") stack_disk = Ret None /\
  (flush_all (env_but 1 []) stack_store stack_disk).1 = Dead /\
  reopened (lit "a") (flush_all (env_but 1 []) stack_store stack_disk).2 = Ret (Some (mkFound (lit "1") 0)) /\
  reopened (lit "a") (flush_all (env_but 9 []) stack_store stack_disk).2 = Ret None.
Proof. split_and!; vm_compute; reflexivity. Qed.
