(* ===== verification/Startup.v ===== *)
(** * A start-up that does not come to its end

    What a start-up does to the files is little: it removes the temporary files, and it
    cuts the log back to its whole records.  Whatever the kernel does meanwhile, and
    wherever the process dies in it, the directory can still be recovered to what it
    could be recovered to before. *)

From stdpp Require Import gmap.
From S2P Require Import Prelude Decimal SortedMap Memtable WalCodec Posix Wal Sstable Compaction Store StoreSpec Abstract LogGuard Main Crash Durable Recovery Lifecycle.

(** ** What a start-up does *)

(** Temporary files may go, and the log may be cut to [good]. *)
Definition tidied (o : StoreOptions) (fd : nat) (good : bytes) (w w' : world) : Prop :=
  dir w' ⊆ dir w /\ (forall p, ~ scratch o p -> dir w' !! p = dir w !! p) /\
  dir_synced w' = dir_synced w /\ ino_synced w' = ino_synced w /\ next_ino w' = next_ino w /\
  (forall i, i <> fd -> contents w' i = contents w i) /\
  (contents w' fd = contents w fd \/ contents w' fd = good).

#[local] Instance tidied_preorder o fd good : PreOrder (tidied o fd good).
Proof.
  split; unfold tidied.
  - intros w. split_and!; auto.
  - intros a b c (A1 & A2 & A3 & A4 & A5 & A6 & A7) (B1 & B2 & B3 & B4 & B5 & B6 & B7).
    split_and!; try congruence; [by etransitivity| | |].
    + intros p Hp. by rewrite B2, A2.
    + intros i Hi. by rewrite B6, A6.
    + destruct B7 as [->|?]; auto.
Qed.

Lemma tidied_same o fd good w w' : same_files w w' -> tidied o fd good w w'.
Proof.
  intros (H1 & H2 & H3 & H4 & H5). unfold tidied, contents. rewrite H1, H2, H3, H4, H5. split_and!; auto.
Qed.

(** *** Reading the tables *)

Lemma reading_throw {A} e : reading (throw e : M A).
Proof. by intros w. Qed.

Lemma reading_open_existing E path : reading (open_existing E path).
Proof.
  intros w. unfold open_existing. repeat case_match; cbn [snd]; split; try done; try apply same_files_tick; cbn; lia.
Qed.

Lemma reading_lseek_end E fd : reading (lseek_end E fd).
Proof. intros w. unfold lseek_end. repeat case_match; cbn [snd]; split; try done; try apply same_files_tick; cbn; lia. Qed.

Lemma reading_read_exact E fd off n : reading (read_exact E fd off n).
Proof. intros w. unfold read_exact. case_match; cbn [snd]; split; try done; try apply same_files_tick; cbn; lia. Qed.

Lemma reading_Sstable_open E path b : reading (Sstable_open E path b).
Proof.
  unfold Sstable_open.
  repeat first [apply reading_ret | apply reading_throw | apply reading_checked | apply reading_open_existing
    | apply reading_lseek_end | apply reading_read_exact
    | apply reading_bind; [|intros ?] | match goal with |- reading (match ?x with _ => _ end) => destruct x end].
Qed.

Lemma reading_mapM {A B} (f : A -> M B) l : (forall a, reading (f a)) -> reading (mapM_ f l).
Proof.
  intros Hf. induction l as [|a l IH]; cbn [mapM_]; [apply reading_ret|].
  apply reading_bind; [apply Hf|]. intros b. apply reading_bind; [apply IH|]. intros; apply reading_ret.
Qed.

(** *** The whole of it *)

Lemma tidied_unlink E o fd good w p : scratch o p -> tidied o fd good w (unlink E p w).2.
Proof.
  intros Hp. enough (wp (unlink E p) (fun _ w' => tidied o fd good w w') w) as H by exact H.
  apply wp_unlink; [|intros r w' Hw _ _; by apply tidied_same].
  intros w' Hd Hds (Hi & His & Hnx) b _. unfold tidied, contents. rewrite Hd, Hds, Hi, His, Hnx.
  split_and!; auto; [apply delete_subseteq|]. intros q Hq. apply lookup_delete_ne. by intros ->.
Qed.

Lemma tidied_Store_open E o fd good w : tidied o fd good w (Store_open E o w).2.
Proof.
  assert (forall A B (m : M A) (k : A -> M B) w0, tidied o fd good w w0 ->
    (forall w1, tidied o fd good w w1 -> tidied o fd good w (m w1).2) ->
    (forall a w1, tidied o fd good w w1 -> tidied o fd good w (k a w1).2) ->
    tidied o fd good w ((m ≫= k) w0).2) as Hbind.
  { intros A B m k w0 H0 Hm Hk. cbv [mbind M_bind]. specialize (Hm w0 H0). destruct (m w0) as [[a|e|] w1]; cbn in *; auto. }
  assert (forall A (m : M A), reading m -> forall w1, tidied o fd good w w1 -> tidied o fd good w (m w1).2) as Hread.
  { intros A m Hm w1 H1. etransitivity; [exact H1|]. apply tidied_same, Hm. }
  unfold Store_open. case_decide; [reflexivity|].
  apply Hbind; [reflexivity|..].
  { apply Hread. intros w1. unfold list_dir. repeat case_match; cbn [snd]; split; try done; try apply same_files_tick; cbn; lia. }
  intros [names|] w1 H1; [|done]. apply Hbind; [done|..].
  { intros w2 H2. etransitivity; [exact H2|]. apply tidied_unlink. by right. }
  intros _ w2 H2. apply Hbind; [done|..].
  { intros w3 H3. etransitivity; [exact H3|]. apply tidied_unlink. by left. }
  intros _ w3 H3. apply Hbind; [done|..].
  - apply Hread, reading_mapM. intros q. apply reading_Sstable_open.
  - intros ts w4 H4. exact H4.
Qed.

Lemma wp_replay_tidied {S} E o path (app : S -> Record_ -> S) (s0 : S) fd log tail w :
  dir w !! path = Some fd -> contents w fd = enc log ++ tail -> Forall record_ok log -> tail = [] \/ torn tail ->
  wp (replay E path app s0) (fun _ w' => tidied o fd (enc log) w w' /\ dir w' = dir w) w.
Proof.
  intros Hd Hc Hok Ht. unfold replay.
  assert (forall w1, same_files w w1 -> tidied o fd (enc log) w w1 /\ dir w1 = dir w) as Hsame.
  { intros w1 Hw. split; [by apply tidied_same|]. by rewrite <- Hw. }
  apply wp_bind, wp_open_existing.
  2: { intros r w1 Hw [->| ->] _; [apply wp_throw|]; auto. }
  intros w1 Hw1. rewrite Hd. apply wp_bind, wp_read_all.
  2: { intros r w2 Hw2 [->| ->] _; [apply wp_throw|]; apply Hsame; by etransitivity. }
  intros w2 Hw2. assert (same_files w w2) as Hw by (by etransitivity).
  rewrite <- Hw1, Hc. unfold enc at 1. rewrite (replay_scan_torn log tail) by done.
  cbn [truncated good_bytes]. case_bool_decide; [|apply wp_ret; auto].
  apply wp_bind, wp_ftruncate.
  - intros w3 Hc3 Hf3 Hs3. apply wp_ret. split; [|by rewrite (frame_dir _ _ _ Hf3), <- Hw].
    etransitivity; [by apply tidied_same|]. unfold tidied.
    rewrite (frame_dir _ _ _ Hf3), (frame_dir_synced _ _ _ Hf3), (frame_next _ _ _ Hf3). split_and!; auto.
    + intros i Hi. by apply (frame_contents fd).
    + right. rewrite Hc3, <- Hw, Hc. unfold zlen. rewrite Nat2Z.id. apply take_app_length.
  - intros r w3 Hw3 [->| ->] _; [apply wp_throw|]; apply Hsame; by etransitivity.
Qed.

(** The log is there, so opening it creates nothing. *)
Lemma Wal_open_same E path pol iv fd w :
  dir w !! path = Some fd -> same_files w (Wal_open E path pol iv w).2.
Proof.
  intros Hd. enough (wp (Wal_open E path pol iv) (fun _ w' => same_files w w') w) as H by exact H.
  unfold Wal_open. apply wp_bind, wp_steady_now. intros t w1 Hw1 _. apply wp_bind. unfold wp at 1, open_append, create_entry.
  assert (dir w1 !! path = Some fd) as Hd1 by (by rewrite <- Hw1).
  assert (same_files w (next_tick w1)) as Hw2 by (etransitivity; [exact Hw1|apply same_files_tick]).
  destruct (answers E w1) as [|[n| |] l]; rewrite ?Hd1; cbn [fst snd]; try apply wp_throw; try done.
  apply wp_bind, wp_lseek_end.
  - intros w3 Hw3. apply wp_ret. by etransitivity.
  - intros r w3 Hw3 [->| ->] _; [apply wp_throw|]; by etransitivity.
Qed.

Lemma log_not_scratch o : ~ scratch o (log_path o).
Proof. unfold scratch, log_path, in_dir. by intros [H|H]; apply app_inv_head in H. Qed.

Lemma startup_tidied E o fd log tail w :
  dir w !! wal_path (dir_name o) = Some fd -> contents w fd = enc log ++ tail ->
  Forall record_ok log -> tail = [] \/ torn tail ->
  tidied (store_options o) fd (enc log) w (startup E o w).2.
Proof.
  intros Hd Hc Hok Ht.
  enough (wp (startup E o) (fun _ w' => tidied (store_options o) fd (enc log) w w') w) as H by exact H.
  unfold startup, mkdir. apply wp_bind, wp_one_call.
  2: { intros r w1 Hw [->| ->] _; [apply wp_throw|]; by apply tidied_same. }
  intros w1 Hw1. cbn [negb]. apply wp_bind.
  pose proof (tidied_Store_open E (store_options o) fd (contents w fd) w1) as H1. unfold wp at 1.
  assert (tidied (store_options o) fd (contents w fd) w (Store_open E (store_options o) w1).2) as H2
    by (etransitivity; [by apply tidied_same|exact H1]).
  destruct (Store_open E (store_options o) w1) as [r w2]. cbn [fst snd] in *. clear H1.
  assert (tidied (store_options o) fd (enc log) w w2 /\ contents w2 fd = contents w fd) as [H3 Hc2].
  { destruct H2 as (? & ? & ? & ? & ? & ? & H). unfold tidied. split; [split_and!; auto|]; destruct H; auto. }
  assert (dir w2 !! wal_path (dir_name o) = Some fd) as Hd2.
  { destruct H2 as (_ & H & _). rewrite H; [done|]. apply (log_not_scratch (store_options o)). }
  destruct r as [st|e|]; [|done|done]. apply wp_bind. rewrite Hc in Hc2.
  eapply wp_mono; [apply (wp_replay_tidied E (store_options o) _ apply st fd log tail w2 Hd2 Hc2 Hok Ht)|].
  intros r w3 [H4 Hd3]. assert (tidied (store_options o) fd (enc log) w w3) as H5 by (by etransitivity).
  destruct r as [[st' result]|e|]; [|done|done]. apply wp_bind. unfold wp at 1.
  pose proof (Wal_open_same E (wal_path (dir_name o)) (policy o) kSyncIntervalMs fd w3) as H6. rewrite Hd3 in H6.
  specialize (H6 Hd2). destruct (Wal_open _ _ _ _ w3) as [r w4]. cbn [fst snd] in *.
  assert (tidied (store_options o) fd (enc log) w w4) by (etransitivity; [exact H5|by apply tidied_same]).
  by destruct r as [wal|e|]; [apply wp_ret|..].
Qed.

(** ** What a crash finds after it

    A crash after a start-up, or in it, finds no more and no less than a crash before it
    could have: temporary files, and perhaps bytes after the last whole record of the
    log. *)

Definition trimmed_from (o : StoreOptions) (fd : nat) (good : bytes) (whole : bytes) (w3 w' : world) : Prop :=
  dir w' ⊆ dir w3 /\ (forall p, ~ scratch o p -> dir w' !! p = dir w3 !! p) /\ next_ino w' = next_ino w3 /\
  (forall i, i <> fd -> contents w' i = contents w3 i) /\
  (contents w' fd = contents w3 fd \/ contents w' fd = good /\ contents w3 fd = whole).

#[local] Instance scratch_dec o p : Decision (scratch o p).
Proof. unfold scratch. apply _. Defined.

(** The bytes that are left of the log, before and after. *)
Lemma crash_bytes_cut s good tail c x :
  c = good ++ tail \/ c = good -> crash_bytes s c x ->
  exists x3, crash_bytes s (good ++ tail) x3 /\ (x = x3 \/ x = good /\ x3 = good ++ tail).
Proof.
  intros [->| ->] Hx; [by exists x; auto|]. destruct Hx as [->|[->|(y & n & -> & ->)]].
  - exists (good ++ tail). split; [by left|by right].
  - exists s. split; [by right; left|by left].
  - exists (s ++ take n y). split; [|by left]. right. right. exists (y ++ tail), (Nat.min n (length y)).
    split; [by rewrite app_assoc|]. f_equal. rewrite take_app_le by lia.
    destruct (Nat.le_ge_cases n (length y)); [by rewrite Nat.min_l|]. rewrite Nat.min_r by done. by rewrite !firstn_all2 by lia.
Qed.

Lemma tidied_crash o fd good tail w w1 w' :
  tidied o fd good w w1 -> contents w fd = good ++ tail -> (fd < next_ino w)%nat -> crash w1 w' ->
  exists w3, crash w w3 /\ trimmed_from o fd good (good ++ tail) w3 w'.
Proof.
  intros (H1 & H2 & H3 & H4 & H5 & H6 & H7) Hc Hfd [Hs|[D I S J N]].
  - exists w. split; [by left|]. unfold trimmed_from. destruct Hs as (Hd & _ & Hi & _ & Hn).
    rewrite Hd, Hn. split_and!; auto; unfold contents in *; rewrite Hi; [auto|].
    rewrite <- Hc. destruct H7; auto.
  - destruct (crash_bytes_cut (default [] (ino_synced w !! fd)) good tail (contents w1 fd) (contents w' fd))
      as (x3 & Hx3 & Hx).
    { by rewrite <- Hc. }
    { rewrite <- H4. apply I. }
    set (names := dir w' ∪ filter (fun x => scratch o x.1) (dir w)).
    assert (forall p, ~ scratch o p -> names !! p = dir w' !! p) as Hoff.
    { intros p Hp. unfold names. rewrite lookup_union. rewrite (proj2 (map_lookup_filter_None _ _ _)); [by destruct (dir w' !! p)|].
      right. by intros i _ ?. }
    exists (mkWorld (tick w') names names (<[fd := x3]> (ino w')) (<[fd := x3]> (ino_synced w')) (next_ino w')).
    split; [right; constructor; cbn|].
    + intros p. destruct (decide (scratch o p)) as [Hp|Hp].
      * unfold names. rewrite lookup_union.
        assert (filter (fun x => scratch o x.1) (dir w) !! p = dir w !! p) as ->.
        { destruct (dir w !! p) as [i|] eqn:Hi; [by apply map_lookup_filter_Some|].
          apply map_lookup_filter_None. by left. }
        destruct (dir w' !! p) as [i|] eqn:Hi; [|left; by destruct (dir w !! p)].
        assert (Some i ∪ dir w !! p = Some i) as -> by (by destruct (dir w !! p)).
        destruct (D p) as [Hp1|Hp1]; rewrite Hi in Hp1; [left|right; by rewrite <- H3].
        symmetry. eapply lookup_weaken; [by symmetry|done].
      * rewrite Hoff by done. rewrite <- H3, <- (H2 p Hp). apply D.
    + intros i. destruct (decide (i = fd)) as [->|Hi].
      * unfold contents at 2. cbn. rewrite lookup_insert_eq, Hc. done.
      * unfold contents at 2. cbn. rewrite lookup_insert_ne by done. rewrite <- H4, <- (H6 i Hi). apply I.
    + done.
    + intros i Hi. unfold contents. cbn. destruct (decide (i = fd)) as [->|Hne].
      * by rewrite !lookup_insert_eq.
      * rewrite !lookup_insert_ne by done. by apply J.
    + congruence.
    + unfold trimmed_from. cbn [dir next_ino]. split_and!; auto.
      * apply map_union_subseteq_l.
      * intros p Hp. by rewrite Hoff.
      * intros i Hi. unfold contents. cbn. by rewrite lookup_insert_ne.
      * unfold contents at 2 4. cbn. by rewrite lookup_insert_eq.
Qed.

(** Nothing else can come to be a name of the log's file. *)
Lemma log_alone o V0 ws s T fd w w3 p :
  survives o V0 ws s T w -> dir w !! log_path o = Some fd -> crash w w3 -> dir w3 !! p = Some fd -> p = log_path o.
Proof.
  intros Hsv Hd Hcr Hp.
  assert (exists w4, crash w w4 /\ dir w4 !! log_path o = Some fd /\ (p <> log_path o -> dir w4 !! p = Some fd))
    as (w4 & Hc4 & Hl4 & Hp4).
  { destruct Hcr as [Hs|[D I S J N]].
    - exists w3. destruct Hs as (H1 & H2 & H3 & H4 & H5). split_and!; [by left|by rewrite H1|done].
    - set (names := <[log_path o := fd]> (dir w3)).
      exists (mkWorld (tick w3) names names (ino w3) (ino_synced w3) (next_ino w3)). cbn. split_and!.
      + right. constructor; cbn; auto. intros q. unfold names. destruct (decide (q = log_path o)) as [->|Hq].
        * rewrite lookup_insert_eq. by left.
        * rewrite lookup_insert_ne by done. apply D.
      + apply lookup_insert_eq.
      + intros Hne. unfold names. by rewrite lookup_insert_ne. }
  destruct (decide (p = log_path o)) as [|Hne]; [done|].
  destruct (Hsv w4 Hc4) as (layers & log & tail & fd4 & Hrep & _). exact (dr_inj _ _ _ Hrep _ _ _ (Hp4 Hne) Hl4).
Qed.

(** Whole records and perhaps a torn one: there is one way to read them. *)
Lemma enc_unique log tail log' tail' :
  Forall record_ok log -> tail = [] \/ torn tail -> Forall record_ok log' -> tail' = [] \/ torn tail' ->
  enc log ++ tail = enc log' ++ tail' -> log = log'.
Proof.
  intros H1 H2 H3 H4 Heq. pose proof (replay_scan_torn log tail H1 H2) as Ha.
  pose proof (replay_scan_torn log' tail' H3 H4) as Hb. unfold enc in Heq. rewrite Heq, Hb in Ha. by injection Ha as <-.
Qed.

Lemma tidied_survives o V0 ws s T fd log tail w w1 :
  survives o V0 ws s T w -> dir w !! log_path o = Some fd -> (fd < next_ino w)%nat ->
  contents w fd = enc log ++ tail -> Forall record_ok log -> tail = [] \/ torn tail ->
  tidied o fd (enc log) w w1 -> survives o V0 ws s T w1.
Proof.
  intros Hsv Hd Hfd Hc Hok Ht Htd w' Hcr.
  destruct (tidied_crash o fd (enc log) tail w w1 w' Htd Hc Hfd Hcr) as (w3 & Hc3 & T1 & T2 & T3 & T4 & T5).
  destruct (Hsv w3 Hc3) as (layers & log3 & tail3 & fd3 & [R1 R2 R3 R4 R5 R6 R7] & Hlog3 & Hok3 & Hct3 & Ht3 & Hk).
  assert (exists tail4, contents w' fd3 = enc log3 ++ tail4 /\ (tail4 = [] \/ torn tail4)) as (tail4 & Hct4 & Ht4).
  { destruct (decide (fd3 = fd)) as [->|Hne]; [|exists tail3; by rewrite T4].
    destruct T5 as [->|[-> Hw]]; [by exists tail3|]. exists []. split; [|by left]. rewrite app_nil_r. f_equal.
    eapply (enc_unique log tail log3 tail3); auto. by rewrite <- Hw. }
  exists layers, log3, tail4, fd3. split_and!; auto; [|by rewrite T2; [|apply log_not_scratch]].
  constructor; auto.
  - intros q rs Hin. destruct (R3 q rs Hin) as (i & Hi & Htab). exists i.
    assert (i <> fd) as Hne.
    { intros ->. apply (log_path_not_table o q). by eapply log_alone. }
    rewrite T4 by done. split; [|done]. rewrite T2; [done|]. intros Hs.
    apply (table_path_not_temp (mkStore Memtable_init [] o 1 0 0 false None) q (in_dir (o_dir o) (table_name q)));
      [by apply scratch_temps|done].
  - intros p i n q Hp. eapply R5. by eapply lookup_weaken.
  - intros p i Hp. rewrite T3. eapply R6. by eapply lookup_weaken.
  - intros p q i Hp Hq. apply (R7 p q i); by eapply lookup_weaken.
Qed.

Lemma startup_survives E o V0 ws s T w :
  survives (store_options o) V0 ws s T w -> survives (store_options o) V0 ws s T (startup E o w).2.
Proof.
  intros Hsv. destruct (Hsv w (or_introl (reflexivity w))) as (layers & log & tail & fd & Hrep & Hd & Hok & Hc & Ht & _).
  eapply tidied_survives; try done; [by eapply (dr_dir _ _ _ Hrep)|]. by eapply startup_tidied.
Qed.

(** ** One crash after another *)

Lemma recoverable_same o V0 ws s T w w' :
  dir w' = dir w -> next_ino w' = next_ino w -> (forall i, (i < next_ino w)%nat -> contents w' i = contents w i) ->
  recoverable o V0 ws s T w -> recoverable o V0 ws s T w'.
Proof.
  intros Hd Hn Hc (layers & log & tail & fd & [R1 R2 R3 R4 R5 R6 R7] & Hlog & Hok & Hct & Ht & Hk).
  exists layers, log, tail, fd. split_and!; auto; [|by rewrite Hd|by rewrite Hc; [|eapply R6]].
  constructor; rewrite ?Hd, ?Hn; auto.
  intros q rs Hin. destruct (R3 q rs Hin) as (i & Hi & Htab). exists i. by rewrite Hc; [|eapply R6].
Qed.

Lemma survives_crash o V0 ws s T w w1 :
  survives o V0 ws s T w -> crash w w1 -> survives o V0 ws s T w1.
Proof.
  intros Hsv Hcr w2 H2. pose proof (Hsv w1 Hcr) as Hrec.
  destruct Hcr as [Hs|Hcut]; [by apply Hsv, (same_files_crash w w1)|].
  eapply recoverable_same; [..|exact Hrec].
  - apply map_eq. intros p. destruct (crash_dir _ _ p H2) as [->| ->]; [done|]. by rewrite (pc_dir_synced _ _ Hcut).
  - by apply crash_next.
  - intros i Hi. apply durable_crash; [|done]. by apply (pc_ino_synced _ _ Hcut).
Qed.

(** Crashes, and start-ups on what they leave, none of which need come to its end. *)
Inductive tried (o : Options) (w : world) : world -> Prop :=
  | tried_never : tried o w w
  | tried_again w1 w2 E : tried o w w1 -> crash w1 w2 -> tried o w (startup E o w2).2.

Lemma tried_survives o V0 ws s T w w1 :
  tried o w w1 -> survives (store_options o) V0 ws s T w -> survives (store_options o) V0 ws s T w1.
Proof. intros Ht Hsv. induction Ht as [|w1 w2 E Ht IH Hcr]; [done|]. by eapply startup_survives, survives_crash. Qed.

(** C7: Starting up never loses anything.  Take a directory that every crash leaves
    recoverable to a value between the [s]-th write and the last, and let the process be
    started on what a crash leaves of it, any number of times: whatever the kernel
    answers (errors, short reads, or nothing any more), however far each start-up comes
    and whatever ends it, the same is true of the directory that is left; and the first
    start-up that the kernel lets come to its end builds a store that has every key as at
    a point of the history from the [s]-th write on. *)
Theorem startup_harmless (o : Options) (V0 : bytes -> option Entry) (ws : list write) (s : nat) (T : Z)
    (w w' : world) :
  tried o w w' -> survives (store_options o) V0 ws s T w -> dir_name o <> [] ->
  survives (store_options o) V0 ws s T w' /\
  forall E k w1, crash w' w1 -> reliable E k -> files_within w1 k ->
    exists st result w2 (layers : list (Z * list row)), startup E o w1 = (Ret (st, result), w2) /\
      store_inv w2 st layers.*2 /\
      forall key, exists j, (s <= j <= length ws)%nat /\
        same_answer T (view (memtable_ st) layers.*2 key) (after V0 (take j ws) key).
Proof.
  intros Ht Hsv Hdir. pose proof (tried_survives _ _ _ _ _ _ _ Ht Hsv) as Hsv'. split; [done|].
  intros E k w1 Hcr Hrel Hwi. by apply (recoverable_startup E o V0 ws s T k w1 (Hsv' w1 Hcr)).
Qed.

(** ** An instance

    A process that died in a flush, as in [Lifecycle]; one that was started after it and
    killed while it read the tables; and then a power cut, and one more start-up that
    dies. *)

Definition tried_once : world := (startup (life_env 16) life_options life_dead).2.
Definition tried_twice : world := (startup (life_env 20) life_options (power_loss tried_once)).2.

Lemma tried_cut : power_cut tried_once (power_loss tried_once).
Proof.
  apply power_loss_cut. assert (next_ino (power_loss tried_once) = 2%nat) as -> by (vm_compute; reflexivity).
  intros [|[|i]] Hi; [vm_compute; reflexivity..|lia].
Qed.

Lemma tried_within : files_within tried_twice 400.
Proof. apply files_within_map. apply (bool_decide_unpack _). vm_compute. exact I. Qed.

Lemma startup_harmless_witness :
  (startup (life_env 16) life_options life_dead).1 = Dead /\
  (startup (life_env 20) life_options (power_loss tried_once)).1 = Dead /\
  exists st result w2 (layers : list (Z * list row)),
    startup (fair_env 400) life_options tried_twice = (Ret (st, result), w2) /\
    view (memtable_ st) layers.*2 (lit "a") ≫= answer_at 5 = Some (mkFound (lit "1") 0).
Proof.
  split; [vm_compute; reflexivity|]. split; [vm_compute; reflexivity|].
  destruct (startup_harmless life_options (fun _ => None) [(lit "a", mkEntry (lit "1") false 0)] 1 5
    life_dead tried_twice) as [_ H].
  - apply (tried_again _ _ tried_once); [|right; exact tried_cut].
    apply (tried_again _ _ life_dead); [apply tried_never|left; reflexivity].
  - exact (calls_survive (life_env 11) (life_crash_only 11) (life_clock 11) 5 (life_past 11) (fun _ => None) [] 0
      life_store (mkGhost [] 0 [] 0) empty_disk [life_set] [] SFlush life_stored life_disk life_stored life_disk _ _
      life_running life_ready life_wrote life_synced eq_refl (surjective_pairing _)).
  - discriminate.
  - destruct (H (fair_env 400) 400%nat tried_twice (or_introl (reflexivity _)) (fair_env_reliable 400) tried_within)
      as (st & result & w2 & layers & Hst & _ & Hk).
    exists st, result, w2, layers. split; [exact Hst|].
    destruct (Hk (lit "a")) as (j & Hj & Ha). change (1 <= j <= 1)%nat in Hj. assert (j = 1%nat) as -> by lia.
    rewrite (Ha 5) by lia. vm_compute. reflexivity.
Defined.
