(* ===== verification/Footprint.v ===== *)
(** * How much the memtable can hold

    The byte estimate of [Memtable] is what makes a flush happen, and a flush is what
    keeps the memtable small enough for the table format: a 32-bit count of rows,
    32-bit lengths and 62 bits of data.  The rows are bounded by the estimate
    ([table_cost_rows], [table_cost_data]), the estimate by the limit and by the
    longest command the parser lets through, and so every flush the store starts is
    one the format has room for ([flush_ready]). *)

From stdpp Require Import gmap.
From S2P Require Import Prelude SortedMap Memtable WalCodec Posix Wal Sstable Compaction Store Abstract LogGuard Crash Durable.

(** ** The estimate and the bytes of a table *)

(** What [std::string] can hide in its small buffer. *)
Lemma heap_cost_length n : 0 <= n -> n <= heap_cost n + kSsoCapacity.
Proof.
  intros Hn. unfold heap_cost, kSsoCapacity. destruct (Z.leb_spec n 15); [lia|].
  pose proof (Z.mul_succ_div_gt (n + 1 + 16 - 1) 16). lia.
Qed.

Lemma heap_cost_bound n : 0 <= n -> heap_cost n <= n + 32.
Proof.
  intros Hn. unfold heap_cost. destruct (Z.leb_spec n kSsoCapacity); [lia|].
  pose proof (Z.mul_div_le (n + 1 + 16 - 1) 16). lia.
Qed.

Lemma row_cost_min x : kEntryOverhead <= row_cost x.
Proof.
  unfold row_cost, entry_cost. pose proof (heap_cost_nonneg (zlen x.1) (zlen_nonneg _)).
  pose proof (heap_cost_nonneg (zlen (value x.2)) (zlen_nonneg _)). lia.
Qed.

Lemma row_cost_data x : row_ok x -> zlen (row_buf x) <= row_cost x.
Proof.
  intros Hx. rewrite zlen_row_buf by done. unfold row_cost, entry_cost, kEntryOverhead.
  pose proof (heap_cost_length (zlen x.1) (zlen_nonneg _)).
  pose proof (heap_cost_length (zlen (value x.2)) (zlen_nonneg _)).
  assert (zlen (row_stamp x) <= 8) by (rewrite zlen_row_stamp; case_match; lia).
  unfold kSsoCapacity in *. lia.
Qed.

Lemma table_cost_rows l : kEntryOverhead * zlen l <= table_cost l.
Proof.
  induction l as [|x l IH]; [done|]. cbn [table_cost foldr]. fold (table_cost l).
  pose proof (row_cost_min x). rewrite zlen_cons. lia.
Qed.

Lemma table_cost_data l : Forall row_ok l -> zlen (data_of l) <= table_cost l.
Proof.
  induction 1 as [|x l Hx _ IH]; [done|]. rewrite data_of_cons, zlen_app. cbn [table_cost foldr].
  fold (table_cost l). pose proof (row_cost_data x Hx). lia.
Qed.

(** ** A memtable with room

    [b] bounds the estimate and [n] the number of rows. *)
Record roomy (b n : Z) (m : Memtable) : Prop := mkRoomy {
  rm_rows : Forall row_ok (entries_ m);
  rm_covered : covered m;
  rm_bytes : 0 <= bytes_ m <= b;
  rm_count : zlen (entries_ m) <= n
}.

Lemma roomy_init b n : 0 <= b -> 0 <= n -> roomy b n Memtable_init.
Proof. intros Hb Hn. constructor; cbn; [constructor|unfold covered; cbn; lia|lia|done]. Qed.

Lemma roomy_mono b b' n n' m : b <= b' -> n <= n' -> roomy b n m -> roomy b' n' m.
Proof. intros Hb Hn []. constructor; auto; lia. Qed.

(** The estimate alone bounds the rows. *)
Lemma roomy_count b n m : roomy b n m -> roomy b (b / kEntryOverhead) m.
Proof.
  intros [H1 H2 H3 H4]. constructor; auto. unfold covered in H2.
  pose proof (table_cost_rows (entries_ m)). apply Z.div_le_lower_bound; unfold kEntryOverhead in *; lia.
Qed.

Lemma put_rows k e l : row_ok (k, e) -> Forall row_ok l -> Forall row_ok (sm_put k e l).
Proof.
  intros He Hl. apply Forall_forall. intros x [->|Hx]%sm_put_elem; [done|].
  rewrite Forall_forall in Hl. auto.
Qed.

Lemma zlen_put k (e : Entry) l : zlen (sm_put k e l) <= zlen l + 1.
Proof.
  induction l as [|[k' e'] l IH]; cbn [sm_put]; [done|]. case_match; rewrite ?zlen_cons in *; lia.
Qed.

Lemma sm_put_not_nil k (e : Entry) l : sm_put k e l <> [].
Proof. destruct l as [|[k' e'] l]; cbn [sm_put]; [done|]. by case_match. Qed.

(** What one entry can add to the estimate. *)
Lemma set_bytes m k v e b :
  0 <= bytes_ m <= b -> b + entry_cost k v < 2 ^ 64 -> 0 <= bytes_ (Memtable.set m k v e) <= b + entry_cost k v.
Proof.
  intros Hb Hlt. pose proof (entry_cost_split k v). pose proof (entry_cost_pos k).
  pose proof (heap_cost_nonneg (zlen v) (zlen_nonneg _)). unfold Memtable.set.
  destruct (sm_find k (entries_ m)) as [old|]; cbn [bytes_].
  - pose proof (heap_cost_nonneg (zlen (value old)) (zlen_nonneg _)).
    destruct (Z.ltb_spec (heap_cost (zlen (value old))) (heap_cost (zlen v))); [|lia].
    rewrite u64_id; unfold is_u64; lia.
  - rewrite u64_id; unfold is_u64; lia.
Qed.

Lemma del_bytes m k b :
  0 <= bytes_ m <= b -> b + entry_cost k [] < 2 ^ 64 -> 0 <= bytes_ (Memtable.del m k).2 <= b + entry_cost k [].
Proof.
  intros Hb Hlt. pose proof (entry_cost_pos k). unfold Memtable.del.
  destruct (sm_find k (entries_ m)) as [old|]; cbn [bytes_ snd]; [lia|]. rewrite u64_id; unfold is_u64; lia.
Qed.

Lemma roomy_set b n m k v e :
  memtable_wf m -> roomy b n m -> row_ok (k, mkEntry v false e) -> b + entry_cost k v < 2 ^ 64 ->
  roomy (b + entry_cost k v) (n + 1) (Memtable.set m k v e).
Proof.
  intros Hwf [H1 H2 H3 H4] Hrow Hlt. constructor.
  - unfold Memtable.set. case_match; by apply put_rows.
  - apply (bytes_never_low m k v e 0 0); auto; lia.
  - by apply set_bytes.
  - pose proof (zlen_put k (mkEntry v false e) (entries_ m)). unfold Memtable.set. case_match; cbn [entries_]; lia.
Qed.

Lemma roomy_del b n m k :
  memtable_wf m -> roomy b n m -> zlen k < 2 ^ 32 -> b + entry_cost k [] < 2 ^ 64 ->
  roomy (b + entry_cost k []) (n + 1) (Memtable.del m k).2.
Proof.
  intros Hwf [H1 H2 H3 H4] Hk Hlt. constructor.
  - assert (row_ok (k, mkEntry [] true 0)) by (split_and!; [done|done|unfold is_i64, INT64_MIN, INT64_MAX; cbn; lia]).
    unfold Memtable.del. case_match; by apply put_rows.
  - apply (bytes_never_low m k [] 0 0 0); auto; lia.
  - by apply del_bytes.
  - pose proof (zlen_put k (mkEntry [] true 0) (entries_ m)). unfold Memtable.del. case_match; cbn [entries_ snd]; lia.
Qed.

Lemma sweep_entry_row now x : row_ok x -> row_ok (sweep_row now x).
Proof.
  intros (H1 & H2 & H3). unfold sweep_row, sweep_entry. case_match; [|done].
  split_and!; [done|done|]. unfold is_i64, INT64_MIN, INT64_MAX. cbn. lia.
Qed.

Lemma roomy_sweep b n m now k :
  memtable_wf m -> roomy b n m -> roomy b n (Memtable.sweep_expired m now k).2.
Proof.
  intros Hwf [H1 H2 H3 H4].
  destruct (sweep_expired_spec m now k) as (before & it & Hb & He & _ & _ & Hby & _).
  pose proof (sm_lower_bound_app _ _ _ _ Hb) as Hm. rewrite Hm in H1, H4. unfold covered in H2. rewrite Hm in H2.
  rewrite <- (take_drop k it) in H1, H2, H4. rewrite !Forall_app in H1. rewrite !table_cost_app in H2.
  constructor; rewrite ?He, ?Hby.
  - rewrite !Forall_app, Forall_fmap. destruct H1 as (? & ? & ?). split_and!; [done| |done].
    eapply Forall_impl; [done|]. intros x. apply sweep_entry_row.
  - unfold covered. rewrite He, Hby, !table_cost_app. pose proof (table_cost_sweep now (take k it)). lia.
  - done.
  - revert H4. unfold zlen. rewrite !length_app, length_fmap. lia.
Qed.

Lemma roomy_del_all c keys : forall b n m,
  memtable_wf m -> roomy b n m -> Forall (fun k => zlen k < 2 ^ 32 /\ entry_cost k [] <= c) keys ->
  b + c * zlen keys < 2 ^ 64 ->
  roomy (b + c * zlen keys) (n + zlen keys) (del_all keys m).
Proof.
  induction keys as [|key keys IH]; intros b n m Hwf Hm Hk Hlt.
  { cbn. by rewrite Z.mul_0_r, !Z.add_0_r. }
  apply Forall_cons in Hk as [[Hk1 Hk2] Hk]. rewrite zlen_cons in *.
  pose proof (entry_cost_pos key). pose proof (zlen_nonneg keys).
  assert (roomy (b + c) (n + 1) (Memtable.del m key).2) as Hm1.
  { eapply roomy_mono; [| |apply (roomy_del b n m key)]; [lia|lia|done|done|done|nia]. }
  replace (b + c * (1 + zlen keys)) with ((b + c) + c * zlen keys) by lia.
  replace (n + (1 + zlen keys)) with ((n + 1) + zlen keys) by lia.
  apply IH; [by apply del_wf|done|done|nia].
Qed.

(** ** Every flush has room *)

(** The largest limit and the longest argument covered: [--memtable-limit] up to 256 GiB,
    and what the parser and the read buffer of a connection let through
    ([kMaxBulkLen], [kMaxReadBuffer]). *)
Definition kMaxMemtable : Z := 2 ^ 38.
Definition kMaxArg : Z := 2 ^ 29.

(** A store at rest: its memtable under the limit it is flushed at, and [n] sequence
    numbers used at most. *)
Record rested (n : Z) (st : Store) : Prop := mkRested {
  rs_limit : memtable_limit_bytes (options_ st) <= kMaxMemtable;
  rs_roomy : roomy kMaxMemtable (kMaxMemtable / kEntryOverhead) (memtable_ st);
  rs_next : next_sequence_ st <= n
}.

Lemma rested_rows : kMaxMemtable / kEntryOverhead = 2 ^ 31.
Proof. reflexivity. Qed.

Lemma entry_cost_bound k v :
  zlen k <= kMaxArg -> zlen v < 2 ^ 32 -> entry_cost k v <= 2 ^ 33.
Proof.
  intros Hk Hv. unfold entry_cost, kEntryOverhead, kMaxArg in *.
  pose proof (heap_cost_bound (zlen k) (zlen_nonneg _)). pose proof (heap_cost_bound (zlen v) (zlen_nonneg _)). lia.
Qed.

Lemma roomy_ready b n st :
  roomy b n (memtable_ st) -> b < 2 ^ 62 -> n < 2 ^ 32 -> next_sequence_ st + 1 < 2 ^ 64 -> flush_ready st.
Proof.
  intros [H1 H2 H3 H4] Hb Hn Hq. split_and!; [done| |done]. split; [lia|].
  pose proof (table_cost_data _ H1). unfold covered in H2. lia.
Qed.

(** What is left after [maybe_flush] is at rest. *)
Lemma trimmed_rested b n st st' :
  roomy b n (memtable_ st) -> memtable_limit_bytes (options_ st) <= kMaxMemtable ->
  entries_ (memtable_ st) <> [] -> options_ st' = options_ st -> trimmed st st' ->
  rested (next_sequence_ st + 1) st'.
Proof.
  intros Hm Hlim Hne Ho [[Hi Hq]|[[Hk Hq] [Hb|Hz]]]; [..|done]; constructor; rewrite ?Ho; try done; try lia.
  - rewrite Hi. by apply roomy_init.
  - rewrite Hk. apply (roomy_count _ n). destruct Hm. constructor; auto; lia.
Qed.

Section ready.
Context (n : Z) (st : Store) (Hrest : rested n st) (Hn : n + 1 < 2 ^ 64).
Context (Hwf : memtable_wf (memtable_ st)).

Lemma set_room k v e :
  zlen k <= kMaxArg -> zlen v < 2 ^ 32 -> is_i64 e ->
  roomy (kMaxMemtable + entry_cost k v) (kMaxMemtable / kEntryOverhead + 1) (Memtable.set (memtable_ st) k v e).
Proof using Hrest Hwf.
  intros Hk Hv He. pose proof (entry_cost_bound k v Hk Hv). destruct Hrest as [_ Hr _].
  apply roomy_set; [done|done| |unfold kMaxMemtable; lia].
  unfold kMaxArg in *. split_and!; cbn; [lia|done|done].
Qed.

Lemma set_ready k v e :
  zlen k <= kMaxArg -> zlen v < 2 ^ 32 -> is_i64 e ->
  flush_ready (set_memtable st (Memtable.set (memtable_ st) k v e)).
Proof using Hrest Hn Hwf.
  intros Hk Hv He. pose proof (entry_cost_bound k v Hk Hv). pose proof (rs_next _ _ Hrest).
  eapply roomy_ready; [by apply set_room|..]; rewrite ?rested_rows; unfold kMaxMemtable;
    cbn [next_sequence_ set_memtable]; lia.
Qed.

Lemma del_all_room keys :
  Forall (fun k => zlen k <= kMaxArg) keys -> zlen keys <= kMaxArg ->
  roomy (kMaxMemtable + 2 ^ 30 * zlen keys) (kMaxMemtable / kEntryOverhead + zlen keys) (del_all keys (memtable_ st)).
Proof using Hrest Hwf.
  intros Hk Hl. destruct Hrest as [_ Hr _].
  apply roomy_del_all; [done|done| |unfold kMaxMemtable, kMaxArg in *; lia].
  eapply Forall_impl; [exact Hk|]. unfold kMaxArg. intros k Hk0. split; [lia|].
  unfold entry_cost, kEntryOverhead. change (heap_cost (zlen [])) with 0.
  pose proof (heap_cost_bound (zlen k) (zlen_nonneg _)). lia.
Qed.

Lemma del_all_ready keys :
  Forall (fun k => zlen k <= kMaxArg) keys -> zlen keys <= kMaxArg ->
  flush_ready (set_memtable st (del_all keys (memtable_ st))).
Proof using Hrest Hn Hwf.
  intros Hk Hl. pose proof (rs_next _ _ Hrest). unfold kMaxArg in *.
  eapply roomy_ready; [by apply del_all_room|..]; rewrite ?rested_rows; unfold kMaxMemtable;
    cbn [next_sequence_ set_memtable]; lia.
Qed.

End ready.
