(* ===== verification/Refine.v ===== *)
(** * The commands do what they mean

    [Abstract] says what a command means; this file shows that [execute] does that.  On
    a kernel that works until the process dies, over a store that follows a history,
    every command gets the reply the abstract server gives, leaves the history longer
    by the changes the abstract server makes, and, if the process dies in it, leaves a
    disk that recovers to a point of that longer history.

    The history is read from the present on: [running] at [T] speaks of readers from
    [T] on, and [T] moves with the clock. *)

From stdpp Require Import gmap.
From S2P Require Import Prelude Decimal Resp SortedMap Memtable WalCodec Posix Wal Sstable Compaction Store StoreSpec Command Abstract LogGuard Main Crash Durable Recovery Lifecycle Footprint.

(** ** Time passes *)

Lemma history_later V0 ws s T T' g : T <= T' -> history V0 ws s T g -> history V0 ws s T' g.
Proof.
  intros HT (ws1 & H1 & H2 & H3). exists ws1. split_and!; [done|done|]. intros k. by eapply same_answer_mono.
Qed.

Lemma running_later V0 ws s T T' w st g : T <= T' -> running V0 ws s T w st g -> running V0 ws s T' w st g.
Proof.
  intros HT []. constructor; auto; [by eapply mem_is_mono|by eapply history_later].
Qed.

Lemma survives_later o V0 ws s T T' w : T <= T' -> survives o V0 ws s T w -> survives o V0 ws s T' w.
Proof.
  intros HT H w' Hc. destruct (H w' Hc) as (l & lg & tl & fd & ? & ? & ? & ? & ? & Hk).
  exists l, lg, tl, fd. split_and!; try done. intros k. destruct (Hk k) as (j & Hj & Ha).
  exists j. split; [done|]. by eapply same_answer_mono.
Qed.

Lemma survives_weaken o V0 ws s s' T w : (s' <= s)%nat -> survives o V0 ws s T w -> survives o V0 ws s' T w.
Proof. intros Hs H w' Hc. by eapply recoverable_weaken, H. Qed.

(** A clock that reads milliseconds since the epoch and does not go back. *)
Record clock_sane (E : env) : Prop := mkClockSane {
  cs_mono t t' : (t <= t')%nat -> clock_at E t <= clock_at E t';
  cs_range t : 0 <= clock_at E t <= INT64_MAX
}.

Lemma sane_ok E : clock_sane E -> clock_ok E.
Proof. intros [_ H] t. specialize (H t). unfold is_i64, INT64_MIN, INT64_MAX in *. lia. Qed.

(** ** FLUSHALL *)

Section wipe.
Context (E : env) (Hco : crash_only E).

(** Some of the names [paths] are gone. *)
Definition names_gone (paths : list bytes) (w w' : world) : Prop :=
  same_inodes w w' /\ dir_synced w' = dir_synced w /\ dir w' ⊆ dir w /\
  forall p, p ∉ paths -> dir w' !! p = dir w !! p.

Lemma wp_unlink_tables paths : forall w,
  wp (mapM_ (unlink E) paths) (fun r w' => names_gone paths w w' /\ match r with
    | Ret gone => forallb (fun r => match r with Some _ => true | None => false end) gone = true /\
        forall p, p ∈ paths -> dir w' !! p = None
    | Throw _ => False
    | Dead => True
    end) w.
Proof using Hco.
  induction paths as [|path paths IH]; intros w; cbn [mapM_].
  { apply wp_ret. split; [done|]. split; [done|]. by intros p ?%elem_of_nil. }
  apply wp_bind, co_unlink; [done| |done]. intros b w1 Hd1 Hs1 Hi1.
  apply wp_bind. eapply wp_mono; [apply (IH w1)|]. intros r w2 [(Hi2 & Hs2 & Hsub & Hkeep) Hr].
  assert (names_gone (path :: paths) w w2) as Hgone.
  { split_and!; [by etransitivity|by rewrite Hs2|etransitivity; [done|]; rewrite Hd1; apply delete_subseteq|].
    intros p [Hne Hp]%not_elem_of_cons. by rewrite Hkeep, Hd1, lookup_delete_ne. }
  destruct r as [gone|e|]; [|done|done]. destruct Hr as [Hg Hall]. apply wp_ret. split; [done|]. split; [done|].
  intros p Hp. destruct (decide (p ∈ paths)) as [?|Hn]; [by apply Hall|].
  apply elem_of_cons in Hp as [->|?]; [|done]. by rewrite Hkeep, Hd1, lookup_delete_eq.
Qed.

(** The directory without its tables. *)
Lemma disk_wiped w w' o layers fd :
  disk w o layers None fd -> dir w' ⊆ dir w -> dir_synced w' = dir w' -> next_ino w' = next_ino w ->
  (forall p, p ∈ (fun q => in_dir (o_dir o) (table_name q)) <$> layers.*1 -> dir w' !! p = None) ->
  dir w' !! log_path o = Some fd ->
  disk w' o [] None fd.
Proof.
  intros D Hsub Hs Hn Hgone Hlog.
  assert (forall p i, dir w' !! p = Some i -> dir w !! p = Some i) as Hold by (intros p i Hp; by eapply lookup_weaken).
  apply (disk_settled w w' o layers []); [done|done|apply sublist_nil_l|constructor| | | | | |done].
  - by intros q rs ?%elem_of_nil.
  - intros q Hq _. apply Hgone, list_elem_of_fmap. by exists q.
  - intros p i Hp. exists i. left. auto.
  - intros p i Hp. rewrite Hn. eapply (dk_bound _ _ _ _ _ D p). left. auto.
  - intros p q i Hp Hq. apply (dk_inj _ _ _ _ _ D p q i); left; auto.
Qed.

(** A FLUSHALL that returns has emptied the store, in memory and on disk, for good. *)
Lemma wp_flush_all_run V0 ws s T st g w :
  running V0 ws s T w st g ->
  wp (flush_all E st) (fun r w' => match r with
    | Ret (b, st') => b = true /\ options_ st' = options_ st /\ memtable_ st' = Memtable_init /\
        next_sequence_ st' = 1 /\ exists g', running nothing [] 0 T w' st' g'
    | Throw _ => False
    | Dead => True
    end) w.
Proof using Hco.
  intros R. pose proof R as [R1 R2 (wal & Hw & Hfd) R4 R5 RP R6 R7 R8 R9 R10 R11].
  unfold flush_all. apply wp_bind. eapply wp_mono; [apply (wp_unlink_tables (path_ <$> sstables_ st) w)|].
  intros [gone|e|] w1 [(Hi1 & Hs1 & Hsub1 & Hkeep1) Hr]; [|done|done]. destruct Hr as [-> Hgone1].
  rewrite decide_False by done. apply wp_bind, wp_bind, co_fsync_dir; [done| |done].
  intros w2 Hd2 Hs2 Hi2. apply wp_ret. cbn [negb andb].
  unfold log_truncate. cbn [set_sstables wal_]. rewrite Hw. apply wp_bind, wp_bind, co_truncate; [done| |done|done].
  rewrite Hfd. intros wal' w3 Hsame Hc3 Hf3 Hdur3. apply wp_ret. cbn [negb]. apply wp_ret.
  split_and!; [done|done|done|done|]. cbn [set_wal set_sstables sstables_ options_ wal_ swept_keys_ compactions_].
  assert (Wal.fd_ wal' = g_fd g) as Hfd' by (destruct Hsame as (-> & _); done).
  assert (dir w3 = dir w1) as Hd3 by (by rewrite (frame_dir _ _ _ Hf3)).
  assert (dir_synced w3 = dir w1) as Hs3 by (by rewrite (frame_dir_synced _ _ _ Hf3)).
  assert (next_ino w3 = next_ino w) as Hn3.
  { rewrite (frame_next _ _ _ Hf3). destruct Hi2 as (_ & _ & ->). by destruct Hi1 as (_ & _ & ->). }
  assert (dir w3 !! log_path (options_ st) = Some (g_fd g)) as Hlog.
  { rewrite Hd3, Hkeep1; [apply (dk_log _ _ _ _ _ R4)|]. rewrite RP. intros (q & Hq & _)%list_elem_of_fmap.
    by apply (log_path_not_table (options_ st) q). }
  assert (disk w3 (options_ st) [] None (g_fd g)) as D3.
  { apply (disk_wiped w _ _ (g_layers g)); auto; [by rewrite Hd3|by rewrite Hs3, Hd3|].
    intros p Hp. rewrite Hd3. apply Hgone1. by rewrite RP. }
  exists (mkGhost [] (g_fd g) [] 0). constructor; cbn [g_layers g_fd g_recs g_m fmap list_fmap options_]; auto.
  - destruct R1 as [I1 I2 I3 I4 I5 II I6 I7 I8].
    assert (forall p i, dir w3 !! p = Some i -> dir w !! p = Some i) as Hold.
    { intros p i Hp. rewrite Hd3 in Hp. by eapply lookup_weaken. }
    assert (forall x st', x ∈ open_fds st' -> wal_ st' = Some wal' -> sstables_ st' = [] -> x = g_fd g) as Hof.
    { intros x st' Hx H1 H2. revert Hx. unfold open_fds. rewrite H1, H2. cbn. rewrite Hfd'.
      by intros ?%list_elem_of_singleton. }
    constructor; cbn [memtable_ sstables_ options_ wal_].
    + apply init_wf.
    + constructor.
    + constructor.
    + intros x Hx. rewrite (Hof x _ Hx eq_refl eq_refl), Hn3. eapply I5, Hold, Hlog.
    + intros p i Hp. rewrite Hn3. by eapply I5, Hold.
    + intros p q i Hp Hq. by eapply II; apply Hold.
    + intros p x Hp Hx Hpx. rewrite (Hof x _ Hx eq_refl eq_refl) in Hpx.
      apply (log_path_not_temp st p); [done|]. by eapply II; apply Hold.
    + by intros ? t _ ?%elem_of_nil.
    + exists []. by split_and!; try constructor.
  - by exists wal'.
  - intros p Hp. destruct (dir w3 !! p) as [i|] eqn:Hpi; [|done]. rewrite Hd3 in Hpi.
    assert (dir w !! p = Some i) as Hpw by (by eapply lookup_weaken). by rewrite (R6 p Hp) in Hpw.
  - split; [done|]. exists []. split; [|by left]. unfold durable in Hdur3. by rewrite Hdur3, Hc3.
  - by intros k.
  - by exists [].
Qed.
End wipe.

(** ** One command *)

(** The replies, as the handlers append them. *)
Lemma out_simple out x : append_simple_string out x = out ++ encode_reply (RSimple x).
Proof. done. Qed.
Lemma out_error out x : append_error out x = out ++ encode_reply (RError x).
Proof. done. Qed.
Lemma out_integer out x : append_integer out x = out ++ encode_reply (RInteger x).
Proof. cbn. unfold append_integer, append_i64. by rewrite <- !app_assoc. Qed.
Lemma out_bulk out x : append_bulk_string out x = out ++ encode_reply (RBulk x).
Proof. apply append_bulk_string_app. Qed.
Lemma out_null out : append_null_bulk out = out ++ encode_reply RNull.
Proof. done. Qed.
Lemma out_empty out : append_array_header out 0 = out ++ encode_reply (RArray []).
Proof. cbn [encode_reply fmap list_fmap concat]. by rewrite app_nil_r, append_array_header_app. Qed.
Lemma out_pair out a b :
  append_bulk_string (append_bulk_string (append_array_header out 2) a) b = out ++ encode_reply (RArray [a; b]).
Proof.
  cbn [encode_reply fmap list_fmap concat].
  rewrite !append_bulk_string_app, append_array_header_app, app_nil_r, <- !app_assoc. done.
Qed.

Ltac to_reply := rewrite ?out_pair, ?out_simple, ?out_error, ?out_integer, ?out_bulk, ?out_null, ?out_empty.

Section commands.
Context (E : env) (Hco : crash_only E) (Hck : clock_sane E) (kStartedMs : Z).

Definition now_of (w : world) : Z := clock_at E (tick w).

(** A store that follows the history [ws] from [V0], of which [s] writes are durable,
    and [n] sequence numbers are used at most. *)
Definition follows (V0 : bytes -> option Entry) (ws : list write) (s : nat) (n : Z) (w : world) (st : Store) : Prop :=
  rested n st /\ exists g, running V0 ws s (now_of w) w st g.

(** What becomes of the history when the changes are made. *)
Definition advanced (V0 : bytes -> option Entry) (ws : list write) (s : nat) (n : Z) (cs : list change)
    (w' : world) (st' : Store) : Prop :=
  (exists new s', cs = puts new /\ follows V0 (ws ++ new) s' n w' st' /\ (s <= s')%nat) \/
  (cs = [Wipe] /\ follows nothing [] 0 n w' st').

(** What becomes of a command whose meaning, given the text of INFO and the readings of
    the clock, is [abs]. *)
Definition cmd_post (abs : bytes -> (nat -> Z) -> meaning) (V0 : bytes -> option Entry) (ws : list write) (s : nat)
    (n : Z) (st : Store) (w : world) (out : bytes) (r : res (Store * bytes)) (w' : world) : Prop :=
  match r with
  | Ret (st', out') => exists info τ, moments E (tick w) w' τ /\
      out' = out ++ encode_reply (abs info τ).1 /\ options_ st' = options_ st /\
      advanced V0 ws s (n + 1) (abs info τ).2 w' st'
  | Throw _ => False
  | Dead => exists info τ, moments E (tick w) w' τ /\
      ((abs info τ).2 = [Wipe] \/
       exists new, (abs info τ).2 = puts new /\ survives (options_ st) V0 (ws ++ new) s (now_of w') w')
  end.

Lemma now_mono w w' : (tick w <= tick w')%nat -> now_of w <= now_of w'.
Proof using Hck. apply Hck. Qed.

Lemma follows_same V0 ws s n w w' st :
  same_files w w' -> (tick w <= tick w')%nat -> follows V0 ws s n w st -> follows V0 ws s n w' st.
Proof using Hck.
  intros Hw Ht [Hr (g & R)]. split; [done|]. exists g. apply (running_same _ _ _ _ w); [done|].
  eapply running_later; [by apply now_mono|done].
Qed.

Lemma rested_mono n n' st : n <= n' -> rested n st -> rested n' st.
Proof. intros Hn []. constructor; auto; lia. Qed.

Lemma moments_tick t0 w' τ : moments E t0 w' τ -> (t0 <= tick w')%nat.
Proof. intros (ι & Hι & _). destruct (Hι 0%nat) as [[? ?] _]. lia. Qed.

Lemma moments_on t0 w1 w2 τ : moments E t0 w1 τ -> (tick w1 <= tick w2)%nat -> moments E t0 w2 τ.
Proof. intros H Ht. by apply (moments_mono E t0 t0 w1 w2). Qed.

(** Readings, the first one given. *)
Lemma moments_two t0 w1 w2 t t' :
  between t0 w1 t -> between (tick w1) w2 t' -> moments E t0 w2 (scons (clock_at E t) (fun _ => clock_at E t')).
Proof. intros H1 H2. eapply moments_cons; [done|by apply moments_const]. Qed.

Section handlers.
Context (V0 : bytes -> option Entry) (ws : list write) (s : nat) (n : Z) (st : Store) (w : world).
Context (Hfol : follows V0 ws s n w st) (Hn : n + 1 < 2 ^ 64).

(** An answer that changes nothing. *)
Lemma post_says abs info τ r out w' :
  same_files w w' -> moments E (tick w) w' τ -> abs info τ = says r ->
  cmd_post abs V0 ws s n st w out (Ret (st, out ++ encode_reply r)) w'.
Proof using Hck Hfol.
  intros Hw Hτ Ha. exists info, τ. rewrite Ha. split_and!; [done|done|done|]. left. exists [], s.
  split; [done|]. split; [|done]. rewrite app_nil_r. apply (follows_same _ _ _ _ w); [done|by eapply moments_tick|].
  destruct Hfol as [Hr ?]. split; [|done]. eapply rested_mono; [|done]. lia.
Qed.

(** A command that puts entries, as all but FLUSHALL do. *)
Definition plain (abs : bytes -> (nat -> Z) -> meaning) : Prop :=
  forall info τ, exists new, (abs info τ).2 = puts new.

(** A death before anything was written. *)
Lemma post_dead abs out w' :
  plain abs -> same_files w w' -> (tick w <= tick w')%nat -> cmd_post abs V0 ws s n st w out Dead w'.
Proof using Hck Hfol.
  intros Hp Hw Ht. destruct (Hp [] (fun _ => now_of w)) as (new & Hnew). exists [], (fun _ => now_of w).
  split; [apply moments_const; by unfold between|]. right. exists new. split; [done|].
  destruct Hfol as [_ (g & R)]. apply (step_dead V0 ws new s (now_of w') st g (fun x : Store => x) (fun _ _ => True)).
  apply (running_same _ _ _ _ w); [done|]. eapply running_later; [by apply now_mono|done].
Qed.

(** What a lookup finds is what the history says. *)
Lemma view_row rows k e : store_inv w st rows -> Forall row_ok (entries_ (memtable_ st)) ->
  view (memtable_ st) rows k = Some e -> row_ok (k, e).
Proof.
  intros I Hm. unfold view. destruct (find (memtable_ st) k) as [e'|] eqn:Hf.
  - intros [= ->]. apply sm_find_elem in Hf. rewrite Forall_forall in Hm. by apply Hm.
  - intros He. pose proof (si_tables _ _ _ I) as H2. clear I Hf. induction H2 as [|t rs ts rows Ht _ IH]; [done|].
    cbn [first_of] in He. destruct (sm_find k rs) as [e'|] eqn:Hf; [|auto]. injection He as ->.
    apply sm_find_elem in Hf. pose proof (rep_rows _ _ _ Ht) as Hr. rewrite Forall_forall in Hr. by apply Hr.
Qed.

Definition found_at (w1 : world) (key : bytes) (f : option Found) : Prop :=
  (exists t, between (tick w) w1 t /\ f = after V0 ws key ≫= answer_at (clock_at E t)) /\
  forall x, f = Some x -> zlen (f_value x) < 2 ^ 32 /\ is_i64 (f_expires_at_ms x).

Lemma wp_lookup_run key :
  wp (lookup E st key) (fun r w' => same_files w w' /\ (tick w <= tick w')%nat /\ match r with
    | Ret f => found_at w' key f
    | Throw _ => False
    | Dead => True
    end) w.
Proof using Hco Hck Hfol.
  destruct Hfol as [Hr (g & R)]. pose proof (rn_inv _ _ _ _ _ _ _ R) as I.
  eapply wp_mono; [apply wp_ticks; [|by apply (wp_lookup_co E Hco st (g_layers g).*2 key w)]|].
  { intros w0. apply (sparing_lookup E [] st key w0). }
  intros r w' [[Hw Hf] Ht]. split; [done|]. split; [done|]. destruct r as [f|e|]; [|done|done].
  destruct Hf as (t & Hbt & ->). split.
  - exists t. split; [done|]. apply (running_view _ _ _ _ _ _ _ key R). apply Hck, Hbt.
  - intros x. destruct (view _ _ key) as [e|] eqn:Hv; [|done]. cbn. unfold answer_at.
    destruct (obsolete _ e); [done|]. intros [= <-]. cbn.
    destruct (view_row _ _ _ I (rm_rows _ _ _ (rs_roomy _ _ Hr)) Hv) as (_ & ? & ?). done.
Qed.

(** A write, some time later. *)
Lemma wp_set_follows w1 k v e :
  same_files w w1 -> (tick w <= tick w1)%nat -> zlen k <= kMaxArg -> zlen v < 2 ^ 32 -> is_i64 e ->
  wp (Store.set E st k v e) (fun r w' => (tick w1 <= tick w')%nat /\ match r with
    | Ret (b, st') => b = true /\ options_ st' = options_ st /\
        exists s', follows V0 (ws ++ [(k, mkEntry v false e)]) s' (n + 1) w' st' /\ (s <= s')%nat
    | Throw _ => False
    | Dead => survives (options_ st) V0 (ws ++ [(k, mkEntry v false e)]) s (now_of w') w'
    end) w1.
Proof using Hco Hck Hfol Hn.
  intros Hw Ht Hk Hv He. destruct Hfol as [Hr (g & R)].
  pose proof (si_mem _ _ _ (rn_inv _ _ _ _ _ _ _ R)) as Hwf.
  eapply wp_mono; [apply wp_ticks; [apply (logged_ticks E _ _ _ (logged_set E st k v e))|];
    apply (wp_set_run E Hco (sane_ok E Hck) V0 ws s (now_of w) st g k v e w1)|].
  - by apply (running_same _ _ _ _ w).
  - intros now Hnow. apply Forall_singleton. unfold kMaxArg in *. split_and!; cbn; [lia|done..].
  - by apply (set_ready n).
  - intros r w' [Hstep Ht']. split; [done|].
    assert (now_of w <= now_of w') as Hnow by (apply now_mono; lia).
    destruct r as [[b st']|x|]; [|done|by eapply survives_later].
    destruct Hstep as ((Hb & Htr) & Ho & g' & s' & R' & Hs). cbn in Hb, Ho, Htr, R'.
    split; [done|]. split; [done|]. exists s'. split; [|done]. split; [|exists g'; by eapply running_later].
    eapply rested_mono; [|eapply (trimmed_rested _ _ (set_memtable st (Memtable.set (memtable_ st) k v e)));
      [by apply (set_room n)|apply Hr| |exact Ho|exact Htr]].
    + cbn. pose proof (rs_next _ _ Hr). lia.
    + cbn. unfold Memtable.set. case_match; cbn [entries_]; apply sm_put_not_nil.
Qed.

Lemma post_put abs info τ k v e r out st' s' w' :
  moments E (tick w) w' τ -> abs info τ = set_to k v e r -> options_ st' = options_ st ->
  follows V0 (ws ++ [(k, mkEntry v false e)]) s' (n + 1) w' st' -> (s <= s')%nat ->
  cmd_post abs V0 ws s n st w out (Ret (st', out ++ encode_reply r)) w'.
Proof.
  intros Hτ Ha Ho Hf Hs. exists info, τ. rewrite Ha. split_and!; [done|done|done|]. left.
  by exists [(k, mkEntry v false e)], s'.
Qed.

Lemma post_put_dead abs info τ k v e r out w' :
  moments E (tick w) w' τ -> abs info τ = set_to k v e r ->
  survives (options_ st) V0 (ws ++ [(k, mkEntry v false e)]) s (now_of w') w' ->
  cmd_post abs V0 ws s n st w out Dead w'.
Proof.
  intros Hτ Ha Hs. exists info, τ. split; [done|]. right. exists [(k, mkEntry v false e)]. by rewrite Ha.
Qed.

(** The end of SET and INCR. *)
Lemma wp_store_set_run abs info τ k v e r out w1 :
  same_files w w1 -> moments E (tick w) w1 τ -> zlen k <= kMaxArg -> zlen v < 2 ^ 32 -> is_i64 e ->
  abs info τ = set_to k v e r ->
  wp (store_set E st k v e out (out ++ encode_reply r)) (cmd_post abs V0 ws s n st w out) w1.
Proof using Hco Hck Hfol Hn.
  intros Hw Hτ Hk Hv He Ha. unfold store_set. apply wp_bind.
  eapply wp_mono; [apply (wp_set_follows w1 k v e); auto; by eapply moments_tick|].
  intros x w' [Ht Hx]. assert (moments E (tick w) w' τ) as Hτ' by (by eapply moments_on).
  destruct x as [[b st']|x|]; [|done|by eapply post_put_dead].
  destruct Hx as (-> & Ho & s' & Hf & Hs). cbn [negb]. apply wp_ret. by eapply post_put.
Qed.

(** *** The handlers *)

Context (c : Command).

(** A command as long as the parser lets it be. *)
Definition small : Prop := zlen (args c) <= kMaxArg /\ Forall (fun a => zlen a <= kMaxArg) (args c).
Context (Hsmall : small).

Lemma arg_small i : zlen (arg c i) <= kMaxArg.
Proof using Hsmall.
  destruct Hsmall as [_ H]. unfold arg. rewrite nth_lookup.
  destruct (args c !! i) as [a|] eqn:Ha; cbn; [|done]. by eapply (Forall_lookup_1 _ _ _ _ H).
Qed.

Lemma keys_small : Forall (fun k => zlen k <= kMaxArg) (drop 1 (args c)) /\ zlen (drop 1 (args c)) <= kMaxArg.
Proof using Hsmall.
  destruct Hsmall as [Hs1 Hs2]. split; [by apply Forall_drop|].
  rewrite zlen_drop. pose proof (zlen_nonneg (args c)). unfold kMaxArg in *. lia.
Qed.

Lemma arg_small32 i : zlen (arg c i) < 2 ^ 32.
Proof using Hsmall. pose proof (arg_small i). unfold kMaxArg in *. lia. Qed.

Lemma wp_deadline amount unit_ms (Q : res (option Z) -> world -> Prop) :
  0 < amount <= INT64_MAX -> unit_ms = 1 \/ unit_ms = 1000 ->
  (forall w', same_files w w' -> (tick w <= tick w')%nat -> Q (Ret (abs_deadline amount unit_ms (now_of w))) w') ->
  wp (deadline_from E amount unit_ms) Q w.
Proof using Hck.
  intros Ha Hu HQ. pose proof (deadline_exact E amount unit_ms w Ha Hu (cs_range _ Hck _)) as Hd.
  assert (same_files w (deadline_from E amount unit_ms w).2 /\ tick w <= tick (deadline_from E amount unit_ms w).2)%nat
    as [Hw Ht].
  { unfold deadline_from. destruct (INT64_MAX / unit_ms <? amount); [done|]. cbv [mbind M_bind now_ms].
    destruct (INT64_MAX - clock_at E (tick w) <? amount * unit_ms); cbn; (split; [apply same_files_tick|lia]). }
  unfold wp. rewrite Hd. by apply HQ.
Qed.

(** One reading, at the start. *)
Lemma moments_now w' : (tick w <= tick w')%nat -> moments E (tick w) w' (fun _ => now_of w).
Proof. intros Ht. apply moments_const. by unfold between. Qed.

Lemma says_now abs r out w' :
  same_files w w' -> (tick w <= tick w')%nat -> abs [] (fun _ => now_of w) = says r ->
  cmd_post abs V0 ws s n st w out (Ret (st, out ++ encode_reply r)) w'.
Proof using Hck Hfol. intros Hw Ht Ha. eapply post_says; [done|by apply moments_now|done]. Qed.

Lemma wp_ping out : wp (cmd_ping c st out) (cmd_post (fun _ _ => abs_ping c) V0 ws s n st w out) w.
Proof using Hck Hfol.
  unfold cmd_ping, reply. destruct (args c) as [|a [|b l]] eqn:Ha; cbn [length].
  - rewrite decide_False by lia. to_reply; apply wp_ret, says_now; [done|done|]. unfold abs_ping. by rewrite Ha.
  - rewrite decide_True by done. to_reply; apply wp_ret, says_now; [done|done|]. unfold abs_ping. by rewrite Ha.
  - rewrite decide_False by lia. to_reply; apply wp_ret, says_now; [done|done|]. unfold abs_ping. by rewrite Ha.
Qed.

(** SET with a lifetime. *)
Lemma wp_set_for k v o a out abs :
  zlen k <= kMaxArg -> zlen v < 2 ^ 32 ->
  (forall info τ, abs info τ = match unit_of o, parse_int64 a with
    | None, _ => says (RError (lit "ERR syntax error"))
    | Some _, None => says (RError kNotAnInteger)
    | Some unit_ms, Some n =>
        match (if n <=? 0 then None else abs_deadline n unit_ms (τ 0%nat)) with
        | None => says (RError kInvalidExpireSet)
        | Some stamp => set_to k v stamp (RSimple (lit "OK"))
        end
    end) ->
  wp (match normalize_name o with
      | Some option_ =>
          if bool_decide (option_ = lit "ex") || bool_decide (option_ = lit "px") then
            match parse_int64 a with
            | None => reply st (append_error out kNotAnInteger)
            | Some amount =>
                if amount <=? 0 then reply st (append_error out kInvalidExpireSet)
                else
                  d ← deadline_from E amount (if bool_decide (option_ = lit "ex") then 1000 else 1);
                  match d with
                  | None => reply st (append_error out kInvalidExpireSet)
                  | Some stamp => store_set E st k v stamp out (append_simple_string out (lit "OK"))
                  end
            end
          else reply st (append_error out (lit "ERR syntax error"))
      | None => reply st (append_error out (lit "ERR syntax error"))
      end) (cmd_post abs V0 ws s n st w out) w.
Proof using Hco Hck Hfol Hn.
  intros Hk Hv Habs. unfold reply, unit_of in *.
  destruct (normalize_name o) as [name|]; cbn [mbind option_bind] in *; [|by to_reply; apply wp_ret, says_now].
  set (u := if bool_decide (name = lit "ex") then 1000 else 1).
  assert (forall info τ, abs info τ = if bool_decide (name = lit "ex") || bool_decide (name = lit "px")
    then match parse_int64 a with
         | None => says (RError kNotAnInteger)
         | Some n => match (if n <=? 0 then None else abs_deadline n u (τ 0%nat)) with
                     | None => says (RError kInvalidExpireSet)
                     | Some stamp => set_to k v stamp (RSimple (lit "OK"))
                     end
         end
    else says (RError (lit "ERR syntax error"))) as Ha.
  { intros info τ. rewrite Habs. subst u. repeat case_decide; subst; by repeat case_bool_decide. }
  clear Habs. destruct (_ || _); [|by to_reply; apply wp_ret, says_now].
  destruct (parse_int64 a) as [amount|] eqn:Hp; [|by to_reply; apply wp_ret, says_now].
  destruct (Z.leb_spec amount 0); [by to_reply; apply wp_ret, says_now|].
  apply parse_int64_inv in Hp as [Hr _].
  apply wp_bind, wp_deadline; [lia|subst u; case_bool_decide; auto|]. intros w1 Hw1 Ht1.
  destruct (abs_deadline amount u (now_of w)) as [stamp|] eqn:Hd.
  - rewrite out_simple. apply (wp_store_set_run _ [] (fun _ => now_of w)); auto.
    + by apply moments_now.
    + unfold abs_deadline in Hd. case_match eqn:Hle; [|done]. injection Hd as <-. apply Z.leb_le in Hle.
      pose proof (cs_range _ Hck (tick w)). assert (0 < amount * u) by (subst u; case_bool_decide; lia).
      unfold is_i64, INT64_MIN, INT64_MAX, now_of in *. lia.
    + by rewrite Ha, Hd.
  - to_reply; apply wp_ret, says_now; [done|done|]. by rewrite Ha, Hd.
Qed.

Lemma wp_set_cmd out :
  (3 <= length (args c))%nat ->
  wp (cmd_set E c st out) (cmd_post (fun _ τ => abs_set τ c) V0 ws s n st w out) w.
Proof using Hco Hck Hfol Hn Hsmall.
  intros Hlen. pose proof (arg_small 1) as H1. pose proof (arg_small32 2) as H2.
  assert (is_i64 0) as Hz by (unfold is_i64, INT64_MIN, INT64_MAX; lia).
  unfold cmd_set. unfold arg in *.
  destruct (args c) as [|a0 [|k [|v [|o [|a [|x l]]]]]] eqn:Hargs; cbn [length] in Hlen; try lia;
    cbn [length nth] in *.
  - rewrite decide_False, decide_True, out_simple by lia.
    apply (wp_store_set_run _ [] (fun _ => now_of w)); [done|by apply moments_now|done..|].
    unfold abs_set. by rewrite Hargs.
  - rewrite !decide_False by lia. to_reply; apply wp_ret, says_now; [done|done|]. unfold abs_set. by rewrite Hargs.
  - rewrite decide_True by lia. apply wp_set_for; [done|done|]. intros _ τ. unfold abs_set. by rewrite Hargs.
  - rewrite !decide_False by lia. to_reply; apply wp_ret, says_now; [done|done|]. unfold abs_set. by rewrite Hargs.
Qed.

Lemma plain_says r : exists new, (says r).2 = puts new.
Proof. by exists []. Qed.

Lemma plain_set_to k v e r : exists new, (set_to k v e r).2 = puts new.
Proof. by exists [(k, mkEntry v false e)]. Qed.

(** A lookup, and the rest of the command. *)
Lemma wp_lookup_then {A} abs key out (k : option Found -> M A) (Q : res A -> world -> Prop) :
  plain abs -> (forall w', cmd_post abs V0 ws s n st w out Dead w' -> Q Dead w') ->
  (forall f w1, same_files w w1 -> (tick w <= tick w1)%nat -> found_at w1 key f -> wp (k f) Q w1) ->
  wp (lookup E st key ≫= k) Q w.
Proof using Hco Hck Hfol.
  intros Hp Hd Hk. apply wp_bind. eapply wp_mono; [apply wp_lookup_run|].
  intros [f|e|] w1 (Hw & Ht & Hr); [by apply Hk|done|]. apply Hd. by apply post_dead.
Qed.

Lemma wp_get_cmd out : wp (cmd_get E c st out) (cmd_post (fun _ τ => abs_get τ (after V0 ws) c) V0 ws s n st w out) w.
Proof using Hco Hck Hfol.
  unfold cmd_get, Store.get. apply wp_bind. apply (wp_lookup_then (fun _ τ => abs_get τ (after V0 ws) c) _ out).
  { intros info τ. apply plain_says. }
  { done. }
  intros f w1 Hw Ht [(t & Hbt & Hf) _]. apply wp_ret.
  assert (abs_get (fun _ => clock_at E t) (after V0 ws) c =
    says (match f with Some f => RBulk (f_value f) | None => RNull end)) as Ha.
  { unfold abs_get, seen. by rewrite Hf. }
  unfold reply. destruct f as [f|]; cbn [fmap option_fmap option_map]; to_reply; apply wp_ret;
    apply (post_says _ [] (fun _ => clock_at E t)); auto; by apply moments_const.
Qed.

Lemma wp_ttl_cmd out : wp (cmd_ttl E c st out) (cmd_post (fun _ τ => abs_ttl τ (after V0 ws) c) V0 ws s n st w out) w.
Proof using Hco Hck Hfol.
  unfold cmd_ttl, Store.ttl, reply. apply wp_bind. apply (wp_lookup_then (fun _ τ => abs_ttl τ (after V0 ws) c) _ out).
  { intros info τ. apply plain_says. }
  { done. }
  intros f w1 Hw Ht [(t & Hbt & Hf) _]. unfold abs_ttl, seen.
  destruct f as [f|].
  2: { apply wp_ret. cbn [t_exists negb]. to_reply. apply wp_ret.
       apply (post_says _ [] (fun _ => clock_at E t)); [done|by apply moments_const|]. by rewrite <- Hf. }
  destruct (f_expires_at_ms f =? 0) eqn:He.
  - apply wp_ret. cbn [t_exists t_has_expiry negb]. to_reply. apply wp_ret.
    apply (post_says _ [] (fun _ => clock_at E t)); [done|by apply moments_const|]. by rewrite <- Hf, He.
  - apply wp_bind, wp_now_ms. intros w2 Hw2 Ht2. apply wp_ret. cbn [t_exists t_has_expiry t_remaining_ms negb].
    to_reply. apply wp_ret.
    apply (post_says _ [] (scons (clock_at E t) (fun _ => clock_at E (tick w1)))).
    + by etransitivity.
    + eapply moments_two; [done|]. unfold between. lia.
    + cbn [scons]. rewrite <- Hf, He. do 4 f_equal.
      destruct (Z.ltb_spec 0 (f_expires_at_ms f - clock_at E (tick w1))); lia.
Qed.

Lemma wp_incr_cmd out :
  wp (cmd_incr E c st out) (cmd_post (fun _ τ => abs_incr τ (after V0 ws) c) V0 ws s n st w out) w.
Proof using Hco Hck Hfol Hn Hsmall.
  unfold cmd_incr, reply. apply (wp_lookup_then (fun _ τ => abs_incr τ (after V0 ws) c) _ out).
  { intros info τ. unfold abs_incr. case_match; [apply plain_says|]. case_match. apply plain_set_to. }
  { done. }
  intros f w1 Hw Ht [(t & Hbt & Hf) Hx].
  assert (forall info : bytes, (fun _ τ => abs_incr τ (after V0 ws) c) info (fun _ => clock_at E t) =
    match incr_of f with
    | inl msg => says (RError msg)
    | inr (n, stamp) => set_to (arg c 1) (to_chars n) stamp (RInteger n)
    end) as Ha by (intros _; unfold abs_incr, seen; by rewrite <- Hf).
  assert (moments E (tick w) w1 (fun _ => clock_at E t)) as Hτ by (by apply moments_const).
  assert (forall v e, is_i64 v -> is_i64 e -> incr_of f = inr (v, e) ->
    wp (store_set E st (arg c 1) (to_chars v) e out (append_integer out v))
      (cmd_post (fun _ τ => abs_incr τ (after V0 ws) c) V0 ws s n st w out) w1) as Hset.
  { intros v e Hv He Hi. rewrite out_integer. apply (wp_store_set_run _ [] (fun _ => clock_at E t)); auto.
    - apply arg_small.
    - pose proof (to_chars_length v Hv). unfold zlen. lia.
    - by rewrite (Ha []), Hi. }
  destruct f as [f|]; cbn [incr_of] in *.
  - destruct (Hx f eq_refl) as [_ He].
    destruct (parse_int64 (f_value f)) as [v|] eqn:Hp; cbn [mbind option_bind].
    2: { to_reply. apply wp_ret, (post_says _ [] (fun _ => clock_at E t)); [done|done|by rewrite (Ha [])]. }
    apply parse_int64_inv in Hp as [Hv _]. destruct (Z.eqb_spec v INT64_MAX).
    { to_reply. apply wp_ret, (post_says _ [] (fun _ => clock_at E t)); [done|done|by rewrite (Ha [])]. }
    apply Hset; [|done|done]. unfold is_i64, INT64_MIN, INT64_MAX in *. lia.
  - change (0 =? INT64_MAX) with false. cbv iota. apply (Hset 1 0); [..|done]; unfold is_i64; lia.
Qed.

(** EXPIRE, when the stamp is settled. *)
Definition abs_restamp (stamp : Z) (τ : nat -> Z) : meaning :=
  match seen τ (after V0 ws) 0 (arg c 1) with
  | None => says (RInteger 0)
  | Some f => set_to (arg c 1) (f_value f) stamp (RInteger 1)
  end.

Lemma wp_restamp stamp out :
  is_i64 stamp ->
  wp ('(r, st) ← Store.expire E st (arg c 1) stamp;
      if negb (e_durable r) then
        reply st (append_error out (lit "ERR the expiry could not be logged and was not applied"))
      else reply st (append_integer out (if e_applied r then 1 else 0)))
    (cmd_post (fun _ => abs_restamp stamp) V0 ws s n st w out) w.
Proof using Hco Hck Hfol Hn Hsmall.
  intros Hstamp. unfold Store.expire, reply. apply wp_bind.
  apply (wp_lookup_then (fun _ => abs_restamp stamp) _ out).
  { intros info τ. unfold abs_restamp. case_match; [apply plain_set_to|apply plain_says]. }
  { done. }
  intros f w1 Hw Ht [(t & Hbt & Hf) Hx].
  assert (abs_restamp stamp (fun _ => clock_at E t) = match f with
    | None => says (RInteger 0) | Some f => set_to (arg c 1) (f_value f) stamp (RInteger 1) end) as Ha
    by (unfold abs_restamp, seen; by rewrite <- Hf).
  assert (moments E (tick w) w1 (fun _ => clock_at E t)) as Hτ by (by apply moments_const).
  destruct f as [f|].
  2: { apply wp_ret. cbn [e_durable e_applied negb]. to_reply. apply wp_ret. by eapply (post_says _ []). }
  destruct (Hx f eq_refl) as [Hv _]. apply wp_bind.
  eapply wp_mono; [apply (wp_set_follows w1 (arg c 1) (f_value f) stamp); [done|done|apply arg_small|done|done]|].
  intros x w' [Ht' Hr]. assert (moments E (tick w) w' (fun _ => clock_at E t)) as Hτ' by (by eapply moments_on).
  destruct x as [[b st']|x|]; [|done|by eapply (post_put_dead _ [])].
  destruct Hr as (-> & Ho & s' & Hfol' & Hs). cbn [negb]. apply wp_ret. cbn [e_durable e_applied negb].
  to_reply. apply wp_ret. by eapply (post_put _ []).
Qed.

(** DEL. *)
Lemma count_removed_same T keys : forall τ V V',
  (forall k, same_answer T (V k) (V' k)) -> (forall i, T <= τ i) ->
  count_removed τ V keys = count_removed τ V' keys.
Proof.
  induction keys as [|key keys IH]; intros τ V V' HV Hτ; [done|]. cbn [count_removed]. unfold seen.
  rewrite (HV key _ (Hτ 0%nat)). f_equal. apply IH; [|intros i; apply Hτ]. intros k. by apply after_same.
Qed.

Lemma moments_from t0 w' τ : moments E t0 w' τ -> forall i, clock_at E t0 <= τ i.
Proof using Hck. intros (ι & Hι & Hτ) i. rewrite Hτ. apply Hck, Hι. Qed.

Lemma del_all_nonempty keys : forall m, keys <> [] -> entries_ (del_all keys m) <> [].
Proof.
  assert (forall m key, entries_ (Memtable.del m key).2 <> []) as H1.
  { intros m key. unfold Memtable.del. case_match; apply sm_put_not_nil. }
  assert (forall keys m, entries_ m <> [] -> entries_ (del_all keys m) <> []) as H2.
  { induction keys0 as [|key keys0 IH]; intros m Hm; [done|]. by apply IH. }
  intros m Hne. destruct keys as [|key keys]; [done|]. apply (H2 keys (Memtable.del m key).2), H1.
Qed.

(** Deletions, made one way or the other. *)
Lemma post_deletions {A} keys g ok (proj : A -> Store) out (x : res A) w' :
  keys <> [] -> keys = drop 1 (args c) -> (tick w <= tick w')%nat ->
  running V0 ws s (now_of w) w st g ->
  step_post V0 ws (deletions keys) s (now_of w) st proj ok x w' ->
  (forall a, ok a w' -> trimmed (set_memtable st (del_all keys (memtable_ st))) (proj a)) ->
  match x with
  | Ret a => forall τ, moments E (tick w) w' τ ->
      cmd_post (fun _ τ => abs_del τ (after V0 ws) c) V0 ws s n st w out
        (Ret (proj a, out ++ encode_reply (RInteger (count_removed τ (after V0 ws) keys)))) w'
  | Throw _ => False
  | Dead => cmd_post (fun _ τ => abs_del τ (after V0 ws) c) V0 ws s n st w out Dead w'
  end.
Proof using Hco Hck Hfol Hn Hsmall.
  intros Hne Hkeys Ht R Hstep Hok. destruct Hfol as [Hr _]. pose proof keys_small as [Hk Hl].
  rewrite <- Hkeys in Hk, Hl.
  pose proof (si_mem _ _ _ (rn_inv _ _ _ _ _ _ _ R)) as Hwf. assert (now_of w <= now_of w') as Hnow by (by apply now_mono).
  destruct x as [a|x|]; [|done|].
  - destruct Hstep as (Ha & Ho & g' & s' & R' & Hs). intros τ Hτ. pose proof (Hok a Ha) as Htr.
    exists [], τ. unfold abs_del. rewrite <- Hkeys. split_and!; [done|done|done|]. left.
    exists (deletions keys), s'. split; [done|]. split; [|done]. split; [|exists g'; by eapply running_later].
    eapply rested_mono; [|eapply (trimmed_rested _ _ (set_memtable st (del_all keys (memtable_ st))));
      [by apply (del_all_room n)|apply Hr| |exact Ho|exact Htr]].
    + cbn. pose proof (rs_next _ _ Hr). lia.
    + cbn. by apply del_all_nonempty.
  - exists [], (fun _ => now_of w). split; [by apply moments_now|]. right. exists (deletions keys).
    unfold abs_del. rewrite <- Hkeys. split; [done|]. by eapply survives_later.
Qed.

Lemma wp_del_cmd out :
  (2 <= length (args c))%nat ->
  wp (cmd_del E c st out) (cmd_post (fun _ τ => abs_del τ (after V0 ws) c) V0 ws s n st w out) w.
Proof using Hco Hck Hfol Hn Hsmall.
  intros Hlen. pose proof Hfol as [Hr (g & R)]. pose proof keys_small as [Hk Hl].
  pose proof (si_mem _ _ _ (rn_inv _ _ _ _ _ _ _ R)) as Hwf.
  pose proof (fun k => running_view _ _ _ _ _ _ _ k R) as Hview.
  unfold cmd_del, reply. destruct (decide (length (args c) = 2%nat)) as [H2|H2].
  - assert (drop 1 (args c) = [arg c 1]) as Hargs.
    { unfold arg. by destruct (args c) as [|a [|b [|]]]. }
    pose proof (arg_small 1) as Hk1. apply wp_bind. eapply wp_mono; [apply wp_ticks; [apply (logged_ticks E _ _ _ (logged_del E st (arg c 1)))|];
      apply (wp_del_run E Hco (sane_ok E Hck) V0 ws s (now_of w) st g (arg c 1) w R)|].
    + intros now Hnow. apply Forall_singleton. unfold kMaxArg in *. split_and!; cbn; [lia|done|done|done|done].
    + apply (del_all_ready n st Hr Hn Hwf [arg c 1]); [by apply Forall_singleton|done].
    + intros x w' [Hstep Ht].
      pose proof (post_deletions [arg c 1] g _ snd out x w' ltac:(done) (eq_sym Hargs) Ht R Hstep
        (fun a Ha => proj2 (proj2 Ha))) as Hpost.
      destruct x as [[r st']|x|]; [|done|done]. destruct Hstep as ((Hd & (f & (t & Hbt & Hf) & Hlive) & _) & _).
      cbn [fst snd] in Hd, Hlive. rewrite Hd. cbn [negb]. to_reply. apply wp_ret.
      specialize (Hpost (fun _ => clock_at E t) ltac:(by apply moments_const)). cbn [snd] in Hpost.
      assert ((if d_was_live r then 1 else 0) = count_removed (fun _ => clock_at E t) (after V0 ws) [arg c 1]) as ->;
        [|exact Hpost].
      cbn [count_removed]. unfold seen. rewrite <- (Hview (arg c 1) (clock_at E t)) by apply Hck, Hbt.
      rewrite <- Hf, Hlive. destruct f; [by rewrite bool_decide_eq_true_2|].
      rewrite bool_decide_eq_false_2; [done|apply is_Some_None].
  - assert (drop 1 (args c) <> []) as Hne.
    { intros H%(f_equal length). rewrite length_drop in H. cbn in H. lia. }
    apply wp_bind. eapply wp_mono; [apply wp_ticks; [apply (logged_ticks E _ _ _ (logged_del_many E st (drop 1 (args c))))|];
      apply (wp_del_many_run E Hco (sane_ok E Hck) V0 ws s (now_of w) st g _ w R Hne)|].
    + intros now Hnow. unfold delete_batch. cbn [call_records]. rewrite <- list_fmap_compose. apply Forall_fmap.
      eapply Forall_impl; [exact Hk|]. unfold kMaxArg. intros k Hk0. split_and!; cbn; [lia|done|done|done|done].
    + by apply (del_all_ready n).
    + intros x w' [Hstep Ht].
      pose proof (post_deletions (drop 1 (args c)) g _ snd out x w' Hne eq_refl Ht R Hstep
        (fun a Ha => proj2 (proj2 Ha))) as Hpost.
      destruct x as [[r st']|x|]; [|done|done]. destruct Hstep as ((Hd & (τ & Hτ & Hrem) & _) & _).
      cbn [fst snd] in Hd, Hrem. rewrite Hd. cbn [negb]. to_reply. apply wp_ret.
      rewrite Hrem, (count_removed_same (now_of w) _ τ _ (after V0 ws)); [by apply Hpost|done|by eapply moments_from].
Qed.

Lemma wp_flushall out :
  wp (cmd_flushall E c st out) (cmd_post (fun _ _ => (RSimple (lit "OK"), [Wipe])) V0 ws s n st w out) w.
Proof using Hco Hck Hfol Hn.
  pose proof Hfol as [Hr (g & R)]. unfold cmd_flushall, reply. apply wp_bind.
  eapply wp_mono; [apply wp_ticks; [apply (logged_ticks E _ _ _ (logged_flush_all E st))|];
    apply (wp_flush_all_run E Hco _ _ _ _ _ _ _ R)|].
  intros [[b st']|e|] w' [Hx Ht]; [|done|].
  - destruct Hx as (-> & Ho & Hm & Hq & g' & R'). cbn [negb]. to_reply. apply wp_ret.
    exists [], (fun _ => now_of w). split_and!; [by apply moments_now|done|done|]. right. split; [done|].
    split; [|exists g'; eapply running_later; [by apply now_mono|done]].
    destruct (si_seqs _ _ _ (rn_inv _ _ _ _ _ _ _ R)) as (_ & _ & _ & _ & Hq0). pose proof (rs_next _ _ Hr).
    constructor; [rewrite Ho; apply Hr|rewrite Hm; by apply roomy_init|rewrite Hq; lia].
  - exists [], (fun _ => now_of w). split; [by apply moments_now|by left].
Qed.

Lemma wp_info out :
  wp (cmd_info E kStartedMs c st out) (cmd_post (fun info _ => says (RBulk info)) V0 ws s n st w out) w.
Proof using Hck Hfol.
  unfold cmd_info, reply. apply wp_bind, wp_now_ms. intros w1 Hw Ht. cbv zeta. to_reply. apply wp_ret.
  eapply post_says; [done|apply moments_now; lia|done].
Qed.

Lemma wp_config out :
  has_wal st = true -> (2 <= length (args c))%nat ->
  wp (cmd_config c st out) (cmd_post (fun _ _ => abs_config (policy_name (wal_policy st)) c) V0 ws s n st w out) w.
Proof using Hck Hfol.
  intros Hwal Hlen. unfold cmd_config, abs_config, reply.
  destruct (decide (normalize_name (arg c 1) = Some (lit "get"))) as [Hg|Hg].
  2: { rewrite bool_decide_eq_false_2 by done. to_reply. apply wp_ret, says_now; [done|done|].
       unfold append_printable. by rewrite <- !app_assoc. }
  rewrite bool_decide_eq_true_2 by done. unfold arg.
  destruct (args c) as [|a0 [|a1 [|a2 [|a3 l]]]] eqn:Hargs; cbn [length] in Hlen; try lia;
    cbn [length nth drop].
  - to_reply. by apply wp_ret, says_now.
  - cbn [negb bool_decide]. rewrite bool_decide_eq_true_2 by done. cbn [negb].
    set (x := name ← normalize_name a2; _).
    assert (normalize_name a2 ≫= config_value st = x) as Hx.
    { subst x. destruct (normalize_name a2) as [name|]; [|done]. cbn [mbind option_bind]. unfold config_value.
      rewrite Hwal. by repeat case_decide; repeat case_bool_decide. }
    rewrite Hx. destruct x as [v|]; to_reply; by apply wp_ret, says_now.
  - rewrite bool_decide_eq_false_2 by (cbn; lia). cbn [negb]. to_reply. by apply wp_ret, says_now.
Qed.

Lemma wp_command out : wp (cmd_command c st out) (cmd_post (fun _ _ => says (RArray [])) V0 ws s n st w out) w.
Proof using Hck Hfol. unfold cmd_command, reply. to_reply. by apply wp_ret, says_now. Qed.

End handlers.

(** A command that has read the clock once already. *)
Lemma cmd_post_shift abs abs' V0 ws s n st w w1 t out r w' :
  between (tick w) w1 t -> (forall info τ, abs' info τ = abs info (scons (clock_at E t) τ)) ->
  cmd_post abs' V0 ws s n st w1 out r w' -> cmd_post abs V0 ws s n st w out r w'.
Proof.
  intros Ht Ha. destruct r as [[st' out']|e|]; [|done|].
  - intros (info & τ & Hτ & H). rewrite Ha in H. exists info, (scons (clock_at E t) τ).
    split; [by eapply moments_cons|done].
  - intros (info & τ & Hτ & H). rewrite Ha in H. exists info, (scons (clock_at E t) τ).
    split; [by eapply moments_cons|done].
Qed.

Lemma wp_expire_cmd V0 ws s n st w c out :
  follows V0 ws s n w st -> n + 1 < 2 ^ 64 -> small c ->
  wp (cmd_expire E c st out) (cmd_post (fun _ τ => abs_expire τ (after V0 ws) c) V0 ws s n st w out) w.
Proof using Hco Hck.
  intros Hfol Hn Hsmall. unfold cmd_expire. destruct (parse_int64 (arg c 2)) as [v|] eqn:Hp.
  2: { unfold reply. to_reply. apply wp_ret, says_now; [done|done|done|]. unfold abs_expire. by rewrite Hp. }
  set (d := if v <=? 0 then Some (-1) else abs_deadline v 1000 (now_of w)).
  assert (forall info : bytes, forall τ, τ 0%nat = now_of w ->
    abs_expire τ (after V0 ws) c = match d with
    | None => says (RError (lit "ERR invalid expire time in 'expire' command"))
    | Some stamp => abs_restamp V0 ws c stamp (fun i => τ (S i)) end) as Ha.
  { intros _ τ Hτ. unfold abs_expire, abs_restamp, seen. rewrite Hp, Hτ. fold d.
    by destruct d; [destruct (_ ≫= _)|]. }
  apply parse_int64_inv in Hp as [Hv _].
  assert (forall w1, same_files w w1 -> (tick w <= tick w1)%nat ->
    wp (match d with
        | None => reply st (append_error out (lit "ERR invalid expire time in 'expire' command"))
        | Some deadline =>
            '(r, st) ← Store.expire E st (arg c 1) deadline;
            if negb (e_durable r) then
              reply st (append_error out (lit "ERR the expiry could not be logged and was not applied"))
            else reply st (append_integer out (if e_applied r then 1 else 0))
        end) (cmd_post (fun _ τ => abs_expire τ (after V0 ws) c) V0 ws s n st w out) w1) as Hgo.
  { intros w1 Hw1 Ht1. destruct d as [stamp|] eqn:Hd.
    - eapply wp_mono; [eapply (wp_restamp V0 ws s n st w1); auto|].
      + by eapply follows_same.
      + unfold d, abs_deadline in Hd. pose proof (cs_range _ Hck (tick w)).
        unfold is_i64, INT64_MIN, INT64_MAX, now_of in *. destruct (Z.leb_spec v 0); [simplify_eq; lia|].
        case_match eqn:Hle; [|done]. simplify_eq. apply Z.leb_le in Hle. lia.
      + intros r w'. apply (cmd_post_shift _ _ _ _ _ _ _ _ _ (tick w)); [by unfold between|].
        intros info τ. by rewrite (Ha info).
    - unfold reply. to_reply. apply wp_ret, says_now; [done|done|done|]. by rewrite (Ha []). }
  apply wp_bind. unfold d in Hgo. destruct (Z.leb_spec v 0); [by apply wp_ret, Hgo|].
  apply (wp_deadline w); [lia|auto|done].
Qed.

(** EXISTS. *)
Lemma wp_count_existing V0 ws s n st keys : forall w found,
  follows V0 ws s n w st ->
  wp (count_existing E st keys found) (fun r w' => same_files w w' /\ (tick w <= tick w')%nat /\ match r with
    | Ret x => exists τ, moments E (tick w) w' τ /\ x = found + count_live τ (after V0 ws) keys
    | Throw _ => False
    | Dead => True
    end) w.
Proof using Hco Hck.
  induction keys as [|key keys IH]; intros w found Hfol; cbn [count_existing].
  { apply wp_ret. split; [done|]. split; [done|]. exists (fun _ => now_of w).
    split; [apply moments_const; by unfold between|]. cbn. lia. }
  unfold Store.get. apply wp_bind, wp_bind. eapply wp_mono; [by apply (wp_lookup_run V0 ws s n st w Hfol key)|].
  intros [f|e|] w1 (Hw1 & Ht1 & Hf); [|done|done]. destruct Hf as [(t & Hbt & Hf) _]. apply wp_ret.
  eapply wp_mono; [apply (IH w1); by eapply follows_same|].
  intros x w2 (Hw2 & Ht2 & Hx). split; [by etransitivity|]. split; [lia|].
  destruct x as [x|e|]; [|done|done]. destruct Hx as (τ & Hτ & ->). exists (scons (clock_at E t) τ).
  split; [by eapply moments_cons|]. cbn [count_live]. change (fun i => scons (clock_at E t) τ (S i)) with τ.
  unfold seen. cbn [scons]. rewrite <- Hf. destruct f as [f|]; cbn [fmap option_fmap option_map].
  - rewrite bool_decide_eq_true_2 by done. lia.
  - rewrite bool_decide_eq_false_2 by apply is_Some_None. lia.
Qed.

Lemma wp_exists_cmd V0 ws s n st w c out :
  follows V0 ws s n w st ->
  wp (cmd_exists E c st out) (cmd_post (fun _ τ => abs_exists τ (after V0 ws) c) V0 ws s n st w out) w.
Proof using Hco Hck.
  intros Hfol. unfold cmd_exists, reply. apply wp_bind. eapply wp_mono; [by eapply wp_count_existing|].
  intros [x|e|] w' (Hw & Ht & Hx); [|done|].
  - destruct Hx as (τ & Hτ & ->). to_reply. apply wp_ret. by eapply (post_says _ _ _ _ _ _ Hfol _ [] τ).
  - apply post_dead; [done| |done|done]. intros info τ. apply plain_says.
Qed.

(** The table of [command.cpp] and the arities of the specification. *)
Lemma find_spec_arity name :
  arity name = (fun spec => (min_args spec, if max_args spec <? 0 then None else Some (max_args spec))) <$>
    find_spec (dispatch_table E kStartedMs) name.
Proof.
  unfold dispatch_table. cbn [find_spec].
  repeat (case_decide; [subst name; reflexivity|]). cbn [fmap option_fmap option_map].
  unfold arity. repeat (rewrite bool_decide_eq_false_2;
    [|rewrite ?elem_of_cons, ?elem_of_nil; intros ?; destruct_or?; congruence]). done.
Qed.

Lemma cmd_post_ext abs abs' V0 ws s n st w out r w' :
  (forall info τ, abs' info τ = abs info τ) ->
  cmd_post abs' V0 ws s n st w out r w' -> cmd_post abs V0 ws s n st w out r w'.
Proof.
  intros Ha. destruct r as [[st' out']|e|]; [|done|].
  - intros (info & τ & H). rewrite Ha in H. by exists info, τ.
  - intros (info & τ & H). rewrite Ha in H. by exists info, τ.
Qed.

(** Every handler of the table does what its command means. *)
Lemma wp_handler V0 ws s n st w c name spec out :
  follows V0 ws s n w st -> n + 1 < 2 ^ 64 -> small c ->
  find_spec (dispatch_table E kStartedMs) name = Some spec -> min_args spec <= zlen (args c) ->
  wp (handler spec c st out) (cmd_post (fun info τ =>
    abs_command (policy_name (wal_policy st)) info τ (after V0 ws) name c) V0 ws s n st w out) w.
Proof using Hco Hck.
  intros Hfol Hn Hsmall. assert (has_wal st = true) as Hwal.
  { destruct Hfol as [_ (g & R)]. destruct (rn_wal _ _ _ _ _ _ _ R) as (wal & Hw & _).
    unfold has_wal. by rewrite Hw. }
  unfold dispatch_table, zlen. cbn [find_spec]. intros H Hargs.
  repeat (case_decide; [injection H as <-; subst name; cbn [handler min_args] in *|]); [..|done];
    (eapply wp_mono; [|intros r w'; apply cmd_post_ext; intros info τ; reflexivity]).
  - by apply wp_ping.
  - apply wp_set_cmd; auto; lia.
  - by apply wp_get_cmd.
  - by apply wp_expire_cmd.
  - by apply wp_ttl_cmd.
  - by apply wp_incr_cmd.
  - by apply wp_flushall.
  - by apply wp_info.
  - apply wp_config; auto; lia.
  - apply wp_del_cmd; auto; lia.
  - by apply wp_exists_cmd.
  - by apply wp_command.
Qed.

Lemma wp_execute_run V0 ws s n st w c out :
  follows V0 ws s n w st -> n + 1 < 2 ^ 64 -> small c -> args c <> [] ->
  wp (execute E kStartedMs c st out) (cmd_post (fun info τ =>
    abs_execute (policy_name (wal_policy st)) info τ (after V0 ws) c) V0 ws s n st w out) w.
Proof using Hco Hck.
  intros Hfol Hn Hsmall Hne. unfold execute, abs_execute.
  destruct (args c) as [|first rest] eqn:Hargs; [done|].
  assert (arg c 0 = first) as -> by (unfold arg; by rewrite Hargs).
  destruct (normalize_name first) as [name|]; cbn [mbind option_bind].
  2: { to_reply. by apply wp_ret, says_now. }
  rewrite (find_spec_arity name). destruct (find_spec _ name) as [spec|] eqn:Hspec; cbn [fmap option_fmap option_map mbind option_bind].
  2: { to_reply. by apply wp_ret, says_now. }
  rewrite <- Hargs. cbv zeta. unfold arity_ok. cbn [fst snd].
  set (ok := (min_args spec <=? _) && _). assert ((zlen (args c) <? min_args spec) || ((0 <=? max_args spec) && (max_args spec <? zlen (args c)))
    = negb ok) as ->.
  { subst ok. destruct (Z.ltb_spec (max_args spec) 0), (Z.leb_spec 0 (max_args spec)); try lia;
      destruct (Z.ltb_spec (zlen (args c)) (min_args spec)), (Z.leb_spec (min_args spec) (zlen (args c))); try lia; cbn; try done;
      by destruct (Z.ltb_spec (max_args spec) (zlen (args c))), (Z.leb_spec (zlen (args c)) (max_args spec)); try lia. }
  destruct ok eqn:Hok; cbn [negb].
  - eapply wp_handler; [done|done|done|done|]. subst ok. apply andb_true_iff in Hok as [Hok _]. by apply Z.leb_le.
  - rewrite <- app_assoc. to_reply. by apply wp_ret, says_now.
Qed.

End commands.

(** ** The theorems *)

(** C8: Every command does what it means.  On a kernel that works until it kills the
    process, over a store that follows a history, [execute] never throws.  If it
    returns, the bytes it has appended are the reply of the abstract server to the
    command in the map the history makes, at readings of the clock taken during the
    call, and the store follows the history with the abstract server's changes after it:
    the entries it puts, or after FLUSHALL nothing at all.  If the process dies in it, the
    disk recovers to a point of that longer history, but for a death in a FLUSHALL. *)
Theorem execute_refines (E : env) (kStartedMs : Z) (V : bytes -> option Entry) (ws : list write) (s : nat) (n : Z)
    (st : Store) (w : world) (c : Command) (out : bytes) :
  crash_only E -> clock_sane E -> follows E V ws s n w st -> n + 1 < 2 ^ 64 -> small c -> args c <> [] ->
  let abs := fun info τ => abs_execute (policy_name (wal_policy st)) info τ (after V ws) c in
  match execute E kStartedMs c st out w with
  | (Ret (st', out'), w') => exists info τ, moments E (tick w) w' τ /\
      out' = out ++ encode_reply (abs info τ).1 /\ options_ st' = options_ st /\
      ((exists new s', (abs info τ).2 = puts new /\ follows E V (ws ++ new) s' (n + 1) w' st' /\ (s <= s')%nat) \/
       ((abs info τ).2 = [Wipe] /\ follows E nothing [] 0 (n + 1) w' st'))
  | (Throw _, _) => False
  | (Dead, w') => exists info τ, moments E (tick w) w' τ /\
      ((abs info τ).2 = [Wipe] \/
       exists new, (abs info τ).2 = puts new /\ survives (options_ st) V (ws ++ new) s (now_of E w') w')
  end.
Proof.
  intros Hco Hck Hf Hn Hs Hne abs.
  pose proof (wp_execute_run E Hco Hck kStartedMs V ws s n st w c out Hf Hn Hs Hne) as H. unfold wp in H.
  by destruct (execute E kStartedMs c st out w) as [[[st' out']|e|] w'].
Qed.

(** C31: A FLUSHALL that returns is final.  On a kernel that works until it kills the
    process, [flush_all] that comes back reports success, and from then on no crash
    brings anything back: a start on whatever is left of the disk returns a store in
    which every key reads as absent. *)
Theorem flush_all_final (E E' : env) (o : Options) (V : bytes -> option Entry) (ws : list write) (s : nat) (T : Z)
    (st st' : Store) (g : ghost) (w w' w1 : world) (ok : bool) (n : nat) :
  crash_only E -> running V ws s T w st g -> options_ st = store_options o ->
  flush_all E st w = (Ret (ok, st'), w') -> crash w' w1 -> reliable E' n -> files_within w1 n ->
  ok = true /\
  exists st2 result w2, startup E' o w1 = (Ret (st2, result), w2) /\
    forall k E2 m, reliable E2 m -> (files_budget w2 (sstables_ st2) <= m)%nat -> (forall t, T <= clock_at E2 t) ->
      exists w3, lookup E2 st2 k w2 = (Ret None, w3).
Proof.
  intros Hco R Ho Hrun Hcr Hrel Hn. pose proof (wp_elim _ _ _ _ _ (wp_flush_all_run E Hco V ws s T st g w R) Hrun) as H.
  destruct H as (-> & Ho' & _ & _ & g' & R'). split; [done|].
  pose proof (running_survives _ _ _ _ _ _ _ R' w1 Hcr) as Hrec. pose proof (rn_dir _ _ _ _ _ _ _ R) as Hdir.
  rewrite Ho', Ho in Hrec. rewrite Ho in Hdir.
  destruct (recoverable_startup E' o _ _ _ _ n w1 Hrec Hdir Hrel Hn) as (st2 & result & w2 & layers & Hst & I & Hk).
  exists st2, result, w2. split; [done|]. intros k E2 m Hrel2 Hm HT. destruct (Hk k) as (j & Hj & Ha).
  destruct (lookup_reliable E2 m w2 st2 layers.*2 k I Hrel2 Hm) as (t & w3 & _ & Hl). exists w3.
  rewrite Hl, (Ha _ (HT t)). by rewrite take_nil.
Qed.

(** ** The theorems at work *)

Definition set_k_v : Command := mkCommand [lit "SET"; lit "k"; lit "v"].

Lemma life_follows at_ : follows (life_env at_) (fun _ => None) [] 0 1 empty_disk life_store.
Proof.
  split; [|eexists; exact life_running]. constructor; cbn; [unfold kMaxMemtable; lia| |lia].
  apply roomy_init; vm_compute; discriminate.
Qed.

Lemma life_sane at_ : clock_sane (life_env at_).
Proof. split; [done|]. intros t. cbn. unfold INT64_MAX. lia. Qed.

Lemma execute_refines_witness :
  exists st' w' s', execute (life_env 99) 0 set_k_v life_store [] empty_disk =
      (Ret (st', encode_reply (RSimple (lit "OK"))), w') /\
    follows (life_env 99) (fun _ => None) [(lit "k", mkEntry (lit "v") false 0)] s' 2 w' st'.
Proof.
  assert (small set_k_v) as Hs by (split; [|repeat constructor]; vm_compute; discriminate).
  assert (args set_k_v <> []) as Hne by discriminate.
  pose proof (execute_refines (life_env 99) 0 (fun _ => None) [] 0 1 life_store empty_disk set_k_v []
    (life_crash_only 99) (life_sane 99) (life_follows 99) eq_refl Hs Hne) as H. cbv zeta in H.
  assert (match (execute (life_env 99) 0 set_k_v life_store [] empty_disk).1 with Ret _ => True | _ => False end)
    as Hret by (vm_compute; exact I).
  destruct (execute (life_env 99) 0 set_k_v life_store [] empty_disk) as [[[st' out']|e|] w'];
    [|destruct Hret|destruct Hret].
  destruct H as (info & τ & _ & Hout & _ & Hadv). rewrite app_nil_l in Hout.
  assert (abs_execute (policy_name (wal_policy life_store)) info τ (after (fun _ => None) []) set_k_v =
    (RSimple (lit "OK"), puts [(lit "k", mkEntry (lit "v") false 0)])) as Ha by (vm_compute; reflexivity).
  rewrite Ha in Hout, Hadv. exists st', w'. destruct Hadv as [(new & s' & Hnew & Hf & _)|[Hw _]]; [|discriminate Hw].
  exists s'. split; [by rewrite Hout|]. cbn [snd] in Hnew.
  destruct new as [|[k e] [|? ?]]; [discriminate Hnew| |discriminate Hnew]. injection Hnew as <- <-. exact Hf.
Defined.

(** A key is written and the log synced, FLUSHALL returns, the power fails. *)
Definition wiped_disk : world := (flush_all (life_env 99) life_stored life_disk).2.
Definition wiped_left : world := power_loss wiped_disk.

Lemma wiped_run : exists st', flush_all (life_env 99) life_stored life_disk = (Ret (true, st'), wiped_disk).
Proof.
  unfold wiped_disk.
  assert (match (flush_all (life_env 99) life_stored life_disk).1 with Ret (ok, _) => ok = true | _ => False end) as H
    by (vm_compute; reflexivity).
  revert H. generalize (flush_all (life_env 99) life_stored life_disk). intros [[[ok st']|e|] w']; cbn; [|done|done].
  intros ->. by exists st'.
Qed.

Lemma wiped_cut : power_cut wiped_disk wiped_left.
Proof.
  apply power_loss_cut. change (power_loss wiped_disk) with wiped_left.
  assert (next_ino wiped_left = 1%nat) as -> by (vm_compute; reflexivity).
  intros [|i] Hi; [vm_compute; reflexivity|lia].
Qed.

Lemma wiped_within : files_within wiped_left 400.
Proof. apply files_within_map. apply (bool_decide_unpack _). vm_compute. exact I. Qed.

Lemma wiped_budget :
  match startup (fair_env 400) life_options wiped_left with
  | (Ret (st, _), w2) => (files_budget w2 (sstables_ st) <= 400)%nat
  | _ => False
  end.
Proof. vm_compute. lia. Qed.

Lemma flush_all_final_witness :
  exists st2 result w2 w3, startup (fair_env 400) life_options wiped_left = (Ret (st2, result), w2) /\
    lookup (fair_env 400) st2 (lit "a") w2 = (Ret None, w3).
Proof.
  destruct (scalls_running (life_env 11) (life_crash_only 11) (life_clock 11) 5 (life_past 11) _ [life_set] [] 0
    life_store (mkGhost [] 0 [] 0) empty_disk life_stored life_disk life_running
    (proj1 (calls_ready_app (life_env 11) _ _ _ _ _ _ life_ready life_wrote)) life_wrote) as (_ & g & s & R & _).
  destruct wiped_run as (st' & Hrun).
  destruct (flush_all_final (life_env 99) (fair_env 400) life_options (fun _ => None) _ s 5 life_stored st' g life_disk
    wiped_disk wiped_left true 400 (life_crash_only 99) R eq_refl Hrun (or_intror wiped_cut) (fair_env_reliable 400)
    wiped_within) as (_ & st2 & result & w2 & Hst & Hk).
  destruct (Hk (lit "a") (fair_env 400) 400%nat (fair_env_reliable 400)) as (w3 & Hl).
  - pose proof wiped_budget as Hb. rewrite Hst in Hb. exact Hb.
  - intros t. cbn. lia.
  - exists st2, result, w2, w3. split; [exact Hst|exact Hl].
Defined.
