(* ===== verification/Merging.v ===== *)
(** * Merges and the disk

    [maybe_compact] over a store that follows a history ([Durable]).  A merge that
    returns leaves the history as it is: the merged table stands for its inputs, in
    memory and for good on disk, for every reader from the time of the merge on.  A
    process that dies before the merged table takes its name leaves the inputs.  After
    that, when the merge has dropped no tombstones, whatever names the crash leaves
    read the same; and so they do once the older inputs are gone.  Between the two lies
    the one window of the merge of the oldest run, which drops tombstones: its table is in
    place and an older input is left ([torn_merge]).  A crash there can bring deleted keys
    back ([StoreSpec]), but loses no live one ([survives_on]). *)

From stdpp Require Import gmap.
From S2P Require Import Prelude Decimal Resp SortedMap Memtable WalCodec Posix Wal Sstable Compaction Store StoreSpec Command Abstract LogGuard Main Crash Durable Recovery Lifecycle Footprint Refine.

(** ** Directories that read the same *)

(** As [survives], but only of the keys in [K]: a restart finds tables and a log, and
    every key in [K] has a value it had between the [s]-th write and the last. *)
Definition survives_on (K : bytes -> Prop) (o : StoreOptions) (V0 : bytes -> option Entry) (ws : list write)
    (s : nat) (T : Z) (w : world) : Prop :=
  forall w', crash w w' -> exists layers log tail fd,
    dir_rep w' o layers /\ dir w' !! log_path o = Some fd /\ Forall record_ok log /\
    contents w' fd = enc log ++ tail /\ (tail = [] \/ torn tail) /\
    forall k, K k -> exists j, (s <= j <= length ws)%nat /\
      same_answer T (after (first_of layers.*2) (write_of <$> log) k) (after V0 (take j ws) k).

Lemma survives_on_all (K : bytes -> Prop) o V0 ws s T w :
  (forall k, K k) -> survives_on K o V0 ws s T w -> survives o V0 ws s T w.
Proof.
  intros HK H w' Hcr. destruct (H w' Hcr) as (layers & log & tail & fd & ? & ? & ? & ? & ? & Hk).
  exists layers, log, tail, fd. by split_and!; auto.
Qed.

(** Tables that answer like those of the history, and its log. *)
Lemma survives_dir (K : bytes -> Prop) V0 ws s T w o g :
  (forall w', crash w w' -> exists layers, dir_rep w' o layers /\ dir w' !! log_path o = Some (g_fd g) /\
     forall k, K k -> first_of layers.*2 k = first_of (g_layers g).*2 k) ->
  Forall record_ok (g_recs g) -> history V0 ws s T g -> log_durable w (g_fd g) (g_recs g) (g_m g) ->
  contents w (g_fd g) = enc (g_recs g) -> survives_on K o V0 ws s T w.
Proof.
  intros Hdir Hok Hh [Hm (tail & Hs & Ht)] Hc w' Hcr. destruct (Hdir w' Hcr) as (layers & Hrep & Hlog & Hfirst).
  destruct (log_crash w w' (g_fd g) (g_recs g) (g_m g) (length (enc (g_recs g))) tail)
    as (j & tail' & Hj & Hx & Ht'); try done.
  - by rewrite Hc, take_ge.
  - rewrite (enc_take_app (g_m g) (g_recs g)), length_app. lia.
  - exists layers, (take j (g_recs g)), tail', (g_fd g). split_and!; try done; [by apply Forall_take|].
    intros k HK. destruct (history_cut _ _ _ _ _ j k Hh Hj) as (n & Hn & Ha). exists n. split; [done|].
    unfold after at 1. rewrite Hfirst by done. exact Ha.
Qed.

(** ** The names *)

(** What [replace_run] does to the directory: the temporary name is gone, and so are the
    names of the run, but for the newest if the merged table holds anything. *)
Record renamed (temp target : bytes) (tails : list bytes) (i : nat) (stays : bool) (w w' : world) : Prop := mkRenamed {
  re_inodes : same_inodes w w';
  re_synced : dir_synced w' = dir w';
  re_temp : dir w' !! temp = None;
  re_tails p : p ∈ tails -> dir w' !! p = None;
  re_target : dir w' !! target = if stays then Some i else None;
  re_other p : p <> temp -> p <> target -> p ∉ tails -> dir w' !! p = dir w !! p
}.

(** The run and its merge, as the tables of the ghost state. *)
Definition merged_layer (q : Z) (out : list row) : list (Z * list row) :=
  match out with [] => [] | _ => [(q, out)] end.

Lemma first_of_layer q out k : first_of (merged_layer q out).*2 k = sm_find k out.
Proof. destruct out as [|x out]; [done|]. cbn [merged_layer fmap list_fmap snd first_of]. by destruct (sm_find k _). Qed.

Lemma sublist_map {A B} (f : A -> B) (l k : list A) : l `sublist_of` k -> (f <$> l) `sublist_of` (f <$> k).
Proof. induction 1; cbn; auto using sublist_nil, sublist_skip, sublist_cons. Qed.

Lemma first_of_sub (ls ls' : list (list row)) k : ls' `sublist_of` ls -> first_of ls k = None -> first_of ls' k = None.
Proof.
  induction 1 as [|l ls' ls _ IH|l ls' ls _ IH]; cbn [first_of]; [done|..]; destruct (sm_find k l); auto; done.
Qed.

Lemma filter_full {A} (P : A -> Prop) `{forall x, Decision (P x)} (l : list A) : Forall P l -> filter P l = l.
Proof. induction 1; [done|]. rewrite filter_cons_True by done. by f_equal. Qed.

Lemma rows_canon_sub (rows rows' : list (list row)) : rows' `sublist_of` rows -> rows_canon rows -> rows_canon rows'.
Proof.
  unfold rows_canon. induction 1 as [|l ls' ls _ IH|l ls' ls _ IH]; cbn [concat]; [done|..];
    rewrite ?Forall_app; naive_solver.
Qed.

Lemma merged_layer_sub q r out (lt : list (Z * list row)) :
  (merged_layer q out).*1 `sublist_of` ((q, r) :: lt).*1.
Proof. destruct out; cbn; [apply sublist_nil_l|]. apply sublist_skip, sublist_nil_l. Qed.

Lemma merged_layer_rows q out : concat (merged_layer q out).*2 = out.
Proof. destruct out; [done|]. cbn. by rewrite app_nil_r. Qed.

Section replacing.
Context (V0 : bytes -> option Entry) (ws : list write) (s : nat) (T : Z) (st : Store) (g : ghost).
Context (w0 w : world) (i : nat) (lb lt la : list (Z * list row)) (q0 : Z) (r0 out : list row) (d : bool) (now : Z).
Abbreviation temp := (in_dir (o_dir (options_ st)) kCompactTemp).
Abbreviation lm := ((q0, r0) :: lt).
Abbreviation target := (table_path st q0).
Abbreviation tails := (table_path st <$> lt.*1).
Context (Hrun : running V0 ws s T w0 st g) (Hcr : creates temp i w0 w).
Context (Hlayers : g_layers g = lb ++ lm ++ la).
Context (Hdur : durable w i) (Htab : is_table out (contents w i)).
Context (Hout : forall k, sm_find k out = first_of lm.*2 k ≫= keep d now) (Hdrop : d = true -> la = []).

Definition merged_ghost : ghost :=
  mkGhost (lb ++ merged_layer q0 out ++ la) (g_fd g) (g_recs g) (g_m g).

Lemma temp_in : temp ∈ temps st.
Proof. by right; left. Qed.

Lemma layers_sub : (lb ++ merged_layer q0 out ++ la).*1 `sublist_of` (g_layers g).*1.
Proof using Hlayers.
  rewrite Hlayers, !fmap_app. apply sublist_app; [done|]. apply sublist_app; [|done]. apply merged_layer_sub.
Qed.

Lemma layers_canon : rows_canon (lb ++ merged_layer q0 out ++ la).*2.
Proof using Hrun Hlayers Htab Hout.
  pose proof (dk_canon _ _ _ _ _ (rn_disk _ _ _ _ _ _ _ Hrun)) as Hc. cbn [extra_layer app] in Hc.
  rewrite Hlayers in Hc. unfold rows_canon in *. rewrite !fmap_app, !concat_app, !Forall_app in *.
  destruct Hc as (Hb & Hm & Ha). split_and!; [done| |done]. rewrite merged_layer_rows.
  destruct Htab as (_ & Hs & _). by eapply (merged_canon out lm.*2 d now).
Qed.

(** The history, for readers from the time of the merge on. *)
Lemma merged_history T' :
  T <= T' -> now <= T' -> history V0 ws s T' merged_ghost.
Proof using Hrun Hlayers Hout Hdrop.
  intros HT Hn. destruct (rn_hist _ _ _ _ _ _ _ Hrun) as (ws1 & Hws & Hs & Hb).
  exists ws1. cbn [merged_ghost g_recs g_m g_layers]. split_and!; [done|done|]. intros k t Ht.
  rewrite <- (Hb k t) by lia. rewrite Hlayers.
  pose proof (view_merge Memtable_init lb.*2 lm.*2 la.*2 (merged_layer q0 out).*2 d now) as Hv.
  rewrite !fmap_app. apply (Hv (fun k => eq_trans (first_of_layer q0 out k) (Hout k))); [|lia].
  intros Hd. by rewrite (Hdrop Hd).
Qed.

(** Different tables have different names. *)
Lemma layer_paths : NoDup (table_path st <$> (lb.*1 ++ lm.*1 ++ la.*1)).
Proof using Hrun Hlayers.
  pose proof (tables_paths_nodup _ _ _ (rn_inv _ _ _ _ _ _ _ Hrun)) as H.
  by rewrite (rn_paths _ _ _ _ _ _ _ Hrun), Hlayers, !fmap_app in H; rewrite !fmap_app.
Qed.

Lemma outside_run q : q ∈ lb.*1 ++ la.*1 -> table_path st q <> target /\ table_path st q ∉ tails.
Proof using Hrun Hlayers.
  intros Hq. pose proof layer_paths as H. rewrite !fmap_app in H.
  apply NoDup_app in H as (_ & H1 & H). apply NoDup_app in H as (_ & H2 & _).
  cbn [fmap list_fmap fst] in H1, H2.
  assert (table_path st q ∉ target :: tails) as [? ?]%not_elem_of_cons; [|done].
  intros Hin. apply elem_of_app in Hq as [Hq|Hq]; apply (list_elem_of_fmap_2 (table_path st)) in Hq.
  - apply (H1 _ Hq), elem_of_app. by left.
  - by apply (H2 _ Hin).
Qed.

Abbreviation stays := (match out with [] => false | _ => true end).

Lemma merged_disk w' :
  renamed temp target tails i stays w w' ->
  (forall p j, dir w' !! p = Some j -> (j < next_ino w')%nat) ->
  (forall p q j, dir w' !! p = Some j -> dir w' !! q = Some j -> p = q) ->
  disk w' (options_ st) (g_layers merged_ghost) None (g_fd g).
Proof using Hrun Hcr Hlayers Hdur Htab Hout.
  clear Hdrop. intros [M1 M2 M3 M4 M5 M6] Hb Hinj.
  destruct (running_creates _ _ _ _ _ _ _ _ _ _ Hrun temp_in Hcr) as (D & _).
  pose proof M1 as (_ & Hsi & _).
  assert (forall j, contents w' j = contents w j) as Hc' by (intros j; by apply same_inodes_contents).
  assert (forall j, durable w j -> durable w' j) as Hdd by (intros j; unfold durable; by rewrite Hc', Hsi).
  assert (forall q, table_path st q <> temp) as Hnt by (intros q; apply not_eq_sym, table_path_not_temp, temp_in).
  apply (disk_settled w w' _ (g_layers g)); auto; [apply layers_sub|apply layers_canon|..].
  - cbn [merged_ghost g_layers]. intros q rs Hin. rewrite !elem_of_app in Hin.
    assert ((q, rs) ∈ lb ++ la \/ (q, rs) ∈ merged_layer q0 out) as [Hold|Hnew] by (rewrite elem_of_app; tauto).
    + destruct (dk_table _ _ _ _ _ D q rs) as (j & H1 & _ & H3 & H4).
      { rewrite Hlayers. rewrite !elem_of_app in *. tauto. }
      destruct (outside_run q) as [Hq Hqt].
      { rewrite <- fmap_app. by apply (list_elem_of_fmap_2 fst _ _ Hold). }
      exists j. rewrite Hc'. split_and!; [|by auto|done].
      rewrite <- H1. apply M6; [apply Hnt|done|done].
    + exists i. rewrite Hc'. destruct out as [|x l] eqn:Heq; [by apply elem_of_nil in Hnew|].
      apply list_elem_of_singleton in Hnew. injection Hnew as -> ->. auto.
  - cbn [merged_ghost g_layers]. intros q Hin Hn. rewrite Hlayers, !fmap_app, !elem_of_app in *.
    assert (q = q0 \/ q ∈ lt.*1) as [->|Hq].
    { cbn [fmap list_fmap fst] in Hin. rewrite elem_of_cons in Hin. tauto. }
    + fold (table_path st q0). rewrite M5. destruct out as [|x l]; [done|]. destruct Hn. right. left. by left.
    + apply M4, list_elem_of_fmap. by exists q.
  - intros p j Hp. destruct (decide (p = temp)) as [->|Ht]; [congruence|].
    destruct (decide (p ∈ tails)) as [Hin|Hin]; [by rewrite (M4 p Hin) in Hp|].
    destruct (decide (p = target)) as [->|Hpt].
    + destruct (dk_table _ _ _ _ _ D q0 r0) as (j' & H1 & _); [rewrite Hlayers; set_solver|].
      exists j'. by left.
    + exists j. left. by rewrite <- M6.
  - rewrite M6; [apply (dk_log _ _ _ _ _ D)|..].
    + intros Heq. by apply (log_path_not_temp st temp temp_in).
    + intros Heq. by apply (log_path_not_table (options_ st) q0).
    + intros (q & Hq & _)%list_elem_of_fmap. by apply (log_path_not_table (options_ st) q).
Qed.

(** The store over the new names. *)
Lemma merged_running w' st' T' :
  renamed temp target tails i stays w w' ->
  memtable_ st' = memtable_ st -> options_ st' = options_ st -> next_sequence_ st' = next_sequence_ st ->
  wal_ st' = wal_ st -> path_ <$> sstables_ st' = table_path st <$> (g_layers merged_ghost).*1 ->
  store_inv w' st' (g_layers merged_ghost).*2 -> T <= T' -> now <= T' ->
  running V0 ws s T' w' st' merged_ghost.
Proof using Hrun Hcr Hlayers Hdur Htab Hout Hdrop.
  intros M Em Eo En Ew Hp I HT Hnow. pose proof M as [M1 M2 M3 M4 M5 M6].
  destruct (running_creates _ _ _ _ _ _ _ _ _ _ Hrun temp_in Hcr) as (_ & _ & Hc & Hl).
  constructor; rewrite ?Em, ?Eo, ?En, ?Ew; auto; try apply Hrun.
  - apply merged_disk; [done|apply I|apply I].
  - eapply Forall_sublist; [apply layers_sub|apply Hrun].
  - rewrite Hp. apply list_fmap_ext. intros j q _. unfold table_path. by rewrite Eo.
  - intros p Hpt. unfold temps in Hpt. rewrite Eo in Hpt. fold (temps st) in Hpt.
    destruct (decide (p = temp)) as [->|Hne]; [done|].
    rewrite M6, (cr_dir _ _ _ _ Hcr), lookup_insert_ne; [by apply Hrun|done|done|..].
    + by apply table_path_not_temp.
    + intros (q & Hq & _)%list_elem_of_fmap. by apply (table_path_not_temp st q p).
  - by rewrite (same_inodes_contents w w').
  - unfold log_durable. cbn. destruct M1 as (_ & -> & _). exact Hl.
  - apply (mem_is_mono T T'); [done|apply Hrun].
  - by apply merged_history.
Qed.

(** The directory while the run is replaced.  The newest name of the run leads to its own
    table or to the merged one, and all other names of the run are there; or it leads to
    the merged one for good, and other names may be missing; or the merged table is
    empty, and all names of the run may be missing. *)
Record moving (i0 : nat) (v : world) : Prop := mkMoving {
  mv_inodes : same_inodes w v;
  mv_names p j : named v p j -> named w p j \/ p = target /\ j = i;
  mv_fresh p : named v p i -> p = target;
  mv_other p j : p <> target -> p ∉ tails -> p <> temp ->
    dir w !! p = Some j -> dir_synced w !! p = Some j -> dir v !! p = Some j /\ dir_synced v !! p = Some j;
  mv_phase :
    (forall p j, p ∈ tails -> dir w !! p = Some j -> dir_synced w !! p = Some j ->
       dir v !! p = Some j /\ dir_synced v !! p = Some j) /\
    dir v !! target = Some i /\ dir_synced v !! target = Some i0 \/
    dir v !! target = Some i /\ dir_synced v !! target = Some i \/
    out = []
}.

(** What is left of the run. *)
Definition left_of (w' : world) : list (Z * list row) :=
  filter (fun x => is_Some (dir w' !! table_path st x.1)) lt.

Lemma left_sub w' : left_of w' `sublist_of` lt.
Proof. apply sublist_filter. Qed.

Lemma left_in w' q j : q ∈ lt.*1 -> dir w' !! table_path st q = Some j -> q ∈ (left_of w').*1.
Proof.
  intros Hq Hj. apply list_elem_of_fmap in Hq as ([q' rs] & -> & Hin). apply (list_elem_of_fmap_2 fst _ (q', rs)).
  unfold left_of. rewrite list_elem_of_filter. by split.
Qed.

(** The key was not dropped by the merge. *)
Definition kept (k : bytes) : Prop := first_of lm.*2 k ≫= keep d now = first_of lm.*2 k.

(** Nor can what it uncovers be seen when newer tables decide the key. *)
Definition spared (k : bytes) : Prop := is_Some (first_of lb.*2 k) \/ kept k.

Lemma kept_all k : d = false -> kept k.
Proof. intros Hd. unfold kept. rewrite Hd. by case (first_of lm.*2 k). Qed.

(** The merged table covers whatever is left, for the keys it kept. *)
Lemma covers_left w' k : kept k -> first_of ((q0, out) :: left_of w').*2 k = first_of lm.*2 k.
Proof using Hout.
  intros Hk. unfold kept in Hk. rewrite <- (Hout k) in Hk. cbn [fmap list_fmap snd first_of] in *.
  destruct (sm_find k out) as [e|] eqn:Hf; [done|].
  destruct (sm_find k r0); [done|]. rewrite <- Hk. eapply first_of_sub; [|by symmetry]. apply sublist_map, left_sub.
Qed.

(** The directory after a crash, with [mid] in the place of the run. *)
Lemma dir_rep_mid i0 v v' mid :
  moving i0 v -> crash v v' -> mid.*1 `sublist_of` lm.*1 -> rows_canon mid.*2 ->
  (forall q rs, (q, rs) ∈ mid -> exists j, dir v' !! table_path st q = Some j /\ is_table rs (contents v' j)) ->
  (forall q j, q ∈ lm.*1 -> dir v' !! table_path st q = Some j -> q ∈ mid.*1) ->
  dir_rep v' (options_ st) (lb ++ mid ++ la) /\ dir v' !! log_path (options_ st) = Some (g_fd g).
Proof using Hrun Hcr Hlayers.
  clear Hdrop Htab Hout Hdur. intros [M1 M2 M3 M4 _] Hc Hsub Hcan Htabs Hall.
  destruct (running_creates _ _ _ _ _ _ _ _ _ _ Hrun temp_in Hcr) as (D & Hi & _).
  assert ((lb ++ mid ++ la).*1 `sublist_of` (g_layers g).*1) as Hsub'.
  { rewrite Hlayers, !fmap_app. apply sublist_app; [done|]. by apply sublist_app. }
  assert (forall p j, dir v' !! p = Some j -> named w p j \/ p = target /\ j = i) as Hnm.
  { intros p j Hp. eapply M2, crash_named; done. }
  assert (exists j0, named w target j0) as (j0 & Hj0).
  { destruct (dk_table _ _ _ _ _ D q0 r0) as (j & H1 & _); [rewrite Hlayers; set_solver|]. exists j. by left. }
  assert (forall p j, p <> target -> p ∉ tails -> p <> temp -> dir w !! p = Some j -> dir_synced w !! p = Some j ->
    dir v' !! p = Some j) as Hstay.
  { intros p j H1 H2 H3 H4 H5. destruct (M4 p j H1 H2 H3 H4 H5). by apply (crash_stable v). }
  destruct D as [D1 D2 D3 D4 D5 D6 D7 D8 [D9 D9']]. cbn [extra_layer app] in D1, D2, D3, D6.
  split; [constructor|].
  - by eapply sublist_sorted.
  - by eapply Forall_sublist.
  - intros q rs Hin. rewrite !elem_of_app in Hin.
    assert ((q, rs) ∈ lb ++ la \/ (q, rs) ∈ mid) as [Hold|Hnew] by (rewrite elem_of_app; tauto);
      [|exact (Htabs q rs Hnew)].
    destruct (D4 q rs) as (j & H1 & H2 & H3 & H4).
    { rewrite Hlayers. apply elem_of_app in Hold. rewrite !elem_of_app. tauto. }
    destruct (outside_run q) as [Hq Hqt].
    { rewrite <- fmap_app. by apply (list_elem_of_fmap_2 fst _ _ Hold). }
    exists j. split; [apply Hstay; auto; apply not_eq_sym, table_path_not_temp, temp_in|].
    assert (contents v j = contents w j) as Hcv by (by apply same_inodes_contents).
    rewrite (durable_crash v v'), Hcv; [done| |done]. unfold durable. rewrite Hcv. by destruct M1 as (_ & -> & _).
  - rewrite Hlayers in D3. unfold rows_canon in *. rewrite !fmap_app, !concat_app, !Forall_app in *. naive_solver.
  - intros p j n q Hp Hn Hq. destruct (Hnm p j Hp) as [Hw|[-> ->]].
    + destruct (D6 p j n q Hw Hn Hq) as [Hin ->]. split; [|done].
      rewrite Hlayers in Hin. rewrite !fmap_app, !elem_of_app in *. naive_solver.
    + destruct (D6 target j0 n q Hj0 Hn Hq) as [Hin Heq]. split; [|done].
      rewrite Hlayers in Hin. rewrite !fmap_app, !elem_of_app in *. rewrite Heq in Hp. naive_solver.
  - intros p j Hp. rewrite (crash_next v v' Hc). destruct M1 as (_ & _ & ->).
    destruct (Hnm p j Hp) as [Hw|[-> ->]]; [by eapply D7|].
    eapply D7. left. rewrite (cr_dir _ _ _ _ Hcr). apply lookup_insert_eq.
  - intros p q j Hp Hq. pose proof (crash_named _ _ _ _ Hc Hp) as Hp'. pose proof (crash_named _ _ _ _ Hc Hq) as Hq'.
    destruct (M2 p j Hp') as [Hw|[-> ->]]; [|by symmetry; apply M3].
    destruct (M2 q j Hq') as [Hw'|[-> ->]]; [by eapply D8|by apply M3].
  - apply Hstay; auto.
    + intros Heq. by apply (log_path_not_table (options_ st) q0).
    + intros (q & Hq & _)%list_elem_of_fmap. by apply (log_path_not_table (options_ st) q).
    + intros Heq. by apply (log_path_not_temp st temp temp_in).
Qed.

(** The tables of the run that are left are whole. *)
Lemma run_table q rs : (q, rs) ∈ lm -> exists j, dir w !! table_path st q = Some j /\
  dir_synced w !! table_path st q = Some j /\ durable w j /\ is_table rs (contents w j).
Proof using Hrun Hcr Hlayers.
  intros Hin. destruct (running_creates _ _ _ _ _ _ _ _ _ _ Hrun temp_in Hcr) as (D & _).
  apply (dk_table _ _ _ _ _ D q rs). rewrite Hlayers, !elem_of_app. by right; left.
Qed.

Lemma tails_not_target q : q ∈ lt.*1 -> table_path st q <> target.
Proof using Hrun Hlayers.
  intros Hq Heq. pose proof layer_paths as H. rewrite !fmap_app in H. apply NoDup_app in H as (_ & _ & H).
  apply NoDup_app in H as (H & _). cbn [fmap list_fmap fst] in H. apply NoDup_cons in H as [H _].
  apply H. rewrite <- Heq. by apply list_elem_of_fmap_2.
Qed.

Lemma moving_contents i0 v v' j : moving i0 v -> crash v v' -> durable w j -> contents v' j = contents w j.
Proof.
  intros M Hc Hj. pose proof (mv_inodes _ _ M) as M1.
  assert (contents v j = contents w j) as Hcv by (by apply same_inodes_contents).
  rewrite (durable_crash v v'), Hcv; [done| |done]. unfold durable. rewrite Hcv. by destruct M1 as (_ & -> & _).
Qed.

Lemma left_tables i0 v v' q rs :
  moving i0 v -> crash v v' -> (q, rs) ∈ left_of v' ->
  exists j, dir v' !! table_path st q = Some j /\ is_table rs (contents v' j).
Proof using Hrun Hcr Hlayers.
  intros M Hc Hin. unfold left_of in Hin. rewrite list_elem_of_filter in Hin. destruct Hin as [[j Hj] Hin]. cbn [fst] in Hj.
  destruct (run_table q rs) as (j' & H1 & H2 & H3 & H4); [by right|].
  exists j. split; [done|]. assert (j = j') as ->; [|by rewrite (moving_contents i0 v)].
  destruct (mv_names _ _ M _ _ (crash_named _ _ _ _ Hc Hj)) as [[?|?]|[Hbad _]]; [congruence..|].
  by destruct (tails_not_target q (list_elem_of_fmap_2 fst _ _ Hin)).
Qed.

Lemma run_canon : rows_canon lm.*2.
Proof using Hrun Hlayers.
  pose proof (dk_canon _ _ _ _ _ (rn_disk _ _ _ _ _ _ _ Hrun)) as Hc. cbn [extra_layer app] in Hc.
  rewrite Hlayers in Hc. eapply rows_canon_sub; [|exact Hc]. rewrite !fmap_app.
  apply sublist_inserts_l, sublist_inserts_r. done.
Qed.

Lemma left_canon w' : rows_canon (left_of w').*2.
Proof using Hrun Hlayers.
  eapply rows_canon_sub; [|exact run_canon]. cbn [fmap list_fmap]. apply sublist_cons, sublist_map, left_sub.
Qed.

(** The run with a table [x] under its newest name, and what is left of the others. *)
Lemma left_mid i0 v v' j x :
  moving i0 v -> crash v v' -> dir v' !! target = Some j -> is_table x (contents v' j) ->
  Forall (fun y : row => entry_ok y.2) x ->
  dir_rep v' (options_ st) (lb ++ ((q0, x) :: left_of v') ++ la) /\
  dir v' !! log_path (options_ st) = Some (g_fd g).
Proof using Hrun Hcr Hlayers.
  intros M Hc Hj Hx Hcan. apply (dir_rep_mid i0 v v'); try done.
  - apply sublist_skip, sublist_map, left_sub.
  - unfold rows_canon. cbn [fmap list_fmap snd concat]. apply Forall_app. split; [done|]. apply left_canon.
  - intros q rs [[= -> ->]|Hin]%elem_of_cons; [by exists j|by eapply left_tables].
  - intros q j' Hq Hj'. cbn [fmap list_fmap fst] in *. apply elem_of_cons in Hq as [->|Hq]; [by left|right].
    by eapply left_in.
Qed.

Lemma target_old i0 : dir w !! target = Some i0 -> i0 <> i.
Proof using Hrun Hcr.
  intros H0 ->. destruct (running_creates _ _ _ _ _ _ _ _ _ _ Hrun temp_in Hcr) as (D & _).
  apply (table_path_not_temp st q0 temp temp_in). eapply (dk_inj _ _ _ _ _ D _ _ i); left; [|done].
  rewrite (cr_dir _ _ _ _ Hcr). apply lookup_insert_eq.
Qed.

(** An empty merge is one of tables that hold nothing. *)
Lemma empty_run ls k : kept k -> out = [] -> ls `sublist_of` lm -> first_of ls.*2 k = first_of lm.*2 k.
Proof using Hout.
  intros Hk Ho Hls. assert (first_of lm.*2 k = None) as Hn.
  { unfold kept in Hk. rewrite <- (Hout k), Ho in Hk. by symmetry. }
  rewrite Hn. eapply first_of_sub; [by apply sublist_map|done].
Qed.

(** Under its newest name, what is left of the run answers as the run did. *)
Lemma newest_left i0 v v' k :
  kept k -> dir w !! target = Some i0 -> moving i0 v -> crash v v' -> dir v' !! target = Some i0 ->
  first_of ((q0, r0) :: left_of v').*2 k = first_of lm.*2 k.
Proof using Hrun Hcr Hlayers Hout.
  intros Hd Hi0 Hm Hc Hj. destruct (mv_phase _ _ Hm) as [(Ht & _)|[[Ha Hb]|Ho]].
  - unfold left_of. rewrite filter_full; [done|]. apply Forall_forall. intros [q rs] Hin. cbn [fst].
    destruct (run_table q rs) as (j & G1 & G2 & _); [by right|].
    destruct (Ht (table_path st q) j) as [? ?]; [|done|done|exists j; by apply (crash_stable v)].
    apply list_elem_of_fmap_2, (list_elem_of_fmap_2 fst _ _ Hin).
  - rewrite (crash_stable v v' target i Hc Ha Hb) in Hj. injection Hj as Hj.
    by destruct (target_old i0 Hi0).
  - apply empty_run; [done|done|]. apply sublist_skip, left_sub.
Qed.

(** Whatever a crash leaves reads as before, but for the keys that were dropped. *)
Lemma moving_crash i0 v v' :
  dir w !! target = Some i0 -> dir_synced w !! target = Some i0 -> moving i0 v -> crash v v' ->
  exists layers, dir_rep v' (options_ st) layers /\ dir v' !! log_path (options_ st) = Some (g_fd g) /\
    forall k, spared k -> first_of layers.*2 k = first_of (g_layers g).*2 k.
Proof using Hrun Hcr Hlayers Hdur Htab Hout.
  clear Hdrop. intros Hi0 Hi0' Hm Hc.
  assert (forall mid, (forall k, kept k -> first_of mid.*2 k = first_of lm.*2 k) ->
    dir_rep v' (options_ st) (lb ++ mid ++ la) /\ dir v' !! log_path (options_ st) = Some (g_fd g) ->
    exists layers, dir_rep v' (options_ st) layers /\ dir v' !! log_path (options_ st) = Some (g_fd g) /\
      forall k, spared k -> first_of layers.*2 k = first_of (g_layers g).*2 k) as Hgo.
  { intros mid H5 [Hrep Hlog]. exists (lb ++ mid ++ la). split_and!; [done|done|].
    intros k [[e He]|Hk]; rewrite Hlayers, !fmap_app, !first_of_app; [by rewrite He|by rewrite H5]. }
  destruct (run_table q0 r0) as (j0 & H1 & _ & H3 & H4); [by left|]. assert (j0 = i0) as -> by congruence.
  assert (Forall (fun x : row => entry_ok x.2) r0) as Hr0.
  { pose proof run_canon as H. unfold rows_canon in H. cbn in H. by apply Forall_app in H as [? _]. }
  destruct (dir v' !! target) as [j|] eqn:Hj.
  - assert (j = i \/ j = i0) as [->| ->].
    { destruct (mv_names _ _ Hm _ _ (crash_named _ _ _ _ Hc Hj)) as [[?|?]|[_ ->]]; [right; congruence..|by left]. }
    + apply (Hgo ((q0, out) :: left_of v')); [by intros k; apply covers_left|].
      apply (left_mid i0 v v' i out); auto; [by rewrite (moving_contents i0 v)|].
      destruct Htab as (_ & Hs & _). eapply (merged_canon out lm.*2 d now); [done|apply run_canon|done].
    + apply (Hgo ((q0, r0) :: left_of v')); [intros k Hk; by apply (newest_left i0 v)|].
      apply (left_mid i0 v v' i0 r0); auto. by rewrite (moving_contents i0 v).
  - apply (Hgo (left_of v')).
    + intros k Hk. apply empty_run; [done| |apply sublist_cons, left_sub].
      destruct (mv_phase _ _ Hm) as [(_ & Ha & Hb)|[[Ha Hb]|Ho]]; [..|done];
        destruct (crash_dir v v' target Hc); congruence.
    + apply (dir_rep_mid i0 v v'); auto.
      * cbn [fmap list_fmap]. apply sublist_cons, sublist_map, left_sub.
      * apply left_canon.
      * intros q rs. by apply (left_tables i0 v).
      * intros q j Hq Hjq. cbn [fmap list_fmap fst] in *. apply elem_of_cons in Hq as [->|Hq]; [congruence|].
        by eapply left_in.
Qed.

Lemma moving_survives i0 v :
  dir w !! target = Some i0 -> dir_synced w !! target = Some i0 -> moving i0 v ->
  survives_on spared (options_ st) V0 ws s T v.
Proof using Hrun Hcr Hlayers Hdur Htab Hout.
  intros H1 H2 Hm. destruct (running_creates _ _ _ _ _ _ _ _ _ _ Hrun temp_in Hcr) as (_ & _ & Hc & Hl).
  apply (survives_dir spared V0 ws s T v _ g); [|apply Hrun|apply Hrun|..].
  - intros v'. by apply (moving_crash i0).
  - unfold log_durable. destruct (mv_inodes _ _ Hm) as (_ & -> & _). exact Hl.
  - by rewrite (same_inodes_contents w v) by apply Hm.
Qed.

(** From one moment of the replacement to the next. *)
Lemma moving_later i0 v v1 :
  moving i0 v -> same_inodes v v1 -> (forall p j, named v1 p j -> named v p j) ->
  (forall p j, p <> target -> p ∉ tails -> p <> temp -> dir v !! p = Some j -> dir_synced v !! p = Some j ->
     dir v1 !! p = Some j /\ dir_synced v1 !! p = Some j) ->
  dir v1 !! target = Some i /\ dir_synced v1 !! target = Some i \/ out = [] ->
  moving i0 v1.
Proof.
  intros [M1 M2 M3 M4 _] H1 H2 H3 H4. constructor; auto.
  - by etransitivity.
  - intros p j Hp Ht Hq Hw Hs. destruct (M4 p j Hp Ht Hq Hw Hs). auto.
Qed.

Lemma moving_same i0 v v1 : same_files v v1 -> moving i0 v -> moving i0 v1.
Proof.
  intros Hw [M1 M2 M3 M4 M5]. pose proof Hw as (Hd & Hs & _).
  assert (forall p j, named v1 p j -> named v p j) as Hn by (intros p j; unfold named; by rewrite Hd, Hs).
  constructor; rewrite ?Hd, ?Hs; auto. etransitivity; [done|by apply same_files_inodes].
Qed.

(** The rename. *)
Lemma moving_renamed i0 w1 :
  dir w !! target = Some i0 -> dir_synced w !! target = Some i0 ->
  dir w1 = <[target := i]> (delete temp (dir w)) -> dir_synced w1 = dir_synced w -> same_inodes w w1 ->
  moving i0 w1.
Proof using Hrun Hcr Hlayers.
  intros H1 H2 Hd Hs Hi. destruct (running_creates _ _ _ _ _ _ _ _ _ _ Hrun temp_in Hcr) as (D & Hnew & _).
  assert (forall p j, dir w1 !! p = Some j -> p = target /\ j = i \/ p <> target /\ p <> temp /\ dir w !! p = Some j) as Hl.
  { intros p j. rewrite Hd. destruct (decide (p = target)) as [->|].
    - rewrite lookup_insert_eq. intros [= <-]. auto.
    - rewrite lookup_insert_ne by done. intros [Hrp Hr]%lookup_delete_Some. auto. }
  assert (dir w !! temp = Some i) as Ht by (rewrite (cr_dir _ _ _ _ Hcr); apply lookup_insert_eq).
  constructor; [done|..].
  - intros p j [[?|(_ & _ & ?)]%Hl|Hp]; [by right|by left; left|]. rewrite Hs in Hp. by left; right.
  - intros p [[[-> _]|(_ & Hne & Hp)]%Hl|Hp]; [done|..].
    + destruct Hne. apply (dk_inj _ _ _ _ _ D p temp i); by left.
    + rewrite Hs, (cr_dir_synced _ _ _ _ Hcr) in Hp.
      assert (i < next_ino w0)%nat; [|lia]. eapply (dk_bound _ _ _ _ _ (rn_disk _ _ _ _ _ _ _ Hrun)). by right.
  - intros p j Hp _ Hq Hw Hsy. rewrite Hd, Hs, lookup_insert_ne, lookup_delete_ne by auto. auto.
  - left. split_and!; [|by rewrite Hd, lookup_insert_eq|by rewrite Hs].
    intros p j Hp Hw Hsy. rewrite Hd, Hs. split; [|done]. rewrite lookup_insert_ne, lookup_delete_ne; [done|..].
    + intros <-. apply list_elem_of_fmap in Hp as (q & Hq & _). by apply (table_path_not_temp st q temp temp_in).
    + intros <-. apply list_elem_of_fmap in Hp as (q & Hq & Hin). by apply (tails_not_target q Hin).
Qed.

Context (E : env) (Hco : crash_only E) (tb tm ta : list Sstable) (dn : Z).
Context (Hstack : sstables_ st = tb ++ tm ++ ta) (Hlb : length tb = length lb) (Hlm : length tm = length lm).
Context (Hlong : (kCompactionTrigger <= length tm)%nat).

Definition replace_post (r : res (Z * Store)) (w' : world) : Prop :=
  match r with
  | Ret (_, st') => memtable_ st' = memtable_ st /\ options_ st' = options_ st /\
      next_sequence_ st' = next_sequence_ st /\
      forall T', T <= T' -> now <= T' -> running V0 ws s T' w' st' merged_ghost
  | Throw _ => False
  | Dead => (forall T', T <= T' -> now <= T' -> survives (options_ st) V0 ws s T' w') \/
      d = true /\ dir w' !! target = Some i /\ (exists p j, p ∈ tails /\ named w' p j) /\
      survives_on spared (options_ st) V0 ws s T w'
  end.

Lemma run_paths : path_ <$> tm = target :: tails /\
  (path_ <$> tb) ++ (path_ <$> ta) = table_path st <$> (lb.*1 ++ la.*1).
Proof using Hrun Hlayers Hstack Hlb Hlm.
  pose proof (rn_paths _ _ _ _ _ _ _ Hrun) as H. rewrite Hstack, Hlayers, !fmap_app in H.
  apply app_inj_1 in H as [H1 H]; [|by rewrite !length_fmap]. apply app_inj_1 in H as [H2 H3]; [|by rewrite !length_fmap].
  split; [done|]. by rewrite H1, H3, fmap_app.
Qed.

(** The store with [ts] in the place of the run. *)
Lemma replaced_running v ts n :
  renamed temp target tails i stays w v -> store_inv v st (lb ++ lm ++ la).*2 ->
  (forall p, p ∈ temps st -> dir v !! p <> Some i) ->
  Forall2 (table_rep v) ts (merged_layer q0 out).*2 -> path_ <$> ts = table_path st <$> (merged_layer q0 out).*1 ->
  (forall x, x ∈ ts -> fd_ x = i) ->
  replace_post (Ret (n, mkStore (memtable_ st) (tb ++ ts ++ ta) (options_ st) (next_sequence_ st) (swept_keys_ st)
    (u64 (compactions_ st + 1)) (flush_failed_ st) (wal_ st))) v.
Proof using Hrun Hcr Hlayers Hdur Htab Hout Hdrop Hstack Hlb Hlm Hlong.
  intros M I Htemps H2 Hps Hfds. split_and!; [done|done|done|]. intros T' HT Hn.
  destruct run_paths as [Hpm Hpr]. rewrite fmap_app in Hpr. apply app_inj_1 in Hpr as [Hpb Hpa]; [|by rewrite !length_fmap].
  destruct (inv_creates w0 w st (g_layers g).*2 temp i (rn_inv _ _ _ _ _ _ _ Hrun) temp_in Hcr) as [I1 Hfree].
  apply (merged_running v _ T' M); try done.
  - cbn [sstables_ merged_ghost g_layers]. by rewrite !fmap_app, Hps, Hpb, Hpa.
  - cbn [merged_ghost g_layers]. rewrite !fmap_app in *.
    apply (inv_run_replaced st tb tm ta lb.*2 lm.*2 la.*2 target i); rewrite ?length_fmap; auto.
    + by rewrite Hpm.
    + unfold rows_canon. rewrite merged_layer_rows. destruct Htab as (_ & Hs & _).
      eapply (merged_canon out lm.*2 d now); [done|apply run_canon|done].
    + intros x Hx. split; [auto|]. apply (list_elem_of_fmap_2 path_) in Hx. rewrite Hps in Hx.
      destruct out; [by apply elem_of_nil in Hx|]. by apply list_elem_of_singleton in Hx.
    + apply Forall2_length in H2. rewrite H2. destruct out; cbn; lia.
    + eapply Nat.lt_le_trans; [eapply (si_dir _ _ _ I1 temp)|].
      * rewrite (cr_dir _ _ _ _ Hcr). apply lookup_insert_eq.
      * destruct (re_inodes _ _ _ _ _ _ _ M) as (_ & _ & ->). done.
Qed.

Lemma renamed_same b v v1 : same_files v v1 -> renamed temp target tails i b w v -> renamed temp target tails i b w v1.
Proof.
  intros Hw [M1 M2 M3 M4 M5 M6]. pose proof Hw as (Hd & Hs & _).
  constructor; rewrite ?Hd, ?Hs; auto. etransitivity; [done|by apply same_files_inodes].
Qed.

(** All names of the older inputs are gone for good: whatever a crash leaves reads as the
    merged table does. *)
Lemma gone_survives i0 v T' :
  moving i0 v -> (forall p j, p ∈ tails -> ~ named v p j) -> (forall j, named v target j -> j = i) ->
  dir v !! target = Some i /\ dir_synced v !! target = Some i \/ out = [] ->
  T <= T' -> now <= T' -> survives (options_ st) V0 ws s T' v.
Proof using Hrun Hcr Hlayers Hdur Htab Hout Hdrop.
  intros Hm Hgone Htgt Hph HT Hn. destruct (running_creates _ _ _ _ _ _ _ _ _ _ Hrun temp_in Hcr) as (_ & _ & Hc & Hl).
  apply (survives_on_all (fun _ => True)); [done|].
  apply (survives_dir _ V0 ws s T' v _ merged_ghost); [|apply Hrun|by apply merged_history|..].
  2: { unfold log_durable. destruct (mv_inodes _ _ Hm) as (_ & -> & _). exact Hl. }
  2: { cbn. by rewrite (same_inodes_contents w v) by apply Hm. }
  intros v' Hcr'. assert (forall q j, q ∈ lm.*1 -> dir v' !! table_path st q = Some j -> q = q0 /\ j = i) as Hall.
  { intros q j Hq Hj. pose proof (crash_named _ _ _ _ Hcr' Hj) as Hnm. cbn [fmap list_fmap fst] in Hq.
    apply elem_of_cons in Hq as [->|Hq]; [by auto|]. destruct (Hgone (table_path st q) j); [|done].
    by apply list_elem_of_fmap_2. }
  assert (rows_canon [out]) as Hcan.
  { unfold rows_canon. cbn. rewrite app_nil_r. destruct Htab as (_ & Hs & _).
    eapply (merged_canon out lm.*2 d now); [done|apply run_canon|done]. }
  destruct (dir v' !! target) as [j|] eqn:Hj.
  - destruct (Hall q0 j) as [_ ->]; [by left|done|].
    exists (lb ++ [(q0, out)] ++ la). destruct (dir_rep_mid i0 v v' [(q0, out)]) as [Hrep Hlog]; auto.
    + apply sublist_skip, sublist_nil_l.
    + intros q rs [= -> ->]%list_elem_of_singleton. exists i. split; [done|]. by rewrite (moving_contents i0 v).
    + intros q j' Hq Hj'. destruct (Hall q j' Hq Hj') as [-> _]. by left.
    + split_and!; [done|done|]. intros k. cbn [merged_ghost g_layers]. rewrite !fmap_app, !first_of_app.
      rewrite first_of_layer. cbn. by destruct (sm_find k out).
  - assert (out = []) as Ho.
    { destruct Hph as [[Ha Hb]|?]; [|done]. by rewrite (crash_stable v v' target i Hcr' Ha Hb) in Hj. }
    exists (lb ++ [] ++ la). destruct (dir_rep_mid i0 v v' []) as [Hrep Hlog]; auto.
    + apply sublist_nil_l.
    + constructor.
    + by intros q rs ?%elem_of_nil.
    + intros q j' Hq Hj'. destruct (Hall q j' Hq Hj') as [-> _]. congruence.
    + split_and!; [done|done|]. intros k. cbn [merged_ghost g_layers]. by rewrite Ho.
Qed.

(** A death while the run is replaced: excused only when the merge dropped entries and
    the merged table stands beside older inputs. *)
Lemma moving_dead i0 v :
  dir w !! target = Some i0 -> dir_synced w !! target = Some i0 -> moving i0 v ->
  dir v !! target = Some i /\ (exists p j, p ∈ tails /\ named v p j) \/
  (forall p j, p ∈ tails -> ~ named v p j) /\ (forall j, named v target j -> j = i) /\
    (dir v !! target = Some i /\ dir_synced v !! target = Some i \/ out = []) ->
  replace_post Dead v.
Proof using Hrun Hcr Hlayers Hdur Htab Hout Hdrop.
  intros H0 H0' Hm Hcase. cbn [replace_post].
  destruct Hcase as [[Ht Hex]|(Hgone & Htgt & Hph)]; [|left; intros; by eapply gone_survives].
  pose proof (moving_survives i0 v H0 H0' Hm) as Hsv.
  assert (d = true \/ d = false) as [Hd|Hd] by (destruct d; auto); [by right|left]. intros T' HT _.
  eapply survives_later; [exact HT|]. eapply survives_on_all; [|done]. intros k. right. by apply kept_all.
Qed.

(** The merged table has its name for good. *)
Lemma moved_dead i0 v :
  dir w !! target = Some i0 -> dir_synced w !! target = Some i0 -> moving i0 v ->
  dir v !! target = Some i -> dir_synced v !! target = Some i -> replace_post Dead v.
Proof using Hrun Hcr Hlayers Hdur Htab Hout Hdrop.
  intros H0 H0' Hm Hd Hs. apply (moving_dead i0); [done..|].
  destruct (decide (Exists (fun p => is_Some (dir v !! p) \/ is_Some (dir_synced v !! p)) tails)) as [Hex|Hno].
  - left. split; [done|]. apply Exists_exists in Hex as (p & Hp & [[j Hj]|[j Hj]]); exists p, j; split; auto;
      [by left|by right].
  - right. split_and!; [|intros j [?|?]; congruence|by left]. intros p j Hp Hj. apply Hno, Exists_exists.
    exists p. split; [done|]. destruct Hj; [left|right]; by exists j.
Qed.

(** Names that were removed for good stay away. *)
Lemma renamed_gone b v v1 :
  renamed temp target tails i b w v -> (forall p j, named v1 p j -> named v p j) ->
  (forall p j, p ∈ tails -> ~ named v1 p j) /\ (forall j, named v1 target j -> j = i).
Proof.
  intros [M1 M2 M3 M4 M5 M6] Hn. split.
  - intros p j Hp Hj. specialize (M4 p Hp). destruct (Hn p j Hj); congruence.
  - intros j Hj. destruct (Hn target j Hj); destruct b; congruence.
Qed.

(** A merged table that holds nothing is dropped. *)
Lemma wp_drop_merged i0 v n :
  out = [] -> dir w !! target = Some i0 -> dir_synced w !! target = Some i0 -> moving i0 v ->
  renamed temp target tails i true w v -> store_inv v st (lb ++ lm ++ la).*2 ->
  (forall p, p ∈ temps st -> dir v !! p <> Some i) ->
  wp (tables' ← (_ ← unlink E target; _ ← fsync_dir E; mret (tb ++ ta));
      mret (n, mkStore (memtable_ st) tables' (options_ st) (next_sequence_ st) (swept_keys_ st)
          (u64 (compactions_ st + 1)) (flush_failed_ st) (wal_ st)))
    replace_post v.
Proof using All.
  intros Ho H0 H0' Hm M I Htemps. pose proof M as [M1 M2 M3 M4 M5 M6].
  assert (forall v1, moving i0 v1 -> (forall p j, named v1 p j -> named v p j) -> replace_post Dead v1) as HD.
  { intros v1 Hm1 Hn. apply (moving_dead i0); [done..|]. right.
    destruct (renamed_gone true v v1 M Hn). auto. }
  apply wp_bind, wp_bind, co_unlink; [done| |by apply HD]. intros b v1 Hd1 Hs1 Hi1.
  assert (forall p j, named v1 p j -> named v p j) as Hn1.
  { intros p j [Hp|Hp]; [|right; by rewrite <- Hs1]. rewrite Hd1 in Hp. apply lookup_delete_Some in Hp as [_ Hp]. by left. }
  assert (moving i0 v1) as Hm1.
  { apply (moving_later i0 v); [done|done|done| |by right].
    intros p j Hp _ _ Hv Hsv. by rewrite Hd1, Hs1, lookup_delete_ne. }
  apply wp_bind, co_fsync_dir; [done| |].
  2: { intros v2 Hv2. apply HD; [by apply (moving_same i0 v1)|]. intros p j Hp. apply Hn1.
       pose proof Hv2 as (Hdv & Hsv & _). unfold named in *. by rewrite Hdv, Hsv in Hp. }
  intros v2 Hd2 Hs2 Hi2. apply wp_ret, wp_ret. change (tb ++ ta) with (tb ++ [] ++ ta).
  assert (dir v2 ⊆ dir v) as Hsub by (rewrite Hd2, Hd1; apply delete_subseteq).
  apply replaced_running; rewrite ?Ho; try done.
  - constructor; rewrite ?Hd2, ?Hd1; auto.
    + do 2 (etransitivity; [done|]). done.
    + by rewrite Hs2, Hd1.
    + rewrite lookup_delete_None. by right.
    + intros p Hp. rewrite lookup_delete_None. right. auto.
    + apply lookup_delete_eq.
    + intros p Hp Hpt Hq. rewrite lookup_delete_ne by auto. auto.
  - apply (inv_names v); [done| |done]. by etransitivity.
  - intros p Hp Hpi. apply (Htemps p Hp). by eapply lookup_weaken.
  - by intros x ?%elem_of_nil.
Qed.

(** The last step: the merged table is opened, or dropped when it holds nothing. *)
Lemma wp_reopen_run i0 v :
  dir w !! target = Some i0 -> dir_synced w !! target = Some i0 -> moving i0 v ->
  renamed temp target tails i true w v -> store_inv v st (lb ++ lm ++ la).*2 ->
  wp (tables' ←
    (if 0 <? zlen out then
       t ← Sstable_open E target (use_bloom (options_ st));
       mret (tb ++ t :: ta)
     else
       _ ← unlink E target;
       _ ← fsync_dir E;
       mret (tb ++ ta));
     mret (Z.of_nat (length tm) - (if 0 <? zlen out then 1 else 0),
        mkStore (memtable_ st) tables' (options_ st) (next_sequence_ st) (swept_keys_ st)
          (u64 (compactions_ st + 1)) (flush_failed_ st) (wal_ st)))
    replace_post v.
Proof using All.
  intros H0 H0' Hm M I. pose proof M as [M1 M2 M3 M4 M5 M6].
  assert (forall p, p ∈ temps st -> dir v !! p <> Some i) as Htemps.
  { intros p Hp Hpi. apply (table_path_not_temp st q0 p Hp). by apply (si_inj _ _ _ I p target i). }
  destruct (Z.ltb_spec 0 (zlen out)) as [Hpos|Hzero].
  - apply wp_bind, wp_bind, (co_Sstable_open E Hco target _ i out); [done| |..].
    + by rewrite (same_inodes_contents w v).
    + intros t v1 Hv1 Hrep Hft Hpt. apply wp_ret, wp_ret. pose proof (renamed_same _ _ _ Hv1 M) as Mv.
      change (tb ++ t :: ta) with (tb ++ [t] ++ ta). apply replaced_running.
      * by destruct out.
      * by apply (inv_same v).
      * intros p Hp. rewrite <- Hv1. auto.
      * destruct out; [done|]. constructor; [done|constructor].
      * destruct out; [done|]. cbn. by rewrite Hpt.
      * by intros x ->%list_elem_of_singleton.
    + intros v1 Hv1. pose proof Hv1 as (Hdv & Hsv & _).
      apply (moved_dead i0); [done|done|by apply (moving_same i0 v)|..]; rewrite ?Hdv, ?Hsv, ?M2; done.
  - assert (out = []) as Ho by (destruct out; [done|rewrite zlen_cons in Hzero; pose proof (zlen_nonneg l); lia]).
    by apply (wp_drop_merged i0).
Qed.

(** The names of the older inputs go, for good. *)
Lemma wp_unlink_run {A} i0 w1 (k : M A) (Q : res A -> world -> Prop) :
  dir w !! target = Some i0 -> dir_synced w !! target = Some i0 -> moving i0 w1 ->
  dir w1 = <[target := i]> (delete temp (dir w)) -> dir_synced w1 = dir w1 -> target ∉ tails ->
  (forall v, moving i0 v -> dir v !! target = Some i -> dir_synced v !! target = Some i -> Q Dead v) ->
  (forall v, moving i0 v -> renamed temp target tails i true w v -> same_inodes w1 v -> dir v ⊆ dir w1 -> wp k Q v) ->
  wp (_ ← mapM_ (unlink E) tails; _ ← fsync_dir E; k) Q w1.
Proof using Hco.
  intros H0 H0' M1 Hd1 Hs1 Hnot HD Hk.
  assert (dir w1 !! target = Some i) as Ht1 by (rewrite Hd1; apply lookup_insert_eq).
  assert (dir w1 !! temp = None) as Hn1.
  { rewrite Hd1, lookup_insert_ne, lookup_delete_eq; [done|]. apply not_eq_sym, table_path_not_temp, temp_in. }
  apply wp_bind. eapply wp_mono; [apply (wp_unlink_tables E Hco tails w1)|].
  intros r w2 [(Hi2 & Hs2 & Hsub2 & Hkeep2) Hr].
  assert (moving i0 w2) as M2.
  { apply (moving_later i0 w1); [done|done|..].
    - intros p j [Hp|Hp]; [left; by eapply lookup_weaken|right; by rewrite <- Hs2].
    - intros p j Hp Hq _ Hw Hs. by rewrite Hkeep2, Hs2.
    - left. by rewrite Hkeep2, Hs2, Hs1. }
  assert (dir w2 !! target = Some i) as Ht2 by (by rewrite Hkeep2).
  assert (dir_synced w2 !! target = Some i) as Ht2' by (by rewrite Hs2, Hs1).
  destruct r as [gone|e|]; [|done|by apply HD]. destruct Hr as [_ Hgone].
  apply wp_bind, co_fsync_dir; [done| |].
  2: { intros v Hv. pose proof Hv as (Hdv & Hsv & _). apply HD; [by apply (moving_same i0 w2)|..];
       by rewrite ?Hdv, ?Hsv. }
  intros w3 Hd3 Hs3 Hi3. apply Hk.
  - apply (moving_later i0 w2); [done|done|..].
    + intros p j [Hp|Hp]; left; [by rewrite <- Hd3|by rewrite <- Hs3].
    + intros p j _ _ _ Hw _. by rewrite Hd3, Hs3.
    + left. by rewrite Hd3, Hs3, Hkeep2.
  - constructor; rewrite ?Hd3; auto.
    + do 2 (etransitivity; [|done]). apply M1.
    + destruct (dir w2 !! temp) as [j|] eqn:Hj; [|done]. by rewrite (lookup_weaken _ _ _ _ Hj Hsub2) in Hn1.
    + intros p Hp Hpt Hq. by rewrite Hkeep2, Hd1, lookup_insert_ne, lookup_delete_ne.
  - by etransitivity.
  - by rewrite Hd3.
Qed.

(** A run has more than one table. *)
Lemma older_input : exists p j, p ∈ tails /\ dir w !! p = Some j.
Proof using Hrun Hcr Hlayers Hlm Hlong.
  assert (exists q rs, (q, rs) ∈ lt) as (q & rs & Hin).
  { clear - Hlm Hlong. unfold kCompactionTrigger in Hlong. cbn in Hlm.
    destruct lt as [|[q rs] l]; [cbn in Hlm; lia|]. exists q, rs. by left. }
  destruct (run_table q rs) as (j & Hj & _); [by right|].
  exists (table_path st q), j. split; [|done]. apply list_elem_of_fmap_2, (list_elem_of_fmap_2 fst _ _ Hin).
Qed.

(** The run is replaced. *)
Lemma wp_replace_run_co :
  wp (replace_run E st (length tb) (length tm) (path_ <$> tm) temp (mkCompactionResult true (zlen out) dn))
    replace_post w.
Proof using All.
  destruct (running_creates _ _ _ _ _ _ _ _ _ _ Hrun temp_in Hcr) as (D & _ & Hc & Hl).
  destruct (inv_creates w0 w st (g_layers g).*2 temp i (rn_inv _ _ _ _ _ _ _ Hrun) temp_in Hcr) as [I0 _].
  destruct (run_table q0 r0) as (i0 & H0 & H0' & _); [by left|]. destruct run_paths as [Hpm _].
  assert (dir w !! temp = Some i) as Ht by (rewrite (cr_dir _ _ _ _ Hcr); apply lookup_insert_eq).
  assert (target ∉ temps st) as Hnt by (intros Hin; by apply (table_path_not_temp st q0 target Hin)).
  assert (target ∉ tails) as Hnot by (intros (q & Hq & Hin)%list_elem_of_fmap; by apply (tails_not_target q Hin)).
  unfold replace_run. rewrite Hpm. cbn [head default tail written].
  apply wp_bind, (co_rename E Hco temp target i); [done| |].
  2: { left. intros T' HT _. eapply survives_later; [exact HT|].
       apply (survives_rest V0 ws s T w _ g); auto; apply Hrun. }
  intros w1 Hd1 Hs1 Hi1. cbn [negb]. pose proof (moving_renamed i0 w1 H0 H0' Hd1 Hs1 Hi1) as M1.
  destruct (inv_rename w w1 st (g_layers g).*2 temp target i) as [I1 Htemps1]; auto using temp_in.
  apply wp_bind, co_fsync_dir; [done| |].
  2: { intros v Hv. pose proof Hv as (Hdv & Hsv & _). apply (moving_dead i0); [done|done|by apply (moving_same i0 w1)|].
       left. rewrite Hdv, Hd1. split; [apply lookup_insert_eq|]. destruct (older_input) as (p & j & Hp & Hj).
       exists p, j. split; [done|]. left. rewrite Hdv, Hd1, lookup_insert_ne, lookup_delete_ne; [done|..].
       - intros <-. apply list_elem_of_fmap in Hp as (q & Hq & _). by apply (table_path_not_temp st q temp temp_in).
       - intros <-. by apply Hnot. }
  intros w2 Hd2 Hs2 Hi2. cbn [negb].
  rewrite Hstack, take_app_length, app_assoc, <- length_app, drop_app_length.
  apply (wp_unlink_run i0 w2); auto; try congruence.
  - apply (moving_later i0 w1); [done|done|..].
    + intros p j [Hp|Hp]; left; [by rewrite <- Hd2|by rewrite <- Hs2].
    + intros p j _ _ _ Hw _. by rewrite Hd2, Hs2.
    + left. rewrite Hd2, Hs2, Hd1. split; apply lookup_insert_eq.
  - intros v. by eapply moved_dead.
  - intros v Mv Hren Hiv Hsub. apply (wp_reopen_run i0 v); auto. rewrite <- Hlayers.
    apply (inv_names w1); [done|by etransitivity|by rewrite <- Hd2].
Qed.
End replacing.

(** ** A round of [maybe_compact] *)

(** The merge [maybe_compact] makes of the oldest run: the sizes of the tables, read from
    [w] on, choose the run of [inputs]; the merge leaves out what is dead at the time
    [now], and has written its table, to the temporary name, when it returns in [w2]. *)
Definition merges_oldest (E : env) (st : Store) (w : world) (inputs : list Sstable) (now : Z) (w2 : world) : Prop :=
  let tables := sstables_ st in
  exists sizes w0 w1 b len merged,
    mapM_ (fun t => file_size E (path_ t)) tables w = (Ret sizes, w0) /\
    find_run (S (length tables)) sizes (length tables) = Some (b, len) /\
    (b + len = length tables)%nat /\ inputs = take len (drop b tables) /\
    now_ms E w0 = (Ret now, w1) /\
    compact E inputs true now (in_dir (o_dir (options_ st)) kCompactTemp) (bloom_bits_per_key (options_ st)) w1 =
      (Ret merged, w2) /\
    ok merged = true.

(** Half of its inputs replaced: in [w'] the newest name of the run leads to the very table
    that merge, made from [w] on, has written, and some older input still has its name. *)
Definition half_replaced (E : env) (st : Store) (w : world) (now : Z) (w' : world) : Prop :=
  exists inputs w2 i, merges_oldest E st w inputs now w2 /\
    dir w2 !! in_dir (o_dir (options_ st)) kCompactTemp = Some i /\
    (exists target, head (path_ <$> inputs) = Some target /\ dir w' !! target = Some i) /\
    exists p j, p ∈ tail (path_ <$> inputs) /\ named w' p j.

(** The round of [maybe_compact] that began in [w] died in [w'] with that.  Entries the
    merge dropped can then be uncovered. *)
Definition torn_merge (E : env) (st : Store) (w : world) (now : Z) (w' : world) : Prop :=
  maybe_compact E st w = (Dead, w') /\ half_replaced E st w now w'.

(** The newest entry of the key in the tables is not one a merge drops. *)
Definition live_in (layers : list (list row)) (now : Z) (k : bytes) : Prop :=
  forall e, first_of layers k = Some e -> obsolete now e = false.

Lemma survives_on_mono (K K' : bytes -> Prop) o V0 ws s T w :
  (forall k, K' k -> K k) -> survives_on K o V0 ws s T w -> survives_on K' o V0 ws s T w.
Proof.
  intros HK H w' Hcr. destruct (H w' Hcr) as (layers & log & tail & fd & ? & ? & ? & ? & ? & Hk).
  exists layers, log, tail, fd. by split_and!; auto.
Qed.

(** The merge of the oldest run spares the live keys of the stack. *)
Lemma live_spared lb q0 r0 lt now k :
  live_in (lb ++ (q0, r0) :: lt).*2 now k -> spared lb lt q0 r0 true now k.
Proof.
  intros Hl. unfold live_in in Hl. unfold spared, kept. rewrite fmap_app, first_of_app in Hl.
  destruct (first_of lb.*2 k) as [e|]; [by left; exists e|right].
  destruct (first_of ((q0, r0) :: lt).*2 k) as [e|]; [|done].
  unfold mbind, option_bind, keep. by rewrite (Hl e eq_refl).
Qed.

Lemma wp_keep {A} (m : M A) (Q : res A -> world -> Prop) w :
  wp m Q w -> wp m (fun r w' => m w = (r, w') /\ Q r w') w.
Proof. unfold wp. by destruct (m w). Qed.

Section round.
Context (E : env) (Hco : crash_only E).

Lemma wp_sizes_reads tables w :
  wp (mapM_ (fun t => file_size E (path_ t)) tables) (fun r w' => same_files w w' /\
    match r with Throw _ => False | _ => True end) w.
Proof.
  revert w. induction tables as [|t tables IH]; intros w; cbn [mapM_]; [by apply wp_ret|].
  assert (forall n w1, same_files w w1 -> wp (bs ← mapM_ (fun t => file_size E (path_ t)) tables; mret (n :: bs))
    (fun r w' => same_files w w' /\ match r with Throw _ => False | _ => True end) w1) as Hgo.
  { intros n w1 Hw1. apply wp_bind. eapply wp_mono; [apply (IH w1)|]. intros r w2 [Hw2 Hr].
    assert (same_files w w2) by (by etransitivity). destruct r; [by apply wp_ret|done|done]. }
  apply wp_bind, wp_file_size; [intros w1; apply Hgo|]. intros r w1 Hw1 [->| ->] _; [by apply Hgo|done].
Qed.

(** What a round comes to. *)
Definition round_post (V0 : bytes -> option Entry) (ws : list write) (s : nat) (T : Z) (st : Store)
    (g : ghost) (w : world) (r : res (Z * Store)) (w' : world) : Prop :=
  match r with
  | Ret (_, st') => memtable_ st' = memtable_ st /\ options_ st' = options_ st /\
      next_sequence_ st' = next_sequence_ st /\
      forall T', T <= T' -> (forall t, (t <= tick w')%nat -> clock_at E t <= T') ->
        exists g', running V0 ws s T' w' st' g'
  | Throw _ => False
  | Dead => (forall T', T <= T' -> (forall t, (t <= tick w')%nat -> clock_at E t <= T') ->
        survives (options_ st) V0 ws s T' w') \/
      exists now, half_replaced E st w now w' /\
        survives_on (live_in (g_layers g).*2 now) (options_ st) V0 ws s T w'
  end.

Lemma round_idle V0 ws s T st g w n : running V0 ws s T w st g -> round_post V0 ws s T st g w (Ret (n, st)) w.
Proof. intros R. split_and!; [done..|]. intros T' HT _. exists g. by eapply running_later. Qed.

(** The run that was chosen, among the tables and among the layers. *)
Lemma run_of st (layers : list (Z * list row)) b len :
  length (sstables_ st) = length layers -> (b + len <= length layers)%nat -> (kCompactionTrigger <= len)%nat ->
  exists tb ta lb q0 r0 lt la, let tm := take len (drop b (sstables_ st)) in
    sstables_ st = tb ++ tm ++ ta /\ layers = lb ++ ((q0, r0) :: lt) ++ la /\
    length tb = b /\ length tm = len /\ length tb = length lb /\ length tm = length ((q0, r0) :: lt) /\
    (Nat.eqb (b + len) (length (sstables_ st)) = true -> la = []).
Proof.
  intros Hlen Hin Hlong. exists (take b (sstables_ st)), (drop (b + len) (sstables_ st)), (take b layers).
  pose proof (split_run layers b len) as Hls. set (lm := take len (drop b layers)) in Hls.
  assert (length lm = len) as Llm by (unfold lm; rewrite length_take, length_drop; lia).
  destruct lm as [|[q0 r0] lt]; [unfold kCompactionTrigger in Hlong; cbn in Llm; lia|].
  exists q0, r0, lt, (drop (b + len) layers). cbn zeta. rewrite Llm, !length_take, !length_drop.
  split_and!; [apply split_run|done|lia..|]. intros Hl%Nat.eqb_eq. apply drop_ge. lia.
Qed.

(** From the choice of a run on. *)
Lemma wp_merge_run_co V0 ws s T st g wb w b len t :
  running V0 ws s T w st g -> fits (concat (g_layers g).*2) ->
  (b + len <= length (sstables_ st))%nat -> (kCompactionTrigger <= len)%nat -> (t <= tick w)%nat ->
  (exists sizes w0, mapM_ (fun t => file_size E (path_ t)) (sstables_ st) wb = (Ret sizes, w0) /\
     find_run (S (length (sstables_ st))) sizes (length (sstables_ st)) = Some (b, len) /\
     now_ms E w0 = (Ret (clock_at E t), w)) ->
  let inputs := take len (drop b (sstables_ st)) in
  let temp := in_dir (o_dir (options_ st)) kCompactTemp in
  wp (merged ← compact E inputs (Nat.eqb (b + len) (length (sstables_ st))) (clock_at E t) temp
        (bloom_bits_per_key (options_ st));
      if negb (ok merged) then (_ ← unlink E temp; mret (0, st))
      else replace_run E st b len (path_ <$> inputs) temp merged)
    (round_post V0 ws s T st g wb) w.
Proof using Hco.
  intros R Hfits Hin Hlong Ht Hpick inputs temp. pose proof (rn_inv _ _ _ _ _ _ _ R) as I.
  pose proof (Forall2_length _ _ _ (si_tables _ _ _ I)) as Hlen. rewrite length_fmap in Hlen.
  destruct (run_of st (g_layers g) b len Hlen ltac:(lia) Hlong)
    as (tb & ta & lb & q0 & r0 & lt & la & Hts & Hls & Ltb & Ltm & Hlb & Hlm & Hlast). fold inputs in Hts, Ltm, Hlm.
  set (last := Nat.eqb _ _) in *. pose proof (si_tables _ _ _ I) as Htab. rewrite Hts, Hls, !fmap_app in Htab.
  apply Forall2_app_inv in Htab as [_ Htab]; [|by rewrite length_fmap].
  apply Forall2_app_inv in Htab as [Htab _]; [|by rewrite length_fmap].
  assert (temp ∈ temps st) as Htemp by apply temp_in. rewrite Hls, !fmap_app in Hfits.
  apply wp_bind. eapply wp_mono; [apply wp_keep, wp_ticks; [intros w1; apply (sparing_compact E (temps st)); exact Htemp|];
    apply (co_compact E Hco inputs ((q0, r0) :: lt).*2 last (clock_at E t) temp); [done| | |]|].
  - eapply Forall_impl; [eapply run_canon; [exact R|exact Hls]|]. intros x. apply entry_ok_stored.
  - by eapply fits_run.
  - intros x Hx. assert (fd_ x ∈ open_fds st) as Hfd.
    { apply open_fds_table. rewrite Hts, !elem_of_app. by right; left. }
    split; [by apply (si_temps _ _ _ I)|]. apply (si_fds _ _ _ I) in Hfd. lia.
  - intros r w1 [Hcmp [Hr Ht1]]. destruct r as [m|e|]; [|done|].
    + destruct Hr as (i & out & Hok & Hwr & Hcr & Hdur & Hout & Hfind). rewrite Hok. cbn [negb].
      destruct m as [okm wn dn]. cbn in Hok, Hwr. subst okm wn.
      pose proof (wp_replace_run_co V0 ws s T st g w w1 i lb lt la q0 r0 out last (clock_at E t) R Hcr Hls Hdur Hout
        Hfind Hlast E Hco tb inputs ta dn Hts Hlb Hlm ltac:(by rewrite Ltm)) as Hrep.
      rewrite Ltb, Ltm in Hrep. fold temp in Hrep.
      pose proof (logged_replace_run E st b len (path_ <$> inputs) temp (mkCompactionResult true (zlen out) dn) Htemp w1)
        as [Ht2 _]. unfold wp in *.
      destruct (replace_run E st b len _ temp _ w1) as [[[n st']|e|] w2] eqn:Hrun; cbn [fst snd] in *; [|done|].
      * destruct Hrep as (Em & Eo & En & Hrun'). split_and!; [done..|]. intros T' HT Hclk. eexists. apply Hrun'; [done|].
        apply Hclk. lia.
      * destruct Hrep as [Hsv|(Hl & Htgt & Hold & Hsv)]; [left; intros T' HT Hclk; apply Hsv; [done|apply Hclk; lia]|right].
        exists (clock_at E t). destruct (run_paths V0 ws s T st g w lb lt la q0 r0 R Hls tb inputs ta Hts Hlb Hlm) as [Hpm _].
        rewrite Hl in *. split.
        -- destruct Hpick as (sizes & w' & H1 & H2 & H3). exists inputs, w1, i. rewrite Hpm. cbn [head tail].
           split_and!; [|rewrite (cr_dir _ _ _ _ Hcr); apply lookup_insert_eq|by exists (table_path st q0)|done].
           exists sizes, w', w, b, len, (mkCompactionResult true (zlen out) dn).
           split_and!; auto. by apply Nat.eqb_eq.
        -- eapply survives_on_mono; [|exact Hsv]. intros k. rewrite Hls, (Hlast eq_refl), app_nil_r. apply live_spared.
    + left. intros T' HT _. eapply survives_later; [exact HT|]. destruct Hr as [Hw|[i Hcr]].
      * by eapply running_survives, running_same.
      * destruct (running_creates _ _ _ _ _ _ _ _ _ _ R Htemp Hcr) as (D & _ & Hc & Hl).
        apply (survives_rest V0 ws s T w1 _ g); auto; apply R.
Qed.

Lemma wp_maybe_compact_run V0 ws s T st g w :
  running V0 ws s T w st g -> (use_compaction (options_ st) = true -> fits (concat (g_layers g).*2)) ->
  wp (maybe_compact E st) (round_post V0 ws s T st g w) w.
Proof using Hco.
  intros R Hfits. unfold maybe_compact. pose proof (fun n => round_idle V0 ws s T st g w n R) as Hidle.
  destruct (use_compaction (options_ st)) eqn:Huse; cbn [negb]; [|by apply wp_ret].
  case_decide; [by apply wp_ret|]. case_decide; [by apply wp_ret|].
  apply wp_bind. eapply wp_mono; [apply wp_keep, wp_sizes_reads|]. intros r w1 [Hsz [Hw1 Hr]].
  pose proof (running_same _ _ _ _ _ _ _ _ Hw1 R) as R1. destruct r as [sizes|e|]; [|done|].
  2: { left. intros T' HT _. eapply survives_later; [exact HT|]. by eapply running_survives. }
  destruct (find_run _ _ _) as [[b len]|] eqn:Hrun; [|apply wp_ret; by eapply round_idle].
  pose proof (find_run_sound _ _ _ _ _ Hrun) as [Hin Hlong].
  apply wp_bind. eapply wp_mono; [apply wp_keep, (wp_now_ms E (fun r w' => r = Ret (clock_at E (tick w1)) /\ same_files w1 w' /\
    tick w' = S (tick w1))); by auto|]. intros r w2 (Hnow & -> & Hw2 & Ht2).
  pose proof (running_same _ _ _ _ _ _ _ _ Hw2 R1) as R2.
  apply (wp_merge_run_co V0 ws s T st g w w2 b len (tick w1)); auto; [lia|]. by exists sizes, w1.
Qed.
End round.

(** ** Room for a merge *)

(** The bytes under all names of the directory. *)
Definition disk_use (w : world) : Z := map_fold (fun _ i n => zlen (contents w i) + n) 0 (dir w).

Lemma map_fold_names (f : nat -> Z) (ps : list bytes) : forall (m : gmap bytes nat),
  (forall i, 0 <= f i) -> NoDup ps ->
  foldr (fun p n => default 0 (f <$> m !! p) + n) 0 ps <= map_fold (fun _ i n => f i + n) 0 m.
Proof.
  induction ps as [|p ps IH]; intros m Hf Hnd; cbn [foldr].
  - apply (map_fold_weak_ind (fun n _ => 0 <= n)); [lia|]. intros k i m' n _ Hn. specialize (Hf i). lia.
  - apply NoDup_cons in Hnd as [Hp Hnd]. destruct (m !! p) as [i|] eqn:Hi.
    + rewrite (map_fold_delete_L _ _ p i m) by (intros; lia || done). specialize (IH (delete p m) Hf Hnd). cbn.
      assert (foldr (fun p n => default 0 (f <$> m !! p) + n) 0 ps =
        foldr (fun p' n => default 0 (f <$> delete p m !! p') + n) 0 ps) as ->; [|lia].
      clear IH Hnd. induction ps as [|p' ps IH]; [done|]. cbn [foldr]. apply not_elem_of_cons in Hp as [Hne Hp].
      rewrite lookup_delete_ne by auto. f_equal. by apply IH.
    + cbn. by apply IH.
Qed.

Lemma data_rows rs : Forall row_ok rs -> 9 * zlen rs <= zlen (data_of rs).
Proof.
  induction 1 as [|x rs Hx _ IH]; [done|]. rewrite data_of_cons, zlen_app, zlen_cons, zlen_row_buf by done.
  pose proof (zlen_nonneg (row_stamp x)). pose proof (zlen_nonneg x.1). pose proof (zlen_nonneg (value x.2)). lia.
Qed.

(** The rows of the tables are in their files. *)
Lemma layers_use w o layers fd :
  disk w o layers None fd -> NoDup ((fun q => in_dir (o_dir o) (table_name q)) <$> layers.*1) ->
  zlen (data_of (concat layers.*2)) <= disk_use w /\ 9 * zlen (concat layers.*2) <= disk_use w.
Proof.
  intros D Hnd. set (path q := in_dir (o_dir o) (table_name q)) in *.
  pose proof (map_fold_names (fun i => zlen (contents w i)) (path <$> layers.*1) (dir w) (fun i => zlen_nonneg _) Hnd) as Hle.
  change (map_fold _ 0 (dir w)) with (disk_use w) in Hle.
  assert (forall q rs, (q, rs) ∈ layers -> exists i, dir w !! path q = Some i /\ Forall row_ok rs /\
    zlen (data_of rs) <= zlen (contents w i)) as Htab.
  { intros q rs Hin. destruct (dk_table _ _ _ _ _ D q rs Hin) as (i & Hi & _ & _ & Hok & _ & _ & bs & bpk & _ & Himg).
    exists i. split_and!; [done|done|]. rewrite Himg. unfold table_image. rewrite zlen_app.
    match goal with |- _ <= _ + zlen ?x => pose proof (zlen_nonneg x) end. lia. }
  assert (zlen (data_of (concat layers.*2)) <= foldr (fun p n => default 0 ((fun i => zlen (contents w i)) <$> dir w !! p) + n) 0
    (path <$> layers.*1) /\ 9 * zlen (concat layers.*2) <= zlen (data_of (concat layers.*2))) as [H1 H2]; [|lia].
  clear Hle Hnd D. induction layers as [|[q rs] layers IH]; [done|].
  destruct IH as [IH1 IH2]; [intros; apply Htab; by right|].
  destruct (Htab q rs) as (i & Hi & Hok & Hlen); [by left|].
  cbn [fmap list_fmap fst snd concat foldr]. rewrite data_of_app, !zlen_app, Hi. cbn.
  pose proof (data_rows rs Hok). lia.
Qed.

(** With less than 32 GiB under the names, any merge fits the format. *)
Definition kMaxDisk : Z := 2 ^ 35.

Lemma running_fits V0 ws s T w st g :
  running V0 ws s T w st g -> disk_use w < kMaxDisk -> fits (concat (g_layers g).*2).
Proof.
  intros R Hlt. pose proof (tables_paths_nodup _ _ _ (rn_inv _ _ _ _ _ _ _ R)) as Hnd.
  rewrite (rn_paths _ _ _ _ _ _ _ R) in Hnd.
  destruct (layers_use w (options_ st) (g_layers g) (g_fd g) (rn_disk _ _ _ _ _ _ _ R) Hnd).
  unfold fits, kMaxDisk in *. lia.
Qed.

(** ** The theorem *)

(** C6: Merges keep the history, in memory and on disk.  On a kernel that works until it
    kills the process, over a store that follows a history and holds less than 32 GiB,
    [maybe_compact] never throws.  If it returns, the store follows the same history, as
    much of it durable as before, for every reader from now on: whatever happens next, a
    crash leaves every key with a value the history gave it.  If the process dies in it,
    by a kill or with the power, the same holds of what is left, be it the inputs, the
    merged table or both, but for one window ([torn_merge]): the merge was that of the
    oldest run, which drops dead entries, its table has taken the newest name of the run,
    and an older input still has its name.  Even then no live key is lost: the same holds
    of every key whose newest entry in the tables was not dead when the merge read the
    clock. *)
Theorem maybe_compact_durable (E : env) (V : bytes -> option Entry) (ws : list write) (s : nat) (T : Z)
    (st : Store) (g : ghost) (w : world) :
  crash_only E -> running V ws s T w st g -> disk_use w < kMaxDisk ->
  match maybe_compact E st w with
  | (Ret (_, st'), w') => memtable_ st' = memtable_ st /\ options_ st' = options_ st /\
      forall T', T <= T' -> (forall t, (t <= tick w')%nat -> clock_at E t <= T') ->
        exists g', running V ws s T' w' st' g'
  | (Throw _, _) => False
  | (Dead, w') =>
      (forall T', T <= T' -> (forall t, (t <= tick w')%nat -> clock_at E t <= T') ->
        survives (options_ st) V ws s T' w') \/
      exists now, torn_merge E st w now w' /\
        survives_on (live_in (g_layers g).*2 now) (options_ st) V ws s T w'
  end.
Proof.
  intros Hco R Hd. pose proof (wp_maybe_compact_run E Hco V ws s T st g w R (fun _ => running_fits _ _ _ _ _ _ _ R Hd)) as H.
  unfold wp in H. destruct (maybe_compact E st w) as [[[n st']|e|] w'] eqn:Hmc; [|done|].
  - destruct H as (? & ? & _ & ?). by split_and!.
  - destruct H as [?|(now & ? & ?)]; [by left|right]. by exists now.
Qed.

(** Four clients write a kilobyte each, and every write fills the memtable. *)
Definition wide_set (key : bytes) : Command := mkCommand [lit "SET"; key; replicate 1000 x61].
Definition wide_step (x : res Store * world) (key : bytes) : res Store * world :=
  match x with
  | (Ret st, w) =>
      match execute (life_env 999) 0 (wide_set key) st [] w with
      | (Ret (st', _), w') => (Ret st', w')
      | (_, w') => (Dead, w')
      end
  | _ => x
  end.
Definition wide_life : res Store * world :=
  foldl wide_step (Ret life_store, empty_disk) [lit "a"; lit "b"; lit "c"; lit "d"].

Definition in_step (n : Z) (x : res Store * world) : Prop :=
  match x with
  | (Ret st, w) => exists V ws s, follows (life_env 999) V ws s n w st
  | _ => True
  end.

Lemma wide_follows n x key : zlen key <= 1 -> n < 2 ^ 32 -> in_step n x -> in_step (n + 1) (wide_step x key).
Proof.
  intros Hk Hn. destruct x as [[st|e|] w]; [|done|done]. intros (V & ws & s & Hf). cbn [wide_step].
  assert (small (wide_set key)) as Hs.
  { split; [vm_compute; discriminate|]. apply Forall_cons. split; [vm_compute; discriminate|].
    apply Forall_cons. split; [unfold kMaxArg; lia|]. apply Forall_cons. split; [vm_compute; discriminate|]. constructor. }
  pose proof (wp_execute_run (life_env 999) (life_crash_only 999) (life_sane 999) 0 V ws s n st w (wide_set key) [] Hf
    ltac:(lia) Hs ltac:(done)) as H. unfold wp in H.
  destruct (execute (life_env 999) 0 (wide_set key) st [] w) as [[[st' out]|e|] w']; [|done|done].
  destruct H as (info & τ & _ & _ & _ & [(new & s' & _ & Hf' & _)|[_ Hf']]); by eexists _, _, _.
Qed.

Lemma wide_all keys : forall n x, Forall (fun key : bytes => zlen key <= 1) keys -> n + zlen keys < 2 ^ 32 ->
  in_step n x -> in_step (n + zlen keys) (foldl wide_step x keys).
Proof.
  induction keys as [|key keys IH]; intros n x Hk Hn Hx; cbn [foldl].
  { change (zlen []) with 0. by rewrite Z.add_0_r. }
  apply Forall_cons in Hk as [H1 Hk]. rewrite zlen_cons in *. pose proof (zlen_nonneg keys).
  replace (n + (1 + zlen keys)) with (n + 1 + zlen keys) by lia.
  apply IH; [done|lia|]. apply wide_follows; [done|lia|done].
Qed.

Lemma wide_in_step : in_step 5 wide_life.
Proof.
  apply (wide_all [lit "a"; lit "b"; lit "c"; lit "d"] 1).
  - repeat constructor; vm_compute; discriminate.
  - reflexivity.
  - eexists _, _, _. exact (life_follows 999).
Qed.

Lemma maybe_compact_durable_witness :
  exists st w n st' w' g', wide_life = (Ret st, w) /\ length (sstables_ st) = 4%nat /\
    maybe_compact (life_env 999) st w = (Ret (n, st'), w') /\ length (sstables_ st') = 1%nat /\
    exists V ws s, running V ws s 5 w' st' g'.
Proof.
  assert (match wide_life with
    | (Ret st, w) => length (sstables_ st) = 4%nat /\ disk_use w <? kMaxDisk = true /\
        match maybe_compact (life_env 999) st w with (Ret (_, st'), _) => length (sstables_ st') = 1%nat | _ => False end
    | _ => False
    end) as Hrun by (vm_compute; split_and!; reflexivity).
  pose proof wide_in_step as Hin. destruct wide_life as [[st|e|] w]; [|destruct Hrun..].
  destruct Hrun as (H4 & Hd & Hm). destruct Hin as (V & ws & s & _ & g & R). apply Z.ltb_lt in Hd.
  pose proof (maybe_compact_durable (life_env 999) V ws s _ st g w (life_crash_only 999) R Hd) as H.
  destruct (maybe_compact (life_env 999) st w) as [[[n st']|e|] w'] eqn:Hmc; [|destruct Hm..].
  destruct H as (_ & _ & H). destruct (H 5) as (g' & R').
  - cbn. lia.
  - intros t _. cbn. lia.
  - exists st, w, n, st', w', g'. split; [reflexivity|]. split; [exact H4|]. split; [exact Hmc|]. split; [exact Hm|].
    exists V, ws, s. exact R'.
Defined.
