(* ===== verification/Ledger.v ===== *)
(** * The history a server writes

    The commands a server has executed, in the order it executed them, each with the
    reply it got and the changes it made.  [legal] says that this is a history of the
    abstract server of [Abstract]: replies and changes are what the commands mean in the
    map the changes before them made, at times that do not go back.  [ledger] ties a
    store to the changes: some of them, the first [m] at least, are durable.

    The lemmas take this from one command ([Refine]) to the loop of
    [Connection::on_bytes]: whatever bytes come in, the commands in them extend the
    history, and a process that dies on the way leaves a disk that recovers to a point
    of it. *)

From stdpp Require Import gmap.
From S2P Require Import Prelude Decimal Resp SortedMap Memtable WalCodec Posix Wal Sstable Compaction Store Command Abstract Connection LogGuard Session Crash Durable Footprint Refine Merging.

(** ** Histories of commands *)

Record exec := mkExec {
  x_cmd : Command;
  x_reply : resp_reply;
  x_changes : list change
}.

Definition state (V : bytes -> option Entry) (cs : list change) : bytes -> option Entry := foldl change_map V cs.

Definition effects (xs : list exec) : list change := concat (x_changes <$> xs).

(** The history [xs] of the abstract server from the map [V], all its readings of the
    clock between [lo] and [hi] and in order. *)
Fixpoint legal (fsync_name : bytes) (lo : Z) (V : bytes -> option Entry) (xs : list exec) (hi : Z) : Prop :=
  match xs with
  | [] => lo <= hi
  | x :: xs =>
      exists info τ mid, (forall i, lo <= τ i <= mid /\ τ i <= τ (S i)) /\
        abs_execute fsync_name info τ V (x_cmd x) = (x_reply x, x_changes x) /\
        legal fsync_name mid (state V (x_changes x)) xs hi
  end.

Lemma state_app V a b : state V (a ++ b) = state (state V a) b.
Proof. apply foldl_app. Qed.

Lemma effects_app xs ys : effects (xs ++ ys) = effects xs ++ effects ys.
Proof. unfold effects. by rewrite fmap_app, concat_app. Qed.

Lemma effects_snoc xs x : effects (xs ++ [x]) = effects xs ++ x_changes x.
Proof. rewrite effects_app. unfold effects at 2. cbn. by rewrite app_nil_r. Qed.

Lemma legal_order fs lo V xs hi : legal fs lo V xs hi -> lo <= hi.
Proof.
  revert lo V. induction xs as [|x xs IH]; intros lo V; [done|]. cbn [legal].
  intros (info & τ & mid & Hτ & _ & H). specialize (IH _ _ H). destruct (Hτ 0%nat). lia.
Qed.

Lemma legal_app fs lo V xs mid ys hi :
  legal fs lo V xs mid -> legal fs mid (state V (effects xs)) ys hi -> legal fs lo V (xs ++ ys) hi.
Proof.
  revert lo V. induction xs as [|x xs IH]; intros lo V; cbn [legal app].
  - intros Hle Hys. destruct ys as [|y ys]; cbn [legal] in *; [lia|].
    destruct Hys as (info & τ & m & Hτ & Ha & H). exists info, τ, m. split_and!; [|done|done].
    intros i. destruct (Hτ i). lia.
  - intros (info & τ & m & Hτ & Ha & H) Hys. exists info, τ, m. split_and!; [done|done|].
    apply IH; [done|]. unfold effects in Hys. cbn [fmap list_fmap concat] in Hys. by rewrite state_app in Hys.
Qed.

Lemma legal_later fs lo V xs hi hi' : hi <= hi' -> legal fs lo V xs hi -> legal fs lo V xs hi'.
Proof. intros Hh H. rewrite <- (app_nil_r xs). by eapply legal_app. Qed.

(** Entries put one after the other. *)
Lemma state_puts V ws k : state V (puts ws) k = after V ws k.
Proof.
  revert V. induction ws as [|[key e] ws IH]; intros V; [done|].
  cbn [puts fmap list_fmap]. unfold state. cbn [foldl change_map fst snd]. fold (state (after V [(key, e)]) (puts ws)).
  rewrite IH. change ((key, e) :: ws) with ([(key, e)] ++ ws). by rewrite after_app.
Qed.

(** The meaning of a command depends on the map only as far as it is a map. *)
Lemma count_live_ext keys : forall τ V V',
  (forall k, V k = V' k) -> count_live τ V keys = count_live τ V' keys.
Proof.
  induction keys as [|key keys IH]; intros τ V V' HV; [done|]. cbn [count_live]. unfold seen. rewrite HV.
  f_equal. by apply IH.
Qed.

Lemma abs_execute_ext fs info τ V V' c :
  (forall k, V k = V' k) -> abs_execute fs info τ V c = abs_execute fs info τ V' c.
Proof.
  intros HV. unfold abs_execute. case_match; [|done]. case_match. case_match; [|done].
  unfold abs_command, abs_get, abs_expire, abs_ttl, abs_incr, abs_del, abs_exists, seen.
  rewrite !HV, (count_removed_ext (drop 1 (args c)) τ V V'), (count_live_ext (drop 1 (args c)) τ V V') by done.
  done.
Qed.

(** ** A store and its history *)

Section ledger.
Context (E : env) (Hco : crash_only E) (Hck : clock_sane E) (kStartedMs : Z).
(** The map the history starts from, the changes made before the run, the time it starts
    at, the sequence numbers used by then, the options of the store and the policy of
    its log. *)
Context (V0 : bytes -> option Entry) (cs0 : list change) (T0 n0 : Z) (o : StoreOptions) (fs : bytes).

(** The store holds what the changes made, and the first [m] of them are durable. *)
Definition ledger (cs : list change) (m : nat) (n : Z) (w : world) (st : Store) : Prop :=
  exists pre ws s, cs = pre ++ puts ws /\ follows E (state V0 pre) ws s n w st /\ (m <= length pre + s)%nat.

(** The disk recovers to a point of the changes after the [m]-th. *)
Definition outlives (cs : list change) (m : nat) (w : world) : Prop :=
  exists pre ws s, cs = pre ++ puts ws /\ (m <= length pre + s)%nat /\
    survives o (state V0 pre) ws s (now_of E w) w.

Definition history_of (xs : list exec) : list change := cs0 ++ effects xs.

(** More commands than there are sequence numbers. *)
Definition crowded (xs : list exec) : Prop := 2 ^ 64 <= n0 + zlen xs + 1.

(** A run that has come to the end of the commands [xs], and one that died in the last of
    [ys] after them (if that is a FLUSHALL, or for the reason [D], there is nothing to say
    of the disk). *)
Definition standing (xs : list exec) (m : nat) (w : world) (st : Store) : Prop :=
  options_ st = o /\ policy_name (wal_policy st) = fs /\
  legal fs T0 (state V0 cs0) xs (now_of E w) /\ ledger (history_of xs) m (n0 + zlen xs) w st.

Definition in_wipe (ys : list exec) : Prop := exists x, last ys = Some x /\ x_changes x = [Wipe].

Definition fallen (D : Prop) (xs ys : list exec) (m : nat) (w : world) : Prop :=
  legal fs T0 (state V0 cs0) (xs ++ ys) (now_of E w) /\ (in_wipe ys \/ D \/ outlives (history_of (xs ++ ys)) m w).

(** [X] is a reason of another kind to say nothing. *)
Definition stands (X : Prop) (xs : list exec) (m : nat) (w : world) (st : Store) : Prop :=
  X \/ crowded xs \/ standing xs m w st.
Definition falls (X D : Prop) (xs ys : list exec) (m : nat) (w : world) : Prop :=
  X \/ crowded (xs ++ ys) \/ fallen D xs ys m w.

Lemma falls_mono (X X' D D' : Prop) xs ys m w :
  (X -> X') -> (D -> D') -> falls X D xs ys m w -> falls X' D' xs ys m w.
Proof. unfold falls, fallen. tauto. Qed.

Lemma crowded_app xs ys : crowded xs -> crowded (xs ++ ys).
Proof. unfold crowded. rewrite zlen_app. pose proof (zlen_nonneg ys). lia. Qed.

Lemma follows_length V ws s n w st : follows E V ws s n w st -> (s <= length ws)%nat.
Proof. intros [_ (g & R)]. eapply history_length; [apply R|]. apply R. Qed.

Lemma ledger_view cs m n w st :
  ledger cs m n w st -> exists pre ws s, cs = pre ++ puts ws /\ follows E (state V0 pre) ws s n w st /\
    (m <= length pre + s)%nat /\ forall k, after (state V0 pre) ws k = state V0 cs k.
Proof.
  intros (pre & ws & s & -> & Hf & Hm). exists pre, ws, s. split_and!; [done|done|done|].
  intros k'. by rewrite state_app, state_puts.
Qed.

Lemma ledger_outlives cs m n w st : options_ st = o -> ledger cs m n w st -> outlives cs m w.
Proof.
  intros Ho (pre & ws & s & -> & [_ (g & R)] & Hm). exists pre, ws, s. split_and!; [done|done|].
  rewrite <- Ho. by eapply running_survives.
Qed.

Lemma standing_fallen D xs m w st : standing xs m w st -> fallen D xs [] m w.
Proof. intros (Ho & _ & Hl & Hled). unfold fallen. rewrite app_nil_r. split; [done|]. right. right. by eapply ledger_outlives. Qed.

Lemma stands_falls X D xs m w st : stands X xs m w st -> falls X D xs [] m w.
Proof.
  unfold falls. rewrite app_nil_r. intros [?|[?|H]]; [by left|by right; left|]. right. right. by eapply standing_fallen.
Qed.

(** One more command that was done before the death. *)
Lemma falls_cons X D xs x ys m w : falls X D (xs ++ [x]) ys m w -> falls X D xs (x :: ys) m w.
Proof.
  unfold falls, fallen. rewrite <- app_assoc. cbn [app]. intros [?|[?|[Hl H]]]; [by left|by right; left|].
  right. right. split; [done|]. destruct H as [(y & Hy & Hw)|?]; [left|by right]. exists y. split; [|done].
  rewrite last_cons. by rewrite Hy.
Qed.

(** The readings of a command are within it. *)
Lemma moments_legal w w' τ :
  moments E (tick w) w' τ -> forall i, now_of E w <= τ i <= now_of E w' /\ τ i <= τ (S i).
Proof using Hck.
  intros (ι & Hι & Hτ) i. destruct (Hι i) as [[H1 H2] H3]. rewrite !Hτ. unfold now_of.
  pose proof (cs_mono _ Hck _ _ H1). pose proof (cs_mono _ Hck _ _ H2). pose proof (cs_mono _ Hck _ _ H3). lia.
Qed.

Lemma legal_one w w' info τ V V' c :
  moments E (tick w) w' τ -> (forall k, V k = V' k) ->
  let x := abs_execute fs info τ V c in
  legal fs (now_of E w) V' [mkExec c x.1 x.2] (now_of E w').
Proof using Hck.
  intros Hτ HV x. exists info, τ, (now_of E w'). split_and!; [by apply moments_legal| |cbn; lia].
  cbn [x_cmd x_reply x_changes]. rewrite <- (abs_execute_ext _ _ _ V V') by done. by destruct x eqn:Hx.
Qed.

Lemma advanced_ledger V ws pre s m n cs w' st' :
  V = state V0 pre -> (s <= length ws)%nat -> (m <= length pre + s)%nat -> advanced E V ws s n cs w' st' ->
  ledger ((pre ++ puts ws) ++ cs) m n w' st'.
Proof.
  intros -> Hs Hm [(new & s' & -> & Hf & Hle)|[-> Hf]].
  - exists pre, (ws ++ new), s'. split_and!; [|done|lia]. unfold puts. by rewrite fmap_app, app_assoc.
  - exists ((pre ++ puts ws) ++ [Wipe]), [], 0%nat. split_and!.
    + by rewrite app_nil_r.
    + by rewrite state_app.
    + rewrite !length_app. unfold puts. rewrite length_fmap. lia.
Qed.

Lemma same_log_policy st st' : same_log (wal_ st) (wal_ st') -> wal_policy st' = wal_policy st.
Proof.
  unfold same_log, wal_policy. destruct (wal_ st), (wal_ st'); try done. by intros (_ & -> & _).
Qed.

(** One command more. *)
Lemma wp_execute_stands X xs m st w c out :
  stands X xs m w st -> small c -> args c <> [] ->
  wp (execute E kStartedMs c st out) (fun r w' => match r with
    | Ret (st', out') => exists x, x_cmd x = c /\ out' = out ++ encode_reply (x_reply x) /\
        stands X (xs ++ [x]) m w' st'
    | _ => exists x, x_cmd x = c /\ falls X False xs [x] m w'
    end) w.
Proof using Hco Hck.
  intros Hst Hsmall Hne. assert (X \/ crowded xs \/ standing xs m w st /\ n0 + zlen xs + 1 < 2 ^ 64) as Hcase.
  { destruct Hst as [?|[?|H]]; [by left|by right; left|]. unfold crowded.
    destruct (decide (2 ^ 64 <= n0 + zlen xs + 1)); [by right; left|right; right]. split; [done|lia]. }
  assert (X \/ crowded xs -> forall x, X \/ crowded (xs ++ [x])) as Hlost.
  { intros [?|?] x; [by left|right; by apply crowded_app]. }
  destruct Hcase as [HX|[HX|[(Ho & Hp & Hl & Hled) Hn]]].
  1, 2: eapply wp_mono; [by apply wp_execute_one_reply|]; intros [[st' out']|e|] w' Hr;
    [destruct Hr as (x & _ & ->); exists (mkExec c x [])
    |exists (mkExec c RNull [])..]; unfold stands, falls; naive_solver.
  destruct (ledger_view _ _ _ _ _ Hled) as (pre & ws & s & Hcs & Hf & Hm & HV).
  pose proof (follows_length _ _ _ _ _ _ Hf) as Hs.
  pose proof (wp_execute_run E Hco Hck kStartedMs _ _ _ _ _ _ c out Hf Hn Hsmall Hne) as Hx.
  destruct (logged_execute E kStartedMs c st out w) as [Ht Hlog]. unfold wp in *.
  destruct (execute E kStartedMs c st out w) as [[[st' out']|e|] w']; [|done|]; cbn [fst snd] in *; rewrite Hp in Hx.
  - destruct Hx as (info & τ & Hτ & -> & Ho' & Hadv). eexists (mkExec c _ _).
    split; [done|]. split; [done|]. right. right. split_and!.
    + by rewrite Ho'.
    + by rewrite (same_log_policy st st' (lr_log _ _ _ Hlog)).
    + eapply legal_app; [done|]. apply (legal_one w w' info τ (after (state V0 pre) ws)); [done|].
      intros k. rewrite HV, <- state_app. done.
    + unfold history_of. rewrite effects_snoc, app_assoc. fold (history_of xs). rewrite Hcs.
      cbn [x_changes]. rewrite zlen_app. change (zlen [_]) with 1. rewrite Z.add_assoc. by eapply advanced_ledger.
  - destruct Hx as (info & τ & Hτ & Hx). eexists (mkExec c _ _). split; [done|]. right. right. split.
    + eapply legal_app; [done|]. apply (legal_one w w' info τ (after (state V0 pre) ws)); [done|].
      intros k. rewrite HV, <- state_app. done.
    + destruct Hx as [Hx|(new & Hnew & Hsv)].
      * left. eexists. by split.
      * right. right. exists pre, (ws ++ new), s. split_and!; [|done|by rewrite <- Ho].
        unfold history_of. rewrite effects_snoc, app_assoc. fold (history_of xs). rewrite Hcs. cbn [x_changes].
        rewrite Hnew. unfold puts. by rewrite fmap_app, app_assoc.
Qed.
(** ** The commands in a piece of input *)

(** The commands [cmds] one after the other. *)
Fixpoint exec_all (cmds : list Command) (st : Store) (out : bytes) : M (Store * bytes) :=
  match cmds with
  | [] => mret (st, out)
  | c :: cmds => '(st, out) ← execute E kStartedMs c st out; exec_all cmds st out
  end.

(** All of [cmds] but the last returned, and the last did not: it ended in [w']. *)
Definition cut_short (cmds : list Command) (st : Store) (out : bytes) (w w' : world) : Prop :=
  exists past c st1 out1 w1, cmds = past ++ [c] /\ exec_all past st out w = (Ret (st1, out1), w1) /\
    (forall r, (execute E kStartedMs c st1 out1 w1).1 <> Ret r) /\ (execute E kStartedMs c st1 out1 w1).2 = w'.

Lemma cut_short_last c st out w :
  (forall r, (execute E kStartedMs c st out w).1 <> Ret r) -> cut_short [c] st out w (execute E kStartedMs c st out w).2.
Proof. intros H. exists [], c, st, out, w. by split_and!. Qed.

Lemma cut_short_cons c cmds st out w st1 out1 w1 w' :
  execute E kStartedMs c st out w = (Ret (st1, out1), w1) -> cut_short cmds st1 out1 w1 w' ->
  cut_short (c :: cmds) st out w w'.
Proof.
  intros Hx (past & c' & st2 & out2 & w2 & -> & Hp & Hr). exists (c :: past), c', st2, out2, w2.
  split_and!; [done| |apply Hr..]. cbn [exec_all]. cbv [mbind M_bind]. by rewrite Hx.
Qed.

(** Where a list of commands is cut short is a fact of the run: no other prefix of it is. *)
Lemma cut_short_once cmds : forall a b st out w wa wb,
  a `prefix_of` cmds -> b `prefix_of` cmds -> cut_short a st out w wa -> cut_short b st out w wb -> a = b /\ wa = wb.
Proof.
  induction cmds as [|c cmds IH]; intros a b st out w wa wb Ha Hb (pa & ca & sa & oa & w1 & -> & Hpa & Hra & <-)
    (pb & cb & sb & ob & w2 & -> & Hpb & Hrb & <-).
  { apply prefix_nil_inv in Ha. by destruct pa. }
  destruct pa as [|x pa], pb as [|y pb]; cbn [app exec_all] in *.
  - apply prefix_cons_inv_1 in Ha as ->. apply prefix_cons_inv_1 in Hb as ->. by injection Hpa as <- <- <-; injection Hpb as <- <- <-.
  - apply prefix_cons_inv_1 in Ha as ->. apply prefix_cons_inv_1 in Hb as ->. injection Hpa as <- <- <-.
    revert Hpb. cbv [mbind M_bind]. destruct (execute E kStartedMs c st out w) as [[r|e|] w3] eqn:Hx; try done.
    by destruct (Hra r).
  - apply prefix_cons_inv_1 in Ha as ->. apply prefix_cons_inv_1 in Hb as ->. injection Hpb as <- <- <-.
    revert Hpa. cbv [mbind M_bind]. destruct (execute E kStartedMs c st out w) as [[r|e|] w3] eqn:Hx; try done.
    by destruct (Hrb r).
  - pose proof (prefix_cons_inv_1 _ _ _ _ Ha) as ->. pose proof (prefix_cons_inv_1 _ _ _ _ Hb) as ->.
    apply prefix_cons_inv_2 in Ha, Hb. revert Hpa Hpb. cbv [mbind M_bind].
    destruct (execute E kStartedMs c st out w) as [[[st3 out3]|e|] w3]; try done. intros Hpa Hpb.
    destruct (IH (pa ++ [ca]) (pb ++ [cb]) st3 out3 w3 (execute E kStartedMs ca sa oa w1).2
      (execute E kStartedMs cb sb ob w2).2 Ha Hb) as [H1 H2].
    + by exists pa, ca, sa, oa, w1.
    + by exists pb, cb, sb, ob, w2.
    + by rewrite H1.
Qed.

(** The caps of the parser and of the read buffer keep every command small. *)
Lemma parse_small p input c0 r p' c :
  parser_wf p -> zlen input <= kMaxReadBuffer -> parse p (drop c0 input) = Some (r, p', Some c) -> small c.
Proof.
  intros Hwf Hlen Hp. destruct (parse_loop_wf _ _ _ _ _ _ _ Hwf Hp) as (_ & _ & _ & Hok).
  destruct (Hok c eq_refl) as (_ & H1 & H2). rewrite zlen_drop in H1, H2. pose proof (zlen_nonneg input).
  unfold kMaxMultibulkLen, kMaxBulkLen, kMaxReadBuffer, small, kMaxArg in *. split; [lia|].
  eapply Forall_impl; [exact H2|]. cbn. lia.
Qed.

(** What the rounds of [on_bytes] come to. *)
Lemma wp_loop_stands X f input : forall p c0 xs m st out w,
  parser_wf p -> (c0 <= length input)%nat -> (length input - c0 < f)%nat -> zlen input <= kMaxReadBuffer ->
  stands X xs m w st ->
  wp (on_bytes_loop E kStartedMs f input p c0 st out) (fun r w' => match r with
    | Ret (Some l) => exists ys tail, x_cmd <$> ys = fr_cmds (frames f input p c0) /\
        (if fr_broken (frames f input p c0) then exists e, is_single_line e = true /\ tail = [RError e] else tail = []) /\
        lp_out l = out ++ encode_all ((x_reply <$> ys) ++ tail) /\ stands X (xs ++ ys) m w' (lp_store l)
    | Ret None => False
    | _ => exists ys, (x_cmd <$> ys) `prefix_of` fr_cmds (frames f input p c0) /\
        cut_short (x_cmd <$> ys) st out w w' /\ falls X False xs ys m w'
    end) w.
Proof using Hco Hck.
  induction f as [|f IH]; intros p c0 xs m st out w Hwf Hc Hf Hlen Hst; [lia|]. cbn [on_bytes_loop frames].
  destruct (parse_at p input c0 Hwf Hc) as (r & p' & cmd & Hp & Hwf' & Hcmd & Hle & Hadv).
  rewrite Hp. destruct (status r) eqn:Hs.
  - apply wp_ret. exists [], []. cbn. by rewrite !app_nil_r.
  - destruct (Hcmd eq_refl) as (c & -> & Hne). specialize (Hadv eq_refl). cbn [default].
    apply wp_bind. eapply wp_mono; [apply wp_keep, (wp_execute_stands X xs m st w c out Hst);
      [exact (parse_small _ _ _ _ _ _ Hwf Hlen Hp)|done]|].
    cbn [fr_cons fr_cmds fr_broken].
    intros r1 w1 (Hrun & Hr). change (execute E kStartedMs c st out w = (r1, w1)) in Hrun. revert Hrun Hr.
    destruct r1 as [[st1 out1]|e|]; intros Hrun (x & Hx & Hr); [|exists [x]; cbn; rewrite Hx; (split; [apply prefix_cons, prefix_nil|]);
      (split; [|done]); pose proof (cut_short_last c st out w) as Hcut; rewrite Hrun in Hcut; by apply Hcut..].
    destruct Hr as [-> Hst1].
    eapply wp_mono; [apply (IH p' (c0 + consumed r)%nat (xs ++ [x]) m st1 _ w1); [done|lia|lia|done|done]|].
    intros [[l|]|e|] w2; [|done|..].
    + intros (ys & tail & Hys & Ht & Hout & Hst2). exists (x :: ys), tail. split_and!; [|done| |].
      * by rewrite fmap_cons, Hys, Hx.
      * rewrite Hout, <- app_assoc. done.
      * by rewrite <- app_assoc in Hst2.
    + intros (ys & Hys & Hcut & Hfa). exists (x :: ys). rewrite fmap_cons, Hx. split; [by apply prefix_cons|].
      split; [by eapply cut_short_cons|by apply falls_cons].
    + intros (ys & Hys & Hcut & Hfa). exists (x :: ys). rewrite fmap_cons, Hx. split; [by apply prefix_cons|].
      split; [by eapply cut_short_cons|by apply falls_cons].
  - apply wp_ret. exists [], [RError (lit "ERR " ++ error r)]. cbn [fr_cmds fr_broken]. split_and!; [done| | |].
    + eexists. split; [|done]. by rewrite is_single_line_app, (proj1 (parse_error_line _ _ _ _ _ Hp)).
    + unfold encode_all. cbn. by rewrite app_nil_r.
    + by rewrite app_nil_r.
Qed.

(** What the loop has replied to the commands [ys]. *)
Definition replied (ys : list exec) : list Command -> list resp_reply -> Prop :=
  fun cs rs => cs = x_cmd <$> ys /\ rs = x_reply <$> ys.

(** [on_bytes] as a whole. *)
Lemma wp_on_bytes_stands X c data xs m st w :
  conn_wf c -> max_read_buffer_ c <= kMaxReadBuffer -> stands X xs m w st ->
  wp (on_bytes E kStartedMs c data st) (fun r w' => match r with
    | Ret (Some (b, c', st')) => exists ys, fed_ok E kStartedMs (replied ys) c data st w /\
        stands X (xs ++ ys) m w' st' /\ max_read_buffer_ c' = max_read_buffer_ c
    | Ret None => False
    | _ => exists ys, refused c data = false /\ (x_cmd <$> ys) `prefix_of` fr_cmds (completed c data) /\
        cut_short (x_cmd <$> ys) st (out_ c) w w' /\ falls X False xs ys m w'
    end) w.
Proof using Hco Hck.
  intros [Hwf _] Hmax Hst. unfold on_bytes, fed_ok, refused.
  destruct (closing_ c) eqn:Hcl; cbn [orb].
  { apply wp_ret. exists []. by rewrite app_nil_r. }
  destruct (Z.ltb_spec (max_read_buffer_ c) (zlen (in_ c) + zlen data)) as [Hbig|Hsmall].
  { apply wp_ret. exists []. by rewrite app_nil_r. }
  assert (wp (on_bytes_loop E kStartedMs (S (length (in_ c ++ data))) (in_ c ++ data) (parser_ c) 0 st (out_ c))
    _ w) as Hloop by (apply (wp_loop_stands X _ (in_ c ++ data) _ 0 xs m st (out_ c) w); auto; [lia|lia|rewrite zlen_app; lia]).
  cbv [wp mbind M_bind] in *.
  destruct (on_bytes_loop _ _ _ _ _ _ _ _ w) as [[[l|]|e|] w1]; cbn [fst snd] in *; [|done|..].
  - destruct Hloop as (ys & tail & Hys & Ht & Hout & Hst1). exists ys. split_and!; [|done|done].
    intros l' w2 [= <- <-]. exists ((x_reply <$> ys) ++ tail). split; [|done]. by exists (x_reply <$> ys), tail.
  - destruct Hloop as (ys & Hys & Hcut & Hfa). by exists ys.
  - destruct Hloop as (ys & Hys & Hcut & Hfa). by exists ys.
Qed.

End ledger.
