(* ===== verification/Service.v ===== *)
(** * The server as a whole

    The event loop, the connections, the commands, the store, the log and the disk put
    together.  A run of the server writes a history ([Ledger]): the events that went over
    its sockets, and for every piece of input the commands it completed, with their
    replies and changes.  The theorems show that this history is one of the abstract
    server, that every client sees its own part of it in order, and that no crash takes
    back what a client has been told.

    Two deaths are left out of what is said about crashes, because a deleted key can come
    back from them: one in the middle of a FLUSHALL ([Lifecycle]), and one while the
    merge of the oldest tables replaces its inputs ([StoreSpec], [Merging]).  Both are
    facts of the run and not a choice.  The commands in flight are those the last event
    of the trace, an input the process did not return from, had begun on the store and
    the files of that moment, and the last of them ended the process ([in_flight],
    [Ledger.cut_short], [Ledger.cut_short_once]); the merge is the one the last event
    began, and it has put its table in the place of its newest input and not yet removed
    the older ones ([torn_end], [Merging.torn_merge]). *)

From stdpp Require Import gmap.
From S2P Require Import Prelude Decimal Resp SortedMap Memtable WalCodec Posix Wal Sstable Compaction Store StoreSpec Command Abstract Connection LogGuard Session Server ServerSpec Main Crash Durable Recovery Lifecycle Startup Footprint Refine Merging Ledger.

(** ** Steps *)

(** An event, and the commands it executed: those that a piece of input completed. *)
Definition step : Type := event * list exec.

Definition execs (steps : list step) : list exec := concat steps.*2.

(** The commands of one connection since it was last accepted. *)
Definition done_step (fd : Z) (d : list exec) (s : step) : list exec :=
  match s.1 with
  | Accepted g => if g =? fd then [] else d
  | Received g _ => if g =? fd then d ++ s.2 else d
  | _ => d
  end.
Definition done_of (steps : list step) (fd : Z) : list exec := foldl (done_step fd) [] steps.

(** The rule of a connection: its commands get the replies of the history. *)
Definition owe (steps : list step) (fd : Z) : rule := replied (done_of steps fd).

(** The commands [ys] are those framed from the bytes [rx], or from what of them was looked
    at, and the bytes [tx] are their replies in order, as far as they went, and at most one
    error after them. *)
Definition served_by (ys : list exec) (rx tx : bytes) : Prop :=
  exists fed tail, fed `prefix_of` rx /\ fr_cmds (framed fed) = x_cmd <$> ys /\
    (tail = [] \/ exists m, is_single_line m = true /\ tail = [RError m]) /\
    tx `prefix_of` encode_all ((x_reply <$> ys) ++ tail).

(** Only input executes commands; and at every moment, so also for connections that are
    closed and descriptors that were used again, the commands of a connection are those in
    its bytes, and what it was sent are their replies. *)
Definition recorded (steps : list step) : Prop :=
  Forall (fun s : step => match s.1 with Received _ _ => True | _ => s.2 = [] end) steps /\
  forall a b g, steps = a ++ b ->
    served_by (done_of a g) (session_of a.*1 g).1 (session_of a.*1 g).2.

Lemma session_served ys rx tx c : session_by (replied ys) rx tx c -> served_by ys rx tx.
Proof.
  intros (_ & fed & replies & Hpre & (rs & tail & -> & [Hcs ->] & Ht) & Htx & _). exists fed, tail.
  split_and!; [done|done| |by eexists]. destruct (closing_ c); [by right|by left].
Qed.

Lemma recorded_extend steps e xs :
  recorded steps -> match e with Received _ _ => True | _ => xs = [] end ->
  (forall g, served_by (done_of (steps ++ [(e, xs)]) g) (session_of (steps ++ [(e, xs)]).*1 g).1
     (session_of (steps ++ [(e, xs)]).*1 g).2) ->
  recorded (steps ++ [(e, xs)]).
Proof.
  intros [Hall Hs] He Hnew. split.
  - apply Forall_app. split; [done|]. by apply Forall_singleton.
  - intros a b g Heq. destruct b as [|y b _] using rev_ind.
    + rewrite app_nil_r in Heq. subst a. apply Hnew.
    + rewrite app_assoc in Heq. apply app_inj_tail in Heq as [Heq _]. by eapply Hs.
Qed.

Lemma recorded_snoc steps e xs σ :
  recorded steps -> match e with Received _ _ => True | _ => xs = [] end ->
  steps.*1 ++ [e] = trace σ -> sessions_by (owe (steps ++ [(e, xs)])) σ -> recorded (steps ++ [(e, xs)]).
Proof.
  intros Hr He Ht Hs. apply recorded_extend; [done|done|]. intros g. rewrite (fmap_app fst steps). cbn [fmap list_fmap fst].
  rewrite Ht. destruct (Hs g) as (c & Hc & _). by eapply session_served.
Qed.

Definition is_sent (e : event) : Prop := match e with Sent _ _ _ => True | _ => False end.

(** A log beyond what its 64-bit count can tell from nothing, when a reply left. *)
Definition swollen (fd : nat) (tr : list event) : Prop :=
  Exists (fun e => match e with Sent _ _ w => 2 ^ 64 <= zlen (contents w fd) | _ => False end) tr.

(** Tables too large for one, when a turn looked for something to merge. *)
Definition overgrown (tr : list event) : Prop :=
  Exists (fun e => match e with Merging w => kMaxDisk <= disk_use w | _ => False end) tr.

(** Sizes beyond which nothing is said. *)
Definition oversized (o : StoreOptions) (fd : nat) (tr : list event) : Prop :=
  swollen fd tr \/ use_compaction o = true /\ overgrown tr.

Lemma execs_snoc steps e xs : execs (steps ++ [(e, xs)]) = execs steps ++ xs.
Proof. unfold execs. rewrite fmap_app, concat_app. cbn. by rewrite app_nil_r. Qed.

Lemma done_of_snoc steps s fd : done_of (steps ++ [s]) fd = done_step fd (done_of steps fd) s.
Proof. unfold done_of. by rewrite foldl_app. Qed.

(** An input the process did not come to the end of. *)
Definition finished (e : event) : Prop := match e with Interrupted _ _ _ => False | _ => True end.

(** Before the loop only the constructor has left an event. *)
Definition is_listening (e : event) : Prop := match e with Listening _ _ => True | _ => False end.

Lemma listening_steps tr : Forall is_listening tr ->
  exists steps : list step, steps.*1 = tr /\ recorded steps /\ execs steps = [] /\
    (forall g, done_of steps g = []) /\ (forall g, session_of tr g = ([], [])) /\
    Forall (fun s => is_listening s.1) steps.
Proof.
  induction tr as [|e tr IH] using rev_ind; intros Ht.
  { exists []. split_and!; try done. split; [constructor|]. intros a b g Heq. symmetry in Heq.
    apply app_nil in Heq as [-> _]. exists [], []. split_and!; [done|done|by left|done]. }
  apply Forall_app in Ht as [Ht He]. apply Forall_cons in He as [He _].
  destruct (IH Ht) as (steps & H1 & H2 & H3 & H4 & H5 & H6). exists (steps ++ [(e, [])]).
  split_and!.
  - by rewrite fmap_app, H1.
  - apply recorded_extend; [done|by destruct e|]. intros g. rewrite (fmap_app fst steps), done_of_snoc, H1.
    cbn [fmap list_fmap fst]. rewrite session_of_snoc, H4, H5. destruct e; try done.
    exists [], []. split_and!; [done|done|by left|done].
  - by rewrite execs_snoc, H3.
  - intros g. rewrite done_of_snoc, H4. by destruct e.
  - intros g. rewrite session_of_snoc, H5. by destruct e.
  - apply Forall_app. split; [done|]. by apply Forall_singleton.
Qed.

Lemma oversized_app o fd tr new : oversized o fd tr -> oversized o fd (tr ++ new).
Proof. unfold oversized, swollen, overgrown. rewrite !Exists_app. naive_solver. Qed.

Section service.
Context (E : env) (Hco : crash_only E) (Hck : clock_sane E) (N : net) (kStartedMs : Z).
Context (V0 : bytes -> option Entry) (cs0 : list change) (m0 : nat) (T0 n0 : Z) (o : StoreOptions) (fs : bytes).
Context (fd : nat).

Abbreviation stands := (stands E V0 cs0 T0 n0 o fs).
Abbreviation falls := (falls E V0 cs0 T0 n0 o fs).
Abbreviation history := (history_of cs0).

(** Whatever was executed before a reply left is among the first [m] changes. *)
Definition covers (m : nat) (steps : list step) : Prop :=
  (m0 <= m)%nat /\ forall a s b, steps = a ++ s :: b -> is_sent s.1 -> (length (history (execs a)) <= m)%nat.

Record serving (steps : list step) (m : nat) (σ : sys) : Prop := mkServing {
  sv_trace : steps.*1 = trace σ;
  sv_recorded : recorded steps;
  sv_finished : Forall (fun s : step => finished s.1) steps;
  sv_sessions : sessions_by (owe steps) σ;
  sv_conns : map_Forall (fun _ cs => max_read_buffer_ (conn cs) <= kMaxReadBuffer) (conns_ (srv σ));
  sv_loop : loop_inv E fd σ;
  sv_covers : covers m steps;
  sv_stands : stands (oversized o fd (trace σ)) (execs steps) m (files σ) (store_ (srv σ))
}.

(** All that was executed is durable (or the count cannot tell). *)
Definition full (steps : list step) (m : nat) (σ : sys) : Prop :=
  (length (history (execs steps)) <= m)%nat \/ 2 ^ 64 <= zlen (contents (files σ) fd).

(** The invariant of the loop; [F] from the commit to the end of the replies. *)
Definition inv (F : bool) (σ : sys) : Prop :=
  exists steps m, serving steps m σ /\ (F = true -> full steps m σ).

(** The commands [ys] that were in flight at the end: none, unless the last event is an
    input the process did not come to the end of.  Then they are those of its commands
    (they follow the ones the connection has had, in its stream of bytes) that were begun:
    executed on the store and the files of that moment, all of them but the last
    returned, and the last ended the process, in the files that are left. *)
Definition in_flight (steps : list step) (ys : list exec) (σ : sys) : Prop :=
  match last steps with
  | Some (Interrupted g data w0, _) => exists cs, conns_ (srv σ) !! g = Some cs /\
      (x_cmd <$> (done_of steps g ++ ys)) `prefix_of` fr_cmds (framed ((session_of steps.*1 g).1 ++ data)) /\
      cut_short E kStartedMs (x_cmd <$> ys) (store_ (srv σ)) (out_ (conn cs)) w0 (files σ)
  | _ => ys = []
  end.

(** The process died in the merge of its last turn, with half of its inputs replaced. *)
Definition torn_end (σ : sys) : Prop :=
  exists w0 now, last (trace σ) = Some (Merging w0) /\ torn_merge E (store_ (srv σ)) w0 now (files σ).

(** How a run can end. *)
Definition ended (σ : sys) : Prop :=
  exists steps ys m, steps.*1 = trace σ /\ recorded steps /\ sessions_by (owe steps) σ /\
    in_flight steps ys σ /\ covers m steps /\
    falls (oversized o fd (trace σ)) (torn_end σ) (execs steps) ys m (files σ).

Lemma in_flight_none steps σ : Forall (fun s : step => finished s.1) steps -> in_flight steps [] σ.
Proof.
  intros H. unfold in_flight. destruct (last steps) as [[e xs]|] eqn:Hl; [|done].
  apply last_Some_elem_of in Hl. rewrite Forall_forall in H. by destruct e; destruct (H _ Hl).
Qed.

Lemma inv_ended F σ : inv F σ -> ended σ.
Proof.
  intros (steps & m & [H1 H2 Hfin H3 H4 H5 H6 H7] & _). exists steps, [], m.
  split_and!; try done; [by apply in_flight_none|]. by eapply stands_falls.
Qed.

Lemma inv_weaken σ : inv true σ -> inv false σ.
Proof. intros (steps & m & H & _). by exists steps, m. Qed.

(** ** Programs of the loop *)

Definition serves {A} (P : sys -> Prop) (m : SM A) (Q : A -> sys -> Prop) : Prop :=
  forall σ, P σ -> match m σ with (Ret a, σ') => Q a σ' | (_, σ') => ended σ' end.

Lemma serves_ret {A} (a : A) (P : sys -> Prop) (Q : A -> sys -> Prop) :
  (forall σ, P σ -> Q a σ) -> serves P (mret a) Q.
Proof. intros H σ HP. by apply H. Qed.

Lemma serves_bind {A B} (P : sys -> Prop) (m : SM A) (k : A -> SM B) R Q :
  serves P m R -> (forall a, serves (R a) (k a) Q) -> serves P (m ≫= k) Q.
Proof.
  intros Hm Hk σ HP. cbv [mbind SM_bind]. specialize (Hm σ HP). destruct (m σ) as [[a|e|] σ1]; [|done|done].
  by apply Hk.
Qed.

Lemma serves_weaken {A} (P P' : sys -> Prop) (m : SM A) (Q Q' : A -> sys -> Prop) :
  (forall σ, P' σ -> P σ) -> (forall a σ, Q a σ -> Q' a σ) -> serves P m Q -> serves P' m Q'.
Proof.
  intros HP HQ Hm σ Hσ. specialize (Hm σ (HP σ Hσ)). destruct (m σ) as [[a|e|] σ1]; auto.
Qed.

Lemma serves_throw {A} F e (Q : A -> sys -> Prop) : serves (inv F) (sthrow e) Q.
Proof. intros σ. apply inv_ended. Qed.

Lemma serves_dead {A} F (Q : A -> sys -> Prop) : serves (inv F) sdead Q.
Proof. intros σ. apply inv_ended. Qed.

(** Reading the object. *)
Lemma serves_server {A} P (k : Server -> SM A) Q :
  (forall s, serves (fun σ => P σ /\ srv σ = s) (k s) Q) -> serves P (s ← server; k s) Q.
Proof. intros H σ HP. by apply (H (srv σ) σ). Qed.
(** *** Events that execute nothing *)

Lemma covers_snoc m steps s : ~ is_sent s.1 -> covers m steps -> covers m (steps ++ [s]).
Proof.
  intros Hns [H0 H]. split; [done|]. intros a s' b Heq Hs.
  destruct b as [|y b _] using rev_ind.
  - apply app_inj_tail in Heq as [-> ->]. done.
  - rewrite app_comm_cons, app_assoc in Heq. apply app_inj_tail in Heq as [-> _]. by eapply H.
Qed.

Lemma stands_mono (X X' : Prop) xs m w st : (X -> X') -> stands X xs m w st -> stands X' xs m w st.
Proof. intros HX [?|?]; [left; auto|by right]. Qed.

(** The same files and store, and one more event. *)
Lemma serving_event steps m σ σ' e :
  serving steps m σ -> match e with Received _ _ | Interrupted _ _ _ | Sent _ _ _ => False | _ => True end ->
  trace σ' = trace σ ++ [e] -> files σ' = files σ -> store_ (srv σ') = store_ (srv σ) ->
  sessions_by (owe (steps ++ [(e, [])])) σ' ->
  map_Forall (fun _ cs => max_read_buffer_ (conn cs) <= kMaxReadBuffer) (conns_ (srv σ')) ->
  serving (steps ++ [(e, [])]) m σ'.
Proof.
  intros [H1 H2 Hfin H3 H4 H5 H6 H7] He Ht Hf Hs Hses Hc. constructor; auto.
  - by rewrite fmap_app, H1, Ht.
  - eapply recorded_snoc; [done|by destruct e|by rewrite H1|done].
  - apply Forall_app. split; [done|]. apply Forall_singleton. by destruct e.
  - unfold loop_inv, log_fd in *. by rewrite Hf, Hs.
  - apply covers_snoc; [|done]. destruct e; cbn; tauto.
  - rewrite execs_snoc, app_nil_r, Hf, Hs, Ht. eapply stands_mono; [apply oversized_app|done].
Qed.

(** Nothing but the connections has changed. *)
Lemma serving_conns steps m σ σ' :
  serving steps m σ -> trace σ' = trace σ -> files σ' = files σ -> store_ (srv σ') = store_ (srv σ) ->
  sessions_by (owe steps) σ' ->
  map_Forall (fun _ cs => max_read_buffer_ (conn cs) <= kMaxReadBuffer) (conns_ (srv σ')) ->
  serving steps m σ'.
Proof.
  intros [H1 H2 Hfin H3 H4 H5 H6 H7] Ht Hf Hs Hses Hc. constructor; auto.
  - by rewrite Ht.
  - unfold loop_inv, log_fd in *. by rewrite Hf, Hs.
  - by rewrite Hf, Hs, Ht.
Qed.

Lemma serves_next_call F : serves (inv F) next_call (fun _ => inv F).
Proof.
  intros σ (steps & m & H & HF). exists steps, m. split; [|done]. eapply serving_conns; try done.
  - eapply sessions_next_call, H.
  - apply H.
Qed.

Lemma full_same steps e m σ σ' :
  files σ' = files σ -> full steps m σ -> full (steps ++ [(e, [])]) m σ'.
Proof. intros Hf. unfold full. by rewrite execs_snoc, app_nil_r, Hf. Qed.

(** A rule that is the same for every connection. *)
Lemma sessions_ext (owe1 owe2 : Z -> rule) σ :
  (forall g, owe2 g = owe1 g) -> sessions_by owe1 σ -> sessions_by owe2 σ.
Proof. intros H Hs g. destruct (Hs g) as (c & Hc). exists c. by rewrite H. Qed.

Lemma serves_close F g : serves (inv F) (close_connection g) (fun _ => inv F).
Proof.
  intros σ (steps & m & H & HF). exists (steps ++ [(Closed g, [])]), m. split.
  - eapply serving_event; try done.
    + apply (sessions_ext (owe steps)); [|by apply (sessions_close (owe steps) g σ), H].
      intros g'. unfold owe. by rewrite done_of_snoc.
    + cbn. apply map_Forall_delete, H.
  - intros Ht. eapply full_same; [done|auto].
Qed.

Lemma serves_emplace g : serves (inv false) (emplace g) (fun _ => inv false).
Proof.
  intros σ (steps & m & H & _). destruct (conns_ (srv σ) !! g) eqn:Hg.
  { unfold emplace. cbv [mbind SM_bind server]. rewrite Hg. by exists steps, m. }
  assert (sessions_by (owe (steps ++ [(Accepted g, [])])) (emplace g σ).2) as Hses.
  { apply (sessions_opened (owe steps)); [done| | |apply H].
    - intros g' Hne. unfold owe. rewrite done_of_snoc. unfold done_step. cbn.
      by rewrite (proj2 (Z.eqb_neq g g')) by done.
    - unfold owe. rewrite done_of_snoc. unfold done_step. cbn. by rewrite Z.eqb_refl. }
  revert Hses. unfold emplace. cbv [mbind SM_bind server put_server log]. rewrite Hg. cbn [fst snd]. intros Hses.
  exists (steps ++ [(Accepted g, [])]), m. split; [|done]. eapply serving_event; try done.
  cbn. apply map_Forall_insert_2; [done|apply H].
Qed.

Lemma serves_accept_loop script : serves (inv false) (accept_loop script) (fun _ => inv false).
Proof.
  induction script as [|[[]|[raw []]] script IH]; cbn [accept_loop]; auto using serves_dead, serves_ret.
  eapply serves_bind; [apply serves_emplace|]. intros u. apply IH.
Qed.

(** *** A piece of input *)

(** The commands of an open connection, and those of the next piece. *)
Lemma session_next ys zs rx tx c data :
  session_by (replied ys) rx tx c -> refused c data = false ->
  (x_cmd <$> zs) `prefix_of` fr_cmds (completed c data) ->
  (x_cmd <$> (ys ++ zs)) `prefix_of` fr_cmds (framed (rx ++ data)).
Proof.
  intros (_ & fed & replies & _ & (rs & tail & _ & [Hcs _] & _) & _ & Hopen) Hr Hz.
  unfold refused in Hr. apply orb_false_iff in Hr as [Hcl _].
  destruct (Hopen Hcl) as (-> & Hb & Hp & Hin). rewrite (framed_app rx data Hb), <- Hp, <- Hin.
  fold (completed c data). cbn [fr_app fr_shift fr_cmds]. rewrite fmap_app, <- Hcs. by apply prefix_app.
Qed.

Lemma owe_fed steps g data ys cs rs :
  then_ok (owe steps g) (replied ys) cs rs -> owe (steps ++ [(Received g data, ys)]) g cs rs.
Proof.
  intros (c1 & c2 & r1 & r2 & -> & -> & [-> ->] & [-> ->]). unfold owe, replied.
  rewrite done_of_snoc. unfold done_step. cbn. rewrite Z.eqb_refl. by rewrite !fmap_app.
Qed.

(** The process dies in a piece of input. *)
Lemma feed_ended steps m σ g state data ys w' :
  serving steps m σ -> conns_ (srv σ) !! g = Some state -> refused (conn state) data = false ->
  (x_cmd <$> ys) `prefix_of` fr_cmds (completed (conn state) data) ->
  cut_short E kStartedMs (x_cmd <$> ys) (store_ (srv σ)) (out_ (conn state)) (files σ) w' ->
  falls (oversized o fd (trace σ)) False (execs steps) ys m w' ->
  ended (mkSys (srv σ) w' (calls σ) (trace σ ++ [Interrupted g data (files σ)])).
Proof.
  intros [H1 H2 Hfin H3 H4 H5 H6 H7] Hg Hr Hys Hcut Hfa. destruct (H3 g) as (c & Hs & Hc). specialize (Hc _ Hg) as <-.
  exists (steps ++ [(Interrupted g data (files σ), [])]), ys, m.
  assert (sessions_by (owe (steps ++ [(Interrupted g data (files σ), [])]))
    (mkSys (srv σ) w' (calls σ) (trace σ ++ [Interrupted g data (files σ)]))) as Hses.
  { apply (sessions_ext (owe steps)); [intros g'; unfold owe; by rewrite done_of_snoc|].
    by apply (sessions_silent (owe steps) σ _ (Interrupted g data (files σ))). }
  split_and!; [by rewrite fmap_app, H1|eapply recorded_snoc; [done|done| |exact Hses]; by rewrite H1|done|..].
  - unfold in_flight. rewrite last_snoc. exists state. split_and!; [done| |done].
    rewrite done_of_snoc, (fmap_app fst steps), H1. cbn [fmap list_fmap fst]. rewrite session_of_snoc.
    by eapply session_next.
  - apply covers_snoc; [cbn; tauto|done].
  - rewrite execs_snoc, app_nil_r. cbn [trace files].
    eapply (falls_mono _ _ _ _ _ _ _ _ _ False); [apply oversized_app|done|exact Hfa].
Qed.

Lemma serves_feed g state data :
  serves (fun σ => inv false σ /\ conns_ (srv σ) !! g = Some state) (feed E kStartedMs g state data)
    (fun _ => inv false).
Proof using Hco Hck.
  intros σ [(steps & m & H & _) Hg]. pose proof H as [H1 H2 Hfin H3 H4 H5 H6 H7].
  destruct (H3 g) as (c & Hs & Hc). specialize (Hc _ Hg) as <-. pose proof (proj1 Hs) as Hwf.
  pose proof (wp_on_bytes_stands E Hco Hck kStartedMs V0 cs0 T0 n0 o fs _ (conn state) data (execs steps) m
    (store_ (srv σ)) (files σ) Hwf (H4 _ _ Hg) H7) as Hon. unfold wp in Hon.
  pose proof (quiet_feed E kStartedMs g state data σ) as [_ Hlog].
  destruct (on_bytes E kStartedMs (conn state) data (store_ (srv σ)) (files σ))
    as [[[[[b c'] st']|]|e|] w'] eqn:Hrun; cbn [fst snd] in Hon; [|done|..].
  2, 3: destruct Hon as (ys & Hr & Hys & Hcut & Hfa); unfold feed; rewrite Hrun; by eapply feed_ended.
  destruct Hon as (ys & Hok & Hst & Hmax).
  assert (sessions_by (owe (steps ++ [(Received g data, ys)])) (feed E kStartedMs g state data σ).2) as Hses.
  { apply (sessions_fed (owe steps) E kStartedMs _ (replied ys) g state data b c' st' w'); try done.
    - intros g' Hne. unfold owe. rewrite done_of_snoc. unfold done_step. cbn.
      by rewrite (proj2 (Z.eqb_neq g g')) by done.
    - apply owe_fed. }
  revert Hses Hlog. unfold feed. rewrite Hrun. cbv [put_conn mbind SM_bind server put_server]. cbn [fst snd].
  intros Hses Hlog. exists (steps ++ [(Received g data, ys)]), m. split; [|done]. constructor.
  - by rewrite fmap_app, H1.
  - eapply recorded_snoc; [done|done| |exact Hses]. by rewrite H1.
  - apply Forall_app. split; [done|]. by apply Forall_singleton.
  - exact Hses.
  - cbn. apply map_Forall_insert_2; [|done]. cbn. rewrite Hmax. exact (H4 _ _ Hg).
  - by eapply loop_inv_rel.
  - apply covers_snoc; [cbn; tauto|done].
  - rewrite execs_snoc. cbn [trace files srv set_conns store_]. eapply stands_mono; [apply oversized_app|exact Hst].
Qed.

Lemma serves_read_loop script g state :
  serves (fun σ => inv false σ /\ conns_ (srv σ) !! g = Some state) (read_loop E kStartedMs script g state)
    (fun _ => inv false).
Proof using Hco Hck.
  induction script as [|[[]|[|b data]] script IH]; cbn [read_loop];
    try (apply serves_ret; by intros σ [H _]); [|done|].
  - intros σ [H _]. by eapply inv_ended.
  - eapply serves_bind; [apply serves_feed|]. intros u. by apply serves_ret.
Qed.

Lemma serves_service g mask : serves (inv false) (service E N kStartedMs g mask) (fun _ => inv false).
Proof using Hco Hck.
  unfold service. apply serves_server. intros s. destruct (conns_ s !! g) as [state|] eqn:Hg.
  2: { apply serves_ret. by intros σ [H _]. }
  destruct (negb _).
  { eapply serves_bind; [eapply serves_weaken; [|done|apply (serves_close false)]; by intros σ [H _]|].
    intros u. by apply serves_ret. }
  destruct (negb _); [|apply serves_ret; by intros σ [H _]]. unfold read_available.
  eapply serves_bind.
  - apply (serves_bind _ _ _ (fun _ σ => inv false σ /\ conns_ (srv σ) !! g = Some state)).
    + intros σ [H <-]. split; [|done]. by apply (serves_next_call false σ).
    + intros n. apply serves_read_loop.
  - intros [].
    + by apply serves_ret.
    + eapply serves_bind; [apply (serves_close false)|]. intros u. by apply serves_ret.
Qed.

Lemma serves_handle_events events : forall touched,
  serves (inv false) (handle_events E N kStartedMs events touched) (fun _ => inv false).
Proof using Hco Hck.
  induction events as [|[g mask] events IH]; intros touched; cbn [handle_events]; [by apply serves_ret|].
  apply serves_server. intros s. apply (serves_weaken (inv false) _ _ (fun _ => inv false)); [by intros σ [H _]|done|].
  destruct (_ =? _).
  - unfold accept_ready. eapply serves_bind; [|intros u; apply IH].
    eapply serves_bind; [apply serves_next_call|]. intros n. apply serves_accept_loop.
  - eapply serves_bind; [apply serves_service|]. intros b. apply IH.
Qed.

(** *** The store between the events *)

(** Work of the store that makes no change to the history, on files of which [C] holds,
    and that leaves nothing to say of the disk only for the reason [D]. *)
Definition store_step {A} (C : world -> Prop) (D : Store -> world -> world -> Prop) (f : Store -> M (A * Store)) : Prop :=
  forall V ws s n w st, C w -> options_ st = o -> follows E V ws s n w st ->
    wp (f st) (fun r w' => match r with
      | Ret (_, st') => options_ st' = o /\ exists s', follows E V ws s' n w' st' /\ (s <= s')%nat
      | Throw _ => False
      | Dead => D st w w' \/ survives o V ws s (now_of E w') w'
      end) w.

Lemma step_stands {A} (C : world -> Prop) (D : Store -> world -> world -> Prop) (f : Store -> M (A * Store)) X xs m w st :
  logged E snd st (f st) -> store_step C D f -> X \/ C w -> stands X xs m w st ->
  match f st w with
  | (Ret (_, st'), w') => stands X xs m w' st'
  | (_, w') => falls X (D st w w') xs [] m w'
  end.
Proof using Hck.
  intros Hlog Hf HC. destruct (Hlog w) as [Ht Hl].
  intros Hst. assert (X \/ crowded n0 xs \/ C w /\ standing E V0 cs0 T0 n0 o fs xs m w st) as Hcase
    by (destruct Hst as [?|[?|?]], HC as [?|?]; auto).
  destruct Hcase as [HX|[HX|[Hc (Ho & Hp & Hle & pre & ws & s & Hcs & Hfol & Hm)]]].
  1, 2: unfold stands, falls; rewrite app_nil_r; destruct (f _ _) as [[[]|e|] w']; tauto.
  specialize (Hf _ _ _ _ _ _ Hc Ho Hfol). unfold wp in Hf. revert Hf Ht Hl.
  destruct (f _ _) as [[[a st']|e|] w']; cbn [fst snd]; intros Hf Ht Hl; [|done|].
  - destruct Hf as (Ho' & s' & Hfol' & Hs'). right. right. split_and!; [done| | |].
    + by rewrite (same_log_policy st st' (lr_log _ _ _ Hl)).
    + eapply legal_later; [|exact Hle]. by apply now_mono.
    + exists pre, ws, s'. split_and!; [done|done|lia].
  - right. right. unfold fallen. rewrite app_nil_r. split; [eapply legal_later; [|exact Hle]; by apply now_mono|].
    right. destruct Hf as [?|Hf]; [by left|right]. exists pre, ws, s. by split_and!.
Qed.

Lemma serves_on_store_if {A} (C : world -> Prop) (D : Store -> world -> world -> Prop) (L : sys -> Prop)
    (f : Store -> M (A * Store)) :
  (forall st, logged E snd st (f st)) -> store_step C D f ->
  (forall σ w', L σ -> D (store_ (srv σ)) (files σ) w' -> torn_end (mkSys (srv σ) w' (calls σ) (trace σ))) ->
  serves (fun σ => inv false σ /\ L σ /\ (oversized o fd (trace σ) \/ C (files σ))) (on_store f) (fun _ => inv false).
Proof using Hck.
  intros Hlog Hf HD σ [(steps & m & H & _) [HL HC]]. pose proof H as [H1 H2 Hfin H3 H4 H5 H6 H7].
  pose proof (sessions_on_store (owe steps) f σ H3) as Hses.
  pose proof (quiet_on_store E f Hlog σ) as [_ Hq].
  pose proof (step_stands C D f _ _ _ _ _ (Hlog _) Hf HC H7) as Hst. unfold on_store in *.
  destruct (f (store_ (srv σ)) (files σ)) as [[[a st']|e|] w']; cbn [fst snd] in *;
    [|exists steps, [], m; split_and!; try done; [by apply in_flight_none|];
      eapply falls_mono; [done|apply (HD σ w' HL)|exact Hst]..].
  exists steps, m. split; [|done]. constructor; try done. by eapply loop_inv_rel.
Qed.

Lemma serves_on_store {A} (f : Store -> M (A * Store)) :
  (forall st, logged E snd st (f st)) -> store_step (fun _ => True) (fun _ _ _ => False) f ->
  serves (inv false) (on_store f) (fun _ => inv false).
Proof using Hck.
  intros Hlog Hf. eapply (serves_weaken _ _ _ (fun _ => inv false));
    [|done|exact (serves_on_store_if _ _ (fun _ => True) f Hlog Hf (fun σ w' _ HF => False_ind _ HF))].
  intros σ H. by split_and!; [| |right].
Qed.

Lemma serves_sweep : serves (inv false) (on_store (fun st => sweep_expired E st kSweepBudget)) (fun _ => inv false).
Proof using Hck.
  apply serves_on_store; [intros; apply logged_sweep|]. intros V ws s n w st _ Ho [Hr (g & R)].
  eapply wp_mono; [apply wp_ticks; [apply (logged_ticks E _ _ _ (logged_sweep E st kSweepBudget))|];
    by apply (wp_sweep_run E (now_of E w) V ws s st g)|].
  intros [[a st']|e|] w' [Hst Ht]; [|done|].
  - destruct Hst as ((now & b & Hm & Hq) & Ho' & g' & s' & R' & Hs). cbn in *. rewrite app_nil_r in R'.
    split; [congruence|]. exists s'. split; [|done]. split.
    + destruct Hr as [L1 L2 L3]. constructor; [by rewrite Ho'| |by rewrite Hq].
      rewrite Hm. apply roomy_sweep; [apply (si_mem _ _ _ (rn_inv _ _ _ _ _ _ _ R))|done].
    + exists g'. eapply running_later; [by apply now_mono|done].
  - cbn in Hst. rewrite app_nil_r, Ho in Hst. right. eapply survives_later; [by apply now_mono|done].
Qed.

(** Room for a merge, if there are merges. *)
Definition room (w : world) : Prop := use_compaction o = true -> disk_use w < kMaxDisk.

Lemma step_compact : store_step room (fun st w w' => exists now, torn_merge E st w now w') (maybe_compact E).
Proof using Hco Hck.
  intros V ws s n w st Hroom Ho [Hr (g & R)].
  eapply wp_mono; [apply wp_keep, wp_ticks; [apply (logged_ticks E _ _ _ (logged_maybe_compact E st))|];
    apply (wp_maybe_compact_run E Hco V ws s (now_of E w) st g w R)|].
  { rewrite Ho. intros Huse. by eapply running_fits, Hroom. }
  intros [[a st']|e|] w' [Hmc [Hst Ht]]; [|done|].
  - destruct Hst as (Em & Eo & En & Hrun). split; [congruence|]. exists s. split; [|done]. split.
    + destruct Hr as [L1 L2 L3]. by constructor; rewrite ?Eo, ?Em, ?En.
    + apply Hrun; [by apply now_mono|]. intros t Hle. by apply (cs_mono _ Hck).
  - cbn in Hst. rewrite Ho in Hst. destruct Hst as [Hst|(now & Hhalf & _)]; [right|left; by exists now].
    apply Hst; [by apply now_mono|]. intros t Hle. by apply (cs_mono _ Hck).
Qed.

Lemma serves_compact : serves (inv false) (compact_tick E) (fun _ => inv false).
Proof using Hco Hck.
  apply (serves_bind _ _ _ (fun _ σ => inv false σ /\ last (trace σ) = Some (Merging (files σ)) /\
    (oversized o fd (trace σ) \/ room (files σ)))).
  2: { intros u. eapply (serves_on_store_if _ _ (fun σ => last (trace σ) = Some (Merging (files σ))));
       [intros; apply logged_maybe_compact|apply step_compact|].
       intros σ w' Hl (now & Htorn). by exists (files σ), now. }
  intros σ (steps & m & H & _). split_and!.
  - exists (steps ++ [(Merging (files σ), [])]), m. split; [|done]. eapply serving_event; try done.
    + apply (sessions_ext (owe steps)); [|by apply (sessions_note (owe steps) Merging (fun _ => I) σ), H].
      intros g'. unfold owe. by rewrite done_of_snoc.
    + apply H.
  - apply last_snoc.
  - unfold room. cbn [log trace files snd]. destruct (use_compaction o) eqn:Hu; [|by right].
    destruct (Z.lt_ge_cases (disk_use (files σ)) kMaxDisk) as [?|Hge]; [by right|left].
    right. split; [done|]. apply Exists_app. right. by apply Exists_cons_hd.
Qed.

(** The log, in the store. *)
Lemma serves_log (f : Wal -> M (bool * Wal)) :
  (forall st, logged E snd st (match wal_ st with
    | None => mret (true, st)
    | Some wal => '(ok, wal) ← f wal; mret (ok, set_wal st (Some wal))
    end)) ->
  (forall V ws s T st g w, running V ws s T w st g ->
    wp (match wal_ st with
      | None => mret (true, st)
      | Some wal => '(ok, wal) ← f wal; mret (ok, set_wal st (Some wal))
      end) (step_post V ws [] s T st snd (fun x _ => exists wal, x.2 = set_wal st (Some wal))) w) ->
  serves (inv false) (on_wal f) (fun _ => inv false).
Proof using Hck.
  intros Hlog Hf. apply serves_on_store; [done|]. intros V ws s n w st _ Ho [Hr (g & R)].
  eapply wp_mono; [apply wp_ticks; [apply (logged_ticks E _ _ _ (Hlog st))|by apply (Hf V ws s (now_of E w) st g)]|].
  intros [[a st']|e|] w' [Hst Ht]; [|done|].
  - destruct Hst as ((wal & Hw) & Ho' & g' & s' & R' & Hs). cbn in *. rewrite app_nil_r in R'.
    split; [congruence|]. exists s'. split; [|done]. split; [|exists g'; eapply running_later; [by apply now_mono|done]].
    subst st'. destruct Hr. by constructor.
  - cbn in Hst. rewrite app_nil_r, Ho in Hst. right. eapply survives_later; [by apply now_mono|done].
Qed.

Lemma serves_sync : serves (inv false) (on_wal (sync E)) (fun _ => inv false).
Proof using Hco Hck.
  apply serves_log; [apply (logged_on_log E CSync)|]. intros V ws s T st g w R.
  eapply wp_mono; [exact (wp_sync_run E Hco T V ws s st g w R)|]. intros r w' [H _].
  eapply step_ok; [|exact H]. intros x _ (wal & ->). by exists wal.
Qed.

Lemma serves_maybe_sync : serves (inv false) (on_wal (maybe_sync E)) (fun _ => inv false).
Proof using Hco Hck.
  apply serves_log; [apply (logged_on_log E CMaybeSync)|]. intros V ws s T st g w R.
  eapply wp_mono; [exact (wp_maybe_sync_run E Hco T V ws s st g w R)|]. intros r w' H.
  eapply step_ok; [|exact H]. intros x _ (wal & ->). by exists wal.
Qed.

(** *** The commit *)

Lemma execs_app a b : execs (a ++ b) = execs a ++ execs b.
Proof. unfold execs. by rewrite fmap_app, concat_app. Qed.

Lemma history_prefix a b : (length (history (execs a)) <= length (history (execs (a ++ b))))%nat.
Proof. unfold history_of. rewrite execs_app, effects_app, !length_app. lia. Qed.

Lemma covers_mono m m' steps : (m <= m')%nat -> covers m steps -> covers m' steps.
Proof. intros Hm [H0 H]. split; [lia|]. intros a s b Hs Hsent. specialize (H a s b Hs Hsent). lia. Qed.

(** With nothing left to sync, all of the history is durable. *)
Lemma serving_clean steps m σ :
  serving steps m σ -> (forall wal, wal_ (store_ (srv σ)) = Some wal -> needs_sync wal = false) ->
  exists m', serving steps m' σ /\ full steps m' σ.
Proof using Hco.
  intros H Hclean. pose proof H as [H1 H2 Hfin H3 H4 H5 H6 H7]. pose proof H5 as [(wal & Hw & Hfd) _].
  destruct (clean_covered E fd σ wal H5 Hw (Hclean wal Hw)) as [Hd|[Hk|Hbig]].
  2: by apply (co_kernel E Hco) in Hk.
  2: exists m; split; [done|by right].
  set (L := length (history (execs steps))). exists (Nat.max m L). split; [|left; lia].
  constructor; try done; [eapply covers_mono; [|done]; lia|].
  destruct H7 as [?|[?|(Ho & Hp & Hl & pre & ws & s & Hcs & [Hr (g & R)] & Hm)]]; [by left|by right; left|].
  right. right. split_and!; [done|done|done|].
  assert (s <= length ws)%nat as Hs by (eapply follows_length; split; [done|by exists g]).
  assert (L = length pre + length ws)%nat as HL by (unfold L; rewrite Hcs, length_app; unfold puts; by rewrite length_fmap).
  exists pre, ws, (length ws). split_and!; [done| |lia]. split; [done|]. eexists.
  apply (running_synced (now_of E (files σ)) _ _ s _ _ g R).
  destruct (rn_wal _ _ _ _ _ _ _ R) as (wal' & Hw' & <-). by replace wal' with wal by congruence; rewrite Hfd.
Qed.

Lemma serves_commit : serves (inv false) (commit E) inv.
Proof using Hco Hck.
  intros σ Hσ. assert (serves (inv false) (commit E) (fun _ => inv false)) as Hc.
  { apply serves_log.
    - intros st. apply logged_commit.
    - intros V ws s T st g w R. destruct (rn_wal _ _ _ _ _ _ _ R) as (wal & Hw & _). rewrite Hw.
      destruct (needs_sync wal).
      + pose proof (wp_sync_run E Hco T V ws s st g w R) as H. unfold store_sync in H. rewrite Hw in H.
        eapply wp_mono; [exact H|]. intros r w' [Hr _]. eapply step_ok; [|exact Hr].
        intros x _ (wal' & ->). by exists wal'.
      + apply wp_bind, wp_ret, wp_ret. split; [by exists wal|]. split; [done|]. exists g, s.
        rewrite app_nil_r. split; [|done]. cbn. rewrite <- Hw. by destruct st. }
  specialize (Hc σ Hσ). pose proof (commit_clean E σ) as Hclean.
  destruct (commit E σ) as [[[]|e|] σ1]; try done. destruct Hc as (steps & m & H & _).
  destruct (serving_clean steps m σ1 H (Hclean σ1 eq_refl)) as (m' & H' & Hf). by exists steps, m'.
Qed.

(** *** The replies *)

Lemma consume_max c n : max_read_buffer_ (consume_output c n) = max_read_buffer_ c.
Proof. unfold consume_output. by repeat case_match. Qed.

(** Bytes leave while all of the history is durable. *)
Lemma serving_sent steps m σ σ' g data :
  serving steps m σ -> full steps m σ -> trace σ' = trace σ ++ [Sent g data (files σ)] ->
  files σ' = files σ -> store_ (srv σ') = store_ (srv σ) -> sessions_by (owe steps) σ' ->
  map_Forall (fun _ cs => max_read_buffer_ (conn cs) <= kMaxReadBuffer) (conns_ (srv σ')) ->
  exists m', serving (steps ++ [(Sent g data (files σ), [])]) m' σ' /\
    full (steps ++ [(Sent g data (files σ), [])]) m' σ'.
Proof.
  intros [H1 H2 Hfin H3 H4 H5 H6 H7] Hfull Ht Hf Hs Hses Hc. set (L := length (history (execs steps))).
  assert (sessions_by (owe (steps ++ [(Sent g data (files σ), [])])) σ') as Hses'.
  { eapply sessions_ext; [|exact Hses]. intros g'. unfold owe. by rewrite done_of_snoc. }
  exists (Nat.max m L). split; [|left; rewrite execs_snoc, app_nil_r; lia]. constructor.
  - by rewrite fmap_app, H1, Ht.
  - eapply recorded_snoc; [done|done|by rewrite H1|exact Hses'].
  - apply Forall_app. split; [done|]. by apply Forall_singleton.
  - exact Hses'.
  - done.
  - unfold loop_inv, log_fd in *. by rewrite Hf, Hs.
  - destruct H6 as [H0 H6]. split; [lia|]. intros a s b Heq Hsent.
    destruct b as [|y b _] using rev_ind.
    + apply app_inj_tail in Heq as [<- _]. lia.
    + rewrite app_comm_cons, app_assoc in Heq. apply app_inj_tail in Heq as [-> _].
      specialize (H6 a s b eq_refl Hsent). lia.
  - rewrite execs_snoc, app_nil_r, Hf, Hs, Ht. destruct Hfull as [Hle|Hbig].
    + rewrite Nat.max_l by lia. eapply stands_mono; [apply oversized_app|done].
    + left. left. apply Exists_app. right. by apply Exists_cons_hd.
Qed.

Lemma serves_put_conn F g old new :
  conn new = conn old ->
  serves (fun σ => inv F σ /\ conns_ (srv σ) !! g = Some old) (put_conn g new) (fun _ => inv F).
Proof.
  intros Hn σ [(steps & m & H & HF) Hg]. exists steps, m. split; [|done]. eapply serving_conns; try done.
  - intros g'. destruct (sv_sessions _ _ _ H g') as (c & Hs & Hc). exists c. split; [done|].
    cbn. intros cs. destruct (decide (g' = g)) as [->|Hne].
    + rewrite lookup_insert_eq. intros [= <-]. rewrite Hn. by apply Hc.
    + rewrite lookup_insert_ne by done. apply Hc.
  - cbn. apply map_Forall_insert_2; [|apply H]. rewrite Hn. exact (sv_conns _ _ _ H _ _ Hg).
Qed.

Lemma serves_send_loop script g : forall state,
  serves (fun σ => inv true σ /\ conns_ (srv σ) !! g = Some state) (send_loop script g state)
    (fun r σ => inv true σ /\ conns_ (srv σ) !! g = Some r.2).
Proof.
  assert (forall b state, serves (fun σ => inv true σ /\ conns_ (srv σ) !! g = Some state) (mret (b, state))
    (fun (r : bool * ConnState) σ => inv true σ /\ conns_ (srv σ) !! g = Some r.2)) as Hret.
  { intros b state. by apply serves_ret. }
  induction script as [|[err|n] script IH]; intros state; cbn [send_loop]; (case_match; [apply Hret|]).
  - intros σ [Hi _]. by eapply inv_ended.
  - destruct err; auto.
  - destruct (Nat.min n _) as [|k] eqn:Hk; [apply Hret|].
    set (data := take (S k) (pending_output (conn state))).
    set (state' := mkConnState (consume_output (conn state) (Z.of_nat (S k))) (interest state)).
    intros σ [(steps & m & Hv & HF) Hg]. cbv [mbind SM_bind log put_conn server put_server].
    apply IH. split; [|apply lookup_insert_eq].
    match goal with |- inv true ?x => set (σ' := x) end.
    assert (sessions_by (owe steps) σ') as Hses.
    { apply (sessions_sent_one (owe steps) g state (S k) σ Hg); [lia|apply Hv]. }
    destruct (serving_sent steps m σ σ' g data Hv (HF eq_refl) eq_refl eq_refl eq_refl Hses) as (m' & Hv' & Hf').
    { cbn. apply map_Forall_insert_2; [|apply Hv]. cbn. rewrite consume_max. exact (sv_conns _ _ _ Hv _ _ Hg). }
    by exists (steps ++ [(Sent g data (files σ), [])]), m'.
Qed.

Lemma serves_watched F g mask granted σ :
  inv F σ -> inv F (log (fun _ => Watched g mask granted) σ).2.
Proof.
  intros (steps & m & H & HF). exists (steps ++ [(Watched g mask granted, [])]), m. split.
  - eapply serving_event; try done; [|apply H].
    apply (sessions_ext (owe steps)); [intros g'; unfold owe; by rewrite done_of_snoc|].
    by apply (sessions_note (owe steps) (fun _ => Watched g mask granted) (fun _ => I) σ), H.
  - intros Ht. eapply full_same; [done|auto].
Qed.

Lemma serves_update_interest g state :
  serves (fun σ => inv true σ /\ conns_ (srv σ) !! g = Some state) (update_interest N g state) (fun _ => inv true).
Proof.
  unfold update_interest. case_match; [apply serves_ret; by intros σ [Hi _]|].
  apply (serves_bind _ _ _ (fun _ σ => inv true σ /\ conns_ (srv σ) !! g = Some state)).
  - intros σ [Hi Hg]. split; [|done]. by apply (serves_next_call true σ).
  - intros n. apply (serves_bind _ _ _ (fun _ σ => inv true σ /\ conns_ (srv σ) !! g = Some state)).
    + intros σ [Hi Hg]. split; [|done]. by apply serves_watched.
    + intros u. case_match; [by apply (serves_put_conn _ _ state)|apply serves_ret; by intros σ [Hi _]].
Qed.

Lemma serves_release g : serves (inv true) (release N g) (fun _ => inv true).
Proof.
  unfold release. apply serves_server. intros s. destruct (conns_ s !! g) as [state|] eqn:Hg.
  2: { apply serves_ret. by intros σ [H _]. }
  apply (serves_bind _ _ _ (fun r σ => inv true σ /\ conns_ (srv σ) !! g = Some r.2)).
  - apply (serves_weaken (fun σ => inv true σ /\ conns_ (srv σ) !! g = Some state) _ _
      (fun r σ => inv true σ /\ conns_ (srv σ) !! g = Some r.2)); [by intros σ [H <-]|done|].
    destruct (has_pending_output _); [|by apply serves_ret]. unfold write_pending.
    apply (serves_bind _ _ _ (fun _ σ => inv true σ /\ conns_ (srv σ) !! g = Some state));
      [|intros n; apply serves_send_loop].
    intros σ [H Hg']. split; [|done]. by apply (serves_next_call true σ).
  - intros [ok state']. cbn [snd].
    destruct (negb ok); [|destruct (should_close _); [|apply serves_update_interest]];
      (apply (serves_weaken (inv true) _ _ (fun _ => inv true)); [by intros σ [H _]|done|apply serves_close]).
Qed.

Lemma serves_release_all touched : serves (inv true) (release_all N touched) (fun _ => inv true).
Proof.
  induction touched as [|g touched IH]; cbn [release_all]; [by apply serves_ret|].
  eapply serves_bind; [apply serves_release|]. intros u. apply IH.
Qed.

(** *** The loop *)

Lemma serves_after_commit touched : serves (inv true) (after_commit E N touched) (fun _ => inv false).
Proof using Hco Hck.
  unfold after_commit. eapply serves_bind; [apply serves_release_all|]. intros u.
  eapply serves_bind; [eapply (serves_weaken (inv false)); [apply inv_weaken|intros a σ H; exact H|apply serves_sweep]|].
  intros a. eapply serves_bind; [apply serves_compact|]. intros b.
  eapply serves_bind; [apply serves_maybe_sync|]. intros c. by apply serves_ret.
Qed.

Lemma serves_iteration : serves (inv false) (iteration E N kStartedMs) (fun _ => inv false).
Proof using Hco Hck.
  unfold iteration. eapply serves_bind; [apply serves_next_call|]. intros n.
  destruct (epoll_at N n) as [[]|events]; try apply serves_throw; [by apply serves_ret|].
  eapply serves_bind; [apply serves_handle_events|]. intros touched.
  eapply serves_bind; [apply serves_commit|]. intros [].
  - eapply serves_bind; [apply serves_after_commit|]. intros u. by apply serves_ret.
  - by apply serves_ret.
Qed.

Lemma serves_run fuel : serves (inv false) (run E N kStartedMs fuel) (fun _ => inv false).
Proof using Hco Hck.
  induction fuel as [|fuel IH]; cbn [run]; [by apply serves_ret|].
  eapply serves_bind; [apply serves_next_call|]. intros n. destruct (shutdown_at N n).
  - eapply serves_bind; [apply serves_sync|]. intros b. by apply serves_ret.
  - eapply serves_bind; [apply serves_iteration|]. intros [b|]; [by apply serves_ret|done].
Qed.

(** A server that is about to start. *)
Lemma inv_start σ ws n :
  Forall is_listening (trace σ) -> conns_ (srv σ) = ∅ -> loop_inv E fd σ -> cs0 = puts ws -> n = n0 ->
  options_ (store_ (srv σ)) = o -> policy_name (wal_policy (store_ (srv σ))) = fs ->
  T0 = now_of E (files σ) -> follows E V0 ws m0 n (files σ) (store_ (srv σ)) -> inv false σ.
Proof.
  intros Ht Hc Hl Hcs -> Ho Hp HT Hf. destruct (listening_steps _ Ht) as (steps & H1 & H2 & H3 & H4 & H5 & H6).
  exists steps, m0. split; [|done]. constructor; try done.
  - eapply Forall_impl; [exact H6|]. by intros [[] ?].
  - intros g. exists (Connection_init 0). unfold owe. rewrite H4, H5. split; [by apply session_init|].
    by rewrite Hc, lookup_empty.
  - rewrite Hc. apply map_Forall_empty.
  - split; [done|]. intros a x b -> Hx. apply Forall_app in H6 as [_ H6]. apply Forall_cons in H6 as [H6 _].
    by destruct x as [[] ?].
  - rewrite H3. right. right. split_and!; [done|done|cbn; lia|]. exists [], ws, m0. cbn. rewrite Z.add_0_r.
    split_and!; [|done|done]. unfold history_of. cbn. by rewrite app_nil_r, Hcs.
Qed.

(** How a run ends, whatever its outcome; a run that returned has nothing in flight and
    a store that stands. *)
Lemma run_ended fuel σ :
  inv false σ -> let r := run E N kStartedMs fuel σ in
  exists steps ys m, steps.*1 = trace r.2 /\ recorded steps /\ sessions_by (owe steps) r.2 /\
    in_flight steps ys r.2 /\ (forall b, r.1 = Ret b -> ys = []) /\
    (forall b, r.1 = Ret b -> stands (oversized o fd (trace r.2)) (execs steps) m (files r.2) (store_ (srv r.2))) /\
    covers m steps /\
    falls (oversized o fd (trace r.2)) (torn_end r.2) (execs steps) ys m (files r.2).
Proof using Hco Hck.
  intros Hσ r. pose proof (serves_run fuel σ Hσ) as H. subst r.
  destruct (run E N kStartedMs fuel σ) as [[b|e|] σ']; cbn [fst snd].
  - destruct H as (steps & m & [H1 H2 Hfin H3 H4 H5 H6 H7] & _). exists steps, [], m.
    split_and!; try done; [by apply in_flight_none|]. by eapply stands_falls.
  - destruct H as (steps & ys & m & ? & ? & ? & ? & ? & ?). exists steps, ys, m. by split_and!.
  - destruct H as (steps & ys & m & ? & ? & ? & ? & ? & ?). exists steps, ys, m. by split_and!.
Qed.

End service.

(** ** The theorems *)

(** A point of a history that ends in writes. *)
Lemma state_take V pre ws j k :
  state V (take (length pre + j) (pre ++ puts ws)) k = after (state V pre) (take j ws) k.
Proof. rewrite take_app_add. unfold puts. by rewrite <- fmap_take, state_app, state_puts. Qed.

(** A server at rest that is about to serve: its store follows a history, nobody is
    connected, and no event but that of the constructor has happened. *)
Record about_to_serve (E : env) (fd : nat) (V : bytes -> option Entry) (ws : list write) (s : nat) (n : Z)
    (σ : sys) : Prop := mkAbout {
  ab_trace : Forall is_listening (trace σ);
  ab_conns : conns_ (srv σ) = ∅;
  ab_loop : loop_inv E fd σ;
  ab_follows : follows E V ws s n (files σ) (store_ (srv σ))
}.

Lemma served E N kStartedMs fuel σ fd V ws s n :
  crash_only E -> clock_sane E -> about_to_serve E fd V ws s n σ ->
  let st := store_ (srv σ) in
  let r := run E N kStartedMs fuel σ in
  exists steps ys m, steps.*1 = trace r.2 /\ recorded steps /\ sessions_by (owe steps) r.2 /\
    in_flight E kStartedMs steps ys r.2 /\ (forall b, r.1 = Ret b -> ys = []) /\
    (forall b, r.1 = Ret b -> stands E V (puts ws) (now_of E (files σ)) n (options_ st) (policy_name (wal_policy st))
      (oversized (options_ st) fd (trace r.2)) (execs steps) m (files r.2) (store_ (srv r.2))) /\
    covers (puts ws) s m steps /\
    falls E V (puts ws) (now_of E (files σ)) n (options_ st) (policy_name (wal_policy st))
      (oversized (options_ st) fd (trace r.2)) (torn_end E r.2) (execs steps) ys m (files r.2).
Proof.
  intros Hco Hck [H1 H2 H3 H4] st r. eapply run_ended; try done. by eapply inv_start.
Qed.

(** C2: The server is linearizable.  Whatever the clients send and in whatever pieces, in
    any order of readiness, with any errors of the sockets, and wherever the process
    stops or dies: to the input events of the trace belong commands with replies and
    changes, such that at every moment the commands of each connection, those closed
    since included, are those framed from the bytes it sent, the bytes it got are its own
    replies in order (as far as they are sent already), and all commands together, in the order of the events, are one legal
    history of the abstract server from the map the store held at the start, with clock
    readings that do not go back.  When the process dies in a piece of input, the commands
    in flight are those it had begun, none when [run] returns.  (On a kernel whose file
    calls do their work until it kills the process; and unless the store has run out of
    sequence numbers, a reply left while the log's file was beyond 2^64 bytes, or, with
    merges on, a turn looked for tables to merge while the directory held 32 GiB or
    more.) *)
Theorem server_linearizable (E : env) (N : net) (kStartedMs : Z) (fuel : nat) (σ : sys) (fd : nat)
    (V : bytes -> option Entry) (ws : list write) (s : nat) (n : Z) :
  crash_only E -> clock_sane E -> about_to_serve E fd V ws s n σ ->
  let r := run E N kStartedMs fuel σ in
  exists steps ys, steps.*1 = trace r.2 /\ recorded steps /\ sessions_by (owe steps) r.2 /\
    in_flight E kStartedMs steps ys r.2 /\ (forall b, r.1 = Ret b -> ys = []) /\
    (legal (policy_name (wal_policy (store_ (srv σ)))) (now_of E (files σ)) (state V (puts ws))
       (execs steps ++ ys) (now_of E (files r.2)) \/
     crowded n (execs steps ++ ys) \/ oversized (options_ (store_ (srv σ))) fd (trace r.2)).
Proof.
  intros Hco Hck Hab r. destruct (served E N kStartedMs fuel σ fd V ws s n Hco Hck Hab)
    as (steps & ys & m & H1 & H2 & H3 & H4 & H5 & _ & _ & Hf). exists steps, ys. split_and!; try done.
  destruct Hf as [?|[?|[? _]]]; auto.
Qed.

(** The history of a run, of which [m] changes outlive any crash, unless it died where a
    crash can bring something back. *)
Lemma run_outlives E N kStartedMs fuel σ fd V ws s n o :
  crash_only E -> clock_sane E -> about_to_serve E fd V ws s n σ ->
  options_ (store_ (srv σ)) = store_options o ->
  let r := run E N kStartedMs fuel σ in
  exists steps ys m, let xs := execs steps ++ ys in
    steps.*1 = trace r.2 /\ recorded steps /\ sessions_by (owe steps) r.2 /\
    in_flight E kStartedMs steps ys r.2 /\ (forall b, r.1 = Ret b -> ys = []) /\
    (forall a e b, steps = a ++ (e, []) :: b -> is_sent e -> (length (puts ws ++ effects (execs a)) <= m)%nat) /\
    (crowded n xs \/ oversized (options_ (store_ (srv σ))) fd (trace r.2) \/
     legal (policy_name (wal_policy (store_ (srv σ)))) (now_of E (files σ)) (state V (puts ws)) xs
       (now_of E (files r.2)) /\
     (in_wipe ys \/ (forall b, r.1 <> Ret b) /\ torn_end E r.2 \/
      outlives E V (store_options o) (puts ws ++ effects xs) m (files r.2))).
Proof.
  intros Hco Hck Hab Ho r. destruct (served E N kStartedMs fuel σ fd V ws s n Hco Hck Hab)
    as (steps & ys & m & H1 & H2 & H3 & H4 & H5 & Hret & [_ Hcov] & Hf).
  exists steps, ys, m. cbn zeta. split_and!; try done.
  { intros a e b Heq He. exact (Hcov a (e, []) b Heq He). }
  destruct Hf as [?|[?|[Hl Hf]]]; [by right; left|by left|]. rewrite Ho in *.
  assert (crowded n (execs steps ++ ys) \/ oversized (store_options o) fd (trace r.2) \/ in_wipe ys \/
    (forall b, r.1 <> Ret b) /\ torn_end E r.2 \/
    outlives E V (store_options o) (history_of (puts ws) (execs steps ++ ys)) m (files r.2)) as Hcase.
  { destruct r.1 as [b|e|] eqn:Hr; [|naive_solver..]. assert (ys = []) as -> by (by eapply H5).
    rewrite app_nil_r. destruct (Hret b Hr) as [?|[?|(Ho' & _ & _ & Hled)]]; [by right; left|by left|].
    do 4 right. by eapply ledger_outlives. }
  destruct Hcase as [?|[?|Hcase]]; [by left|by right; left|]. right. right. by split.
Qed.

(** C1: No crash takes back what a client was told.  A server runs, its clients send what
    they like, and the process stops, throws or dies anywhere, by a kill or with the
    power.  The run has a history as in the theorem above.  Unless the process died in
    the middle of a FLUSHALL it was executing ([in_flight], [in_wipe]), or in the merge of
    the oldest tables with its table in place and older inputs left ([torn_end]),
    [startup] on what is left of the disk returns, even after any number of start-ups
    that failed or died, and the store it builds answers every key with the value the
    key had at some point [j] of that history:
    [j] comes after every command that was executed before the last byte of a reply
    left the server, whatever the client and whatever the sync policy, so in particular
    after every command whose reply a client has seen. *)
Theorem acknowledged_survive (E : env) (N : net) (kStartedMs : Z) (fuel : nat) (σ : sys) (fd : nat)
    (V : bytes -> option Entry) (ws : list write) (s : nat) (n : Z) (o : Options) :
  crash_only E -> clock_sane E -> about_to_serve E fd V ws s n σ ->
  options_ (store_ (srv σ)) = store_options o -> dir_name o <> [] ->
  let r := run E N kStartedMs fuel σ in
  exists steps ys m, let xs := execs steps ++ ys in
    let changes := puts ws ++ effects xs in
    steps.*1 = trace r.2 /\ recorded steps /\ sessions_by (owe steps) r.2 /\
    in_flight E kStartedMs steps ys r.2 /\ (forall b, r.1 = Ret b -> ys = []) /\
    (forall a e b, steps = a ++ (e, []) :: b -> is_sent e -> (length (puts ws ++ effects (execs a)) <= m)%nat) /\
    (crowded n xs \/ oversized (options_ (store_ (srv σ))) fd (trace r.2) \/
     legal (policy_name (wal_policy (store_ (srv σ)))) (now_of E (files σ)) (state V (puts ws)) xs
       (now_of E (files r.2)) /\
     (in_wipe ys \/ (forall b, r.1 <> Ret b) /\ torn_end E r.2 \/
      forall E' k w0 w1, tried o (files r.2) w0 -> crash w0 w1 -> reliable E' k -> files_within w1 k ->
      exists st' result w2, startup E' o w1 = (Ret (st', result), w2) /\
        forall key, exists j, (m <= j <= length changes)%nat /\
          forall E2 k2, reliable E2 k2 -> (files_budget w2 (sstables_ st') <= k2)%nat ->
            (forall t, now_of E (files r.2) <= clock_at E2 t) ->
            exists t w3, between (tick w2) w3 t /\
              lookup E2 st' key w2 = (Ret (state V (take j changes) key ≫= answer_at (clock_at E2 t)), w3))).
Proof.
  intros Hco Hck Hab Ho Hdir r. destruct (run_outlives E N kStartedMs fuel σ fd V ws s n o Hco Hck Hab Ho)
    as (steps & ys & m & H1 & H2 & H3 & H4 & H5 & H6 & Hcase).
  exists steps, ys, m. cbn zeta. split_and!; try done.
  destruct Hcase as [?|[?|[Hl Hcase]]]; [by left|by right; left|]. right. right. split; [done|].
  destruct Hcase as [?|[?|(pre & new & s' & Hcs & Hm & Hsv)]]; [by left|by right; left|]. right. right.
  intros E' k w0 w1 Htr Hcr Hrel Hwi. apply (tried_survives o _ _ _ _ _ _ Htr) in Hsv. specialize (Hsv w1 Hcr).
  destruct (recoverable_startup E' o _ _ _ _ k w1 Hsv Hdir Hrel Hwi) as (st' & result & w2 & layers & Hst & I & Hk).
  exists st', result, w2. split; [done|]. intros key. destruct (Hk key) as (j & Hj & Ha).
  rewrite Hcs. exists (length pre + j)%nat. split.
  { rewrite length_app. unfold puts. rewrite length_fmap. lia. }
  intros E2 k2 Hrel2 Hb Hclk. destruct (lookup_reliable E2 k2 w2 st' layers.*2 key I Hrel2 Hb) as (t & w3 & Ht & Hlk).
  exists t, w3. split; [done|]. rewrite Hlk, state_take. by rewrite (Ha _ (Hclk t)).
Qed.

(** ** A service to look at

    The listener is descriptor 3.  In the first turn a client connects, in the second it
    sends a SET and gets the reply in two pieces; then the power fails. *)

Definition serve_sys : sys := mkSys (mkServer life_store 4 3 ∅) empty_disk 0 [].
Definition serve_env : env := life_env 99.
Definition serve_run : res (option bool) * sys := run serve_env (demo_net 99) 0 2 serve_sys.

Lemma serve_about_at at_ : about_to_serve (life_env at_) 0 (fun _ => None) [] 0 1 serve_sys.
Proof.
  constructor; [constructor|done| |..].
  - split; [by eexists|]. cbn [srv serve_sys store_ files]. unfold log_inv. cbn [wal_ life_store].
    split; [split; [vm_compute; lia|]|].
    + intros p Hp. apply elem_of_cons in Hp as [->|Hp]; [vm_compute; discriminate|].
      apply elem_of_cons in Hp as [->|Hp]; [vm_compute; discriminate|by apply elem_of_nil in Hp].
    + left. apply sync_count_synced; [apply _|reflexivity|]. vm_compute. reflexivity.
  - exact (life_follows at_).
Qed.

Lemma serve_about : about_to_serve serve_env 0 (fun _ => None) [] 0 1 serve_sys.
Proof. exact (serve_about_at 99). Qed.

(** The events of the run: each turn looks for tables to merge. *)
Lemma serve_trace : exists w0 d1 w1 d2 w2 w3,
  trace serve_run.2 = [Accepted 5; Merging w0; Received 5 demo_request; Sent 5 d1 w1; Sent 5 d2 w2; Merging w3].
Proof.
  assert (match trace serve_run.2 with
          | [Accepted a; Merging _; Received b d; Sent c _ _; Sent e _ _; Merging _] =>
              (a, b, d, c, e) = (5, 5, demo_request, 5, 5)
          | _ => False
          end) as H by (vm_compute; reflexivity).
  revert H. generalize (trace serve_run.2). intros tr.
  do 6 (destruct tr as [|[] tr]; [done|..]; try done). destruct tr; [|done].
  intros [= -> -> -> -> ->]. by eexists _, _, _, _, _, _.
Qed.

Lemma serve_open :
  match conns_ (srv serve_run.2) !! 5 with Some cs => closing_ (conn cs) = false | None => False end.
Proof. vm_compute. reflexivity. Qed.

Lemma serve_framed : fr_cmds (framed demo_request) = [set_k_v].
Proof. vm_compute. reflexivity. Qed.

(** The annotation of such a trace is forced: one command. *)
Lemma serve_steps σ steps w0 d1 w1 d2 w2 w3 :
  trace σ = [Accepted 5; Merging w0; Received 5 demo_request; Sent 5 d1 w1; Sent 5 d2 w2; Merging w3] ->
  match conns_ (srv σ) !! 5 with Some cs => closing_ (conn cs) = false | None => False end ->
  steps.*1 = trace σ -> recorded steps -> sessions_by (owe steps) σ ->
  exists e1 e2 e3 e4 e5 e6 x, steps = [(e1, []); (e2, []); (e3, [x]); (e4, []); (e5, []); (e6, [])] /\
    is_sent e4 /\ x_cmd x = set_k_v.
Proof.
  intros Htr Hcl Ht Hr Hs. rewrite Htr in Ht.
  destruct steps as [|[e1 b1] [|[e2 b2] [|[e3 b3] [|[e4 b4] [|[e5 b5] [|[e6 b6] [|? ?]]]]]]]; try done.
  cbn in Ht. injection Ht as -> -> -> -> -> ->. destruct Hr as [Hr _].
  repeat (apply Forall_cons in Hr as [? Hr]). cbn in *. subst.
  destruct (Hs 5) as (c & (_ & fed & replies & _ & (rs & tail & _ & [Hcs _] & _) & _ & Hopen) & Hc).
  rewrite Htr in Hopen. destruct (conns_ (srv σ) !! 5) as [cs|]; [|done]. rewrite <- (Hc cs eq_refl) in Hopen.
  destruct (Hopen Hcl) as (-> & _). change (fr_cmds (framed demo_request) = x_cmd <$> b3) in Hcs.
  rewrite serve_framed in Hcs.
  destruct b3 as [|x [|? ?]]; try done. injection Hcs as Hx.
  eexists _, _, _, _, _, _, x. by split_and!.
Qed.

Lemma serve_small : ~ oversized (options_ (store_ (srv serve_sys))) 0 (trace serve_run.2).
Proof.
  assert (forallb (fun e => match e with
    | Sent _ _ w => zlen (contents w 0) <? 2 ^ 64
    | Merging w => disk_use w <? kMaxDisk
    | _ => true
    end) (trace serve_run.2) = true) as H by (vm_compute; reflexivity).
  revert H. generalize (trace serve_run.2). intros tr H. rewrite forallb_forall in H.
  intros [(e & He & Hbig)%Exists_exists|[_ (e & He & Hbig)%Exists_exists]];
    specialize (H e); rewrite <- list_elem_of_In in H; specialize (H He);
    destruct e; try done; apply Z.ltb_lt in H; lia.
Qed.

(** What a legal history of that one command is. *)
Lemma serve_legal x lo hi V :
  x_cmd x = set_k_v -> legal (lit "always") lo V [x] hi ->
  x_reply x = RSimple (lit "OK") /\ x_changes x = [Put (lit "k") (mkEntry (lit "v") false 0)].
Proof.
  intros Hx (info & τ & mid & _ & Ha & _). rewrite Hx in Ha.
  assert (abs_execute (lit "always") info τ V set_k_v =
    (RSimple (lit "OK"), [Put (lit "k") (mkEntry (lit "v") false 0)])) as H by (vm_compute; reflexivity).
  rewrite H in Ha. by injection Ha as <- <-.
Qed.

Lemma serve_returned : serve_run.1 = Ret None.
Proof. vm_compute. reflexivity. Qed.

Lemma server_linearizable_witness :
  exists steps x, steps.*1 = trace serve_run.2 /\ execs steps = [x] /\ x_cmd x = set_k_v /\
    x_reply x = RSimple (lit "OK") /\ x_changes x = [Put (lit "k") (mkEntry (lit "v") false 0)].
Proof.
  pose proof (server_linearizable serve_env (demo_net 99) 0 2 serve_sys 0 (fun _ => None) [] 0 1
    (life_crash_only 99) (life_sane 99) serve_about) as H. fold serve_run in H. cbv zeta in H.
  destruct H as (steps & ys & H1 & H2 & H3 & _ & H5 & H6). specialize (H5 _ serve_returned). subst ys. rewrite app_nil_r in H6.
  destruct serve_trace as (w0 & d1 & w1 & d2 & w2 & w3 & Htr).
  destruct (serve_steps _ steps w0 d1 w1 d2 w2 w3 Htr serve_open H1 H2 H3)
    as (e1 & e2 & e3 & e4 & e5 & e6 & x & Hs & _ & Hx).
  exists steps, x. split; [exact H1|]. subst steps. split; [done|]. split; [exact Hx|].
  change (execs [(e1, []); (e2, []); (e3, [x]); (e4, []); (e5, []); (e6, [])]) with [x] in H6.
  change (policy_name (wal_policy (store_ (srv serve_sys)))) with (lit "always") in H6.
  destruct H6 as [Hl|[Hc|Hsw]]; [exact (serve_legal x _ _ _ Hx Hl)| |destruct (serve_small Hsw)].
  unfold crowded in Hc. change (zlen [x]) with 1 in Hc. lia.
Defined.

(** So the run leaves no choice: one change, safe from any crash. *)
Lemma serve_forced steps ys m (torn D : Prop) :
  steps.*1 = trace serve_run.2 -> recorded steps -> sessions_by (owe steps) serve_run.2 ->
  (forall b, serve_run.1 = Ret b -> ys = []) ->
  (forall a e b, steps = a ++ (e, []) :: b -> is_sent e -> (length (puts [] ++ effects (execs a)) <= m)%nat) ->
  crowded 1 (execs steps ++ ys) \/ oversized (options_ (store_ (srv serve_sys))) 0 (trace serve_run.2) \/
  legal (policy_name (wal_policy (store_ (srv serve_sys)))) (now_of serve_env (files serve_sys))
    (state (fun _ => None) (puts [])) (execs steps ++ ys)
    (now_of serve_env (files serve_run.2)) /\
  (in_wipe ys \/ (forall b, serve_run.1 <> Ret b) /\ torn \/ D) ->
  D /\ puts [] ++ effects (execs steps ++ ys) = [Put (lit "k") (mkEntry (lit "v") false 0)] /\ (1 <= m)%nat.
Proof.
  intros H1 H2 H3 H5 H6 H7. specialize (H5 _ serve_returned). subst ys. rewrite app_nil_r in *.
  destruct serve_trace as (w0 & d1 & w1 & d2 & w2 & w3 & Htr).
  destruct (serve_steps _ steps w0 d1 w1 d2 w2 w3 Htr serve_open H1 H2 H3)
    as (e1 & e2 & e3 & e4 & e5 & e6 & x & Hs & He & Hx).
  specialize (H6 [(e1, []); (e2, []); (e3, [x])] e4 [(e5, []); (e6, [])] Hs He). subst steps. clear H1 H2 H3.
  change (execs [(e1, []); (e2, []); (e3, [x]); (e4, []); (e5, []); (e6, [])]) with [x] in *.
  change (execs [(e1, []); (e2, []); (e3, [x])]) with [x] in H6.
  change (policy_name (wal_policy (store_ (srv serve_sys)))) with (lit "always") in H7.
  destruct H7 as [Hc|[Hsw|[Hl H7]]]; [unfold crowded in Hc; change (zlen [x]) with 1 in Hc; lia
    |destruct (serve_small Hsw)|].
  destruct (serve_legal x _ _ _ Hx Hl) as [_ Hch].
  assert (effects [x] = [Put (lit "k") (mkEntry (lit "v") false 0)]) as Heff by (unfold effects; cbn; by rewrite Hch).
  rewrite Heff in *. cbn in H6. split; [|split; [reflexivity|exact H6]].
  destruct H7 as [(y & Hy & _)|[[Hdied _]|H7]]; [discriminate Hy|destruct (Hdied None serve_returned)|exact H7].
Qed.

(** The power fails. *)
Definition serve_left : world := power_loss (files serve_run.2).

Lemma serve_cut : power_cut (files serve_run.2) serve_left.
Proof.
  apply power_loss_cut. change (power_loss (files serve_run.2)) with serve_left.
  assert (next_ino serve_left = 1%nat) as -> by (vm_compute; reflexivity).
  intros [|i] Hi; [vm_compute; reflexivity|lia].
Qed.

Lemma serve_within : files_within serve_left 400.
Proof. apply files_within_map. apply (bool_decide_unpack _). vm_compute. exact I. Qed.

Lemma serve_budget :
  match startup (fair_env 400) life_options serve_left with
  | (Ret (st, _), w2) => (files_budget w2 (sstables_ st) <= 400)%nat
  | _ => False
  end.
Proof. vm_compute. lia. Qed.

Lemma acknowledged_survive_witness :
  exists st result w2 t w3, startup (fair_env 400) life_options serve_left = (Ret (st, result), w2) /\
    lookup (fair_env 400) st (lit "k") w2 =
      (Ret (answer_at (clock_at (fair_env 400) t) (mkEntry (lit "v") false 0)), w3).
Proof.
  assert (dir_name life_options <> []) as Hdir by discriminate.
  pose proof (acknowledged_survive serve_env (demo_net 99) 0 2 serve_sys 0 (fun _ => None) [] 0 1 life_options
    (life_crash_only 99) (life_sane 99) serve_about eq_refl Hdir) as H. fold serve_run in H. cbv zeta in H.
  destruct H as (steps & ys & m & H1 & H2 & H3 & _ & H5 & H6 & H7).
  destruct (serve_forced steps ys m _ _ H1 H2 H3 H5 H6 H7) as (HD & Hch & Hm). rewrite Hch in HD. clear - HD Hm.
  destruct (HD (fair_env 400) 400%nat _ serve_left (tried_never _ _) (or_intror serve_cut) (fair_env_reliable 400) serve_within)
    as (st & result & w4 & Hst & Hk).
  destruct (Hk (lit "k")) as (j & Hj & Hlk). cbn [length] in Hj.
  assert (j = 1%nat) as -> by lia.
  destruct (Hlk (fair_env 400) 400%nat (fair_env_reliable 400)) as (t & w5 & _ & Hl5).
  - pose proof serve_budget as Hb. rewrite Hst in Hb. exact Hb.
  - intros t. cbn. lia.
  - exists st, result, w4, t, w5. split; [exact Hst|exact Hl5].
Defined.

(** ** A service that dies

    The same client, and a kernel that kills the process in the fsync of the SET.  Neither
    of the deaths that are left out is this one, so what is left can be recovered. *)

Definition cut_run : res (option bool) * sys := run (life_env 3) (demo_net 99) 0 2 serve_sys.

Lemma cut_trace : exists w0 w1, trace cut_run.2 = [Accepted 5; Merging w0; Interrupted 5 demo_request w1].
Proof.
  assert (match trace cut_run.2 with
          | [Accepted a; Merging _; Interrupted b d _] => (a, b, d) = (5, 5, demo_request)
          | _ => False
          end) as H by (vm_compute; reflexivity).
  revert H. generalize (trace cut_run.2). intros tr.
  do 3 (destruct tr as [|[] tr]; [done|..]; try done). destruct tr; [|done].
  intros [= -> -> ->]. by eexists _, _.
Qed.

Lemma cut_small : ~ oversized (options_ (store_ (srv serve_sys))) 0 (trace cut_run.2).
Proof.
  destruct cut_trace as (w0 & w1 & Htr).
  assert (forallb (fun e => match e with Merging w => disk_use w <? kMaxDisk | _ => true end) (trace cut_run.2) = true)
    as H by (vm_compute; reflexivity).
  rewrite Htr in *. cbn [forallb] in H. rewrite !andb_true_r in H. cbn [andb] in H. apply Z.ltb_lt in H.
  unfold oversized, swollen, overgrown. rewrite !Exists_cons, !Exists_nil. intros [?|[_ ?]]; intuition lia.
Qed.

(** The one command in flight is the SET. *)
Lemma cut_flight steps ys σ w0 w1 :
  trace σ = [Accepted 5; Merging w0; Interrupted 5 demo_request w1] -> steps.*1 = trace σ -> recorded steps ->
  in_flight (life_env 3) 0 steps ys σ -> execs steps = [] /\ exists x, ys = [x] /\ x_cmd x = set_k_v.
Proof.
  intros Htr Ht Hr Hfl. rewrite Htr in Ht. destruct steps as [|[e1 b1] [|[e2 b2] [|[e3 b3] [|? ?]]]]; try done.
  cbn in Ht. injection Ht as -> -> ->. destruct Hr as [Hr _].
  repeat (apply Forall_cons in Hr as [? Hr]). cbn in *. subst.
  split; [done|]. destruct Hfl as (cs & _ & Hpre & past & c & st1 & out1 & w2 & Hys & _).
  change (x_cmd <$> ys `prefix_of` fr_cmds (framed demo_request)) in Hpre. rewrite serve_framed, Hys in Hpre.
  destruct past as [|y past].
  - apply prefix_cons_inv_1 in Hpre as ->. destruct ys as [|y [|? ?]]; try done. injection Hys as Hy. by exists y.
  - apply prefix_cons_inv_2 in Hpre. apply prefix_nil_inv in Hpre. by destruct past.
Qed.

Theorem cut_serve_outlives :
  cut_run.1 = Dead /\ exists x m, x_cmd x = set_k_v /\
    outlives (life_env 3) (fun _ => None) (store_options life_options) (x_changes x) m (files cut_run.2).
Proof.
  split; [vm_compute; reflexivity|].
  pose proof (run_outlives (life_env 3) (demo_net 99) 0 2 serve_sys 0 (fun _ => None) [] 0 1 life_options
    (life_crash_only 3) (life_sane 3) (serve_about_at 3) eq_refl) as H. fold cut_run in H. cbv zeta in H.
  destruct H as (steps & ys & m & H1 & H2 & _ & H4 & _ & _ & H7). destruct cut_trace as (w0 & w1 & Htr).
  destruct (cut_flight steps ys _ w0 w1 Htr H1 H2 H4) as [He (x & -> & Hx)]. rewrite He in H7. cbn [app] in H7.
  change (policy_name (wal_policy (store_ (srv serve_sys)))) with (lit "always") in H7.
  destruct H7 as [Hc|[Hsw|[Hl H7]]]; [unfold crowded in Hc; change (zlen [x]) with 1 in Hc; lia
    |destruct (cut_small Hsw)|].
  destruct (serve_legal x _ _ _ Hx Hl) as [_ Hch]. exists x, m. split; [exact Hx|].
  destruct H7 as [(y & Hy & Hw)|[[_ (v0 & now & Hlast & _)]|H7]].
  - injection Hy as <-. rewrite Hch in Hw. discriminate Hw.
  - rewrite Htr in Hlast. discriminate Hlast.
  - unfold effects in H7. cbn in H7. rewrite app_nil_r in H7. exact H7.
Qed.
