(* ===== verification/Restart.v ===== *)
(** * From one life of the server to the next

    After a power cut the process that is started on what is left is again a server about
    to serve, in the sense of [Service], and what it holds is a state of the history of
    the one before: so the theorems of [Service] hold of it too, and of the next, for any
    number of lives.

    After a mere kill this is not so.  The page cache keeps what the dead process had
    written and not synced; the new process replays it, counts it as synced, and answers
    from it ([restart_trusts_log], and [kill_then_power_cut] for where that leads). *)

From stdpp Require Import gmap.
From S2P Require Import Prelude Decimal Resp SortedMap Memtable WalCodec Posix Wal Sstable Compaction Store StoreSpec Command Abstract Connection LogGuard Session Server ServerSpec Main Crash Durable Recovery Lifecycle Startup Footprint Refine Merging Ledger Service.

(** ** The memtable that replay builds *)

(** The longest log covered: 16 GiB. *)
Definition kMaxLog : Z := 2 ^ 34.

(** What a record costs in memory, by what it takes in the log. *)
Lemma record_cost r : entry_cost (r_key r) (r_value r) <= 16 * zlen (encode_rec r).
Proof.
  rewrite zlen_encode_rec. unfold entry_cost, kEntryOverhead.
  pose proof (heap_cost_bound (zlen (r_key r)) (zlen_nonneg _)).
  pose proof (heap_cost_bound (zlen (r_value r)) (zlen_nonneg _)).
  pose proof (zlen_nonneg (r_key r)). pose proof (zlen_nonneg (r_value r)).
  assert (0 <= extra_of (wire_op (r_op r) (r_expires_at_ms r))) by (rewrite extra_of_wire; case_match; lia). lia.
Qed.

Lemma roomy_apply b n st r :
  memtable_wf (memtable_ st) -> roomy b n (memtable_ st) -> record_ok r ->
  b + 16 * zlen (encode_rec r) < 2 ^ 64 ->
  memtable_wf (memtable_ (apply st r)) /\ roomy (b + 16 * zlen (encode_rec r)) (n + 1) (memtable_ (apply st r)).
Proof.
  intros Hwf Hm (Hk & Hv & _ & He & _) Hlt. pose proof (record_cost r) as Hc.
  pose proof (entry_cost_split (r_key r) (r_value r)).
  pose proof (heap_cost_nonneg (zlen (r_value r)) (zlen_nonneg _)).
  unfold apply. cbn [memtable_ set_memtable]. destruct (r_op r).
  - split; [by apply set_wf|]. eapply roomy_mono; [| |apply (roomy_set b n)]; try done; lia.
  - split; [by apply del_wf|]. eapply roomy_mono; [| |apply (roomy_del b n)]; try done; lia.
Qed.

Lemma roomy_replayed log : forall b n st,
  memtable_wf (memtable_ st) -> roomy b n (memtable_ st) -> Forall record_ok log ->
  b + 16 * zlen (enc log) < 2 ^ 64 ->
  roomy (b + 16 * zlen (enc log)) (n + zlen log) (memtable_ (fold_left apply log st)).
Proof.
  induction log as [|r log IH]; intros b n st Hwf Hm Hok Hlt; cbn [fold_left].
  { change (enc []) with (@nil byte). by rewrite !Z.add_0_r. }
  apply Forall_cons in Hok as [Hr Hok]. change (enc (r :: log)) with (encode_rec r ++ enc log) in *.
  rewrite zlen_app in *. pose proof (zlen_nonneg (enc log)).
  destruct (roomy_apply b n st r Hwf Hm Hr) as [Hwf1 Hm1]; [lia|].
  eapply roomy_mono; [| |apply (IH _ _ _ Hwf1 Hm1 Hok)]; rewrite ?zlen_cons; lia.
Qed.

(** ** A start-up after a power cut *)

(** The constructor of the server leaves store, files and connections alone. *)
Definition idle (σ σ' : sys) : Prop :=
  store_ (srv σ') = store_ (srv σ) /\ files σ' = files σ /\ conns_ (srv σ') = conns_ (srv σ) /\
  (Forall is_listening (trace σ) -> Forall is_listening (trace σ')).

#[local] Instance idle_preorder : PreOrder idle.
Proof.
  split; unfold idle; [by intros σ|].
  intros a b c (H1 & H2 & H3 & H4) (H1' & H2' & H3' & H4'). split_and!; try congruence. auto.
Qed.

Lemma idle_setup N what : always idle (setup N what).
Proof.
  apply (always_bind idle); [by intros σ|]. intros n. case_match; [apply (always_throw idle)|].
  case_match; [apply (always_throw idle)|apply (always_ret idle)].
Qed.

Lemma idle_update {A} (g : Server -> Server) (k : SM A) :
  (forall s, store_ (g s) = store_ s /\ conns_ (g s) = conns_ s) -> always idle k ->
  always idle (s ← server; _ ← put_server (g s); k).
Proof.
  intros Hg Hk σ. cbv [mbind SM_bind server put_server]. etransitivity; [|apply Hk].
  destruct (Hg (srv σ)) as [E1 E2]. unfold idle. cbn. by rewrite E1, E2.
Qed.

Lemma idle_listening a p : always idle (log (fun _ => Listening a p)).
Proof. intros σ. unfold idle. cbn. split_and!; try done. intros H. apply Forall_app. split; [done|]. by apply Forall_singleton. Qed.

Lemma idle_Server_open N p : always idle (Server_open N p).
Proof.
  unfold Server_open.
  repeat first
    [ apply idle_update; [by split|]
    | apply (always_bind idle); [first [apply idle_setup|apply idle_listening]|intros ?]
    | apply (always_ret idle) ].
Qed.

Lemma Server_open_idle N p st w σ :
  Server_open N p (mkSys (mkServer st (-1) (-1) ∅) w 0 []) = (Ret tt, σ) ->
  store_ (srv σ) = st /\ files σ = w /\ conns_ (srv σ) = ∅ /\ Forall is_listening (trace σ).
Proof.
  intros H. pose proof (idle_Server_open N p (mkSys (mkServer st (-1) (-1) ∅) w 0 [])) as Hi.
  rewrite H in Hi. destruct Hi as (? & ? & ? & Ht). split_and!; try done. by apply Ht.
Qed.

(** What start-up has built on a disk that lost its caches: a store that follows the
    history of the log over the tables, all of it durable. *)
Lemma started_serves E2 o layers log tail fd T w st w2 p N2 σ2 :
  dir_synced w = dir w -> (forall i, (i < next_ino w)%nat -> ino_synced w !! i = Some (contents w i)) ->
  dir_rep w (store_options o) layers -> dir_name o <> [] ->
  dir w !! wal_path (dir_name o) = Some fd -> contents w fd = enc log ++ tail ->
  Forall record_ok log -> tail = [] \/ torn tail ->
  started o layers log fd w st w2 -> (forall q, q ∈ temps st -> dir w2 !! q = None) ->
  zlen (enc log) <= kMaxLog -> memtable_limit o <= kMaxMemtable ->
  (forall t, T <= clock_at E2 t) ->
  Server_open N2 p (mkSys (mkServer st (-1) (-1) ∅) w2 0 []) = (Ret tt, σ2) ->
  about_to_serve E2 fd (first_of layers.*2) (write_of <$> log) (length log) (next_sequence_ st) σ2.
Proof.
  intros Hds His Hrep Hdir Hlog Hc Hok Ht Hst Hgone Hsz Hlim HT Hopen.
  pose proof (started_running o layers log tail fd T w st w2 Hds His Hrep Hdir Hlog Hc Hok Ht Hst Hgone) as R.
  destruct (Server_open_idle _ _ _ _ _ Hopen) as (Es & Ef & Ec & Et).
  destruct Hst as (I & Ho & _ & _ & _ & (t0 & size & Hw) & Hc2 & Hs2 & _ & _ & _ & _ & _ & (st0 & Hm0 & Hm)).
  constructor; [done|done|..]; rewrite ?Es, ?Ef.
  - split; [exists (mkWal fd (policy o) [] t0 kSyncIntervalMs size 0 0 (group o)); by rewrite Es|].
    unfold log_inv. rewrite Es, Ef, Hw. cbn [Wal.fd_].
    assert (fd ∈ open_fds st) as Hfd by (unfold open_fds; rewrite Hw; apply elem_of_app; right; by left).
    split; [split; [by apply (si_fds _ _ _ I)|intros q Hq; by rewrite Hgone]|left].
    apply (sync_count_zero prefix); [done|]. exists (enc log ++ tail). cbn [Wal.fd_]. rewrite Hs2, Hc2, <- Hc.
    split; [apply His; by eapply (dr_dir _ _ _ Hrep)|rewrite Hc; by eexists].
  - split; [|eexists; eapply running_later; [apply HT|exact R]]. constructor; [by rewrite Ho| |done].
    rewrite Hm. eapply (roomy_count _ (zlen log)), (roomy_mono (0 + 16 * zlen (enc log)) _ (0 + zlen log));
      [unfold kMaxMemtable, kMaxLog in *; lia|lia|].
    unfold kMaxLog in Hsz. apply roomy_replayed; rewrite ?Hm0; [apply init_wf|by apply roomy_init|done|lia].
Qed.

(** The start-up on a disk that can be recovered and has lost its caches: any server that
    opens on the store it builds is about to serve. *)
Lemma recoverable_serves E' o V0 ws s T k w :
  recoverable (store_options o) V0 ws s T w -> dir_name o <> [] -> reliable E' k -> files_within w k ->
  dir_synced w = dir w -> (forall i, (i < next_ino w)%nat -> ino_synced w !! i = Some (contents w i)) ->
  Z.of_nat k <= kMaxLog -> memtable_limit o <= kMaxMemtable ->
  exists st result w2 V' ws' fd', startup E' o w = (Ret (st, result), w2) /\ options_ st = store_options o /\
    (forall key, exists j, (s <= j <= length ws)%nat /\
      same_answer T (after V' ws' key) (after V0 (take j ws) key)) /\
    forall E2 N2 σ2, (forall t, T <= clock_at E2 t) ->
      Server_open N2 (port o) (mkSys (mkServer st (-1) (-1) ∅) w2 0 []) = (Ret tt, σ2) ->
      about_to_serve E2 fd' V' ws' (length ws') (next_sequence_ st) σ2.
Proof.
  intros (layers & log & tail & fd & Hrep & Hlog & Hok & Hc & Ht & Hk) Hdir Hrel Hn Hds His Hkl Hlim.
  pose proof (wp_startup E' o layers log tail fd k w Hrep Hdir Hlog Hc Hok Ht Hn) as H. unfold wp in H.
  destruct (startup E' o w) as [[[st result]|e|] w2]; [|done|done]. cbn [fst snd] in H.
  destruct H as (Hst & Hgone & _).
  exists st, result, w2, (first_of layers.*2), (write_of <$> log), fd. split; [done|].
  split; [apply Hst|]. split; [done|]. intros E2 N2 σ2 HT Hopen. rewrite length_fmap.
  eapply (started_serves E2 o layers log tail fd T w); try done; [by apply Hgone|].
  specialize (Hn fd). rewrite Hc, length_app in Hn. unfold zlen. lia.
Qed.

(** C3: The server can be started again, and again.  A server runs as in the theorems of
    [Service] and the power fails, anywhere but in the middle of a FLUSHALL and in the
    moment a merge of the oldest tables replaces its inputs (both as in [Service]).  Then
    [startup] on what is left returns, even if others died before it, and the server that
    opens on the store it built is about to serve, in the very sense those theorems
    assume, with a history all of which is durable; the map it starts from has every key as at a point of the old history after the last
    command that was executed before a reply left.  (For a directory of files up to
    16 GiB; by a kernel that does its work during the start-up, and a clock that does
    not go back over it.) *)
Theorem serve_again (E : env) (N : net) (kStartedMs : Z) (fuel : nat) (σ : sys) (fd : nat)
    (V : bytes -> option Entry) (ws : list write) (s : nat) (n : Z) (o : Options) :
  crash_only E -> clock_sane E -> about_to_serve E fd V ws s n σ ->
  options_ (store_ (srv σ)) = store_options o -> dir_name o <> [] ->
  let r := run E N kStartedMs fuel σ in
  exists steps ys m, let xs := execs steps ++ ys in
    let changes := puts ws ++ effects xs in
    steps.*1 = trace r.2 /\ recorded steps /\ sessions_by (owe steps) r.2 /\
    in_flight E kStartedMs steps ys r.2 /\ (forall b, r.1 = Ret b -> ys = []) /\
    (forall a e b, steps = a ++ (e, []) :: b -> is_sent e -> (length (puts ws ++ effects (execs a)) <= m)%nat) /\
    (crowded n xs \/ oversized (options_ (store_ (srv σ))) fd (trace r.2) \/
     legal (policy_name (wal_policy (store_ (srv σ)))) (now_of E (files σ)) (state V (puts ws)) xs
       (now_of E (files r.2)) /\
     (in_wipe ys \/ (forall b, r.1 <> Ret b) /\ torn_end E r.2 \/
      forall E' k w0 w1, tried o (files r.2) w0 -> power_cut w0 w1 -> reliable E' k -> files_within w1 k ->
      Z.of_nat k <= kMaxLog ->
      exists st' result w2 V' ws' fd', startup E' o w1 = (Ret (st', result), w2) /\
        options_ st' = store_options o /\
        (forall key, exists j, (m <= j <= length changes)%nat /\
          same_answer (now_of E (files r.2)) (state V' (puts ws') key) (state V (take j changes) key)) /\
        forall E2 N2 σ2, (forall t, now_of E (files r.2) <= clock_at E2 t) ->
          Server_open N2 (port o) (mkSys (mkServer st' (-1) (-1) ∅) w2 0 []) = (Ret tt, σ2) ->
          about_to_serve E2 fd' V' ws' (length ws') (next_sequence_ st') σ2)).
Proof.
  intros Hco Hck Hab Ho Hdir r. destruct (run_outlives E N kStartedMs fuel σ fd V ws s n o Hco Hck Hab Ho)
    as (steps & ys & m & H1 & H2 & H3 & H4 & H5 & H6 & Hcase).
  exists steps, ys, m. cbn zeta. split_and!; try done.
  destruct Hcase as [?|[?|[Hl Hcase]]]; [by left|by right; left|]. right. right. split; [done|].
  destruct Hcase as [?|[?|(pre & new & s' & Hcs & Hm & Hsv)]]; [by left|by right; left|]. right. right.
  intros E' k w0 w1 Htr Hcr Hrel Hwi Hkl. apply (tried_survives o _ _ _ _ _ _ Htr) in Hsv.
  specialize (Hsv w1 (or_intror Hcr)).
  assert (memtable_limit o <= kMaxMemtable) as Hlim.
  { destruct (ab_follows _ _ _ _ _ _ _ Hab) as [[Hlim _ _] _]. by rewrite Ho in Hlim. }
  destruct (recoverable_serves E' o _ _ _ _ k w1 Hsv Hdir Hrel Hwi (pc_dir_synced _ _ Hcr) (pc_ino_synced _ _ Hcr) Hkl Hlim)
    as (st' & result & w2 & V' & ws' & fd' & Hst & Ho' & Hk & Hnext).
  exists st', result, w2, V', ws', fd'. split_and!; [done|done| |exact Hnext].
  intros key. destruct (Hk key) as (j & Hj & Ha). rewrite Hcs. exists (length pre + j)%nat. split.
  { rewrite length_app. unfold puts. rewrite length_fmap. lia. }
  by rewrite state_take, state_puts.
Qed.

(** ** A second life

    The run of [Service] that ends in a power cut, and the server that is opened on what
    is left. *)

Definition second_life : res unit * sys :=
  match startup (fair_env 400) life_options serve_left with
  | (Ret (st, _), w2) => Server_open (demo_net 99) (port life_options) (mkSys (mkServer st (-1) (-1) ∅) w2 0 [])
  | _ => (Dead, serve_sys)
  end.

Lemma second_opened : second_life.1 = Ret tt.
Proof. vm_compute. reflexivity. Qed.

Lemma serve_again_witness :
  exists fd V ws n, about_to_serve (fair_env 400) fd V ws (length ws) n second_life.2 /\
    same_answer (now_of serve_env (files serve_run.2)) (state V (puts ws) (lit "k"))
      (Some (mkEntry (lit "v") false 0)).
Proof.
  assert (dir_name life_options <> []) as Hdir by discriminate.
  pose proof (serve_again serve_env (demo_net 99) 0 2 serve_sys 0 (fun _ => None) [] 0 1 life_options
    (life_crash_only 99) (life_sane 99) serve_about eq_refl Hdir) as H. fold serve_run in H. cbv zeta in H.
  destruct H as (steps & ys & m & H1 & H2 & H3 & _ & H5 & H6 & H7).
  destruct (serve_forced steps ys m _ _ H1 H2 H3 H5 H6 H7) as (HD & Hch & Hm). rewrite Hch in HD. clear - HD Hm.
  destruct (HD (fair_env 400) 400%nat _ serve_left (tried_never _ _) serve_cut (fair_env_reliable 400) serve_within)
    as (st & result & w2 & V & ws & fd & Hst & _ & Hk & Hnext); [unfold kMaxLog; lia|].
  pose proof second_opened as Hopen. unfold second_life in *. rewrite Hst in *.
  destruct (Server_open _ _ _) as [r σ2] eqn:Ho in Hopen |- *. cbn [fst snd] in *. subst r.
  exists fd, V, ws, (next_sequence_ st). split; [apply (Hnext _ (demo_net 99)); [intros t; cbn; lia|exact Ho]|].
  destruct (Hk (lit "k")) as (j & Hj & Ha). cbn [length] in Hj.
  assert (j = 1%nat) as -> by lia. exact Ha.
Defined.

(** ** A kill is not a power cut

    A process from its start-up on, with one client that connects and sends one request. *)

Definition life (E : env) (N : net) (o : Options) (fuel : nat) (w : world) : res (option bool) * sys :=
  match startup E o w with
  | (Ret (st, _), w) =>
      (_ ← Server_open N (port o); run E N 0 fuel) (mkSys (mkServer st (-1) (-1) ∅) w 0 [])
  | (Throw e, w) => (Throw e, mkSys (mkServer life_store (-1) (-1) ∅) w 0 [])
  | (Dead, w) => (Dead, mkSys (mkServer life_store (-1) (-1) ∅) w 0 [])
  end.

Definition batch_options : Options := mkOpts 6379 (lit "d") kAlways 1000 true true true.

Definition client_net (request : bytes) : net :=
  mkNet (fun _ => false)
    (fun n => if Nat.eqb n 7 then inr [(3, EPOLLIN)] else if Nat.eqb n 10 then inr [(5, EPOLLIN)] else inr [])
    (fun _ => [inr (5, true); inl EAGAIN]) (fun _ => [inr request]) (fun _ => [inr 99%nat])
    (fun _ => true) (fun n => inr (3 + Z.of_nat n)).

Definition del_k : bytes := requests [[lit "DEL"; lit "k"]].
Definition get_k : bytes := requests [[lit "GET"; lit "k"]].

(** The process is killed in the fsync of the commit; the next one runs on what is in the
    page cache. *)
Definition killed_life : res (option bool) * sys :=
  life (env_but 18 []) (client_net del_k) batch_options 2 serve_left.
Definition after_kill : res (option bool) * sys :=
  life (fair_env 400) (client_net get_k) batch_options 2 (files killed_life.2).

(** A restart takes what it replays for durable.  The directory holds the key "k" on
    the disk; the policy is [kAlways].  A client deletes "k" and the process is killed
    in the fsync of that turn: the record is in the page cache but not on the disk, and
    the client got no reply.  The next process replays the record and opens the log
    with nothing counted as unsynced, so when the client asks what became of its
    command, the turn has nothing to sync and the reply leaves: there is no such key.
    The power fails, and the key is back. *)
Theorem kill_then_power_cut :
  restarted (lit "k") serve_left = Ret (Some (mkFound (lit "v") 0)) /\
  killed_life.1 = Dead /\ session_of (trace killed_life.2) 5 = (del_k, []) /\
  after_kill.1 = Ret None /\ session_of (trace after_kill.2) 5 = (get_k, lit "$-1" ++ kCrlf) /\
  restarted (lit "k") (power_loss (files after_kill.2)) = Ret (Some (mkFound (lit "v") 0)).
Proof. split_and!; vm_compute; reflexivity. Qed.

(** The store a start-up builds, and its log. *)
Lemma startup_log E' o V0 ws s T k w :
  recoverable (store_options o) V0 ws s T w -> dir_name o <> [] -> reliable E' k -> files_within w k ->
  exists st result w2 wal, startup E' o w = (Ret (st, result), w2) /\ wal_ st = Some wal /\
    dir w !! wal_path (dir_name o) = Some (Wal.fd_ wal) /\ bytes_since_sync_ wal = 0 /\
    ino_synced w2 = ino_synced w /\ dir_synced w2 = dir_synced w.
Proof.
  intros (layers & log & tail & fd & Hrep & Hlog & Hok & Hc & Ht & Hk) Hdir Hrel Hn.
  pose proof (wp_startup E' o layers log tail fd k w Hrep Hdir Hlog Hc Hok Ht Hn) as H. unfold wp in H.
  destruct (startup E' o w) as [[[st result]|e|] w2]; [|done|done]. cbn [fst snd] in H.
  destruct H as ((_ & _ & _ & _ & _ & (t & size & Hw) & _ & Hs & _ & _ & _ & _ & Hds & _) & _).
  by exists st, result, w2, (mkWal fd (policy o) [] t kSyncIntervalMs size 0 0 (group o)).
Qed.

(** C37: A restart forces nothing to the disk, and takes all it found for synced.  On any
    directory it can recover, whatever of the log is on the disk and whatever only in
    the page cache, start-up returns a store whose log says it needs no sync, and has
    made neither a byte nor a name durable that was not before; and the commit of a turn
    in which no command has written leaves the files as they are, so the replies of such
    a turn go out over a log that may not be on the disk. *)
Theorem restart_trusts_log (E' : env) (o : Options) (V0 : bytes -> option Entry) (ws : list write) (s : nat)
    (T : Z) (k : nat) (w : world) :
  recoverable (store_options o) V0 ws s T w -> dir_name o <> [] -> reliable E' k -> files_within w k ->
  exists st result w2 wal, startup E' o w = (Ret (st, result), w2) /\ wal_ st = Some wal /\
    dir w !! wal_path (dir_name o) = Some (Wal.fd_ wal) /\ needs_sync wal = false /\
    ino_synced w2 = ino_synced w /\ dir_synced w2 = dir_synced w /\
    forall E2 σ, wal_ (store_ (srv σ)) = Some wal -> exists σ', commit E2 σ = (Ret true, σ') /\ files σ' = files σ.
Proof.
  intros Hr Hdir Hrel Hn. destruct (startup_log E' o V0 ws s T k w Hr Hdir Hrel Hn)
    as (st & result & w2 & wal & Hst & Hw & Hfd & Hb & Hs & Hds).
  assert (needs_sync wal = false) as Hns by (unfold needs_sync; by rewrite Hb).
  exists st, result, w2, wal. split_and!; try done. intros E2 σ Hσ. unfold commit, on_wal, on_store.
  rewrite Hσ, Hns. eexists. split; [reflexivity|done].
Qed.

(** A process that was killed in the fsync of a SET: the record is written, and not on the
    disk. *)
Definition cut_disk : world := (execute (life_env 2) 0 set_k_v life_store [] empty_disk).2.

Lemma cut_recoverable : exists V ws s T, recoverable (store_options life_options) V ws s T cut_disk.
Proof.
  assert (small set_k_v) as Hs by (split; [|repeat constructor]; vm_compute; discriminate).
  pose proof (wp_execute_run (life_env 2) (life_crash_only 2) (life_sane 2) 0 _ _ _ _ life_store empty_disk set_k_v []
    (life_follows 2) ltac:(lia) Hs ltac:(discriminate)) as H. unfold wp in H. fold cut_disk in H.
  assert ((execute (life_env 2) 0 set_k_v life_store [] empty_disk).1 = Dead) as Hd by (vm_compute; reflexivity).
  rewrite Hd in H. destruct H as (info & τ & _ & [Hw|(new & _ & Hsv)]); [vm_compute in Hw; discriminate Hw|].
  eexists _, _, _, _. exact (Hsv cut_disk (or_introl (reflexivity _))).
Qed.

Lemma restart_trusts_log_witness :
  contents cut_disk 0 = encode_rec (mkRecord kSet 5 0 (lit "k") (lit "v")) /\ ino_synced cut_disk !! 0%nat = Some [] /\
  exists st result w2 wal, startup (fair_env 400) life_options cut_disk = (Ret (st, result), w2) /\
    wal_ st = Some wal /\ needs_sync wal = false /\ ino_synced w2 !! 0%nat = Some [].
Proof.
  assert (ino_synced cut_disk !! 0%nat = Some []) as H0 by (vm_compute; reflexivity).
  split; [vm_compute; reflexivity|]. split; [exact H0|].
  destruct cut_recoverable as (V & ws & s & T & Hr).
  assert (files_within cut_disk 400) as Hwi.
  { apply files_within_map. apply (bool_decide_unpack _). vm_compute. exact I. }
  destruct (restart_trusts_log (fair_env 400) life_options V ws s T 400 cut_disk Hr ltac:(discriminate)
    (fair_env_reliable 400) Hwi) as (st & result & w2 & wal & Hst & Hw & _ & Hns & Hs & _).
  exists st, result, w2, wal. rewrite Hs. split; [exact Hst|]. split; [exact Hw|]. split; [exact Hns|exact H0].
Defined.
