(* ===== verification/Fd.v ===== *)
(** * Owned descriptors ([fd.h])

    [class Fd], the one owner of every descriptor in the program.  An object is a
    variable that holds an [int]; the kernel keeps the set of open descriptors and
    remembers whether a [close] was ever given one that is not open.  The rest of the
    program is whatever sequence of the class's operations C++ lets it perform. *)

From stdpp Require Import gmap.
From S2P Require Import Prelude.

(** ** State *)

Record fdstate := mkFds {
  fds : gmap nat Z;   (** the live objects and their [fd_] *)
  kopen : gset Z;     (** descriptors the process has open *)
  ebadf : bool        (** some [close] failed with [EBADF] *)
}.

Definition get (x : nat) (s : fdstate) : Z := default (-1) (fds s !! x).
Definition valid (x : nat) (s : fdstate) : bool := 0 <=? get x s.

Definition put (x : nat) (fd : Z) (s : fdstate) : fdstate := mkFds (<[x := fd]> (fds s)) (kopen s) (ebadf s).

(** [::close(fd)]. *)
Definition close (fd : Z) (s : fdstate) : fdstate :=
  mkFds (fds s) (kopen s ∖ {[fd]}) (ebadf s || negb (bool_decide (fd ∈ kopen s))).

(** ** Operations *)

(** The constructors; no argument is -1. *)
Definition Fd_init (x : nat) (fd : Z) (s : fdstate) : fdstate := put x fd s.

Definition release (x : nat) (s : fdstate) : Z * fdstate := (get x s, put x (-1) s).

Definition reset (x : nat) (fd : Z) (s : fdstate) : fdstate :=
  put x fd (if 0 <=? get x s then close (get x s) s else s).

Definition move_init (x y : nat) (s : fdstate) : fdstate :=
  let '(fd, s) := release y s in put x fd s.

Definition move_assign (x y : nat) (s : fdstate) : fdstate :=
  let '(fd, s) := release y s in reset x fd s.

Definition destroy (x : nat) (s : fdstate) : fdstate :=
  let s := reset x (-1) s in mkFds (delete x (fds s)) (kopen s) (ebadf s).

(** ** Programs

    [raw] is what the program holds as plain integers: what a call gave it and no
    object owns yet, or what it took back with [release].  The types rule out a copy,
    the use of an object that is not live, and, as long as the program gives a raw
    descriptor to one object only, nothing else. *)

Definition may_give (fd : Z) (raw : gset Z) : Prop := fd < 0 \/ fd ∈ raw.

Inductive step : gset Z * fdstate -> gset Z * fdstate -> Prop :=
  | step_open fd raw s :
      0 <= fd -> fd ∉ kopen s ->
      step (raw, s) ({[fd]} ∪ raw, mkFds (fds s) ({[fd]} ∪ kopen s) (ebadf s))
  | step_init x fd raw s :
      fds s !! x = None -> may_give fd raw ->
      step (raw, s) (raw ∖ {[fd]}, Fd_init x fd s)
  | step_reset x fd raw s :
      is_Some (fds s !! x) -> may_give fd raw ->
      step (raw, s) (raw ∖ {[fd]}, reset x fd s)
  | step_release x raw s :
      is_Some (fds s !! x) ->
      step (raw, s) ((if valid x s then {[get x s]} else ∅) ∪ raw, (release x s).2)
  | step_move_init x y raw s :
      fds s !! x = None -> is_Some (fds s !! y) ->
      step (raw, s) (raw, move_init x y s)
  | step_move_assign x y raw s :
      is_Some (fds s !! x) -> is_Some (fds s !! y) ->
      step (raw, s) (raw, move_assign x y s)
  | step_destroy x raw s :
      is_Some (fds s !! x) -> step (raw, s) (raw, destroy x s).

Definition start : gset Z * fdstate := (∅, mkFds ∅ ∅ false).

(** ** The invariant *)

(** Every open descriptor has one owner: an object or the program. *)
Record owned (raw : gset Z) (s : fdstate) : Prop := mkOwned {
  ow_open x fd : fds s !! x = Some fd -> 0 <= fd -> fd ∈ kopen s /\ fd ∉ raw;
  ow_one x y fd : fds s !! x = Some fd -> fds s !! y = Some fd -> 0 <= fd -> x = y;
  ow_raw fd : fd ∈ raw -> 0 <= fd /\ fd ∈ kopen s;
  ow_none fd : fd ∈ kopen s -> fd ∈ raw \/ exists x, fds s !! x = Some fd /\ 0 <= fd;
  ow_fine : ebadf s = false
}.

Lemma get_live x s fd : fds s !! x = Some fd -> get x s = fd.
Proof. unfold get. by intros ->. Qed.

(** Taking the descriptor out of an object gives it to the program. *)
Lemma owned_release x raw s :
  is_Some (fds s !! x) -> owned raw s ->
  owned ((if valid x s then {[get x s]} else ∅) ∪ raw) (put x (-1) s).
Proof.
  intros [d Hd] [H1 H2 H3 H4 H5]. unfold valid. rewrite (get_live _ _ _ Hd).
  constructor; cbn [put fds kopen ebadf]; [..|done].
  - intros y fd [[<- <-]|[Hne Hy]]%lookup_insert_Some Hfd; [lia|]. destruct (H1 y fd Hy Hfd). split; [done|].
    rewrite elem_of_union. intros [Hin|]; [|done]. destruct (0 <=? d); [|by apply elem_of_empty in Hin].
    apply elem_of_singleton in Hin as ->. by apply Hne, (H2 x y d).
  - intros y z fd [[<- <-]|[_ Hy]]%lookup_insert_Some [[<- Hz']|[_ Hz]]%lookup_insert_Some Hfd; try lia.
    by apply (H2 y z fd).
  - intros fd [Hin|Hin]%elem_of_union; [|by apply H3].
    destruct (0 <=? d) eqn:Hle; [|by apply elem_of_empty in Hin].
    apply elem_of_singleton in Hin as ->. split; [lia|]. apply (H1 x d); [done|lia].
  - intros fd [Hin|(y & Hy & Hfd)]%H4; [left; set_solver|]. destruct (decide (y = x)) as [->|Hne].
    + left. rewrite Hd in Hy. injection Hy as ->. rewrite (proj2 (Z.leb_le _ _)) by done. set_solver.
    + right. exists y. by rewrite lookup_insert_ne.
Qed.

(** Giving a descriptor to an object that holds none. *)
Lemma owned_give x fd raw s :
  (forall d, fds s !! x = Some d -> d < 0) -> may_give fd raw -> owned raw s ->
  owned (raw ∖ {[fd]}) (put x fd s).
Proof.
  intros Hx Hg [H1 H2 H3 H4 H5].
  assert (forall y, fds s !! y = Some fd -> 0 <= fd -> False) as Hfree.
  { intros y Hy Hfd. destruct Hg; [lia|]. by destruct (H1 y fd Hy Hfd). }
  constructor; cbn [put fds kopen ebadf]; [..|done].
  - intros y d [[<- <-]|[_ Hy]]%lookup_insert_Some Hd.
    + split; [|set_solver]. destruct Hg; [lia|]. by apply H3.
    + destruct (H1 y d Hy Hd). split; [done|set_solver].
  - intros y z d [[<- <-]|[_ Hy]]%lookup_insert_Some [[<- Hz']|[_ Hz]]%lookup_insert_Some Hd; auto.
    + by destruct (Hfree z Hz Hd).
    + subst d. by destruct (Hfree y Hy Hd).
    + by apply (H2 y z d).
  - intros d [Hd _]%elem_of_difference. by apply H3.
  - intros d Hd. destruct (decide (d = fd)) as [->|Hne].
    + destruct (H4 fd Hd) as [Hr|(y & Hy & Hge)]; [|by destruct (Hfree y Hy Hge)].
      right. exists x. rewrite lookup_insert_eq. split; [done|]. by apply H3.
    + destruct (H4 d Hd) as [Hr|(y & Hy & Hge)]; [left; set_solver|].
      right. exists y. split; [|done]. rewrite lookup_insert_ne; [done|]. intros ->. specialize (Hx d Hy). lia.
Qed.

(** [close] of what the program holds. *)
Lemma owned_close fd raw s : fd ∈ raw -> owned raw s -> owned (raw ∖ {[fd]}) (close fd s).
Proof.
  intros Hin [H1 H2 H3 H4 H5]. constructor; cbn [close fds kopen ebadf].
  - intros x d Hx Hd. destruct (H1 x d Hx Hd). split; set_solver.
  - done.
  - intros d [Hd Hne]%elem_of_difference. destruct (H3 d Hd). split; [done|set_solver].
  - intros d [Hd Hne]%elem_of_difference. destruct (H4 d Hd) as [|?]; [left; set_solver|by right].
  - rewrite H5, bool_decide_true; [done|]. by apply H3.
Qed.

Lemma reset_eq x fd s :
  reset x fd s = put x fd (if valid x s then close (get x s) (release x s).2 else (release x s).2).
Proof.
  unfold reset, valid, release, put, close. destruct (0 <=? get x s); cbn; by rewrite insert_insert_eq.
Qed.

(** [reset] closes the old descriptor, if any, and takes the new one. *)
Lemma owned_reset x fd raw s :
  is_Some (fds s !! x) -> may_give fd raw -> owned raw s -> owned (raw ∖ {[fd]}) (reset x fd s).
Proof.
  intros [d Hd] Hg H. pose proof (owned_release x raw s (ex_intro _ d Hd) H) as Hr. rewrite reset_eq.
  apply owned_give; [|done|].
  - intros e. unfold release, put, close. cbn [snd]. destruct (valid x s); cbn [fds];
      rewrite lookup_insert_eq; intros [= <-]; lia.
  - destruct (valid x s) eqn:Hv; [|by rewrite union_empty_l_L in Hr].
    assert (get x s ∉ raw) as Hnot.
    { unfold valid in Hv. rewrite (get_live _ _ _ Hd) in *. apply (ow_open _ _ H x d); [done|lia]. }
    replace raw with (({[get x s]} ∪ raw) ∖ {[get x s]}) by set_solver.
    apply owned_close; [set_solver|exact Hr].
Qed.

(** What [release] gave may be given on. *)
Lemma may_give_released x raw s : may_give (get x s) ((if valid x s then {[get x s]} else ∅) ∪ raw).
Proof. unfold may_give, valid. destruct (0 <=? get x s) eqn:H; [right; set_solver|left; lia]. Qed.

Lemma released_given x raw s : is_Some (fds s !! x) -> owned raw s ->
  ((if valid x s then {[get x s]} else ∅) ∪ raw) ∖ {[get x s]} = raw.
Proof.
  intros [d Hd] H. unfold valid. rewrite (get_live _ _ _ Hd).
  assert (d ∉ raw) as Hnot.
  { intros Hin. destruct (ow_raw _ _ H d Hin). by destruct (ow_open _ _ H x d Hd) as [_ ?]. }
  destruct (0 <=? d); set_solver.
Qed.

Lemma owned_destroy x raw s : is_Some (fds s !! x) -> owned raw s -> owned raw (destroy x s).
Proof.
  intros Hx H. pose proof (owned_reset x (-1) raw s Hx (or_introl eq_refl) H) as Hr.
  assert (raw ∖ {[-1]} = raw) as Heq.
  { assert (-1 ∉ raw); [|set_solver]. intros Hin%(ow_raw _ _ H). lia. }
  rewrite Heq in Hr. unfold destroy. set (s' := reset x (-1) s) in *.
  assert (fds s' !! x = Some (-1)) as Hm by (unfold s', reset, put; apply lookup_insert_eq).
  destruct Hr as [H1 H2 H3 H4 H5]. constructor; cbn [fds kopen ebadf]; auto.
  - intros y fd [_ Hy]%lookup_delete_Some. by apply (H1 y).
  - intros y z fd [_ Hy]%lookup_delete_Some [_ Hz]%lookup_delete_Some. by apply (H2 y z fd).
  - intros fd [?|(y & Hy & Hfd)]%H4; [by left|]. right. exists y. split; [|done].
    apply lookup_delete_Some. split; [|done]. intros ->. rewrite Hm in Hy. injection Hy as <-. lia.
Qed.

Lemma owned_step raw s raw' s' : step (raw, s) (raw', s') -> owned raw s -> owned raw' s'.
Proof.
  intros Hst H. inversion Hst as [fd ? ? Hge Hnew|x fd ? ? Hx Hg|x fd ? ? Hx Hg|x ? ? Hx|x y ? ? Hx Hy|x y ? ? Hx Hy|x ? ? Hx]; subst.
  - destruct H as [H1 H2 H3 H4 H5]. constructor; cbn [fds kopen ebadf]; auto.
    + intros x d Hx Hd. destruct (H1 x d Hx Hd). split; [set_solver|]. intros [->%elem_of_singleton|?]%elem_of_union; done.
    + intros d [->%elem_of_singleton|Hd]%elem_of_union; [split; [done|set_solver]|].
      destruct (H3 d Hd). split; [done|set_solver].
    + intros d [->%elem_of_singleton|Hd]%elem_of_union; [left; set_solver|].
      destruct (H4 d Hd) as [|?]; [left; set_solver|by right].
  - apply owned_give; [|done|done]. intros d Hd. congruence.
  - by apply owned_reset.
  - by apply owned_release.
  - unfold move_init. cbn [release]. rewrite <- (released_given y raw' s Hy H).
    apply owned_give; [|apply may_give_released|by apply owned_release].
    cbn. intros d [[<- <-]|[_ Hd]]%lookup_insert_Some; [lia|congruence].
  - unfold move_assign. cbn [release]. rewrite <- (released_given y raw' s Hy H).
    apply owned_reset; [|apply may_give_released|by apply owned_release].
    cbn. destruct (decide (x = y)) as [->|]; [rewrite lookup_insert_eq; by eexists|by rewrite lookup_insert_ne].
  - by apply owned_destroy.
Qed.

(** C21: A descriptor is closed exactly once.  Whatever a program does with [Fd] objects,
    moving one into itself included: no [close] is ever given a descriptor that is
    not open, so none is closed twice; an open descriptor belongs to exactly one
    object or is in the program's own hands; and once every object is gone and the
    program holds none, all descriptors are closed. *)
Theorem fd_closed_once (raw : gset Z) (s : fdstate) :
  rtc step start (raw, s) ->
  ebadf s = false /\
  (forall fd, fd ∈ kopen s -> fd ∉ raw -> exists x, fds s !! x = Some fd /\ forall y, fds s !! y = Some fd -> y = x) /\
  (fds s = ∅ -> raw = ∅ -> kopen s = ∅).
Proof.
  intros Hrun. assert (owned raw s) as [H1 H2 H3 H4 H5].
  { change (owned (raw, s).1 (raw, s).2). revert Hrun.
    apply (rtc_ind_r (fun σ => owned σ.1 σ.2)).
    - by constructor; cbn; intros *; rewrite ?lookup_empty, ?elem_of_empty.
    - intros [raw1 s1] [raw2 s2] _ Hst H. by eapply owned_step. }
  split; [done|]. split.
  - intros fd Ho Hr. destruct (H4 fd Ho) as [|(x & Hx & Hfd)]; [done|]. exists x. split; [done|].
    intros y Hy. by apply (H2 y x fd).
  - intros Hf ->. apply elem_of_equiv_empty_L. intros fd Ho.
    destruct (H4 fd Ho) as [Hin|(x & Hx & _)]; [by apply elem_of_empty in Hin|by rewrite Hf in Hx].
Qed.

(** A descriptor accepted, moved into its connection, assigned to itself, and dropped. *)
Definition fd_life : fdstate :=
  destroy 0 (destroy 1 (move_assign 1 1 (move_init 1 0 (Fd_init 0 3 (mkFds ∅ ({[3]} ∪ ∅) false))))).

Lemma fd_life_runs : rtc step start (({[3]} ∪ ∅) ∖ {[3]}, fd_life).
Proof.
  eapply rtc_l; [apply (step_open 3); [lia|set_solver]|].
  eapply rtc_l; [apply (step_init 0 3); [reflexivity|right; set_solver]|].
  eapply rtc_l; [apply (step_move_init 1 0); [reflexivity|by eexists]|].
  eapply rtc_l; [apply (step_move_assign 1 1); by eexists|].
  eapply rtc_l; [apply (step_destroy 1); by eexists|].
  eapply rtc_l; [apply (step_destroy 0); by eexists|]. apply rtc_refl.
Qed.

Lemma fd_closed_once_witness : kopen fd_life = ∅ /\ ebadf fd_life = false.
Proof.
  destruct (fd_closed_once _ fd_life fd_life_runs) as (H1 & _ & H2).
  split; [apply H2; vm_compute; reflexivity|exact H1].
Defined.
